(* ===== verification/_CoqProject ===== *)
-Q . S2P
Prelude.v
Protocol.v
Crypto.v
Fs.v
SpoolTypes.v
SpoolFacts.v
SpoolBase.v
SpoolOps.v
SpoolRecover.v
SpoolErrors.v
SpoolFrame.v
Metrics.v
SpoolInv.v
Config.v
Credentials.v
CredentialFacts.v
HostFs.v
HostFacts.v
Setup.v
SpoolSpec.v
SpoolRefine.v
SpoolRefineOps.v
SpoolDelivery.v
SpoolRetention.v
SpoolReceipts.v
SpoolAck.v
SpoolV1.v
SpoolPick.v
SpoolSystem.v
Ledger.v
SpoolDrain.v
SpoolThreads.v
SpoolAlone.v
SpoolInterleave.v
SpoolConcurrent.v
SpoolDisk.v
SpoolScan.v
SpoolReopen.v
SpoolRestore.v
SpoolOpen.v
Lifecycle.v
SpoolAdmit.v
Admission.v
Delivery.v
Accounting.v
Startup.v
StartupFacts.v
SpoolLatch.v
Sample.v
SampleEdge.v
Witness.v
WitnessOpen.v
WitnessDrain.v
WitnessThreads.v
WitnessEdge.v
WitnessHost.v
Divergences.v
