(* ===== verification/Prelude.v ===== *)
(** * Teslatlas Edge

    Teslatlas Edge accepts telemetry events from a receiver on the same host,
    keeps them encrypted in a bounded spool on disk, and hands them in batches
    to a Hub, which acknowledges what it has stored.  Nothing admitted may
    disappear silently: a record leaves the spool because the Hub accepted it,
    or because a gap notice, which the Hub also has to accept, stands for it.
    This library models the service, one file per component, and proves that
    it keeps this promise under any failures of the storage.

    ** How the parts interact

    - The receiver listener ([src/admission.rs]) parses an envelope
      ([src/protocol.rs]) and calls [Spool::enqueue].
    - The Hub listener ([src/delivery.rs]) checks the bearer token against the
      credential store ([src/credentials.rs]), then calls [next_batch],
      [next_batch_v2], [acknowledge] or [acknowledge_v2].
    - The spool ([src/spool.rs]) keeps one encrypted file ([src/crypto.rs]) per
      record, gap notice and receipt, and [State] in memory.  [Spool::open]
      rebuilds [State] from the files.
    - Health and metrics ([src/health.rs], [src/metrics.rs]) report the spool's
      snapshot and the receiver's counters.
    - The configuration ([src/config.rs]) names all files.  The runtime
      ([src/runtime.rs], [src/tls.rs]) checks the secrets, opens the spool and
      runs both listeners; the command line ([src/main.rs]) selects what to do.

    ** Files

    Definitions that translate the source:
    - [Prelude]: results, the state-and-error monad [M], machine integers,
      ordered maps, text; the [wp] calculus for [M].
    - [Protocol]: the wire structures, validation, identities, the JSON visitor
      that refuses repeated keys.  [Crypto]: the file format around the cipher.
    - [Fs]: system calls on the spool's disk, with faults.  [HostFs]: the
      host's file tree with owners, modes and links, with faults.
    - [SpoolTypes] (data and pure helpers), [SpoolBase] (file primitives),
      [SpoolOps] (the methods of an open spool), [SpoolRecover] ([Spool::open]
      and the recover methods).
    - [Config], [Setup] (configuration, [init], receiver token rotation),
      [Credentials], [Metrics], [Admission], [Delivery], [Startup] (doctor,
      run, TLS, command line).

    Specification and proofs:
    - [SpoolFacts], [SpoolErrors], [SpoolFrame]: helpers, which errors a method
      returns, which files a primitive can change.
    - [SpoolInv]: the invariant [wf] of the state.  [SpoolSpec]: the abstract
      specification, an event system; [SpoolRefine] and [SpoolRefineOps]: every
      method is a sequence of its events.
    - [SpoolSystem], [Ledger]: any sequence of commands, and the life cycle of
      one sequence number that it refines.
    - [SpoolDelivery], [SpoolV1], [SpoolPick], [SpoolRetention],
      [SpoolReceipts], [SpoolAck], [SpoolAdmit], [SpoolLatch]: what each method
      does, on every branch.  [SpoolDrain]: a Hub that accepts everything
      empties the spool.
    - [SpoolThreads]: the methods again, cut where they take and release their
      locks, with threads and a scheduler.  [SpoolAlone]: run without other
      threads they are the methods of [SpoolOps].  [SpoolInterleave] and
      [SpoolConcurrent]: what holds for every interleaving.
    - [SpoolDisk], [SpoolScan], [SpoolReopen], [SpoolRestore], [SpoolOpen]:
      what a process leaves on disk and what the next one makes of it.
      [Lifecycle]: stops, crashes and restarts.
    - [Accounting]: what the metrics say about the requests.
    - [CredentialFacts], [HostFacts], [StartupFacts]: tokens, secrets, startup.
    - [Sample], [SampleEdge], [Witness], [WitnessOpen], [WitnessDrain],
      [WitnessThreads], [WitnessEdge], [WitnessHost]: a concrete instance of every assumption,
      on which the theorems are applied.  [Divergences]: scenarios in which the
      code does not do what it documents.

    ** How code becomes definitions

    A method of the spool is a function [Inner -> Result SpoolError A * Inner]:
    what a failing call leaves behind is part of its outcome, because [?]
    undoes nothing.  A system call consumes one tick of a clock; an [Oracle]
    says for every tick whether the call fails, with which error number, how
    much of a failing write reached the file, what the random generator
    returns and in which order a directory is listed.  Theorems quantify over
    the oracle, so over all schedules of faults.  A crash in the middle of a
    method is an oracle that fails every later call, followed by forgetting
    the memory.

    Integers are [Z] with the width's checks, saturation and wrap-around
    written out.  Maps are [gmap]; where Rust iterates a [BTreeMap] the model
    sorts ([btree_values]).

    Third-party code is a class: SHA-256, canonical JSON, serde, the AEAD
    cipher, the JSON tokenizer, TOML, base64, UUID text, rustls.  What is
    assumed of it are laws in separate classes ([AeadLaws], [SerdeLaws],
    [IdLaws], [WidthLaws] and others), which [Sample] and [SampleEdge]
    instantiate.

    ** Fuel and bounds

    [build_batch_v2] restarts after a quarantine; [S (size entries)] rounds are
    enough because every restart removed an entry ([build_batch_v2_unfold]).
    Among other threads, which may admit records, no number is, so a concurrent
    call gets its fuel as a parameter and the theorems hold for any.
    [prune_receipts] gets [S (size receipts)] rounds and removes one per round.
    Decimal text of a [u64] has at most 20 digits ([fmt_digits]).  Path
    resolution on the host stops after [WALK_LIMIT] steps with [ELOOP], as the
    kernel does.

    ** What the theorems show

    - Nothing is lost: [no_silent_loss] for one process, [open_recovers] for
      opening the files a process left, [survives_restarts] for any sequence of
      both with crashes; [run_refines_life_cycle] says the same edge by edge.
      What may be lost is tied to a receipt: the acknowledgement names the
      sequence number ([names]), draws up the receipt itself ([issued]) from
      what is pending, and puts it on record ([records]) before anything goes.
    - Concurrent calls keep these promises: [interleave_no_loss],
      [interleave_durable]; the locks cannot block for good: [no_deadlock]; the
      sequential methods are the uninterrupted runs: [program_alone].
    - Everything tracked can be read back: [run_durable]; the state stays well
      formed and within its budgets: [run_wf].
    - Delivery and acknowledgement: a batch is the oldest pending items
      ([batch_v2_correct], [batch_v1_correct], [build_batch_v2_pure]), only a
      merged prefix can be accepted ([v2_ack_prefix_spec]), accepting removes
      exactly that ([ack_v2_removes_exactly]), repeating is harmless
      ([ack_v2_replay]), refusal deletes nothing
      ([invalid_ack_deletes_nothing]), and accepting every batch empties the
      spool ([full_acceptance_drains]).
    - Admission: [enqueue_correct] gives every outcome, each error with its
      cause; [enqueue_retry], [admitted_content_kept], [exhausted_refuses];
      a failed write closes the spool ([write_failure_latches]).  Retention:
      [expire_due_counts_once], [next_batch_v2_unexpired].
    - The service: 204 means that the event is pending, stored by this request
      or before ([admission_no_content]), only an authorized acknowledgement
      deletes ([only_authorized_acks_delete], [unauthorized_changes_nothing]),
      and the metrics account for every event, kind by kind
      ([metrics_account]).  Bodies over the limits of the routers are refused
      before any handler runs ([body_limit]).
    - Credentials and host: tokens verify for their lifetime and never after
      a successful [revoke] ([verify_sound], [revocation_is_final],
      [rotation_hands_over]), set-up overwrites nothing and rotates atomically
      ([initialize_overwrites_nothing], [receiver_rotation_atomic]), accepted
      limits are within their ranges ([accepted_config]), the spool is opened
      with the key and beside the bearer of the configured files, both checked
      ([spool_opened_with_checked_secrets]), and a clean exit means synchronized ([clean_exit]).
    - Parsing and encryption: [visit_spec], [envelope_parse_at_sound],
      [sealed_file].

    ** Limits of the model

    - The concurrency theorems are about schedules that are [orderly]: while
      the calls last no removed record is admitted again under its identifier,
      and no record admitted meanwhile is at once found corrupt and left in
      place.  The other theorems speak of methods that run one at a time.
      Opening, the snapshot and the service around the spool are sequential.
      No panic poisons a mutex.  A section of [SpoolThreads] is atomic; which
      statements it joins, and why no thread can tell, is said there.
    - [SerdeLaws] assumes that a value serde writes is the value it reads
      back.  For the numbers with a fraction in an event's payload that is
      exact only if serde_json is built to parse them exactly.
    - A successful write is durable: loss of data the kernel had not yet
      written, in spite of the [fsync] calls, is not modelled.
    - The spool's directory and the rest of the host are separate stores.
    - [open_recovers] covers directories of the current format ([disk_ok]); the
      migration of older formats is modelled in [SpoolRecover], not proved.
    - Not modelled: the HTTP framework, the asynchronous runtime and its
      signals (what was served and how the listeners ended is a [Session]),
      the TLS handshake, argument parsing, the text of log and error messages. *)

From Stdlib Require Export Strings.Byte.
From stdpp Require Export base list gmap strings countable sorting.

Declare Scope edge_scope.
Delimit Scope edge_scope with edge.
Global Open Scope Z_scope.
Global Open Scope edge_scope.

(** ** Results and the state-and-error monad

    A Rust [Result<A, E>] is [Result E A].  A fallible method that mutates
    shared state is a function [W -> Result E A * W]: the state a failing
    call leaves behind is part of the outcome, because [?] returns early
    without undoing anything. *)

Inductive Result (E A : Type) : Type :=
| Ok (a : A)
| Err (e : E).
Arguments Ok {E A} a.
Arguments Err {E A} e.

Definition M (W E A : Type) : Type := W -> Result E A * W.

Section Monad.
Context {W E : Type}.

Definition ret {A} (a : A) : M W E A := fun w => (Ok a, w).
Definition fail {A} (e : E) : M W E A := fun w => (Err e, w).
Definition bind {A B} (m : M W E A) (k : A -> M W E B) : M W E B :=
  fun w => match m w with
           | (Ok a, w') => k a w'
           | (Err e, w') => (Err e, w')
           end.
(** [match m { Ok(a) => .., Err(e) => .. }]: both outcomes are inspected. *)
Definition catch {A} (m : M W E A) : M W E (Result E A) :=
  fun w => let (r, w') := m w in (Ok r, w').
Definition get : M W E W := fun w => (Ok w, w).
Definition put (w : W) : M W E unit := fun _ => (Ok tt, w).
Definition modify (f : W -> W) : M W E unit := fun w => (Ok tt, f w).
Definition of_result {A} (r : Result E A) : M W E A := fun w => (r, w).
(** [option.ok_or(e)?] *)
Definition ok_or {A} (o : option A) (e : E) : M W E A :=
  fun w => (match o with Some a => Ok a | None => Err e end, w).
(** [if b { return Err(e) }] *)
Definition throw_if (b : bool) (e : E) : M W E unit :=
  fun w => (if b then Err e else Ok tt, w).
Definition when (b : bool) (m : M W E unit) : M W E unit :=
  if b then m else ret tt.

(** A [for] loop whose body may return early with [?]. *)
Fixpoint for_each {A} (l : list A) (body : A -> M W E unit) : M W E unit :=
  match l with
  | [] => ret tt
  | x :: l' => bind (body x) (fun _ => for_each l' body)
  end.

(** A [for] loop carrying local mutable variables of type [S]. *)
Fixpoint fold_m {A S} (l : list A) (s : S) (body : S -> A -> M W E S) : M W E S :=
  match l with
  | [] => ret s
  | x :: l' => bind (body s x) (fun s' => fold_m l' s' body)
  end.

(** Weakest preconditions: [wp m Q w] says that running [m] from [w] ends
    in a result and a state that satisfy [Q], errors included. *)
Definition wp {A} (m : M W E A) (Q : Result E A -> W -> Prop) (w : W) : Prop :=
  Q (m w).1 (m w).2.

End Monad.

Notation "'let!' x ':=' m 'in' k" := (bind m (fun x => k))
  (at level 10, x pattern, m at level 100, k at level 200,
   format "'[v' 'let!'  x  ':='  m  'in' '/' k ']'") : edge_scope.
Notation "m ;; k" := (bind m (fun _ => k))
  (at level 100, k at level 200, right associativity,
   format "'[v' m  ;; '/' k ']'") : edge_scope.

Section WpLemmas.
Context {W E : Type}.

Lemma wp_ret {A} (a : A) (Q : Result E A -> W -> Prop) w :
  Q (Ok a) w -> wp (ret a) Q w.
Proof. done. Qed.

Lemma wp_fail {A} (e : E) (Q : Result E A -> W -> Prop) w :
  Q (Err e) w -> wp (fail e) Q w.
Proof. done. Qed.

Lemma wp_bind {A B} (m : M W E A) (k : A -> M W E B) Q w :
  wp m (fun r w' => match r with
                    | Ok a => wp (k a) Q w'
                    | Err e => Q (Err e) w'
                    end) w ->
  wp (bind m k) Q w.
Proof. unfold wp, bind. by destruct (m w) as [[a|e] w']. Qed.

Lemma wp_mono {A} (m : M W E A) (Q Q' : Result E A -> W -> Prop) w :
  wp m Q w -> (forall r w', Q r w' -> Q' r w') -> wp m Q' w.
Proof. unfold wp. auto. Qed.

Lemma wp_catch {A} (m : M W E A) (Q : Result E (Result E A) -> W -> Prop) w :
  wp m (fun r w' => Q (Ok r) w') w -> wp (catch m) Q w.
Proof. unfold wp, catch. by destruct (m w). Qed.

Lemma wp_throw_if b (e : E) (Q : Result E unit -> W -> Prop) w :
  (b = true -> Q (Err e) w) -> (b = false -> Q (Ok tt) w) ->
  wp (throw_if b e) Q w.
Proof. unfold wp, throw_if; destruct b; cbn; auto. Qed.

Lemma wp_ok_or {A} (o : option A) (e : E) (Q : Result E A -> W -> Prop) w :
  (forall a, o = Some a -> Q (Ok a) w) -> (o = None -> Q (Err e) w) ->
  wp (ok_or o e) Q w.
Proof. unfold wp, ok_or; destruct o; cbn; auto. Qed.

Lemma wp_get (Q : Result E W -> W -> Prop) w : Q (Ok w) w -> wp get Q w.
Proof. done. Qed.

Lemma wp_modify f (Q : Result E unit -> W -> Prop) w :
  Q (Ok tt) (f w) -> wp (modify f) Q w.
Proof. done. Qed.

(** Loop rule: an invariant indexed by the elements still to be visited. *)
Lemma wp_for_each {A} (l : list A) (body : A -> M W E unit)
    (I : list A -> W -> Prop) (Q : Result E unit -> W -> Prop) w :
  I l w ->
  (forall w', I [] w' -> Q (Ok tt) w') ->
  (forall x l' w', I (x :: l') w' ->
     wp (body x) (fun r w'' => match r with
                               | Ok _ => I l' w''
                               | Err e => Q (Err e) w''
                               end) w') ->
  wp (for_each l body) Q w.
Proof.
  intros HI Hdone Hstep. revert w HI.
  induction l as [|x l IH]; intros w HI; [by apply wp_ret, Hdone|].
  apply wp_bind. eapply wp_mono; [by apply Hstep|]. by intros [] w' ?; [apply IH|].
Qed.

Lemma wp_fold_m {A S} (l : list A) (s : S) (body : S -> A -> M W E S)
    (I : list A -> S -> W -> Prop) (Q : Result E S -> W -> Prop) w :
  I l s w ->
  (forall s' w', I [] s' w' -> Q (Ok s') w') ->
  (forall x l' s' w', I (x :: l') s' w' ->
     wp (body s' x) (fun r w'' => match r with
                                  | Ok s'' => I l' s'' w''
                                  | Err e => Q (Err e) w''
                                  end) w') ->
  wp (fold_m l s body) Q w.
Proof.
  intros HI Hdone Hstep. revert s w HI.
  induction l as [|x l IH]; intros s w HI; [by apply wp_ret, Hdone|].
  apply wp_bind. eapply wp_mono; [by apply Hstep|]. by intros [] w' ?; [apply IH|].
Qed.

(** An invariant every exit keeps, error exits included. *)
Definition preserves {A} (I : W -> Prop) (m : M W E A) : Prop :=
  forall w, I w -> I (m w).2.

Lemma preserves_wp {A} (I : W -> Prop) (m : M W E A) :
  (forall w, I w -> wp m (fun _ => I) w) <-> preserves I m.
Proof. done. Qed.

Lemma preserves_bind {A B} (I : W -> Prop) (m : M W E A) (k : A -> M W E B) :
  preserves I m -> (forall a, preserves I (k a)) -> preserves I (bind m k).
Proof.
  intros Hm Hk w Hw. unfold bind. specialize (Hm w Hw).
  destruct (m w) as [[a|e] w'] eqn:Em; cbn in *; [by apply Hk|done].
Qed.

End WpLemmas.

(** [wp_step] runs the head statement of a monadic program. *)
Ltac wp_step :=
  match goal with
  | |- wp (bind _ _) _ _ => apply wp_bind
  | |- wp (ret _) _ _ => apply wp_ret
  | |- wp (fail _) _ _ => apply wp_fail
  | |- wp get _ _ => apply wp_get
  | |- wp (modify _) _ _ => apply wp_modify
  | |- wp (catch _) _ _ => apply wp_catch
  | |- wp (throw_if _ _) _ _ => apply wp_throw_if; intros ?
  | |- wp (ok_or _ _) _ _ => apply wp_ok_or; [intros ? ?|intros ?]
  | |- wp (when ?b _) _ _ => destruct b eqn:?; cbn [when]
  end; cbn beta iota.

(** ** Machine integers

    Unsigned and signed 64-bit integers are [Z] with the range kept by the
    arithmetic below; [usize] is 64 bits wide on every supported target. *)

Definition U64_MAX : Z := 18446744073709551615.
Definition I64_MAX : Z := 9223372036854775807.
Definition I64_MIN : Z := -9223372036854775808.
Definition U16_MAX : Z := 65535.

Definition in_u64 (z : Z) : Prop := 0 <= z <= U64_MAX.
Definition in_i64 (z : Z) : Prop := I64_MIN <= z <= I64_MAX.

Definition u64_saturating_add (a b : Z) : Z := Z.min (a + b) U64_MAX.
Definition u64_saturating_sub (a b : Z) : Z := Z.max (a - b) 0.
Definition i64_saturating_add (a b : Z) : Z := Z.max I64_MIN (Z.min (a + b) I64_MAX).
Definition i64_saturating_sub (a b : Z) : Z := Z.max I64_MIN (Z.min (a - b) I64_MAX).
Definition u64_checked_add (a b : Z) : option Z :=
  if a + b <=? U64_MAX then Some (a + b) else None.
Definition u64_checked_mul (a b : Z) : option Z :=
  if a * b <=? U64_MAX then Some (a * b) else None.
Definition i64_try_from (z : Z) : option Z :=
  if (I64_MIN <=? z) && (z <=? I64_MAX) then Some z else None.

Lemma u64_saturating_add_exact a b :
  a + b <= U64_MAX -> u64_saturating_add a b = a + b.
Proof. unfold u64_saturating_add. lia. Qed.

Lemma u64_saturating_sub_exact a b :
  b <= a -> u64_saturating_sub a b = a - b.
Proof. unfold u64_saturating_sub. lia. Qed.

Lemma u64_checked_add_Some a b c :
  u64_checked_add a b = Some c <-> c = a + b /\ a + b <= U64_MAX.
Proof.
  unfold u64_checked_add. destruct (Z.leb_spec (a + b) U64_MAX).
  - split; [intros [= <-]; lia|intros [-> ?]; done].
  - split; [done|lia].
Qed.

Lemma i64_saturating_add_range a b : in_i64 (i64_saturating_add a b).
Proof. unfold in_i64, i64_saturating_add, I64_MIN, I64_MAX. lia. Qed.

(** ** Bytes and strings

    Rust's [Vec<u8>], [&[u8]] and [String] are byte lists: a [String] is its
    UTF-8 encoding, so [as_bytes] is the identity and [len] counts bytes. *)

Abbreviation bytes := (list byte).
Abbreviation str := (list byte).

(** A literal ["..."] or [b"..."]. *)
Definition lit (s : String.string) : bytes := String.list_byte_of_string s.

#[global] Instance byte_eq_dec : EqDecision byte := Byte.byte_eq_dec.
#[global] Program Instance byte_countable : Countable byte :=
  inj_countable Byte.to_N Byte.of_N _.
Next Obligation. intros b. by destruct b. Qed.

Definition byteZ (b : byte) : Z := Z.of_N (Byte.to_N b).
(** [z as u8] *)
Definition Zbyte (z : Z) : byte :=
  default x00 (Byte.of_N (Z.to_N (z mod 256))).

Lemma byteZ_range b : 0 <= byteZ b < 256.
Proof. unfold byteZ. pose proof (Byte.to_N_bounded b). lia. Qed.

Lemma Zbyte_byteZ b : Zbyte (byteZ b) = b.
Proof. by destruct b. Qed.

Lemma byteZ_Zbyte z : byteZ (Zbyte z) = z mod 256.
Proof.
  unfold byteZ, Zbyte. pose proof (Z.mod_pos_bound z 256 ltac:(lia)).
  destruct (Byte.of_N (Z.to_N (z mod 256))) as [b|] eqn:Eb; cbn.
  - apply Byte.to_of_N in Eb. rewrite Eb. lia.
  - apply Byte.of_N_None_iff in Eb. lia.
Qed.

#[global] Instance byteZ_inj : Inj (=) (=) byteZ.
Proof. intros a b H. by rewrite <-(Zbyte_byteZ a), H, Zbyte_byteZ. Qed.

Definition len (b : bytes) : Z := Z.of_nat (length b).

Lemma len_app a b : len (a ++ b) = len a + len b.
Proof. unfold len. rewrite length_app. lia. Qed.

Lemma len_nonneg b : 0 <= len b.
Proof. unfold len. lia. Qed.

(** [u64::to_be_bytes] *)
Definition to_be_bytes (z : Z) : bytes :=
  (fun k => Zbyte (z / 256 ^ k)) <$> [7; 6; 5; 4; 3; 2; 1; 0].

Fixpoint of_be_bytes (acc : Z) (b : bytes) : Z :=
  match b with [] => acc | x :: b' => of_be_bytes (acc * 256 + byteZ x) b' end.

Lemma of_to_be_bytes z : in_u64 z -> of_be_bytes 0 (to_be_bytes z) = z.
Proof.
  unfold in_u64, U64_MAX. intros Hz. unfold to_be_bytes. cbn [fmap list_fmap of_be_bytes].
  rewrite !byteZ_Zbyte.
  change (256 ^ 7) with 72057594037927936. change (256 ^ 6) with 281474976710656.
  change (256 ^ 5) with 1099511627776. change (256 ^ 4) with 4294967296.
  change (256 ^ 3) with 16777216. change (256 ^ 2) with 65536.
  change (256 ^ 1) with 256. change (256 ^ 0) with 1.
  Z.to_euclidean_division_equations. lia.
Qed.

Lemma to_be_bytes_inj a b :
  in_u64 a -> in_u64 b -> to_be_bytes a = to_be_bytes b -> a = b.
Proof. intros Ha Hb H. by rewrite <-(of_to_be_bytes a), H, of_to_be_bytes. Qed.

Lemma length_to_be_bytes z : length (to_be_bytes z) = 8%nat.
Proof. done. Qed.

(** *** ASCII classes *)

Definition byte_between (lo hi : Z) (b : byte) : bool :=
  (lo <=? byteZ b) && (byteZ b <=? hi).
(** [u8::is_ascii_digit], [is_ascii_uppercase], [is_ascii_lowercase] *)
Definition is_ascii_digit : byte -> bool := byte_between 48 57.
Definition is_ascii_uppercase : byte -> bool := byte_between 65 90.
Definition is_ascii_lowercase : byte -> bool := byte_between 97 122.
Definition is_ascii_alphanumeric (b : byte) : bool :=
  is_ascii_digit b || is_ascii_uppercase b || is_ascii_lowercase b.
(** [char::to_lowercase] on an ASCII letter. *)
Definition to_ascii_lowercase (b : byte) : byte :=
  if is_ascii_uppercase b then Zbyte (byteZ b + 32) else b.
(** [byte.is_ascii_digit() || (b'a'..=b'f').contains(&byte)] *)
Definition is_lower_hex (b : byte) : bool :=
  is_ascii_digit b || byte_between 97 102 b.

(** *** [hex::encode] *)

Definition hex_digit (z : Z) : byte :=
  if z <? 10 then Zbyte (48 + z) else Zbyte (87 + z).
Definition hex_byte (b : byte) : bytes :=
  [hex_digit (byteZ b / 16); hex_digit (byteZ b mod 16)].
Definition hex_encode (b : bytes) : str := b ≫= hex_byte.

Lemma length_hex_encode b : length (hex_encode b) = (2 * length b)%nat.
Proof.
  induction b as [|x b IH]; [done|].
  change (hex_encode (x :: b)) with (hex_byte x ++ hex_encode b).
  rewrite length_app, IH. cbn. lia.
Qed.

Lemma hex_byte_lower_hex b : forallb is_lower_hex (hex_byte b) = true.
Proof. by destruct b. Qed.

Lemma forallb_app_true {A} (f : A -> bool) l k :
  forallb f l = true -> forallb f k = true -> forallb f (l ++ k) = true.
Proof. intros H1 H2. by rewrite forallb_app, H1, H2. Qed.

Lemma hex_encode_lower_hex b : forallb is_lower_hex (hex_encode b) = true.
Proof.
  induction b as [|x b IH]; [done|]. 
  change (hex_encode (x :: b)) with (hex_byte x ++ hex_encode b).
  by apply forallb_app_true; [apply hex_byte_lower_hex|].
Qed.

Definition unhex_digit (b : byte) : Z :=
  if byteZ b <? 58 then byteZ b - 48 else byteZ b - 87.
Fixpoint hex_decode (s : str) : bytes :=
  match s with
  | h :: l :: s' => Zbyte (unhex_digit h * 16 + unhex_digit l) :: hex_decode s'
  | _ => []
  end.

Lemma hex_decode_encode b : hex_decode (hex_encode b) = b.
Proof.
  induction b as [|x b IH]; [done|].
  change (hex_encode (x :: b)) with (hex_byte x ++ hex_encode b).
  cbn [app hex_byte hex_decode]. rewrite IH. f_equal. by destruct x.
Qed.

#[global] Instance hex_encode_inj : Inj (=) (=) hex_encode.
Proof. intros a b H. by rewrite <-(hex_decode_encode a), H, hex_decode_encode. Qed.

(** *** Decimal text *)

Definition dec_digit (z : Z) : byte := Zbyte (48 + z).
(** The [n] low decimal digits of [z], most significant first. *)
Fixpoint dec_digits (n : nat) (z : Z) : str :=
  match n with
  | O => []
  | S n' => dec_digits n' (z / 10) ++ [dec_digit (z mod 10)]
  end.
(** [format!("{:020}", z)] for a [u64]: [U64_MAX] has exactly 20 digits. *)
Definition fmt_020 (z : Z) : str := dec_digits 20 z.

Fixpoint dec_value (acc : Z) (s : str) : option Z :=
  match s with
  | [] => Some acc
  | b :: s' => if is_ascii_digit b then dec_value (acc * 10 + (byteZ b - 48)) s' else None
  end.
(** [str::parse::<u64>]: an optional ['+'], at least one digit, in range. *)
Definition parse_u64 (s : str) : option Z :=
  let digits := match s with b :: s' => if byteZ b =? 43 then s' else s | [] => s end in
  match digits with
  | [] => None
  | _ => match dec_value 0 digits with
         | Some z => if z <=? U64_MAX then Some z else None
         | None => None
         end
  end.

Lemma dec_digit_spec z :
  0 <= z < 10 -> is_ascii_digit (dec_digit z) = true /\ byteZ (dec_digit z) - 48 = z.
Proof.
  intros Hz. unfold is_ascii_digit, byte_between, dec_digit.
  rewrite byteZ_Zbyte, Z.mod_small by lia. split; [|lia].
  apply andb_true_iff; split; apply Z.leb_le; lia.
Qed.

Lemma length_dec_digits n z : length (dec_digits n z) = n.
Proof.
  revert z; induction n as [|n IH]; intros z; cbn; [done|].
  rewrite length_app, IH. cbn. lia.
Qed.

Lemma dec_value_app acc s t :
  dec_value acc (s ++ t) = match dec_value acc s with Some a => dec_value a t | None => None end.
Proof.
  revert acc; induction s as [|b s IH]; intros acc; cbn; [done|].
  by destruct (is_ascii_digit b).
Qed.

Lemma dec_value_digits n z :
  0 <= z -> dec_value 0 (dec_digits n z) = Some (z mod 10 ^ Z.of_nat n).
Proof.
  revert z; induction n as [|n IH]; intros z Hz; cbn [dec_digits].
  - cbn. by rewrite Z.mod_1_r.
  - rewrite dec_value_app, IH by (apply Z.div_pos; lia). cbn.
    destruct (dec_digit_spec (z mod 10)) as [-> ->]; [apply Z.mod_pos_bound; lia|].
    f_equal. rewrite Nat2Z.inj_succ, Z.pow_succ_r by lia.
    rewrite Z.rem_mul_r by lia. lia.
Qed.

Lemma dec_digits_no_plus n z b s :
  dec_digits (S n) z = b :: s -> (byteZ b =? 43) = false.
Proof.
  revert z b s; induction n as [|n IH]; intros z b s H.
  - cbn in H. injection H as <- <-. apply Z.eqb_neq.
    destruct (dec_digit_spec (z mod 10)) as [_ ?]; [apply Z.mod_pos_bound; lia|].
    pose proof (Z.mod_pos_bound z 10 ltac:(lia)). lia.
  - cbn [dec_digits] in H. fold (dec_digits (S n) (z / 10)) in H.
    change (dec_digits n (z / 10 / 10) ++ [dec_digit ((z / 10) mod 10)])
      with (dec_digits (S n) (z / 10)) in H.
    destruct (dec_digits (S n) (z / 10)) as [|b' s'] eqn:Ed.
    + apply (f_equal length) in Ed. by rewrite length_dec_digits in Ed.
    + injection H as <- _. by eapply IH.
Qed.

(** Printing a [u64] and parsing it back. *)
Lemma parse_u64_fmt_020 z : in_u64 z -> parse_u64 (fmt_020 z) = Some z.
Proof.
  intros [Hlo Hhi]. unfold parse_u64, fmt_020.
  destruct (dec_digits 20 z) as [|b s] eqn:Ed.
  { apply (f_equal length) in Ed. by rewrite length_dec_digits in Ed. }
  rewrite (dec_digits_no_plus _ _ _ _ Ed), <-Ed, dec_value_digits by lia.
  change (10 ^ Z.of_nat 20) with 100000000000000000000.
  unfold U64_MAX in *. rewrite Z.mod_small by lia.
  by rewrite (proj2 (Z.leb_le z _)) by lia.
Qed.

Lemma parse_u64_range s z : parse_u64 s = Some z -> in_u64 z.
Proof.
  assert (Hd : forall s acc z, 0 <= acc -> dec_value acc s = Some z -> 0 <= z).
  { clear. intros s. induction s as [|b s IH]; intros acc z Hacc; cbn; [by intros [= <-]|].
    unfold is_ascii_digit, byte_between. destruct (_ && _) eqn:E; [|done]. apply IH. lia. }
  unfold parse_u64. intros H. repeat case_match; try done; injection H as <-;
    (split; [by eapply (Hd _ 0)|lia]).
Qed.

(** *** Searching in strings *)

(** [str::strip_prefix] *)
Fixpoint strip_prefix (p s : str) : option str :=
  match p, s with
  | [], _ => Some s
  | x :: p', y :: s' => if decide (x = y) then strip_prefix p' s' else None
  | _ :: _, [] => None
  end.
(** [str::strip_suffix] and [str::ends_with] *)
Definition strip_suffix (suf s : str) : option str :=
  let n := (length s - length suf)%nat in
  if bool_decide ((length suf <= length s)%nat /\ drop n s = suf) then Some (take n s) else None.
Definition ends_with (s suf : str) : bool :=
  bool_decide (is_Some (strip_suffix suf s)).
(** [str::split_once] on a one-byte separator: the first occurrence. *)
Fixpoint split_once (sep : byte) (s : str) : option (str * str) :=
  match s with
  | [] => None
  | b :: s' =>
      if decide (b = sep) then Some ([], s')
      else match split_once sep s' with
           | Some (l, r) => Some (b :: l, r)
           | None => None
           end
  end.
(** [str::split] on a one-byte separator: all parts, at least one. *)
Fixpoint split (sep : byte) (s : str) : list str :=
  match s with
  | [] => [[]]
  | b :: s' =>
      if decide (b = sep) then [] :: split sep s'
      else match split sep s' with
           | part :: parts => (b :: part) :: parts
           | [] => [[b]]
           end
  end.
(** [Path::extension] of a file name: what follows the last dot, unless the
    only dot is the first byte. *)
Definition extension (name : str) : option str :=
  match split_once (Zbyte 46) (rev name) with
  | Some (ext, stem) => if bool_decide (stem = []) then None else Some (rev ext)
  | None => None
  end.

(** [std::str::from_utf8] and [OsStr::to_str]: well-formed UTF-8. *)
Definition is_continuation : byte -> bool := byte_between 128 191.
Fixpoint utf8_valid (s : bytes) : bool :=
  match s with
  | [] => true
  | a :: s1 =>
      if byteZ a <? 128 then utf8_valid s1
      else match s1 with
      | [] => false
      | b :: s2 =>
          if byte_between 194 223 a then is_continuation b && utf8_valid s2
          else match s2 with
          | [] => false
          | c :: s3 =>
              if ((byteZ a =? 224) && byte_between 160 191 b)
                 || (byte_between 225 236 a && is_continuation b)
                 || ((byteZ a =? 237) && byte_between 128 159 b)
                 || (byte_between 238 239 a && is_continuation b)
              then is_continuation c && utf8_valid s3
              else match s3 with
              | [] => false
              | d :: s4 =>
                  (((byteZ a =? 240) && byte_between 144 191 b)
                   || (byte_between 241 243 a && is_continuation b)
                   || ((byteZ a =? 244) && byte_between 128 143 b))
                  && is_continuation c && is_continuation d && utf8_valid s4
              end
          end
      end
  end.

Lemma strip_prefix_app p s : strip_prefix p (p ++ s) = Some s.
Proof. induction p as [|x p IH]; cbn; [done|]. by rewrite decide_True. Qed.

Lemma strip_prefix_Some p s t : strip_prefix p s = Some t <-> s = p ++ t.
Proof.
  split; [|intros ->; apply strip_prefix_app].
  revert s; induction p as [|x p IH]; intros [|y s] H; simplify_eq/=; [done..|].
  case_decide; [|done]. subst. f_equal. by apply IH.
Qed.

Lemma strip_suffix_app s suf : strip_suffix suf (s ++ suf) = Some s.
Proof.
  unfold strip_suffix. rewrite length_app.
  replace (length s + length suf - length suf)%nat with (length s) by lia.
  rewrite drop_app_length, take_app_length, bool_decide_true; [done|split; [lia|done]].
Qed.

Lemma strip_suffix_Some suf s t : strip_suffix suf s = Some t <-> s = t ++ suf.
Proof.
  split; [|intros ->; apply strip_suffix_app].
  unfold strip_suffix. case_bool_decide as H; [|done]. intros [= <-].
  destruct H as [_ H]. rewrite <-(take_drop (length s - length suf) s) at 1. by rewrite H.
Qed.

Lemma split_once_app sep l r :
  sep ∉ l -> split_once sep (l ++ sep :: r) = Some (l, r).
Proof.
  induction l as [|b l IH]; cbn; intros Hl.
  - by rewrite decide_True.
  - rewrite decide_False by set_solver. by rewrite IH by set_solver.
Qed.

Lemma split_no_sep sep s : sep ∉ s -> split sep s = [s].
Proof.
  induction s as [|b s IH]; cbn; intros Hs; [done|].
  rewrite decide_False by set_solver. by rewrite IH by set_solver.
Qed.

Lemma split_app sep l r :
  sep ∉ l -> split sep (l ++ sep :: r) = l :: split sep r.
Proof.
  induction l as [|b l IH]; cbn; intros Hl; [by rewrite decide_True|].
  rewrite decide_False by set_solver. by rewrite IH by set_solver.
Qed.

Lemma not_elem_of_forallb (f : byte -> bool) b s :
  forallb f s = true -> f b = false -> b ∉ s.
Proof.
  intros Hs Hb Hin. rewrite forallb_forall in Hs.
  apply list_elem_of_In, Hs in Hin. congruence.
Qed.

(** ** Ordered iteration

    [BTreeMap] is a [gmap] whose iteration visits the keys in order.  Rust's
    slice sorts are stable; so is this insertion sort. *)

Section Sort.
Context {A : Type} (leb : A -> A -> bool).

Fixpoint sort_insert (x : A) (l : list A) : list A :=
  match l with
  | [] => [x]
  | y :: l' => if leb x y then x :: l else y :: sort_insert x l'
  end.
Fixpoint sort_by (l : list A) : list A :=
  match l with [] => [] | x :: l' => sort_insert x (sort_by l') end.

Lemma sort_insert_perm x l : sort_insert x l ≡ₚ x :: l.
Proof.
  induction l as [|y l IH]; cbn; [done|]. destruct (leb x y); [done|].
  rewrite IH. constructor.
Qed.

Lemma sort_by_perm l : sort_by l ≡ₚ l.
Proof. induction l as [|x l IH]; cbn; [done|]. by rewrite sort_insert_perm, IH. Qed.

Context (leb_total : forall x y, leb x y = true \/ leb y x = true).
Context (leb_trans : forall x y z, leb x y = true -> leb y z = true -> leb x z = true).

Lemma sort_insert_sorted x l :
  StronglySorted (fun a b => leb a b = true) l ->
  StronglySorted (fun a b => leb a b = true) (sort_insert x l).
Proof.
  induction 1 as [|y l Hl IH Hy]; cbn; [by repeat constructor|].
  destruct (leb x y) eqn:E.
  - constructor; [by constructor|]. constructor; [done|].
    eapply Forall_impl; [exact Hy|]. eauto.
  - constructor; [done|]. rewrite sort_insert_perm. constructor; [|done].
    by destruct (leb_total x y); [congruence|].
Qed.

Lemma sort_by_sorted l : StronglySorted (fun a b => leb a b = true) (sort_by l).
Proof. induction l; cbn; [constructor|]. by apply sort_insert_sorted. Qed.

Lemma sort_by_id l :
  StronglySorted (fun a b => leb a b = true) l -> sort_by l = l.
Proof.
  induction 1 as [|x l Hl IH Hx]; cbn; [done|]. rewrite IH.
  destruct Hx as [|y l' Hy _]; cbn; [done|]. by rewrite Hy.
Qed.

End Sort.

(** [sort_by_key] on an integer key. *)
Definition sort_by_key {A} (f : A -> Z) : list A -> list A :=
  sort_by (fun a b => f a <=? f b).

Section SortKey.
Context {A : Type} (f : A -> Z).

Lemma sort_by_key_perm l : sort_by_key f l ≡ₚ l.
Proof. apply sort_by_perm. Qed.

Lemma sort_by_key_sorted l : StronglySorted (fun a b => f a <= f b) (sort_by_key f l).
Proof.
  assert (H : StronglySorted (fun a b => (f a <=? f b) = true) (sort_by_key f l)).
  { apply sort_by_sorted; intros; rewrite ?Z.leb_le in *; lia. }
  induction H as [|x k Hk IH Hx]; constructor; [done|].
  eapply Forall_impl; [exact Hx|]. intros y. cbn. by rewrite Z.leb_le.
Qed.

Lemma elem_of_sort_by_key l x : x ∈ sort_by_key f l <-> x ∈ l.
Proof. by rewrite sort_by_key_perm. Qed.

(** Distinct keys make the sorted order strict. *)
Lemma sorted_key_strict l :
  StronglySorted (fun a b => f a <= f b) l -> NoDup (f <$> l) ->
  StronglySorted (fun a b => f a < f b) l.
Proof.
  induction 1 as [|x l Hl IH Hx]; intros Hnd; constructor.
  - apply IH. by apply NoDup_cons in Hnd as [_ ?].
  - apply NoDup_cons in Hnd as [Hx' _]. rewrite Forall_forall in Hx |- *.
    intros y Hy. specialize (Hx y Hy). cbn in *.
    assert (f x <> f y); [|lia]. intros E. apply Hx'. rewrite E.
    by apply list_elem_of_fmap_2.
Qed.

(** A strictly sorted list is determined by its elements. *)
Lemma sorted_key_unique l k :
  StronglySorted (fun a b => f a < f b) l -> StronglySorted (fun a b => f a < f b) k ->
  l ≡ₚ k -> l = k.
Proof.
  intros Hl Hk. apply (StronglySorted_unique_strong (fun a b => f a < f b)); [|done..].
  intros; lia.
Qed.

End SortKey.

(** Rust's [Ord]: bytewise lexicographic on strings, numeric on integers. *)
Class RustOrd (K : Type) := {
  ord_leb : K -> K -> bool;
  ord_leb_total : forall x y, ord_leb x y = true \/ ord_leb y x = true;
  ord_leb_trans : forall x y z, ord_leb x y = true -> ord_leb y z = true -> ord_leb x z = true;
  ord_leb_antisym : forall x y, ord_leb x y = true -> ord_leb y x = true -> x = y;
}.

#[global] Program Instance Z_ord : RustOrd Z := {| ord_leb := Z.leb |}.
Next Obligation. intros x y. rewrite !Z.leb_le. lia. Qed.
Next Obligation. intros x y z. rewrite !Z.leb_le. lia. Qed.
Next Obligation. intros x y. rewrite !Z.leb_le. lia. Qed.

Lemma string_of_list_byte_inj a b :
  String.string_of_list_byte a = String.string_of_list_byte b -> a = b.
Proof.
  intros H. rewrite <-(String.list_byte_of_string_of_list_byte a), H.
  apply String.list_byte_of_string_of_list_byte.
Qed.

Definition bytes_leb (a b : bytes) : bool :=
  String.leb (String.string_of_list_byte a) (String.string_of_list_byte b).

#[global] Program Instance bytes_ord : RustOrd bytes := {| ord_leb := bytes_leb |}.
Next Obligation. intros x y. apply String.leb_total. Qed.
Next Obligation.
  intros x y z H1 H2. unfold bytes_leb in *.
  pose proof (@transitivity _ String.le _ (String.string_of_list_byte x)
    (String.string_of_list_byte y) (String.string_of_list_byte z)) as H.
  unfold String.le in H. apply Is_true_true, H; by apply Is_true_true.
Qed.
Next Obligation.
  intros x y H1 H2. apply string_of_list_byte_inj. by apply String.leb_antisym.
Qed.

Lemma bytes_leb_total x y : bytes_leb x y = true \/ bytes_leb y x = true.
Proof. exact (ord_leb_total x y). Qed.
Lemma bytes_leb_trans x y z :
  bytes_leb x y = true -> bytes_leb y z = true -> bytes_leb x z = true.
Proof. exact (ord_leb_trans (K:=bytes) x y z). Qed.
Lemma bytes_leb_antisym x y : bytes_leb x y = true -> bytes_leb y x = true -> x = y.
Proof. exact (ord_leb_antisym (K:=bytes) x y). Qed.

(** An association list without repeated keys is functional. *)
Lemma NoDup_fst_functional {A B} (l : list (A * B)) k v1 v2 :
  NoDup l.*1 -> (k, v1) ∈ l -> (k, v2) ∈ l -> v1 = v2.
Proof.
  induction l as [|[k' v'] l IH]; cbn; intros Hnd H1 H2; [set_solver|].
  apply NoDup_cons in Hnd as [Hk Hnd].
  assert (Hin : forall v, (k', v) ∉ l).
  { intros v Hv. apply Hk. by apply (list_elem_of_fmap_2 fst) in Hv. }
  apply elem_of_cons in H1 as [[= -> ->]|H1]; apply elem_of_cons in H2 as [E|H2];
    simplify_eq; try done; try (exfalso; eapply Hin; eassumption). by apply IH.
Qed.

Section BTreeMap.
Context {K V : Type} `{Countable K} {OK : RustOrd K}.
Implicit Types m : gmap K V.

(** [BTreeMap::iter], [values], [keys] *)
Definition btree_iter m : list (K * V) :=
  sort_by (fun a b => ord_leb a.1 b.1) (map_to_list m).
Definition btree_values m : list V := (btree_iter m).*2.
Definition btree_keys m : list K := (btree_iter m).*1.

Lemma elem_of_btree_iter m k v : (k, v) ∈ btree_iter m <-> m !! k = Some v.
Proof. unfold btree_iter. by rewrite sort_by_perm, elem_of_map_to_list. Qed.

Lemma elem_of_btree_values m v : v ∈ btree_values m <-> exists k, m !! k = Some v.
Proof.
  unfold btree_values. rewrite list_elem_of_fmap. split.
  - intros [[k v'] [-> Hin]]. exists k. by apply elem_of_btree_iter.
  - intros [k Hk]. exists (k, v). by split; [|apply elem_of_btree_iter].
Qed.

Lemma elem_of_btree_keys m k : k ∈ btree_keys m <-> is_Some (m !! k).
Proof.
  unfold btree_keys. rewrite list_elem_of_fmap. split.
  - intros [[k' v] [-> Hin]]. exists v. by apply elem_of_btree_iter.
  - intros [v Hk]. exists (k, v). by split; [|apply elem_of_btree_iter].
Qed.

Lemma length_btree_values m : length (btree_values m) = size m.
Proof.
  unfold btree_values, btree_iter. rewrite length_fmap, sort_by_perm. apply length_map_to_list.
Qed.

Lemma btree_keys_nodup m : NoDup (btree_keys m).
Proof. unfold btree_keys, btree_iter. rewrite sort_by_perm. apply NoDup_fst_map_to_list. Qed.

Lemma btree_iter_nodup m : NoDup (btree_iter m).
Proof. unfold btree_iter. rewrite sort_by_perm. apply NoDup_map_to_list. Qed.

(** [map.values().any(p)] *)
Definition btree_any (p : V -> bool) m : bool := existsb p (btree_values m).

Lemma btree_any_true p m :
  btree_any p m = true <-> exists k v, m !! k = Some v /\ p v = true.
Proof.
  unfold btree_any. rewrite existsb_exists. split.
  - intros (v & Hin & Hp). apply list_elem_of_In, elem_of_btree_values in Hin as [k Hk]. eauto.
  - intros (k & v & Hk & Hp). exists v. split; [|done].
    apply list_elem_of_In, elem_of_btree_values. eauto.
Qed.

Lemma btree_any_false p m :
  btree_any p m = false <-> forall k v, m !! k = Some v -> p v = false.
Proof.
  rewrite <-not_true_iff_false, btree_any_true. split.
  - intros Hn k v Hk. destruct (p v) eqn:E; [|done]. exfalso. eauto.
  - intros Hall (k & v & Hk & Hp). rewrite (Hall k v Hk) in Hp. done.
Qed.

(** The sum of a measure over the values of a map. *)
Definition map_sum (f : V -> Z) m : Z := map_fold (fun _ v acc => f v + acc) 0 m.

Lemma map_sum_empty f : map_sum f (∅ : gmap K V) = 0.
Proof. apply map_fold_empty. Qed.

Lemma map_sum_insert f m k v : m !! k = None -> map_sum f (<[k:=v]> m) = f v + map_sum f m.
Proof. intros Hk. unfold map_sum. rewrite map_fold_insert_L; [done| |done]. intros; lia. Qed.

Lemma map_sum_delete f m k v : m !! k = Some v -> map_sum f (delete k m) = map_sum f m - f v.
Proof.
  intros Hk. unfold map_sum. rewrite (map_fold_delete_L _ _ k v m); [lia| |done]. intros; lia.
Qed.

Lemma map_sum_nonneg f m : (forall k v, m !! k = Some v -> 0 <= f v) -> 0 <= map_sum f m.
Proof.
  induction m as [|k v m Hk IH] using map_ind; intros Hf; [by rewrite map_sum_empty|].
  rewrite map_sum_insert by done.
  assert (0 <= f v) by (apply (Hf k); by simplify_map_eq).
  assert (0 <= map_sum f m); [|lia]. apply IH. intros k' v' Hk'.
  apply (Hf k'). rewrite lookup_insert_ne; [done|]. congruence.
Qed.

Lemma map_sum_lookup_le f m k v :
  (forall k v, m !! k = Some v -> 0 <= f v) -> m !! k = Some v -> f v <= map_sum f m.
Proof.
  intros Hf Hk. pose proof (map_sum_delete f m k v Hk).
  assert (0 <= map_sum f (delete k m)); [|lia].
  apply map_sum_nonneg. intros k' v' [_ Hk']%lookup_delete_Some. eauto.
Qed.

End BTreeMap.

Lemma list_filter_none {A} (f : A -> bool) l : (forall x, x ∈ l -> f x = false) -> List.filter f l = [].
Proof.
  induction l as [|x l IH]; cbn; [done|]. intros Hf. rewrite (Hf x) by (by left). apply IH.
  intros y Hy. apply Hf. by right.
Qed.

(** [Vec::is_empty], [BTreeMap::is_empty] *)
Definition is_empty {A} (l : list A) : bool := match l with [] => true | _ => false end.
Definition map_is_empty {K V} `{Countable K} (m : gmap K V) : bool := Nat.eqb (size m) 0.

Lemma map_is_empty_true {K V} `{Countable K} (m : gmap K V) : map_is_empty m = true <-> m = ∅.
Proof. unfold map_is_empty. by rewrite Nat.eqb_eq, map_size_empty_iff. Qed.

(** [Iterator::min_by_key]: the first of the smallest elements. *)
Fixpoint min_by_key {A} (f : A -> Z) (l : list A) : option A :=
  match l with
  | [] => None
  | x :: l' => match min_by_key f l' with
               | Some y => if f x <=? f y then Some x else Some y
               | None => Some x
               end
  end.

Lemma min_by_key_Some {A} (f : A -> Z) l x :
  min_by_key f l = Some x -> x ∈ l /\ Forall (fun y => f x <= f y) l.
Proof.
  revert x; induction l as [|y l IH]; intros x; cbn; [done|].
  destruct (min_by_key f l) as [z|] eqn:E.
  - destruct (IH z eq_refl) as [Hz Hall]. destruct (Z.leb_spec (f y) (f z)); intros [= <-].
    + split; [set_solver|]. constructor; [lia|]. eapply Forall_impl; [exact Hall|]. cbn; lia.
    + split; [set_solver|]. constructor; [lia|done].
  - intros [= <-]. destruct l as [|z l]; [split; [set_solver|repeat constructor; lia]|].
    cbn in E. destruct (min_by_key f l); [by destruct (_ <=? _)|done].
Qed.

Lemma min_by_key_None {A} (f : A -> Z) l : min_by_key f l = None -> l = [].
Proof. destruct l as [|x l]; [done|]. cbn. by destruct (min_by_key f l); [destruct (_ <=? _)|]. Qed.

(** ** Hash sets

    [ids.iter().collect::<HashSet<_>>()]: only its size, membership and
    equality are used. *)

Definition hash_set {A} `{Countable A} (l : list A) : gset A := list_to_set l.
Definition hash_len {A} `{Countable A} (l : list A) : Z := Z.of_nat (size (hash_set l)).
(** [set.len() == vec.len()] *)
Definition all_distinct {A} `{Countable A} (l : list A) : bool :=
  Nat.eqb (size (hash_set l)) (length l).

Lemma all_distinct_true {A} `{Countable A} (l : list A) :
  all_distinct l = true <-> NoDup l.
Proof.
  unfold all_distinct, hash_set. rewrite Nat.eqb_eq. split.
  - induction l as [|x l IH]; [constructor|]. cbn [list_to_set length]. intros Hs.
    assert (Hle : (size (list_to_set (C:=gset A) l) <= length l)%nat).
    { clear. induction l as [|y l IH]; cbn; [by rewrite size_empty|].
      rewrite size_union_alt, size_singleton.
      assert (size (list_to_set (C:=gset A) l ∖ {[y]}) <= size (list_to_set (C:=gset A) l))%nat;
        [apply subseteq_size; set_solver|lia]. }
    destruct (decide (x ∈ l)) as [Hin|Hin].
    + rewrite (subseteq_union_1_L {[x]}) in Hs by set_solver. lia.
    + constructor; [done|]. apply IH.
      rewrite size_union, size_singleton in Hs by set_solver. lia.
  - intros Hl. by apply size_list_to_set.
Qed.
