(* ===== verification/Protocol.v ===== *)
(** * Wire contracts ([src/protocol.rs])

    The receiver envelope, the Hub batches and acknowledgements, record
    identities, and the duplicate-key-rejecting JSON visitor.

    Third-party code is an argument, packaged as a class per library:
    [Sha256] (sha2), [Jcs] (serde_jcs), [JsonReader] (the serde_json
    tokenizer that drives the visitor) and [FromValue] (the derived
    [Deserialize] implementations run by [serde_json::from_value]). *)

From S2P Require Import Prelude.

Set Warnings "-register-all".

(** ** Limits (protocol.rs) *)

Definition MAX_RECEIVER_BODY_BYTES : Z := 256 * 1024.
Definition MAX_HUB_ACK_BODY_BYTES : Z := 128 * 1024.
Definition MIN_TIMESTAMP_MS : Z := 946684800000.
Definition MAX_EVENT_CLOCK_LEAD_MS : Z := 5 * 60 * 1000.
Definition MAX_RECEIVER_CLOCK_LEAD_MS : Z := 5 * 60 * 1000.

Inductive ProtocolError :=
| InputTooLarge
| DuplicateJsonKey
| InvalidJson
| UnsupportedVersion
| InvalidVin
| InvalidTransactionId
| InvalidTransactionType
| InvalidTimestamp
| InvalidPayload
| InvalidVersionLabel
| ProtocolInvalidAcknowledgement.

#[global] Instance ProtocolError_eq_dec : EqDecision ProtocolError.
Proof. solve_decision. Defined.

(** ** JSON values ([serde_json::Value])

    A float is its IEEE-754 bit pattern; an object is the key-ordered
    contents of serde_json's [BTreeMap]-backed [Map]. *)

Inductive Number :=
| PosInt (z : Z)
| NegInt (z : Z)
| Float (bits : Z).

Inductive Value :=
| VNull
| VBool (b : bool)
| VNumber (n : Number)
| VString (s : str)
| VArray (items : list Value)
| VObject (members : list (str * Value)).

Definition is_object (v : Value) : bool :=
  match v with VObject _ => true | _ => false end.

(** [Number::from(i64)], [Number::from(u64)] *)
Definition number_of_i64 (z : Z) : Number := if z <? 0 then NegInt z else PosInt z.
Definition number_of_u64 (z : Z) : Number := PosInt z.
(** [f64::is_finite]: the exponent bits are not all ones. *)
Definition f64_is_finite (bits : Z) : bool :=
  negb (Z.land (Z.shiftr bits 52) 2047 =? 2047).
(** [Number::from_f64] *)
Definition number_of_f64 (bits : Z) : option Number :=
  if f64_is_finite bits then Some (Float bits) else None.

(** [Map::insert] on a [BTreeMap]: the key order is kept, an existing key is
    overwritten. *)
Fixpoint map_insert (k : str) (v : Value) (m : list (str * Value)) : list (str * Value) :=
  match m with
  | [] => [(k, v)]
  | (k', v') :: m' =>
      if decide (k = k') then (k, v) :: m'
      else if bytes_leb k k' then (k, v) :: m
      else (k', v') :: map_insert k v m'
  end.

(** ** The receiver envelope *)

Record ReceiverEnvelope := {
  env_version : Z;
  env_vin : str;
  env_txid : str;
  env_tx_type : str;
  env_received_at_ms : Z;
  env_timestamp_ms : Z;
  env_payload : Value;
  env_device_client_version : option str;
  env_firmware_version : option str;
}.

(** [#[derive(Serialize)] struct StableIdentity], local to
    [stable_record_id]. *)
Record StableIdentity := {
  sid_version : Z;
  sid_vin : str;
  sid_txid : str;
  sid_tx_type : str;
  sid_timestamp_ms : Z;
  sid_payload : Value;
  sid_device_client_version : option str;
  sid_firmware_version : option str;
}.

Definition valid_vin (vin : str) : bool :=
  (len vin =? 17) &&
  forallb (fun b => is_ascii_digit b ||
                    (is_ascii_uppercase b &&
                     negb ((byteZ b =? 73) || (byteZ b =? 79) || (byteZ b =? 81)))) vin.

Definition bounded_visible_ascii (value : str) (minimum maximum : Z) : bool :=
  (minimum <=? len value) && (len value <=? maximum) &&
  forallb (byte_between 33 126) value.

(** The accepted normal forms of [tx_type]. *)
Definition known_types : list str :=
  lit <$> ["v"; "data"; "vehicledata"; "connectivity"; "alerts"; "errors"].

Definition normalized_type (tx_type : str) : str :=
  to_ascii_lowercase <$> List.filter is_ascii_alphanumeric tx_type.

(** The loop over the present version labels. *)
Definition labels_ok (e : ReceiverEnvelope) : bool :=
  forallb (fun label => bounded_visible_ascii label 1 64)
          (omap id [env_device_client_version e; env_firmware_version e]).

Definition validate (e : ReceiverEnvelope) : Result ProtocolError unit :=
  if negb (env_version e =? 1) then Err UnsupportedVersion
  else if negb (valid_vin (env_vin e)) then Err InvalidVin
  else if negb (bounded_visible_ascii (env_txid e) 1 128) then Err InvalidTransactionId
  else if negb (bounded_visible_ascii (env_tx_type e) 1 64) then Err InvalidTransactionType
  else if negb (bool_decide (normalized_type (env_tx_type e) ∈ known_types))
       then Err InvalidTransactionType
  else if (env_received_at_ms e <? MIN_TIMESTAMP_MS)
          || (env_timestamp_ms e <? MIN_TIMESTAMP_MS)
          || (i64_saturating_add (env_received_at_ms e) MAX_EVENT_CLOCK_LEAD_MS
                <? env_timestamp_ms e)
       then Err InvalidTimestamp
  else if negb (is_object (env_payload e)) then Err InvalidPayload
  else if negb (labels_ok e) then Err InvalidVersionLabel
  else Ok tt.

(** ** Record identities *)

Record RecordId := RecordIdOf { as_str : str }.

#[global] Instance RecordId_eq_dec : EqDecision RecordId.
Proof. solve_decision. Defined.
#[global] Program Instance RecordId_countable : Countable RecordId :=
  inj_countable' as_str RecordIdOf _.
Next Obligation. by intros []. Qed.
#[global] Program Instance RecordId_ord : RustOrd RecordId :=
  {| ord_leb a b := bytes_leb (as_str a) (as_str b) |}.
Next Obligation. intros [x] [y]. exact (ord_leb_total x y). Qed.
Next Obligation. intros [x] [y] [z]. exact (ord_leb_trans x y z). Qed.
Next Obligation.
  intros [x] [y] H1 H2. f_equal. exact (ord_leb_antisym x y H1 H2).
Qed.

(** 64 lower-case hexadecimal digits. *)
Definition valid_lower_hex_digest (value : str) : bool :=
  (len value =? 64) && forallb is_lower_hex value.

(** [RecordId::parse] *)
Definition record_id_parse (value : str) : Result ProtocolError RecordId :=
  if (len value =? 64) && forallb is_lower_hex value
  then Ok (RecordIdOf value) else Err InvalidTransactionId.

(** [RecordId::from_sha256] *)
Definition from_sha256 (digest : bytes) : RecordId := RecordIdOf (hex_encode digest).

(** sha2: a digest is 32 bytes ([GenericArray<u8, U32>]). *)
Class Sha256 := {
  sha256 : bytes -> bytes;
  sha256_length : forall b, length (sha256 b) = 32%nat;
}.

(** serde_jcs: canonical JSON of the envelope and of its stable identity. *)
Class Jcs := {
  jcs_envelope : ReceiverEnvelope -> bytes;
  jcs_identity : StableIdentity -> bytes;
}.

Definition NUL : bytes := [x00].

Section Identity.
Context `{Sha256} `{Jcs}.

Definition record_id (e : ReceiverEnvelope) : RecordId :=
  from_sha256 (sha256 (lit "teslatlas-edge-record-v1" ++ NUL ++ jcs_envelope e)).

Definition stable_identity (e : ReceiverEnvelope) : StableIdentity := {|
  sid_version := 2;
  sid_vin := env_vin e;
  sid_txid := env_txid e;
  sid_tx_type := env_tx_type e;
  sid_timestamp_ms := env_timestamp_ms e;
  sid_payload := env_payload e;
  sid_device_client_version := env_device_client_version e;
  sid_firmware_version := env_firmware_version e;
|}.

Definition stable_record_id (e : ReceiverEnvelope) : RecordId :=
  from_sha256 (sha256 (lit "teslatlas-edge-record-v2" ++ NUL ++ jcs_identity (stable_identity e))).

End Identity.

(** ** Hub messages *)

Record HubBatchRecordV1 := {
  br1_record_id : RecordId;
  br1_received_at_ms : Z;
  br1_envelope : ReceiverEnvelope;
}.
Record HubBatchV1 := {
  b1_version : Z;
  b1_batch_id : str;
  b1_records : list HubBatchRecordV1;
}.
Record HubAckV1 := {
  a1_version : Z;
  a1_batch_id : str;
  a1_accepted_record_ids : list RecordId;
}.
Record HubAckResultV1 := {
  r1_version : Z;
  r1_acknowledged_record_ids : list RecordId;
  r1_unknown_record_ids : list RecordId;
}.
Record HubBatchRecordV2 := {
  br2_record_id : RecordId;
  br2_legacy_record_id : RecordId;
  br2_spool_seq : Z;
  br2_received_at_ms : Z;
  br2_envelope : ReceiverEnvelope;
}.
Inductive GapReasonV2 := RetentionExpired | IntegrityQuarantine.
#[global] Instance GapReasonV2_eq_dec : EqDecision GapReasonV2.
Proof. solve_decision. Defined.
Record GapNoticeV2 := {
  gn_notice_id : RecordId;
  gn_spool_seq : Z;
  gn_occurred_at_ms : Z;
  gn_reason : GapReasonV2;
  gn_evidence_sha256 : str;
}.
#[global] Instance GapNoticeV2_eq_dec : EqDecision GapNoticeV2.
Proof. solve_decision. Defined.
Record HubBatchV2 := {
  b2_version : Z;
  b2_batch_id : str;
  b2_records : list HubBatchRecordV2;
  b2_gaps : list GapNoticeV2;
}.
Record HubAckV2 := {
  a2_version : Z;
  a2_batch_id : str;
  a2_accepted_record_ids : list RecordId;
  a2_accepted_gap_notice_ids : list RecordId;
}.
Record HubAckResultV2 := {
  r2_version : Z;
  r2_acknowledged_record_ids : list RecordId;
  r2_acknowledged_gap_notice_ids : list RecordId;
  r2_unknown_record_ids : list RecordId;
  r2_unknown_gap_notice_ids : list RecordId;
}.

(** ** The duplicate-key-rejecting visitor

    [serde_json::from_slice::<UniqueValue>] walks the text and calls one
    visitor method per token.  [Raw] is that stream of calls as a tree: a
    sequence or an object carries the elements met so far and whether it
    was closed ([true]) or the text broke off inside it ([false]);
    [RFail] is a text that breaks off at a value. *)

Inductive Raw :=
| RNull
| RBool (b : bool)
| RI64 (z : Z)
| RU64 (z : Z)
| RF64 (bits : Z)
| RStr (s : str)
| RSeq (items : list Raw) (closed : bool)
| RMap (members : list (str * Raw)) (closed : bool)
| RFail.

Inductive VisitError :=
| VDuplicateKey   (* the message is [DUPLICATE_KEY_MARKER] *)
| VNonFinite
| VSyntax.

(** [visit_seq], given the visitor for the elements. *)
Fixpoint visit_seq (visit : Raw -> Result VisitError Value) (items : list Raw)
    (values : list Value) (closed : bool) : Result VisitError Value :=
  match items with
  | [] => if closed then Ok (VArray values) else Err VSyntax
  | r :: items' =>
      match visit r with
      | Ok v => visit_seq visit items' (values ++ [v]) closed
      | Err e => Err e
      end
  end.

(** [visit_map]: [seen] is the key set, [values] the map under construction. *)
Fixpoint visit_map (visit : Raw -> Result VisitError Value) (members : list (str * Raw))
    (seen : gset str) (values : list (str * Value)) (closed : bool) : Result VisitError Value :=
  match members with
  | [] => if closed then Ok (VObject values) else Err VSyntax
  | (key, r) :: members' =>
      if bool_decide (key ∈ seen) then Err VDuplicateKey
      else match visit r with
           | Ok v => visit_map visit members' ({[key]} ∪ seen) (map_insert key v values) closed
           | Err e => Err e
           end
  end.

Fixpoint visit (r : Raw) : Result VisitError Value :=
  match r with
  | RNull => Ok VNull
  | RBool b => Ok (VBool b)
  | RI64 z => Ok (VNumber (number_of_i64 z))
  | RU64 z => Ok (VNumber (number_of_u64 z))
  | RF64 bits => match number_of_f64 bits with
                 | Some n => Ok (VNumber n)
                 | None => Err VNonFinite
                 end
  | RStr s => Ok (VString s)
  | RSeq items closed => visit_seq visit items [] closed
  | RMap members closed => visit_map visit members ∅ [] closed
  | RFail => Err VSyntax
  end.

(** serde_json on the stored and delivered structures. *)
Class Serde (A : Type) := {
  to_vec : A -> option bytes;
  from_slice : bytes -> option A;
}.
(** Reading back what was written. *)
Class SerdeLaws (A : Type) `{Serde A} := {
  from_to_vec : forall (a : A) b, to_vec a = Some b -> from_slice b = Some a;
}.

(** The tokenizer: the calls it makes and whether only white space follows
    the value. *)
Class JsonReader := { json_read : bytes -> Raw * bool }.

(** serde's derived [Deserialize] for a type, run on a [Value]. *)
Class FromValue (A : Type) := { from_value : Value -> option A }.

Section Parse.
Context `{JsonReader} `{FromValue ReceiverEnvelope} `{FromValue HubAckV1} `{FromValue HubAckV2}.

(** [serde_json::from_slice::<UniqueValue>] with the error mapping the three
    [parse] functions share. *)
Definition parse_unique (input : bytes) : Result ProtocolError Value :=
  let (raw, end_ok) := json_read input in
  match visit raw with
  | Ok v => if end_ok then Ok v else Err InvalidJson
  | Err VDuplicateKey => Err DuplicateJsonKey
  | Err _ => Err InvalidJson
  end.

(** [ReceiverEnvelope::parse] *)
Definition envelope_parse (input : bytes) : Result ProtocolError ReceiverEnvelope :=
  if MAX_RECEIVER_BODY_BYTES <? len input then Err InputTooLarge
  else match parse_unique input with
       | Err e => Err e
       | Ok unique =>
           match from_value (A:=ReceiverEnvelope) unique with
           | None => Err InvalidJson
           | Some envelope =>
               match validate envelope with
               | Err e => Err e
               | Ok _ => Ok envelope
               end
           end
       end.

(** [ReceiverEnvelope::parse_at] *)
Definition envelope_parse_at (input : bytes) (now_ms : Z) : Result ProtocolError ReceiverEnvelope :=
  match envelope_parse input with
  | Err e => Err e
  | Ok envelope =>
      if i64_saturating_add now_ms MAX_RECEIVER_CLOCK_LEAD_MS <? env_received_at_ms envelope
      then Err InvalidTimestamp else Ok envelope
  end.

(** [HubAckV1::parse] *)
Definition ack_v1_parse (input : bytes) : Result ProtocolError HubAckV1 :=
  if MAX_HUB_ACK_BODY_BYTES <? len input then Err InputTooLarge
  else match parse_unique input with
       | Err e => Err e
       | Ok unique =>
           match from_value (A:=HubAckV1) unique with
           | None => Err ProtocolInvalidAcknowledgement
           | Some ack =>
               if negb (a1_version ack =? 1)
                  || negb (valid_lower_hex_digest (a1_batch_id ack))
                  || (256 <? Z.of_nat (length (a1_accepted_record_ids ack)))
                  || negb (all_distinct (a1_accepted_record_ids ack))
               then Err ProtocolInvalidAcknowledgement else Ok ack
           end
       end.

(** [HubAckV2::parse] *)
Definition ack_v2_parse (input : bytes) : Result ProtocolError HubAckV2 :=
  if MAX_HUB_ACK_BODY_BYTES <? len input then Err InputTooLarge
  else match parse_unique input with
       | Err e => Err e
       | Ok unique =>
           match from_value (A:=HubAckV2) unique with
           | None => Err ProtocolInvalidAcknowledgement
           | Some ack =>
               if negb (a2_version ack =? 2)
                  || negb (valid_lower_hex_digest (a2_batch_id ack))
                  || (256 <? Z.of_nat (length (a2_accepted_record_ids ack)))
                  || (256 <? Z.of_nat (length (a2_accepted_gap_notice_ids ack)))
                  || negb (all_distinct (a2_accepted_record_ids ack))
                  || negb (all_distinct (a2_accepted_gap_notice_ids ack))
               then Err ProtocolInvalidAcknowledgement else Ok ack
           end
       end.

End Parse.

(** ** The visitor accepts exactly the documents without duplicate keys *)

Section RawInd.
Context (P : Raw -> Prop).
Context (Hnull : P RNull) (Hbool : forall b, P (RBool b)) (Hi : forall z, P (RI64 z))
  (Hu : forall z, P (RU64 z)) (Hf : forall z, P (RF64 z)) (Hs : forall s, P (RStr s))
  (Hseq : forall items closed, Forall P items -> P (RSeq items closed))
  (Hmap : forall members closed, Forall (fun p => P p.2) members -> P (RMap members closed))
  (Hfail : P RFail).

Fixpoint Raw_nested_ind (r : Raw) : P r :=
  match r with
  | RNull => Hnull
  | RBool b => Hbool b
  | RI64 z => Hi z
  | RU64 z => Hu z
  | RF64 z => Hf z
  | RStr s => Hs s
  | RSeq items closed =>
      Hseq items closed
        ((fix go l : Forall P l :=
            match l with
            | [] => List.Forall_nil _
            | x :: l' => List.Forall_cons _ x l' (Raw_nested_ind x) (go l')
            end) items)
  | RMap members closed =>
      Hmap members closed
        ((fix go l : Forall (fun p => P p.2) l :=
            match l with
            | [] => List.Forall_nil _
            | x :: l' => List.Forall_cons _ x l' (Raw_nested_ind x.2) (go l')
            end) members)
  | RFail => Hfail
  end.
End RawInd.

(** The text is one complete JSON value with finite numbers. *)
Fixpoint complete (r : Raw) : bool :=
  match r with
  | RF64 bits => f64_is_finite bits
  | RSeq items closed => forallb complete items && closed
  | RMap members closed => forallb (fun '(_, r) => complete r) members && closed
  | RFail => false
  | _ => true
  end.

(** No object of the document, at any depth, repeats a key. *)
Fixpoint unique_keys (r : Raw) : bool :=
  match r with
  | RSeq items _ => forallb unique_keys items
  | RMap members _ => bool_decide (NoDup members.*1) && forallb (fun '(_, r) => unique_keys r) members
  | _ => true
  end.

(** The value a document denotes: members in key order. *)
Definition key_leb (a b : str * Value) : bool := bytes_leb a.1 b.1.
Fixpoint denote (r : Raw) : Value :=
  match r with
  | RNull | RFail => VNull
  | RBool b => VBool b
  | RI64 z => VNumber (number_of_i64 z)
  | RU64 z => VNumber (number_of_u64 z)
  | RF64 bits => VNumber (Float bits)
  | RStr s => VString s
  | RSeq items _ => VArray (map denote items)
  | RMap members _ => VObject (sort_by key_leb (map (fun '(k, r) => (k, denote r)) members))
  end.

Lemma map_insert_perm k v m : k ∉ m.*1 -> map_insert k v m ≡ₚ (k, v) :: m.
Proof.
  induction m as [|[k' v'] m IH]; cbn; intros Hk; [done|].
  rewrite decide_False by set_solver. destruct (bytes_leb k k'); [done|].
  rewrite IH by set_solver. constructor.
Qed.

Lemma map_insert_sorted k v m :
  k ∉ m.*1 ->
  StronglySorted (fun a b => key_leb a b = true) m ->
  StronglySorted (fun a b => key_leb a b = true) (map_insert k v m).
Proof.
  intros Hk Hm. induction Hm as [|[k' v'] m Hm IH Hall]; cbn; [by repeat constructor|].
  cbn in Hk. rewrite decide_False by set_solver.
  destruct (bytes_leb k k') eqn:E.
  - constructor; [by constructor|]. constructor; [done|].
    eapply Forall_impl; [exact Hall|]. intros [k'' v'']. unfold key_leb. cbn.
    by apply bytes_leb_trans.
  - constructor; [apply IH; set_solver|]. rewrite map_insert_perm by set_solver.
    constructor; [|done]. unfold key_leb. cbn.
    by destruct (bytes_leb_total k k'); [congruence|].
Qed.

Lemma key_sort_sorted l : StronglySorted (fun a b => key_leb a b = true) (sort_by key_leb l).
Proof.
  apply sort_by_sorted.
  - intros. apply bytes_leb_total.
  - intros x y z. apply bytes_leb_trans.
Qed.

(** Inserting the members one at a time sorts them. *)
Lemma fold_map_insert_sort l m :
  NoDup (l ++ m).*1 -> StronglySorted (fun a b => key_leb a b = true) m ->
  foldl (fun acc kv => map_insert kv.1 kv.2 acc) m l = sort_by key_leb (l ++ m).
Proof.
  revert m; induction l as [|[k v] l IH]; intros m Hnd Hm; cbn.
  { symmetry. by apply sort_by_id. }
  cbn in Hnd. apply NoDup_cons in Hnd as [Hk Hnd].
  assert (Hkm : k ∉ m.*1) by (rewrite fmap_app in Hk; set_solver).
  assert (Hperm : l ++ map_insert k v m ≡ₚ (k, v) :: l ++ m)
    by (rewrite (map_insert_perm k v m Hkm); symmetry; apply Permutation_middle).
  rewrite IH; [|rewrite Hperm; by constructor|by apply map_insert_sorted].
  apply (StronglySorted_unique_strong (fun a b => key_leb a b = true)).
  - intros [k1 v1] [k2 v2] H1 H2 L1 L2. unfold key_leb in *. cbn in *.
    assert (k1 = k2) as -> by by apply bytes_leb_antisym.
    rewrite sort_by_perm, Hperm in H1.
    rewrite sort_insert_perm, sort_by_perm in H2.
    assert (Hfun : NoDup ((k, v) :: l ++ m).*1) by (cbn; by constructor).
    f_equal. by eapply NoDup_fst_functional.
  - apply key_sort_sorted.
  - apply (key_sort_sorted ((k, v) :: l ++ m)).
  - rewrite sort_by_perm, sort_insert_perm, sort_by_perm. exact Hperm.
Qed.

Definition denote_member (p : str * Raw) : str * Value := let '(k, r) := p in (k, denote r).
Definition complete_member (p : str * Raw) : bool := let '(_, r) := p in complete r.
Definition unique_member (p : str * Raw) : bool := let '(_, r) := p in unique_keys r.

(** What the visitor does with one document. *)
Definition visit_outcome (r : Raw) : Prop :=
  if complete r
  then visit r = if unique_keys r then Ok (denote r) else Err VDuplicateKey
  else exists e, visit r = Err e.

Lemma visit_seq_outcome items closed acc :
  Forall visit_outcome items ->
  if forallb complete items && closed
  then visit_seq visit items acc closed =
       if forallb unique_keys items then Ok (VArray (acc ++ map denote items)) else Err VDuplicateKey
  else exists e, visit_seq visit items acc closed = Err e.
Proof.
  intros H; revert acc; induction H as [|r items Hr _ IH]; intros acc; cbn.
  - destruct closed; cbn; [by rewrite app_nil_r|eauto].
  - unfold visit_outcome in Hr. destruct (complete r) eqn:Ec; cbn.
    + rewrite Hr. destruct (unique_keys r); cbn.
      * specialize (IH (acc ++ [denote r])). rewrite <-(app_assoc acc) in IH. exact IH.
      * destruct (_ && _); eauto.
    + destruct Hr as [e ->]. eauto.
Qed.

Lemma visit_map_outcome members closed seen acc :
  Forall (fun p => visit_outcome p.2) members ->
  if forallb complete_member members && closed
  then visit_map visit members seen acc closed =
       if bool_decide (NoDup members.*1 /\ Forall (fun k => k ∉ seen) members.*1)
          && forallb unique_member members
       then Ok (VObject (foldl (fun m kv => map_insert kv.1 kv.2 m) acc (map denote_member members)))
       else Err VDuplicateKey
  else exists e, visit_map visit members seen acc closed = Err e.
Proof.
  intros H; revert seen acc; induction H as [|[k r] members Hr _ IH]; intros seen acc.
  - cbn [visit_map forallb map foldl andb fmap list_fmap].
    rewrite bool_decide_true by (repeat constructor). destruct closed; cbn; eauto.
  - cbn [visit_map forallb complete_member unique_member map denote_member foldl fst snd fmap list_fmap].
    unfold visit_outcome in Hr. cbn [snd] in Hr.
    destruct (decide (k ∈ seen)) as [Hseen|Hseen].
    { rewrite (bool_decide_true (k ∈ seen)) by done.
      rewrite (bool_decide_false (_ /\ _)); [|intros [_ Hf]; by inversion Hf].
      destruct (complete r && forallb complete_member members && closed); cbn; eauto. }
    rewrite (bool_decide_false (k ∈ seen)) by done.
    destruct (complete r) eqn:Ec; cbn [andb].
    2: { destruct Hr as [e ->]. eauto. }
    rewrite Hr. destruct (unique_keys r) eqn:Eu.
    + specialize (IH ({[k]} ∪ seen) (map_insert k (denote r) acc)).
      destruct (forallb complete_member members && closed) eqn:Ecl; [|done]. rewrite IH.
      cbn [andb]. erewrite (bool_decide_ext (NoDup (k :: _) /\ _)); [reflexivity|].
      rewrite NoDup_cons, !Forall_forall. set_solver.
    + rewrite andb_false_r. destruct (forallb complete_member members && closed); eauto.
Qed.

Lemma visit_correct r :
  if complete r
  then visit r = if unique_keys r then Ok (denote r) else Err VDuplicateKey
  else exists e, visit r = Err e.
Proof.
  change (visit_outcome r).
  induction r as [| | | |bits| |items closed IH|members closed IH|] using Raw_nested_ind;
    unfold visit_outcome; cbn [complete visit unique_keys denote]; try reflexivity; [| | |eauto].
  - unfold number_of_f64. destruct (f64_is_finite bits); eauto.
  - exact (visit_seq_outcome items closed [] IH).
  - pose proof (visit_map_outcome members closed ∅ [] IH) as Hm.
    change (forallb (fun '(_, r) => complete r) members) with (forallb complete_member members).
    destruct (forallb complete_member members && closed); [|done]. rewrite Hm. clear Hm.
    change (forallb (fun '(_, r) => unique_keys r) members) with (forallb unique_member members).
    erewrite bool_decide_ext with (Q := NoDup members.*1);
      [|split; [by intros [? _]|intros ?; split; [done|]; apply Forall_forall; set_solver]].
    case_bool_decide as Hnd; [|reflexivity]. destruct (forallb unique_member members); [|reflexivity].
    cbn [andb]. do 2 f_equal.
    rewrite fold_map_insert_sort; [by rewrite app_nil_r| |constructor].
    rewrite app_nil_r. change (map denote_member members) with (denote_member <$> members).
    rewrite <-list_fmap_compose. erewrite list_fmap_ext; [exact Hnd|]. by intros ? [? ?] ?.
Qed.

(** C38: the visitor accepts a complete document exactly when no object in it
    repeats a key, and then returns the value the document denotes; a complete
    document with a repeated key is reported as a duplicate key, and an
    incomplete document is never accepted. *)
Theorem visit_spec r :
  if complete r
  then visit r = if unique_keys r then Ok (denote r) else Err VDuplicateKey
  else exists e, visit r = Err e.
Proof. exact (visit_correct r). Qed.

(** ** Identities *)

Lemma record_id_parse_Ok s id :
  record_id_parse s = Ok id <-> valid_lower_hex_digest s = true /\ id = RecordIdOf s.
Proof.
  unfold record_id_parse, valid_lower_hex_digest.
  destruct (_ && _); split; [intros [= <-]| |..]; naive_solver.
Qed.

Lemma from_sha256_valid b :
  length b = 32%nat -> valid_lower_hex_digest (as_str (from_sha256 b)) = true.
Proof.
  intros Hb. unfold valid_lower_hex_digest, len. cbn [from_sha256 as_str].
  by rewrite length_hex_encode, Hb, hex_encode_lower_hex.
Qed.

Section IdentityFacts.
Context `{Sha256} `{Jcs}.

Lemma record_id_valid e : valid_lower_hex_digest (as_str (record_id e)) = true.
Proof. apply from_sha256_valid, sha256_length. Qed.

Lemma stable_record_id_valid e : valid_lower_hex_digest (as_str (stable_record_id e)) = true.
Proof. apply from_sha256_valid, sha256_length. Qed.

(** Two deliveries of one event: equal up to the receiver's arrival time. *)
Definition same_event (e e' : ReceiverEnvelope) : Prop :=
  stable_identity e = stable_identity e'.

Lemma stable_record_id_same_event e e' :
  same_event e e' -> stable_record_id e = stable_record_id e'.
Proof. unfold same_event, stable_record_id. by intros ->. Qed.

End IdentityFacts.

(** ** What a parsed envelope satisfies *)

(** The receiver contract, stated field by field. *)
Record valid_envelope (e : ReceiverEnvelope) : Prop := {
  ve_version : env_version e = 1;
  ve_vin : valid_vin (env_vin e) = true;
  ve_txid : bounded_visible_ascii (env_txid e) 1 128 = true;
  ve_tx_type : bounded_visible_ascii (env_tx_type e) 1 64 = true;
  ve_known : normalized_type (env_tx_type e) ∈ known_types;
  ve_received : MIN_TIMESTAMP_MS <= env_received_at_ms e;
  ve_timestamp : MIN_TIMESTAMP_MS <= env_timestamp_ms e
                 <= i64_saturating_add (env_received_at_ms e) MAX_EVENT_CLOCK_LEAD_MS;
  ve_payload : exists members, env_payload e = VObject members;
  ve_device : forall l, env_device_client_version e = Some l -> bounded_visible_ascii l 1 64 = true;
  ve_firmware : forall l, env_firmware_version e = Some l -> bounded_visible_ascii l 1 64 = true;
}.

Lemma labels_ok_true e :
  labels_ok e = true <->
  (forall l, env_device_client_version e = Some l -> bounded_visible_ascii l 1 64 = true) /\
  (forall l, env_firmware_version e = Some l -> bounded_visible_ascii l 1 64 = true).
Proof.
  unfold labels_ok. destruct (env_device_client_version e), (env_firmware_version e);
    cbn [omap list_omap id forallb]; rewrite ?andb_true_iff; naive_solver.
Qed.

Lemma is_object_true v : is_object v = true <-> exists members, v = VObject members.
Proof. destruct v; naive_solver. Qed.

Lemma validate_Ok e : validate e = Ok tt <-> valid_envelope e.
Proof.
  unfold validate. split.
  - repeat case_match; try done; intros _.
    repeat match goal with H : negb _ = false |- _ => apply negb_false_iff in H end.
    repeat match goal with H : _ || _ = false |- _ => apply orb_false_iff in H as [? ?] end.
    match goal with H : labels_ok e = true |- _ => apply labels_ok_true in H as [? ?] end.
    split; try done; [lia|by eapply bool_decide_eq_true_1|lia..|by apply is_object_true].
  - intros [-> -> -> -> Hk ? ? Hp Hd Hf]. cbn [negb Z.eqb Pos.eqb].
    rewrite bool_decide_true by done. cbn [negb].
    rewrite (proj2 (Z.ltb_ge _ _)), (proj2 (Z.ltb_ge (env_timestamp_ms e) _)),
      (proj2 (Z.ltb_ge _ (env_timestamp_ms e))) by lia. cbn [orb].
    by rewrite (proj2 (is_object_true _) Hp), (proj2 (labels_ok_true e) (conj Hd Hf)).
Qed.

Section ParseFacts.
Context `{JsonReader} `{FromValue ReceiverEnvelope} `{FromValue HubAckV1} `{FromValue HubAckV2}.

Lemma parse_unique_Ok input v :
  parse_unique input = Ok v ->
  complete (json_read input).1 = true /\ unique_keys (json_read input).1 = true /\
  v = denote (json_read input).1.
Proof.
  unfold parse_unique. destruct (json_read input) as [raw end_ok]. cbn.
  pose proof (visit_correct raw) as Hv.
  destruct (visit raw) as [v'|[]] eqn:Ev; try done.
  destruct end_ok; [|done]. intros [= <-].
  destruct (complete raw); [|by destruct Hv].
  by destruct (unique_keys raw); [injection Hv as ->|].
Qed.

Lemma clock_lead_bounds now r t :
  0 <= now -> now + 600000 <= I64_MAX ->
  r <= i64_saturating_add now MAX_RECEIVER_CLOCK_LEAD_MS ->
  t <= i64_saturating_add r MAX_EVENT_CLOCK_LEAD_MS ->
  r <= now + 300000 /\ t <= now + 600000.
Proof.
  unfold i64_saturating_add, MAX_RECEIVER_CLOCK_LEAD_MS, MAX_EVENT_CLOCK_LEAD_MS, I64_MIN, I64_MAX.
  lia.
Qed.

(** C39: an envelope the receiver endpoint accepts came from a body within the
    256 KiB limit whose JSON repeats no object key, satisfies every field rule
    of the receiver contract, and is stamped at most five minutes (arrival) and
    ten minutes (event) ahead of Edge's clock. *)
Theorem envelope_parse_at_sound input now e :
  0 <= now -> now + 600000 <= I64_MAX ->
  envelope_parse_at input now = Ok e ->
  len input <= MAX_RECEIVER_BODY_BYTES /\
  unique_keys (json_read input).1 = true /\
  valid_envelope e /\
  env_received_at_ms e <= now + 300000 /\
  env_timestamp_ms e <= now + 600000.
Proof.
  intros Hnow Hmax. unfold envelope_parse_at, envelope_parse.
  destruct (Z.ltb_spec MAX_RECEIVER_BODY_BYTES (len input)); [done|].
  destruct (parse_unique input) as [v|] eqn:Ep; [|done].
  destruct (from_value v) as [e'|]; [|done].
  destruct (validate e') as [[]|] eqn:Ev; [|done].
  destruct (Z.ltb_spec (i64_saturating_add now MAX_RECEIVER_CLOCK_LEAD_MS) (env_received_at_ms e'));
    [done|]. intros [= <-].
  apply parse_unique_Ok in Ep as (_ & Hu & _). apply validate_Ok in Ev.
  split; [assumption|]. split; [assumption|]. split; [assumption|].
  apply clock_lead_bounds; [assumption..|]. apply (ve_timestamp _ Ev).
Qed.

(** A body with a repeated key, at any depth and in an otherwise complete
    document of admissible size, is refused as a duplicate key. *)
Theorem envelope_parse_duplicate input :
  len input <= MAX_RECEIVER_BODY_BYTES ->
  complete (json_read input).1 = true -> unique_keys (json_read input).1 = false ->
  envelope_parse input = Err DuplicateJsonKey.
Proof.
  intros Hlen Hc Hu. unfold envelope_parse. rewrite (proj2 (Z.ltb_ge _ _)) by done.
  unfold parse_unique. destruct (json_read input) as [raw end_ok]. cbn in *.
  pose proof (visit_correct raw) as Hv. rewrite Hc, Hu in Hv. by rewrite Hv.
Qed.

Lemma ack_v2_parse_Ok input a :
  ack_v2_parse input = Ok a ->
  len input <= MAX_HUB_ACK_BODY_BYTES /\ a2_version a = 2 /\
  valid_lower_hex_digest (a2_batch_id a) = true /\
  (length (a2_accepted_record_ids a) <= 256)%nat /\ NoDup (a2_accepted_record_ids a) /\
  (length (a2_accepted_gap_notice_ids a) <= 256)%nat /\ NoDup (a2_accepted_gap_notice_ids a).
Proof.
  unfold ack_v2_parse. destruct (Z.ltb_spec MAX_HUB_ACK_BODY_BYTES (len input)); [done|].
  destruct (parse_unique input); [|done]. destruct (from_value _) as [a'|]; [|done].
  destruct (_ || _) eqn:E; [done|]. intros [= <-].
  rewrite !orb_false_iff, !negb_false_iff, !Z.ltb_ge, !all_distinct_true in E.
  split_and!; try tauto; lia.
Qed.

Lemma ack_v1_parse_Ok input a :
  ack_v1_parse input = Ok a ->
  len input <= MAX_HUB_ACK_BODY_BYTES /\ a1_version a = 1 /\
  valid_lower_hex_digest (a1_batch_id a) = true /\
  (length (a1_accepted_record_ids a) <= 256)%nat /\ NoDup (a1_accepted_record_ids a).
Proof.
  unfold ack_v1_parse. destruct (Z.ltb_spec MAX_HUB_ACK_BODY_BYTES (len input)); [done|].
  destruct (parse_unique input); [|done]. destruct (from_value _) as [a'|]; [|done].
  destruct (_ || _) eqn:E; [done|]. intros [= <-].
  rewrite !orb_false_iff, !negb_false_iff, !Z.ltb_ge, !all_distinct_true in E.
  split_and!; try tauto; lia.
Qed.

End ParseFacts.
