(* ===== verification/Crypto.v ===== *)
(** * Spool file encryption ([src/crypto.rs])

    The framing of an encrypted spool file: magic, key identifier, nonce,
    XChaCha20-Poly1305 ciphertext.  The cipher itself (chacha20poly1305) is
    an argument, the class [Aead]; [AeadLaws] states what its documentation
    promises: opening a sealed message under the same key, nonce and
    associated data returns it, and sealing adds a 16-byte tag. *)

From S2P Require Import Prelude Protocol.

Definition MAGIC : bytes := lit "TLEDGE01".
Definition KEY_ID_BYTES : nat := 8.
Definition NONCE_BYTES : nat := 24.
Definition HEADER_BYTES : nat := (length MAGIC + KEY_ID_BYTES + NONCE_BYTES)%nat.

Inductive CryptoError := KeyMismatch | InvalidCiphertext.
#[global] Instance CryptoError_eq_dec : EqDecision CryptoError.
Proof. solve_decision. Defined.

Class Aead := {
  aead_encrypt : forall (key nonce aad msg : bytes), option bytes;
  aead_decrypt : forall (key nonce aad msg : bytes), option bytes;
}.

Class AeadLaws `{Aead} := {
  aead_open_seal : forall key nonce aad msg c,
    aead_encrypt key nonce aad msg = Some c -> aead_decrypt key nonce aad c = Some msg;
  aead_tag : forall key nonce aad msg c,
    aead_encrypt key nonce aad msg = Some c -> length c = (length msg + 16)%nat;
}.

Section Crypto.
Context `{Sha256} `{Aead}.

(** [EncryptionKey::key_id] *)
Definition key_id (key : bytes) : bytes := take KEY_ID_BYTES (sha256 key).

(** [EncryptionKey::encrypt]; [nonce] is what the random generator returned. *)
Definition encrypt (key nonce plaintext : bytes) : Result CryptoError bytes :=
  match aead_encrypt key nonce MAGIC plaintext with
  | None => Err InvalidCiphertext
  | Some ciphertext => Ok (MAGIC ++ key_id key ++ nonce ++ ciphertext)
  end.

(** [EncryptionKey::decrypt] *)
Definition decrypt (key input : bytes) : Result CryptoError bytes :=
  if bool_decide ((length input <= HEADER_BYTES)%nat \/ take (length MAGIC) input <> MAGIC)
  then Err InvalidCiphertext
  else
    let key_id_start := length MAGIC in
    let nonce_start := (key_id_start + KEY_ID_BYTES)%nat in
    let ciphertext_start := (nonce_start + NONCE_BYTES)%nat in
    if bool_decide (take KEY_ID_BYTES (drop key_id_start input) <> key_id key)
    then Err KeyMismatch
    else
      match aead_decrypt key (take NONCE_BYTES (drop nonce_start input)) MAGIC
              (drop ciphertext_start input) with
      | None => Err InvalidCiphertext
      | Some plaintext => Ok plaintext
      end.

Lemma length_key_id key : length (key_id key) = KEY_ID_BYTES.
Proof. unfold key_id. rewrite length_take, sha256_length. done. Qed.

(** The three slices [decrypt] takes of a framed ciphertext. *)
Lemma frame_slices key nonce c :
  length nonce = NONCE_BYTES ->
  let input := MAGIC ++ key_id key ++ nonce ++ c in
  take (length MAGIC) input = MAGIC /\
  take KEY_ID_BYTES (drop (length MAGIC) input) = key_id key /\
  take NONCE_BYTES (drop (length MAGIC + KEY_ID_BYTES) input) = nonce /\
  drop (length MAGIC + KEY_ID_BYTES + NONCE_BYTES) input = c.
Proof.
  intros Hn input. subst input.
  pose proof (length_key_id key) as Hk.
  rewrite <-!drop_drop, !drop_app_length, !take_app_length.
  rewrite <-Hk at 1 2 3. rewrite take_app_length, !drop_app_length.
  rewrite <-Hn. by rewrite take_app_length, drop_app_length.
Qed.

Lemma decrypt_frame key nonce c :
  length nonce = NONCE_BYTES -> (0 < length c)%nat ->
  forall key', decrypt key' (MAGIC ++ key_id key ++ nonce ++ c) =
    if decide (key_id key = key_id key')
    then match aead_decrypt key' nonce MAGIC c with
         | None => Err InvalidCiphertext | Some p => Ok p end
    else Err KeyMismatch.
Proof.
  intros Hn Hc key'. pose proof (frame_slices key nonce c Hn) as (H1 & H2 & H3 & H4).
  unfold decrypt. rewrite bool_decide_false.
  - cbv zeta. rewrite H2, H3, H4. case_decide as E.
    + rewrite bool_decide_false; [done|naive_solver].
    + by rewrite bool_decide_true.
  - intros [Hlen|Hm]; [|done]. rewrite !length_app, length_key_id, Hn in Hlen.
    unfold HEADER_BYTES in Hlen. lia.
Qed.

Section Laws.
Context `{!AeadLaws}.

Lemma encrypt_Ok key nonce p c :
  encrypt key nonce p = Ok c ->
  exists body, aead_encrypt key nonce MAGIC p = Some body /\
               c = MAGIC ++ key_id key ++ nonce ++ body /\ (16 <= length body)%nat.
Proof.
  unfold encrypt. destruct (aead_encrypt key nonce MAGIC p) as [body|] eqn:E; [|done].
  intros [= <-]. exists body. split_and!; [done..|]. apply aead_tag in E. lia.
Qed.

Lemma decrypt_sealed key nonce plaintext ciphertext :
  length nonce = NONCE_BYTES -> encrypt key nonce plaintext = Ok ciphertext ->
  decrypt key ciphertext = Ok plaintext.
Proof.
  intros Hn (body & Hb & -> & Hl)%encrypt_Ok.
  rewrite decrypt_frame by (done || lia).
  rewrite decide_True by done. by rewrite (aead_open_seal _ _ _ _ _ Hb).
Qed.

Lemma decrypt_other_key key key' nonce plaintext ciphertext :
  length nonce = NONCE_BYTES ->
  encrypt key nonce plaintext = Ok ciphertext ->
  key_id key <> key_id key' ->
  decrypt key' ciphertext = Err KeyMismatch.
Proof.
  intros Hn (body & Hb & -> & Hl)%encrypt_Ok Hk.
  rewrite decrypt_frame by (done || lia). by rewrite decide_False.
Qed.

(** Encryption adds 56 bytes: 40 of header and a 16-byte tag. *)
Lemma encrypt_len key nonce p c :
  length nonce = NONCE_BYTES -> encrypt key nonce p = Ok c -> len c = len p + 56.
Proof.
  intros Hn (body & Hb & -> & _)%encrypt_Ok. apply aead_tag in Hb.
  unfold len. rewrite !length_app, length_key_id, Hn, Hb.
  unfold KEY_ID_BYTES, NONCE_BYTES. change (length MAGIC) with 8%nat. lia.
Qed.

(** C40: a sealed spool file opens, under the same key, to its plaintext; under a
    key with another identifier it is reported as a key mismatch, never as
    corruption, so it is not quarantined by mistake; and sealing costs 56
    bytes, less than the 64 that admission reserves. *)
Theorem sealed_file key key' nonce plaintext ciphertext :
  length nonce = NONCE_BYTES ->
  encrypt key nonce plaintext = Ok ciphertext ->
  decrypt key ciphertext = Ok plaintext /\
  (key_id key <> key_id key' -> decrypt key' ciphertext = Err KeyMismatch) /\
  len ciphertext = len plaintext + 56.
Proof.
  intros Hn He. split_and!; [by eapply decrypt_sealed|intros; by eapply decrypt_other_key|by eapply encrypt_len].
Qed.

End Laws.
End Crypto.
