(* ===== verification/Fs.v ===== *)
(** * The operating system seen by Edge

    A disk is a finite map from paths to nodes.  Every system call consumes
    one tick; the [Oracle] decides which ticks fail and with which error
    number, how much of a failing write reached the disk, what the random
    generator and [Uuid::new_v4] return, and in which order a directory is
    listed.  A theorem that quantifies over the oracle therefore covers
    every schedule of storage faults.

    A failing call leaves the disk unchanged, except a failing [write_all],
    which leaves an arbitrary prefix of the data. *)

From S2P Require Import Prelude.

(** A node: a regular file with its contents, or anything else (a directory,
    a symbolic link, a device) with the length its metadata reports. *)
Inductive Node :=
| File (data : bytes)
| Special (size : Z).

(** [std::io::Error], by what the code inspects: [kind()] and
    [raw_os_error()]. *)
Inductive IoError :=
| NotFound
| AlreadyExists
| OsError (code : Z).

Definition raw_os_error (e : IoError) : Z :=
  match e with NotFound => 2 | AlreadyExists => 17 | OsError code => code end.

Class Oracle := {
  fault : nat -> option Z;
  torn : nat -> nat;
  random_bytes : nat -> nat -> bytes;
  random_bytes_length : forall t n, length (random_bytes t n) = n;
  new_uuid : nat -> str;
  dir_order : nat -> list str -> list str;
  dir_order_perm : forall t l, dir_order t l ≡ₚ l;
  (** whether another process holds the advisory lock at a tick *)
  lock_taken : nat -> bool;
}.

Record Os (P : Type) `{Countable P} := {
  os_disk : gmap P Node;
  os_tick : nat;
}.
Arguments os_disk {P _ _}.
Arguments os_tick {P _ _}.

Definition node_len (n : Node) : Z :=
  match n with File data => len data | Special size => size end.
Definition is_file (n : Node) : bool :=
  match n with File _ => true | Special _ => false end.

Section Syscalls.
Context {P : Type} `{Countable P} {O : Oracle}.

Abbreviation Disk := (gmap P Node).
Definition Sys (A : Type) : Type := M (Os P) IoError A.

(** One system call: [run] when it is let through, [broken] is what a
    failing call leaves on the disk. *)
Definition syscall {A} (run : Disk -> Result IoError A * Disk) (broken : nat -> Disk -> Disk) : Sys A :=
  fun o =>
    let t := os_tick o in
    match fault t with
    | Some code => (Err (OsError code), {| os_disk := broken t (os_disk o); os_tick := S t |})
    | None => let (r, d) := run (os_disk o) in (r, {| os_disk := d; os_tick := S t |})
    end.

Definition untouched : nat -> Disk -> Disk := fun _ d => d.

(** A call that only reads the disk. *)
Definition query {A} (f : Disk -> Result IoError A) : Sys A :=
  syscall (fun d => (f d, d)) untouched.

(** [OpenOptions::new().write(true).create_new(true).open(p)] *)
Definition create_new (p : P) : Sys unit :=
  syscall (fun d => match d !! p with
                    | Some _ => (Err AlreadyExists, d)
                    | None => (Ok tt, <[p := File []]> d)
                    end) untouched.

(** [file.write_all(bytes)] on the file just created at [p]. *)
Definition write_all (p : P) (b : bytes) : Sys unit :=
  syscall (fun d => (Ok tt, <[p := File b]> d)) (fun t d => <[p := File (take (torn t) b)]> d).

(** [OpenOptions::new().read(true).write(true).create(true).open(p)] *)
Definition open_or_create (p : P) : Sys unit :=
  syscall (fun d => match d !! p with
                    | Some (File _) => (Ok tt, d)
                    | Some (Special _) => (Err (OsError 21), d)
                    | None => (Ok tt, <[p := File []]> d)
                    end) untouched.

(** [OpenOptions::new().read(true).write(true).open(p)] *)
Definition open_existing (p : P) : Sys unit :=
  query (fun d => match d !! p with
                  | Some (File _) => Ok tt
                  | Some (Special _) => Err (OsError 21)
                  | None => Err NotFound
                  end).

(** [FileExt::try_lock]: [false] is [TryLockError::WouldBlock]. *)
Definition try_lock : Sys bool :=
  fun o => query (fun _ => Ok (negb (lock_taken (os_tick o)))) o.

(** [fs::create_dir_all] on a directory of the spool, [set_permissions] on a
    file or directory: they can fail and change no node of the disk. *)
Definition create_dir_all : Sys unit := query (fun _ => Ok tt).
Definition set_permissions : Sys unit := query (fun _ => Ok tt).

(** [file.sync_all()], and [File::open(dir).and_then(sync_all)]. *)
Definition sync_all : Sys unit := query (fun _ => Ok tt).

(** [fs::rename]: a regular destination is replaced. *)
Definition rename (source destination : P) : Sys unit :=
  syscall (fun d => match d !! source with
                    | None => (Err NotFound, d)
                    | Some n =>
                        match d !! destination with
                        | Some (Special _) => (Err (OsError 21), d)
                        | _ => (Ok tt, <[destination := n]> (delete source d))
                        end
                    end) untouched.

(** [fs::remove_file] *)
Definition remove_file (p : P) : Sys unit :=
  syscall (fun d => match d !! p with
                    | None => (Err NotFound, d)
                    | Some (Special _) => (Err (OsError 21), d)
                    | Some (File _) => (Ok tt, delete p d)
                    end) untouched.

(** [fs::metadata], [fs::symlink_metadata], [DirEntry::metadata] and
    [DirEntry::file_type]: the node's kind and length. *)
Definition metadata (p : P) : Sys Node :=
  query (fun d => match d !! p with Some n => Ok n | None => Err NotFound end).

(** [fs::read] *)
Definition read (p : P) : Sys bytes :=
  query (fun d => match d !! p with
                  | Some (File b) => Ok b
                  | Some (Special _) => Err (OsError 21)
                  | None => Err NotFound
                  end).

(** [Path::exists]: false when the answer cannot be had. *)
Definition path_exists (p : P) : Sys bool :=
  let! r := catch (metadata p) in
  ret (match r with Ok _ => true | Err _ => false end).

(** [Uuid::new_v4()] and [rand::rng().fill(..)]: they consume a tick so that
    two draws differ, and cannot fail. *)
Definition draw_uuid : Sys str :=
  fun o => (Ok (new_uuid (os_tick o)), {| os_disk := os_disk o; os_tick := S (os_tick o) |}).
Definition draw_bytes (n : nat) : Sys bytes :=
  fun o => (Ok (random_bytes (os_tick o) n), {| os_disk := os_disk o; os_tick := S (os_tick o) |}).

(** ** Weakest preconditions of the calls *)

Lemma wp_syscall {A} run broken (Q : Result IoError A -> Os P -> Prop) o :
  (forall code, fault (os_tick o) = Some code ->
     Q (Err (OsError code))
       {| os_disk := broken (os_tick o) (os_disk o); os_tick := S (os_tick o) |}) ->
  (fault (os_tick o) = None ->
     Q (run (os_disk o)).1 {| os_disk := (run (os_disk o)).2; os_tick := S (os_tick o) |}) ->
  wp (syscall run broken) Q o.
Proof.
  intros Hf Hr. unfold wp, syscall. destruct (fault (os_tick o)); cbn; [by apply Hf|].
  specialize (Hr eq_refl). by destruct (run (os_disk o)).
Qed.

Lemma wp_query {A} (f : Disk -> Result IoError A) (Q : Result IoError A -> Os P -> Prop) o :
  (forall r, r = f (os_disk o) \/ (exists code, r = Err (OsError code)) ->
     Q r {| os_disk := os_disk o; os_tick := S (os_tick o) |}) ->
  wp (query f) Q o.
Proof. intros HQ. apply wp_syscall; [intros code _; apply HQ; eauto|intros _; apply HQ; auto]. Qed.

(** ** The file a call leaves behind *)

(** A call that may change only the paths in [S]. *)
Definition frames (S : P -> Prop) {A} (m : Sys A) : Prop :=
  forall o p, ~ S p -> os_disk (m o).2 !! p = os_disk o !! p.

Lemma frames_query {A} (f : Disk -> Result IoError A) S : frames S (query f).
Proof. intros o p _. unfold query, syscall. by destruct (fault (os_tick o)). Qed.

Lemma frames_bind {A B} S (m : Sys A) (k : A -> Sys B) :
  frames S m -> (forall a, frames S (k a)) -> frames S (bind m k).
Proof.
  intros Hm Hk o p Hp. unfold bind. specialize (Hm o p Hp).
  destruct (m o) as [[a|e] o'] eqn:E; cbn in *; [|done]. by rewrite (Hk a o' p Hp).
Qed.

End Syscalls.
