(* ===== verification/SpoolTypes.v ===== *)
(** * Spool data and pure helpers ([src/spool.rs])

    The configuration, the in-memory [State], the records stored on disk, gap
    notices, batch identifiers, file names and the acknowledgement shape
    checks: everything of the spool that is a pure function. *)

From S2P Require Import Prelude Protocol Crypto Fs.

(** ** Constants *)

Definition PENDING_SUFFIX : str := lit ".tles".
Definition RECEIPT_SUFFIX : str := lit ".tlea".
Definition GAP_SUFFIX : str := lit ".tleg".
Definition FORMAT_MARKER_FILE : str := lit "FORMAT".
Definition SEQUENCE_STATE_FILE : str := lit "sequence.tlem".
Definition MAX_ACK_RECEIPTS : nat := 1024.
Definition MAX_ENCRYPTED_RECORD_BYTES : Z := 384 * 1024.
Definition MAX_ENCRYPTED_RECEIPT_BYTES : Z := 160 * 1024.
Definition MAX_ENCRYPTED_SEQUENCE_STATE_BYTES : Z := 100 * 1000000 + 1024.
Definition MAX_ENCRYPTED_GAP_BYTES : Z := 16 * 1024.
Definition MAX_FORMAT_MARKER_BYTES : Z := 8.
Definition SPOOL_FORMAT_VERSION : Z := 4.
Definition PREVIOUS_SPOOL_FORMAT_VERSION : Z := 2.

Inductive SpoolFormat := Fresh | Previous | AdmissionIdentity | Current.
#[global] Instance SpoolFormat_eq_dec : EqDecision SpoolFormat.
Proof. solve_decision. Defined.

(** ** Paths below the spool directory *)

Inductive Dir := DRoot | DPending | DTmp | DQuarantine | DReceipts | DGaps.
#[global] Instance Dir_eq_dec : EqDecision Dir.
Proof. solve_decision. Defined.
Definition Dir_code (d : Dir) : nat :=
  match d with
  | DRoot => 0 | DPending => 1 | DTmp => 2 | DQuarantine => 3 | DReceipts => 4 | DGaps => 5
  end.
Definition Dir_of_code (n : nat) : option Dir :=
  match n with
  | 0%nat => Some DRoot | 1%nat => Some DPending | 2%nat => Some DTmp
  | 3%nat => Some DQuarantine | 4%nat => Some DReceipts | 5%nat => Some DGaps
  | _ => None
  end.
#[global] Program Instance Dir_countable : Countable Dir := inj_countable Dir_code Dir_of_code _.
Next Obligation. by intros []. Qed.

(** [config.directory.join(dir).join(name)] *)
Record SpoolPath := SPath { sp_dir : Dir; sp_name : str }.
#[global] Instance SpoolPath_eq_dec : EqDecision SpoolPath.
Proof. solve_decision. Defined.
#[global] Program Instance SpoolPath_countable : Countable SpoolPath :=
  inj_countable' (fun p => (sp_dir p, sp_name p)) (fun p => SPath p.1 p.2) _.
Next Obligation. by intros []. Qed.

(** ** Configuration, outcomes, errors *)

Record SpoolConfig := {
  max_bytes : Z;
  max_records : Z;
  retention_ms : Z;
  batch_max_bytes : Z;
  batch_max_records : Z;
}.

Inductive EnqueueOutcome :=
| Stored (id : RecordId)
| AlreadyPresent (id : RecordId).

Record SpoolSnapshot := {
  ss_pending_records : Z;
  ss_pending_bytes : Z;
  ss_corrupt_records : Z;
  ss_expired_records : Z;
  ss_pending_gap_notices : Z;
  ss_pending_gap_bytes : Z;
  ss_oldest_age_seconds : Z;
  ss_capacity_exhausted : bool;
  ss_degraded : bool;
}.

Inductive SpoolError :=
| InvalidConfig
| CapacityExceeded
| BatchItemTooLarge
| StorageFull
| SpoolKeyMismatch
| CorruptRecord
| SpoolIo
| AlreadyOpen
| SequenceStateMissing
| Serialization
| ReceiptRecoveryRequired
| V1AcknowledgementHistoryPruned
| InvalidAcknowledgement
| ProtocolUpgradeRequired.
#[global] Instance SpoolError_eq_dec : EqDecision SpoolError.
Proof. solve_decision. Defined.

(** ** In-memory records *)

Record Entry := {
  en_record_id : RecordId;
  en_stable_record_id : RecordId;
  en_spool_seq : Z;
  en_admitted_at_ms : Z;
  en_expires_at_ms : Z;
  en_encrypted_bytes : Z;
  en_path : SpoolPath;
}.
Record ReceiptAdmission := {
  ra_spool_seq : Z;
  ra_stable_record_id : RecordId;
  ra_legacy_record_id : RecordId;
}.
#[global] Instance ReceiptAdmission_eq_dec : EqDecision ReceiptAdmission.
Proof. solve_decision. Defined.
#[global] Program Instance ReceiptAdmission_countable : Countable ReceiptAdmission :=
  inj_countable' (fun a => (ra_spool_seq a, ra_stable_record_id a, ra_legacy_record_id a))
    (fun '(a, b, c) => {| ra_spool_seq := a; ra_stable_record_id := b; ra_legacy_record_id := c |}) _.
Next Obligation. by intros []. Qed.
Record AckReceipt := {
  ar_version : Z;
  ar_sequence : Z;
  ar_batch_id : str;
  ar_accepted_record_ids : list RecordId;
  ar_accepted_stable_record_ids : list RecordId;
  ar_accepted_gap_notice_ids : list RecordId;
  ar_accepted_admissions : list ReceiptAdmission;
}.
Record ReceiptEntry := { re_receipt : AckReceipt; re_path : SpoolPath }.
Record GapEntry := { ge_notice : GapNoticeV2; ge_encrypted_bytes : Z; ge_path : SpoolPath }.

Inductive BatchItemV2 :=
| ItemRecord (r : HubBatchRecordV2)
| ItemGap (g : GapNoticeV2).
Inductive BatchCandidateV2 :=
| CandRecord (e : Entry)
| CandGap (g : GapNoticeV2).
(** [BatchCandidateV2::spool_seq] *)
Definition candidate_seq (c : BatchCandidateV2) : Z :=
  match c with CandRecord e => en_spool_seq e | CandGap g => gn_spool_seq g end.

(** ** Records stored on disk *)

Record StoredRecord := {
  sr_version : Z;
  sr_record_id : RecordId;
  sr_stable_record_id : option RecordId;
  sr_spool_seq : option Z;
  sr_admitted_at_ms : Z;
  sr_expires_at_ms : Z;
  sr_envelope : ReceiverEnvelope;
}.
Record SequenceState := {
  sq_version : Z;
  sq_next_spool_sequence : Z;
  sq_expired_records_total : Z;
  sq_counted_pending_expirations : gmap Z RecordId;
  sq_v1_ack_history_pruned : bool;
}.

(** ** The state behind the mutex *)

Record State := {
  entries : gmap RecordId Entry;
  stable_index : gmap RecordId RecordId;
  gaps : gmap RecordId GapEntry;
  receipts : gmap str ReceiptEntry;
  next_spool_sequence : Z;
  next_receipt_sequence : Z;
  v1_ack_history_pruned : bool;
  pending_bytes : Z;
  pending_gap_bytes : Z;
  corrupt_records : Z;
  expired_records : Z;
  counted_pending_expirations : gmap Z RecordId;
  unresolved_integrity : bool;
}.

(** [State::default] *)
Definition default_state : State := {|
  entries := ∅;
  stable_index := ∅;
  gaps := ∅;
  receipts := ∅;
  next_spool_sequence := 1;
  next_receipt_sequence := 0;
  v1_ack_history_pruned := false;
  pending_bytes := 0;
  pending_gap_bytes := 0;
  corrupt_records := 0;
  expired_records := 0;
  counted_pending_expirations := ∅;
  unresolved_integrity := false;
|}.

(** Field assignments [state.field = value]. *)
Definition set_entries x (s : State) : State :=
  Build_State x (stable_index s) (gaps s) (receipts s) (next_spool_sequence s)
    (next_receipt_sequence s) (v1_ack_history_pruned s) (pending_bytes s)
    (pending_gap_bytes s) (corrupt_records s) (expired_records s)
    (counted_pending_expirations s) (unresolved_integrity s).
Definition set_stable_index x (s : State) : State :=
  Build_State (entries s) x (gaps s) (receipts s) (next_spool_sequence s)
    (next_receipt_sequence s) (v1_ack_history_pruned s) (pending_bytes s)
    (pending_gap_bytes s) (corrupt_records s) (expired_records s)
    (counted_pending_expirations s) (unresolved_integrity s).
Definition set_gaps x (s : State) : State :=
  Build_State (entries s) (stable_index s) x (receipts s) (next_spool_sequence s)
    (next_receipt_sequence s) (v1_ack_history_pruned s) (pending_bytes s)
    (pending_gap_bytes s) (corrupt_records s) (expired_records s)
    (counted_pending_expirations s) (unresolved_integrity s).
Definition set_receipts x (s : State) : State :=
  Build_State (entries s) (stable_index s) (gaps s) x (next_spool_sequence s)
    (next_receipt_sequence s) (v1_ack_history_pruned s) (pending_bytes s)
    (pending_gap_bytes s) (corrupt_records s) (expired_records s)
    (counted_pending_expirations s) (unresolved_integrity s).
Definition set_next_spool_sequence x (s : State) : State :=
  Build_State (entries s) (stable_index s) (gaps s) (receipts s) x (next_receipt_sequence s)
    (v1_ack_history_pruned s) (pending_bytes s) (pending_gap_bytes s)
    (corrupt_records s) (expired_records s) (counted_pending_expirations s)
    (unresolved_integrity s).
Definition set_next_receipt_sequence x (s : State) : State :=
  Build_State (entries s) (stable_index s) (gaps s) (receipts s) (next_spool_sequence s) x
    (v1_ack_history_pruned s) (pending_bytes s) (pending_gap_bytes s)
    (corrupt_records s) (expired_records s) (counted_pending_expirations s)
    (unresolved_integrity s).
Definition set_v1_ack_history_pruned x (s : State) : State :=
  Build_State (entries s) (stable_index s) (gaps s) (receipts s) (next_spool_sequence s)
    (next_receipt_sequence s) x (pending_bytes s) (pending_gap_bytes s)
    (corrupt_records s) (expired_records s) (counted_pending_expirations s)
    (unresolved_integrity s).
Definition set_pending_bytes x (s : State) : State :=
  Build_State (entries s) (stable_index s) (gaps s) (receipts s) (next_spool_sequence s)
    (next_receipt_sequence s) (v1_ack_history_pruned s) x
    (pending_gap_bytes s) (corrupt_records s) (expired_records s)
    (counted_pending_expirations s) (unresolved_integrity s).
Definition set_pending_gap_bytes x (s : State) : State :=
  Build_State (entries s) (stable_index s) (gaps s) (receipts s) (next_spool_sequence s)
    (next_receipt_sequence s) (v1_ack_history_pruned s) (pending_bytes s) x
    (corrupt_records s) (expired_records s) (counted_pending_expirations s)
    (unresolved_integrity s).
Definition set_corrupt_records x (s : State) : State :=
  Build_State (entries s) (stable_index s) (gaps s) (receipts s) (next_spool_sequence s)
    (next_receipt_sequence s) (v1_ack_history_pruned s) (pending_bytes s)
    (pending_gap_bytes s) x (expired_records s)
    (counted_pending_expirations s) (unresolved_integrity s).
Definition set_expired_records x (s : State) : State :=
  Build_State (entries s) (stable_index s) (gaps s) (receipts s) (next_spool_sequence s)
    (next_receipt_sequence s) (v1_ack_history_pruned s) (pending_bytes s)
    (pending_gap_bytes s) (corrupt_records s) x
    (counted_pending_expirations s) (unresolved_integrity s).
Definition set_counted_pending_expirations x (s : State) : State :=
  Build_State (entries s) (stable_index s) (gaps s) (receipts s) (next_spool_sequence s)
    (next_receipt_sequence s) (v1_ack_history_pruned s) (pending_bytes s)
    (pending_gap_bytes s) (corrupt_records s) (expired_records s) x
    (unresolved_integrity s).

(** ** Error mappings *)

Definition map_crypto_error (e : CryptoError) : SpoolError :=
  match e with KeyMismatch => SpoolKeyMismatch | InvalidCiphertext => CorruptRecord end.

Definition map_io_error (e : IoError) : SpoolError :=
  if (raw_os_error e =? 28) || (raw_os_error e =? 112) then StorageFull else SpoolIo.

(** ** Checks on configuration and digests *)

Definition validate_config (c : SpoolConfig) : Result SpoolError unit :=
  if (max_bytes c =? 0) || (max_records c =? 0) || (retention_ms c <=? 0)
     || (batch_max_bytes c =? 0) || (batch_max_records c =? 0)
     || (max_records c <? batch_max_records c)
  then Err InvalidConfig else Ok tt.

Definition valid_digest (value : str) : bool :=
  (len value =? 64) && forallb is_lower_hex value.

Definition same_record_ids (left right : list RecordId) : bool :=
  Nat.eqb (length left) (length right) && bool_decide (hash_set left = hash_set right).

(** ** Gap notices *)

Definition reason_label (reason : GapReasonV2) : bytes :=
  match reason with
  | RetentionExpired => lit "retention_expired"
  | IntegrityQuarantine => lit "integrity_quarantine"
  end.

Section Digests.
Context `{Sha256} `{Jcs}.

Definition gap_evidence (spool_seq : Z) (stable_record_id : RecordId) (reason : GapReasonV2) : str :=
  hex_encode (sha256 (lit "teslatlas-edge-gap-evidence-v2" ++ NUL ++ to_be_bytes spool_seq
                      ++ as_str stable_record_id ++ reason_label reason)).

Definition gap_notice_id (spool_seq : Z) (reason : GapReasonV2) (evidence : str) : RecordId :=
  from_sha256 (sha256 (lit "teslatlas-edge-gap-notice-v2" ++ NUL ++ to_be_bytes spool_seq
                       ++ reason_label reason ++ evidence)).

Definition gap_notice_for_identity (spool_seq : Z) (stable_record_id : RecordId)
    (occurred_at_ms : Z) (reason : GapReasonV2) : GapNoticeV2 :=
  let evidence_sha256 := gap_evidence spool_seq stable_record_id reason in
  {| gn_notice_id := gap_notice_id spool_seq reason evidence_sha256;
     gn_spool_seq := spool_seq;
     gn_occurred_at_ms := occurred_at_ms;
     gn_reason := reason;
     gn_evidence_sha256 := evidence_sha256 |}.

Definition gap_notice (entry : Entry) (occurred_at_ms : Z) (reason : GapReasonV2) : GapNoticeV2 :=
  gap_notice_for_identity (en_spool_seq entry) (en_stable_record_id entry) occurred_at_ms reason.

Definition valid_gap_notice (notice : GapNoticeV2) : bool :=
  if (gn_spool_seq notice =? 0) || negb (valid_digest (gn_evidence_sha256 notice)) then false
  else bool_decide (gn_notice_id notice =
                    gap_notice_id (gn_spool_seq notice) (gn_reason notice) (gn_evidence_sha256 notice)).

(** ** Stored records *)

Definition valid_stored_record (stored : StoredRecord) : bool :=
  if match validate (sr_envelope stored) with Err _ => true | Ok _ => false end
     || bool_decide (sr_record_id stored <> record_id (sr_envelope stored))
     || (sr_expires_at_ms stored <? sr_admitted_at_ms stored)
  then false
  else if sr_version stored =? 1 then
    bool_decide (sr_stable_record_id stored = None) && bool_decide (sr_spool_seq stored = None)
  else if sr_version stored =? 2 then
    bool_decide (sr_stable_record_id stored = Some (stable_record_id (sr_envelope stored)))
    && match sr_spool_seq stored with Some sequence => 0 <? sequence | None => false end
  else false.

(** ** Batch identifiers *)

Definition batch_id (records : list HubBatchRecordV1) : str :=
  hex_encode (sha256 (lit "teslatlas-edge-batch-v1" ++ NUL ++
    (records ≫= fun record => as_str (br1_record_id record) ++ NUL))).

(** The merged items of a batch: sequence, kind byte, identifier. *)
Definition batch_items (records : list HubBatchRecordV2) (gaps : list GapNoticeV2)
    : list (Z * byte * str) :=
  sort_by_key (fun item => item.1.1)
    (map (fun record => (br2_spool_seq record, x72, as_str (br2_record_id record))) records
     ++ map (fun gap => (gn_spool_seq gap, x67, as_str (gn_notice_id gap))) gaps).

Definition item_bytes (item : Z * byte * str) : bytes :=
  let '(spool_seq, kind, id) := item in [kind] ++ to_be_bytes spool_seq ++ id ++ NUL.

Definition batch_preimage_v2 (items : list (Z * byte * str)) : bytes :=
  lit "teslatlas-edge-batch-v2" ++ NUL ++ (items ≫= item_bytes).

Definition batch_id_v2 (records : list HubBatchRecordV2) (gaps : list GapNoticeV2) : str :=
  hex_encode (sha256 (batch_preimage_v2 (batch_items records gaps))).

End Digests.

(** ** The acknowledged prefix *)

(** [(spool_seq, is_record, id)] for every item, by sequence. *)
Definition merged_items (batch : HubBatchV2) : list (Z * bool * RecordId) :=
  sort_by_key (fun item => item.1.1)
    (map (fun record => (br2_spool_seq record, true, br2_record_id record)) (b2_records batch)
     ++ map (fun gap => (gn_spool_seq gap, false, gn_notice_id gap)) (b2_gaps batch)).

(** The loop of [v2_ack_is_merged_prefix]: [None] is its early
    [return false]; otherwise the final value of [matched]. *)
Fixpoint prefix_loop (accepted : bool * RecordId -> bool) (items : list (Z * bool * RecordId))
    (matched : Z) (saw_unaccepted : bool) : option Z :=
  match items with
  | [] => Some matched
  | (_, is_record, id) :: items' =>
      if accepted (is_record, id) then
        if saw_unaccepted then None
        else prefix_loop accepted items' (u64_saturating_add matched 1) saw_unaccepted
      else prefix_loop accepted items' matched true
  end.

(** [if is_record { accepted_records.contains(id) } else { accepted_gaps.contains(id) }] *)
Definition ack_accepts (ack : HubAckV2) (item : bool * RecordId) : bool :=
  let '(is_record, id) := item in
  if is_record : bool then bool_decide (id ∈ hash_set (a2_accepted_record_ids ack))
  else bool_decide (id ∈ hash_set (a2_accepted_gap_notice_ids ack)).

Definition v2_ack_is_merged_prefix (batch : HubBatchV2) (ack : HubAckV2) : bool :=
  let accepted_records := hash_set (a2_accepted_record_ids ack) in
  let accepted_gaps := hash_set (a2_accepted_gap_notice_ids ack) in
  match prefix_loop (ack_accepts ack) (merged_items batch) 0 false with
  | None => false
  | Some matched =>
      matched =? u64_saturating_add (Z.of_nat (size accepted_records)) (Z.of_nat (size accepted_gaps))
  end.

Definition ack_result (receipt : AckReceipt) : HubAckResultV1 := {|
  r1_version := 1;
  r1_acknowledged_record_ids := ar_accepted_record_ids receipt;
  r1_unknown_record_ids := [];
|}.

Definition ack_result_v2 (receipt : AckReceipt) : HubAckResultV2 := {|
  r2_version := 2;
  r2_acknowledged_record_ids := ar_accepted_stable_record_ids receipt;
  r2_acknowledged_gap_notice_ids := ar_accepted_gap_notice_ids receipt;
  r2_unknown_record_ids := [];
  r2_unknown_gap_notice_ids := [];
|}.

(** ** File names *)

Definition DASH : byte := x2d.

(** [format!("v2-{:020}-{}{}", spool_seq, record_id, PENDING_SUFFIX)] *)
Definition pending_file_name (spool_seq : Z) (record_id : RecordId) : str :=
  lit "v2-" ++ fmt_020 spool_seq ++ [DASH] ++ as_str record_id ++ PENDING_SUFFIX.
(** [format!("{:020}-{}{}", ..)] for gaps and receipts *)
Definition gap_file_name (spool_seq : Z) (notice_id : RecordId) : str :=
  fmt_020 spool_seq ++ [DASH] ++ as_str notice_id ++ GAP_SUFFIX.
Definition receipt_file_name (sequence : Z) (batch_id : str) : str :=
  fmt_020 sequence ++ [DASH] ++ batch_id ++ RECEIPT_SUFFIX.

Definition parse_v2_pending_file_name (file_name : str) : option (Z * RecordId) :=
  match strip_prefix (lit "v2-") file_name with
  | None => None
  | Some rest =>
      match strip_suffix PENDING_SUFFIX rest with
      | None => None
      | Some body =>
          match split_once DASH body with
          | None => None
          | Some (sequence, record_id) =>
              if negb (len sequence =? 20) then None
              else match parse_u64 sequence with
                   | None => None
                   | Some spool_seq =>
                       if spool_seq =? 0 then None
                       else match record_id_parse record_id with
                            | Ok id => Some (spool_seq, id)
                            | Err _ => None
                            end
                   end
          end
      end
  end.
