(* ===== verification/SpoolFacts.v ===== *)
(** * Properties of the spool's pure helpers

    File names parse back, gap notices validate, batch identifiers bind the
    merged order, and the prefix check accepts exactly the contiguous
    prefixes of the merged sequence. *)

From S2P Require Import Prelude Protocol Crypto Fs SpoolTypes.

(** ** File names *)

Lemma valid_digest_lower_hex s : valid_digest s = valid_lower_hex_digest s.
Proof. done. Qed.

Lemma valid_digest_length s : valid_digest s = true -> length s = 64%nat.
Proof. unfold valid_digest, len. rewrite andb_true_iff, Z.eqb_eq. lia. Qed.

Lemma digit_not_dash b : is_ascii_digit b = true -> b <> DASH.
Proof. by intros Hb ->. Qed.

Lemma dec_digits_all n z : forallb is_ascii_digit (dec_digits n z) = true.
Proof.
  revert z; induction n as [|n IH]; intros z; cbn [dec_digits]; [done|].
  apply forallb_app_true; [apply IH|]. cbn [forallb].
  by rewrite (proj1 (dec_digit_spec (z mod 10) (Z.mod_pos_bound z 10 ltac:(lia)))).
Qed.

Lemma fmt_020_no_dash z : DASH ∉ fmt_020 z.
Proof. eapply not_elem_of_forallb; [apply dec_digits_all|done]. Qed.

(** the name of a pending file determines the sequence and the record
    identifier it was written for. *)
Theorem pending_file_name_roundtrip spool_seq id :
  in_u64 spool_seq -> 0 < spool_seq -> valid_digest (as_str id) = true ->
  parse_v2_pending_file_name (pending_file_name spool_seq id) = Some (spool_seq, id).
Proof.
  intros Hu Hpos Hid. unfold parse_v2_pending_file_name, pending_file_name.
  rewrite strip_prefix_app.
  rewrite !(app_assoc _ _ PENDING_SUFFIX), strip_suffix_app.
  cbn [app]. rewrite split_once_app by apply fmt_020_no_dash.
  replace (len (fmt_020 spool_seq) =? 20) with true
    by (unfold len, fmt_020; by rewrite length_dec_digits).
  cbn [negb]. rewrite parse_u64_fmt_020 by done.
  rewrite (proj2 (Z.eqb_neq _ _)) by lia.
  destruct (record_id_parse (as_str id)) as [id'|] eqn:E.
  - apply record_id_parse_Ok in E as [_ ->]. by destruct id.
  - rewrite valid_digest_lower_hex in Hid.
    by rewrite (proj2 (record_id_parse_Ok _ (RecordIdOf (as_str id))) (conj Hid eq_refl)) in E.
Qed.

(** Two pending names agree only for the same occurrence. *)
(** ** Record identifier sets *)

(** comparing lengths and hash sets of two identifier lists without
    repetitions decides whether one is a reordering of the other. *)
Theorem same_record_ids_permutation left right :
  NoDup left -> NoDup right ->
  same_record_ids left right = true <-> left ≡ₚ right.
Proof.
  intros Hl Hr. unfold same_record_ids, hash_set.
  rewrite andb_true_iff, Nat.eqb_eq, bool_decide_eq_true. split.
  - intros [_ Hs]. apply NoDup_Permutation; [done..|]. intros x.
    rewrite <-!(elem_of_list_to_set (C:=gset RecordId)). by rewrite Hs.
  - intros Hp. split; [by rewrite Hp|]. apply set_eq. intros x.
    by rewrite !elem_of_list_to_set, Hp.
Qed.

(** ** Gap notices *)

Section Notices.
Context `{Sha256}.

Lemma gap_evidence_valid seq sid reason : valid_digest (gap_evidence seq sid reason) = true.
Proof.
  unfold gap_evidence. exact (from_sha256_valid _ (sha256_length _)).
Qed.

Lemma gap_notice_id_valid seq reason ev : valid_digest (as_str (gap_notice_id seq reason ev)) = true.
Proof. exact (from_sha256_valid _ (sha256_length _)). Qed.

Lemma gap_notice_for_identity_valid seq sid at_ms reason :
  seq <> 0 -> valid_gap_notice (gap_notice_for_identity seq sid at_ms reason) = true.
Proof.
  intros Hs. unfold valid_gap_notice, gap_notice_for_identity. cbn.
  rewrite (proj2 (Z.eqb_neq _ _)), gap_evidence_valid by done. cbn.
  by apply bool_decide_eq_true.
Qed.

End Notices.

(** ** Batch identifiers *)

Section BatchId.
Context `{Sha256}.

Definition item_ok (item : Z * byte * str) : Prop :=
  in_u64 item.1.1 /\ length item.2 = 64%nat.

Lemma length_item_bytes item : item_ok item -> length (item_bytes item) = 74%nat.
Proof.
  destruct item as [[seq kind] id]. intros [_ Hid]. cbn in Hid. unfold item_bytes.
  rewrite !length_app, length_to_be_bytes, Hid. done.
Qed.

Lemma item_bytes_inj a b : item_ok a -> item_ok b -> item_bytes a = item_bytes b -> a = b.
Proof.
  destruct a as [[sa ka] ia], b as [[sb kb] ib]. intros [Ha La] [Hb Lb] E.
  cbn [fst snd] in Ha, La, Hb, Lb.
  unfold item_bytes in E. apply app_inj_1 in E as [Ek E]; [|done]. injection Ek as ->.
  apply (app_inj_1 (to_be_bytes sa)) in E as [Es E]; [|done].
  apply app_inj_1 in E as [-> _]; [|lia].
  by apply to_be_bytes_inj in Es as ->.
Qed.

Lemma items_bytes_cons (a : Z * byte * str) l :
  (a :: l) ≫= item_bytes = item_bytes a ++ (l ≫= item_bytes).
Proof. reflexivity. Qed.

Lemma items_bytes_cons_ne a l : item_ok a -> [] <> (a :: l) ≫= item_bytes.
Proof.
  intros Ha E. rewrite items_bytes_cons in E. apply (f_equal length) in E.
  rewrite length_app, length_item_bytes in E by done. cbn in E. lia.
Qed.

Lemma items_bytes_inj l k :
  Forall item_ok l -> Forall item_ok k -> l ≫= item_bytes = k ≫= item_bytes -> l = k.
Proof.
  intros Hl; revert k; induction Hl as [|a l Ha Hl IH]; intros k Hk E.
  - destruct Hk as [|b k Hb Hk]; [done|]. by apply items_bytes_cons_ne in E.
  - destruct Hk as [|b k Hb Hk]; [symmetry in E; by apply items_bytes_cons_ne in E|].
    rewrite !items_bytes_cons in E.
    apply app_inj_1 in E as [E1 E2]; [|by rewrite !length_item_bytes].
    apply item_bytes_inj in E1 as ->; [|done..]. f_equal. by apply IH.
Qed.

(** C35: when SHA-256 does not collide on the two preimages, equal version-2
    batch identifiers mean the same merged sequence of records and gaps: same
    sequence numbers, same kinds, same identifiers, same order. *)
Theorem batch_id_v2_binds records gaps records' gaps' :
  Forall item_ok (batch_items records gaps) -> Forall item_ok (batch_items records' gaps') ->
  (sha256 (batch_preimage_v2 (batch_items records gaps)) =
   sha256 (batch_preimage_v2 (batch_items records' gaps')) ->
   batch_preimage_v2 (batch_items records gaps) = batch_preimage_v2 (batch_items records' gaps')) ->
  batch_id_v2 records gaps = batch_id_v2 records' gaps' ->
  batch_items records gaps = batch_items records' gaps'.
Proof.
  intros Hok Hok' Hcr E. unfold batch_id_v2 in E. apply (inj hex_encode), Hcr in E.
  unfold batch_preimage_v2 in E. apply app_inv_head, app_inv_head in E.
  by apply items_bytes_inj.
Qed.

End BatchId.

(** ** The acknowledged prefix *)

(** What an acknowledgement accepts, and what a batch offers in sequence
    order; [true] marks a record, [false] a gap. *)
Definition accepted_list (ack : HubAckV2) : list (bool * RecordId) :=
  (pair true <$> a2_accepted_record_ids ack) ++ (pair false <$> a2_accepted_gap_notice_ids ack).
Definition item_key (item : Z * bool * RecordId) : bool * RecordId := (item.1.2, item.2).
Definition merged_ids (batch : HubBatchV2) : list (bool * RecordId) :=
  item_key <$> merged_items batch.

Lemma elem_of_accepted_list ack (k : bool) (id : RecordId) :
  (k, id) ∈ accepted_list ack <->
  if k then id ∈ a2_accepted_record_ids ack else id ∈ a2_accepted_gap_notice_ids ack.
Proof.
  unfold accepted_list. rewrite elem_of_app, !list_elem_of_fmap. destruct k; naive_solver.
Qed.

Lemma ack_accepts_list ack p : ack_accepts ack p = bool_decide (p ∈ accepted_list ack).
Proof.
  destruct p as [k id]. pose proof (elem_of_accepted_list ack k id) as Hel.
  unfold ack_accepts, hash_set. destruct k; apply bool_decide_ext; rewrite Hel; apply elem_of_list_to_set.
Qed.

Lemma accepted_list_nodup ack :
  NoDup (a2_accepted_record_ids ack) -> NoDup (a2_accepted_gap_notice_ids ack) ->
  NoDup (accepted_list ack).
Proof.
  intros Hr Hg. unfold accepted_list. apply NoDup_app. split_and!.
  - by apply (NoDup_fmap_2 (pair true)).
  - intros [k id] H1 H2. apply (list_elem_of_fmap_1 (pair true)) in H1.
    apply (list_elem_of_fmap_1 (pair false)) in H2. naive_solver.
  - by apply (NoDup_fmap_2 (pair false)).
Qed.

(** After an unaccepted item the loop succeeds only if nothing else is accepted. *)
Lemma prefix_loop_after accepted items m k :
  prefix_loop accepted items m true = Some k <->
  k = m /\ Forall (fun p => accepted p = false) (item_key <$> items).
Proof.
  induction items as [|[[q r] id] items IH]; cbn.
  - split; [intros [= ->]; repeat constructor|by intros [-> _]].
  - unfold item_key at 1. cbn. rewrite Forall_cons. destruct (accepted (r, id)) eqn:E.
    + split; [done|]. intros [_ [Hf _]]. congruence.
    + rewrite IH. tauto.
Qed.

Lemma prefix_loop_spec accepted items m k :
  0 <= m -> m + Z.of_nat (length items) <= U64_MAX ->
  prefix_loop accepted items m false = Some k <->
  exists n, (n <= length items)%nat /\ k = m + Z.of_nat n /\
    Forall (fun p => accepted p = true) (take n (item_key <$> items)) /\
    Forall (fun p => accepted p = false) (drop n (item_key <$> items)).
Proof.
  revert m; induction items as [|[[q r] id] items IH]; intros m Hm Hu; cbn [prefix_loop length] in *.
  - split.
    + intros [= <-]. exists 0%nat. split_and!; [done|lia|constructor..].
    + intros (n & Hn & -> & _). assert (n = 0%nat) as -> by (cbn in Hn; lia). f_equal. lia.
  - rewrite fmap_cons. unfold item_key at 1 3. cbn [fst snd]. destruct (accepted (r, id)) eqn:E.
    + rewrite u64_saturating_add_exact by lia. rewrite IH by lia. split.
      * intros (n & Hn & -> & Ht & Hd). exists (S n). cbn [take drop].
        split_and!; [lia|lia|by constructor|done].
      * intros ([|n] & Hn & -> & Ht & Hd); cbn [take drop] in *.
        { apply Forall_cons in Hd as [Hd _]. congruence. }
        apply Forall_cons in Ht as [_ Ht]. exists n. split_and!; [lia|lia|done..].
    + rewrite prefix_loop_after. split.
      * intros [-> Hf]. exists 0%nat. split_and!; [lia|lia|constructor|by constructor].
      * intros ([|n] & Hn & -> & Ht & Hd); cbn [take drop] in *.
        { apply Forall_cons in Hd as [_ Hd]. split; [lia|done]. }
        apply Forall_cons in Ht as [Ht _]. congruence.
Qed.

(** For repetition-free lists, being a prefix as a set is what the loop's two
    conditions and the final count say. *)
Lemma prefix_as_set {A} `{EqDecision A} (l k : list A) :
  NoDup l -> NoDup k ->
  (exists n, (n <= length k)%nat /\ length l = n /\
     Forall (fun p => bool_decide (p ∈ l) = true) (take n k) /\
     Forall (fun p => bool_decide (p ∈ l) = false) (drop n k)) <->
  exists n, l ≡ₚ take n k.
Proof.
  intros Hl Hk. split.
  - intros (n & Hn & Hlen & Ht & _). exists n. symmetry. rewrite Forall_forall in Ht.
    apply submseteq_length_Permutation; [|rewrite length_take; lia].
    apply NoDup_submseteq; [by eapply sublist_NoDup, sublist_take|]. intros p Hp.
    by apply Ht, bool_decide_eq_true in Hp.
  - intros [n Hp]. assert (Hlen : length l = length (take n k)) by by rewrite Hp.
    rewrite length_take in Hlen. exists (length l).
    assert (Htake : take (length l) k = take n k).
    { rewrite Hlen. destruct (decide (n <= length k)%nat).
      - by rewrite Nat.min_l.
      - rewrite Nat.min_r, !take_ge by lia. done. }
    split_and!; [lia|done|..]; apply Forall_forall; intros p Hin.
    + apply bool_decide_eq_true. by rewrite Hp, <-Htake.
    + apply bool_decide_eq_false. rewrite Hp, <-Htake. intros Hin'.
      rewrite <-(take_drop (length l) k) in Hk. apply NoDup_app in Hk as (_ & Hd & _).
      by apply (Hd p).
Qed.

(** C34: the prefix check accepts an acknowledgement exactly when the accepted
    records and gaps are, as a set, the first [n] items of the batch in merged
    sequence order for some [n]: nothing may be skipped. *)
Theorem v2_ack_prefix_spec batch ack :
  NoDup (merged_ids batch) ->
  NoDup (a2_accepted_record_ids ack) -> NoDup (a2_accepted_gap_notice_ids ack) ->
  Z.of_nat (length (merged_ids batch)) <= U64_MAX ->
  Z.of_nat (length (accepted_list ack)) <= U64_MAX ->
  v2_ack_is_merged_prefix batch ack = true <->
  exists n, accepted_list ack ≡ₚ take n (merged_ids batch).
Proof.
  intros Hm Hr Hg Hlen Hlen'. unfold v2_ack_is_merged_prefix.
  rewrite <-prefix_as_set by auto using accepted_list_nodup.
  unfold merged_ids in *. rewrite length_fmap in *.
  replace (u64_saturating_add _ _) with (Z.of_nat (length (accepted_list ack))).
  2: { unfold hash_set, accepted_list in *. rewrite length_app, !length_fmap in *.
       rewrite !size_list_to_set, u64_saturating_add_exact by (done || lia). lia. }
  pose proof (fun k => prefix_loop_spec (ack_accepts ack) (merged_items batch) 0 k
    ltac:(lia) ltac:(lia)) as Hspec.
  setoid_rewrite ack_accepts_list in Hspec. split.
  - destruct (prefix_loop _ _ _ _) as [k|] eqn:E; [|done]. rewrite Z.eqb_eq. intros ->.
    destruct (proj1 (Hspec _) eq_refl) as (n & Hn & Hk & Ht & Hd). exists n. split_and!; [done|lia|done..].
  - intros (n & Hn & Hk & Ht & Hd).
    rewrite (proj2 (Hspec (Z.of_nat n))); [apply Z.eqb_eq; lia|].
    exists n. split_and!; [done|lia|done..].
Qed.
