(* ===== verification/SpoolBase.v ===== *)
(** * Spool storage primitives ([src/spool.rs])

    The spool handle ([Inner]: configuration, key, mutex-protected state,
    write-failure latch, disk) and the file operations the public methods are
    built from.  A method is a [SpoolM] computation; a free function that only
    touches the disk is an [OsM] computation, lifted with [lift].

    Locks: a method holds the state mutex for every statement that reads or
    changes [State]; here methods run one at a time ([SpoolThreads] interleaves
    them), and no panic poisons a mutex, so [self.state()?] never fails. *)

From S2P Require Import Prelude Protocol Crypto Fs SpoolTypes.

(** Everything the spool takes from outside this repository. *)
Class SpoolEnv := {
  spool_sha256 :: Sha256;
  spool_jcs :: Jcs;
  spool_aead :: Aead;
  spool_oracle :: Oracle;
  spool_serde_batch_v1 :: Serde HubBatchRecordV1;
  spool_serde_batch_v2 :: Serde HubBatchRecordV2;
  spool_serde_gap :: Serde GapNoticeV2;
  spool_serde_stored :: Serde StoredRecord;
  spool_serde_sequence :: Serde SequenceState;
  spool_serde_receipt :: Serde AckReceipt;
}.

(** [struct Inner] behind the [Arc], with the disk it owns. *)
Record Inner := {
  in_config : SpoolConfig;
  in_key : bytes;
  in_state : State;
  in_storage_write_failed : bool;
  in_os : Os SpoolPath;
}.

Definition set_state (s : State) (w : Inner) : Inner :=
  Build_Inner (in_config w) (in_key w) s (in_storage_write_failed w) (in_os w).
Definition set_write_failed (b : bool) (w : Inner) : Inner :=
  Build_Inner (in_config w) (in_key w) (in_state w) b (in_os w).
Definition set_os (o : Os SpoolPath) (w : Inner) : Inner :=
  Build_Inner (in_config w) (in_key w) (in_state w) (in_storage_write_failed w) o.
Definition in_disk (w : Inner) : gmap SpoolPath Node := os_disk (in_os w).

Definition OsM (A : Type) : Type := M (Os SpoolPath) SpoolError A.
Definition SpoolM (A : Type) : Type := M Inner SpoolError A.

Definition map_err {E F A} (f : E -> F) (r : Result E A) : Result F A :=
  match r with Ok a => Ok a | Err e => Err (f e) end.

(** [call().map_err(map_io_error)?] *)
Definition sys {A} (m : M (Os SpoolPath) IoError A) : OsM A :=
  fun o => let (r, o') := m o in (map_err map_io_error r, o').
(** [match call() { Ok(..) => .., Err(error) => .. }] *)
Definition sys_catch {A} (m : M (Os SpoolPath) IoError A) : OsM (Result IoError A) :=
  fun o => let (r, o') := m o in (Ok r, o').
Definition lift {A} (m : OsM A) : SpoolM A :=
  fun w => let (r, o) := m (in_os w) in (r, set_os o w).

Definition get_config : SpoolM SpoolConfig := fun w => (Ok (in_config w), w).
(** [self.state()?] *)
Definition get_state : SpoolM State := fun w => (Ok (in_state w), w).
(** Assignments through the guard. *)
Definition update (f : State -> State) : SpoolM unit :=
  modify (fun w => set_state (f (in_state w)) w).
Definition storage_write_failed : SpoolM bool := fun w => (Ok (in_storage_write_failed w), w).

Section Storage.
Context {X : SpoolEnv}.

(** ** Free functions *)

Definition sync_directory (d : Dir) : OsM unit := sys sync_all.

(** [write_atomic(temporary, destination, bytes)] *)
Definition write_atomic_file (temporary destination : SpoolPath) (b : bytes) : OsM unit :=
  sys (create_new temporary) ;;
  let! written := sys_catch (write_all temporary b ;; sync_all) in
  match written with
  | Err error =>
      let! removed := sys_catch (remove_file temporary) in
      match removed with
      | Ok _ => sync_directory (sp_dir temporary) ;; fail (map_io_error error)
      | Err _ => fail (map_io_error error)
      end
  | Ok _ =>
      sys (rename temporary destination) ;;
      sync_directory (sp_dir destination)
  end.

(** [write_atomic_replace] *)
Definition write_atomic_replace (temporary destination : SpoolPath) (b : bytes) : OsM unit :=
  write_atomic_file temporary destination b.

(** [self.temporary_dir().join(format!("{}.tmp", Uuid::new_v4()))] *)
Definition temporary_path : OsM SpoolPath :=
  let! u := sys draw_uuid in ret (SPath DTmp (u ++ lit ".tmp")).

Definition quarantine_file (path : SpoolPath) : OsM unit :=
  let! u := sys draw_uuid in
  sys (rename path (SPath DQuarantine (u ++ lit ".quarantine"))) ;;
  sync_directory DQuarantine ;;
  sync_directory (sp_dir path).

(** The names in a directory, in an order of the file system's choosing. *)
Definition dir_names (disk : gmap SpoolPath Node) (d : Dir) : list str :=
  sp_name <$> List.filter (fun p => bool_decide (sp_dir p = d)) (map_to_list disk).*1.

Definition read_dir (d : Dir) : OsM (list SpoolPath) :=
  fun o => sys (query (fun disk => Ok (SPath d <$> dir_order (os_tick o) (dir_names disk d)))) o.

(** [for result in fs::read_dir(d)? { let entry = result?; .. }] *)
Definition dir_entry : OsM unit := sys sync_all.

(** [match fs::remove_file(..) { Ok | NotFound => {}, Err(e) => return Err(..) }] *)
Definition remove_if_present (path : SpoolPath) : OsM unit :=
  let! r := sys_catch (remove_file path) in
  match r with
  | Ok _ | Err NotFound => ret tt
  | Err error => fail (map_io_error error)
  end.

(** ** Methods of [Spool] *)

(** [Spool::write_atomic]: refuses once a write has failed, and latches. *)
Definition write_atomic (temporary destination : SpoolPath) (b : bytes) : SpoolM unit :=
  let! failed := storage_write_failed in
  throw_if failed SpoolIo ;;
  let! result := catch (lift (write_atomic_file temporary destination b)) in
  match result with
  | Ok _ => ret tt
  | Err e => modify (set_write_failed true) ;; fail e
  end.

(** [self.inner.key.encrypt(&plaintext).map_err(map_crypto_error)?] *)
Definition encrypt_bytes (plaintext : bytes) : SpoolM bytes :=
  let! nonce := lift (sys (draw_bytes NONCE_BYTES)) in
  fun w => (map_err map_crypto_error (encrypt (in_key w) nonce plaintext), w).

Definition decrypt_bytes (ciphertext : bytes) : SpoolM bytes :=
  fun w => (map_err map_crypto_error (decrypt (in_key w) ciphertext), w).

(** The write at the end of [enqueue], [persist_gap_locked], ... *)
Definition write_new (destination : SpoolPath) (b : bytes) : SpoolM unit :=
  let! temporary := lift temporary_path in
  write_atomic temporary destination b.

Definition persist_sequence_state (next_spool_sequence expired_records_total : Z)
    (v1_ack_history_pruned : bool) (counted : gmap Z RecordId) : SpoolM unit :=
  let! plaintext := ok_or (to_vec {|
    sq_version := 1;
    sq_next_spool_sequence := next_spool_sequence;
    sq_expired_records_total := expired_records_total;
    sq_counted_pending_expirations := counted;
    sq_v1_ack_history_pruned := v1_ack_history_pruned |}) Serialization in
  let! encrypted := encrypt_bytes plaintext in
  write_new (SPath DRoot SEQUENCE_STATE_FILE) encrypted.

(** [self.persist_sequence_state(state.next_spool_sequence, ..)] with the
    fields of the current state. *)
Definition persist_current_sequence : SpoolM unit :=
  let! state := get_state in
  persist_sequence_state (next_spool_sequence state) (expired_records state)
    (v1_ack_history_pruned state) (counted_pending_expirations state).

Definition ensure_quarantine_capacity (additional_bytes : Z) (adding_file : bool) : SpoolM unit :=
  let! names := lift (read_dir DQuarantine) in
  let! totals := fold_m names (0, 0) (fun '(files, bytes) path =>
    lift dir_entry ;;
    let! node := lift (sys (metadata path)) in
    ret (u64_saturating_add files 1, u64_saturating_add bytes (node_len node))) in
  let '(files, bytes) := totals in
  let! config := get_config in
  let resulting_files := u64_saturating_add files (if adding_file then 1 else 0) in
  throw_if ((max_records config <? resulting_files)
            || (max_bytes config <? u64_saturating_add bytes additional_bytes)) CapacityExceeded.

Definition quarantine_file_bounded (path : SpoolPath) : SpoolM unit :=
  let! meta := lift (sys_catch (metadata path)) in
  let source_bytes := match meta with Ok node => node_len node | Err _ => 0 end in
  ensure_quarantine_capacity source_bytes true ;;
  lift (quarantine_file path).

(** The first half of [read_entry]: the file exists and is not too large. *)
Definition check_record_size (entry : Entry) : SpoolM unit :=
  let! meta := lift (sys_catch (metadata (en_path entry))) in
  match meta with
  | Err NotFound => fail CorruptRecord
  | Err error => fail (map_io_error error)
  | Ok node => throw_if (MAX_ENCRYPTED_RECORD_BYTES <? node_len node) CorruptRecord
  end.

(** The second half: it opens as the record of the entry. *)
Definition read_record (entry : Entry) : SpoolM StoredRecord :=
  let! contents := lift (sys_catch (read (en_path entry))) in
  match contents with
  | Err NotFound => fail CorruptRecord
  | Err error => fail (map_io_error error)
  | Ok encrypted =>
      let! plaintext := decrypt_bytes encrypted in
      let! stored := ok_or (from_slice plaintext) CorruptRecord in
      throw_if (negb (valid_stored_record stored)
                || bool_decide (sr_record_id stored <> en_record_id entry)
                || bool_decide (sr_stable_record_id stored <> Some (en_stable_record_id entry))
                || bool_decide (sr_spool_seq stored <> Some (en_spool_seq entry))) CorruptRecord ;;
      ret stored
  end.

Definition read_entry (entry : Entry) : SpoolM StoredRecord :=
  check_record_size entry ;;
  read_record entry.

(** ** Gaps *)

Definition gap_at (spool_seq : Z) (gap : GapEntry) : bool :=
  gn_spool_seq (ge_notice gap) =? spool_seq.

Definition insert_gap (notice : GapNoticeV2) (encrypted_bytes : Z) (path : SpoolPath)
    (s : State) : State :=
  set_gaps (<[gn_notice_id notice :=
              {| ge_notice := notice; ge_encrypted_bytes := encrypted_bytes; ge_path := path |}]> (gaps s))
    (set_pending_gap_bytes (u64_saturating_add (pending_gap_bytes s) encrypted_bytes) s).

Definition persist_gap_locked (entry : Entry) (occurred_at_ms : Z) (reason : GapReasonV2)
    : SpoolM (RecordId * bool) :=
  let notice := gap_notice entry occurred_at_ms reason in
  let notice_id := gn_notice_id notice in
  let! state := get_state in
  if bool_decide (is_Some (gaps state !! notice_id)) then ret (notice_id, false)
  else
    throw_if (btree_any (gap_at (en_spool_seq entry)) (gaps state)) CorruptRecord ;;
    throw_if (btree_any (fun pending => (en_spool_seq pending =? en_spool_seq entry)
                && bool_decide (en_record_id pending <> en_record_id entry)) (entries state)) CorruptRecord ;;
    let! config := get_config in
    throw_if (max_records config <=? Z.of_nat (size (gaps state))) CapacityExceeded ;;
    let! plaintext := ok_or (to_vec notice) Serialization in
    let! encrypted := encrypt_bytes plaintext in
    let encrypted_bytes := len encrypted in
    throw_if ((MAX_ENCRYPTED_GAP_BYTES <? encrypted_bytes)
              || (max_bytes config <? u64_saturating_add (pending_gap_bytes state) encrypted_bytes))
             CapacityExceeded ;;
    let destination := SPath DGaps (gap_file_name (en_spool_seq entry) notice_id) in
    write_new destination encrypted ;;
    update (insert_gap notice encrypted_bytes destination) ;;
    ret (notice_id, true).

(** ** Removing pending records *)

(** The assignments that forget an entry. *)
Definition drop_entry (entry : Entry) (s : State) : State :=
  set_pending_bytes (u64_saturating_sub (pending_bytes s) (en_encrypted_bytes entry))
    (set_stable_index (delete (en_stable_record_id entry) (stable_index s))
      (set_entries (delete (en_record_id entry) (entries s)) s)).

Definition uncount (spool_seq : Z) (s : State) : State :=
  set_counted_pending_expirations (delete spool_seq (counted_pending_expirations s)) s.

Definition entry_matches (admission : ReceiptAdmission) (entry : Entry) : bool :=
  (en_spool_seq entry =? ra_spool_seq admission)
  && bool_decide (en_stable_record_id entry = ra_stable_record_id admission)
  && bool_decide (en_record_id entry = ra_legacy_record_id admission).

Definition admission_of (entry : Entry) : ReceiptAdmission := {|
  ra_spool_seq := en_spool_seq entry;
  ra_stable_record_id := en_stable_record_id entry;
  ra_legacy_record_id := en_record_id entry;
|}.

Definition remove_admitted_record (admission : ReceiptAdmission) : SpoolM bool :=
  let! state := get_state in
  let counted_identity_matches :=
    bool_decide (counted_pending_expirations state !! ra_spool_seq admission
                 = Some (ra_stable_record_id admission)) in
  match entries state !! ra_legacy_record_id admission with
  | Some entry =>
      if entry_matches admission entry then
        lift (remove_if_present (en_path entry)) ;;
        update (drop_entry entry) ;;
        when counted_identity_matches (update (uncount (ra_spool_seq admission))) ;;
        ret true
      else
        when counted_identity_matches (update (uncount (ra_spool_seq admission))) ;;
        ret false
  | None =>
      when counted_identity_matches (update (uncount (ra_spool_seq admission))) ;;
      ret false
  end.

(** The pending record that backs a counted, not yet materialized gap. *)
Definition expired_backing (state : State) (notice_id : RecordId) : option Entry :=
  List.find (fun entry =>
      bool_decide (is_Some (counted_pending_expirations state !! en_spool_seq entry))
      && bool_decide (gn_notice_id (gap_notice entry (en_expires_at_ms entry) RetentionExpired) = notice_id))
    (btree_values (entries state)).

Definition remove_expired_gap_backing (notice_id : RecordId) : SpoolM bool :=
  let! state := get_state in
  match expired_backing state notice_id with
  | None => ret false
  | Some entry =>
      let! removed := remove_admitted_record (admission_of entry) in
      update (uncount (en_spool_seq entry)) ;;
      ret removed
  end.

(** The file of a corrupt entry goes to quarantine; an [Io] failure is
    tolerated when the file is already gone. *)
Definition move_to_quarantine (path : SpoolPath) : SpoolM unit :=
  let! moved := catch (quarantine_file_bounded path) in
  match moved with
  | Ok _ => ret tt
  | Err SpoolIo =>
      let! exists_still := lift (sys (path_exists path)) in
      if exists_still : bool then fail SpoolIo else lift (sync_directory DPending)
  | Err error => fail error
  end.

Definition quarantine_runtime_entry (entry : Entry) : SpoolM unit :=
  let! state := get_state in
  if negb (bool_decide (is_Some (entries state !! en_record_id entry))) then ret tt
  else
    persist_gap_locked entry (en_admitted_at_ms entry) IntegrityQuarantine ;;
    move_to_quarantine (en_path entry) ;;
    update (drop_entry entry) ;;
    update (fun s => set_corrupt_records (u64_saturating_add (corrupt_records s) 1) s).

End Storage.
