(* ===== verification/SpoolOps.v ===== *)
(** * Spool operations ([src/spool.rs], [impl Spool])

    Admission, retention expiry, batch construction and acknowledgement for
    both wire versions, receipt pruning and the health snapshot.

    Two loops are not structural in Rust.  [build_batch_v2] restarts itself
    after a quarantine; each restart has removed at least one pending entry, so
    [S (size entries)] rounds are enough.  [prune_receipts] removes one receipt
    per round, so [S (size receipts)] rounds are enough.  That the fuel never
    runs out is proved in [SpoolDelivery] and [SpoolReceipts]. *)

From S2P Require Import Prelude Protocol Crypto Fs SpoolTypes SpoolBase.

Section Ops.
Context {X : SpoolEnv}.

(** ** Admission *)

(** The assignments of [enqueue] after the write. *)
Definition insert_entry (entry : Entry) (next_sequence : Z) (s : State) : State :=
  set_entries (<[en_record_id entry := entry]> (entries s))
    (set_stable_index (<[en_stable_record_id entry := en_record_id entry]> (stable_index s))
      (set_next_spool_sequence next_sequence
        (set_pending_bytes (u64_saturating_add (pending_bytes s) (en_encrypted_bytes entry)) s))).

Definition is_err {E A} (r : Result E A) : bool := match r with Err _ => true | Ok _ => false end.

(** The rest of [enqueue], under the state mutex. *)
Definition enqueue_locked (envelope : ReceiverEnvelope) (admitted_at_ms : Z) : SpoolM EnqueueOutcome :=
  let record_id := record_id envelope in
  let stable_record_id := stable_record_id envelope in
  let! state := get_state in
  match stable_index state !! stable_record_id with
  | Some existing_record_id => ret (AlreadyPresent existing_record_id)
  | None =>
      let! config := get_config in
      let spool_seq := next_spool_sequence state in
      let! next_spool_sequence := ok_or (u64_checked_add spool_seq 1) InvalidConfig in
      let expires_at_ms := i64_saturating_add admitted_at_ms (retention_ms config) in
      let stored := {|
        sr_version := 2;
        sr_record_id := record_id;
        sr_stable_record_id := Some stable_record_id;
        sr_spool_seq := Some spool_seq;
        sr_admitted_at_ms := admitted_at_ms;
        sr_expires_at_ms := expires_at_ms;
        sr_envelope := envelope |} in
      let! v1_delivery := ok_or (to_vec {|
        br1_record_id := record_id;
        br1_received_at_ms := admitted_at_ms;
        br1_envelope := envelope |}) Serialization in
      let! v2_delivery := ok_or (to_vec {|
        br2_record_id := stable_record_id;
        br2_legacy_record_id := record_id;
        br2_spool_seq := spool_seq;
        br2_received_at_ms := admitted_at_ms;
        br2_envelope := envelope |}) Serialization in
      throw_if ((batch_max_bytes config <? len v1_delivery)
                || (batch_max_bytes config <? len v2_delivery)) BatchItemTooLarge ;;
      let! plaintext := ok_or (to_vec stored) Serialization in
      let predicted_bytes := u64_saturating_add (len plaintext) 64 in
      throw_if ((max_records config <=? u64_saturating_add (Z.of_nat (size (entries state)))
                                                          (Z.of_nat (size (gaps state))))
                || (max_bytes config <? u64_saturating_add (pending_bytes state) predicted_bytes))
               CapacityExceeded ;;
      let! encrypted := encrypt_bytes plaintext in
      let encrypted_bytes := len encrypted in
      throw_if (MAX_ENCRYPTED_RECORD_BYTES <? encrypted_bytes) BatchItemTooLarge ;;
      throw_if (max_bytes config <? u64_saturating_add (pending_bytes state) encrypted_bytes)
               CapacityExceeded ;;
      let destination := SPath DPending (pending_file_name spool_seq record_id) in
      write_new destination encrypted ;;
      update (insert_entry {|
        en_record_id := record_id;
        en_stable_record_id := stable_record_id;
        en_spool_seq := spool_seq;
        en_admitted_at_ms := admitted_at_ms;
        en_expires_at_ms := expires_at_ms;
        en_encrypted_bytes := encrypted_bytes;
        en_path := destination |} next_spool_sequence) ;;
      persist_current_sequence ;;
      ret (Stored record_id)
  end.

Definition enqueue (envelope : ReceiverEnvelope) (admitted_at_ms : Z) : SpoolM EnqueueOutcome :=
  throw_if (is_err (validate envelope)) CorruptRecord ;;
  let! failed := storage_write_failed in
  throw_if failed SpoolIo ;;
  enqueue_locked envelope admitted_at_ms.

(** ** Retention *)

Definition is_due (now_ms : Z) (state : State) (entry : Entry) : bool :=
  (en_expires_at_ms entry <? now_ms)
  || bool_decide (is_Some (counted_pending_expirations state !! en_spool_seq entry)).

(** The expired entries, by sequence. *)
Definition expired_entries (now_ms : Z) (state : State) : list Entry :=
  sort_by_key en_spool_seq (List.filter (is_due now_ms state) (btree_values (entries state))).

(** The counting loop: the enlarged map and [expired_count]. *)
Definition count_expired (state : State) (expired : list Entry) : gmap Z RecordId * Z :=
  foldl (fun '(counted, expired_count) entry =>
      if negb (btree_any (gap_at (en_spool_seq entry)) (gaps state))
         && negb (bool_decide (is_Some (counted !! en_spool_seq entry)))
      then (<[en_spool_seq entry := en_stable_record_id entry]> counted, expired_count + 1)
      else (counted, expired_count))
    (counted_pending_expirations state, 0) expired.

(** One round of the second loop: materialize the gap, then drop the record.
    The result is whether the backing was removed. *)
Definition expire_entry (entry : Entry) : SpoolM bool :=
  let! persisted := catch (persist_gap_locked entry (en_expires_at_ms entry) RetentionExpired) in
  match persisted with
  | Err CapacityExceeded => ret false
  | Err error => fail error
  | Ok _ =>
      remove_admitted_record (admission_of entry) ;;
      lift (sync_directory DPending) ;;
      update (uncount (en_spool_seq entry)) ;;
      ret true
  end.

Definition expire_due (now_ms : Z) : SpoolM Z :=
  let! state := get_state in
  let expired := expired_entries now_ms state in
  let '(counted, expired_count) := count_expired state expired in
  when (0 <? expired_count) (
    let! total := ok_or (u64_checked_add (expired_records state) expired_count) InvalidConfig in
    persist_sequence_state (next_spool_sequence state) total (v1_ack_history_pruned state) counted ;;
    update (fun s => set_counted_pending_expirations counted (set_expired_records total s))) ;;
  let! removed_backing := fold_m expired false (fun removed_backing entry =>
    let! removed := expire_entry entry in ret (removed_backing || removed)) in
  when removed_backing persist_current_sequence ;;
  ret expired_count.

(** ** Version 1 batches *)

Definition entry_v1_leb (left right : Entry) : bool :=
  (en_admitted_at_ms left <? en_admitted_at_ms right)
  || ((en_admitted_at_ms left =? en_admitted_at_ms right)
      && ord_leb (en_record_id left) (en_record_id right)).

(** The delivery loop; [break] returns the batch built so far. *)
Fixpoint build_v1_loop (config : SpoolConfig) (ordered : list Entry)
    (records : list HubBatchRecordV1) (body_bytes : Z) : SpoolM (list HubBatchRecordV1) :=
  match ordered with
  | [] => ret records
  | entry :: ordered' =>
      if Z.min (batch_max_records config) 256 <=? Z.of_nat (length records) then ret records
      else
        let! stored := catch (read_entry entry) in
        match stored with
        | Err CorruptRecord =>
            quarantine_runtime_entry entry ;;
            build_v1_loop config ordered' records body_bytes
        | Err error => fail error
        | Ok stored =>
            let record := {|
              br1_record_id := sr_record_id stored;
              br1_received_at_ms := sr_admitted_at_ms stored;
              br1_envelope := sr_envelope stored |} in
            let! encoded := ok_or (to_vec record) Serialization in
            let encoded_bytes := len encoded in
            if negb (is_empty records)
               && (batch_max_bytes config <? u64_saturating_add body_bytes encoded_bytes)
            then ret records
            else
              throw_if (batch_max_bytes config <? encoded_bytes) BatchItemTooLarge ;;
              build_v1_loop config ordered' (records ++ [record])
                (u64_saturating_add body_bytes encoded_bytes)
        end
  end.

Definition build_batch : SpoolM HubBatchV1 :=
  let! state := get_state in
  throw_if (unresolved_integrity state) CorruptRecord ;;
  let ordered := sort_by entry_v1_leb (btree_values (entries state)) in
  let! config := get_config in
  let! records := build_v1_loop config ordered [] 0 in
  let! state := get_state in
  throw_if (negb (map_is_empty (gaps state))
            || negb (map_is_empty (counted_pending_expirations state))) ProtocolUpgradeRequired ;;
  ret {| b1_version := 1; b1_batch_id := batch_id records; b1_records := records |}.

Definition next_batch (now_ms : Z) : SpoolM HubBatchV1 :=
  expire_due now_ms ;;
  let! state := get_state in
  throw_if (unresolved_integrity state) CorruptRecord ;;
  throw_if (negb (map_is_empty (gaps state))
            || negb (map_is_empty (counted_pending_expirations state))) ProtocolUpgradeRequired ;;
  build_batch.

(** ** Version 2 batches *)

(** Pending records and gap notices, by sequence. *)
Definition batch_candidates (state : State) : list BatchCandidateV2 :=
  sort_by_key candidate_seq
    (map CandRecord (sort_by_key en_spool_seq (btree_values (entries state)))
     ++ map CandGap (map ge_notice (btree_values (gaps state)))).

(** [candidates.windows(2).any(|items| equal sequences)] *)
Fixpoint adjacent_duplicate (l : list BatchCandidateV2) : bool :=
  match l with
  | a :: (b :: _) as l' => (candidate_seq a =? candidate_seq b) || adjacent_duplicate l'
  | _ => false
  end.

(** The item a candidate becomes; [None] when the record was quarantined. *)
Definition resolve_candidate (counted : gmap Z RecordId) (candidate : BatchCandidateV2)
    : SpoolM (option BatchItemV2) :=
  match candidate with
  | CandRecord entry =>
      if bool_decide (is_Some (counted !! en_spool_seq entry)) then
        read_entry entry ;;
        ret (Some (ItemGap (gap_notice entry (en_expires_at_ms entry) RetentionExpired)))
      else
        let! stored := catch (read_entry entry) in
        match stored with
        | Err CorruptRecord => quarantine_runtime_entry entry ;; ret None
        | Err error => fail error
        | Ok stored => ret (Some (ItemRecord {|
            br2_record_id := en_stable_record_id entry;
            br2_legacy_record_id := en_record_id entry;
            br2_spool_seq := en_spool_seq entry;
            br2_received_at_ms := sr_admitted_at_ms stored;
            br2_envelope := sr_envelope stored |}))
        end
  | CandGap gap => ret (Some (ItemGap gap))
  end.

Definition item_to_vec (item : BatchItemV2) : option bytes :=
  match item with ItemRecord record => to_vec record | ItemGap gap => to_vec gap end.

(** The selection loop.  The result is the records, the gaps and whether
    something was quarantined; [break] stops with what was selected. *)
Fixpoint build_v2_loop (config : SpoolConfig) (counted : gmap Z RecordId)
    (candidates : list BatchCandidateV2) (records : list HubBatchRecordV2) (gaps : list GapNoticeV2)
    (body_bytes : Z) (quarantined : bool)
    : SpoolM (list HubBatchRecordV2 * list GapNoticeV2 * bool) :=
  match candidates with
  | [] => ret (records, gaps, quarantined)
  | candidate :: candidates' =>
      if batch_max_records config
           <=? u64_saturating_add (Z.of_nat (length records)) (Z.of_nat (length gaps))
      then ret (records, gaps, quarantined)
      else
        let! resolved := resolve_candidate counted candidate in
        match resolved with
        | None => build_v2_loop config counted candidates' records gaps body_bytes true
        | Some item =>
            if match item with
               | ItemRecord _ => 256 <=? Z.of_nat (length records)
               | ItemGap _ => 256 <=? Z.of_nat (length gaps)
               end
            then ret (records, gaps, quarantined)
            else
              let! encoded := ok_or (item_to_vec item) Serialization in
              let encoded_bytes := len encoded in
              if (negb (is_empty records) || negb (is_empty gaps))
                 && (batch_max_bytes config <? u64_saturating_add body_bytes encoded_bytes)
              then ret (records, gaps, quarantined)
              else
                throw_if (batch_max_bytes config <? encoded_bytes) BatchItemTooLarge ;;
                let body_bytes := u64_saturating_add body_bytes encoded_bytes in
                match item with
                | ItemRecord record =>
                    build_v2_loop config counted candidates' (records ++ [record]) gaps body_bytes quarantined
                | ItemGap gap =>
                    build_v2_loop config counted candidates' records (gaps ++ [gap]) body_bytes quarantined
                end
        end
  end.

(** One pass of [build_batch_v2], up to the restart test. *)
Definition build_v2_pass : SpoolM (list HubBatchRecordV2 * list GapNoticeV2 * bool) :=
  let! state := get_state in
  throw_if (unresolved_integrity state) CorruptRecord ;;
  let candidates := batch_candidates state in
  throw_if (adjacent_duplicate candidates) CorruptRecord ;;
  let! config := get_config in
  build_v2_loop config (counted_pending_expirations state) candidates [] [] 0 false.

Fixpoint build_batch_v2_fuel (fuel : nat) : SpoolM HubBatchV2 :=
  match fuel with
  | O => fail SpoolIo
  | S fuel' =>
      let! pass := build_v2_pass in
      let '(records, gaps, quarantined) := pass in
      if quarantined : bool then build_batch_v2_fuel fuel'
      else ret {| b2_version := 2; b2_batch_id := batch_id_v2 records gaps;
                  b2_records := records; b2_gaps := gaps |}
  end.

Definition build_batch_v2 : SpoolM HubBatchV2 :=
  let! state := get_state in build_batch_v2_fuel (S (size (entries state))).

Definition next_batch_v2 (now_ms : Z) : SpoolM HubBatchV2 :=
  expire_due now_ms ;; build_batch_v2.

(** ** Receipts *)

(** One notice of the second loop of [complete_receipt]. *)
Definition complete_gap (removed_pending : bool) (notice_id : RecordId) : SpoolM bool :=
  let! state := get_state in
  match gaps state !! notice_id with
  | None =>
      let! removed := remove_expired_gap_backing notice_id in
      ret (removed_pending || removed)
  | Some entry =>
      lift (remove_if_present (ge_path entry)) ;;
      update (fun s => set_pending_gap_bytes
                (u64_saturating_sub (pending_gap_bytes s) (ge_encrypted_bytes entry))
                (set_gaps (delete notice_id (gaps s)) s)) ;;
      ret removed_pending
  end.

Definition complete_receipt (receipt : AckReceipt) : SpoolM unit :=
  let! removed_pending := fold_m (ar_accepted_admissions receipt) false (fun removed_pending admission =>
    let! removed := remove_admitted_record admission in ret (removed_pending || removed)) in
  let! removed_pending := fold_m (ar_accepted_gap_notice_ids receipt) removed_pending complete_gap in
  when removed_pending (lift (sync_directory DPending)) ;;
  lift (sync_directory DGaps) ;;
  persist_current_sequence.

Fixpoint prune_loop (fuel : nat) : SpoolM unit :=
  match fuel with
  | O => ret tt
  | S fuel' =>
      let! state := get_state in
      if (size (receipts state) <=? MAX_ACK_RECEIPTS)%nat then ret tt
      else
        let! oldest := ok_or (min_by_key (fun entry => ar_sequence (re_receipt entry))
                                (btree_values (receipts state))) SpoolIo in
        when ((ar_version (re_receipt oldest) =? 1) && negb (v1_ack_history_pruned state)) (
          update (set_v1_ack_history_pruned true) ;;
          persist_current_sequence) ;;
        lift (remove_if_present (re_path oldest)) ;;
        update (fun s => set_receipts (delete (ar_batch_id (re_receipt oldest)) (receipts s)) s) ;;
        lift (sync_directory DReceipts) ;;
        prune_loop fuel'
  end.

Definition prune_receipts : SpoolM unit :=
  let! state := get_state in prune_loop (S (size (receipts state))).

(** [.iter().filter(..).map(..).collect::<Result<Vec<_>, _>>()] *)
Fixpoint collect_results {E A} (l : list (Result E A)) : Result E (list A) :=
  match l with
  | [] => Ok []
  | Err e :: _ => Err e
  | Ok a :: l' => match collect_results l' with Ok k => Ok (a :: k) | Err e => Err e end
  end.

Definition receipt_admissions_v1 (state : State) (delivered : HubBatchV1) (ack : HubAckV1)
    : Result SpoolError (list ReceiptAdmission) :=
  collect_results (map (fun record =>
      match entries state !! br1_record_id record with
      | None => Err InvalidAcknowledgement
      | Some entry => Ok (admission_of entry)
      end)
    (List.filter (fun record => bool_decide (br1_record_id record ∈ hash_set (a1_accepted_record_ids ack)))
       (b1_records delivered))).

Definition receipt_admissions_v2 (state : State) (delivered : HubBatchV2) (ack : HubAckV2)
    : Result SpoolError (list ReceiptAdmission) :=
  collect_results (map (fun record =>
      match entries state !! br2_legacy_record_id record with
      | None => Err InvalidAcknowledgement
      | Some entry =>
          if negb (en_spool_seq entry =? br2_spool_seq record)
             || bool_decide (en_stable_record_id entry <> br2_record_id record)
          then Err InvalidAcknowledgement
          else Ok {| ra_spool_seq := br2_spool_seq record;
                     ra_stable_record_id := br2_record_id record;
                     ra_legacy_record_id := br2_legacy_record_id record |}
      end)
    (List.filter (fun record => bool_decide (br2_record_id record ∈ hash_set (a2_accepted_record_ids ack)))
       (b2_records delivered))).

(** The block that draws a receipt sequence. *)
Definition take_receipt_sequence : SpoolM Z :=
  let! state := get_state in
  let sequence := next_receipt_sequence state in
  let! next := ok_or (u64_checked_add sequence 1) InvalidConfig in
  update (set_next_receipt_sequence next) ;;
  ret sequence.

(** Write the receipt durably and remember it. *)
Definition record_receipt (receipt : AckReceipt) : SpoolM unit :=
  let! plaintext := ok_or (to_vec receipt) Serialization in
  let! encrypted := encrypt_bytes plaintext in
  throw_if (MAX_ENCRYPTED_RECEIPT_BYTES <? len encrypted) CapacityExceeded ;;
  let destination := SPath DReceipts (receipt_file_name (ar_sequence receipt) (ar_batch_id receipt)) in
  write_new destination encrypted ;;
  update (fun s => set_receipts
            (<[ar_batch_id receipt := {| re_receipt := receipt; re_path := destination |}]> (receipts s)) s).

(** The end of both acknowledgement methods: record the receipt, then delete
    what it accepts, then prune. *)
Definition commit_receipt (receipt : AckReceipt) : SpoolM unit :=
  record_receipt receipt ;;
  complete_receipt receipt ;;
  prune_receipts.

(** ** Acknowledgement *)

Definition acknowledge (ack : HubAckV1) : SpoolM HubAckResultV1 :=
  throw_if (negb (a1_version ack =? 1)
            || negb (valid_digest (a1_batch_id ack))
            || negb (all_distinct (a1_accepted_record_ids ack))) InvalidAcknowledgement ;;
  let! state := get_state in
  match receipts state !! a1_batch_id ack with
  | Some prior =>
      throw_if (negb (same_record_ids (ar_accepted_record_ids (re_receipt prior))
                        (a1_accepted_record_ids ack))) InvalidAcknowledgement ;;
      complete_receipt (re_receipt prior) ;;
      ret (ack_result (re_receipt prior))
  | None =>
      throw_if (v1_ack_history_pruned state) V1AcknowledgementHistoryPruned ;;
      let! delivered := build_batch in
      let delivered_record_ids := hash_set (br1_record_id <$> b1_records delivered) in
      throw_if (bool_decide (b1_batch_id delivered <> a1_batch_id ack)
                || existsb (fun id => negb (bool_decide (id ∈ delivered_record_ids)))
                     (a1_accepted_record_ids ack)) InvalidAcknowledgement ;;
      let! state := get_state in
      let! admissions := of_result (receipt_admissions_v1 state delivered ack) in
      let! sequence := take_receipt_sequence in
      let receipt := {|
        ar_version := 1;
        ar_sequence := sequence;
        ar_batch_id := a1_batch_id ack;
        ar_accepted_record_ids := a1_accepted_record_ids ack;
        ar_accepted_stable_record_ids := [];
        ar_accepted_gap_notice_ids := [];
        ar_accepted_admissions := admissions |} in
      commit_receipt receipt ;;
      ret (ack_result receipt)
  end.

(** The guard between the delivered batch and the acknowledgement. *)
Definition ack_matches_v2 (delivered : HubBatchV2) (ack : HubAckV2) : bool :=
  let delivered_record_ids := hash_set (br2_record_id <$> b2_records delivered) in
  let delivered_gap_ids := hash_set (gn_notice_id <$> b2_gaps delivered) in
  bool_decide (b2_batch_id delivered = a2_batch_id ack)
  && negb (existsb (fun id => negb (bool_decide (id ∈ delivered_record_ids))) (a2_accepted_record_ids ack))
  && negb (existsb (fun id => negb (bool_decide (id ∈ delivered_gap_ids))) (a2_accepted_gap_notice_ids ack))
  && v2_ack_is_merged_prefix delivered ack.

Definition acknowledge_v2 (ack : HubAckV2) : SpoolM HubAckResultV2 :=
  throw_if (negb (a2_version ack =? 2)
            || negb (valid_digest (a2_batch_id ack))
            || negb (all_distinct (a2_accepted_record_ids ack))
            || negb (all_distinct (a2_accepted_gap_notice_ids ack))) InvalidAcknowledgement ;;
  let! state := get_state in
  match receipts state !! a2_batch_id ack with
  | Some prior =>
      throw_if (negb (ar_version (re_receipt prior) =? 2)
                || negb (same_record_ids (ar_accepted_stable_record_ids (re_receipt prior))
                           (a2_accepted_record_ids ack))
                || negb (same_record_ids (ar_accepted_gap_notice_ids (re_receipt prior))
                           (a2_accepted_gap_notice_ids ack))) InvalidAcknowledgement ;;
      complete_receipt (re_receipt prior) ;;
      ret (ack_result_v2 (re_receipt prior))
  | None =>
      let! delivered := build_batch_v2 in
      throw_if (negb (ack_matches_v2 delivered ack)) InvalidAcknowledgement ;;
      let! state := get_state in
      let! admissions := of_result (receipt_admissions_v2 state delivered ack) in
      let! sequence := take_receipt_sequence in
      let receipt := {|
        ar_version := 2;
        ar_sequence := sequence;
        ar_batch_id := a2_batch_id ack;
        ar_accepted_record_ids := [];
        ar_accepted_stable_record_ids := a2_accepted_record_ids ack;
        ar_accepted_gap_notice_ids := a2_accepted_gap_notice_ids ack;
        ar_accepted_admissions := admissions |} in
      commit_receipt receipt ;;
      ret (ack_result_v2 receipt)
  end.

(** ** Health *)

Definition oldest_admission (state : State) : option Z :=
  min_by_key id (map en_admitted_at_ms (btree_values (entries state))).

Definition snapshot (now_ms : Z) (w : Inner) : SpoolSnapshot :=
  let state := in_state w in
  let config := in_config w in
  let oldest_age_seconds :=
    match oldest_admission state with
    | Some oldest => Z.max (i64_saturating_sub now_ms oldest) 0 / 1000
    | None => 0
    end in
  let capacity_exhausted :=
    (max_records config <=? u64_saturating_add (Z.of_nat (size (entries state))) (Z.of_nat (size (gaps state))))
    || (max_bytes config <=? pending_bytes state)
    || (max_bytes config <=? pending_gap_bytes state) in
  {| ss_pending_records := Z.of_nat (size (entries state));
     ss_pending_bytes := pending_bytes state;
     ss_corrupt_records := corrupt_records state;
     ss_expired_records := expired_records state;
     ss_pending_gap_notices := u64_saturating_add (Z.of_nat (size (gaps state)))
                                 (Z.of_nat (size (counted_pending_expirations state)));
     ss_pending_gap_bytes := pending_gap_bytes state;
     ss_oldest_age_seconds := oldest_age_seconds;
     ss_capacity_exhausted := capacity_exhausted;
     ss_degraded := (0 <? corrupt_records state)
                    || negb (map_is_empty (gaps state))
                    || negb (map_is_empty (counted_pending_expirations state))
                    || unresolved_integrity state
                    || in_storage_write_failed w
                    || capacity_exhausted |}.

(** [Spool::sync] *)
Definition sync : SpoolM unit :=
  for_each [DPending; DTmp; DQuarantine; DReceipts; DGaps; DRoot] (fun d => lift (sync_directory d)).

End Ops.
