(* ===== verification/SpoolRecover.v ===== *)
(** * Opening a spool ([src/spool.rs], [Spool::open] and the [recover] methods)

    [open] validates the configuration, takes the directory lock, reads the
    format marker and rebuilds [State] from the files: first the gap notices,
    then the pending records, then the sequence file, then the receipts, whose
    accepted items are deleted again.  It ends with a retention pass and a
    pruning pass.

    Directories always exist in the disk model, so [create_dir_all] and
    [set_permissions] only can fail.  The lock is the kernel's: whether another
    process holds it is part of the [Oracle]. *)

From S2P Require Import Prelude Protocol Crypto Fs SpoolTypes SpoolBase SpoolOps.

Definition SPOOL_LOCK_FILE : str := lit ".lock".

Section Recover.
Context {X : SpoolEnv}.

(** ** Format marker and lock *)

(** [format!("{version}\n")] for a one-digit version. *)
Definition format_marker (version : Z) : bytes := [dec_digit version; x0a].

Definition read_spool_format_marker : OsM SpoolFormat :=
  let marker := SPath DRoot FORMAT_MARKER_FILE in
  let! meta := sys_catch (metadata marker) in
  match meta with
  | Ok node =>
      throw_if (negb (is_file node) || (MAX_FORMAT_MARKER_BYTES <? node_len node)) CorruptRecord ;;
      let! contents := sys (read marker) in
      if bool_decide (contents = format_marker SPOOL_FORMAT_VERSION) then ret Current
      else if bool_decide (contents = format_marker 3) then ret AdmissionIdentity
      else if bool_decide (contents = format_marker PREVIOUS_SPOOL_FORMAT_VERSION) then ret Previous
      else fail CorruptRecord
  | Err NotFound => ret Fresh
  | Err error => fail (map_io_error error)
  end.

(** [fs::read_dir(d)?.next().transpose()?.is_some()] *)
Definition has_entry (d : Dir) : OsM bool :=
  let! names := read_dir d in
  match names with
  | [] => ret false
  | _ :: _ => dir_entry ;; ret true
  end.

Definition reject_ambiguous_previous_receipts : OsM unit :=
  let! some := has_entry DReceipts in
  throw_if some ReceiptRecoveryRequired.

Definition write_current_spool_format_marker (previous_format : SpoolFormat) : OsM unit :=
  let marker := SPath DRoot FORMAT_MARKER_FILE in
  let! temporary := temporary_path in
  match previous_format with
  | Fresh => write_atomic_file temporary marker (format_marker SPOOL_FORMAT_VERSION)
  | Previous | AdmissionIdentity =>
      write_atomic_replace temporary marker (format_marker SPOOL_FORMAT_VERSION)
  | Current => ret tt
  end.

Definition acquire_spool_lock : OsM unit :=
  sys create_dir_all ;;
  sys (open_or_create (SPath DRoot SPOOL_LOCK_FILE)) ;;
  let! locked := sys try_lock in
  if locked : bool then sys set_permissions else fail AlreadyOpen.

(** ** The sequence file *)

Definition recover_sequence_state : SpoolM (option SequenceState) :=
  let path := SPath DRoot SEQUENCE_STATE_FILE in
  let! meta := lift (sys_catch (metadata path)) in
  match meta with
  | Err NotFound => ret None
  | Err error => fail (map_io_error error)
  | Ok node =>
      throw_if (negb (is_file node) || (MAX_ENCRYPTED_SEQUENCE_STATE_BYTES <? node_len node)) CorruptRecord ;;
      let! encrypted := lift (sys (read path)) in
      let! plaintext := decrypt_bytes encrypted in
      let! sequence := ok_or (from_slice plaintext) CorruptRecord in
      throw_if (negb (sq_version sequence =? 1)
                || (sq_next_spool_sequence sequence =? 0)
                || (1000000 <? Z.of_nat (size (sq_counted_pending_expirations sequence)))
                || existsb (fun value => (value =? 0) || (sq_next_spool_sequence sequence <=? value))
                     (map_to_list (sq_counted_pending_expirations sequence)).*1) CorruptRecord ;;
      ret (Some sequence)
  end.

(** ** Gap notices *)

Definition count_corrupt (s : State) : State :=
  set_corrupt_records (u64_saturating_add (corrupt_records s) 1) s.

(** One file of the gaps directory. *)
Definition recover_gap (path : SpoolPath) : SpoolM unit :=
  lift dir_entry ;;
  let! kind := lift (sys (metadata path)) in
  let! valid_file :=
    (if is_file kind && bool_decide (extension (sp_name path) = Some (lit "tleg")) then
       let! meta := lift (sys (metadata path)) in
       ret (node_len meta <=? MAX_ENCRYPTED_GAP_BYTES)
     else ret false) in
  throw_if (negb valid_file) CorruptRecord ;;
  let! encrypted := lift (sys (read path)) in
  let! plaintext := decrypt_bytes encrypted in
  let! notice := ok_or (from_slice plaintext) CorruptRecord in
  let encrypted_bytes := len encrypted in
  let! state := get_state in
  throw_if (negb (valid_gap_notice notice)
            || bool_decide (sp_name path <> gap_file_name (gn_spool_seq notice) (gn_notice_id notice))
            || bool_decide (is_Some (gaps state !! gn_notice_id notice))
            || btree_any (gap_at (gn_spool_seq notice)) (gaps state)) CorruptRecord ;;
  let! config := get_config in
  throw_if ((max_records config <=? Z.of_nat (size (gaps state)))
            || (max_bytes config <? u64_saturating_add (pending_gap_bytes state) encrypted_bytes))
           CapacityExceeded ;;
  update (insert_gap notice encrypted_bytes path).

Definition recover_gaps : SpoolM unit :=
  let! names := lift (read_dir DGaps) in
  for_each names recover_gap.

(** ** Pending records *)

Definition quarantine_recovered_pending (path : SpoolPath) (now_ms : Z) : SpoolM unit :=
  match parse_v2_pending_file_name (sp_name path) with
  | Some (spool_seq, record_id) =>
      let! meta := lift (sys_catch (metadata path)) in
      let entry := {|
        en_record_id := record_id;
        en_stable_record_id := record_id;
        en_spool_seq := spool_seq;
        en_admitted_at_ms := now_ms;
        en_expires_at_ms := now_ms;
        en_encrypted_bytes := match meta with Ok node => node_len node | Err _ => 0 end;
        en_path := path |} in
      persist_gap_locked entry now_ms IntegrityQuarantine ;;
      quarantine_file_bounded path ;;
      update count_corrupt
  | None => fail CorruptRecord
  end.

(** [file_name.to_str().unwrap_or_default()] *)
Definition name_or_default (name : str) : str := if utf8_valid name then name else [].

(** One file of the pending directory: the record it holds, or [None] when it
    was quarantined. *)
Definition scan_pending (now_ms : Z) (path : SpoolPath) : SpoolM (option (StoredRecord * SpoolPath * Z)) :=
  let quarantine := quarantine_recovered_pending path now_ms ;; ret None in
  lift dir_entry ;;
  let! kind := lift (sys (metadata path)) in
  if negb (is_file kind) || bool_decide (extension (sp_name path) <> Some (lit "tles")) then quarantine
  else
    let! meta := lift (sys (metadata path)) in
    if MAX_ENCRYPTED_RECORD_BYTES <? node_len meta then quarantine
    else
      let! encrypted := lift (sys (read path)) in
      let! opened := fun w => (Ok (decrypt (in_key w) encrypted), w) in
      match opened with
      | Err KeyMismatch => fail SpoolKeyMismatch
      | Err InvalidCiphertext => quarantine
      | Ok plaintext =>
          match from_slice plaintext with
          | None => quarantine
          | Some stored =>
              if negb (valid_stored_record stored)
                 || negb (ends_with (name_or_default (sp_name path))
                            ([DASH] ++ as_str (sr_record_id stored) ++ PENDING_SUFFIX))
              then quarantine
              else ret (Some (stored, path, len encrypted))
          end
      end.

Definition stored_leb (left right : StoredRecord * SpoolPath * Z) : bool :=
  let l := left.1.1 in let r := right.1.1 in
  (sr_admitted_at_ms l <? sr_admitted_at_ms r)
  || ((sr_admitted_at_ms l =? sr_admitted_at_ms r) && ord_leb (sr_record_id l) (sr_record_id r)).

(** [iter.max().unwrap_or(0)] on unsigned values. *)
Definition max_or_zero (l : list Z) : Z := foldr Z.max 0 l.

(** The [version == 1] branch: the record gets a stable identity and a
    sequence, and its file is rewritten in place. *)
Definition migrate_record (next_migration_sequence : Z) (item : StoredRecord * SpoolPath * Z)
    : SpoolM (Z * (StoredRecord * SpoolPath * Z)) :=
  let '(stored, path, encrypted_bytes) := item in
  if sr_version stored =? 1 then
    let spool_seq := next_migration_sequence in
    let! next := ok_or (u64_checked_add next_migration_sequence 1) InvalidConfig in
    let stored := {|
      sr_version := 2;
      sr_record_id := sr_record_id stored;
      sr_stable_record_id := Some (stable_record_id (sr_envelope stored));
      sr_spool_seq := Some spool_seq;
      sr_admitted_at_ms := sr_admitted_at_ms stored;
      sr_expires_at_ms := sr_expires_at_ms stored;
      sr_envelope := sr_envelope stored |} in
    let! plaintext := ok_or (to_vec stored) Serialization in
    let! encrypted := encrypt_bytes plaintext in
    write_new path encrypted ;;
    ret (next, (stored, path, len encrypted))
  else ret (next_migration_sequence, item).

(** [if path != canonical_path { .. fs::rename .. }] *)
Definition move_to_canonical (path canonical_path : SpoolPath) : SpoolM unit :=
  if bool_decide (path = canonical_path) then ret tt
  else
    let! exists_already := lift (sys (path_exists canonical_path)) in
    throw_if exists_already CapacityExceeded ;;
    lift (sys (rename path canonical_path)) ;;
    lift (sync_directory DPending).

(** The assignments that make a recovered record pending. *)
Definition restore_entry (entry : Entry) (s : State) : State :=
  set_entries (<[en_record_id entry := entry]> (entries s))
    (set_stable_index (<[en_stable_record_id entry := en_record_id entry]> (stable_index s))
      (set_pending_bytes (u64_saturating_add (pending_bytes s) (en_encrypted_bytes entry)) s)).

(** One round of the second loop; the result is [next_migration_sequence]. *)
Definition recover_record (next_migration_sequence : Z) (item : StoredRecord * SpoolPath * Z) : SpoolM Z :=
  let! migrated := migrate_record next_migration_sequence item in
  let '(next, (stored, path, encrypted_bytes)) := migrated in
  let! stable_record_id := ok_or (sr_stable_record_id stored) CorruptRecord in
  let! spool_seq := ok_or (sr_spool_seq stored) CorruptRecord in
  let! state := get_state in
  if btree_any (gap_at spool_seq) (gaps state) then
    quarantine_file_bounded path ;;
    update count_corrupt ;;
    ret next
  else
    let canonical_path := SPath DPending (pending_file_name spool_seq (sr_record_id stored)) in
    move_to_canonical path canonical_path ;;
    let! state := get_state in
    let! config := get_config in
    throw_if (bool_decide (is_Some (entries state !! sr_record_id stored))
              || bool_decide (is_Some (stable_index state !! stable_record_id))
              || btree_any (fun entry => en_spool_seq entry =? spool_seq) (entries state)
              || (max_records config <=? Z.of_nat (size (entries state)))
              || (max_bytes config <? u64_saturating_add (pending_bytes state) encrypted_bytes))
             CapacityExceeded ;;
    update (restore_entry {|
      en_record_id := sr_record_id stored;
      en_stable_record_id := stable_record_id;
      en_spool_seq := spool_seq;
      en_admitted_at_ms := sr_admitted_at_ms stored;
      en_expires_at_ms := sr_expires_at_ms stored;
      en_encrypted_bytes := encrypted_bytes;
      en_path := canonical_path |}) ;;
    ret next.

Definition entry_seqs (s : State) : list Z := map en_spool_seq (btree_values (entries s)).
Definition gap_seqs (s : State) : list Z := map (fun g => gn_spool_seq (ge_notice g)) (btree_values (gaps s)).

Definition recover_pending (now_ms : Z) : SpoolM unit :=
  let! names := lift (read_dir DPending) in
  let! recovered := fold_m names [] (fun recovered path =>
    let! found := scan_pending now_ms path in
    ret (match found with Some item => recovered ++ [item] | None => recovered end)) in
  let recovered := sort_by stored_leb recovered in
  let record_max := max_or_zero (omap (fun item => sr_spool_seq item.1.1) recovered) in
  let! state := get_state in
  let! next_migration_sequence :=
    ok_or (u64_checked_add (Z.max record_max (max_or_zero (gap_seqs state))) 1) InvalidConfig in
  fold_m recovered next_migration_sequence recover_record ;;
  ret tt.

(** ** Counters *)

(** The counters taken from the sequence file, or from the files when there is
    none, and the next sequence. *)
Definition recover_counters : SpoolM unit :=
  let! recovered_sequence := recover_sequence_state in
  let recovered_next := from_option sq_next_spool_sequence 1 recovered_sequence in
  update (fun s => set_expired_records
    (match recovered_sequence with
     | Some sequence => sq_expired_records_total sequence
     | None => Z.of_nat (length (List.filter
                 (fun g => bool_decide (gn_reason (ge_notice g) = RetentionExpired)) (btree_values (gaps s))))
     end) s) ;;
  update (fun s => set_v1_ack_history_pruned
    (v1_ack_history_pruned s || from_option sq_v1_ack_history_pruned false recovered_sequence) s) ;;
  update (set_counted_pending_expirations
    (from_option sq_counted_pending_expirations ∅ recovered_sequence)) ;;
  let! state := get_state in
  let! records_next := ok_or (u64_checked_add (max_or_zero (entry_seqs state)) 1) InvalidConfig in
  let! gaps_next := ok_or (u64_checked_add (max_or_zero (gap_seqs state)) 1) InvalidConfig in
  update (set_next_spool_sequence (Z.max (Z.max recovered_next records_next) gaps_next)) ;;
  let! state := get_state in
  throw_if (btree_any (fun entry =>
      match counted_pending_expirations state !! en_spool_seq entry with
      | Some identity => bool_decide (identity <> en_stable_record_id entry)
      | None => false
      end) (entries state)) CorruptRecord.

(** ** Receipts *)

Definition valid_version_shape (receipt : AckReceipt) : bool :=
  if ar_version receipt =? 1 then
    is_empty (ar_accepted_stable_record_ids receipt) && is_empty (ar_accepted_gap_notice_ids receipt)
  else if ar_version receipt =? 2 then is_empty (ar_accepted_record_ids receipt)
  else false.

Definition valid_admission_shape (receipt : AckReceipt) : bool :=
  forallb (fun admission => 0 <? ra_spool_seq admission) (ar_accepted_admissions receipt)
  && (if ar_version receipt =? 1 then
        Nat.eqb (length (ar_accepted_admissions receipt)) (length (ar_accepted_record_ids receipt))
        && bool_decide (hash_set (map ra_legacy_record_id (ar_accepted_admissions receipt))
                        = hash_set (ar_accepted_record_ids receipt))
      else if ar_version receipt =? 2 then
        Nat.eqb (length (ar_accepted_admissions receipt)) (length (ar_accepted_stable_record_ids receipt))
        && bool_decide (hash_set (map ra_stable_record_id (ar_accepted_admissions receipt))
                        = hash_set (ar_accepted_stable_record_ids receipt))
      else false).

Definition valid_receipt (receipt : AckReceipt) (file_name : str) (state : State) : bool :=
  valid_version_shape receipt
  && valid_admission_shape receipt
  && valid_digest (ar_batch_id receipt)
  && Nat.leb (length (ar_accepted_record_ids receipt)) 256
  && Nat.leb (length (ar_accepted_stable_record_ids receipt)) 256
  && Nat.leb (length (ar_accepted_gap_notice_ids receipt)) 256
  && negb (ar_sequence receipt =? U64_MAX)
  && all_distinct (ar_accepted_record_ids receipt)
  && all_distinct (ar_accepted_stable_record_ids receipt)
  && all_distinct (ar_accepted_gap_notice_ids receipt)
  && all_distinct (ar_accepted_admissions receipt)
  && bool_decide (file_name = receipt_file_name (ar_sequence receipt) (ar_batch_id receipt))
  && negb (bool_decide (is_Some (receipts state !! ar_batch_id receipt))).

(** One file of the receipts directory. *)
Definition recover_receipt (path : SpoolPath) : SpoolM unit :=
  let quarantine := quarantine_file_bounded path ;; update count_corrupt in
  lift dir_entry ;;
  let! kind := lift (sys (metadata path)) in
  if negb (is_file kind) || bool_decide (extension (sp_name path) <> Some (lit "tlea")) then quarantine
  else
    let! meta := lift (sys (metadata path)) in
    if MAX_ENCRYPTED_RECEIPT_BYTES <? node_len meta then quarantine
    else
      let! encrypted := lift (sys (read path)) in
      let! opened := fun w => (Ok (decrypt (in_key w) encrypted), w) in
      match opened with
      | Err KeyMismatch => fail SpoolKeyMismatch
      | Err InvalidCiphertext => quarantine
      | Ok plaintext =>
          match from_slice plaintext with
          | None => quarantine
          | Some receipt =>
              let! state := get_state in
              if negb (valid_receipt receipt (sp_name path) state) then quarantine
              else
                update (fun s => set_next_receipt_sequence
                  (Z.max (next_receipt_sequence s) (u64_saturating_add (ar_sequence receipt) 1)) s) ;;
                update (fun s => set_receipts
                  (<[ar_batch_id receipt := {| re_receipt := receipt; re_path := path |}]> (receipts s)) s)
          end
      end.

(** The deletions a recovered receipt still owes: whether pending records and
    whether gaps were removed. *)
Definition replay_receipt (removed : bool * bool) (receipt : AckReceipt) : SpoolM (bool * bool) :=
  let '(removed_pending, removed_gaps) := removed in
  let! removed_pending := fold_m (ar_accepted_admissions receipt) removed_pending (fun removed_pending admission =>
    let! removed := remove_admitted_record admission in ret (removed_pending || removed)) in
  fold_m (ar_accepted_gap_notice_ids receipt) (removed_pending, removed_gaps)
    (fun '(removed_pending, removed_gaps) notice_id =>
      let! state := get_state in
      match gaps state !! notice_id with
      | None =>
          let! removed := remove_expired_gap_backing notice_id in
          ret (removed_pending || removed, removed_gaps)
      | Some entry =>
          lift (remove_if_present (ge_path entry)) ;;
          update (fun s => set_pending_gap_bytes
                    (u64_saturating_sub (pending_gap_bytes s) (ge_encrypted_bytes entry))
                    (set_gaps (delete notice_id (gaps s)) s)) ;;
          ret (removed_pending, true)
      end).

Definition recover_receipts : SpoolM unit :=
  let! names := lift (read_dir DReceipts) in
  for_each names recover_receipt ;;
  let! state := get_state in
  let! removed := fold_m (map re_receipt (btree_values (receipts state))) (false, false) replay_receipt in
  let '(removed_pending, removed_gaps) := removed in
  when removed_pending (lift (sync_directory DPending)) ;;
  when removed_gaps (lift (sync_directory DGaps)).

(** ** Counted expirations *)

(** A counted sequence without a pending record must be explained by its gap
    notice or by a receipt that accepted it. *)
Definition explained (state : State) (sequence : Z) (identity : RecordId) : bool :=
  let notice_id := gn_notice_id (gap_notice_for_identity sequence identity 0 RetentionExpired) in
  bool_decide (is_Some (gaps state !! notice_id))
  || btree_any (fun entry => bool_decide (notice_id ∈ ar_accepted_gap_notice_ids (re_receipt entry)))
       (receipts state).

Definition pending_sequence (state : State) (sequence : Z) : bool :=
  btree_any (fun entry => en_spool_seq entry =? sequence) (entries state).

Definition settle_counted : SpoolM unit :=
  let! state := get_state in
  throw_if (existsb (fun '(sequence, identity) =>
              negb (pending_sequence state sequence) && negb (explained state sequence identity))
            (map_to_list (counted_pending_expirations state))) CorruptRecord ;;
  update (fun s => set_counted_pending_expirations
    (filter (fun kv => Is_true (pending_sequence s kv.1)) (counted_pending_expirations s)) s).

(** ** Recovery *)

Definition recover (now_ms : Z) : SpoolM unit :=
  ensure_quarantine_capacity 0 false ;;
  let! quarantined := lift (read_dir DQuarantine) in
  for_each quarantined (fun _ => lift dir_entry ;; update count_corrupt) ;;
  let! orphan := lift (has_entry DTmp) in
  throw_if orphan CorruptRecord ;;
  recover_gaps ;;
  recover_pending now_ms ;;
  recover_counters ;;
  recover_receipts ;;
  settle_counted ;;
  persist_current_sequence ;;
  expire_due now_ms ;;
  prune_receipts.

(** [Inner] is built, used and handed out by [open]. *)
Definition with_inner {A} (m : SpoolM A) (w : Inner) : OsM Inner :=
  fun o => let (r, w') := m (set_os o w) in
           (match r with Ok _ => Ok w' | Err e => Err e end, in_os w').

Definition open (config : SpoolConfig) (key : bytes) (now_ms : Z) : OsM Inner :=
  of_result (validate_config config) ;;
  acquire_spool_lock ;;
  for_each [DRoot; DPending; DTmp; DQuarantine; DReceipts; DGaps] (fun _ =>
    sys create_dir_all ;; sys set_permissions) ;;
  let! spool_format := read_spool_format_marker in
  when (bool_decide (spool_format = Previous)) reject_ambiguous_previous_receipts ;;
  let! o := get in
  let inner := {|
    in_config := config;
    in_key := key;
    in_state := default_state;
    in_storage_write_failed := false;
    in_os := o |} in
  let! inner := with_inner (
    when (bool_decide (spool_format = Previous)) (update (set_v1_ack_history_pruned true)) ;;
    when (bool_decide (spool_format = Current) || bool_decide (spool_format = AdmissionIdentity))
      (let! sequence := recover_sequence_state in
       ok_or sequence SequenceStateMissing ;; ret tt) ;;
    recover now_ms) inner in
  when (negb (bool_decide (spool_format = Current))) (write_current_spool_format_marker spool_format) ;;
  let! o := get in
  ret (set_os o inner).

End Recover.
