(* ===== verification/SpoolErrors.v ===== *)
(** * Which errors a method can return

    [raises S m]: every error [m] returns is in [S].  Callers map the errors
    to responses (an invalid acknowledgement is the peer's fault, an I/O
    failure is not), so it matters that a method never reports the one for
    the other. *)

From S2P Require Import Prelude Protocol Crypto Fs SpoolTypes SpoolFacts SpoolBase SpoolOps.

Create HintDb raises discriminated.

Definition raises (S : SpoolError -> Prop) {A} (m : SpoolM A) : Prop :=
  forall w e, (m w).1 = Err e -> S e.
Definition os_raises (S : SpoolError -> Prop) {A} (m : OsM A) : Prop :=
  forall o e, (m o).1 = Err e -> S e.

Section Raises.
Context {X : SpoolEnv}.
Implicit Types S : SpoolError -> Prop.

Lemma raises_bind S {A B} (m : SpoolM A) (k : A -> SpoolM B) :
  raises S m -> (forall a, raises S (k a)) -> raises S (bind m k).
Proof.
  intros Hm Hk w e. unfold bind. specialize (Hm w). destruct (m w) as [[a|e'] w']; cbn in *; [apply Hk|].
  intros [= <-]. by apply Hm.
Qed.
Lemma os_raises_bind S {A B} (m : OsM A) (k : A -> OsM B) :
  os_raises S m -> (forall a, os_raises S (k a)) -> os_raises S (bind m k).
Proof.
  intros Hm Hk w e. unfold bind. specialize (Hm w). destruct (m w) as [[a|e'] w']; cbn in *; [apply Hk|].
  intros [= <-]. by apply Hm.
Qed.
Lemma raises_lift S {A} (m : OsM A) : os_raises S m -> raises S (lift m).
Proof. intros Hm w e. unfold lift. specialize (Hm (in_os w)). destruct (m (in_os w)). cbn in *. apply Hm. Qed.
Lemma raises_catch S {A} (m : SpoolM A) : raises S (catch m).
Proof. intros w e. unfold catch. by destruct (m w). Qed.
Lemma raises_bind_catch S {A B} (m : SpoolM A) (k : Result SpoolError A -> SpoolM B) :
  raises S m -> (forall r, (forall e, r = Err e -> S e) -> raises S (k r)) -> raises S (bind (catch m) k).
Proof.
  intros Hm Hk w e. unfold bind, catch. specialize (Hm w). destruct (m w) as [r w']; cbn in *. by apply Hk.
Qed.
Lemma raises_ret S {A} (a : A) : raises S (ret a).
Proof. done. Qed.
Lemma raises_fail S {A} (e : SpoolError) : S e -> raises S (fail (A:=A) e).
Proof. intros HS w e'. cbn. by intros [= <-]. Qed.
Lemma os_raises_fail S {A} (e : SpoolError) : S e -> os_raises S (fail (A:=A) e).
Proof. intros HS w e'. cbn. by intros [= <-]. Qed.
Lemma os_raises_ret S {A} (a : A) : os_raises S (ret a).
Proof. done. Qed.
Lemma raises_throw_if S b (e : SpoolError) : S e -> raises S (throw_if b e).
Proof. intros HS w e'. cbn. destruct b; [by intros [= <-]|done]. Qed.
Lemma raises_ok_or S {A} (o : option A) (e : SpoolError) : S e -> raises S (ok_or o e).
Proof. intros HS w e'. cbn. destruct o; [done|by intros [= <-]]. Qed.
Lemma raises_get_state S : raises S get_state.
Proof. done. Qed.
Lemma raises_get_config S : raises S get_config.
Proof. done. Qed.
Lemma raises_storage_write_failed S : raises S storage_write_failed.
Proof. done. Qed.
Lemma raises_update S f : raises S (update f).
Proof. done. Qed.
Lemma raises_modify S f : raises S (modify f).
Proof. done. Qed.
Lemma raises_when S b (m : SpoolM unit) : raises S m -> raises S (when b m).
Proof. by destruct b. Qed.
Lemma wp_raises S {A} (m : SpoolM A) Q w :
  raises S m -> wp m (fun r w' => (forall e, r = Err e -> S e) -> Q r w') w -> wp m Q w.
Proof. intros Hm Hw. apply Hw. by apply Hm. Qed.
Lemma raises_fold_m S {A T} (l : list A) (t : T) body :
  (forall t x, raises S (body t x)) -> raises S (fold_m l t body).
Proof.
  intros Hb. revert t; induction l as [|x l IH]; intros t; cbn; [apply raises_ret|].
  by apply raises_bind; [apply Hb|].
Qed.
Lemma raises_mono (S S' : SpoolError -> Prop) {A} (m : SpoolM A) :
  (forall e, S e -> S' e) -> raises S m -> raises S' m.
Proof. intros HS Hm w e He. by eapply HS, Hm. Qed.

(** System calls fail with an I/O error or a full disk. *)
Definition io_error (e : SpoolError) : Prop := e = SpoolIo \/ e = StorageFull.

Lemma map_io_error_io e : io_error (map_io_error e).
Proof. unfold map_io_error, io_error. destruct (_ || _); auto. Qed.
Lemma os_raises_sys {A} (m : M (Os SpoolPath) IoError A) : os_raises io_error (sys m).
Proof.
  intros o e. unfold sys. destruct (m o) as [[a|e'] o']; cbn; [done|]. intros [= <-]. apply map_io_error_io.
Qed.
Lemma os_raises_sys_catch S {A} (m : M (Os SpoolPath) IoError A) : os_raises S (sys_catch m).
Proof. intros o e. unfold sys_catch. by destruct (m o). Qed.

End Raises.

#[export] Hint Resolve raises_lift raises_catch raises_ret raises_fail os_raises_fail os_raises_ret raises_throw_if
  raises_ok_or raises_get_state raises_get_config raises_storage_write_failed raises_update raises_modify
  map_io_error_io os_raises_sys os_raises_sys_catch : raises.

Ltac raises_tac :=
  repeat first
    [ progress intros
    | solve [eauto with raises]
    | match goal with
      | |- raises _ (bind (catch _) _) => apply raises_bind_catch
      | |- raises _ (bind _ _) => apply raises_bind
      | |- os_raises _ (bind _ _) => apply os_raises_bind
      | |- raises _ (when _ _) => apply raises_when
      | |- raises _ (lift _) => apply raises_lift
      | |- raises _ (fold_m _ _ _) => apply raises_fold_m
      end
    | case_match ].

Section Methods.
Context {X : SpoolEnv}.

(** What storing a file can fail with: the medium, the cipher, the encoder. *)
Definition storage_error (e : SpoolError) : Prop :=
  io_error e \/ e = SpoolKeyMismatch \/ e = CorruptRecord \/ e = Serialization \/ e = CapacityExceeded.

Lemma io_storage e : io_error e -> storage_error e.
Proof. by left. Qed.
#[local] Hint Resolve io_storage : raises.
#[local] Hint Extern 1 (storage_error _) => (unfold storage_error; tauto) : raises.
#[local] Hint Extern 1 (io_error _) => (unfold io_error; tauto) : raises.

Lemma raises_write_atomic_file t p b : os_raises io_error (write_atomic_file t p b).
Proof. unfold write_atomic_file, sync_directory. raises_tac. Qed.
#[local] Hint Resolve raises_write_atomic_file : raises.

Lemma raises_write_new p b : raises io_error (write_new p b).
Proof. unfold write_new, temporary_path, write_atomic. raises_tac. Qed.
#[local] Hint Resolve raises_write_new : raises.

Lemma raises_storage {A} (m : SpoolM A) : raises io_error m -> raises storage_error m.
Proof. apply raises_mono. by left. Qed.
#[local] Hint Resolve raises_storage : raises.
Lemma os_raises_storage {A} (m : OsM A) : os_raises io_error m -> os_raises storage_error m.
Proof. intros Hm o e He. left. by eapply Hm. Qed.
#[local] Hint Resolve os_raises_storage : raises.

Lemma raises_encrypt_bytes p : raises storage_error (encrypt_bytes p).
Proof.
  unfold encrypt_bytes. raises_tac.
  intros w e. cbn. unfold map_err. destruct (encrypt _ _ _) as [|[]]; cbn; [done|..]; intros [= <-];
    unfold storage_error; tauto.
Qed.
#[local] Hint Resolve raises_encrypt_bytes : raises.

(** The cipher's refusal to seal is reported as a corrupt record. *)
Lemma raises_sealing p : raises (fun e => e = CorruptRecord) (encrypt_bytes p).
Proof.
  intros w e. unfold encrypt_bytes, bind, lift, sys, draw_bytes, encrypt. cbn.
  destruct (aead_encrypt _ _ _ _); cbn; [done|]. by intros [= <-].
Qed.

Lemma raises_persist_current_sequence : raises storage_error persist_current_sequence.
Proof. unfold persist_current_sequence, persist_sequence_state. raises_tac. Qed.
#[local] Hint Resolve raises_persist_current_sequence : raises.

Lemma raises_remove_if_present p : os_raises io_error (remove_if_present p).
Proof. unfold remove_if_present. raises_tac. Qed.
#[local] Hint Resolve raises_remove_if_present : raises.

Lemma raises_sync_directory d : os_raises io_error (sync_directory d).
Proof. unfold sync_directory. raises_tac. Qed.
#[local] Hint Resolve raises_sync_directory : raises.

Lemma raises_remove_admitted_record a : raises storage_error (remove_admitted_record a).
Proof. unfold remove_admitted_record. raises_tac. Qed.
#[local] Hint Resolve raises_remove_admitted_record : raises.

Lemma raises_complete_receipt r : raises storage_error (complete_receipt r).
Proof. unfold complete_receipt, complete_gap, remove_expired_gap_backing. raises_tac. Qed.
#[local] Hint Resolve raises_complete_receipt : raises.

Lemma raises_prune_loop n : raises storage_error (prune_loop n).
Proof. induction n as [|n IH]; cbn [prune_loop]; raises_tac. Qed.
#[local] Hint Resolve raises_prune_loop : raises.

Lemma raises_commit_receipt r : raises storage_error (commit_receipt r).
Proof. unfold commit_receipt, record_receipt, prune_receipts. raises_tac. Qed.

End Methods.

#[export] Hint Resolve raises_complete_receipt raises_commit_receipt raises_write_new raises_persist_current_sequence : raises.
