(* ===== verification/SpoolFrame.v ===== *)
(** * Frames of the spool's storage primitives

    Which part of the world a primitive may change.  [touches S m]: [m] keeps
    configuration, key and state, and leaves every file outside [S] as it
    was.  Every [S] contains the scratch area: temporary files, quarantine and
    the files of the spool's root.  Of these only the sequence file matters
    again later; [tame] says what may become of it, and of the files that are
    read back when the spool is opened. *)

From S2P Require Import Prelude Protocol Crypto Fs SpoolTypes SpoolFacts SpoolBase SpoolOps.

Create HintDb touches discriminated.

Definition scratch (p : SpoolPath) : Prop :=
  sp_dir p = DTmp \/ sp_dir p = DQuarantine \/ sp_dir p = DRoot.
(** The scratch area and one file. *)
Definition only (q p : SpoolPath) : Prop := scratch p \/ p = q.

(** ** What every primitive respects *)

Definition sequence_path : SpoolPath := SPath DRoot SEQUENCE_STATE_FILE.
(** Directories whose files are read back when the spool is opened again. *)
Definition kept_dir (p : SpoolPath) : Prop := sp_dir p = DPending \/ sp_dir p = DReceipts.
(** A path that may be overwritten at any time. *)
Definition free (p : SpoolPath) : Prop := p <> sequence_path /\ ~ kept_dir p.

(** The sequence file stays, files of the kept directories stay or go. *)
Definition tame_disk (d d' : gmap SpoolPath Node) : Prop :=
  d' !! sequence_path = d !! sequence_path /\
  forall p, kept_dir p -> d' !! p = d !! p \/ d' !! p = None.

Definition calls (S : SpoolPath -> Prop) {A} (m : M (Os SpoolPath) IoError A) : Prop :=
  frames S m /\ forall o, tame_disk (os_disk o) (os_disk (m o).2).
Definition os_touches (S : SpoolPath -> Prop) {A} (m : OsM A) : Prop :=
  forall o, (forall p, ~ S p -> os_disk (m o).2 !! p = os_disk o !! p) /\
            tame_disk (os_disk o) (os_disk (m o).2).

Definition same_state (w w' : Inner) : Prop :=
  in_config w' = in_config w /\ in_key w' = in_key w /\ in_state w' = in_state w.

(** The sequence file was sealed with [next]. *)
Definition sequence_sealed `{SpoolEnv} (key : bytes) (d : gmap SpoolPath Node) (next : Z) : Prop :=
  exists q plaintext nonce sealed, sq_next_spool_sequence q = next /\ to_vec q = Some plaintext /\
    length nonce = NONCE_BYTES /\ encrypt key nonce plaintext = Ok sealed /\
    d !! sequence_path = Some (File sealed).

(** The latch stays set, the sequence file is kept or sealed with the next
    sequence of the state, files of the kept directories stay or go. *)
Record tame `{SpoolEnv} (w w' : Inner) : Prop := {
  tm_latch : in_storage_write_failed w = true -> in_storage_write_failed w' = true;
  tm_sequence : in_disk w' !! sequence_path = in_disk w !! sequence_path \/
    sequence_sealed (in_key w) (in_disk w') (next_spool_sequence (in_state w));
  tm_files : forall p, kept_dir p -> in_disk w' !! p = in_disk w !! p \/ in_disk w' !! p = None;
}.

Definition touches_at `{SpoolEnv} (S : SpoolPath -> Prop) {A} (m : SpoolM A) (w : Inner) : Prop :=
  same_state w (m w).2 /\ tame w (m w).2 /\ forall p, ~ S p -> in_disk (m w).2 !! p = in_disk w !! p.
Definition touches `{SpoolEnv} (S : SpoolPath -> Prop) {A} (m : SpoolM A) : Prop :=
  forall w, touches_at S m w.

Lemma same_state_refl w : same_state w w.
Proof. done. Qed.
Lemma same_state_trans w w' w'' : same_state w w' -> same_state w' w'' -> same_state w w''.
Proof. unfold same_state. intuition congruence. Qed.

Lemma tame_disk_refl d : tame_disk d d.
Proof. split; [done|]. by left. Qed.
Lemma tame_disk_trans d d' d'' : tame_disk d d' -> tame_disk d' d'' -> tame_disk d d''.
Proof.
  intros [Hs Hf] [Hs' Hf']. split; [congruence|]. intros p Hp.
  destruct (Hf' p Hp) as [->|]; [by apply Hf|by right].
Qed.
Lemma tame_of_disk `{SpoolEnv} w w' :
  (in_storage_write_failed w = true -> in_storage_write_failed w' = true) ->
  tame_disk (in_disk w) (in_disk w') -> tame w w'.
Proof. intros Hl [Hs Hf]. split; [done|by left|done]. Qed.
Lemma tame_refl `{SpoolEnv} w : tame w w.
Proof. apply tame_of_disk; [done|apply tame_disk_refl]. Qed.
Lemma tame_trans `{SpoolEnv} w w' w'' : same_state w w' -> tame w w' -> tame w' w'' -> tame w w''.
Proof.
  intros (_ & Hk & Hst) [Hl Hs Hf] [Hl' Hs' Hf']. split; [auto| |].
  - rewrite Hst, Hk in Hs'. destruct Hs' as [E|]; [|by right]. destruct Hs as [Hs|Hs]; [left; congruence|right].
    destruct Hs as (q & pl & nonce & c & ? & ? & ? & ? & ?). exists q, pl, nonce, c. by rewrite E.
  - intros p Hp. destruct (Hf' p Hp) as [->|]; [by apply Hf|by right].
Qed.
Lemma tame_disk_of `{SpoolEnv} w w' : in_disk w' = in_disk w ->
  (in_storage_write_failed w = true -> in_storage_write_failed w' = true) -> tame w w'.
Proof. intros Hd Hl. apply tame_of_disk; [done|]. rewrite Hd. apply tame_disk_refl. Qed.

Lemma scratch_only q p : scratch p -> only q p.
Proof. by left. Qed.
Lemma only_refl q : only q q.
Proof. by right. Qed.
Lemma scratch_tmp n : scratch (SPath DTmp n).
Proof. by left. Qed.
Lemma scratch_quarantine n : scratch (SPath DQuarantine n).
Proof. right; by left. Qed.
Lemma scratch_root n : scratch (SPath DRoot n).
Proof. right; by right. Qed.
Lemma free_tmp n : free (SPath DTmp n).
Proof. split; [done|]. by intros [|]. Qed.
Lemma free_quarantine n : free (SPath DQuarantine n).
Proof. split; [done|]. by intros [|]. Qed.
Lemma free_gap n : free (SPath DGaps n).
Proof. split; [done|]. by intros [|]. Qed.
Lemma free_not_sequence p : free p -> p <> sequence_path.
Proof. by intros [? _]. Qed.
#[export] Hint Resolve scratch_only only_refl scratch_tmp scratch_quarantine scratch_root
  free_tmp free_quarantine free_gap free_not_sequence : touches.

Section Generic.
Context {X : SpoolEnv}.
Implicit Types S : SpoolPath -> Prop.

(** ** System calls *)

Lemma calls_sys S {A} (m : M (Os SpoolPath) IoError A) : calls S m -> os_touches S (sys m).
Proof. intros [Hm Ht] o. specialize (Hm o). specialize (Ht o). unfold sys. by destruct (m o). Qed.
Lemma calls_sys_catch S {A} (m : M (Os SpoolPath) IoError A) : calls S m -> os_touches S (sys_catch m).
Proof. intros [Hm Ht] o. specialize (Hm o). specialize (Ht o). unfold sys_catch. by destruct (m o). Qed.

Lemma calls_syscall S {A} run broken :
  (forall d p, ~ S p -> (run d).2 !! p = d !! p) -> (forall d, tame_disk d (run d).2) ->
  (forall t d p, ~ S p -> broken t d !! p = d !! p) -> (forall t d, tame_disk d (broken t d)) ->
  calls S (@syscall SpoolPath _ _ _ A run broken).
Proof.
  intros Hr Htr Hb Htb. split.
  - intros o p Hp. unfold syscall. destruct (fault (os_tick o)); cbn; [by apply Hb|].
    specialize (Hr (os_disk o) p Hp). by destruct (run (os_disk o)).
  - intros o. unfold syscall. destruct (fault (os_tick o)); cbn; [by apply Htb|].
    specialize (Htr (os_disk o)). by destruct (run (os_disk o)).
Qed.

Lemma tame_insert d p n : free p -> tame_disk d (<[p := n]> d).
Proof.
  intros [Hs Hk]. split; [by rewrite lookup_insert_ne|]. intros q Hq. left.
  rewrite lookup_insert_ne; [done|]. by intros <-.
Qed.
Lemma tame_delete d p : p <> sequence_path -> tame_disk d (delete p d).
Proof.
  intros Hs. split; [by rewrite lookup_delete_ne|]. intros q Hq.
  destruct (decide (q = p)) as [->|]; [right; by rewrite lookup_delete_eq|left; by rewrite lookup_delete_ne].
Qed.

Lemma calls_query S {A} (f : gmap SpoolPath Node -> Result IoError A) : calls S (query f).
Proof. apply calls_syscall; try done; intros; apply tame_disk_refl. Qed.
Lemma calls_create_new S p : S p -> free p -> calls S (create_new p).
Proof.
  intros HS Hf. apply calls_syscall; try done; try (intros; apply tame_disk_refl).
  - intros d q Hq. destruct (d !! p); cbn; [done|]. rewrite lookup_insert_ne; [done|]. by intros <-.
  - intros d. destruct (d !! p); cbn; [apply tame_disk_refl|by apply tame_insert].
Qed.
Lemma calls_write_all S p b : S p -> free p -> calls S (write_all p b).
Proof.
  intros HS Hf. apply calls_syscall; intros; cbn; try by apply tame_insert.
  all: rewrite lookup_insert_ne; [done|]; by intros <-.
Qed.
Lemma calls_rename S p p' : S p -> S p' -> p <> sequence_path -> free p' -> calls S (rename p p').
Proof.
  intros HS HS' Hp Hf. apply calls_syscall; try done; try (intros; apply tame_disk_refl).
  - intros d q Hq. destruct (d !! p); [|done]. destruct (d !! p') as [[]|]; cbn; try done;
      (rewrite lookup_insert_ne by (by intros <-); rewrite lookup_delete_ne; [done|by intros <-]).
  - intros d. destruct (d !! p); [|apply tame_disk_refl].
    destruct (d !! p') as [[]|]; cbn; try apply tame_disk_refl;
      (eapply tame_disk_trans; [by apply tame_delete|by apply tame_insert]).
Qed.
Lemma calls_remove_file S p : S p -> p <> sequence_path -> calls S (remove_file p).
Proof.
  intros HS Hp. apply calls_syscall; try done; try (intros; apply tame_disk_refl).
  - intros d q Hq. destruct (d !! p) as [[]|]; cbn; try done. rewrite lookup_delete_ne; [done|]. by intros <-.
  - intros d. destruct (d !! p) as [[]|]; cbn; try apply tame_disk_refl. by apply tame_delete.
Qed.
Lemma calls_draw_uuid S : calls S draw_uuid.
Proof. split; [done|]. intros o. apply tame_disk_refl. Qed.
Lemma calls_draw_bytes S n : calls S (draw_bytes n).
Proof. split; [done|]. intros o. apply tame_disk_refl. Qed.
Lemma calls_bind S {A B} (m : M (Os SpoolPath) IoError A) (k : A -> M (Os SpoolPath) IoError B) :
  calls S m -> (forall a, calls S (k a)) -> calls S (bind m k).
Proof.
  intros [Hm Ht] Hk. split; [by apply frames_bind; [|intros a; apply Hk]|].
  intros o. unfold bind. specialize (Ht o). destruct (m o) as [[a|e] o']; cbn in *; [|done].
  eapply tame_disk_trans; [done|]. apply Hk.
Qed.
Lemma calls_catch S {A} (m : M (Os SpoolPath) IoError A) : calls S m -> calls S (catch m).
Proof.
  intros [Hm Ht]. split; [intros o p Hp; specialize (Hm o p Hp)|intros o; specialize (Ht o)];
    unfold catch; by destruct (m o).
Qed.
Lemma calls_ret S {A} (a : A) : calls S (ret a).
Proof. split; [done|]. intros o. apply tame_disk_refl. Qed.
Lemma calls_path_exists S p : calls S (path_exists p).
Proof.
  unfold path_exists. apply calls_bind; [apply calls_catch, calls_query|intros a; apply calls_ret].
Qed.

(** ** Composition *)

Lemma os_touches_bind S {A B} (m : OsM A) (k : A -> OsM B) :
  os_touches S m -> (forall a, os_touches S (k a)) -> os_touches S (bind m k).
Proof.
  intros Hm Hk o. unfold bind. destruct (Hm o) as [Hd Ht].
  destruct (m o) as [[a|e] o']; cbn in *; [|done]. destruct (Hk a o') as [Hd' Ht'].
  split; [intros p Hp; by rewrite (Hd' p Hp), Hd|by eapply tame_disk_trans].
Qed.
Lemma os_touches_ret S {A} (a : A) : os_touches S (ret a).
Proof. intros o. split; [done|apply tame_disk_refl]. Qed.
Lemma os_touches_fail S {A} e : os_touches S (fail (A:=A) e).
Proof. intros o. split; [done|apply tame_disk_refl]. Qed.

Lemma os_touches_throw_if S b e : os_touches S (throw_if b e).
Proof. intros o. split; [done|apply tame_disk_refl]. Qed.
Lemma os_touches_for_each S {A} (l : list A) body :
  (forall x, os_touches S (body x)) -> os_touches S (for_each l body).
Proof.
  intros Hb. induction l as [|x l IH]; cbn; [apply os_touches_ret|]. by apply os_touches_bind; [apply Hb|].
Qed.

Lemma touches_lift S {A} (m : OsM A) : os_touches S m -> touches S (lift m).
Proof.
  intros Hm w. unfold touches_at, lift. destruct (Hm (in_os w)) as [Hd Ht]. destruct (m (in_os w)).
  split_and!; [done| |exact Hd]. by apply tame_of_disk.
Qed.
Lemma touches_at_bind S {A B} (m : SpoolM A) (k : A -> SpoolM B) w :
  touches_at S m w -> (forall a w', m w = (Ok a, w') -> touches_at S (k a) w') -> touches_at S (bind m k) w.
Proof.
  intros (Hst & Ht & Hd) Hk. unfold touches_at, bind. specialize (Hk : forall a w', _).
  destruct (m w) as [[a|e] w']; cbn in *; [|done]. destruct (Hk a w' eq_refl) as (Hst' & Ht' & Hd').
  split_and!; [by eapply same_state_trans|by eapply tame_trans|]. intros p Hp. by rewrite (Hd' p Hp), Hd.
Qed.
Lemma touches_bind S {A B} (m : SpoolM A) (k : A -> SpoolM B) :
  touches S m -> (forall a, touches S (k a)) -> touches S (bind m k).
Proof. intros Hm Hk w. apply touches_at_bind; [apply Hm|intros a w' _; apply Hk]. Qed.
(** The same, with what the first statement returned. *)
Lemma touches_bind_val S {A B} (m : SpoolM A) (k : A -> SpoolM B) :
  touches S m -> (forall w a w', m w = (Ok a, w') -> touches S (k a)) -> touches S (bind m k).
Proof. intros Hm Hk w. apply touches_at_bind; [apply Hm|]. intros a w' E. by apply (Hk w a w' E). Qed.
Lemma touches_catch S {A} (m : SpoolM A) : touches S m -> touches S (catch m).
Proof. intros Hm w. specialize (Hm w). unfold touches_at, catch in *. by destruct (m w). Qed.
Lemma touches_pure S {A} (f : Inner -> Result SpoolError A) : touches S (fun w => (f w, w)).
Proof. intros w. split_and!; [done|apply tame_refl|done]. Qed.
Lemma touches_ret S {A} (a : A) : touches S (ret a).
Proof. apply (touches_pure S (fun _ => Ok a)). Qed.
Lemma touches_fail S {A} e : touches S (fail (A:=A) e).
Proof. apply (touches_pure S (fun _ => Err e)). Qed.
Lemma touches_throw_if S b e : touches S (throw_if b e).
Proof. apply (touches_pure S (fun _ => if b then Err e else Ok tt)). Qed.
Lemma touches_ok_or S {A} (o : option A) e : touches S (ok_or o e).
Proof. apply (touches_pure S (fun _ => match o with Some a => Ok a | None => Err e end)). Qed.
Lemma touches_of_result S {A} (r : Result SpoolError A) : touches S (of_result r).
Proof. apply (touches_pure S (fun _ => r)). Qed.
Lemma touches_get_state S : touches S get_state.
Proof. apply (touches_pure S (fun w => Ok (in_state w))). Qed.
Lemma touches_get_config S : touches S get_config.
Proof. apply (touches_pure S (fun w => Ok (in_config w))). Qed.
Lemma touches_storage_write_failed S : touches S storage_write_failed.
Proof. apply (touches_pure S (fun w => Ok (in_storage_write_failed w))). Qed.
Lemma touches_latch S : touches S (modify (set_write_failed true)).
Proof. intros w. split_and!; [done|by apply tame_disk_of|done]. Qed.
Lemma touches_fold_m S {A T} (l : list A) (t : T) body :
  (forall t x, touches S (body t x)) -> touches S (fold_m l t body).
Proof.
  intros Hb. revert t; induction l as [|x l IH]; intros t; cbn; [apply touches_ret|].
  by apply touches_bind; [apply Hb|].
Qed.
Lemma touches_for_each S {A} (l : list A) body :
  (forall x, touches S (body x)) -> touches S (for_each l body).
Proof.
  intros Hb. induction l as [|x l IH]; cbn; [apply touches_ret|]. by apply touches_bind; [apply Hb|].
Qed.

End Generic.

#[export] Hint Resolve calls_create_new calls_write_all calls_rename calls_remove_file
  calls_draw_uuid calls_draw_bytes calls_path_exists calls_query calls_sys calls_sys_catch
  os_touches_ret os_touches_fail os_touches_throw_if touches_lift touches_catch touches_ret touches_fail
  touches_throw_if touches_ok_or touches_of_result touches_get_state touches_get_config
  touches_storage_write_failed touches_latch touches_pure : touches.
#[export] Hint Extern 1 (calls _ sync_all) => apply calls_query : touches.
#[export] Hint Extern 1 (calls _ (metadata _)) => apply calls_query : touches.
#[export] Hint Extern 1 (calls _ (read _)) => apply calls_query : touches.

(** Walks a program and closes every statement with the database. *)
Ltac touches_tac :=
  repeat first
    [ progress intros
    | solve [eauto with touches]
    | match goal with
      | |- touches _ (bind _ _) => apply touches_bind
      | |- os_touches _ (bind _ _) => apply os_touches_bind
      | |- calls _ (bind _ _) => apply calls_bind
      | |- touches _ (lift _) => apply touches_lift
      | |- os_touches _ (sys_catch (bind _ _)) => apply calls_sys_catch
      | |- touches _ (fold_m _ _ _) => apply touches_fold_m
      | |- touches _ (for_each _ _) => apply touches_for_each
      | |- os_touches _ (for_each _ _) => apply os_touches_for_each
      end
    | case_match ].

Section Primitives.
Context {X : SpoolEnv}.
Implicit Types S : SpoolPath -> Prop.

(** ** Rules for the primitive statements *)

Lemma wp_frames_at S {A} (m : SpoolM A) (Q : Result SpoolError A -> Inner -> Prop) w :
  touches_at S m w ->
  (forall r w', same_state w w' -> tame w w' -> (forall p, ~ S p -> in_disk w' !! p = in_disk w !! p) -> Q r w') ->
  wp m Q w.
Proof. intros (? & ? & ?) HQ. by apply HQ. Qed.
Lemma wp_frames S {A} (m : SpoolM A) (Q : Result SpoolError A -> Inner -> Prop) w :
  touches S m ->
  (forall r w', same_state w w' -> tame w w' -> (forall p, ~ S p -> in_disk w' !! p = in_disk w !! p) -> Q r w') ->
  wp m Q w.
Proof. intros Hm. by apply wp_frames_at. Qed.

Lemma wp_sys {A} (m : M (Os SpoolPath) IoError A) Q o :
  wp m (fun r o' => Q (map_err map_io_error r) o') o -> wp (sys m) Q o.
Proof. unfold wp, sys. by destruct (m o). Qed.
Lemma wp_sys_catch {A} (m : M (Os SpoolPath) IoError A) Q o :
  wp m (fun r o' => Q (Ok r) o') o -> wp (sys_catch m) Q o.
Proof. unfold wp, sys_catch. by destruct (m o). Qed.
Lemma wp_lift {A} (m : OsM A) Q w :
  wp m (fun r o' => Q r (set_os o' w)) (in_os w) -> wp (lift m) Q w.
Proof. unfold wp, lift. by destruct (m (in_os w)). Qed.

(** A call on the disk keeps the state, whatever else it does. *)
Lemma wp_lift_state {A} (m : OsM A) Q w :
  (forall r w', in_state w' = in_state w -> Q r w') -> wp (lift m) Q w.
Proof. intros HQ. unfold wp, lift. destruct (m (in_os w)). by apply HQ. Qed.

Lemma wp_get_state (Q : Result SpoolError State -> Inner -> Prop) w :
  Q (Ok (in_state w)) w -> wp get_state Q w.
Proof. done. Qed.
Lemma wp_get_config (Q : Result SpoolError SpoolConfig -> Inner -> Prop) w :
  Q (Ok (in_config w)) w -> wp get_config Q w.
Proof. done. Qed.
Lemma wp_storage_write_failed (Q : Result SpoolError bool -> Inner -> Prop) w :
  Q (Ok (in_storage_write_failed w)) w -> wp storage_write_failed Q w.
Proof. done. Qed.
Lemma wp_update f (Q : Result SpoolError unit -> Inner -> Prop) w :
  Q (Ok tt) (set_state (f (in_state w)) w) -> wp (update f) Q w.
Proof. done. Qed.
Lemma wp_of_result {A} (r : Result SpoolError A) (Q : Result SpoolError A -> Inner -> Prop) w :
  Q r w -> wp (of_result r) Q w.
Proof. done. Qed.

Lemma touches_sync_directory S d : os_touches S (sync_directory d).
Proof. unfold sync_directory. touches_tac. Qed.
#[local] Hint Resolve touches_sync_directory : touches.

(** *** Atomic writes *)

(** A path that was neither written nor removed. *)
Ltac frame_lookup :=
  let q := fresh in let Hq := fresh in
  intros q Hq; cbn; rewrite ?lookup_delete_ne by done; by rewrite ?lookup_insert_ne.

(** An atomic write leaves the old file or the whole new one, the new one when
    it succeeds. *)
Lemma write_atomic_file_cases t p b o :
  t <> p ->
  wp (write_atomic_file t p b) (fun r o' =>
    (forall q, q <> t -> q <> p -> os_disk o' !! q = os_disk o !! q) /\
    (os_disk o' !! p = os_disk o !! p \/ os_disk o' !! p = Some (File b)) /\
    (r = Ok tt -> os_disk o' !! p = Some (File b))) o.
Proof.
  intros Hne. unfold write_atomic_file, sync_directory. wp_step. apply wp_sys, wp_syscall; [intros; split_and!; auto; done|].
  intros _. destruct (os_disk o !! t) eqn:Et; cbn; [split_and!; auto; done|]. wp_step. apply wp_sys_catch. wp_step.
  assert (Hpost : forall e (d : gmap SpoolPath Node), (forall q, q <> t -> d !! q = os_disk o !! q) ->
    (forall q, q <> t -> q <> p -> d !! q = os_disk o !! q) /\
    (d !! p = os_disk o !! p \/ d !! p = Some (File b)) /\
    (Err (A:=unit) (E:=SpoolError) e = Ok tt -> d !! p = Some (File b))).
  { intros e o' Ho. split_and!; [auto| |done]. left. auto. }
  apply wp_syscall; cbn.
  - intros code _. wp_step. apply wp_sys_catch, wp_syscall; cbn; intros; rewrite ?lookup_insert_eq; cbn; wp_step.
    + apply Hpost. frame_lookup.
    + apply wp_sys, wp_query. intros r _. cbn. destruct r; cbn [map_err]; try wp_step; cbn [os_disk]; apply Hpost; frame_lookup.
  - intros _. apply wp_query; cbn. intros r Hr. destruct r as [[]|e]; wp_step.
    + apply wp_sys, wp_syscall; cbn; [intros; apply Hpost; frame_lookup|].
      intros _. rewrite lookup_insert_eq, !(lookup_insert_ne _ t p) by done.
      destruct (os_disk o !! p) as [[]|] eqn:Ep; cbn.
      2:{ apply Hpost. frame_lookup. }
      all: apply wp_sys, wp_query; cbn; intros r _; split_and!; [|rewrite lookup_insert_eq; auto..];
        intros q Hq Hq'; rewrite lookup_insert_ne, lookup_delete_ne by done; by rewrite !lookup_insert_ne.
    + apply wp_sys_catch, wp_syscall; cbn; intros; rewrite ?lookup_insert_eq; cbn; wp_step; [apply Hpost; frame_lookup|].
      apply wp_sys, wp_query. intros r _. cbn. destruct r; cbn [map_err]; try wp_step; cbn [os_disk]; apply Hpost; frame_lookup.
Qed.

(** What [write_new] leaves: other files as they were, and at its destination
    the old file or the whole new one.  A failure after the new file appeared
    sets the latch. *)
Record written (p : SpoolPath) (b : bytes) (r : Result SpoolError unit) (w w' : Inner) : Prop := {
  wn_same : same_state w w';
  wn_frame : forall q, q <> p -> sp_dir q <> DTmp -> in_disk w' !! q = in_disk w !! q;
  wn_latch : in_storage_write_failed w = true -> in_storage_write_failed w' = true;
  wn_file : in_disk w' !! p = in_disk w !! p \/
    (in_disk w' !! p = Some (File b) /\ in_storage_write_failed w = false);
  wn_ok : r = Ok tt -> in_disk w' !! p = Some (File b) /\
    in_storage_write_failed w = false /\ in_storage_write_failed w' = false;
  wn_err : r <> Ok tt -> in_storage_write_failed w' = true;
}.

Lemma write_new_written p b w :
  sp_dir p <> DTmp -> written p b (write_new p b w).1 w (write_new p b w).2.
Proof.
  intros Hp. enough (wp (write_new p b) (fun r w' => written p b r w w') w) as H by exact H.
  unfold write_new. wp_step. apply wp_lift. unfold temporary_path, sys. cbn.
  set (t := SPath DTmp _). assert (Hne : t <> p) by (intros <-; done).
  unfold write_atomic. wp_step. unfold wp at 1. cbn. wp_step.
  destruct (in_storage_write_failed w) eqn:El.
  { wp_step; [|done]. split; cbn; try done; auto. }
  wp_step; [done|]. wp_step. apply wp_catch, wp_lift.
  eapply wp_mono; [by apply write_atomic_file_cases|]. intros r o' (Hf & Hc & Hok). cbn in *.
  assert (Hfr : forall q, q <> p -> sp_dir q <> DTmp -> os_disk o' !! q = in_disk w !! q)
    by (intros q Hq Hd; rewrite Hf; [done| |done]; by intros ->).
  destruct r as [[]|e]; repeat wp_step; split; cbn; try done; try by intros ?.
  - right. split; [by apply Hok|done].
  - intros _. split; [by apply Hok|done].
  - destruct Hc as [|]; [by left|right; done].
Qed.

Lemma written_stored p b r w w' : written p b r w w' -> r = Ok tt -> in_disk w' !! p = Some (File b).
Proof. intros Hw ->. by apply (wn_ok _ _ _ _ _ Hw). Qed.

(** Writing at a free path is tame. *)
Lemma touches_write_new p b : free p -> sp_dir p <> DTmp -> touches (only p) (write_new p b).
Proof.
  intros [Hs Hk] Hp w. destruct (write_new_written p b w Hp) as [Hst Hf Hl _ _ _].
  split_and!; [done| |].
  - apply tame_of_disk; [done|]. split; [by apply Hf|]. intros q Hq. left. apply Hf; [by intros ->|].
    by destruct Hq as [->| ->].
  - intros q Hq. apply Hf; [intros ->; by apply Hq; right|intros Hd; by apply Hq; left; left].
Qed.

Lemma touches_mono S S' {A} (m : SpoolM A) : (forall p, S p -> S' p) -> touches S m -> touches S' m.
Proof. intros HS Hm w. destruct (Hm w) as (? & ? & Hd). split_and!; [done..|]. intros p Hp. apply Hd. auto. Qed.

Lemma touches_encrypt_bytes S p : touches S (encrypt_bytes p).
Proof. unfold encrypt_bytes. touches_tac. Qed.
#[local] Hint Resolve touches_encrypt_bytes : touches.

Lemma encrypt_bytes_spec p w :
  same_state w (encrypt_bytes p w).2 /\ in_disk (encrypt_bytes p w).2 = in_disk w /\
  forall c, (encrypt_bytes p w).1 = Ok c ->
    exists nonce, length nonce = NONCE_BYTES /\ encrypt (in_key w) nonce p = Ok c.
Proof.
  unfold encrypt_bytes, bind, lift, sys, draw_bytes. cbn. split_and!; [done..|].
  intros c Hc. exists (random_bytes (os_tick (in_os w)) NONCE_BYTES).
  split; [apply random_bytes_length|]. unfold map_err in Hc. case_match; [|done]. by injection Hc as ->.
Qed.

(** Sealing and writing the sequence file. *)
Lemma touches_write_sequence q plaintext w :
  to_vec q = Some plaintext -> sq_next_spool_sequence q = next_spool_sequence (in_state w) ->
  touches_at scratch (let! sealed := encrypt_bytes plaintext in write_new sequence_path sealed) w.
Proof.
  intros Hq Hnext. destruct (touches_encrypt_bytes scratch plaintext w) as (Hst1 & Ht1 & Hd1).
  destruct (encrypt_bytes_spec plaintext w) as (_ & Hdisk & Hseal). unfold touches_at, bind.
  destruct (encrypt_bytes plaintext w) as [[sealed|e] w1]; cbn [fst snd] in *; [|done].
  destruct (Hseal sealed eq_refl) as (nonce & Hn & Henc).
  destruct (write_new_written sequence_path sealed w1 ltac:(done)) as [Hst2 Hf Hl Hfile _ _].
  destruct Ht1 as [Hl1 Hq1 Hf1]. split_and!.
  - by eapply same_state_trans.
  - split; [auto| |].
    + destruct Hfile as [->|[Hfile _]]; [left; by rewrite Hdisk|].
      right. exists q, plaintext, nonce, sealed. by split_and!.
    + intros p Hp. rewrite Hf; [by apply Hf1|by intros ->; destruct Hp|by destruct Hp as [->| ->]].
  - intros p Hp. rewrite Hf; [by apply Hd1|by intros ->; apply Hp, scratch_root|intros Hd; by apply Hp; left].
Qed.

Lemma touches_persist_sequence_state next total pruned counted w :
  next = next_spool_sequence (in_state w) ->
  touches_at scratch (persist_sequence_state next total pruned counted) w.
Proof.
  intros Hnext. unfold persist_sequence_state. apply touches_at_bind; [apply touches_ok_or|].
  intros plaintext w' E. unfold ok_or in E. destruct (to_vec _) as [pl|] eqn:Ev; [|done].
  injection E as <- <-. by eapply touches_write_sequence.
Qed.

Lemma touches_persist_current_sequence : touches scratch persist_current_sequence.
Proof. intros w. by apply touches_persist_sequence_state. Qed.
#[local] Hint Resolve touches_persist_current_sequence : touches.

Lemma os_touches_read_dir S d : os_touches S (read_dir d).
Proof. intros o. unfold read_dir. apply (calls_sys S _ (calls_query S _) o). Qed.
#[local] Hint Resolve os_touches_read_dir : touches.

Lemma touches_ensure_quarantine_capacity S a b : touches S (ensure_quarantine_capacity a b).
Proof. unfold ensure_quarantine_capacity, dir_entry. touches_tac. Qed.
#[local] Hint Resolve touches_ensure_quarantine_capacity : touches.

Lemma touches_quarantine_file_bounded p :
  p <> sequence_path -> touches (only p) (quarantine_file_bounded p).
Proof.
  intros Hp. unfold quarantine_file_bounded, quarantine_file. touches_tac.
Qed.
#[local] Hint Resolve touches_quarantine_file_bounded : touches.

Lemma touches_move_to_quarantine p : p <> sequence_path -> touches (only p) (move_to_quarantine p).
Proof. intros Hp. unfold move_to_quarantine. touches_tac. Qed.

Lemma touches_remove_if_present p :
  p <> sequence_path -> touches (only p) (lift (remove_if_present p)).
Proof. intros Hp. unfold remove_if_present. touches_tac. Qed.
#[local] Hint Resolve touches_remove_if_present : touches.

Lemma touches_sync S d : touches S (lift (sync_directory d)).
Proof. apply touches_lift, touches_sync_directory. Qed.
#[local] Hint Resolve touches_sync : touches.

Lemma touches_check_record_size S e : touches S (check_record_size e).
Proof. unfold check_record_size. touches_tac. Qed.
Lemma touches_read_record S e : touches S (read_record e).
Proof. unfold read_record, decrypt_bytes. touches_tac. Qed.
#[local] Hint Resolve touches_check_record_size touches_read_record : touches.
Lemma touches_read_entry S e : touches S (read_entry e).
Proof. unfold read_entry. touches_tac. Qed.
#[local] Hint Resolve touches_read_entry : touches.

(** A failed removal has changed nothing; after a successful one the file is
    gone. *)
Lemma wp_remove_if_present p Q w :
  p <> sequence_path ->
  (forall w1, same_state w w1 -> tame w w1 -> (forall q, ~ only p q -> in_disk w1 !! q = in_disk w !! q) ->
     in_disk w1 !! p = None -> Q (Ok tt) w1) ->
  (forall e w1, same_state w w1 -> tame w w1 -> in_disk w1 = in_disk w -> Q (Err e) w1) ->
  wp (lift (remove_if_present p)) Q w.
Proof.
  intros Hp Hok Herr. destruct (touches_remove_if_present p Hp w) as (Hst & Ht & Hd).
  enough (match (lift (remove_if_present p) w).1 with
          | Ok _ => in_disk (lift (remove_if_present p) w).2 !! p = None
          | Err _ => in_disk (lift (remove_if_present p) w).2 = in_disk w
          end) as Hr.
  { unfold wp. destruct (lift (remove_if_present p) w) as [[[]|e] w1]; cbn in *; auto. }
  clear. enough (wp (lift (remove_if_present p)) (fun r w1 =>
    match r with Ok _ => in_disk w1 !! p = None | Err _ => in_disk w1 = in_disk w end) w) as H by exact H.
  apply wp_lift. unfold remove_if_present. wp_step. apply wp_sys_catch, wp_syscall.
  - intros code _. by wp_step.
  - intros _. unfold in_disk. destruct (in_os w) as [d t]. cbn.
    destruct (d !! p) as [[]|] eqn:E; cbn; try done. by rewrite lookup_delete_eq.
Qed.

End Primitives.

(** [sp_step] runs the head statement of a spool method. *)
Ltac sp_step :=
  match goal with
  | |- wp get_state _ _ => apply wp_get_state
  | |- wp get_config _ _ => apply wp_get_config
  | |- wp storage_write_failed _ _ => apply wp_storage_write_failed
  | |- wp (update _) _ _ => apply wp_update
  | |- wp (of_result _) _ _ => apply wp_of_result
  | _ => wp_step
  end; cbn beta iota.

#[export] Hint Resolve os_touches_read_dir touches_sync_directory touches_encrypt_bytes touches_write_new
  touches_persist_current_sequence touches_ensure_quarantine_capacity
  touches_quarantine_file_bounded touches_remove_if_present touches_sync
  touches_check_record_size touches_read_record touches_read_entry : touches.
