(* ===== verification/Metrics.v ===== *)
(** * Metrics and health ([src/metrics.rs], [src/health.rs])

    The receiver's counters (wrapping 64-bit atomics), the Prometheus text
    they are rendered to together with the spool snapshot, and the body of the
    health endpoints. *)

From S2P Require Import Prelude SpoolTypes.

Record Metrics := {
  mt_admitted : Z;
  mt_duplicates : Z;
  mt_rejected_auth : Z;
  mt_rejected_invalid : Z;
  mt_rejected_capacity : Z;
  mt_rejected_storage : Z;
  mt_rejected_internal : Z;
}.
Definition default_metrics : Metrics := Build_Metrics 0 0 0 0 0 0 0.

(** [AtomicU64::fetch_add(1, Relaxed)] *)
Definition fetch_add (z : Z) : Z := (z + 1) mod (U64_MAX + 1).

Definition admitted (m : Metrics) : Metrics :=
  Build_Metrics (fetch_add (mt_admitted m)) (mt_duplicates m) (mt_rejected_auth m) (mt_rejected_invalid m)
    (mt_rejected_capacity m) (mt_rejected_storage m) (mt_rejected_internal m).
Definition duplicate (m : Metrics) : Metrics :=
  Build_Metrics (mt_admitted m) (fetch_add (mt_duplicates m)) (mt_rejected_auth m) (mt_rejected_invalid m)
    (mt_rejected_capacity m) (mt_rejected_storage m) (mt_rejected_internal m).
Definition rejected_auth (m : Metrics) : Metrics :=
  Build_Metrics (mt_admitted m) (mt_duplicates m) (fetch_add (mt_rejected_auth m)) (mt_rejected_invalid m)
    (mt_rejected_capacity m) (mt_rejected_storage m) (mt_rejected_internal m).
Definition rejected_invalid (m : Metrics) : Metrics :=
  Build_Metrics (mt_admitted m) (mt_duplicates m) (mt_rejected_auth m) (fetch_add (mt_rejected_invalid m))
    (mt_rejected_capacity m) (mt_rejected_storage m) (mt_rejected_internal m).
Definition rejected_capacity (m : Metrics) : Metrics :=
  Build_Metrics (mt_admitted m) (mt_duplicates m) (mt_rejected_auth m) (mt_rejected_invalid m)
    (fetch_add (mt_rejected_capacity m)) (mt_rejected_storage m) (mt_rejected_internal m).
Definition rejected_storage (m : Metrics) : Metrics :=
  Build_Metrics (mt_admitted m) (mt_duplicates m) (mt_rejected_auth m) (mt_rejected_invalid m)
    (mt_rejected_capacity m) (fetch_add (mt_rejected_storage m)) (mt_rejected_internal m).
Definition rejected_internal (m : Metrics) : Metrics :=
  Build_Metrics (mt_admitted m) (mt_duplicates m) (mt_rejected_auth m) (mt_rejected_invalid m)
    (mt_rejected_capacity m) (mt_rejected_storage m) (fetch_add (mt_rejected_internal m)).

(** [Display] of an unsigned integer: at most twenty digits. *)
Fixpoint fmt_digits (fuel : nat) (z : Z) : str :=
  match fuel with
  | O => []
  | S fuel' => if z <? 10 then [dec_digit z] else fmt_digits fuel' (z / 10) ++ [dec_digit (z mod 10)]
  end.
Definition fmt_u64 (z : Z) : str := fmt_digits 20 z.

Definition NL : str := [x0a].
Definition typed_metric (name metric_type : str) (value : Z) : str :=
  lit "# TYPE " ++ name ++ lit " " ++ metric_type ++ NL ++ name ++ lit " " ++ fmt_u64 value ++ NL.
Definition gauge (name : str) (value : Z) : str := typed_metric name (lit "gauge") value.
Definition counter (name : str) (value : Z) : str := typed_metric name (lit "counter") value.

Definition render (m : Metrics) (spool : SpoolSnapshot) : str :=
  gauge (lit "teslatlas_edge_build_info") 1
  ++ gauge (lit "teslatlas_edge_spool_records") (ss_pending_records spool)
  ++ gauge (lit "teslatlas_edge_spool_bytes") (ss_pending_bytes spool)
  ++ gauge (lit "teslatlas_edge_spool_oldest_age_seconds") (ss_oldest_age_seconds spool)
  ++ gauge (lit "teslatlas_edge_spool_corrupt_records") (ss_corrupt_records spool)
  ++ counter (lit "teslatlas_edge_spool_expired_records_total") (ss_expired_records spool)
  ++ gauge (lit "teslatlas_edge_spool_gap_notices") (ss_pending_gap_notices spool)
  ++ gauge (lit "teslatlas_edge_spool_gap_bytes") (ss_pending_gap_bytes spool)
  ++ counter (lit "teslatlas_edge_receiver_admitted_total") (mt_admitted m)
  ++ counter (lit "teslatlas_edge_receiver_duplicates_total") (mt_duplicates m)
  ++ counter (lit "teslatlas_edge_receiver_rejected_auth_total") (mt_rejected_auth m)
  ++ counter (lit "teslatlas_edge_receiver_rejected_invalid_total") (mt_rejected_invalid m)
  ++ counter (lit "teslatlas_edge_receiver_rejected_capacity_total") (mt_rejected_capacity m)
  ++ counter (lit "teslatlas_edge_receiver_rejected_storage_total") (mt_rejected_storage m)
  ++ counter (lit "teslatlas_edge_receiver_rejected_internal_total") (mt_rejected_internal m).

Record QueueHealth := { qh_records : Z; qh_bytes : Z; qh_oldest_age_seconds : Z }.
Record HealthResponse := {
  hr_status : str;
  hr_queue : QueueHealth;
  hr_corrupt_records : Z;
  hr_expired_records : Z;
  hr_pending_gap_notices : Z;
  hr_capacity_exhausted : bool;
}.
Definition from_snapshot (snapshot : SpoolSnapshot) : HealthResponse := {|
  hr_status := if ss_degraded snapshot then lit "degraded" else lit "ok";
  hr_queue := {|
    qh_records := ss_pending_records snapshot;
    qh_bytes := ss_pending_bytes snapshot;
    qh_oldest_age_seconds := ss_oldest_age_seconds snapshot |};
  hr_corrupt_records := ss_corrupt_records snapshot;
  hr_expired_records := ss_expired_records snapshot;
  hr_pending_gap_notices := ss_pending_gap_notices snapshot;
  hr_capacity_exhausted := ss_capacity_exhausted snapshot;
|}.

(** ** The seven counters together *)

(** The changes a request may make: one of the seven increments. *)
Definition increments : list (Metrics -> Metrics) :=
  [admitted; duplicate; rejected_auth; rejected_invalid; rejected_capacity; rejected_storage; rejected_internal].
