(* ===== verification/SpoolInv.v ===== *)
(** * The spool invariant

    What every reachable in-memory state satisfies, and how the elementary
    state updates keep it.  [IdLaws] is the only assumption about SHA-256: the
    identities it produces do not collide in the two ways that would matter
    (one record identifier for two stable identities, one gap notice
    identifier for two sequence numbers or reasons). *)

From S2P Require Import Prelude Protocol Crypto Fs SpoolTypes SpoolFacts SpoolBase SpoolOps.

Class IdLaws `{Sha256} `{Jcs} := {
  record_id_refines : forall e e', record_id e = record_id e' -> stable_record_id e = stable_record_id e';
  notice_id_binds : forall seq seq' reason reason' ev ev',
    in_u64 seq -> in_u64 seq' ->
    gap_notice_id seq reason ev = gap_notice_id seq' reason' ev' -> seq = seq' /\ reason = reason';
}.

(** The configuration [Spool::open] accepts, at machine width; the byte budgets
    stay below [u64::MAX] (the configuration file allows 8 GiB), so that the
    saturating byte counters are exact. *)
Record wf_config (c : SpoolConfig) : Prop := {
  wc_bytes : 0 < max_bytes c < U64_MAX;
  wc_records : 0 < max_records c <= U64_MAX;
  wc_retention : 0 < retention_ms c <= I64_MAX;
  wc_batch_bytes : 0 < batch_max_bytes c < U64_MAX;
  wc_batch_records : 0 < batch_max_records c <= max_records c;
}.

Section Invariant.
Context {X : SpoolEnv}.

(** The two identifiers of an entry come from one valid envelope. *)
Definition entry_identity (e : Entry) : Prop :=
  exists envelope, validate envelope = Ok tt /\
    record_id envelope = en_record_id e /\ stable_record_id envelope = en_stable_record_id e.

Record wf_entry (s : State) (r : RecordId) (e : Entry) : Prop := {
  we_key : en_record_id e = r;
  we_seq : 0 < en_spool_seq e < next_spool_sequence s;
  we_index : stable_index s !! en_stable_record_id e = Some r;
  we_bytes : 0 <= en_encrypted_bytes e;
  we_path : en_path e = SPath DPending (pending_file_name (en_spool_seq e) r);
  we_identity : entry_identity e;
  we_counted : forall sid, counted_pending_expirations s !! en_spool_seq e = Some sid ->
    sid = en_stable_record_id e;
}.

Record wf_gap (s : State) (n : RecordId) (g : GapEntry) : Prop := {
  wg_key : gn_notice_id (ge_notice g) = n;
  wg_valid : valid_gap_notice (ge_notice g) = true;
  wg_seq : 0 < gn_spool_seq (ge_notice g) < next_spool_sequence s;
  wg_bytes : 0 <= ge_encrypted_bytes g;
  wg_path : ge_path g = SPath DGaps (gap_file_name (gn_spool_seq (ge_notice g)) n);
}.

(** An identifier a receipt accepts is that of a gap notice for an admitted
    sequence; a quarantined record is gone when its notice is accepted. *)
Definition accepted_notice (s : State) (n : RecordId) : Prop :=
  exists seq reason ev, n = gap_notice_id seq reason ev /\ 0 < seq < next_spool_sequence s /\
    (reason = IntegrityQuarantine -> forall r e, entries s !! r = Some e -> en_spool_seq e <> seq).

(** Every admission a receipt deletes is one the acknowledgement named. *)
Definition named (r : AckReceipt) : Prop :=
  forall a, a ∈ ar_accepted_admissions r ->
    ra_stable_record_id a ∈ ar_accepted_stable_record_ids r \/
    ra_legacy_record_id a ∈ ar_accepted_record_ids r.

Record wf_receipt (s : State) (b : str) (re : ReceiptEntry) : Prop := {
  wr_key : ar_batch_id (re_receipt re) = b;
  wr_seq : 0 <= ar_sequence (re_receipt re) < next_receipt_sequence s;
  wr_path : re_path re = SPath DReceipts (receipt_file_name (ar_sequence (re_receipt re)) b);
  wr_notices : forall n, n ∈ ar_accepted_gap_notice_ids (re_receipt re) -> accepted_notice s n;
  wr_named : named (re_receipt re);
}.

Record wf_state (c : SpoolConfig) (s : State) : Prop := {
  ws_entries : forall r e, entries s !! r = Some e -> wf_entry s r e;
  ws_entries_seq : forall r1 e1 r2 e2, entries s !! r1 = Some e1 -> entries s !! r2 = Some e2 ->
    en_spool_seq e1 = en_spool_seq e2 -> r1 = r2;
  ws_index : forall sid r, stable_index s !! sid = Some r ->
    exists e, entries s !! r = Some e /\ en_stable_record_id e = sid;
  ws_gaps : forall n g, gaps s !! n = Some g -> wf_gap s n g;
  ws_gaps_seq : forall n1 g1 n2 g2, gaps s !! n1 = Some g1 -> gaps s !! n2 = Some g2 ->
    gn_spool_seq (ge_notice g1) = gn_spool_seq (ge_notice g2) -> n1 = n2;
  ws_receipts : forall b re, receipts s !! b = Some re -> wf_receipt s b re;
  ws_next : 0 < next_spool_sequence s <= U64_MAX;
  ws_next_receipt : 0 <= next_receipt_sequence s <= U64_MAX;
  ws_bytes : pending_bytes s = map_sum en_encrypted_bytes (entries s);
  ws_bytes_max : pending_bytes s <= max_bytes c;
  ws_gap_bytes : pending_gap_bytes s = map_sum ge_encrypted_bytes (gaps s);
  ws_gap_bytes_max : pending_gap_bytes s <= max_bytes c;
  ws_entries_max : Z.of_nat (size (entries s)) <= max_records c;
  ws_gaps_max : Z.of_nat (size (gaps s)) <= max_records c;
  ws_counted : forall seq sid, counted_pending_expirations s !! seq = Some sid ->
    0 < seq < next_spool_sequence s;
}.

Definition wf (w : Inner) : Prop := wf_config (in_config w) /\ wf_state (in_config w) (in_state w).

Lemma wf_default c : wf_config c -> wf_state c default_state.
Proof.
  intros [? ? ? ? ?]. split; cbn; try (intros *; rewrite lookup_empty; done);
    unfold U64_MAX in *; try lia; rewrite ?map_sum_empty, ?map_size_empty; lia.
Qed.

(** ** Elementary updates *)

(** Closes the clauses of [wf_state] an update does not touch. *)
Ltac wf_keep Hs :=
  try solve
    [ apply (ws_entries_seq _ _ Hs) | apply (ws_index _ _ Hs) | apply (ws_gaps_seq _ _ Hs)
    | apply (ws_next _ _ Hs) | apply (ws_next_receipt _ _ Hs)
    | apply (ws_bytes _ _ Hs) | apply (ws_bytes_max _ _ Hs) | apply (ws_gap_bytes _ _ Hs)
    | apply (ws_gap_bytes_max _ _ Hs) | apply (ws_entries_max _ _ Hs) | apply (ws_gaps_max _ _ Hs)
    | apply (ws_counted _ _ Hs)
    | let r := fresh in let e := fresh in let He := fresh in
      intros r e He; destruct (ws_entries _ _ Hs r e He); split; cbn; (done || lia)
    | let r := fresh in let e := fresh in let He := fresh in
      intros r e He; destruct (ws_gaps _ _ Hs r e He); split; cbn; (done || lia)
    | let r := fresh in let e := fresh in let He := fresh in
      intros r e He; destruct (ws_receipts _ _ Hs r e He); split; cbn; (done || lia) ].


Lemma pending_bytes_nonneg c s : wf_state c s -> 0 <= pending_bytes s.
Proof.
  intros Hs. rewrite (ws_bytes _ _ Hs). apply map_sum_nonneg.
  intros r e He. by destruct (ws_entries _ _ Hs r e He).
Qed.

Lemma gap_bytes_nonneg c s : wf_state c s -> 0 <= pending_gap_bytes s.
Proof.
  intros Hs. rewrite (ws_gap_bytes _ _ Hs). apply map_sum_nonneg.
  intros n g Hg. by destruct (ws_gaps _ _ Hs n g Hg).
Qed.

(** Admitting an entry with fresh identifiers and the next sequence. *)
Lemma wf_insert_entry c s e :
  wf_config c -> wf_state c s ->
  entries s !! en_record_id e = None ->
  stable_index s !! en_stable_record_id e = None ->
  en_spool_seq e = next_spool_sequence s -> next_spool_sequence s < U64_MAX ->
  0 <= en_encrypted_bytes e ->
  en_path e = SPath DPending (pending_file_name (en_spool_seq e) (en_record_id e)) ->
  entry_identity e ->
  u64_saturating_add (pending_bytes s) (en_encrypted_bytes e) <= max_bytes c ->
  Z.of_nat (size (entries s)) < max_records c ->
  wf_state c (insert_entry e (next_spool_sequence s + 1) s).
Proof.
  intros Hc Hs Hr Hsid Hseq Hnext Hb Hp Hid Hmax Hsize.
  pose proof (pending_bytes_nonneg c s Hs) as Hpb. pose proof (ws_next _ _ Hs).
  assert (Hfresh : forall r e', entries s !! r = Some e' -> en_spool_seq e' < en_spool_seq e)
    by (intros r e' He'; destruct (ws_entries _ _ Hs r e' He'); lia).
  split; unfold insert_entry; cbn; wf_keep Hs.
  - intros r e' [[<- <-]|[Hne He']]%lookup_insert_Some.
    + split; cbn; try done; [lia|by rewrite lookup_insert_eq|].
      intros sid Hcnt. apply (ws_counted _ _ Hs) in Hcnt. lia.
    + destruct (ws_entries _ _ Hs r e' He'). split; cbn; try done; [lia|].
      rewrite lookup_insert_ne; [done|]. congruence.
  - intros r1 e1 r2 e2 [[<- <-]|[? Hl1]]%lookup_insert_Some [[<- <-]|[? Hl2]]%lookup_insert_Some E;
      try done; [apply Hfresh in Hl2; lia|apply Hfresh in Hl1; lia|by eapply (ws_entries_seq _ _ Hs)].
  - intros sid r [[<- <-]|[? Hi]]%lookup_insert_Some; [exists e; by rewrite lookup_insert_eq|].
    destruct (ws_index _ _ Hs sid r Hi) as (e' & He' & <-). exists e'.
    rewrite lookup_insert_ne; [done|]. congruence.
  - intros b re Hre. destruct (ws_receipts _ _ Hs b re Hre) as [Hk Hq Hrp Hn Hnm]. split; try done.
    intros n Hin. destruct (Hn n Hin) as (q & reason & ev & -> & Hlt & Hgone).
    exists q, reason, ev. split_and!; cbn; [done|lia..|].
    intros HR r e' [[<- <-]|[_ He']]%lookup_insert_Some; [lia|by eapply Hgone].
  - lia.
  - rewrite map_sum_insert by done. pose proof (wc_bytes _ Hc).
    unfold u64_saturating_add in *. rewrite (ws_bytes _ _ Hs) in *. lia.
  - done.
  - rewrite map_size_insert_None by done. lia.
  - intros seq sid Hcnt. apply (ws_counted _ _ Hs) in Hcnt. lia.
Qed.

(** Forgetting an entry. *)
Lemma wf_drop_entry c s e :
  wf_state c s -> entries s !! en_record_id e = Some e -> wf_state c (drop_entry e s).
Proof.
  intros Hs He. destruct (ws_entries _ _ Hs _ _ He) as [_ _ Hidx Hb _ _ _].
  assert (Hle : en_encrypted_bytes e <= pending_bytes s).
  { rewrite (ws_bytes _ _ Hs). eapply map_sum_lookup_le; [|exact He].
    intros r' e' He'. by destruct (ws_entries _ _ Hs _ _ He'). }
  pose proof (ws_bytes_max _ _ Hs). pose proof (ws_entries_max _ _ Hs).
  split; unfold drop_entry; cbn; wf_keep Hs.
  - intros r e' [Hne He']%lookup_delete_Some. destruct (ws_entries _ _ Hs _ _ He'). split; cbn; try done.
    rewrite lookup_delete_ne; [done|]. congruence.
  - intros r1 e1 r2 e2 [_ Hl1]%lookup_delete_Some [_ Hl2]%lookup_delete_Some.
    by apply (ws_entries_seq _ _ Hs).
  - intros sid r [Hne Hi]%lookup_delete_Some.
    destruct (ws_index _ _ Hs sid r Hi) as (e' & He' & <-). exists e'. split; [|done].
    rewrite lookup_delete_ne; [done|]. intros <-. congruence.
  - intros b re Hre. destruct (ws_receipts _ _ Hs b re Hre) as [Hk Hq Hrp Hn Hnm]. split; try done.
    intros n Hin. destruct (Hn n Hin) as (q & reason & ev & -> & Hlt & Hgone).
    exists q, reason, ev. split_and!; cbn; [done|lia..|].
    intros HR r e' [_ He']%lookup_delete_Some. by eapply Hgone.
  - rewrite u64_saturating_sub_exact by done. rewrite (map_sum_delete _ _ _ _ He).
    by rewrite (ws_bytes _ _ Hs).
  - rewrite u64_saturating_sub_exact; lia.
  - rewrite map_size_delete_Some by (by eexists). lia.
Qed.

(** Remembering a gap with a fresh identifier and sequence. *)
Lemma wf_insert_gap c s notice bytes path :
  wf_config c -> wf_state c s ->
  gaps s !! gn_notice_id notice = None ->
  (forall n g, gaps s !! n = Some g -> gn_spool_seq (ge_notice g) <> gn_spool_seq notice) ->
  valid_gap_notice notice = true ->
  0 < gn_spool_seq notice < next_spool_sequence s ->
  0 <= bytes ->
  path = SPath DGaps (gap_file_name (gn_spool_seq notice) (gn_notice_id notice)) ->
  u64_saturating_add (pending_gap_bytes s) bytes <= max_bytes c ->
  Z.of_nat (size (gaps s)) < max_records c ->
  wf_state c (insert_gap notice bytes path s).
Proof.
  intros Hc Hs Hn Hfresh Hv Hseq Hb Hp Hmax Hsize.
  pose proof (gap_bytes_nonneg c s Hs). pose proof (wc_bytes _ Hc).
  split; unfold insert_gap; cbn; wf_keep Hs.
  - intros n g [[<- <-]|[Hne Hg]]%lookup_insert_Some; [by split|].
    destruct (ws_gaps _ _ Hs n g Hg). by split.
  - intros n1 g1 n2 g2 [[<- <-]|[? Hl1]]%lookup_insert_Some [[<- <-]|[? Hl2]]%lookup_insert_Some E;
      cbn in *; try done; [by apply Hfresh in Hl2|by apply Hfresh in Hl1|].
    by eapply (ws_gaps_seq _ _ Hs).
  - rewrite map_sum_insert by done. cbn. unfold u64_saturating_add in *.
    rewrite (ws_gap_bytes _ _ Hs) in *. lia.
  - done.
  - rewrite map_size_insert_None by done. lia.
Qed.

Definition drop_gap (n : RecordId) (g : GapEntry) (s : State) : State :=
  set_pending_gap_bytes (u64_saturating_sub (pending_gap_bytes s) (ge_encrypted_bytes g))
    (set_gaps (delete n (gaps s)) s).

Lemma wf_drop_gap c s n g :
  wf_state c s -> gaps s !! n = Some g -> wf_state c (drop_gap n g s).
Proof.
  intros Hs Hg.
  assert (Hle : ge_encrypted_bytes g <= pending_gap_bytes s).
  { rewrite (ws_gap_bytes _ _ Hs). eapply map_sum_lookup_le; [|exact Hg].
    intros n' g' Hg'. by destruct (ws_gaps _ _ Hs _ _ Hg'). }
  pose proof (ws_gap_bytes_max _ _ Hs). pose proof (ws_gaps_max _ _ Hs).
  assert (0 <= ge_encrypted_bytes g) by by destruct (ws_gaps _ _ Hs _ _ Hg).
  split; unfold drop_gap; cbn; wf_keep Hs.
  - intros n' g' [Hne Hg']%lookup_delete_Some. destruct (ws_gaps _ _ Hs _ _ Hg'). by split.
  - intros n1 g1 n2 g2 [_ Hl1]%lookup_delete_Some [_ Hl2]%lookup_delete_Some.
    by apply (ws_gaps_seq _ _ Hs).
  - rewrite u64_saturating_sub_exact by done. rewrite (map_sum_delete _ _ _ _ Hg).
    by rewrite (ws_gap_bytes _ _ Hs).
  - rewrite u64_saturating_sub_exact; lia.
  - rewrite map_size_delete_Some by (by eexists). lia.
Qed.

Lemma wf_uncount c s seq : wf_state c s -> wf_state c (uncount seq s).
Proof.
  intros Hs. split; unfold uncount; cbn; wf_keep Hs.
  - intros r e He. destruct (ws_entries _ _ Hs r e He). split; cbn; try done.
    intros sid [_ Hcnt]%lookup_delete_Some. auto.
  - intros q sid [_ Hcnt]%lookup_delete_Some. by apply (ws_counted _ _ Hs) in Hcnt.
Qed.

(** Updates of the counters the invariant does not constrain. *)
Lemma wf_set_corrupt_records c s n : wf_state c s -> wf_state c (set_corrupt_records n s).
Proof. intros Hs. split; cbn; wf_keep Hs. Qed.
Lemma wf_set_v1_pruned c s b : wf_state c s -> wf_state c (set_v1_ack_history_pruned b s).
Proof. intros Hs. split; cbn; wf_keep Hs. Qed.

(** The expiry counter and the map of counted expirations change together. *)
Lemma wf_set_counted c s total counted :
  wf_state c s ->
  (forall seq sid, counted !! seq = Some sid -> 0 < seq < next_spool_sequence s) ->
  (forall r e sid, entries s !! r = Some e -> counted !! en_spool_seq e = Some sid ->
     sid = en_stable_record_id e) ->
  wf_state c (set_counted_pending_expirations counted (set_expired_records total s)).
Proof.
  intros Hs Hseq Hsid. split; cbn; wf_keep Hs; [|done].
  intros r e He. destruct (ws_entries _ _ Hs r e He). split; cbn; try done. eauto.
Qed.

Lemma wf_raise_next_receipt c s n :
  wf_state c s -> next_receipt_sequence s <= n <= U64_MAX -> wf_state c (set_next_receipt_sequence n s).
Proof.
  intros Hs Hn. pose proof (ws_next_receipt _ _ Hs). split; cbn; wf_keep Hs. lia.
Qed.
Lemma wf_set_next_receipt c s :
  wf_state c s -> next_receipt_sequence s < U64_MAX ->
  wf_state c (set_next_receipt_sequence (next_receipt_sequence s + 1) s).
Proof. intros Hs Hlt. apply wf_raise_next_receipt; [done|lia]. Qed.

Lemma wf_insert_receipt c s re :
  wf_state c s ->
  receipts s !! ar_batch_id (re_receipt re) = None ->
  0 <= ar_sequence (re_receipt re) < next_receipt_sequence s ->
  re_path re = SPath DReceipts (receipt_file_name (ar_sequence (re_receipt re)) (ar_batch_id (re_receipt re))) ->
  (forall n, n ∈ ar_accepted_gap_notice_ids (re_receipt re) -> accepted_notice s n) ->
  named (re_receipt re) ->
  wf_state c (set_receipts (<[ar_batch_id (re_receipt re) := re]> (receipts s)) s).
Proof.
  intros Hs Hnone Hseq Hpath Hn Hnm. split; cbn; wf_keep Hs.
  intros b re' [[<- <-]|[? Hre]]%lookup_insert_Some; [by split|].
  destruct (ws_receipts _ _ Hs _ _ Hre). by split.
Qed.

Lemma wf_delete_receipt c s b :
  wf_state c s -> wf_state c (set_receipts (delete b (receipts s)) s).
Proof.
  intros Hs. split; cbn; wf_keep Hs.
  intros b' re [_ Hre]%lookup_delete_Some. destruct (ws_receipts _ _ Hs _ _ Hre). by split.
Qed.

End Invariant.
