(* ===== verification/Config.v ===== *)
(** * Configuration ([src/config.rs])

    The configuration file, its validation and the checks on the secret files.
    TOML and the host's file metadata are parameters; the checks are the
    code's.  [initialize] and [rotate_receiver_token], which create the secret
    files, are in [Setup]. *)

From S2P Require Import Prelude Fs SpoolTypes SpoolInv.

Definition MAX_CONFIG_BYTES : Z := 1048576.
Definition MAX_SPOOL_BYTES : Z := 8 * 1024 * 1024 * 1024.
Definition MAX_SPOOL_RECORDS : Z := 1000000.
Definition MAX_RETENTION_SECONDS : Z := 30 * 24 * 60 * 60.
Definition MAX_BATCH_BYTES : Z := 4 * 1024 * 1024.
Definition MAX_BATCH_RECORDS : Z := 1024.

Inductive ConfigError :=
| InvalidToml
| UnsupportedConfigVersion
| InvalidPath
| UnsafeBind
| InvalidLimit
| MissingFile
| UnsafePermissions
| AlreadyInitialized
| ConfigIo.
#[global] Instance ConfigError_eq_dec : EqDecision ConfigError.
Proof. solve_decision. Defined.

(** ** Paths and addresses *)

(** A [PathBuf] is the list of its [std::path::Component]s: that is how it is
    compared, hashed, joined and walked. *)
Inductive Component :=
| RootDir
| CurDir
| ParentDir
| Normal (name : str).
#[global] Instance Component_eq_dec : EqDecision Component.
Proof. solve_decision. Defined.
Abbreviation Path := (list Component).

Definition is_absolute (p : Path) : bool :=
  match p with RootDir :: _ => true | _ => false end.
Definition join (p : Path) (name : str) : Path := p ++ [Normal name].
(** [Path::parent] *)
Definition parent (p : Path) : option Path :=
  match rev p with
  | [] | RootDir :: _ => None
  | _ :: rest => Some (rev rest)
  end.

Inductive IpAddr :=
| V4 (a b c d : Z)
| V6 (segments : list Z).
(** [IpAddr::is_loopback] *)
Definition is_loopback (ip : IpAddr) : bool :=
  match ip with
  | V4 a _ _ _ => a =? 127
  | V6 segments => bool_decide (segments = [0; 0; 0; 0; 0; 0; 0; 1])
  end.
Record SocketAddr := { sa_ip : IpAddr; sa_port : Z }.

(** ** The configuration *)

Record SpoolLimits := {
  sl_max_bytes : Z;
  sl_max_records : Z;
  sl_retention_seconds : Z;
  sl_batch_max_bytes : Z;
  sl_batch_max_records : Z;
}.

Record EdgeConfig := {
  cfg_version : Z;
  cfg_state_directory : Path;
  cfg_receiver_bind : SocketAddr;
  cfg_hub_bind : SocketAddr;
  cfg_allow_local_source_run_hub_loopback : bool;
  cfg_receiver_bearer_path : Path;
  cfg_spool_key_path : Path;
  cfg_credential_store_path : Path;
  cfg_hub_server_certificate_path : Path;
  cfg_hub_server_private_key_path : Path;
  cfg_hub_client_ca_path : Path;
  cfg_spool : SpoolLimits;
}.

Definition runtime_paths (c : EdgeConfig) : list Path :=
  [cfg_receiver_bearer_path c; cfg_spool_key_path c; cfg_credential_store_path c;
   cfg_hub_server_certificate_path c; cfg_hub_server_private_key_path c; cfg_hub_client_ca_path c].

(** [paths.any(|path| path == state_directory || !distinct.insert(path))] *)
Fixpoint repeats_or_is (state_directory : Path) (seen : list Path) (paths : list Path) : bool :=
  match paths with
  | [] => false
  | path :: paths' =>
      bool_decide (path = state_directory) || bool_decide (path ∈ seen)
      || repeats_or_is state_directory (path :: seen) paths'
  end.

(** [!(lo..=hi).contains(&v)] *)
Definition outside (lo hi v : Z) : bool := negb ((lo <=? v) && (v <=? hi)).

Definition validate_shape (c : EdgeConfig) : Result ConfigError unit :=
  if negb (cfg_version c =? 1) then Err UnsupportedConfigVersion
  else if negb (forallb is_absolute (cfg_state_directory c :: runtime_paths c)) then Err InvalidPath
  else if repeats_or_is (cfg_state_directory c) [] (runtime_paths c) then Err InvalidPath
  else
    let receiver := cfg_receiver_bind c in
    let hub := cfg_hub_bind c in
    if negb (is_loopback (sa_ip receiver))
       || negb (Bool.eqb (is_loopback (sa_ip hub)) (cfg_allow_local_source_run_hub_loopback c))
       || (sa_port receiver =? 0) || (sa_port hub =? 0) || (sa_port receiver =? sa_port hub)
    then Err UnsafeBind
    else
      let limits := cfg_spool c in
      if outside 1048576 MAX_SPOOL_BYTES (sl_max_bytes limits)
         || outside 1 MAX_SPOOL_RECORDS (sl_max_records limits)
         || outside 60 MAX_RETENTION_SECONDS (sl_retention_seconds limits)
         || outside 1 MAX_BATCH_BYTES (sl_batch_max_bytes limits)
         || outside 1 MAX_BATCH_RECORDS (sl_batch_max_records limits)
         || (sl_max_bytes limits <? sl_batch_max_bytes limits)
         || (sl_max_records limits <? sl_batch_max_records limits)
      then Err InvalidLimit
      else Ok tt.

(** The spool's configuration; its directory is [state_directory/spool]. *)
Definition spool_directory (c : EdgeConfig) : Path := join (cfg_state_directory c) (lit "spool").
Definition spool_config (c : EdgeConfig) : Result ConfigError SpoolConfig :=
  match u64_checked_mul (sl_retention_seconds (cfg_spool c)) 1000 ≫= i64_try_from with
  | None => Err InvalidLimit
  | Some retention_ms => Ok {|
      max_bytes := sl_max_bytes (cfg_spool c);
      max_records := sl_max_records (cfg_spool c);
      retention_ms := retention_ms;
      batch_max_bytes := sl_batch_max_bytes (cfg_spool c);
      batch_max_records := sl_batch_max_records (cfg_spool c) |}
  end.

(** [toml::from_str] *)
Class Toml := { toml_from_str : str -> option EdgeConfig }.

Definition from_toml `{Toml} (input : bytes) : Result ConfigError EdgeConfig :=
  if MAX_CONFIG_BYTES <? len input then Err InvalidToml
  else if negb (utf8_valid input) then Err InvalidToml
  else match toml_from_str input with
       | None => Err InvalidToml
       | Some config =>
           match validate_shape config with
           | Err e => Err e
           | Ok _ => Ok config
           end
       end.

(** ** Files on the host *)

Inductive FileKind := KRegular | KDirectory | KSymlink | KOther.
#[global] Instance FileKind_eq_dec : EqDecision FileKind.
Proof. solve_decision. Defined.
Record Meta := { md_kind : FileKind; md_len : Z; md_uid : Z; md_mode : Z }.

(** [fs::symlink_metadata], [fs::metadata] (which follows links) and
    [fs::read], as the host answers them. *)
Class Host := {
  symlink_metadata : Path -> Result IoError Meta;
  host_metadata : Path -> Result IoError Meta;
  host_read : Path -> Result IoError bytes;
}.

Section Files.
Context `{Host}.

(** A link that only root could have placed or can change. *)
Definition trusted_system_link (link parent : Meta) : bool :=
  (md_uid link =? 0) && (md_uid parent =? 0) && (Z.land (md_mode parent) 18 =? 0).

Fixpoint walk (current : Path) (rest : list Component) : Result ConfigError bool :=
  match rest with
  | [] => Ok false
  | component :: rest' =>
      if bool_decide (component = ParentDir) then Ok true
      else
        let current := current ++ [component] in
        match symlink_metadata current with
        | Ok link =>
            if bool_decide (md_kind link = KSymlink) then
              match parent current with
              | None => Err InvalidPath
              | Some parent =>
                  match host_metadata parent with
                  | Err _ => Err ConfigIo
                  | Ok parent_metadata =>
                      if trusted_system_link link parent_metadata then walk current rest' else Ok true
                  end
              end
            else walk current rest'
        | Err NotFound => walk current rest'
        | Err _ => Err ConfigIo
        end
  end.

Definition path_contains_symlink (path : Path) : Result ConfigError bool := walk [] path.

Definition validate_regular_file (path : Path) (private : bool) : Result ConfigError unit :=
  match path_contains_symlink path with
  | Err e => Err e
  | Ok true => Err InvalidPath
  | Ok false =>
      match host_metadata path with
      | Err _ => Err MissingFile
      | Ok metadata =>
          if negb (bool_decide (md_kind metadata = KRegular)) then Err InvalidPath
          else if private && negb (Z.land (md_mode metadata) 63 =? 0) then Err UnsafePermissions
          else Ok tt
      end
  end.

Fixpoint validate_all (files : list (Path * bool)) : Result ConfigError unit :=
  match files with
  | [] => Ok tt
  | (path, private) :: files' =>
      match validate_regular_file path private with
      | Err e => Err e
      | Ok _ => validate_all files'
      end
  end.

Definition validate_runtime_files (c : EdgeConfig) : Result ConfigError unit :=
  validate_all
    [(cfg_receiver_bearer_path c, true); (cfg_spool_key_path c, true);
     (cfg_credential_store_path c, true); (cfg_hub_server_private_key_path c, true);
     (cfg_hub_server_certificate_path c, false); (cfg_hub_client_ca_path c, false)].

Definition load `{Toml} (path : Path) : Result ConfigError EdgeConfig :=
  if negb (is_absolute path) then Err InvalidPath
  else match path_contains_symlink path with
  | Err e => Err e
  | Ok true => Err InvalidPath
  | Ok false =>
      match host_metadata path with
      | Err _ => Err MissingFile
      | Ok metadata =>
          if negb (bool_decide (md_kind metadata = KRegular)) || (MAX_CONFIG_BYTES <? md_len metadata)
          then Err InvalidPath
          else match host_read path with
               | Err _ => Err ConfigIo
               | Ok contents => from_toml contents
               end
      end
  end.

(** ** What the checks establish *)

(** No component leaves the path upwards, and every symbolic link on the way
    is a trusted system link. *)
Definition safe_prefix (current : Path) : Prop :=
  forall link, symlink_metadata current = Ok link -> md_kind link = KSymlink ->
  exists up up_metadata, parent current = Some up /\ host_metadata up = Ok up_metadata /\
    trusted_system_link link up_metadata = true.
Definition safe_path (path : Path) : Prop :=
  (ParentDir ∉ path) /\
  forall current rest, path = current ++ rest -> current <> [] -> safe_prefix current.

Lemma walk_safe rest current :
  walk current rest = Ok false ->
  (ParentDir ∉ rest) /\ forall pre post, rest = pre ++ post -> pre <> [] -> safe_prefix (current ++ pre).
Proof.
  revert current. induction rest as [|c rest IH]; intros current Hw; cbn [walk] in Hw.
  { split; [set_solver|]. intros [] post; done. }
  case_bool_decide as Hc; [done|].
  assert (Hnext : walk (current ++ [c]) rest = Ok false /\ safe_prefix (current ++ [c])).
  { destruct (symlink_metadata (current ++ [c])) as [link|[]] eqn:El; try done.
    - case_bool_decide as Hk.
      + destruct (parent (current ++ [c])) as [up|] eqn:Eu; [|done].
        destruct (host_metadata up) as [um|] eqn:Em; [|done].
        destruct (trusted_system_link link um) eqn:Et; [|done]. split; [done|].
        intros link' [= <-]%(eq_trans (eq_sym El)) _. by exists up, um.
      + split; [done|]. intros link' [= <-]%(eq_trans (eq_sym El)). done.
    - split; [done|]. intros link'. by rewrite El. }
  destruct Hnext as [Hw' Hsafe]. destruct (IH _ Hw') as [Hnp Hpre]. split; [set_solver|].
  intros [|c' pre] post E Hne; [done|]. injection E as <- E.
  destruct pre as [|c' pre]; [done|]. specialize (Hpre (c' :: pre) post E ltac:(done)).
  by rewrite <-app_assoc in Hpre.
Qed.

Lemma path_contains_symlink_safe path : path_contains_symlink path = Ok false -> safe_path path.
Proof. intros Hw%walk_safe. exact Hw. Qed.

Lemma validate_regular_file_ok path private :
  validate_regular_file path private = Ok tt ->
  safe_path path /\ exists metadata, host_metadata path = Ok metadata /\ md_kind metadata = KRegular /\
    (private = true -> Z.land (md_mode metadata) 63 = 0).
Proof.
  unfold validate_regular_file. destruct (path_contains_symlink path) as [[]|] eqn:Ep; try done.
  destruct (host_metadata path) as [metadata|] eqn:Em; [|done].
  case_bool_decide as Hk; cbn [negb]; [|done]. intros Hp. split; [by apply path_contains_symlink_safe|].
  exists metadata. split_and!; try done. intros ->. destruct (Z.land _ _ =? 0) eqn:E; [lia|done].
Qed.

Lemma validate_all_ok files path private :
  validate_all files = Ok tt -> (path, private) ∈ files -> validate_regular_file path private = Ok tt.
Proof.
  induction files as [|[p b] files IH]; cbn; [set_solver|].
  destruct (validate_regular_file p b) as [[]|] eqn:E; [|done].
  intros Hv [[= -> ->]|Hin]%elem_of_cons; [done|by apply IH].
Qed.

(** When the runtime files pass, every secret is a regular file that group
    and others cannot read or write, and no path to a runtime file climbs with
    [..] or crosses a symbolic link that anyone but root could have placed. *)
Theorem secret_files_private c path :
  validate_runtime_files c = Ok tt ->
  (path ∈ runtime_paths c -> safe_path path /\ exists m, host_metadata path = Ok m /\ md_kind m = KRegular) /\
  (path ∈ [cfg_receiver_bearer_path c; cfg_spool_key_path c; cfg_credential_store_path c;
           cfg_hub_server_private_key_path c] ->
   exists m, host_metadata path = Ok m /\ Z.land (md_mode m) 63 = 0).
Proof.
  intros Hv. pose proof (fun path private => validate_all_ok _ path private Hv) as Hall. split; intros Hin.
  - assert (exists private, validate_regular_file path private = Ok tt) as [private Hf].
    { unfold runtime_paths in Hin. set_unfold in Hin.
      destruct Hin as [->|[->|[->|[->|[->|[->|[]]]]]]]; eexists; apply Hall; repeat constructor. }
    apply validate_regular_file_ok in Hf as (Hs & m & Hm & Hk & _). eauto.
  - assert (validate_regular_file path true = Ok tt) as Hf.
    { set_unfold in Hin. destruct Hin as [->|[->|[->|[->|[]]]]]; apply Hall; repeat constructor. }
    apply validate_regular_file_ok in Hf as (_ & m & Hm & _ & Hp). eauto.
Qed.

End Files.

Lemma repeats_or_is_false dir seen paths :
  repeats_or_is dir seen paths = false ->
  (dir ∉ paths) /\ NoDup paths /\ forall p, p ∈ paths -> p ∉ seen.
Proof.
  revert seen. induction paths as [|p paths IH]; intros seen; cbn.
  { intros _. split_and!; [set_solver|constructor|set_solver]. }
  rewrite !orb_false_iff, !bool_decide_eq_false. intros [[Hd Hs] Hr].
  destruct (IH _ Hr) as (H1 & H2 & H3). split_and!.
  - set_solver.
  - constructor; [|done]. intros Hin. apply (H3 p Hin). set_solver.
  - intros q [->|Hq]%elem_of_cons; [done|]. intros ?. apply (H3 q Hq). set_solver.
Qed.

(** The limits a configuration may set: between 1 MiB and 8 GiB of records,
    at most a million of them, kept for a minute to thirty days, delivered in
    batches of at most 4 MiB and 1024 records that fit the spool. *)
Record limits_within (l : SpoolLimits) : Prop := {
  lw_bytes : 1048576 <= sl_max_bytes l <= 8589934592;
  lw_records : 1 <= sl_max_records l <= 1000000;
  lw_retention : 60 <= sl_retention_seconds l <= 2592000;
  lw_batch_bytes : 1 <= sl_batch_max_bytes l <= 4194304 /\ sl_batch_max_bytes l <= sl_max_bytes l;
  lw_batch_records : 1 <= sl_batch_max_records l <= 1024 /\ sl_batch_max_records l <= sl_max_records l;
}.

(** C37: a configuration that is accepted is version 1 and has every limit
    within its range; it yields a spool configuration with those limits, which
    [Spool::open] accepts and which satisfies every bound the spool theorems
    assume.  Its receiver listens on loopback only, the Hub listener is on
    loopback exactly when that was asked for, the ports are not zero and
    differ, and the state
    directory and the six runtime files are seven distinct absolute paths. *)
Theorem accepted_config `{Toml} input c :
  from_toml input = Ok c ->
  cfg_version c = 1 /\ limits_within (cfg_spool c) /\
  (exists sc, spool_config c = Ok sc /\ validate_config sc = Ok tt /\ wf_config sc /\
     max_bytes sc = sl_max_bytes (cfg_spool c) /\ max_records sc = sl_max_records (cfg_spool c) /\
     retention_ms sc = 1000 * sl_retention_seconds (cfg_spool c) /\
     batch_max_bytes sc = sl_batch_max_bytes (cfg_spool c) /\
     batch_max_records sc = sl_batch_max_records (cfg_spool c)) /\
  is_loopback (sa_ip (cfg_receiver_bind c)) = true /\
  is_loopback (sa_ip (cfg_hub_bind c)) = cfg_allow_local_source_run_hub_loopback c /\
  sa_port (cfg_receiver_bind c) <> 0 /\ sa_port (cfg_hub_bind c) <> 0 /\
  sa_port (cfg_receiver_bind c) <> sa_port (cfg_hub_bind c) /\
  NoDup (cfg_state_directory c :: runtime_paths c) /\
  Forall (fun p => is_absolute p = true) (cfg_state_directory c :: runtime_paths c).
Proof.
  unfold from_toml. destruct (_ <? _); [done|]. destruct (negb _); [done|].
  destruct (toml_from_str input) as [c'|]; [|done].
  destruct (validate_shape c') as [[]|] eqn:Hv; [|done]. intros [= ->].
  unfold validate_shape in Hv.
  destruct (negb (cfg_version c =? 1)) eqn:Hver; [done|].
  destruct (forallb is_absolute _) eqn:Habs; cbn [negb] in Hv; [|done].
  destruct (repeats_or_is _ _ _) eqn:Hrep; [done|].
  destruct (negb (is_loopback (sa_ip (cfg_receiver_bind c))) || _ || _ || _ || _) eqn:Hbind; [done|].
  destruct (outside _ _ (sl_max_bytes _) || _ || _ || _ || _ || _ || _) eqn:Hlim; [done|].
  rewrite !orb_false_iff, !negb_false_iff in Hbind. destruct Hbind as [[[[Hrl Hhl] Hp1] Hp2] Hports].
  apply Bool.eqb_prop in Hhl. apply repeats_or_is_false in Hrep as (Hdir & Hnd & _).
  unfold outside in Hlim. rewrite !orb_false_iff, !negb_false_iff, !andb_true_iff in Hlim.
  unfold MAX_SPOOL_BYTES, MAX_SPOOL_RECORDS, MAX_RETENTION_SECONDS, MAX_BATCH_BYTES, MAX_BATCH_RECORDS in Hlim.
  split_and!; try done; try lia; [by split; lia| |by constructor|].
  2:{ apply List.Forall_forall. intros x Hx. exact (proj1 (List.forallb_forall _ _) Habs x Hx). }
  - unfold spool_config, u64_checked_mul. rewrite (proj2 (Z.leb_le _ _)) by (unfold U64_MAX; lia). cbn.
    unfold i64_try_from. rewrite (proj2 (andb_true_iff _ _)) by (unfold I64_MIN, I64_MAX; lia).
    eexists. split; [done|]. cbn. split_and!; [|split; cbn; unfold U64_MAX, I64_MAX; lia|lia..].
    unfold validate_config. cbn. destruct (_ || _) eqn:E; [|done]. lia.
Qed.
