(* ===== verification/Credentials.v ===== *)
(** * Hub credentials ([src/credentials.rs])

    The credential store is one JSON file, replaced atomically by every
    mutation and read afresh by every verification.  Base64, UUID text and
    JSON are parameters.  The disk holds the files of the store's directory by
    name; the process-wide mutex is implicit (methods run one at a time), the
    advisory lock of the sidecar file is a system call that may fail. *)

From S2P Require Import Prelude Protocol Fs Config.

Definition STORE_VERSION : Z := 1.
Definition MAX_TTL_MS : Z := 366 * 24 * 60 * 60 * 1000.
Definition MAX_ROTATION_OVERLAP_MS : Z := 24 * 60 * 60 * 1000.
Definition MAX_STORE_BYTES : Z := 1048576.

Inductive CredentialError :=
| CredInvalidPath
| InvalidLabel
| InvalidLifetime
| InvalidOverlap
| UnknownCredential
| InactiveCredential
| InvalidStore
| CredIo.
#[global] Instance CredentialError_eq_dec : EqDecision CredentialError.
Proof. solve_decision. Defined.

(** A [Uuid] is its sixteen bytes. *)
Record Uuid := UuidOf { uuid_bytes : bytes }.
#[global] Instance Uuid_eq_dec : EqDecision Uuid.
Proof. solve_decision. Defined.

Record StoredCredential := {
  sc_id : Uuid;
  sc_label : str;
  sc_secret_digest : str;
  sc_created_at_ms : Z;
  sc_expires_at_ms : Z;
  sc_valid_until_ms : option Z;
  sc_revoked_at_ms : option Z;
  sc_rotation_of : option Uuid;
}.
Record CredentialFile := { cf_version : Z; cf_credentials : list StoredCredential }.

Record IssuedCredential := { ic_credential_id : str; ic_token : str; ic_secret_component : str }.
Record IssuedPair := { ip_stored : StoredCredential; ip_public : IssuedCredential }.
Record ParsedToken := { pt_id : Uuid; pt_secret : bytes }.
Record CredentialSummary := {
  cs_credential_id : str;
  cs_label : str;
  cs_created_at_ms : Z;
  cs_expires_at_ms : Z;
  cs_valid_until_ms : option Z;
  cs_revoked_at_ms : option Z;
}.

(** [Option::is_none_or] *)
Definition is_none_or {A} (p : A -> bool) (o : option A) : bool :=
  match o with None => true | Some a => p a end.

Definition active_at (c : StoredCredential) (now_ms : Z) : bool :=
  (sc_created_at_ms c <=? now_ms)
  && (now_ms <? sc_expires_at_ms c)
  && is_none_or (fun until => now_ms <? until) (sc_valid_until_ms c)
  && is_none_or (fun revoked => now_ms <? revoked) (sc_revoked_at_ms c).

(** [label.chars().any(char::is_control)] on UTF-8: U+0000 to U+001F, U+007F
    and U+0080 to U+009F. *)
Fixpoint has_control (s : str) : bool :=
  match s with
  | [] => false
  | b :: s' =>
      (byteZ b <? 32) || (byteZ b =? 127)
      || ((byteZ b =? 194) && match s' with c :: _ => byte_between 128 159 c | [] => false end)
      || has_control s'
  end.

Definition validate_label (label : str) : Result CredentialError unit :=
  if negb (outside 1 64 (len label)) && negb (has_control label) then Ok tt else Err InvalidLabel.
Definition validate_ttl (ttl_ms : Z) : Result CredentialError unit :=
  if negb (outside 1000 MAX_TTL_MS ttl_ms) then Ok tt else Err InvalidLifetime.

(** Third-party encodings, and the kernel's view of the lock file: whether the
    opened inode is the one its path names, has a single link and a private
    mode. *)
Class CredentialEnv := {
  cred_sha256 :: Sha256;
  cred_oracle :: Oracle;
  cred_serde :: Serde CredentialFile;
  base64_encode : bytes -> str;
  base64_decode : str -> option bytes;
  uuid_to_string : Uuid -> str;
  uuid_parse_str : str -> option Uuid;
  lock_inode_ok : nat -> bool;
}.

Definition DOT : byte := x2e.

Class CredentialLaws {X : CredentialEnv} := {
  cred_serde_laws :: SerdeLaws CredentialFile;
  base64_roundtrip : forall b, base64_decode (base64_encode b) = Some b;
  base64_no_dot : forall b, DOT ∉ base64_encode b;
  uuid_roundtrip : forall u, uuid_parse_str (uuid_to_string u) = Some u;
  uuid_no_dot : forall u, DOT ∉ uuid_to_string u;
}.

(** [Path::file_name] *)
Definition file_name (p : Path) : option str :=
  match rev p with Normal name :: _ => Some name | _ => None end.

Section Store.
Context {X : CredentialEnv}.
Variable path : Path.

Definition CredM (A : Type) : Type := M (Os str) CredentialError A.
(** [call().map_err(|_| CredentialError::Io)?] *)
Definition cio {A} (m : M (Os str) IoError A) : CredM A :=
  fun o => let (r, o') := m o in (match r with Ok a => Ok a | Err _ => Err CredIo end, o').
Definition cio_catch {A} (m : M (Os str) IoError A) : CredM (Result IoError A) :=
  fun o => let (r, o') := m o in (Ok r, o').

(** ** Tokens *)

Definition digest_secret (id : Uuid) (secret : bytes) : str :=
  hex_encode (sha256 (lit "teslatlas-edge-hub-credential-v1" ++ NUL ++ uuid_bytes id ++ NUL ++ secret)).

Definition token_parse (token : str) : option ParsedToken :=
  match split DOT token with
  | [tag; id_text; secret_text] =>
      if negb (bool_decide (tag = lit "tte1")) then None
      else match uuid_parse_str id_text with
      | None => None
      | Some id =>
          match base64_decode secret_text with
          | None => None
          | Some decoded =>
              if len decoded =? 32 then Some {| pt_id := id; pt_secret := decoded |} else None
          end
      end
  | _ => None
  end.

Definition issue (label : str) (rotation_of : option Uuid) (now_ms ttl_ms : Z) : CredM IssuedPair :=
  let! id_bytes := cio (draw_bytes 16) in
  let! secret := cio (draw_bytes 32) in
  let id := UuidOf id_bytes in
  let secret_component := base64_encode secret in
  let token := lit "tte1." ++ uuid_to_string id ++ [DOT] ++ secret_component in
  ret {|
    ip_stored := {|
      sc_id := id;
      sc_label := label;
      sc_secret_digest := digest_secret id secret;
      sc_created_at_ms := now_ms;
      sc_expires_at_ms := i64_saturating_add now_ms ttl_ms;
      sc_valid_until_ms := None;
      sc_revoked_at_ms := None;
      sc_rotation_of := rotation_of |};
    ip_public := {|
      ic_credential_id := uuid_to_string id;
      ic_token := token;
      ic_secret_component := secret_component |} |}.

(** ** The file *)

(** [credentials.iter().any(|c| !ids.insert(c.id) || ..)] *)
Fixpoint any_invalid (ids : list Uuid) (credentials : list StoredCredential) : bool :=
  match credentials with
  | [] => false
  | c :: rest =>
      bool_decide (sc_id c ∈ ids)
      || match validate_label (sc_label c) with Err _ => true | Ok _ => false end
      || (sc_expires_at_ms c <=? sc_created_at_ms c)
      || negb (len (sc_secret_digest c) =? 64)
      || negb (forallb is_lower_hex (sc_secret_digest c))
      || any_invalid (sc_id c :: ids) rest
  end.

(** What [load] makes of the bytes of the file. *)
Definition check_store (bytes : bytes) : Result CredentialError CredentialFile :=
  if MAX_STORE_BYTES <? len bytes then Err InvalidStore
  else match from_slice bytes with
       | None => Err InvalidStore
       | Some file =>
           if negb (cf_version file =? STORE_VERSION) then Err InvalidStore
           else if any_invalid [] (cf_credentials file) then Err InvalidStore
           else Ok file
       end.

(** [fs::read(self.path)]: the file of that name in the store's directory. *)
Definition store_name : str := default [] (file_name path).
Definition load : CredM CredentialFile :=
  let! bytes := cio (read store_name) in
  of_result (check_store bytes).

Definition save (file : CredentialFile) : CredM unit :=
  let! bytes := ok_or (to_vec file) InvalidStore in
  let! name := ok_or (file_name path) CredInvalidPath in
  throw_if (negb (utf8_valid name)) CredInvalidPath ;;
  let! u := cio draw_uuid in
  let temporary := [DOT] ++ name ++ [DOT] ++ u ++ lit ".tmp" in
  cio (create_new temporary) ;;
  cio (write_all temporary bytes) ;;
  cio sync_all ;;
  cio (rename temporary name) ;;
  cio set_permissions ;;
  cio sync_all.

Definition lock_mutations : CredM unit :=
  let! name := ok_or (file_name path) CredInvalidPath in
  let lock_path := [DOT] ++ name ++ lit ".lock" in
  let! created := cio_catch (create_new lock_path) in
  match created with
  | Ok _ => ret tt
  | Err AlreadyExists =>
      let! metadata := cio (metadata lock_path) in
      throw_if (negb (is_file metadata)) CredInvalidPath ;;
      cio (open_existing lock_path)
  | Err _ => fail CredIo
  end ;;
  let! metadata_of_file := cio (metadata lock_path) in
  let! path_metadata := cio (metadata lock_path) in
  throw_if (negb (is_file metadata_of_file) || negb (is_file path_metadata)) CredInvalidPath ;;
  let! inode_ok := fun o => (Ok (lock_inode_ok (os_tick o)), o) in
  throw_if (negb inode_ok) CredInvalidPath ;;
  cio sync_all.

Definition open_store : CredM unit :=
  throw_if (negb (is_absolute path)) CredInvalidPath ;;
  match parent path with Some _ => cio create_dir_all | None => ret tt end ;;
  lock_mutations ;;
  let! present := cio (path_exists store_name) in
  if present : bool then load ;; ret tt
  else save {| cf_version := STORE_VERSION; cf_credentials := [] |}.

(** ** Operations *)

Definition find_credential (id : Uuid) (l : list StoredCredential) : option StoredCredential :=
  List.find (fun c => bool_decide (sc_id c = id)) l.
(** Writing through the reference [iter_mut().find(..)] returned. *)
Fixpoint update_credential (id : Uuid) (f : StoredCredential -> StoredCredential)
    (l : list StoredCredential) : list StoredCredential :=
  match l with
  | [] => []
  | c :: l' => if bool_decide (sc_id c = id) then f c :: l' else c :: update_credential id f l'
  end.

Definition set_credentials (l : list StoredCredential) (file : CredentialFile) : CredentialFile :=
  {| cf_version := cf_version file; cf_credentials := l |}.

Definition enrol (label : str) (now_ms ttl_ms : Z) : CredM IssuedCredential :=
  of_result (validate_label label) ;;
  of_result (validate_ttl ttl_ms) ;;
  lock_mutations ;;
  let! file := load in
  let! issued := issue label None now_ms ttl_ms in
  save (set_credentials (cf_credentials file ++ [ip_stored issued]) file) ;;
  ret (ip_public issued).

Definition end_validity (until : Z) (c : StoredCredential) : StoredCredential := {|
  sc_id := sc_id c;
  sc_label := sc_label c;
  sc_secret_digest := sc_secret_digest c;
  sc_created_at_ms := sc_created_at_ms c;
  sc_expires_at_ms := sc_expires_at_ms c;
  sc_valid_until_ms := Some (Z.min until (sc_expires_at_ms c));
  sc_revoked_at_ms := sc_revoked_at_ms c;
  sc_rotation_of := sc_rotation_of c;
|}.

Definition rotate (credential_id : str) (now_ms overlap_ms ttl_ms : Z) : CredM IssuedCredential :=
  of_result (validate_ttl ttl_ms) ;;
  throw_if (outside 0 MAX_ROTATION_OVERLAP_MS overlap_ms) InvalidOverlap ;;
  let! id := ok_or (uuid_parse_str credential_id) UnknownCredential in
  lock_mutations ;;
  let! file := load in
  let! old := ok_or (find_credential id (cf_credentials file)) UnknownCredential in
  throw_if (negb (active_at old now_ms)) InactiveCredential ;;
  let! issued := issue (sc_label old) (Some (sc_id old)) now_ms ttl_ms in
  save (set_credentials
    (update_credential id (end_validity (i64_saturating_add now_ms overlap_ms)) (cf_credentials file)
     ++ [ip_stored issued]) file) ;;
  ret (ip_public issued).

Definition end_by_revocation (now_ms : Z) (c : StoredCredential) : StoredCredential := {|
  sc_id := sc_id c;
  sc_label := sc_label c;
  sc_secret_digest := sc_secret_digest c;
  sc_created_at_ms := sc_created_at_ms c;
  sc_expires_at_ms := sc_expires_at_ms c;
  sc_valid_until_ms := sc_valid_until_ms c;
  sc_revoked_at_ms := Some (match sc_revoked_at_ms c with
                            | None => now_ms
                            | Some existing => Z.min existing now_ms
                            end);
  sc_rotation_of := sc_rotation_of c;
|}.

Definition revoke (credential_id : str) (now_ms : Z) : CredM unit :=
  let! id := ok_or (uuid_parse_str credential_id) UnknownCredential in
  lock_mutations ;;
  let! file := load in
  ok_or (find_credential id (cf_credentials file)) UnknownCredential ;;
  save (set_credentials (update_credential id (end_by_revocation now_ms) (cf_credentials file)) file).

Definition verify (token : str) (now_ms : Z) : CredM bool :=
  match token_parse token with
  | None => ret false
  | Some parsed =>
      let! file := load in
      match find_credential (pt_id parsed) (cf_credentials file) with
      | None => ret false
      | Some credential =>
          if negb (active_at credential now_ms) then ret false
          else
            let expected := digest_secret (sc_id credential) (pt_secret parsed) in
            ret ((len expected =? len (sc_secret_digest credential))
                 && bool_decide (expected = sc_secret_digest credential))
      end
  end.

Definition list_credentials : CredM (list CredentialSummary) :=
  let! file := load in
  ret (map (fun c => {|
    cs_credential_id := uuid_to_string (sc_id c);
    cs_label := sc_label c;
    cs_created_at_ms := sc_created_at_ms c;
    cs_expires_at_ms := sc_expires_at_ms c;
    cs_valid_until_ms := sc_valid_until_ms c;
    cs_revoked_at_ms := sc_revoked_at_ms c |}) (cf_credentials file)).

End Store.
