(* ===== verification/CredentialFacts.v ===== *)
(** * What the credential store guarantees

    Verification is sound and complete for what the file holds, an issued
    token verifies for its lifetime, rotation ends the old token, and a
    revocation is final through any later operations and storage faults. *)

From S2P Require Import Prelude Protocol Fs Config Credentials.

Section Facts.
Context {X : CredentialEnv} (path : Path).
Abbreviation name := (store_name path).

(** ** What an operation does to the file of the store *)

(** Every exit of [m] leaves the store as it was. *)
Definition leaves {A} (m : CredM A) : Prop := forall o, os_disk (m o).2 !! name = os_disk o !! name.

Lemma leaves_bind {A B} (m : CredM A) (k : A -> CredM B) :
  leaves m -> (forall a, leaves (k a)) -> leaves (bind m k).
Proof.
  intros Hm Hk o. unfold bind. specialize (Hm o). destruct (m o) as [[a|e] o']; cbn in *; [|done].
  by rewrite Hk.
Qed.
Lemma leaves_query {A} (f : gmap str Node -> Result IoError A) : leaves (cio (query f)).
Proof. intros o. unfold cio, query, syscall, untouched. by destruct (fault (os_tick o)). Qed.
Lemma leaves_query_at {A} (g : Os str -> gmap str Node -> Result IoError A) :
  leaves (cio (fun o => query (g o) o)).
Proof. intros o. unfold cio, query, syscall, untouched. by destruct (fault (os_tick o)). Qed.
Lemma leaves_path_exists p : leaves (cio (path_exists p)).
Proof.
  intros o. unfold cio, path_exists, bind, catch, metadata, query, syscall, untouched.
  by destruct (fault (os_tick o)).
Qed.
Lemma leaves_create_new p : p <> name -> leaves (cio_catch (create_new p)).
Proof.
  intros Hp o. unfold cio_catch, create_new, syscall, untouched. destruct (fault (os_tick o)); [done|].
  destruct (os_disk o !! p); cbn; [done|]. by rewrite lookup_insert_ne.
Qed.
Lemma leaves_pure {A} (f : Os str -> Result CredentialError A) : leaves (fun o => (f o, o)).
Proof. done. Qed.
Lemma leaves_draw n : leaves (cio (draw_bytes n)).
Proof. done. Qed.

Lemma name_shorter n suffix : file_name path = Some n -> [DOT] ++ n ++ suffix <> name.
Proof.
  intros Hn E. unfold store_name in E. rewrite Hn in E. cbn in E.
  apply (f_equal length) in E. cbn in E. rewrite length_app in E. lia.
Qed.

Lemma leaves_load : leaves (load path).
Proof. apply leaves_bind; [apply leaves_query|intros; apply leaves_pure]. Qed.

Lemma leaves_ok_or {A B} (x : option A) e (k : A -> CredM B) :
  (forall a, x = Some a -> leaves (k a)) -> leaves (bind (ok_or x e) k).
Proof. intros Hk o. unfold bind, ok_or. destruct x; [by apply Hk|done]. Qed.

Lemma leaves_lock_mutations : leaves (lock_mutations path).
Proof.
  unfold lock_mutations. apply leaves_ok_or. intros n Hn.
  apply leaves_bind; [apply leaves_create_new, (name_shorter n _ Hn)|]. intros created.
  apply leaves_bind.
  { destruct created as [u|[]]; try apply leaves_pure.
    apply leaves_bind; [apply leaves_query|]. intros m.
    apply leaves_bind; [apply leaves_pure|]. intros _. apply leaves_query. }
  intros _. do 2 (apply leaves_bind; [apply leaves_query|intros ?]).
  do 3 (apply leaves_bind; [apply leaves_pure|intros ?]). apply leaves_query.
Qed.

Lemma wp_cio {A} (m : M (Os str) IoError A) (Q : Result CredentialError A -> Os str -> Prop) o :
  wp m (fun r o' => Q (match r with Ok a => Ok a | Err _ => Err CredIo end) o') o -> wp (cio m) Q o.
Proof. unfold wp, cio. by destruct (m o). Qed.

(** A save keeps the old contents or has put the new ones in place. *)
Lemma save_outcome file o :
  wp (save path file) (fun r o' =>
    (r <> Ok tt /\ os_disk o' !! name = os_disk o !! name) \/
    (exists b, to_vec file = Some b /\ os_disk o' !! name = Some (File b))) o.
Proof.
  unfold save. wp_step. wp_step; [|by left]. rename a into b. wp_step. wp_step; [|by left].
  rename a into n. wp_step. wp_step; [by left|]. wp_step. apply wp_cio. unfold draw_uuid, wp at 1. cbn -[wp].
  set (temp := DOT :: _). assert (Hne : temp <> name) by (by apply name_shorter).
  assert (Hname : n = name) by (unfold store_name; by rewrite H0). clearbody temp.
  wp_step. apply wp_cio, wp_syscall; [by left|]. intros _. cbn -[wp].
  destruct (os_disk o !! temp) eqn:Et; cbn -[wp]; [by left|].
  wp_step. apply wp_cio, wp_syscall; cbn -[wp]; [intros; left; by rewrite !lookup_insert_ne|]. intros _.
  wp_step. apply wp_cio, wp_query. intros r _. cbn -[wp].
  destruct r; [|left; by rewrite !lookup_insert_ne].
  wp_step. apply wp_cio, wp_syscall; cbn -[wp]; [intros; left; by rewrite !lookup_insert_ne|]. intros _.
  rewrite lookup_insert_eq. subst n. rewrite !(lookup_insert_ne _ temp) by done.
  assert (Hput : forall d : gmap str Node, <[name := File b]> d !! name = Some (File b))
    by (intros; apply lookup_insert_eq).
  destruct (os_disk o !! name) as [[]|] eqn:Eo; cbn -[wp];
    [|left; by rewrite !lookup_insert_ne|];
    (wp_step; apply wp_cio, wp_query; cbn -[wp]; intros [] _; [|right; by exists b];
     apply wp_cio, wp_query; cbn -[wp]; intros r _; right; by exists b).
Qed.

(** ** What an operation does to the other files of the directory *)

(** The node [n] becomes: the same, except that the store may get new contents. *)
Definition spared (n : str) (node : Node) (d : gmap str Node) : Prop :=
  d !! n = Some node \/ (n = name /\ is_file node = true /\ exists b, d !! n = Some (File b)).
Definition spares {A} (m : CredM A) : Prop := forall o n node,
  os_disk o !! n = Some node -> spared n node (os_disk (m o).2).

Lemma spares_same {A} (m : CredM A) : (forall o n node, os_disk o !! n = Some node -> os_disk (m o).2 !! n = Some node) -> spares m.
Proof. intros Hm o n node Ho. left. by apply Hm. Qed.
Lemma spares_bind {A B} (m : CredM A) (k : A -> CredM B) :
  spares m -> (forall a, spares (k a)) -> spares (bind m k).
Proof.
  intros Hm Hk o n node Ho. unfold bind. specialize (Hm o n node Ho).
  destruct (m o) as [[a|e] o']; cbn in *; [|done]. destruct Hm as [Ho'|(-> & Hf & b & Ho')]; [by apply Hk|].
  right. split_and!; [done..|]. destruct (Hk a o' _ _ Ho') as [?|(_ & _ & b' & ?)]; eauto.
Qed.
Lemma spares_query {A} (f : gmap str Node -> Result IoError A) : spares (cio (query f)).
Proof. apply spares_same. intros o n node Ho. unfold cio, query, syscall, untouched. by destruct (fault (os_tick o)). Qed.
Lemma spares_pure {A} (f : Os str -> Result CredentialError A) : spares (fun o => (f o, o)).
Proof. by apply spares_same. Qed.
Lemma spares_create_new p : spares (cio_catch (create_new p)).
Proof.
  apply spares_same. intros o n node Ho. unfold cio_catch, create_new, syscall, untouched. destruct (fault (os_tick o)); [done|].
  destruct (os_disk o !! p) eqn:Ep; cbn; [done|]. rewrite lookup_insert_ne; [done|]. intros ->. congruence.
Qed.

Lemma spares_lock_mutations : spares (lock_mutations path).
Proof.
  unfold lock_mutations. apply spares_bind; [apply (spares_pure (fun _ => _))|]. intros n.
  apply spares_bind; [apply spares_create_new|]. intros created. apply spares_bind.
  { destruct created as [u|[]]; try apply (spares_pure (fun _ => _)).
    apply spares_bind; [apply spares_query|]. intros m.
    apply spares_bind; [apply (spares_pure (fun _ => _))|]. intros _. apply spares_query. }
  intros _. do 2 (apply spares_bind; [apply spares_query|intros ?]).
  do 3 (apply spares_bind; [apply spares_pure|intros ?]). apply spares_query.
Qed.

Lemma spares_save file : spares (save path file).
Proof.
  intros o n node Ho. change (wp (save path file) (fun _ o' => spared n node (os_disk o')) o).
  unfold save. wp_step. wp_step; [|by left]. rename a into b. wp_step. wp_step; [|by left].
  rename a into stem. wp_step. wp_step; [by left|]. wp_step. apply wp_cio. unfold draw_uuid, wp at 1. cbn -[wp].
  set (temp := DOT :: _). assert (Hname : stem = name) by (unfold store_name; by rewrite H0). clearbody temp. subst stem.
  wp_step. apply wp_cio, wp_syscall; [by left|]. intros _. cbn -[wp].
  destruct (os_disk o !! temp) eqn:Et; cbn -[wp]; [by left|].
  assert (Hne : temp <> n) by congruence.
  wp_step. apply wp_cio, wp_syscall; cbn -[wp]; [intros; left; by rewrite !lookup_insert_ne|]. intros _.
  wp_step. apply wp_cio, wp_query. intros r _. cbn -[wp].
  destruct r; [|left; by rewrite !lookup_insert_ne].
  wp_step. apply wp_cio, wp_syscall; cbn -[wp]; [intros; left; by rewrite !lookup_insert_ne|]. intros _.
  rewrite lookup_insert_eq. set (d := <[temp := File b]> _).
  assert (Hd : d !! n = Some node) by (unfold d; by rewrite !lookup_insert_ne). clearbody d.
  assert (Hput : (forall size, d !! name <> Some (Special size)) -> spared n node (<[name := File b]> (delete temp d))).
  { intros Hsp. destruct (decide (n = name)) as [->|]; [|left; by rewrite lookup_insert_ne, lookup_delete_ne].
    right. rewrite lookup_insert_eq. split_and!; eauto. destruct node as [|size]; [done|]. by destruct (Hsp size). }
  destruct (d !! name) as [[|size]|] eqn:Eo; cbn -[wp]; [|by left|];
    (wp_step; apply wp_cio, wp_query; cbn -[wp]; intros r1 _; destruct r1; cbn -[wp];
     [apply wp_cio, wp_query; cbn -[wp]; intros r2 _|]; apply Hput; congruence).
Qed.

Lemma spares_open_store : spares (open_store path).
Proof.
  unfold open_store. apply spares_bind; [apply (spares_pure (fun _ => _))|]. intros _.
  apply spares_bind; [destruct (parent path); [apply spares_query|apply (spares_pure (fun _ => _))]|]. intros _.
  apply spares_bind; [apply spares_lock_mutations|]. intros _.
  apply spares_bind.
  { apply spares_same. intros o n node Ho. unfold cio, path_exists, bind, catch, metadata, query, syscall, untouched.
    by destruct (fault (os_tick o)). }
  intros []; [|apply spares_save].
  apply spares_bind; [apply spares_bind; [apply spares_query|intros; apply (spares_pure (fun _ => _))]|].
  intros _. apply (spares_pure (fun _ => _)).
Qed.

(** ** Loading *)

Lemma load_sound file o : (load path o).1 = Ok file ->
  exists b, os_disk o !! name = Some (File b) /\ check_store b = Ok file.
Proof.
  unfold load, bind, cio, read, query, syscall. destruct (fault (os_tick o)); [done|]. cbn.
  destruct (os_disk o !! name) as [[b|]|]; cbn; try done. intros H. by exists b.
Qed.

Lemma load_complete b file o :
  os_disk o !! name = Some (File b) -> check_store b = Ok file ->
  (exists o', load path o = (Ok file, o')) \/ (exists o', load path o = (Err CredIo, o')).
Proof.
  intros Hb Hc. unfold load, bind, cio, read, query, syscall.
  destruct (fault (os_tick o)); [right; by eexists|]. cbn. rewrite Hb, Hc. left. by eexists.
Qed.

Lemma check_store_Ok b file : check_store b = Ok file ->
  len b <= MAX_STORE_BYTES /\ from_slice b = Some file /\ cf_version file = STORE_VERSION /\
  any_invalid [] (cf_credentials file) = false.
Proof.
  unfold check_store. destruct (_ <? _) eqn:El; [done|]. destruct (from_slice b) as [f|]; [|done].
  destruct (cf_version f =? STORE_VERSION) eqn:Ev; cbn [negb]; [|done].
  destruct (any_invalid _ _) eqn:Ei; [done|]. intros [= <-]. split_and!; [lia|done|lia|done].
Qed.

Lemma wp_load Q o :
  (forall e o', os_disk o' !! name = os_disk o !! name -> Q (Err e) o') ->
  (forall b file o', os_disk o' !! name = os_disk o !! name -> os_disk o !! name = Some (File b) ->
     check_store b = Ok file -> Q (Ok file) o') ->
  wp (load path) Q o.
Proof.
  intros He Ho. unfold wp. pose proof (leaves_load o) as Hl. pose proof (load_sound) as Hs.
  destruct (load path o) as [[file|e] o'] eqn:E; cbn in *; [|by apply He].
  destruct (Hs file o) as (b & Hb & Hc); [by rewrite E|]. by eapply Ho.
Qed.

Lemma wp_leaves {A} (m : CredM A) Q o :
  leaves m -> (forall r o', os_disk o' !! name = os_disk o !! name -> Q r o') -> wp m Q o.
Proof. intros Hm HQ. apply HQ, Hm. Qed.

Lemma spares_enrol label now ttl : spares (enrol path label now ttl).
Proof.
  unfold enrol. do 2 (apply spares_bind; [apply (spares_pure (fun _ => _))|intros _]).
  apply spares_bind; [apply spares_lock_mutations|]. intros _.
  apply spares_bind; [apply spares_bind; [apply spares_query|intros; apply (spares_pure (fun _ => _))]|]. intros file.
  apply spares_bind; [by apply spares_same|]. intros issued.
  apply spares_bind; [apply spares_save|]. intros _. apply (spares_pure (fun _ => _)).
Qed.

(** A path without a file name is refused before anything is written. *)
Lemma open_store_nameless o : file_name path = None -> os_disk (open_store path o).2 = os_disk o.
Proof.
  intros Hn. unfold open_store, lock_mutations. rewrite Hn. unfold bind, throw_if, cio, create_dir_all, query, syscall, ok_or, untouched.
  destruct (negb _); [done|]. destruct (parent path); [|done]. by destruct (fault (os_tick o)).
Qed.

(** Opened, the store is a file that loads. *)
Lemma open_store_loads o :
  (exists n, file_name path = Some n) ->
  wp (open_store path) (fun r o' => match r with
    | Ok _ => exists b, os_disk o' !! name = Some (File b) /\
        ((exists file, os_disk o !! name = Some (File b) /\ check_store b = Ok file) \/
         to_vec {| cf_version := STORE_VERSION; cf_credentials := [] |} = Some b)
    | Err _ => True end) o.
Proof.
  intros [stem Hstem]. unfold open_store. do 2 wp_step; [done|]. wp_step.
  assert (Hup : leaves (match parent path with Some _ => cio create_dir_all | None => ret tt end))
    by (destruct (parent path); [apply leaves_query|apply leaves_pure]).
  apply wp_leaves; [exact Hup|]. intros [[]|] o1 H1; [|done]. wp_step.
  apply wp_leaves; [apply leaves_lock_mutations|]. intros [[]|] o2 H2; [|done]. wp_step.
  apply wp_leaves; [apply leaves_path_exists|]. intros [[]|] o3 H3; [| |done].
  - wp_step. apply wp_load; [done|]. intros b file o4 H4 Hb Hc. apply wp_ret. exists b.
    rewrite H4, Hb. split; [done|]. left. exists file. split; [|done]. congruence.
  - eapply wp_mono; [apply save_outcome|]. intros [[]|] o4; [|done].
    intros [[Hx _]|(b & Hb & Ho)]; [done|]. exists b. by split; [|right].
Qed.

(** ** Looking up credentials *)

Lemma find_credential_Some id l c :
  find_credential id l = Some c -> c ∈ l /\ sc_id c = id.
Proof.
  intros [Hin Hid]%List.find_some. split; [by apply list_elem_of_In|by apply bool_decide_eq_true_1 in Hid].
Qed.

Lemma find_credential_app id l l' :
  find_credential id (l ++ l') =
  match find_credential id l with Some c => Some c | None => find_credential id l' end.
Proof. unfold find_credential. induction l as [|c l IH]; cbn; [done|]. by case_bool_decide. Qed.

Lemma find_update id id' f l :
  (forall c, sc_id (f c) = sc_id c) ->
  find_credential id (update_credential id' f l) =
  if decide (id = id') then f <$> find_credential id l else find_credential id l.
Proof.
  intros Hf. unfold find_credential. induction l as [|c l IH]; cbn; [by case_decide|].
  case_bool_decide as Hc; cbn; rewrite ?Hf.
  - case_bool_decide; case_decide; cbn; congruence || done.
  - rewrite IH. case_bool_decide; case_decide; cbn; congruence || done.
Qed.

(** Valid stores have distinct identifiers. *)
Lemma any_invalid_ids ids l :
  any_invalid ids l = false -> NoDup (map sc_id l) /\ forall c, c ∈ l -> sc_id c ∉ ids.
Proof.
  revert ids. induction l as [|c l IH]; intros ids; cbn.
  { intros _. split; [constructor|set_solver]. }
  rewrite !orb_false_iff, bool_decide_eq_false. intros [[[[[Hc _] _] _] _] Hl].
  destruct (IH _ Hl) as [Hnd Hout]. split.
  - constructor; [|done]. intros (c' & Hid & Hin)%list_elem_of_fmap. apply (Hout c' Hin). set_solver.
  - intros c' [->|Hin]%elem_of_cons; [done|]. specialize (Hout c' Hin). set_solver.
Qed.

Lemma find_valid l c : any_invalid [] l = false -> c ∈ l -> find_credential (sc_id c) l = Some c.
Proof.
  intros [Hnd _]%any_invalid_ids Hin. induction l as [|c' l IH]; [set_solver|]. cbn in *.
  apply NoDup_cons in Hnd as [Hni Hnd]. case_bool_decide as E.
  - apply elem_of_cons in Hin as [->|Hin]; [done|]. destruct Hni. rewrite E. by apply list_elem_of_fmap_2.
  - apply elem_of_cons in Hin as [->|Hin]; [done|]. by apply IH.
Qed.

(** C21: a token only verifies when the store on disk is well formed and holds a
    credential with the token's identifier that is active at that time and
    whose digest is that of the token's secret. *)
Theorem verify_sound token now o :
  (verify path token now o).1 = Ok true ->
  exists b file p c, os_disk o !! name = Some (File b) /\ check_store b = Ok file /\
    token_parse token = Some p /\ c ∈ cf_credentials file /\ sc_id c = pt_id p /\
    active_at c now = true /\ sc_secret_digest c = digest_secret (pt_id p) (pt_secret p).
Proof.
  unfold verify. destruct (token_parse token) as [p|]; [|done]. unfold bind.
  pose proof (load_sound) as Hs. destruct (load path o) as [[file|e] o'] eqn:E; [|done].
  destruct (Hs file o) as (b & Hb & Hc); [by rewrite E|].
  destruct (find_credential (pt_id p) (cf_credentials file)) as [c|] eqn:Ef; [|done].
  apply find_credential_Some in Ef as [Hin Hid].
  destruct (active_at c now) eqn:Ea; cbn; [|done]. intros [= [_ Hd%bool_decide_eq_true_1]%andb_true_iff].
  exists b, file, p, c. by rewrite <-Hid.
Qed.

(** ** Revocation *)

Context {CL : CredentialLaws}.

(** Whatever the store's file decodes to satisfies [J]. *)
Definition store_says (J : CredentialFile -> Prop) (d : gmap str Node) : Prop :=
  forall b file, d !! name = Some (File b) -> from_slice b = Some file -> J file.
Definition keeps (J : CredentialFile -> Prop) {A} (m : CredM A) : Prop :=
  forall o, store_says J (os_disk o) -> store_says J (os_disk (m o).2).

Section Keeps.
Context (J : CredentialFile -> Prop).

Lemma keeps_leaves {A} (m : CredM A) : leaves m -> keeps J m.
Proof. intros Hm o Ho b file. rewrite Hm. apply Ho. Qed.
Lemma keeps_bind {A B} (m : CredM A) (k : A -> CredM B) :
  keeps J m -> (forall a, keeps J (k a)) -> keeps J (bind m k).
Proof.
  intros Hm Hk o Ho. unfold bind. specialize (Hm o Ho). destruct (m o) as [[a|e] o']; [by apply Hk|done].
Qed.
Lemma keeps_load {A} (k : CredentialFile -> CredM A) :
  (forall file, J file -> keeps J (k file)) -> keeps J (bind (load path) k).
Proof.
  intros Hk o Ho. enough (wp (bind (load path) k) (fun _ o' => store_says J (os_disk o')) o) as H by exact H.
  wp_step. apply wp_load.
  - intros e o' Hd b file. rewrite Hd. apply Ho.
  - intros b file o' Hd Hb Hc. apply Hk.
    + apply check_store_Ok in Hc as (_ & Hf & _ & _). by eapply Ho.
    + intros b' file'. rewrite Hd. apply Ho.
Qed.
Lemma keeps_save file : J file -> keeps J (save path file).
Proof.
  intros HJ o Ho. pose proof (save_outcome file o) as H. unfold wp in H.
  destruct H as [[_ Hd]|(b & Hb & Hd)]; intros b' file' Hb' Hf.
  - rewrite Hd in Hb'. by eapply Ho.
  - rewrite Hd in Hb'. injection Hb' as <-. rewrite (from_to_vec file b Hb) in Hf. congruence.
Qed.
Lemma keeps_ok_or {A B} (x : option A) e (k : A -> CredM B) :
  (forall a, x = Some a -> keeps J (k a)) -> keeps J (bind (ok_or x e) k).
Proof. intros Hk o Ho. unfold bind, ok_or. destruct x; [by apply Hk|done]. Qed.
End Keeps.

(** The credential [id] is gone or revoked from [t] on at the latest. *)
Definition revoked_by (id : Uuid) (t : Z) (file : CredentialFile) : Prop :=
  match find_credential id (cf_credentials file) with
  | None => True
  | Some c => exists t', sc_revoked_at_ms c = Some t' /\ t' <= t
  end.

Definition never_drawn (id : Uuid) : Prop := forall tick, random_bytes tick 16 <> uuid_bytes id.

Lemma keeps_issue J {A} id label rotation now ttl (k : IssuedPair -> CredM A) :
  never_drawn id ->
  (forall pair, sc_id (ip_stored pair) <> id -> sc_revoked_at_ms (ip_stored pair) = None -> keeps J (k pair)) ->
  keeps J (bind (issue label rotation now ttl) k).
Proof.
  intros Hid Hk o Ho. unfold bind, issue, cio, draw_bytes. cbn -[NUL]. apply Hk; try done. cbn.
  intros E. by apply (Hid (os_tick o)); rewrite <-E.
Qed.

Inductive CredOp :=
| OpOpen
| OpEnrol (label : str) (now ttl : Z)
| OpRotate (credential_id : str) (now overlap ttl : Z)
| OpRevoke (credential_id : str) (now : Z)
| OpVerify (token : str) (now : Z)
| OpList.

Definition cred_exec (op : CredOp) (o : Os str) : Os str :=
  match op with
  | OpOpen => (open_store path o).2
  | OpEnrol label now ttl => (enrol path label now ttl o).2
  | OpRotate id now overlap ttl => (rotate path id now overlap ttl o).2
  | OpRevoke id now => (revoke path id now o).2
  | OpVerify token now => (verify path token now o).2
  | OpList => (list_credentials path o).2
  end.
Definition cred_run (ops : list CredOp) (o : Os str) : Os str := foldl (fun o op => cred_exec op o) o ops.

Section Revoked.
Context (id : Uuid) (t : Z) (Hid : never_drawn id).
Abbreviation J := (revoked_by id t).

Lemma revoked_by_push file c : revoked_by id t file -> sc_id c <> id ->
  revoked_by id t (set_credentials (cf_credentials file ++ [c]) file).
Proof using.
  unfold revoked_by. cbn [set_credentials cf_credentials]. rewrite find_credential_app.
  destruct (find_credential id _); [done|].
  intros _ Hc. cbn. by rewrite bool_decide_false.
Qed.
Lemma revoked_by_update file id' f :
  (forall c, sc_id (f c) = sc_id c) ->
  (forall c t', sc_revoked_at_ms c = Some t' -> exists t'', sc_revoked_at_ms (f c) = Some t'' /\ t'' <= t') ->
  revoked_by id t file ->
  revoked_by id t (set_credentials (update_credential id' f (cf_credentials file)) file).
Proof using.
  intros Hf Hr. unfold revoked_by. cbn [set_credentials cf_credentials]. rewrite find_update by done.
  destruct (find_credential id (cf_credentials file)) as [c|]; case_decide; cbn; try done.
  intros (t' & Ht' & Hle). destruct (Hr _ _ Ht') as (t'' & ? & ?). exists t''. split; [done|lia].
Qed.

Lemma keeps_revoked op o : store_says J (os_disk o) -> store_says J (os_disk (cred_exec op o)).
Proof using Hid CL.
  destruct op as [|label now ttl|cid now overlap ttl|cid now|token now|]; cbn [cred_exec].
  - apply keeps_bind; [by apply keeps_leaves, leaves_pure|intros _].
    apply keeps_bind; [apply keeps_leaves; destruct (parent path); [apply leaves_query|apply leaves_pure]|intros _].
    apply keeps_bind; [apply keeps_leaves, leaves_lock_mutations|intros _].
    apply keeps_bind; [apply keeps_leaves, leaves_path_exists|intros []].
    + apply keeps_bind; [apply keeps_leaves, leaves_load|intros; by apply keeps_leaves, leaves_pure].
    + by apply keeps_save.
  - do 2 (apply keeps_bind; [by apply keeps_leaves, leaves_pure|intros _]).
    apply keeps_bind; [apply keeps_leaves, leaves_lock_mutations|intros _].
    apply keeps_load. intros file HJ. apply (keeps_issue _ id); [done|]. intros pair Hp _.
    apply keeps_bind; [by apply keeps_save, revoked_by_push|intros; by apply keeps_leaves, leaves_pure].
  - do 2 (apply keeps_bind; [by apply keeps_leaves, leaves_pure|intros _]). apply keeps_ok_or. intros id' _.
    apply keeps_bind; [apply keeps_leaves, leaves_lock_mutations|intros _].
    apply keeps_load. intros file HJ. apply keeps_ok_or. intros old _.
    apply keeps_bind; [by apply keeps_leaves, leaves_pure|intros _].
    apply (keeps_issue _ id); [done|]. intros pair Hp _.
    apply keeps_bind; [|intros; by apply keeps_leaves, leaves_pure]. apply keeps_save.
    refine (revoked_by_push (set_credentials _ file) _ _ Hp). apply revoked_by_update; try done.
    intros c t' Ht'. by exists t'.
  - apply keeps_ok_or. intros id' _. apply keeps_bind; [apply keeps_leaves, leaves_lock_mutations|intros _].
    apply keeps_load. intros file HJ. apply keeps_ok_or. intros old _. apply keeps_save.
    apply revoked_by_update; try done. intros c t' Ht'. cbn. rewrite Ht'. eexists. split; [done|lia].
  - apply keeps_leaves. unfold verify. destruct (token_parse token); [|apply leaves_pure].
    apply leaves_bind; [apply leaves_load|]. intros file. repeat case_match; apply leaves_pure.
  - apply keeps_leaves, leaves_bind; [apply leaves_load|intros; apply leaves_pure].
Qed.
End Revoked.

(** The store after a mutation that ends in [save]. *)
Definition saved (file : CredentialFile) (o : Os str) : Prop :=
  exists b, to_vec file = Some b /\ os_disk o !! name = Some (File b).

Lemma wp_save_ok file Q o :
  (forall o', saved file o' -> Q (Ok tt) o') -> (forall e o', Q (Err e) o') -> wp (save path file) Q o.
Proof.
  intros Hok Herr. eapply wp_mono; [apply save_outcome|]. intros [[]|e] o' H; [|apply Herr].
  apply Hok. by destruct H as [[? _]|H].
Qed.

Lemma revoke_saved cid now o :
  wp (revoke path cid now) (fun r o' => r = Ok tt -> exists id file old, uuid_parse_str cid = Some id /\
    find_credential id (cf_credentials file) = Some old /\
    saved (set_credentials (update_credential id (end_by_revocation now) (cf_credentials file)) file) o') o.
Proof.
  unfold revoke. wp_step. wp_step; [|done]. rename a into id. wp_step.
  apply wp_leaves; [apply leaves_lock_mutations|]. intros [[]|] o1 Ho1; [|done].
  wp_step. apply wp_load; [done|]. intros b file o2 Ho2 Hb Hck. wp_step. wp_step; [|done].
  apply wp_save_ok; [|done]. intros o3 Hs _. by exists id, file, a.
Qed.

(** A revocation that succeeded is in the file. *)
Lemma revoke_revokes cid now id o :
  (revoke path cid now o).1 = Ok tt -> uuid_parse_str cid = Some id ->
  store_says (revoked_by id now) (os_disk (revoke path cid now o).2).
Proof.
  intros Hr Hid. destruct (revoke_saved cid now o Hr) as (id' & file & old & Hid' & Hold & b & Hv & Hb).
  rewrite Hid in Hid'. injection Hid' as <-. intros b' file' Hb' Hf. rewrite Hb in Hb'. injection Hb' as <-.
  rewrite (from_to_vec _ _ Hv) in Hf. injection Hf as <-.
  unfold revoked_by. cbn [set_credentials cf_credentials]. rewrite find_update, decide_True, Hold by done.
  cbn. eexists. split; [done|]. destruct (sc_revoked_at_ms old); lia.
Qed.

Lemma run_revoked id t ops o :
  never_drawn id -> store_says (revoked_by id t) (os_disk o) -> store_says (revoked_by id t) (os_disk (cred_run ops o)).
Proof.
  intros Hid. revert o. induction ops as [|op ops IH]; intros o Ho; [done|]. by apply IH, keeps_revoked.
Qed.

(** C20: a revocation is final: once [revoke] of a credential at [t] has
    succeeded, no later operations, under any storage faults, make a token of
    that credential verify at [t] or after (identifiers are not drawn twice). *)
Theorem revocation_is_final cid t o ops token p now :
  (revoke path cid t o).1 = Ok tt ->
  token_parse token = Some p -> uuid_parse_str cid = Some (pt_id p) -> never_drawn (pt_id p) -> t <= now ->
  (verify path token now (cred_run ops (revoke path cid t o).2)).1 <> Ok true.
Proof.
  intros Hr Hp Hid Hnew Hnow Hv.
  pose proof (run_revoked _ _ ops _ Hnew (revoke_revokes _ _ _ _ Hr Hid)) as Hsays.
  apply verify_sound in Hv as (b' & file' & p' & c' & Hb' & Hck & Hp' & Hin & Hcid & Ha & _).
  assert (p' = p) as -> by congruence.
  apply check_store_Ok in Hck as (_ & Hf' & _ & Hval). specialize (Hsays _ _ Hb' Hf').
  unfold revoked_by in Hsays. rewrite <-Hcid, (find_valid _ _ Hval Hin) in Hsays.
  destruct Hsays as (t' & Ht' & Hle). unfold active_at in Ha. rewrite Ht' in Ha. cbn in Ha.
  rewrite !andb_true_iff in Ha. lia.
Qed.

(** ** Issued tokens *)

(** [c] is the credential behind [issued], valid from [now] for [ttl]. *)
Definition issued_as (label : str) (rotation : option Uuid) (now ttl : Z) (c : StoredCredential)
    (issued : IssuedCredential) : Prop :=
  exists secret, length secret = 32%nat /\
    ic_token issued = lit "tte1." ++ uuid_to_string (sc_id c) ++ [DOT] ++ base64_encode secret /\
    ic_credential_id issued = uuid_to_string (sc_id c) /\
    c = {| sc_id := sc_id c; sc_label := label; sc_secret_digest := digest_secret (sc_id c) secret;
           sc_created_at_ms := now; sc_expires_at_ms := i64_saturating_add now ttl;
           sc_valid_until_ms := None; sc_revoked_at_ms := None; sc_rotation_of := rotation |}.

Lemma token_parse_issued id secret :
  length secret = 32%nat ->
  token_parse (lit "tte1." ++ uuid_to_string id ++ [DOT] ++ base64_encode secret)
  = Some {| pt_id := id; pt_secret := secret |}.
Proof.
  intros Hl. change (lit "tte1.") with (lit "tte1" ++ [DOT]). unfold token_parse.
  rewrite <-!app_assoc. cbn [app]. rewrite split_app by (by apply (not_elem_of_forallb is_ascii_alphanumeric)).
  rewrite split_app by apply uuid_no_dot. rewrite split_no_sep by apply base64_no_dot.
  rewrite bool_decide_true by done. cbn [negb]. rewrite uuid_roundtrip, base64_roundtrip.
  unfold len. by rewrite Hl.
Qed.

Lemma wp_issue {A} (k : IssuedPair -> CredM A) Q label rotation now ttl o :
  (forall pair o', os_disk o' = os_disk o ->
     issued_as label rotation now ttl (ip_stored pair) (ip_public pair) -> wp (k pair) Q o') ->
  wp (bind (issue label rotation now ttl) k) Q o.
Proof.
  intros Hk. apply wp_bind. unfold issue, wp at 1, bind, cio, draw_bytes. cbn -[NUL lit].
  apply Hk; [done|]. eexists. split; [apply (random_bytes_length (S (os_tick o)) 32)|]. done.
Qed.

Lemma enrol_saved label now ttl o :
  wp (enrol path label now ttl) (fun r o' => forall issued, r = Ok issued ->
    validate_label label = Ok tt /\ 1000 <= ttl /\
    exists b0 file c, os_disk o !! name = Some (File b0) /\ check_store b0 = Ok file /\
      issued_as label None now ttl c issued /\
      saved (set_credentials (cf_credentials file ++ [c]) file) o') o.
Proof.
  unfold enrol. wp_step. destruct (validate_label label) as [[]|] eqn:El; [|done]. unfold wp at 1; cbn -[wp].
  wp_step. unfold validate_ttl. destruct (outside 1000 MAX_TTL_MS ttl) eqn:Et; [done|]. unfold wp at 1; cbn -[wp].
  wp_step. apply wp_leaves; [apply leaves_lock_mutations|]. intros [[]|] o1 Ho1; [|done].
  wp_step. apply wp_load; [done|]. intros b0 file o2 Ho2 Hb0 Hck. apply wp_issue. intros pair o3 Ho3 Hp.
  wp_step. apply wp_save_ok; [|done]. intros o4 Hs. wp_step. intros issued [= <-].
  split_and!; [done|unfold outside in Et; lia|]. exists b0, file, (ip_stored pair).
  split_and!; [congruence|done..].
Qed.

Lemma verify_complete token p c b file now o :
  os_disk o !! name = Some (File b) -> check_store b = Ok file ->
  token_parse token = Some p -> c ∈ cf_credentials file -> sc_id c = pt_id p ->
  active_at c now = true -> sc_secret_digest c = digest_secret (pt_id p) (pt_secret p) ->
  (verify path token now o).1 = Ok true \/ (verify path token now o).1 = Err CredIo.
Proof.
  intros Hb Hck Hp Hin Hid Ha Hd. unfold verify. rewrite Hp. unfold bind.
  destruct (load_complete b file o Hb Hck) as [[o' ->]|[o' ->]]; [|by right]. left.
  apply check_store_Ok in Hck as (_ & _ & _ & Hv). rewrite <-Hid, (find_valid _ _ Hv Hin), Ha. cbn [negb].
  rewrite Hd, Hid, Z.eqb_refl. unfold ret. by rewrite bool_decide_true.
Qed.

Lemma enrol_named label now ttl o issued :
  (enrol path label now ttl o).1 = Ok issued -> exists n, file_name path = Some n.
Proof.
  unfold enrol, lock_mutations. destruct (file_name path) as [n|]; [by exists n|].
  unfold bind, of_result, ok_or. destruct (validate_label label); [|done]. by destruct (validate_ttl ttl).
Qed.

(** Wherever the store that [enrol] left is read again. *)
Lemma enrolled_verifies_at label now ttl o issued b file now' o' :
  (enrol path label now ttl o).1 = Ok issued ->
  os_disk (enrol path label now ttl o).2 !! name = Some (File b) -> check_store b = Ok file ->
  now <= now' < i64_saturating_add now ttl -> os_disk o' !! name = Some (File b) ->
  (verify path (ic_token issued) now' o').1 = Ok true \/ (verify path (ic_token issued) now' o').1 = Err CredIo.
Proof.
  intros He Hb Hck Hnow Ho'. pose proof (enrol_saved label now ttl o) as H. unfold wp in H.
  destruct (H issued He) as (_ & _ & b0 & file0 & c & _ & _ & (secret & Hs & Htok & _ & Ec) & b' & Hv & Hb').
  rewrite Hb in Hb'. injection Hb' as <-. pose proof Hck as (_ & Hf & _ & _)%check_store_Ok.
  rewrite (from_to_vec _ _ Hv) in Hf. injection Hf as <-.
  apply (verify_complete _ {| pt_id := sc_id c; pt_secret := secret |} c b _ now' _ Ho' Hck); try done.
  - rewrite Htok. by apply token_parse_issued.
  - cbn. apply elem_of_app. right. by apply list_elem_of_singleton.
  - rewrite Ec. unfold active_at. cbn. lia.
  - by rewrite Ec.
Qed.

(** ** Rotation *)

Lemma rotate_saved cid now overlap ttl o :
  wp (rotate path cid now overlap ttl) (fun r o' => forall issued, r = Ok issued ->
    0 <= overlap /\ exists id file old c, uuid_parse_str cid = Some id /\
      find_credential id (cf_credentials file) = Some old /\ active_at old now = true /\
      issued_as (sc_label old) (Some (sc_id old)) now ttl c issued /\
      saved (set_credentials (update_credential id (end_validity (i64_saturating_add now overlap))
                                (cf_credentials file) ++ [c]) file) o') o.
Proof.
  unfold rotate. wp_step. destruct (validate_ttl ttl) as [[]|]; [|done]. unfold wp at 1; cbn -[wp].
  wp_step. wp_step; [done|]. wp_step. wp_step; [|done]. rename a into id. wp_step.
  apply wp_leaves; [apply leaves_lock_mutations|]. intros [[]|] o1 Ho1; [|done].
  wp_step. apply wp_load; [done|]. intros b0 file o2 Ho2 Hb0 Hck. wp_step. wp_step; [|done]. wp_step. wp_step; [done|].
  apply wp_issue. intros pair o3 Ho3 Hp. wp_step. apply wp_save_ok; [|done]. intros o4 Hs. wp_step.
  intros issued [= <-]. split; [unfold outside in *; lia|]. exists id, file, a, (ip_stored pair).
  split_and!; try done. by apply negb_false_iff.
Qed.

(** The end a rotation puts on the old credential. *)
Lemma rotated_until id l c' old c now overlap now' :
  in_i64 now -> 0 <= overlap -> find_credential id l = Some old ->
  find_credential id (update_credential id (end_validity (i64_saturating_add now overlap)) l ++ [c']) = Some c ->
  active_at c now' = true -> now' < now + overlap.
Proof.
  intros Hi Hov Hold. rewrite find_credential_app, find_update by (intros; reflexivity).
  rewrite decide_True by reflexivity. rewrite Hold. cbn [fmap option_fmap option_map].
  intros Hc Ha. assert (Hu : sc_valid_until_ms c
    = Some (Z.min (i64_saturating_add now overlap) (sc_expires_at_ms old))) by (injection Hc as <-; reflexivity).
  unfold active_at in Ha. rewrite Hu in Ha. cbn [is_none_or] in Ha. rewrite !andb_true_iff in Ha.
  destruct Ha as [[_ Ha] _]. apply Z.ltb_lt in Ha.
  unfold i64_saturating_add, in_i64 in *. pose proof (eq_refl : I64_MIN = -9223372036854775808). lia.
Qed.

(** C12: rotation hands over: afterwards the new token verifies from now on, and
    the old one stops at the end of the overlap at the latest. *)
Theorem rotation_hands_over cid now overlap ttl o issued b file :
  in_i64 now ->
  (rotate path cid now overlap ttl o).1 = Ok issued ->
  let o' := (rotate path cid now overlap ttl o).2 in
  os_disk o' !! name = Some (File b) -> check_store b = Ok file ->
  (forall now', now <= now' < i64_saturating_add now ttl ->
     (verify path (ic_token issued) now' o').1 = Ok true \/
     (verify path (ic_token issued) now' o').1 = Err CredIo) /\
  (forall token p now', token_parse token = Some p -> uuid_parse_str cid = Some (pt_id p) ->
     (verify path token now' o').1 = Ok true -> now' < now + overlap).
Proof.
  intros Hi. pose proof (rotate_saved cid now overlap ttl o) as H. unfold wp in H.
  destruct (rotate path cid now overlap ttl o) as [r o']. cbn [fst snd] in *. intros He Hb Hck.
  destruct (H issued He) as (Hov & id & file0 & old & c & Hcid & Hold & Hact & (secret & Hs & Htok & _ & Ec) & b' & Hv & Hb').
  rewrite Hb in Hb'. injection Hb' as <-. pose proof Hck as (_ & Hf & _ & Hval)%check_store_Ok.
  rewrite (from_to_vec _ _ Hv) in Hf. injection Hf as <-. split.
  - intros now' Hnow'.
    apply (verify_complete _ {| pt_id := sc_id c; pt_secret := secret |} c b _ now' _ Hb Hck); try done.
    + rewrite Htok. by apply token_parse_issued.
    + cbn. apply elem_of_app. right. by apply list_elem_of_singleton.
    + rewrite Ec. unfold active_at. cbn. lia.
    + by rewrite Ec.
  - intros token p now' Hp Hpid Hver.
    apply verify_sound in Hver as (b1 & file1 & p1 & c1 & Hb1 & Hck1 & Hp1 & Hin & Hid1 & Ha1 & _).
    rewrite Hb in Hb1. injection Hb1 as <-. rewrite Hck in Hck1. injection Hck1 as <-.
    assert (p1 = p) as -> by congruence. assert (id = pt_id p) as -> by congruence.
    pose proof (find_valid _ _ Hval Hin) as Hfind. rewrite Hid1 in Hfind.
    exact (rotated_until _ _ _ _ _ _ _ _ Hi Hov Hold Hfind Ha1).
Qed.

(** ** Growth *)

Lemma any_invalid_app ids l c :
  any_invalid ids l = false -> sc_id c ∉ ids -> sc_id c ∉ map sc_id l -> any_invalid [] [c] = false ->
  any_invalid ids (l ++ [c]) = false.
Proof.
  revert ids. induction l as [|c' l IH]; intros ids; cbn.
  - intros _ Hi _. rewrite !orb_false_iff. intros [[[[[_ ?] ?] ?] ?] _]. split_and!; try done.
    by apply bool_decide_eq_false.
  - rewrite !orb_false_iff. intros [Hl Hr] Hi Hm Hc. split; [done|].
    apply not_elem_of_cons in Hm as [Hm1 Hm2]. apply IH; try done; [by apply not_elem_of_cons|].
    cbn. by rewrite !orb_false_iff.
Qed.

Lemma issued_valid label rotation now ttl c issued :
  validate_label label = Ok tt -> 1000 <= ttl -> in_i64 now -> now < I64_MAX ->
  issued_as label rotation now ttl c issued -> any_invalid [] [c] = false.
Proof.
  intros Hl Ht Hi Hn (secret & _ & _ & _ & Ec). rewrite Ec. cbn [any_invalid sc_id sc_label sc_created_at_ms
    sc_expires_at_ms sc_secret_digest]. rewrite Hl. rewrite bool_decide_false by set_solver.
  unfold digest_secret. rewrite hex_encode_lower_hex. unfold len. rewrite length_hex_encode, sha256_length.
  rewrite (proj2 (Z.leb_gt _ _)); [reflexivity|].
  unfold i64_saturating_add, in_i64, I64_MIN, I64_MAX in *. lia.
Qed.

(** C31: a successful enrolment leaves a store that reloads with exactly one more
    credential, unless the file has outgrown 1 MiB: then it is refused as
    invalid, by this and every later operation.  (The new identifier is fresh.) *)
Theorem enrolment_reloads label now ttl o issued b0 file0 :
  in_i64 now -> now < I64_MAX ->
  os_disk o !! name = Some (File b0) -> check_store b0 = Ok file0 ->
  (enrol path label now ttl o).1 = Ok issued ->
  (forall c, c ∈ cf_credentials file0 -> uuid_to_string (sc_id c) <> ic_credential_id issued) ->
  exists b file c, os_disk (enrol path label now ttl o).2 !! name = Some (File b) /\
    cf_credentials file = cf_credentials file0 ++ [c] /\
    uuid_to_string (sc_id c) = ic_credential_id issued /\ sc_label c = label /\
    check_store b = if MAX_STORE_BYTES <? len b then Err InvalidStore else Ok file.
Proof.
  intros Hi Hn Hb0 Hck0 He Hfresh. pose proof (enrol_saved label now ttl o) as H. unfold wp in H.
  destruct (H issued He) as (Hl & Ht & b0' & file0' & c & Hb0' & Hck0' & Hc & b & Hv & Hb).
  rewrite Hb0 in Hb0'. injection Hb0' as <-. rewrite Hck0 in Hck0'. injection Hck0' as <-.
  exists b, (set_credentials (cf_credentials file0 ++ [c]) file0), c. split_and!; [done|reflexivity| | |].
  1: by destruct Hc as (? & _ & _ & -> & _).
  1: destruct Hc as (? & _ & _ & _ & Ec); by rewrite Ec.
  unfold check_store. destruct (MAX_STORE_BYTES <? len b); [done|]. rewrite (from_to_vec _ _ Hv).
  apply check_store_Ok in Hck0 as (_ & _ & Hver & Hval). cbn [set_credentials cf_version cf_credentials].
  rewrite Hver, Z.eqb_refl. cbn [negb]. rewrite any_invalid_app; try done.
  - set_solver.
  - intros (c' & E & Hin)%list_elem_of_fmap. apply (Hfresh c' Hin). rewrite <-E.
    by destruct Hc as (? & _ & _ & -> & _).
  - by eapply issued_valid.
Qed.

End Facts.
