(* ===== verification/HostFs.v ===== *)
(** * The host's file system

    The configuration, the secrets and the credential store live outside the
    spool's directory, under paths of the operator's choosing.  The host is a
    tree of nodes with owner and mode, addressed by canonical paths; a call
    resolves its path first, following symbolic links.  As for the spool's
    disk, every call consumes a tick and may fail, and a failing [write_all]
    leaves a prefix of its data.

    The service's umask clears group and other bits only, so a file created
    with mode [0o600] has exactly that mode. *)

From S2P Require Import Prelude Fs Config Credentials.

#[global] Instance Component_countable : Countable Component.
Proof.
  apply (inj_countable'
    (fun c => match c with RootDir => inl 0%nat | CurDir => inl 1%nat | ParentDir => inl 2%nat | Normal n => inr n end)
    (fun x => match x with inl 0%nat => RootDir | inl 1%nat => CurDir | inl _ => ParentDir | inr n => Normal n end)).
  by intros [].
Defined.
#[global] Instance Node_eq_dec : EqDecision Node.
Proof. solve_decision. Defined.

Inductive HNode :=
| HFile (data : bytes) (mode uid : Z)
| HDir (mode uid : Z)
| HLink (target : Path) (uid : Z)
| HOther (mode uid : Z).

Abbreviation FileTree := (gmap Path HNode).
Record HostOs := { hs_tree : FileTree; hs_tick : nat }.

Inductive HostCall := Lstat | Stat | Read.

(** What the host decides: failures of single look-ups, the process's user and
    umask.  The other faults and the random draws are the oracle's. *)
Class HostEnv := {
  host_credentials :: CredentialEnv;
  lookup_fault : nat -> HostCall -> Path -> option Z;
  process_uid : Z;
  umask : Z;
}.

(** [0o600], [0o700] and [0o777] *)
Definition PRIVATE_FILE : Z := 384.
Definition PRIVATE_DIR : Z := 448.
Definition ANY_DIR : Z := 511.

(** ** Path resolution *)

(** The most components a look-up walks before it gives up ([PATH_MAX]). *)
Definition WALK_LIMIT : nat := 4096.
#[global] Opaque WALK_LIMIT.

Fixpoint resolve (fuel : nat) (t : FileTree) (current rest : Path) : Result IoError Path :=
  match fuel with
  | O => Err (OsError 40)
  | S fuel =>
      match rest with
      | [] => Ok current
      | RootDir :: rest => resolve fuel t [RootDir] rest
      | CurDir :: rest => resolve fuel t current rest
      | ParentDir :: rest => resolve fuel t (default [RootDir] (parent current)) rest
      | Normal name :: rest =>
          match t !! (current ++ [Normal name]) with
          | None => Err NotFound
          | Some (HLink target _) => resolve fuel t current (target ++ rest)
          | Some (HDir _ _) => resolve fuel t (current ++ [Normal name]) rest
          | Some (HFile _ _ _) | Some (HOther _ _) =>
              if is_empty rest then Ok (current ++ [Normal name]) else Err (OsError 20)
          end
      end
  end.

Definition is_hdir (h : HNode) : bool := match h with HDir _ _ => true | _ => false end.

(** The canonical place a path names, without following a link there; the
    place need not be taken. *)
Definition locate (t : FileTree) (path : Path) : Result IoError Path :=
  match rev path with
  | Normal name :: up =>
      match resolve WALK_LIMIT t [] (rev up) with
      | Err e => Err e
      | Ok dir => if from_option is_hdir false (t !! dir) then Ok (dir ++ [Normal name]) else Err (OsError 20)
      end
  | _ => resolve WALK_LIMIT t [] path
  end.

Definition meta_of (h : HNode) : Meta :=
  match h with
  | HFile data mode uid => {| md_kind := KRegular; md_len := len data; md_uid := uid; md_mode := mode |}
  | HDir mode uid => {| md_kind := KDirectory; md_len := 0; md_uid := uid; md_mode := mode |}
  | HLink target uid => {| md_kind := KSymlink; md_len := 0; md_uid := uid; md_mode := ANY_DIR |}
  | HOther mode uid => {| md_kind := KOther; md_len := 0; md_uid := uid; md_mode := mode |}
  end.

Definition node_at (t : FileTree) (found : Result IoError Path) : Result IoError HNode :=
  match found with
  | Err e => Err e
  | Ok p => match t !! p with Some h => Ok h | None => Err NotFound end
  end.
Definition lstat (t : FileTree) (path : Path) : Result IoError HNode := node_at t (locate t path).
Definition stat (t : FileTree) (path : Path) : Result IoError HNode := node_at t (resolve WALK_LIMIT t [] path).

Section Host.
Context {X : HostEnv}.

Definition HostM (A : Type) : Type := M HostOs IoError A.

Definition answer {A} (o : HostOs) (call : HostCall) (path : Path) (r : Result IoError A) : Result IoError A :=
  match lookup_fault (hs_tick o) call path with Some code => Err (OsError code) | None => r end.
Definition meta_result (r : Result IoError HNode) : Result IoError Meta :=
  match r with Ok h => Ok (meta_of h) | Err e => Err e end.

(** The look-ups as they answer at a moment. *)
#[global] Instance host_at (o : HostOs) : Host := {|
  symlink_metadata path := answer o Lstat path (meta_result (lstat (hs_tree o) path));
  host_metadata path := answer o Stat path (meta_result (stat (hs_tree o) path));
  host_read path := answer o Read path
    (match stat (hs_tree o) path with
     | Ok (HFile data _ _) => Ok data
     | Ok _ => Err (OsError 21)
     | Err e => Err e
     end) |}.

(** ** Calls *)

Definition hnext (t : FileTree) (o : HostOs) : HostOs := {| hs_tree := t; hs_tick := S (hs_tick o) |}.

Definition hcall {A} (run : FileTree -> Result IoError A * FileTree) (broken : nat -> FileTree -> FileTree) : HostM A :=
  fun o => match fault (hs_tick o) with
           | Some code => (Err (OsError code), hnext (broken (hs_tick o) (hs_tree o)) o)
           | None => let (r, t) := run (hs_tree o) in (r, hnext t o)
           end.
Definition keep : nat -> FileTree -> FileTree := fun _ t => t.

(** Look-ups made together, by code that only reads. *)
Definition consult {E A} (f : Host -> Result E A) : M HostOs E A := fun o => (f (host_at o), hnext (hs_tree o) o).

(** [OpenOptions::new().write(true).create_new(true).mode(0o600).open(path)]:
    the result stands for the handle. *)
Definition open_new (path : Path) : HostM Path :=
  hcall (fun t => match locate t path with
                  | Err e => (Err e, t)
                  | Ok p => match t !! p with
                            | Some _ => (Err AlreadyExists, t)
                            | None => (Ok p, <[p := HFile [] PRIVATE_FILE process_uid]> t)
                            end
                  end) keep.
(** [output.write_all(bytes)] through the handle just opened. *)
Definition write_handle (p : Path) (b : bytes) : HostM unit :=
  hcall (fun t => (Ok tt, <[p := HFile b PRIVATE_FILE process_uid]> t))
        (fun n t => <[p := HFile (take (torn n) b) PRIVATE_FILE process_uid]> t).
(** [sync_all] on a handle or on an opened directory. *)
Definition sync_host : HostM unit := hcall (fun t => (Ok tt, t)) keep.

(** [mkdir(2)] with mode [0o777] *)
Definition mkdir (path : Path) : HostM unit :=
  hcall (fun t => match locate t path with
                  | Err e => (Err e, t)
                  | Ok p => match t !! p with
                            | Some _ => (Err AlreadyExists, t)
                            | None => (Ok tt, <[p := HDir (Z.land ANY_DIR (Z.lnot umask)) process_uid]> t)
                            end
                  end) keep.
(** [Path::is_dir], [Path::is_file] and [Path::exists]: false when the answer
    cannot be had. *)
Definition stat_is {E} (test : FileKind -> bool) (path : Path) : M HostOs E bool :=
  consult (fun host => Ok (match host_metadata path with Ok m => test (md_kind m) | Err _ => false end)).
Definition is_dir {E} : Path -> M HostOs E bool := stat_is (fun k => bool_decide (k = KDirectory)).
Definition is_regular {E} : Path -> M HostOs E bool := stat_is (fun k => bool_decide (k = KRegular)).
Definition host_exists {E} : Path -> M HostOs E bool := stat_is (fun _ => true).

(** [DirBuilder::create_dir_all]: the directory, its missing parents first. *)
Definition mkdir_or_present (path : Path) (not_found : HostM unit) : HostM unit :=
  let! made := catch (mkdir path) in
  match made with
  | Ok _ => ret tt
  | Err NotFound => not_found
  | Err error => let! present := is_dir path in if present : bool then ret tt else fail error
  end.
Fixpoint create_dirs (reversed : list Component) : HostM unit :=
  let path := rev reversed in
  match reversed with
  | [] => ret tt
  | _ :: up =>
      mkdir_or_present path
        (match parent path with
         | Some _ => create_dirs up ;;
             mkdir_or_present path (let! present := is_dir path in if present : bool then ret tt else fail NotFound)
         | None => fail (OsError 0)
         end)
  end.
Definition create_dir_tree (path : Path) : HostM unit := create_dirs (rev path).

Definition with_mode (mode : Z) (h : HNode) : HNode :=
  match h with
  | HFile data _ uid => HFile data mode uid
  | HDir _ uid => HDir mode uid
  | HLink target uid => HLink target uid
  | HOther _ uid => HOther mode uid
  end.
(** [fs::set_permissions] *)
Definition chmod (path : Path) (mode : Z) : HostM unit :=
  hcall (fun t => match resolve WALK_LIMIT t [] path with
                  | Err e => (Err e, t)
                  | Ok p => match t !! p with
                            | None => (Err NotFound, t)
                            | Some h => (Ok tt, <[p := with_mode mode h]> t)
                            end
                  end) keep.
(** [fs::rename] of a file: any destination but a directory is replaced. *)
Definition rename_host (source destination : Path) : HostM unit :=
  hcall (fun t => match locate t source, locate t destination with
                  | Ok p, Ok q =>
                      match t !! p with
                      | None => (Err NotFound, t)
                      | Some h => if from_option is_hdir false (t !! q) then (Err (OsError 21), t)
                                  else (Ok tt, <[q := h]> (delete p t))
                      end
                  | Err e, _ | _, Err e => (Err e, t)
                  end) keep.
(** [fs::remove_file] *)
Definition unlink (path : Path) : HostM unit :=
  hcall (fun t => match locate t path with
                  | Err e => (Err e, t)
                  | Ok p => match t !! p with
                            | None => (Err NotFound, t)
                            | Some h => if is_hdir h then (Err (OsError 21), t) else (Ok tt, delete p t)
                            end
                  end) keep.
(** [Uuid::new_v4] and [rand::rng().fill] *)
Definition host_uuid : HostM str := fun o => (Ok (new_uuid (hs_tick o)), hnext (hs_tree o) o).
Definition host_bytes (n : nat) : HostM bytes := fun o => (Ok (random_bytes (hs_tick o) n), hnext (hs_tree o) o).

(** ** The credential store's directory

    [Credentials] sees one directory, its files by name.  Everything it
    creates has mode [0o600]. *)

Definition child (dir : Path) (name : str) : Path := dir ++ [Normal name].
Definition child_of (dir path : Path) : option str :=
  match rev path with
  | Normal name :: up => if bool_decide (rev up = dir) then Some name else None
  | _ => None
  end.
Definition plain (h : HNode) : Node :=
  match h with HFile data _ _ => File data | _ => Special 0 end.
Definition dir_view (t : FileTree) (dir : Path) : gmap str Node :=
  map_fold (fun path h view =>
    match child_of dir path with Some name => <[name := plain h]> view | None => view end) ∅ t.
(** A file the store left alone keeps its owner and mode. *)
Definition written_node (old : option HNode) (node : Node) : HNode :=
  let new := match node with File data => HFile data PRIVATE_FILE process_uid | Special _ => HOther 0 process_uid end in
  match old with
  | Some h => if bool_decide (plain h = node) then h else new
  | None => new
  end.
Definition write_back (t : FileTree) (dir : Path) (view : gmap str Node) : FileTree :=
  kmap (child dir) (map_imap (fun name node => Some (written_node (t !! child dir name) node)) view)
  ∪ filter (fun kv => child_of dir kv.1 = None) t.

(** A method of the store at [path], on the directory that holds it: every
    caller has made or checked the file or its directory before. *)
Definition with_store {A} (path : Path) (m : CredM A) : M HostOs CredentialError A :=
  fun o => match locate (hs_tree o) path with
           | Err _ => (Err CredIo, hnext (hs_tree o) o)
           | Ok p =>
               let dir := default [] (parent p) in
               let (r, s) := m {| os_disk := dir_view (hs_tree o) dir; os_tick := hs_tick o |} in
               (r, {| hs_tree := write_back (hs_tree o) dir (os_disk s); hs_tick := os_tick s |})
           end.

End Host.
