(* ===== verification/HostFacts.v ===== *)
(** * Facts about the host's file system

    [retains t t']: whatever was in [t] is still there in [t'], files and
    links untouched.  Every call but [rename] and [unlink] retains; path
    resolution is stable under it. *)

From S2P Require Import Prelude Fs Config Credentials CredentialFacts HostFs.

Create HintDb grows discriminated.

(** ** Trees *)

Definition retains (t t' : FileTree) : Prop :=
  forall p h, t !! p = Some h ->
  t' !! p = Some h \/ (is_hdir h = true /\ exists h', t' !! p = Some h' /\ is_hdir h' = true).

Lemma retains_refl t : retains t t.
Proof. by left. Qed.
Lemma retains_trans t t' t'' : retains t t' -> retains t' t'' -> retains t t''.
Proof.
  intros H1 H2 p h Hp. destruct (H1 p h Hp) as [Hp'|(Hd & h' & Hp' & Hd')]; [by apply H2|right].
  split; [done|]. destruct (H2 p h' Hp') as [?|(_ & h'' & ? & ?)]; eauto.
Qed.
#[export] Hint Resolve retains_refl : grows.

(** Files and links stay as they are. *)
Lemma retains_node t t' p h : retains t t' -> is_hdir h = false -> t !! p = Some h -> t' !! p = Some h.
Proof. intros Hr Hd Hp. destruct (Hr p h Hp) as [|[? _]]; [done|congruence]. Qed.

Lemma retains_insert t p h : t !! p = None -> retains t (<[p := h]> t).
Proof. intros Hp q h' Hq. left. rewrite lookup_insert_ne; [done|]. by intros <-; congruence. Qed.

Lemma retains_subseteq (t t' : FileTree) : t ⊆ t' -> retains t t'.
Proof. intros Hs p h Hp. left. by eapply lookup_weaken. Qed.
Lemma retains_chmod t p h mode : t !! p = Some h -> is_hdir h = true -> retains t (<[p := with_mode mode h]> t).
Proof.
  intros Hp Hd q h' Hq. destruct (decide (q = p)) as [->|]; [|left; by rewrite lookup_insert_ne].
  rewrite Hp in Hq. injection Hq as <-. right. split; [done|]. eexists. rewrite lookup_insert_eq. split; [done|]. by destruct h.
Qed.

(** Same shape: every node stays a node of its kind, a link keeps its target. *)
Definition alike (h h' : HNode) : Prop :=
  match h, h' with
  | HFile _ _ _, HFile _ _ _ | HDir _ _, HDir _ _ | HOther _ _, HOther _ _ => True
  | HLink target _, HLink target' _ => target = target'
  | _, _ => False
  end.
Definition shaped (t t' : FileTree) : Prop := forall p h, t !! p = Some h -> exists h', t' !! p = Some h' /\ alike h h'.

Lemma alike_refl h : alike h h.
Proof. by destruct h. Qed.
Lemma retains_shaped t t' : retains t t' -> shaped t t'.
Proof.
  intros Hr p h Hp. destruct (Hr p h Hp) as [|(Hd & h' & Hp' & Hd')]; [eexists; split; [done|apply alike_refl]|].
  exists h'. split; [done|]. by destruct h, h'.
Qed.

Lemma resolve_shaped fuel t t' current rest p :
  shaped t t' -> resolve fuel t current rest = Ok p -> resolve fuel t' current rest = Ok p.
Proof.
  intros Hr. revert current rest. induction fuel as [|fuel IH]; intros current rest; cbn; [done|].
  destruct rest as [|[| | |name] rest]; eauto. set (q := current ++ [Normal name]).
  destruct (t !! q) as [h|] eqn:Hq; [|done]. destruct (Hr q h Hq) as (h' & -> & Ha).
  destruct h, h'; try done; eauto. cbn in Ha. subst. eauto.
Qed.

Lemma shaped_dir t t' p :
  shaped t t' -> from_option is_hdir false (t !! p) = true -> from_option is_hdir false (t' !! p) = true.
Proof.
  intros Hr. destruct (t !! p) as [h|] eqn:Hp; [|done]. intros Hd.
  destruct (Hr p h Hp) as (h' & -> & Ha). by destruct h, h'.
Qed.

Lemma locate_shaped t t' path p : shaped t t' -> locate t path = Ok p -> locate t' path = Ok p.
Proof.
  intros Hr. unfold locate. destruct (rev path) as [|[| | |name] up]; try by apply resolve_shaped.
  destruct (resolve _ t _ _) as [dir|] eqn:Ed; [|done]. rewrite (resolve_shaped _ t t' _ _ dir) by done.
  destruct (from_option is_hdir false (t !! dir)) eqn:Hd; [|done]. by rewrite (shaped_dir t t').
Qed.
Lemma locate_retains t t' path p : retains t t' -> locate t path = Ok p -> locate t' path = Ok p.
Proof. intros ?%retains_shaped. by apply locate_shaped. Qed.

(** A new file is no step on the way to a directory. *)
Lemma resolve_without_file t p data mode uid fuel current rest q :
  t !! p = None -> resolve fuel (<[p := HFile data mode uid]> t) current rest = Ok q ->
  q = p \/ resolve fuel t current rest = Ok q.
Proof.
  intros Hp. revert current rest. induction fuel as [|fuel IH]; intros current rest; cbn; [done|].
  destruct rest as [|[| | |name] rest]; [by right|apply IH..|].
  destruct (decide (current ++ [Normal name] = p)) as [<-|Hne].
  - rewrite lookup_insert_eq. destruct rest; [|done]. intros [= <-]. by left.
  - rewrite lookup_insert_ne by done. destruct (t !! (current ++ [Normal name])) as [[]|]; first [done|apply IH|by (intros; right)].
Qed.
Lemma locate_without_file t p data mode uid path name q :
  t !! p = None -> file_name path = Some name ->
  locate (<[p := HFile data mode uid]> t) path = Ok q -> locate t path = Ok q.
Proof.
  unfold file_name, locate. intros Hp. destruct (rev path) as [|[| | |n] up]; intros [=].
  destruct (resolve WALK_LIMIT (<[p := HFile data mode uid]> t) [] (rev up)) as [dir|] eqn:E; [|done].
  destruct (decide (dir = p)) as [->|Hne]; [by rewrite lookup_insert_eq|].
  rewrite lookup_insert_ne by done. destruct (resolve_without_file _ _ _ _ _ _ _ _ _ Hp E) as [Hx|Hx]; [done|by rewrite Hx].
Qed.

Lemma locate_child t path p name :
  file_name path = Some name -> locate t path = Ok p -> exists dir, p = child dir name /\ parent p = Some dir.
Proof.
  unfold file_name, locate. destruct (rev path) as [|[| | |n] up]; try done. intros [= ->].
  destruct (resolve _ _ _ _) as [dir|]; [|done]. destruct (from_option _ _ _); [|done]. intros [= <-].
  exists dir. split; [done|]. unfold parent. by rewrite rev_unit, rev_involutive.
Qed.

(** The end of a path, once its directory is known. *)
Lemma resolve_snoc t name fuel fuel' current up dir p :
  resolve fuel t current up = Ok dir -> from_option is_hdir false (t !! (dir ++ [Normal name])) = true ->
  resolve fuel' t current (up ++ [Normal name]) = Ok p -> p = dir ++ [Normal name].
Proof.
  revert fuel' current up. induction fuel as [|fuel IH]; intros fuel' current up Hup Hd Hp; [done|].
  destruct fuel' as [|fuel']; [done|]. destruct up as [|c up]; cbn in *.
  - injection Hup as ->. destruct (t !! (dir ++ [Normal name])) as [[]|]; try done.
    destruct fuel'; cbn in Hp; [done|]. by injection Hp as ->.
  - destruct c as [| | |n]; eauto. destruct (t !! (current ++ [Normal n])) as [[]|]; try done; eauto.
    + by destruct up.
    + eapply IH; [done|done|]. by rewrite <-app_assoc.
    + by destruct up.
Qed.

(** What a located directory resolves to. *)
Lemma locate_resolve t path p q :
  locate t path = Ok p -> from_option is_hdir false (t !! p) = true ->
  resolve WALK_LIMIT t [] path = Ok q -> q = p.
Proof.
  unfold locate. destruct (rev path) as [|[| | |name] up] eqn:E; try congruence.
  destruct (resolve _ t _ (rev up)) as [dir|] eqn:Ed; [|done].
  destruct (from_option _ _ _); [|done]. intros [= <-] Hd Hq.
  assert (path = rev up ++ [Normal name]) as -> by (by rewrite <-(rev_involutive path), E).
  by eapply resolve_snoc.
Qed.

(** ** The directory of the credential store *)

#[global] Instance child_inj dir : Inj (=) (=) (child dir).
Proof. unfold child. intros a b E. apply app_inj_2 in E as [_ [= ->]]; done. Qed.

Lemma child_of_Some dir path name : child_of dir path = Some name <-> path = child dir name.
Proof.
  unfold child_of, child. rewrite <-(rev_involutive path) at 2. destruct (rev path) as [|[| | |n] up]; cbn.
  - split; [done|]. by destruct dir.
  - split; [done|]. by intros [_ [=]]%app_inj_2.
  - split; [done|]. by intros [_ [=]]%app_inj_2.
  - split; [done|]. by intros [_ [=]]%app_inj_2.
  - case_bool_decide as Hd; split; [intros [= ->]; by rewrite Hd| |done|].
    + intros [_ [= ->]]%app_inj_2; done.
    + by intros [? _]%app_inj_2.
Qed.

Lemma dir_view_lookup t dir name : dir_view t dir !! name = plain <$> t !! child dir name.
Proof.
  unfold dir_view. revert name. apply (map_fold_weak_ind (fun view t' =>
    forall name, view !! name = plain <$> t' !! child dir name)); [by intros; rewrite !lookup_empty|].
  intros path h t' view Hp IH name. destruct (child_of dir path) as [n|] eqn:En.
  - apply child_of_Some in En as ->. destruct (decide (name = n)) as [->|Hne].
    + by rewrite !lookup_insert_eq.
    + rewrite !lookup_insert_ne; [apply IH| |done]. by intros [=]%(inj (child dir)).
  - rewrite lookup_insert_ne; [apply IH|]. intros ->. by rewrite (proj2 (child_of_Some _ _ name)) in En.
Qed.

Section Host.
Context {X : HostEnv}.

Lemma write_back_child t dir view name :
  write_back t dir view !! child dir name = written_node (t !! child dir name) <$> view !! name.
Proof.
  unfold write_back. destruct (view !! name) as [node|] eqn:Hv; cbn.
  - apply lookup_union_Some_l. rewrite lookup_kmap by apply _. by rewrite map_lookup_imap, Hv.
  - apply lookup_union_None. split.
    + rewrite lookup_kmap by apply _. by rewrite map_lookup_imap, Hv.
    + apply map_lookup_filter_None. right. intros h _. cbn. by rewrite (proj2 (child_of_Some _ _ name)).
Qed.

Lemma write_back_other t dir view path :
  (forall name, path <> child dir name) -> write_back t dir view !! path = t !! path.
Proof.
  intros Hp. unfold write_back. rewrite lookup_union_r.
  - destruct (t !! path) as [h|] eqn:Ht.
    + apply map_lookup_filter_Some. split; [done|]. cbn.
      destruct (child_of dir path) as [n|] eqn:E; [|done]. apply child_of_Some in E. by destruct (Hp n).
    + apply map_lookup_filter_None. by left.
  - apply lookup_kmap_None; [apply _|]. intros name ->. by destruct (Hp name).
Qed.

Lemma written_plain h : written_node (Some h) (plain h) = h.
Proof. unfold written_node. by rewrite bool_decide_eq_true_2. Qed.

Lemma plain_written old b : plain (written_node old (File b)) = File b.
Proof. unfold written_node. destruct old as [h|]; [|done]. by case_bool_decide. Qed.

Lemma written_file old node b mode uid : written_node old node = HFile b mode uid -> node = File b.
Proof.
  unfold written_node. destruct old as [h|]; [case_bool_decide as Hp; [intros ->; by rewrite <-Hp|]|]; by destruct node as [|]; intros [=]; subst.
Qed.

(** ** Calls that retain *)

Definition grows {E A} (m : M HostOs E A) : Prop := forall o, retains (hs_tree o) (hs_tree (m o).2).

Lemma grows_hcall {A} (run : FileTree -> Result IoError A * FileTree) broken :
  (forall t, retains t (run t).2) -> (forall n t, retains t (broken n t)) -> grows (hcall run broken).
Proof.
  intros Hr Hb o. unfold hcall. destruct (fault (hs_tick o)); cbn; [apply Hb|].
  specialize (Hr (hs_tree o)). by destruct (run (hs_tree o)).
Qed.
Lemma grows_bind {E A B} (m : M HostOs E A) (k : A -> M HostOs E B) :
  grows m -> (forall a, grows (k a)) -> grows (bind m k).
Proof.
  intros Hm Hk o. unfold bind. specialize (Hm o). destruct (m o) as [[a|e] o']; cbn in *; [|done].
  eapply retains_trans; [done|apply Hk].
Qed.
Lemma grows_pure {E A} (f : HostOs -> Result E A) : grows (fun o => (f o, o)).
Proof. intros o. apply retains_refl. Qed.
Lemma grows_ret {E A} (a : A) : grows (E:=E) (ret a).
Proof. apply (grows_pure (fun _ => Ok a)). Qed.
Lemma grows_fail {E A} (e : E) : grows (A:=A) (fail e).
Proof. apply (grows_pure (fun _ => Err e)). Qed.
Lemma grows_throw_if {E} b (e : E) : grows (throw_if b e).
Proof. apply (grows_pure (fun _ => if b then Err e else Ok tt)). Qed.
Lemma grows_ok_or {E A} (a : option A) (e : E) : grows (ok_or a e).
Proof. apply (grows_pure (fun _ => match a with Some x => Ok x | None => Err e end)). Qed.
Lemma grows_ok_or_bind {E A B} (a : option A) (e : E) (k : A -> M HostOs E B) :
  (forall x, a = Some x -> grows (k x)) -> grows (bind (ok_or a e) k).
Proof. intros Hk o. unfold bind, ok_or. destruct a; [by apply Hk|apply retains_refl]. Qed.
Lemma grows_of_result {E A} (r : Result E A) : grows (of_result r).
Proof. apply (grows_pure (fun _ => r)). Qed.
Lemma grows_catch {E A} (m : M HostOs E A) : grows m -> grows (catch m).
Proof. intros Hm o. specialize (Hm o). unfold catch. by destruct (m o). Qed.
Lemma grows_for_each {E A} (l : list A) (body : A -> M HostOs E unit) :
  (forall x, grows (body x)) -> grows (for_each l body).
Proof. intros Hb. induction l as [|x l IH]; cbn; [apply grows_ret|]. by apply grows_bind; [apply Hb|]. Qed.
Lemma grows_consult {E A} (f : Host -> Result E A) : grows (consult f).
Proof. intros o. apply retains_refl. Qed.
Lemma grows_stat_is {E} test path : grows (stat_is (E:=E) test path).
Proof. apply grows_consult. Qed.
Lemma grows_host_uuid : grows host_uuid.
Proof. intros o. apply retains_refl. Qed.
Lemma grows_host_bytes n : grows (host_bytes n).
Proof. intros o. apply retains_refl. Qed.
Lemma grows_sync_host : grows sync_host.
Proof. apply grows_hcall; intros; apply retains_refl. Qed.
Lemma grows_open_new path : grows (open_new path).
Proof.
  apply grows_hcall; [|intros; apply retains_refl]. intros t.
  destruct (locate t path) as [p|]; [|apply retains_refl]. destruct (t !! p) eqn:E; [apply retains_refl|by apply retains_insert].
Qed.
Lemma grows_mkdir path : grows (mkdir path).
Proof.
  apply grows_hcall; [|intros; apply retains_refl]. intros t.
  destruct (locate t path) as [p|]; [|apply retains_refl]. destruct (t !! p) eqn:E; [apply retains_refl|by apply retains_insert].
Qed.

End Host.

#[export] Hint Resolve grows_ret grows_fail grows_throw_if grows_ok_or grows_of_result grows_consult grows_stat_is
  grows_host_uuid grows_host_bytes grows_sync_host grows_open_new grows_mkdir grows_catch : grows.

(** Walks a program and closes every call with the database. *)
Ltac grows_tac :=
  repeat first
    [ progress intros
    | solve [eauto with grows]
    | apply grows_bind
    | apply grows_for_each
    | match goal with
      | |- grows (match ?x with _ => _ end) => destruct x
      | |- grows (if ?b then _ else _) => destruct b
      end ].

Section Directories.
Context {X : HostEnv}.

Lemma wp_hcall {A} (run : FileTree -> Result IoError A * FileTree) broken (Q : Result IoError A -> HostOs -> Prop) o :
  (forall code, Q (Err (OsError code)) (hnext (broken (hs_tick o) (hs_tree o)) o)) ->
  Q (run (hs_tree o)).1 (hnext (run (hs_tree o)).2 o) ->
  wp (hcall run broken) Q o.
Proof.
  intros Hf Hr. unfold wp, hcall. destruct (fault (hs_tick o)); cbn; [apply Hf|]. by destruct (run (hs_tree o)).
Qed.

(** A path that, as far as it resolves, names a directory. *)
Definition leads_to_dir (t : FileTree) (path : Path) : Prop :=
  forall q, resolve WALK_LIMIT t [] path = Ok q -> from_option is_hdir false (t !! q) = true.

Lemma wp_is_dir {E} path (Q : Result E bool -> HostOs -> Prop) o :
  (forall b, (b = true -> leads_to_dir (hs_tree o) path) -> Q (Ok b) (hnext (hs_tree o) o)) ->
  wp (is_dir path) Q o.
Proof.
  intros HQ. unfold wp, is_dir, stat_is, consult. cbn. apply HQ. unfold answer.
  destruct (lookup_fault _ _ _); [done|]. unfold stat, node_at, leads_to_dir.
  destruct (resolve _ _ _ path) as [p|]; [|done]. intros Hb q [= <-].
  destruct (hs_tree o !! p) as [h|]; [|done]. cbn in *. apply bool_decide_eq_true in Hb. by destruct h.
Qed.

Lemma wp_mkdir path o :
  wp (mkdir path) (fun r o' => match r with Ok _ => leads_to_dir (hs_tree o') path | Err _ => True end) o.
Proof.
  apply wp_hcall; [done|]. destruct (locate (hs_tree o) path) as [p|] eqn:El; [|done].
  destruct (hs_tree o !! p) eqn:Ep; [done|]. cbn. intros q Hq.
  set (t' := <[p := _]> _) in *. assert (Hp : from_option is_hdir false (t' !! p) = true)
    by (unfold t'; by rewrite lookup_insert_eq).
  rewrite (locate_resolve t' path p q); [done| |done|done].
  eapply locate_retains; [|done]. by apply retains_insert.
Qed.

Lemma wp_mkdir_or_present path not_found o :
  (forall o', wp not_found (fun r o'' => match r with Ok _ => leads_to_dir (hs_tree o'') path | Err _ => True end) o') ->
  wp (mkdir_or_present path not_found)
    (fun r o' => match r with Ok _ => leads_to_dir (hs_tree o') path | Err _ => True end) o.
Proof.
  intros Hnf. unfold mkdir_or_present. do 2 wp_step. eapply wp_mono; [apply wp_mkdir|].
  intros [[]|e] o' Ho'; [by wp_step|]. destruct e; try apply Hnf.
  all: wp_step; apply wp_is_dir; intros [] Hb; [by apply wp_ret, Hb|done].
Qed.

Lemma create_dir_tree_leads path o :
  path <> [] -> wp (create_dir_tree path)
    (fun r o' => match r with Ok _ => leads_to_dir (hs_tree o') path | Err _ => True end) o.
Proof.
  intros Hne. unfold create_dir_tree. destruct (rev path) as [|c up] eqn:E.
  { destruct Hne. by rewrite <-(rev_involutive path), E. }
  assert (rev (c :: up) = path) as Hp by (rewrite <-E; apply rev_involutive).
  cbn [create_dirs]. rewrite Hp. apply wp_mkdir_or_present. intros o1. destruct (parent path); [|done].
  wp_step. unfold wp at 1. destruct (create_dirs up o1) as [[[]|e] o2]; cbn; [|done].
  apply wp_mkdir_or_present. intros o3. wp_step. apply wp_is_dir. intros [] Hb; [by apply wp_ret, Hb|done].
Qed.

Lemma grows_create_dirs reversed : grows (create_dirs reversed).
Proof.
  induction reversed as [|c up IH]; cbn [create_dirs]; [apply grows_ret|]. unfold mkdir_or_present. grows_tac; done.
Qed.
Lemma grows_create_dir_tree path : grows (create_dir_tree path).
Proof. apply grows_create_dirs. Qed.

Lemma chmod_dir_retains path mode o : leads_to_dir (hs_tree o) path -> retains (hs_tree o) (hs_tree (chmod path mode o).2).
Proof.
  intros Hl. apply (wp_hcall _ keep (fun _ o' => retains (hs_tree o) (hs_tree o'))); [intros; apply retains_refl|].
  destruct (resolve _ _ _ path) as [p|] eqn:Er; [|apply retains_refl]. specialize (Hl _ Er).
  destruct (hs_tree o !! p) as [h|] eqn:Ep; [|apply retains_refl]. by apply retains_chmod.
Qed.

End Directories.
#[export] Hint Resolve grows_create_dir_tree : grows.

(** ** A method of the credential store *)

Section Store.
Context {X : HostEnv}.

(** What a method of the store leaves of a node: the node, or, where the store
    is, a file with other contents. *)
Lemma with_store_spares {A} path (m : CredM A) o p h name :
  file_name path = Some name -> spares path m -> hs_tree o !! p = Some h ->
  let t' := hs_tree (with_store path m o).2 in
  t' !! p = Some h \/
  (locate (hs_tree o) path = Ok p /\ is_hdir h = false /\ exists h', t' !! p = Some h' /\ alike h h').
Proof.
  intros Hname Hm Hp. unfold with_store. destruct (locate (hs_tree o) path) as [q|] eqn:El; [|by left].
  destruct (locate_child _ _ _ _ Hname El) as (dir & Hq & ->). cbn [default]. set (s := Build_Os _ _ _ _ _).
  specialize (Hm s). destruct (m s) as [r s']. cbn in *.
  destruct (decide (child_of dir p = None)) as [Hc|[n Hc]%not_eq_None_Some].
  { left. rewrite write_back_other; [done|]. intros n ->. by rewrite (proj2 (child_of_Some _ _ n)) in Hc. }
  apply child_of_Some in Hc as ->. rewrite write_back_child, Hp.
  destruct (Hm n (plain h)) as [->|(-> & Hf & b & ->)]; [by rewrite dir_view_lookup, Hp| |].
  - left. apply (f_equal Some), written_plain.
  - right. assert (store_name path = name) as -> by (unfold store_name; by rewrite Hname).
    rewrite Hq. destruct h as [data mode uid| | |]; try done. split_and!; [done..|]. eexists. split; [done|].
    cbn. by case_bool_decide.
Qed.

Lemma with_store_idle {A} path (m : CredM A) o p h :
  (forall s, os_disk (m s).2 = os_disk s) -> hs_tree o !! p = Some h ->
  hs_tree (with_store path m o).2 !! p = Some h.
Proof.
  intros Hm Hp. unfold with_store. destruct (locate (hs_tree o) path) as [q|]; [|done]. set (dir := default [] _).
  set (s := Build_Os _ _ _ _ _). specialize (Hm s). destruct (m s) as [r s']. cbn in *. rewrite Hm.
  destruct (decide (child_of dir p = None)) as [Hc|[n Hc]%not_eq_None_Some].
  - rewrite write_back_other; [done|]. intros n ->. by rewrite (proj2 (child_of_Some _ _ n)) in Hc.
  - apply child_of_Some in Hc as ->. rewrite write_back_child, dir_view_lookup, Hp. apply (f_equal Some), written_plain.
Qed.

Lemma with_store_shaped {A} path (m : CredM A) o name :
  file_name path = Some name -> spares path m -> shaped (hs_tree o) (hs_tree (with_store path m o).2).
Proof.
  intros Hname Hm p h Hp. destruct (with_store_spares path m o p h name Hname Hm Hp) as [?|(_ & _ & ?)]; [|done].
  eexists. split; [done|apply alike_refl].
Qed.

End Store.
