(* ===== verification/Setup.v ===== *)
(** * Creating the secrets ([src/config.rs], [initialize] and [rotate_receiver_token])

    [teslatlas-edge init] creates the receiver bearer, the spool key and an
    empty credential store; [receiver-token rotate] replaces the bearer.
    Theorems: under any failures neither loses or overwrites a file; after a
    successful [initialize] the secrets are private and pass the startup
    checks; a rotation replaces the bearer in one step. *)

From S2P Require Import Prelude Fs Config Credentials CredentialFacts HostFs HostFacts.

Record IssuedReceiverToken := { it_token : str }.

Section Operations.
Context {X : HostEnv}.

Definition ConfigM (A : Type) : Type := M HostOs ConfigError A.
(** [call().map_err(|_| ConfigError::Io)?] *)
Definition hio {E A} (m : M HostOs E A) : ConfigM A :=
  fun o => let (r, o') := m o in (match r with Ok a => Ok a | Err _ => Err ConfigIo end, o').
Definition hio_catch {A} (m : HostM A) : ConfigM (Result IoError A) :=
  fun o => let (r, o') := m o in (Ok r, o').
Definition contains_symlink (path : Path) : ConfigM bool := consult (fun host => path_contains_symlink path).

Definition create_private_directory (path : Path) : ConfigM unit :=
  let! linked := contains_symlink path in
  throw_if linked InvalidPath ;;
  let! found := consult (fun host => Ok (symlink_metadata path)) in
  match found with
  | Ok metadata =>
      throw_if (bool_decide (md_kind metadata = KSymlink) || negb (bool_decide (md_kind metadata = KDirectory)))
        InvalidPath ;;
      throw_if (negb (Z.land (md_mode metadata) 63 =? 0)) UnsafePermissions
  | Err NotFound =>
      hio (create_dir_tree path) ;;
      hio (chmod path PRIVATE_DIR)
  | Err _ => fail ConfigIo
  end.

Definition write_new_private (path : Path) (contents : bytes) : ConfigM unit :=
  let! opened := hio_catch (open_new path) in
  match opened with
  | Err AlreadyExists => fail AlreadyInitialized
  | Err _ => fail ConfigIo
  | Ok output =>
      hio (write_handle output contents) ;;
      hio sync_host ;;
      match parent path with
      | Some _ => hio sync_host
      | None => ret tt
      end
  end.

Definition secret_paths (c : EdgeConfig) : list Path :=
  [cfg_receiver_bearer_path c; cfg_spool_key_path c; cfg_credential_store_path c].

Definition refuse_existing (path : Path) : ConfigM unit :=
  let! present := host_exists path in
  if present : bool then fail AlreadyInitialized
  else let! linked := contains_symlink path in throw_if linked AlreadyInitialized.
Definition ensure_parent (path : Path) : ConfigM unit :=
  let! up := ok_or (parent path) InvalidPath in
  let! present := host_exists up in
  if present : bool then ret tt else create_private_directory up.

Definition initialize (c : EdgeConfig) : ConfigM unit :=
  of_result (validate_shape c) ;;
  for_each (secret_paths c) refuse_existing ;;
  create_private_directory (cfg_state_directory c) ;;
  for_each (secret_paths c) ensure_parent ;;
  let! receiver_secret := hio (host_bytes 32) in
  write_new_private (cfg_receiver_bearer_path c) (base64_encode receiver_secret) ;;
  let! spool_key := hio (host_bytes 32) in
  write_new_private (cfg_spool_key_path c) spool_key ;;
  hio (with_store (cfg_credential_store_path c) (open_store (cfg_credential_store_path c))).

Definition rotate_receiver_token (c : EdgeConfig) : ConfigM IssuedReceiverToken :=
  let destination := cfg_receiver_bearer_path c in
  let! linked := contains_symlink destination in
  if linked : bool then fail MissingFile
  else
    let! present := is_regular destination in
    throw_if (negb present) MissingFile ;;
    let! up := ok_or (parent destination) InvalidPath in
    let! u := hio host_uuid in
    let temporary := join up (lit ".receiver-token." ++ u ++ lit ".tmp") in
    let! secret := hio (host_bytes 32) in
    let token := base64_encode secret in
    write_new_private temporary token ;;
    let! renamed := hio_catch (rename_host temporary destination) in
    match renamed with
    | Err _ => let! ignored := hio_catch (unlink temporary) in fail ConfigIo
    | Ok _ =>
        hio sync_host ;;
        ret {| it_token := token |}
    end.

End Operations.

(** ** Nothing is lost *)

Section Safety.
Context {X : HostEnv}.

Lemma grows_hio {E A} (m : M HostOs E A) : grows m -> grows (hio m).
Proof. intros Hm o. specialize (Hm o). unfold hio. by destruct (m o). Qed.
Lemma grows_hio_catch {A} (m : HostM A) : grows m -> grows (hio_catch m).
Proof. intros Hm o. specialize (Hm o). unfold hio_catch. by destruct (m o). Qed.
#[local] Hint Resolve grows_hio grows_hio_catch : grows.

Lemma wp_hio {E A} (m : M HostOs E A) (Q : Result ConfigError A -> HostOs -> Prop) o :
  wp m (fun r o' => Q (match r with Ok a => Ok a | Err _ => Err ConfigIo end) o') o -> wp (hio m) Q o.
Proof. unfold wp, hio. by destruct (m o). Qed.
Lemma wp_hio_catch {A} (m : HostM A) (Q : Result ConfigError (Result IoError A) -> HostOs -> Prop) o :
  wp m (fun r o' => Q (Ok r) o') o -> wp (hio_catch m) Q o.
Proof. unfold wp, hio_catch. by destruct (m o). Qed.
Lemma wp_consult {E A} (f : Host -> Result E A) (Q : Result E A -> HostOs -> Prop) o :
  Q (f (host_at o)) (hnext (hs_tree o) o) -> wp (consult f) Q o.
Proof. done. Qed.

Lemma grows_create_private_directory path : path <> [] -> grows (create_private_directory path).
Proof.
  intros Hne o. change (wp (create_private_directory path) (fun _ o' => retains (hs_tree o) (hs_tree o')) o).
  unfold create_private_directory, contains_symlink. wp_step. apply wp_consult. cbn [hs_tree hnext].
  destruct (path_contains_symlink path); [|apply retains_refl]. do 2 wp_step; [apply retains_refl|].
  wp_step. apply wp_consult.
  destruct (symlink_metadata path) as [m|[]]; try apply retains_refl.
  - do 2 wp_step; apply retains_refl.
  - match goal with |- wp _ _ ?s => set (o1 := s); assert (Ho1 : hs_tree o1 = hs_tree o) by done end.
    clearbody o1. rewrite <-Ho1. wp_step. apply wp_hio. pose proof (grows_create_dir_tree path o1) as Hg.
    pose proof (create_dir_tree_leads path o1 Hne) as Hl. unfold wp in Hl |- * at 1.
    destruct (create_dir_tree path o1) as [[[]|e] o2]; cbn in *; [|done].
    apply wp_hio. unfold wp. eapply retains_trans; [done|]. by apply chmod_dir_retains.
Qed.

(** A new private file, or nothing new of that name. *)
Lemma wp_write_new_private path contents o :
  wp (write_new_private path contents) (fun r o' =>
    hs_tree o ⊆ hs_tree o' /\
    (r = Ok tt -> exists p, locate (hs_tree o) path = Ok p /\ hs_tree o !! p = None /\
       hs_tree o' = <[p := HFile contents PRIVATE_FILE process_uid]> (hs_tree o))) o.
Proof.
  unfold write_new_private. wp_step. apply wp_hio_catch, wp_hcall; [intros; split; [done|done]|].
  destruct (locate (hs_tree o) path) as [p|e] eqn:El; cbn [fst snd];
    [|destruct e; (split; [done|done])].
  destruct (hs_tree o !! p) eqn:Ep; cbn [fst snd]; [split; [done|done]|].
  wp_step. apply wp_hio, wp_hcall; cbn [fst snd hs_tree hnext].
  { intros code. rewrite insert_insert_eq. split; [by apply insert_subseteq|done]. }
  rewrite insert_insert_eq. set (t' := <[p := _]> _).
  assert (Hend : forall r : Result ConfigError unit, hs_tree o ⊆ t' /\
    (r = Ok tt -> exists q, @Ok IoError _ p = Ok q /\ hs_tree o !! q = None /\
       t' = <[q := HFile contents PRIVATE_FILE process_uid]> (hs_tree o))).
  { intros r. split; [by apply insert_subseteq|]. intros _. by exists p. }
  wp_step. apply wp_hio, wp_hcall; cbn [fst snd hs_tree hnext]; [intros; apply Hend|].
  destruct (parent path); [|apply wp_ret, Hend].
  apply wp_hio, wp_hcall; cbn [fst snd hs_tree hnext]; intros; apply Hend.
Qed.

Lemma grows_write_new_private path contents : grows (write_new_private path contents).
Proof. intros o. apply retains_subseteq, (wp_write_new_private path contents o). Qed.
#[local] Hint Resolve grows_write_new_private : grows.

Lemma grows_refuse_existing path : grows (refuse_existing path).
Proof. unfold refuse_existing, contains_symlink. grows_tac. Qed.
Lemma grows_ensure_parent path : is_absolute path = true -> grows (ensure_parent path).
Proof.
  intros Ha. unfold ensure_parent. apply grows_ok_or_bind. intros up Eu.
  apply grows_bind; [apply grows_stat_is|]. intros []; [apply grows_ret|]. apply grows_create_private_directory.
  intros ->. unfold parent in Eu. rewrite <-(rev_involutive path) in Ha.
  destruct (rev path) as [|[] [|c r]] eqn:E; cbn in *; try done; injection Eu as Eu; by destruct (rev r).
Qed.

(** Everything [initialize] does before it opens the credential store. *)
Definition prepare (c : EdgeConfig) : ConfigM unit :=
  of_result (validate_shape c) ;;
  for_each (secret_paths c) refuse_existing ;;
  create_private_directory (cfg_state_directory c) ;;
  for_each (secret_paths c) ensure_parent ;;
  let! receiver_secret := hio (host_bytes 32) in
  write_new_private (cfg_receiver_bearer_path c) (base64_encode receiver_secret) ;;
  let! spool_key := hio (host_bytes 32) in
  write_new_private (cfg_spool_key_path c) spool_key.

Lemma initialize_prepare c o :
  initialize c o = bind (prepare c)
    (fun _ => hio (with_store (cfg_credential_store_path c) (open_store (cfg_credential_store_path c)))) o.
Proof.
  unfold initialize, prepare, bind. repeat (match goal with |- context [match ?m with (_, _) => _ end] =>
    lazymatch m with context [match _ with (_, _) => _ end] => fail | _ => destruct m as [[]] end end; try done).
Qed.

Lemma shape_absolute c path :
  validate_shape c = Ok tt -> path ∈ cfg_state_directory c :: runtime_paths c -> is_absolute path = true.
Proof.
  unfold validate_shape. destruct (negb _); [done|]. destruct (forallb is_absolute _) eqn:E; [|done].
  intros _ Hin. by apply (proj1 (List.forallb_forall _ _) E), list_elem_of_In.
Qed.

Lemma grows_prepare c : grows (prepare c).
Proof.
  intros o. unfold prepare. unfold bind at 1, of_result at 1.
  destruct (validate_shape c) as [[]|] eqn:Hv; [|apply retains_refl]. revert o. change (grows (
    for_each (secret_paths c) refuse_existing ;;
    create_private_directory (cfg_state_directory c) ;;
    for_each (secret_paths c) ensure_parent ;;
    let! receiver_secret := hio (host_bytes 32) in
    write_new_private (cfg_receiver_bearer_path c) (base64_encode receiver_secret) ;;
    let! spool_key := hio (host_bytes 32) in
    write_new_private (cfg_spool_key_path c) spool_key)).
  pose proof (fun path => shape_absolute c path Hv) as Habs.
  apply grows_bind; [apply grows_for_each; intros; apply grows_refuse_existing|]. intros _.
  apply grows_bind; [apply grows_create_private_directory; intros E; by specialize (Habs _ (list_elem_of_here _ _)); rewrite E in Habs|].
  intros _. apply grows_bind; [|grows_tac].
  assert (Hin : forall path, path ∈ secret_paths c -> is_absolute path = true).
  { intros path Hp. apply Habs. unfold secret_paths, runtime_paths in *. set_solver. }
  revert Hin. generalize (secret_paths c). intros l Hin. induction l as [|path l IH]; [apply grows_ret|].
  cbn. apply grows_bind; [apply grows_ensure_parent, Hin; set_solver|]. intros _. apply IH. set_solver.
Qed.

(** C27: through any failures, [initialize] overwrites nothing: a file, link or
    other node that was there is still there, unchanged, unless it is the file
    of the credential store itself; directories stay directories. *)
Theorem initialize_overwrites_nothing c o p h :
  hs_tree o !! p = Some h -> locate (hs_tree (initialize c o).2) (cfg_credential_store_path c) <> Ok p ->
  exists h', hs_tree (initialize c o).2 !! p = Some h' /\ alike h h' /\ (is_hdir h = false -> h' = h).
Proof.
  intros Hp. rewrite initialize_prepare. unfold bind. pose proof (grows_prepare c o) as Hg.
  assert (exists h1, hs_tree (prepare c o).2 !! p = Some h1 /\ alike h h1 /\ (is_hdir h = false -> h1 = h)) as (h1 & Hp1 & Ha & Hh).
  { destruct (retains_shaped _ _ Hg p h Hp) as (h' & Hp' & Ha). exists h'. split_and!; [done..|].
    intros Hd. rewrite (retains_node _ _ _ _ Hg Hd Hp) in Hp'. by injection Hp' as <-. }
  destruct (prepare c o) as [[[]|e] o1]; cbn [snd] in *; [|by exists h1].
  set (path := cfg_credential_store_path c). unfold hio. intros Hne.
  pose proof (with_store_idle path (open_store path) o1 p h1) as Hidle.
  pose proof (fun name => with_store_spares path (open_store path) o1 p h1 name) as Hspare.
  pose proof (fun name => with_store_shaped path (open_store path) o1 name) as Hshape.
  destruct (with_store path (open_store path) o1) as [r o2]. cbn [snd] in *.
  destruct (file_name path) as [name|] eqn:En.
  - destruct (Hspare name) as [?|(Hl & _)]; [done|apply spares_open_store|done|by exists h1|].
    destruct Hne. eapply locate_shaped; [|done]. by apply (Hshape name), spares_open_store.
  - exists h1. split_and!; [|done..]. apply Hidle; [|done]. intros s. by apply open_store_nameless.
Qed.

(** ** Rotation *)

Definition fresh_token (token : str) : Prop := exists secret, length secret = 32%nat /\ token = base64_encode secret.
(** Every node is kept, but a fresh token may have taken the place of [dest]. *)
Definition swapped (dest : Path) (t t' : FileTree) : Prop :=
  forall p h, t !! p = Some h -> t' !! p = Some h \/
    (locate t dest = Ok p /\ exists token, fresh_token token /\ t' !! p = Some (HFile token PRIVATE_FILE process_uid)).
Definition handed_out (dest : Path) (t t' : FileTree) (r : Result ConfigError IssuedReceiverToken) : Prop :=
  forall issued, r = Ok issued -> fresh_token (it_token issued) /\
    exists p, locate t dest = Ok p /\ t' !! p = Some (HFile (it_token issued) PRIVATE_FILE process_uid).

Lemma swapped_subseteq (dest : Path) (t t' : FileTree) (e : ConfigError) : t ⊆ t' -> swapped dest t t' /\ handed_out dest t t' (Err e).
Proof. intros Hsub. split; [|done]. intros p h Hp. left. by eapply lookup_weaken. Qed.

(** The new token is complete beside the bearer and takes its place. *)
Lemma install_token dest temp token t p name o :
  file_name dest = Some name -> fresh_token token -> t !! p = None -> locate t temp = Ok p ->
  hs_tree o = <[p := HFile token PRIVATE_FILE process_uid]> t ->
  wp (let! renamed := hio_catch (rename_host temp dest) in
      match renamed with
      | Err _ => let! ignored := hio_catch (unlink temp) in fail ConfigIo
      | Ok _ => hio sync_host ;; ret {| it_token := token |}
      end) (fun r o' => swapped dest t (hs_tree o') /\ handed_out dest t (hs_tree o') r) o.
Proof.
  intros Hname Hfresh Hnone Hl Ho. set (t1 := <[p := _]> t) in Ho.
  assert (Hp1 : t1 !! p = Some (HFile token PRIVATE_FILE process_uid)) by apply lookup_insert_eq.
  assert (Hsub : t ⊆ t1) by (by apply insert_subseteq).
  assert (Htemp : locate t1 temp = Ok p) by (by eapply locate_retains; [apply retains_subseteq|]).
  assert (Hundo : forall o', hs_tree o' = t1 -> wp (let! ignored := hio_catch (unlink temp) in fail ConfigIo)
    (fun r o'' => swapped dest t (hs_tree o'') /\ handed_out dest t (hs_tree o'') r) o').
  { intros o' Ho'. wp_step. apply wp_hio_catch, wp_hcall; cbn [hs_tree hnext keep]; rewrite Ho'.
    { intros code. by apply wp_fail, swapped_subseteq. }
    rewrite Htemp, Hp1. cbn [is_hdir fst snd].
    apply wp_fail, swapped_subseteq. cbn [hs_tree hnext]. unfold t1. by rewrite delete_insert_id. }
  wp_step. apply wp_hio_catch, wp_hcall; [intros code; by apply Hundo|]. rewrite Ho, Htemp.
  destruct (locate t1 dest) as [q|e] eqn:Hq; cbn [fst snd]; [|by apply Hundo].
  rewrite Hp1. destruct (from_option is_hdir false (t1 !! q)); cbn [fst snd]; [by apply Hundo|].
  set (t2 := <[q := _]> _). assert (Hdest : locate t dest = Ok q) by (by eapply locate_without_file).
  assert (Hswap : forall r : Result ConfigError IssuedReceiverToken,
    (forall issued, r = Ok issued -> it_token issued = token) -> swapped dest t t2 /\ handed_out dest t t2 r).
  { intros r Hr. split.
    - intros p' h Hp'. destruct (decide (p' = q)) as [->|Hne].
      + right. split; [done|]. exists token. unfold t2. by rewrite lookup_insert_eq.
      + left. unfold t2. rewrite lookup_insert_ne by done. unfold t1. rewrite delete_insert_id by done. done.
    - intros issued Hi. rewrite (Hr issued Hi). split; [done|]. exists q. unfold t2. by rewrite lookup_insert_eq. }
  wp_step. apply wp_hio, wp_hcall; [intros code; by apply Hswap|]. cbn [fst snd hs_tree hnext].
  apply wp_ret, Hswap. by intros issued [= <-].
Qed.

(** C28: a rotation replaces the receiver bearer in one step: at every exit,
    under any failures, the bearer's place holds what it held or a complete
    new token that only the service's user can read, and every other file is
    unchanged; after a success it holds the token that was handed out. *)
Theorem receiver_rotation_atomic c o name :
  file_name (cfg_receiver_bearer_path c) = Some name ->
  swapped (cfg_receiver_bearer_path c) (hs_tree o) (hs_tree (rotate_receiver_token c o).2) /\
  handed_out (cfg_receiver_bearer_path c) (hs_tree o) (hs_tree (rotate_receiver_token c o).2) (rotate_receiver_token c o).1.
Proof.
  set (dest := cfg_receiver_bearer_path c). intros Hname. change (wp (rotate_receiver_token c) (fun r o' =>
    swapped dest (hs_tree o) (hs_tree o') /\ handed_out dest (hs_tree o) (hs_tree o') r) o).
  unfold rotate_receiver_token, contains_symlink. fold dest. wp_step. apply wp_consult.
  destruct (path_contains_symlink dest) as [[]|]; [by apply wp_fail, swapped_subseteq| |by apply swapped_subseteq].
  wp_step. apply wp_consult. cbn [hs_tree hnext]. do 2 wp_step; [by apply swapped_subseteq|].
  do 2 wp_step; [|by apply swapped_subseteq].
  wp_step. apply wp_hio. unfold wp at 1, host_uuid. cbn [fst snd]. wp_step. apply wp_hio.
  unfold wp at 1, host_bytes. cbn [fst snd]. set (secret := random_bytes _ 32). set (temp := join _ _).
  match goal with |- wp _ _ ?s => set (o1 := s); assert (Ho1 : hs_tree o1 = hs_tree o) by done end.
  assert (Hfresh : fresh_token (base64_encode secret)) by (exists secret; split; [apply random_bytes_length|done]).
  clearbody o1 secret temp. wp_step. eapply wp_mono; [apply wp_write_new_private|]. rewrite Ho1.
  intros [[]|e] o2 [Hsub Hok]; [|by apply swapped_subseteq].
  destruct (Hok eq_refl) as (p & Hl & Hnone & Ht2). by eapply install_token.
Qed.

End Safety.
