(* ===== verification/SpoolSpec.v ===== *)
(** * What the spool promises: an event system

    The abstract specification of the spool.  An [Event] is one thing the
    spool may do to what it tracks: admit a record, record a gap, drop a
    record because its gap is recorded, drop something because a receipt
    accepts it, and so on.  [enabled] is when the event may happen, [effect]
    what it does to the state, [evidence] what must be on disk afterwards.

    Every event keeps the invariant [wf] and the durability of everything
    tracked, and never loses an admitted sequence number except under a
    committed receipt.  [SpoolRefine] shows that each operation of [SpoolOps]
    is a sequence of such events, whatever storage faults occur.

    A write can fail after its file has appeared: [LostAdmit] and [LostCommit]
    are the events in which the caller is told of a failure, nothing is
    remembered, and the file is found when the spool is opened again. *)

From S2P Require Import Prelude Protocol Crypto Fs SpoolTypes SpoolFacts SpoolBase SpoolOps SpoolFrame SpoolInv.

(** The assumptions about third-party code: authenticated encryption opens
    what it sealed, JSON reads back what it wrote, identities do not collide. *)
Class SpoolLaws {X : SpoolEnv} := {
  laws_aead :: AeadLaws;
  laws_ids :: IdLaws;
  laws_stored :: SerdeLaws StoredRecord;
  laws_gap :: SerdeLaws GapNoticeV2;
  laws_receipt :: SerdeLaws AckReceipt;
  laws_sequence :: SerdeLaws SequenceState;
}.

Inductive Event :=
| Quiet
| Admit (e : Entry)
| RecordGap (g : GapEntry)
| DropGapped (e : Entry)
| DropAcked (r : AckReceipt) (e : Entry)
| DropGap (r : AckReceipt) (g : GapEntry)
| Commit (re : ReceiptEntry)
| LostAdmit (e : Entry)
| LostCommit (re : ReceiptEntry)
| Prune (re : ReceiptEntry)
| CountExpired (total : Z) (counted : gmap Z RecordId)
| Uncount (seq : Z)
| TakeReceiptSequence
| ForgetV1History
| CountCorrupt.

Section Spec.
Context {X : SpoolEnv}.

(** ** What the disk holds *)

(** The file at [p] decrypts and parses to [a]. *)
Definition holds {A} `{Serde A} (key : bytes) (disk : gmap SpoolPath Node) (p : SpoolPath)
    (limit : Z) (a : A) : Prop :=
  exists b plaintext, disk !! p = Some (File b) /\ len b <= limit /\
    decrypt key b = Ok plaintext /\ from_slice plaintext = Some a.

Definition stored_matches (e : Entry) (st : StoredRecord) : Prop :=
  valid_stored_record st = true /\
  sr_record_id st = en_record_id e /\
  sr_stable_record_id st = Some (en_stable_record_id e) /\
  sr_spool_seq st = Some (en_spool_seq e) /\
  sr_admitted_at_ms st = en_admitted_at_ms e /\
  sr_expires_at_ms st = en_expires_at_ms e.

Definition entry_durable key disk (e : Entry) : Prop :=
  exists st, holds key disk (en_path e) MAX_ENCRYPTED_RECORD_BYTES st /\ stored_matches e st.
Definition gap_durable key disk (g : GapEntry) : Prop :=
  holds key disk (ge_path g) MAX_ENCRYPTED_GAP_BYTES (ge_notice g).
Definition receipt_durable key disk (re : ReceiptEntry) : Prop :=
  holds key disk (re_path re) MAX_ENCRYPTED_RECEIPT_BYTES (re_receipt re).

(** An integrity gap stands for the record at [seq]. *)
Definition quarantined (s : State) (seq : Z) : Prop :=
  exists n g, gaps s !! n = Some g /\ gn_spool_seq (ge_notice g) = seq /\
              gn_reason (ge_notice g) = IntegrityQuarantine.

#[global] Instance quarantined_dec s seq : Decision (quarantined s seq).
Proof.
  destruct (btree_any (fun g => bool_decide (gn_spool_seq (ge_notice g) = seq /\
    gn_reason (ge_notice g) = IntegrityQuarantine)) (gaps s)) eqn:E.
  - left. apply btree_any_true in E as (n & g & Hg & [? ?]%bool_decide_eq_true_1). by exists n, g.
  - right. intros (n & g & Hg & Hq & Hr). rewrite btree_any_false in E.
    by apply (bool_decide_eq_false_1 _ (E n g Hg)).
Defined.

(** The files the spool answers for. *)
Inductive tracked (s : State) : SpoolPath -> Prop :=
| tracked_entry r e : entries s !! r = Some e -> ~ quarantined s (en_spool_seq e) -> tracked s (en_path e)
| tracked_gap n g : gaps s !! n = Some g -> tracked s (ge_path g)
| tracked_receipt b re : receipts s !! b = Some re -> tracked s (re_path re).

(** Everything tracked can be read back. *)
Record durable (w : Inner) : Prop := {
  du_entries : forall r e, entries (in_state w) !! r = Some e ->
    ~ quarantined (in_state w) (en_spool_seq e) -> entry_durable (in_key w) (in_disk w) e;
  du_gaps : forall n g, gaps (in_state w) !! n = Some g -> gap_durable (in_key w) (in_disk w) g;
  du_receipts : forall b re, receipts (in_state w) !! b = Some re ->
    receipt_durable (in_key w) (in_disk w) re;
}.

(** ** Admitted sequence numbers *)

(** The spool still answers for sequence [seq]: as a record or as a gap. *)
Definition live (s : State) (seq : Z) : Prop :=
  (exists r e, entries s !! r = Some e /\ en_spool_seq e = seq) \/
  (exists n g, gaps s !! n = Some g /\ gn_spool_seq (ge_notice g) = seq).

(** Receipt [r] accepts the record, or a gap notice, of sequence [seq]. *)
Definition acknowledges (r : AckReceipt) (seq : Z) : Prop :=
  (exists a, a ∈ ar_accepted_admissions r /\ ra_spool_seq a = seq) \/
  (exists reason ev, gap_notice_id seq reason ev ∈ ar_accepted_gap_notice_ids r).

(** Receipt [r] accepts [seq] in state [s]: the very record that is pending
    under [seq] is among its admissions, or a gap notice of [seq] is accepted. *)
Definition accepts (s : State) (r : AckReceipt) (seq : Z) : Prop :=
  (exists k e, entries s !! k = Some e /\ en_spool_seq e = seq /\ admission_of e ∈ ar_accepted_admissions r) \/
  (exists reason ev, gap_notice_id seq reason ev ∈ ar_accepted_gap_notice_ids r).

Definition acks_entry (r : AckReceipt) (e : Entry) : Prop :=
  admission_of e ∈ ar_accepted_admissions r \/
  gn_notice_id (gap_notice e (en_expires_at_ms e) RetentionExpired) ∈ ar_accepted_gap_notice_ids r.

Definition committed (s : State) (r : AckReceipt) : Prop :=
  exists re, receipts s !! ar_batch_id r = Some re /\ re_receipt re = r.

(** ** Events *)

Definition enabled (c : SpoolConfig) (s : State) (ev : Event) : Prop :=
  match ev with
  | Quiet | Uncount _ | ForgetV1History | CountCorrupt => True
  | Admit e | LostAdmit e =>
      entries s !! en_record_id e = None /\ stable_index s !! en_stable_record_id e = None /\
      en_spool_seq e = next_spool_sequence s /\ next_spool_sequence s < U64_MAX /\
      0 <= en_encrypted_bytes e /\
      en_path e = SPath DPending (pending_file_name (en_spool_seq e) (en_record_id e)) /\
      entry_identity e /\
      u64_saturating_add (pending_bytes s) (en_encrypted_bytes e) <= max_bytes c /\
      Z.of_nat (size (entries s)) < max_records c
  | RecordGap g =>
      gaps s !! gn_notice_id (ge_notice g) = None /\
      (forall n g', gaps s !! n = Some g' -> gn_spool_seq (ge_notice g') <> gn_spool_seq (ge_notice g)) /\
      valid_gap_notice (ge_notice g) = true /\
      (exists e, entries s !! en_record_id e = Some e /\ en_spool_seq e = gn_spool_seq (ge_notice g)) /\
      0 <= ge_encrypted_bytes g /\
      ge_path g = SPath DGaps (gap_file_name (gn_spool_seq (ge_notice g)) (gn_notice_id (ge_notice g))) /\
      u64_saturating_add (pending_gap_bytes s) (ge_encrypted_bytes g) <= max_bytes c /\
      Z.of_nat (size (gaps s)) < max_records c
  | DropGapped e =>
      entries s !! en_record_id e = Some e /\
      exists n g, gaps s !! n = Some g /\ gn_spool_seq (ge_notice g) = en_spool_seq e
  | DropAcked r e =>
      entries s !! en_record_id e = Some e /\ committed s r /\ acks_entry r e
  | DropGap r g =>
      gaps s !! gn_notice_id (ge_notice g) = Some g /\ committed s r /\
      gn_notice_id (ge_notice g) ∈ ar_accepted_gap_notice_ids r
  | Commit re | LostCommit re =>
      receipts s !! ar_batch_id (re_receipt re) = None /\
      0 <= ar_sequence (re_receipt re) < next_receipt_sequence s /\
      re_path re = SPath DReceipts (receipt_file_name (ar_sequence (re_receipt re))
                                                      (ar_batch_id (re_receipt re))) /\
      (forall n, n ∈ ar_accepted_gap_notice_ids (re_receipt re) -> accepted_notice s n) /\
      named (re_receipt re) /\
      (forall b re', receipts s !! b = Some re' ->
         ar_sequence (re_receipt re') < ar_sequence (re_receipt re))
  | Prune re =>
      receipts s !! ar_batch_id (re_receipt re) = Some re /\
      (MAX_ACK_RECEIPTS < size (receipts s))%nat /\
      (forall b re', receipts s !! b = Some re' ->
         ar_sequence (re_receipt re) <= ar_sequence (re_receipt re')) /\
      (ar_version (re_receipt re) = 1 -> v1_ack_history_pruned s = true)
  | CountExpired total counted =>
      (forall seq sid, counted !! seq = Some sid -> 0 < seq < next_spool_sequence s) /\
      (forall r e sid, entries s !! r = Some e -> counted !! en_spool_seq e = Some sid ->
         sid = en_stable_record_id e) /\
      expired_records s < total <= U64_MAX
  | TakeReceiptSequence => next_receipt_sequence s < U64_MAX
  end.

Definition effect (ev : Event) (s : State) : State :=
  match ev with
  | Quiet | LostAdmit _ | LostCommit _ => s
  | Admit e => insert_entry e (next_spool_sequence s + 1) s
  | RecordGap g => insert_gap (ge_notice g) (ge_encrypted_bytes g) (ge_path g) s
  | DropGapped e | DropAcked _ e => drop_entry e s
  | DropGap _ g => drop_gap (gn_notice_id (ge_notice g)) g s
  | Commit re => set_receipts (<[ar_batch_id (re_receipt re) := re]> (receipts s)) s
  | Prune re => set_receipts (delete (ar_batch_id (re_receipt re)) (receipts s)) s
  | CountExpired total counted => set_counted_pending_expirations counted (set_expired_records total s)
  | Uncount seq => uncount seq s
  | TakeReceiptSequence => set_next_receipt_sequence (next_receipt_sequence s + 1) s
  | ForgetV1History => set_v1_ack_history_pruned true s
  | CountCorrupt => set_corrupt_records (u64_saturating_add (corrupt_records s) 1) s
  end.

(** The file of an entry holds its record. *)
Definition readable key disk (e : Entry) : Prop :=
  exists st, holds key disk (en_path e) MAX_ENCRYPTED_RECORD_BYTES st /\
    valid_stored_record st = true /\ sr_record_id st = en_record_id e /\
    sr_stable_record_id st = Some (en_stable_record_id e) /\ sr_spool_seq st = Some (en_spool_seq e).

(** What an event must have put on disk, or taken off it, before it is
    visible. *)
Definition evidence (ev : Event) (key : bytes) (disk : gmap SpoolPath Node) : Prop :=
  match ev with
  | Admit e => entry_durable key disk e
  | RecordGap g => gap_durable key disk g
  | Commit re => receipt_durable key disk re
  | DropGapped e | DropAcked _ e => ~ readable key disk e
  | _ => True
  end.

(** The file an event may bring into a kept directory. *)
Definition brings (ev : Event) (key : bytes) (disk : gmap SpoolPath Node) (p : SpoolPath) : Prop :=
  match ev with
  | Admit e | LostAdmit e => p = en_path e /\ entry_durable key disk e
  | Commit re | LostCommit re => p = re_path re /\ receipt_durable key disk re
  | _ => False
  end.
Definition writes (ev : Event) : bool :=
  match ev with Admit _ | LostAdmit _ | Commit _ | LostCommit _ => true | _ => false end.
Definition lost (ev : Event) : bool :=
  match ev with LostAdmit _ | LostCommit _ => true | _ => false end.

(** Files tracked throughout are not touched. *)
Definition kept (w w' : Inner) : Prop :=
  forall p, tracked (in_state w) p -> tracked (in_state w') p -> in_disk w' !! p = in_disk w !! p.

Record step (ev : Event) (w w' : Inner) : Prop := {
  st_enabled : enabled (in_config w) (in_state w) ev;
  st_effect : in_state w' = effect ev (in_state w);
  st_evidence : evidence ev (in_key w') (in_disk w');
  st_config : in_config w' = in_config w;
  st_key : in_key w' = in_key w;
  st_kept : kept w w';
  st_latch : in_storage_write_failed w = true -> in_storage_write_failed w' = true;
  st_unlatched : writes ev = true -> in_storage_write_failed w = false;
  st_lost : lost ev = true -> in_storage_write_failed w' = true;
  st_sequence : in_disk w' !! sequence_path = in_disk w !! sequence_path \/
    sequence_sealed (in_key w) (in_disk w') (next_spool_sequence (in_state w));
  st_files : forall p, kept_dir p -> in_disk w' !! p = in_disk w !! p \/ in_disk w' !! p = None \/
    brings ev (in_key w') (in_disk w') p;
}.

Inductive steps : Inner -> list Event -> Inner -> Prop :=
| steps_nil w : steps w [] w
| steps_cons w ev w' tr w'' : step ev w w' -> steps w' tr w'' -> steps w (ev :: tr) w''.

(** From [w], events allowed by [L] lead to [w']. *)
Definition does (L : Event -> Prop) (w w' : Inner) : Prop :=
  exists tr, steps w tr w' /\ Forall L tr.

Lemma steps_app w tr w' tr' w'' : steps w tr w' -> steps w' tr' w'' -> steps w (tr ++ tr') w''.
Proof. induction 1; [done|]. intros H'. econstructor; [done|]. auto. Qed.

Lemma does_refl L w : does L w w.
Proof. exists []. split; constructor. Qed.

Lemma does_trans L w w' w'' : does L w w' -> does L w' w'' -> does L w w''.
Proof.
  intros (tr & Hs & HL) (tr' & Hs' & HL'). exists (tr ++ tr').
  split; [by eapply steps_app|by apply Forall_app].
Qed.

Lemma does_step L ev w w' : step ev w w' -> L ev -> does L w w'.
Proof. intros Hs HL. exists [ev]. split; [by econstructor; [|constructor]|by repeat constructor]. Qed.

Lemma does_mono (L L' : Event -> Prop) w w' : (forall ev, L ev -> L' ev) -> does L w w' -> does L' w w'.
Proof. intros HL (tr & Hs & HF). exists tr. split; [done|]. by eapply Forall_impl. Qed.

(** Rule induction on [does]. *)
Lemma does_ind (L : Event -> Prop) (P : Inner -> Prop) w w' :
  (forall ev w w', L ev -> step ev w w' -> P w -> P w') -> does L w w' -> P w -> P w'.
Proof.
  intros HP (tr & Hs & HL). revert HL. induction Hs as [|w ev w' tr w'' Hst Hs IH]; [done|].
  intros HL HPw. inversion HL; subst. apply IH; [done|]. by eapply HP.
Qed.

(** Sequence numbers are not given back. *)
Lemma next_mono ev w w' :
  step ev w w' -> next_spool_sequence (in_state w) <= next_spool_sequence (in_state w').
Proof. intros Hst. rewrite (st_effect _ _ _ Hst). destruct ev; cbn; lia. Qed.
Lemma does_next_mono L w w' :
  does L w w' -> next_spool_sequence (in_state w) <= next_spool_sequence (in_state w').
Proof.
  intros Hd. apply (does_ind L (fun w1 => next_spool_sequence (in_state w) <= next_spool_sequence (in_state w1)) w w');
    [|done|lia]. intros ev w1 w2 _ Hst ?. pose proof (next_mono _ _ _ Hst). lia.
Qed.

(** ** Every event keeps the invariant *)

Lemma wf_step ev w w' : step ev w w' -> wf w -> wf w'.
Proof.
  intros [Hen Heff _ Hc _ _ _ _ _ _ _] [Hcfg Hs]. split; rewrite Hc; [done|]. rewrite Heff. clear Heff.
  destruct ev; cbn in *.
  - done.
  - destruct Hen as (?&?&?&?&?&?&?&?&?). by apply wf_insert_entry.
  - destruct Hen as (?&?&?&(e & He & Eq)&?&?&?&?). apply wf_insert_gap; try done.
    rewrite <-Eq. apply (we_seq _ _ _ (ws_entries _ _ Hs _ _ He)).
  - destruct Hen as [? _]. by apply wf_drop_entry.
  - destruct Hen as [? _]. by apply wf_drop_entry.
  - destruct Hen as [? _]. by apply wf_drop_gap.
  - destruct Hen as (?&?&?&?&?&_). by apply wf_insert_receipt.
  - done.
  - done.
  - by apply wf_delete_receipt.
  - destruct Hen as (?&?&_). by apply wf_set_counted.
  - by apply wf_uncount.
  - by apply wf_set_next_receipt.
  - by apply wf_set_v1_pruned.
  - by apply wf_set_corrupt_records.
Qed.

Lemma wf_does L w w' : does L w w' -> wf w -> wf w'.
Proof. intros Hd. apply (does_ind L wf w w'); [|done]. intros ev w1 w2 _. apply wf_step. Qed.

(** ** No event loses a sequence number silently *)

Definition ack_event (r : AckReceipt) (ev : Event) : Prop :=
  match ev with DropAcked r' _ | DropGap r' _ => r' = r | _ => False end.

Lemma valid_gap_notice_id n :
  valid_gap_notice n = true ->
  gn_notice_id n = gap_notice_id (gn_spool_seq n) (gn_reason n) (gn_evidence_sha256 n).
Proof.
  unfold valid_gap_notice. destruct (_ || _); [done|]. intros H. by apply bool_decide_eq_true_1 in H.
Qed.

Lemma accepts_acknowledges s r seq : accepts s r seq -> acknowledges r seq.
Proof. intros [(k & e & _ & Hq & Ha)|H]; [left; by exists (admission_of e)|by right]. Qed.

Lemma acks_entry_accepts s k r e : entries s !! k = Some e -> acks_entry r e -> accepts s r (en_spool_seq e).
Proof. intros He [H|H]; [left; by exists k, e|right; do 2 eexists; exact H]. Qed.

Lemma live_lt c s seq : wf_state c s -> live s seq -> seq < next_spool_sequence s.
Proof.
  intros Hs [(r & e & He & <-)|(n & g & Hg & <-)].
  - by destruct (ws_entries _ _ Hs _ _ He) as [_ [_ ?] _ _ _ _ _].
  - by destruct (ws_gaps _ _ Hs _ _ Hg) as [_ _ [_ ?] _ _].
Qed.

Lemma live_drop_entry s e seq :
  entries s !! en_record_id e = Some e -> live s seq -> live (drop_entry e s) seq \/ seq = en_spool_seq e.
Proof.
  intros He [(r & e' & He' & <-)|Hg]; [|left; by right].
  destruct (decide (r = en_record_id e)) as [->|Hne]; [right; congruence|].
  left; left. exists r, e'. split; [|done]. cbn. by rewrite lookup_delete_ne.
Qed.

Lemma live_drop_gap s g seq :
  gaps s !! gn_notice_id (ge_notice g) = Some g -> live s seq ->
  live (drop_gap (gn_notice_id (ge_notice g)) g s) seq \/ seq = gn_spool_seq (ge_notice g).
Proof.
  intros Hg [He|(n & g' & Hg' & <-)]; [left; by left|].
  destruct (decide (n = gn_notice_id (ge_notice g))) as [->|Hne]; [right; congruence|].
  left; right. exists n, g'. split; [|done]. cbn. by rewrite lookup_delete_ne.
Qed.

Lemma live_insert_gap s notice b p seq :
  gaps s !! gn_notice_id notice = None -> live s seq -> live (insert_gap notice b p s) seq.
Proof.
  intros Hn [He|(n & g & Hg & <-)]; [by left|]. right. exists n, g. split; [|done]. cbn.
  rewrite lookup_insert_ne; [done|congruence].
Qed.

Lemma live_insert_entry s e next seq :
  entries s !! en_record_id e = None -> live s seq -> live (insert_entry e next s) seq.
Proof.
  intros Hn [(r & e' & He & <-)|Hg]; [|by right]. left. exists r, e'. split; [|done]. cbn.
  rewrite lookup_insert_ne; [done|congruence].
Qed.

Lemma live_step ev w w' seq :
  step ev w w' -> wf w -> live (in_state w) seq ->
  live (in_state w') seq \/
  exists r, ack_event r ev /\ committed (in_state w) r /\ accepts (in_state w) r seq.
Proof.
  intros [Hen Heff _ _ _ _ _ _ _ _ _] [_ Hs] Hl. rewrite Heff. clear Heff.
  destruct ev; cbn in *; try by left.
  - left. destruct Hen as [? _]. by apply live_insert_entry.
  - left. destruct Hen as [? _]. by apply live_insert_gap.
  - destruct Hen as (He & n & g & Hg & Hq). left.
    destruct (live_drop_entry _ _ _ He Hl) as [| ->]; [done|]. right. by exists n, g.
  - destruct Hen as (He & Hr & Ha).
    destruct (live_drop_entry _ _ _ He Hl) as [| ->]; [by left|right].
    exists r. split_and!; [done..|]. by eapply acks_entry_accepts.
  - destruct Hen as (Hg & Hr & Ha).
    destruct (live_drop_gap _ _ _ Hg Hl) as [| ->]; [by left|right].
    exists r. split_and!; [done..|]. right. destruct (ws_gaps _ _ Hs _ _ Hg) as [_ Hv _ _ _].
    rewrite (valid_gap_notice_id _ Hv) in Ha. eauto.
Qed.

(** ** Every event keeps what is tracked durable *)

Lemma holds_agree {A} `{Serde A} key disk disk' p limit (a : A) :
  disk' !! p = disk !! p -> holds key disk p limit a -> holds key disk' p limit a.
Proof. intros E (b & pl & Hb & Hrest). exists b, pl. by rewrite E. Qed.

Lemma entries_step ev w w' r e :
  step ev w w' -> entries (in_state w') !! r = Some e ->
  entries (in_state w) !! r = Some e \/ ev = Admit e.
Proof.
  intros [_ Heff _ _ _ _ _ _ _ _ _]. rewrite Heff. destruct ev; cbn; try by left.
  - intros [[_ <-]|[_ ?]]%lookup_insert_Some; auto.
  - intros [_ ?]%lookup_delete_Some; auto.
  - intros [_ ?]%lookup_delete_Some; auto.
Qed.

(** A live sequence number keeps its record: none is admitted under it. *)
Lemma accepts_step ev w w' r seq :
  step ev w w' -> wf w -> live (in_state w) seq -> accepts (in_state w') r seq -> accepts (in_state w) r seq.
Proof.
  intros Hst [_ Hs] Hl [(k & e & He & Hq & Ha)|?]; [left|by right].
  destruct (entries_step _ _ _ _ _ Hst He) as [?| ->]; [by exists k, e|exfalso].
  destruct (st_enabled _ _ _ Hst) as (_ & _ & Hn & _). pose proof (live_lt _ _ _ Hs Hl). lia.
Qed.

(** Along a run, a sequence number stays live until a receipt accepts it. *)
Lemma live_does (L : Event -> Prop) w w' seq :
  does L w w' -> wf w -> live (in_state w) seq ->
  live (in_state w') seq \/
  exists r ev, L ev /\ ack_event r ev /\ named r /\ accepts (in_state w) r seq.
Proof.
  intros (tr & Hs & HL). revert HL. induction Hs as [|w ev w1 tr w' Hst Hs IH]; intros HL Hwf Hl; [by left|].
  apply Forall_cons in HL as [HLev HL].
  destruct (live_step _ _ _ _ Hst Hwf Hl) as [Hl1|(r & Hev & (re & Hre & <-) & Ha)].
  - destruct (IH HL (wf_step _ _ _ Hst Hwf) Hl1) as [|(r & ev' & ? & ? & ? & Ha)]; [by left|right].
    exists r, ev'. split_and!; try done. by eapply accepts_step.
  - right. exists (re_receipt re), ev. split_and!; try done. destruct Hwf as [_ Hs0].
    by destruct (ws_receipts _ _ Hs0 _ _ Hre).
Qed.

Lemma accepts_does L w w' r seq :
  does L w w' -> wf w -> live (in_state w) seq -> accepts (in_state w') r seq -> accepts (in_state w) r seq.
Proof.
  intros Hd [_ Hs] Hl [(k & e & He & Hq & Ha)|?]; [left|by right]. exists k, e. split_and!; [|done..].
  pose proof (live_lt _ _ _ Hs Hl) as Hlt. revert He.
  enough (next_spool_sequence (in_state w) <= next_spool_sequence (in_state w') /\
    (entries (in_state w') !! k = Some e -> entries (in_state w) !! k = Some e)) as [_ He] by exact He.
  apply (does_ind L (fun w1 => next_spool_sequence (in_state w) <= next_spool_sequence (in_state w1) /\
    (entries (in_state w1) !! k = Some e -> entries (in_state w) !! k = Some e)) w w'); [|done|done].
  intros ev w1 w2 _ Hst [Hn IH]. pose proof (next_mono _ _ _ Hst). split; [lia|]. intros He.
  destruct (entries_step _ _ _ _ _ Hst He) as [?| ->]; [by apply IH|exfalso].
  destruct (st_enabled _ _ _ Hst) as (_ & _ & Hseq & _). lia.
Qed.

(** A receipt on record was there before, or was committed. *)
Lemma committed_does (L : Event -> Prop) w w' r :
  does L w w' -> committed (in_state w') r ->
  committed (in_state w) r \/ exists re, L (Commit re) /\ re_receipt re = r.
Proof.
  intros Hd (re & Hre & Er). revert Hre.
  apply (does_ind L (fun w1 => receipts (in_state w1) !! ar_batch_id r = Some re ->
    committed (in_state w) r \/ exists re, L (Commit re) /\ re_receipt re = r) w w'); [|done|intros; left; by exists re].
  intros ev w1 w2 Hev Hst IH. rewrite (st_effect _ _ _ Hst). destruct ev; try exact IH; cbn in *.
  - intros [[_ <-]|[_ ?]]%lookup_insert_Some; [right; eauto|auto].
  - intros [_ ?]%lookup_delete_Some. auto.
Qed.

Lemma gaps_step ev w w' n g :
  step ev w w' -> gaps (in_state w') !! n = Some g ->
  gaps (in_state w) !! n = Some g \/ ev = RecordGap g.
Proof.
  intros [_ Heff _ _ _ _ _ _ _ _ _]. rewrite Heff. destruct ev; cbn; try by left.
  - intros [[_ <-]|[_ ?]]%lookup_insert_Some; [right|by left]. by destruct g0.
  - intros [_ ?]%lookup_delete_Some; auto.
Qed.

Lemma receipts_step ev w w' b re :
  step ev w w' -> receipts (in_state w') !! b = Some re ->
  receipts (in_state w) !! b = Some re \/ ev = Commit re.
Proof.
  intros [_ Heff _ _ _ _ _ _ _ _ _]. rewrite Heff. destruct ev; cbn; try by left.
  - intros [[_ <-]|[_ ?]]%lookup_insert_Some; auto.
  - intros [_ ?]%lookup_delete_Some; auto.
Qed.

Context {IL : IdLaws}.

(** A gap is only dropped with its notice accepted, and then no quarantined
    record is left behind it. *)
Lemma quarantined_step ev w w' r e :
  step ev w w' -> wf w -> entries (in_state w) !! r = Some e ->
  quarantined (in_state w) (en_spool_seq e) -> quarantined (in_state w') (en_spool_seq e).
Proof.
  intros [Hen Heff _ _ _ _ _ _ _ _ _] [_ Hs] He (n & g & Hg & Hq & Hr). rewrite Heff. clear Heff.
  assert (Hsame : gaps (effect ev (in_state w)) !! n = Some g -> quarantined (effect ev (in_state w)) (en_spool_seq e))
    by (intros; by exists n, g).
  destruct ev; try by apply Hsame.
  - apply Hsame. destruct Hen as [Hfresh _]. cbn. rewrite lookup_insert_ne; [done|congruence].
  - destruct Hen as (Hg0 & (re & Hre & <-) & Hin).
    destruct (decide (n = gn_notice_id (ge_notice g0))) as [->|Hne];
      [|apply Hsame; cbn; by rewrite lookup_delete_ne].
    assert (g0 = g) as -> by congruence.
    destruct (ws_gaps _ _ Hs _ _ Hg) as [_ Hv Hb _ _]. pose proof (ws_next _ _ Hs).
    destruct (wr_notices _ _ _ (ws_receipts _ _ Hs _ _ Hre) _ Hin) as (q & reason & ev' & En & Hlt & Hgone).
    rewrite (valid_gap_notice_id _ Hv) in En.
    apply notice_id_binds in En as [<- <-]; [|unfold in_u64; lia..].
    by destruct (Hgone Hr r e He).
Qed.

Lemma durable_step ev w w' : step ev w w' -> wf w -> durable w -> durable w'.
Proof.
  intros Hst Hwf [De Dg Dr]. pose proof Hst as [_ _ Hev _ Hk Hkept _ _ _ _ _]. split.
  - intros r e He Hnq. destruct (entries_step _ _ _ _ _ Hst He) as [He'| ->]; [|done].
    assert (Hnq' : ~ quarantined (in_state w) (en_spool_seq e))
      by (intros ?; by eapply Hnq, quarantined_step).
    destruct (De r e He' Hnq') as (st & Hh & Hm). exists st. split; [|done]. rewrite Hk.
    eapply holds_agree; [|done]. apply Hkept; by eapply tracked_entry.
  - intros n g Hg. destruct (gaps_step _ _ _ _ _ Hst Hg) as [Hg'| ->]; [|done].
    unfold gap_durable. rewrite Hk. eapply holds_agree; [|by eapply Dg].
    apply Hkept; by eapply tracked_gap.
  - intros b re Hre. destruct (receipts_step _ _ _ _ _ Hst Hre) as [Hre'| ->]; [|done].
    unfold receipt_durable. rewrite Hk. eapply holds_agree; [|by eapply Dr].
    apply Hkept; by eapply tracked_receipt.
Qed.

Lemma durable_does L w w' : does L w w' -> wf w -> durable w -> durable w'.
Proof.
  intros Hd Hwf Hdu. apply (does_ind L (fun w => wf w /\ durable w) w w'); [|done|done].
  intros ev w1 w2 _ Hst [? ?]. split; [by eapply wf_step|by eapply durable_step].
Qed.

End Spec.
