(* ===== verification/SpoolRefine.v ===== *)
(** * The operations refine the event system

    Each method of [SpoolOps], run from a well-formed spool under any
    sequence of storage faults, is a sequence of events of [SpoolSpec]; the
    lemma of a method also says which events it may use. *)

From S2P Require Import Prelude Protocol Crypto Fs SpoolTypes SpoolFacts SpoolBase SpoolOps.
From S2P Require Import SpoolErrors SpoolFrame SpoolInv SpoolSpec.

Lemma SPath_inj d n d' n' : SPath d n = SPath d' n' -> d = d' /\ n = n'.
Proof. intros E. split; [exact (f_equal sp_dir E)|exact (f_equal sp_name E)]. Qed.

Section Paths.
Context {X : SpoolEnv}.

(** ** Tracked paths are pairwise distinct *)

Lemma fmt_020_app_inj a b x y : in_u64 a -> in_u64 b -> fmt_020 a ++ x = fmt_020 b ++ y -> a = b.
Proof.
  intros Ha Hb E. apply app_inj_1 in E as [E _]; [|unfold fmt_020; by rewrite !length_dec_digits].
  apply (f_equal parse_u64) in E. rewrite !parse_u64_fmt_020 in E by done. congruence.
Qed.

Lemma pending_name_seq s1 i1 s2 i2 :
  in_u64 s1 -> in_u64 s2 -> pending_file_name s1 i1 = pending_file_name s2 i2 -> s1 = s2.
Proof. intros H1 H2 E%app_inj_1; [|done]. destruct E as [_ E]. by eapply fmt_020_app_inj. Qed.

(** Receipt names end in the batch identifier after a fixed number of bytes. *)
Lemma receipt_name_batch s1 b1 s2 b2 : receipt_file_name s1 b1 = receipt_file_name s2 b2 -> b1 = b2.
Proof.
  unfold receipt_file_name. intros [_ E]%app_inj_1; [|unfold fmt_020; by rewrite !length_dec_digits].
  injection E as E. by apply app_inv_tail in E.
Qed.

Context (c : SpoolConfig) (s : State) (Hs : wf_state c s).

Lemma entry_u64 r e : entries s !! r = Some e -> in_u64 (en_spool_seq e).
Proof using Hs.
  intros He. destruct (ws_entries _ _ Hs _ _ He) as [_ ? _ _ _ _ _].
  pose proof (ws_next _ _ Hs). unfold in_u64. lia.
Qed.
Lemma gap_u64 n g : gaps s !! n = Some g -> in_u64 (gn_spool_seq (ge_notice g)).
Proof using Hs.
  intros Hg. destruct (ws_gaps _ _ Hs _ _ Hg) as [_ _ ? _ _].
  pose proof (ws_next _ _ Hs). unfold in_u64. lia.
Qed.
Lemma receipt_u64 b re : receipts s !! b = Some re -> in_u64 (ar_sequence (re_receipt re)).
Proof using Hs.
  intros Hre. destruct (ws_receipts _ _ Hs _ _ Hre) as [_ ? _ _ _].
  pose proof (ws_next_receipt _ _ Hs). unfold in_u64. lia.
Qed.

(** Which component a tracked path belongs to, and with which sequence. *)
Lemma tracked_inv s' p :
  entries s' ⊆ entries s -> gaps s' ⊆ gaps s -> receipts s' ⊆ receipts s -> tracked s' p ->
  (exists r e, entries s' !! r = Some e /\ p = SPath DPending (pending_file_name (en_spool_seq e) r)) \/
  (exists n g, gaps s' !! n = Some g /\ p = SPath DGaps (gap_file_name (gn_spool_seq (ge_notice g)) n)) \/
  (exists b re, receipts s' !! b = Some re /\
     p = SPath DReceipts (receipt_file_name (ar_sequence (re_receipt re)) b)).
Proof using Hs.
  intros He Hg Hr [r e H _|n g H|b re H].
  - left. exists r, e. split; [done|]. apply (we_path s), (ws_entries _ _ Hs). by eapply lookup_weaken.
  - right; left. exists n, g. split; [done|]. apply (wg_path s), (ws_gaps _ _ Hs). by eapply lookup_weaken.
  - right; right. exists b, re. split; [done|].
    apply (wr_path s), (ws_receipts _ _ Hs). by eapply lookup_weaken.
Qed.

Lemma tracked_not_scratch p : tracked s p -> ~ scratch p.
Proof using Hs.
  intros Ht. apply tracked_inv in Ht; [|done..].
  destruct Ht as [(?&?&_&->)|[(?&?&_&->)|(?&?&_&->)]]; by intros [?|[?|?]].
Qed.

Lemma untracked_dropped_entry e :
  entries s !! en_record_id e = Some e -> ~ tracked (drop_entry e s) (en_path e).
Proof using Hs.
  intros He Ht. apply tracked_inv in Ht; [|apply delete_subseteq|done..].
  rewrite (we_path _ _ _ (ws_entries _ _ Hs _ _ He)) in Ht. cbn in Ht.
  destruct Ht as [(r & e' & [Hne He']%lookup_delete_Some & [_ E]%SPath_inj)|[(?&?&_&[? _]%SPath_inj)|(?&?&_&[? _]%SPath_inj)]]; try done.
  apply pending_name_seq in E; [|by eapply entry_u64..].
  apply Hne. by eapply (ws_entries_seq _ _ Hs).
Qed.

Lemma untracked_dropped_gap g :
  gaps s !! gn_notice_id (ge_notice g) = Some g ->
  ~ tracked (drop_gap (gn_notice_id (ge_notice g)) g s) (ge_path g).
Proof using Hs.
  intros Hg Ht. apply tracked_inv in Ht; [|done|apply delete_subseteq|done].
  rewrite (wg_path _ _ _ (ws_gaps _ _ Hs _ _ Hg)) in Ht. cbn in Ht.
  destruct Ht as [(?&?&_&[? _]%SPath_inj)|[(n & g' & [Hne Hg']%lookup_delete_Some & [_ E]%SPath_inj)|(?&?&_&[? _]%SPath_inj)]]; try done.
  apply fmt_020_app_inj in E; [|by eapply gap_u64..].
  apply Hne. by eapply (ws_gaps_seq _ _ Hs).
Qed.

Lemma untracked_dropped_receipt re :
  receipts s !! ar_batch_id (re_receipt re) = Some re ->
  ~ tracked (set_receipts (delete (ar_batch_id (re_receipt re)) (receipts s)) s) (re_path re).
Proof using Hs.
  intros Hre Ht. apply tracked_inv in Ht; [|done|done|apply delete_subseteq].
  rewrite (wr_path _ _ _ (ws_receipts _ _ Hs _ _ Hre)) in Ht. cbn in Ht.
  destruct Ht as [(?&?&_&[? _]%SPath_inj)|[(?&?&_&[? _]%SPath_inj)|(b & re' & [Hne Hre']%lookup_delete_Some & [_ E]%SPath_inj)]]; try done.
  by apply receipt_name_batch in E.
Qed.

(** The next pending file, a gap file for a sequence without a gap, and the
    next receipt file are new. *)
Lemma untracked_pending id :
  ~ tracked s (SPath DPending (pending_file_name (next_spool_sequence s) id)).
Proof using Hs.
  intros Ht. apply tracked_inv in Ht; [|done..]. pose proof (ws_next _ _ Hs).
  destruct Ht as [(r & e & He & [_ E]%SPath_inj)|[(?&?&_&[? _]%SPath_inj)|(?&?&_&[? _]%SPath_inj)]]; try done.
  apply pending_name_seq in E; [|unfold in_u64; lia|by eapply entry_u64].
  destruct (ws_entries _ _ Hs _ _ He) as [_ ? _ _ _ _ _]. lia.
Qed.

Lemma untracked_gap seq id :
  in_u64 seq -> (forall n g, gaps s !! n = Some g -> gn_spool_seq (ge_notice g) <> seq) ->
  ~ tracked s (SPath DGaps (gap_file_name seq id)).
Proof using Hs.
  intros Hu Hfresh Ht. apply tracked_inv in Ht; [|done..].
  destruct Ht as [(?&?&_&[? _]%SPath_inj)|[(n & g & Hg & [_ E]%SPath_inj)|(?&?&_&[? _]%SPath_inj)]]; try done.
  apply fmt_020_app_inj in E; [|done|by eapply gap_u64]. by eapply Hfresh.
Qed.

Lemma untracked_receipt seq id :
  in_u64 seq -> (forall b re, receipts s !! b = Some re -> ar_sequence (re_receipt re) < seq) ->
  ~ tracked s (SPath DReceipts (receipt_file_name seq id)).
Proof using Hs.
  intros Hu Hfresh Ht. apply tracked_inv in Ht; [|done..].
  destruct Ht as [(?&?&_&[? _]%SPath_inj)|[(?&?&_&[? _]%SPath_inj)|(b & re & Hre & [_ E]%SPath_inj)]]; try done.
  apply fmt_020_app_inj in E; [|done|by eapply receipt_u64]. apply Hfresh in Hre. lia.
Qed.

End Paths.

Section Refine.
Context {X : SpoolEnv} {SL : SpoolLaws}.

Lemma entry_not_sequence c s r e : wf_state c s -> entries s !! r = Some e -> en_path e <> sequence_path.
Proof. intros Hs He. by rewrite (we_path _ _ _ (ws_entries _ _ Hs _ _ He)). Qed.
Lemma gap_not_sequence c s n g : wf_state c s -> gaps s !! n = Some g -> ge_path g <> sequence_path.
Proof. intros Hs Hg. by rewrite (wg_path _ _ _ (ws_gaps _ _ Hs _ _ Hg)). Qed.
Lemma receipt_not_sequence c s b re : wf_state c s -> receipts s !! b = Some re -> re_path re <> sequence_path.
Proof. intros Hs Hre. by rewrite (wr_path _ _ _ (ws_receipts _ _ Hs _ _ Hre)). Qed.

(** ** From frames to events *)

Lemma step_update ev q w w1 :
  wf w -> same_state w w1 -> tame w w1 -> (forall p, ~ only q p -> in_disk w1 !! p = in_disk w !! p) ->
  writes ev = false -> enabled (in_config w) (in_state w) ev ->
  evidence ev (in_key w1) (in_disk w1) ->
  (tracked (in_state w) q -> tracked (effect ev (in_state w)) q -> False) ->
  step ev w (set_state (effect ev (in_state w1)) w1).
Proof.
  intros [_ Hs] (Hc & Hk & Hst) [Hl Hseq Hf] Hd Hwr Hen Hev Hq. rewrite Hst. split; cbn; try done.
  - intros p Hp Hp'. cbn in Hp'. apply Hd. intros [Hscr| ->]; [|by apply Hq].
    by apply (tracked_not_scratch _ _ Hs p Hp).
  - by rewrite Hwr.
  - by destruct ev.
  - intros p Hp. destruct (Hf p Hp); auto.
Qed.

(** An update of the state that follows no file operation. *)
Lemma step_pure ev w :
  wf w -> writes ev = false -> enabled (in_config w) (in_state w) ev -> evidence ev (in_key w) (in_disk w) ->
  step ev w (set_state (effect ev (in_state w)) w).
Proof.
  intros Hwf Hwr Hen Hev. apply (step_update ev (SPath DTmp []) w w); try done; [apply tame_refl|].
  intros Ht _. destruct Hwf as [_ Hs]. by apply (tracked_not_scratch _ _ Hs _ Ht), scratch_tmp.
Qed.

Lemma step_quiet q w w1 :
  wf w -> same_state w w1 -> tame w w1 -> (forall p, ~ only q p -> in_disk w1 !! p = in_disk w !! p) ->
  ~ tracked (in_state w) q -> step Quiet w w1.
Proof.
  intros Hwf Hst Ht Hd Hq.
  pose proof (step_update Quiet q w w1 Hwf Hst Ht Hd eq_refl I I (fun H _ => Hq H)) as Hu.
  destruct w1. exact Hu.
Qed.

(** A new file in a kept directory, reported as written or lost. *)
Lemma written_frame p b r w w1 q : written p b r w w1 -> ~ only p q -> in_disk w1 !! q = in_disk w !! q.
Proof.
  intros Hw Hq. apply (wn_frame _ _ _ _ _ Hw); [intros ->; by apply Hq; right|intros Hd; by apply Hq; left; left].
Qed.

Lemma written_tame p b r w w1 :
  written p b r w w1 -> p <> sequence_path -> (kept_dir p -> in_disk w1 !! p = in_disk w !! p) -> tame w w1.
Proof.
  intros [_ Hf Hl _ _ _] Hp Hsame. split; [done|left; by apply Hf|]. intros q Hq. left.
  destruct (decide (q = p)) as [->|Hne]; [by apply Hsame|]. apply Hf; [done|]. by destruct Hq as [->| ->].
Qed.

Lemma step_written ev p b r w w1 :
  wf w -> written p b r w w1 -> in_disk w1 !! p = Some (File b) -> in_storage_write_failed w = false ->
  p <> sequence_path -> ~ tracked (in_state w) p -> (lost ev = true -> r <> Ok tt) ->
  enabled (in_config w) (in_state w) ev ->
  evidence ev (in_key w1) (in_disk w1) -> brings ev (in_key w1) (in_disk w1) p ->
  step ev w (set_state (effect ev (in_state w1)) w1).
Proof.
  intros [_ Hs] Hw Hfile Hl Hp Hun Hlost Hen Hev Hbr. pose proof Hw as [(Hc & Hk & Hst) Hf Hl' _ _ Herr].
  rewrite Hst. split; cbn; try done.
  - intros q Hq _. apply (written_frame _ _ _ _ _ _ Hw). intros [Hscr| ->]; [|done].
    by apply (tracked_not_scratch _ _ Hs q Hq).
  - intros Hlo. by apply Herr, Hlost.
  - left. by apply Hf.
  - intros q Hq. destruct (decide (q = p)) as [->|Hne]; [by right; right|left].
    apply Hf; [done|]. by destruct Hq as [->| ->].
Qed.

(** [m] is a sequence of events allowed by [L]. *)
Definition ok (L : Event -> Prop) {A} (m : SpoolM A) : Prop :=
  forall w, wf w -> does L w (m w).2.

Lemma ok_touches L q {A} (m : SpoolM A) w :
  L Quiet -> wf w -> touches (only q) m -> ~ tracked (in_state w) q -> does L w (m w).2.
Proof. intros HL Hwf Hm Hq. destruct (Hm w) as (? & ? & ?). eapply does_step; [by eapply step_quiet|done]. Qed.

Lemma ok_scratch (L : Event -> Prop) {A} (m : SpoolM A) : L Quiet -> touches scratch m -> ok L m.
Proof.
  intros HL Hm w Hwf. eapply (ok_touches L (SPath DTmp [])); try done.
  - eapply touches_mono; [|exact Hm]. eauto with touches.
  - intros Ht. destruct Hwf as [_ Hs]. by apply (tracked_not_scratch _ _ Hs _ Ht), scratch_tmp.
Qed.

Lemma ok_ret L {A} (a : A) : ok L (ret a).
Proof. intros w _. apply does_refl. Qed.
Lemma ok_fail L {A} e : ok L (fail (A:=A) e).
Proof. intros w _. apply does_refl. Qed.
Lemma ok_bind L {A B} (m : SpoolM A) (k : A -> SpoolM B) :
  ok L m -> (forall a, ok L (k a)) -> ok L (bind m k).
Proof.
  intros Hm Hk w Hwf. specialize (Hm w Hwf). unfold bind.
  destruct (m w) as [[a|e] w'] eqn:E; cbn in *; [|done].
  eapply does_trans; [done|]. apply Hk. by eapply wf_does.
Qed.
Lemma ok_catch L {A} (m : SpoolM A) : ok L m -> ok L (catch m).
Proof. intros Hm w Hwf. specialize (Hm w Hwf). unfold catch. by destruct (m w). Qed.
Lemma ok_when L b (m : SpoolM unit) : ok L m -> ok L (when b m).
Proof. intros Hm. destruct b; [done|apply ok_ret]. Qed.
Lemma ok_update (L : Event -> Prop) f ev :
  (forall s, f s = effect ev s) -> writes ev = false -> L ev ->
  (forall w, wf w -> enabled (in_config w) (in_state w) ev /\ evidence ev (in_key w) (in_disk w)) ->
  ok L (update f).
Proof.
  intros Hf Hwr HL Hen w Hwf. destruct (Hen w Hwf) as [H1 H2].
  eapply does_step; [|done]. unfold update, modify. cbn. rewrite Hf. by apply step_pure.
Qed.
Lemma ok_mono (L L' : Event -> Prop) {A} (m : SpoolM A) : (forall ev, L ev -> L' ev) -> ok L m -> ok L' m.
Proof. intros HL Hm w Hwf. eapply does_mono; [done|by apply Hm]. Qed.

(** A component of the state no allowed event changes. *)
Lemma does_same {T} (f : State -> T) (L : Event -> Prop) w w' :
  (forall ev s, L ev -> f (effect ev s) = f s) -> does L w w' -> f (in_state w') = f (in_state w).
Proof.
  intros Hf Hd. apply (does_ind L (fun w1 => f (in_state w1) = f (in_state w)) w w'); try done.
  intros ev w1 w2 HL [_ Heff _ _ _ _ _ _ _ _ _] IH. by rewrite Heff, Hf.
Qed.

Lemma does_config L w w' : does L w w' -> in_config w' = in_config w /\ in_key w' = in_key w.
Proof.
  intros Hd. apply (does_ind L (fun w1 => in_config w1 = in_config w /\ in_key w1 = in_key w) w w');
    try done. intros ev w1 w2 _ [_ _ _ Hc Hk _ _ _ _ _ _] [? ?]. by rewrite Hc, Hk.
Qed.

(** Accumulates: a prefix of the run is already a sequence of events. *)
Lemma wp_does_trans L {A} (m : SpoolM A) (Q : Result SpoolError A -> Inner -> Prop) w0 w :
  does L w0 w ->
  wp m (fun r w' => does L w w' /\ Q r w') w ->
  wp m (fun r w' => does L w0 w' /\ Q r w') w.
Proof. intros Hd Hw. eapply wp_mono; [exact Hw|]. intros r w' [? ?]. split; [by eapply does_trans|done]. Qed.

Lemma wp_ok L {A} (m : SpoolM A) w : ok L m -> wf w -> wp m (fun _ w' => does L w w') w.
Proof. intros Hm Hwf. by apply Hm. Qed.

Lemma wp_ok_from L w {A} (m : SpoolM A) : does L w (m w).2 -> wp m (fun _ w' => does L w w') w.
Proof. done. Qed.

Lemma does_bind L {A B} (m : SpoolM A) (k : A -> SpoolM B) w :
  wf w -> does L w (m w).2 -> (forall a, ok L (k a)) -> does L w (bind m k w).2.
Proof.
  intros Hwf Hm Hk. unfold bind. destruct (m w) as [[a|e] w']; cbn in *; [|done].
  eapply does_trans; [done|]. apply Hk. by eapply wf_does.
Qed.

(** A pure check before the rest of a method. *)
Lemma does_bind' L {A B} (m : SpoolM A) (k : A -> SpoolM B) w :
  (m w).2 = w -> (forall a, (m w).1 = Ok a -> does L w (k a w).2) -> does L w (bind m k w).2.
Proof.
  intros Hm Hk. unfold bind. destruct (m w) as [[a|e] w']; cbn in *; subst; [by apply Hk|apply does_refl].
Qed.

(** Sealing a value and writing it produces a file that holds it. *)
Lemma sealed_holds {A} `{SerdeLaws A} key nonce disk p limit (a : A) plain c :
  to_vec a = Some plain -> length nonce = NONCE_BYTES -> encrypt key nonce plain = Ok c ->
  len c <= limit -> disk !! p = Some (File c) -> holds key disk p limit a.
Proof.
  intros Ha Hn Hc Hl Hd. exists c, plain. split_and!; [done..|by eapply decrypt_sealed|by apply from_to_vec].
Qed.

(** Encrypting and writing one new file: a quiet event, or, on success, a
    file that holds the value. *)
Lemma wp_seal {A} (k : bytes -> SpoolM A) Q p w :
  (forall r w1, same_state w w1 -> tame w w1 -> in_disk w1 = in_disk w ->
     in_storage_write_failed w1 = in_storage_write_failed w ->
     match r with
     | Ok c => (exists nonce, length nonce = NONCE_BYTES /\ encrypt (in_key w) nonce p = Ok c) ->
               wp (k c) Q w1
     | Err e => e = CorruptRecord -> Q (Err e) w1
     end) ->
  wp (bind (encrypt_bytes p) k) Q w.
Proof.
  intros HQ. apply wp_bind. unfold wp at 1. destruct (encrypt_bytes_spec p w) as (Hst & Hd & Hc).
  destruct (touches_encrypt_bytes scratch p w) as (_ & Ht & _). pose proof (raises_sealing p w) as He.
  specialize (HQ (encrypt_bytes p w).1 (encrypt_bytes p w).2 Hst Ht Hd eq_refl).
  destruct (encrypt_bytes p w).1; [by apply HQ, Hc|by apply HQ, He].
Qed.

Lemma wp_encrypt {A} (k : bytes -> SpoolM A) Q p w :
  (forall r w1, same_state w w1 -> tame w w1 -> in_disk w1 = in_disk w ->
     in_storage_write_failed w1 = in_storage_write_failed w ->
     match r with
     | Ok c => (exists nonce, length nonce = NONCE_BYTES /\ encrypt (in_key w) nonce p = Ok c) ->
               wp (k c) Q w1
     | Err e => Q (Err e) w1
     end) ->
  wp (bind (encrypt_bytes p) k) Q w.
Proof.
  intros HQ. apply wp_seal. intros r w1 ? ? ? ?. specialize (HQ r w1). destruct r; [by apply HQ|intros _; by apply HQ].
Qed.

Lemma wp_write_new p b Q w :
  sp_dir p <> DTmp -> (forall r w1, written p b r w w1 -> Q r w1) -> wp (write_new p b) Q w.
Proof. intros Hp HQ. by apply HQ, write_new_written. Qed.

(** The write that follows a sealing which touched no file. *)
Lemma written_after p b r w w1 w2 :
  same_state w w1 -> in_disk w1 = in_disk w -> in_storage_write_failed w1 = in_storage_write_failed w ->
  written p b r w1 w2 -> written p b r w w2.
Proof.
  intros Hst Hd Hl [Hst2 Hf Hl2 Hfile Hok Herr]. rewrite Hd, Hl in *.
  split; try done; by eapply same_state_trans.
Qed.

Lemma does_quiet (L : Event -> Prop) q w w1 :
  L Quiet -> wf w -> same_state w w1 -> tame w w1 -> (forall p, ~ only q p -> in_disk w1 !! p = in_disk w !! p) ->
  ~ tracked (in_state w) q -> does L w w1.
Proof. intros. eapply does_step; [by eapply step_quiet|done]. Qed.

Lemma does_scratch (L : Event -> Prop) w w1 :
  L Quiet -> wf w -> same_state w w1 -> tame w w1 -> (forall p, ~ scratch p -> in_disk w1 !! p = in_disk w !! p) ->
  does L w w1.
Proof.
  intros HL Hwf Hst Htame Hd. apply (does_quiet L (SPath DTmp [])); try done.
  - intros p Hp. apply Hd. intros ?. apply Hp. by left.
  - intros Ht. destruct Hwf as [_ Hs]. by apply (tracked_not_scratch _ _ Hs _ Ht), scratch_tmp.
Qed.

Lemma does_ticks (L : Event -> Prop) w w1 :
  L Quiet -> wf w -> same_state w w1 -> tame w w1 -> in_disk w1 = in_disk w -> does L w w1.
Proof. intros HL Hwf Hst Ht Hd. apply does_scratch; try done. by intros; rewrite Hd. Qed.

(** A failed write into a kept directory: the file is lost or was not
    written. *)
Lemma does_lost (L : Event -> Prop) ev p b r w w1 :
  L Quiet -> L ev -> wf w -> written p b r w w1 -> r <> Ok tt -> p <> sequence_path -> ~ tracked (in_state w) p ->
  (forall s, effect ev s = s) -> enabled (in_config w) (in_state w) ev ->
  (forall d, evidence ev (in_key w1) d) ->
  (in_disk w1 !! p = Some (File b) -> brings ev (in_key w1) (in_disk w1) p) -> does L w w1.
Proof.
  intros HQ HL Hwf Hw Hr Hp Hun Heff Hen Hev Hbr. destruct (wn_file _ _ _ _ _ Hw) as [Hsame|[Hfile Hl]].
  - apply (does_quiet L p); try done; [by apply (wn_same _ _ _ _ _ Hw)|by eapply written_tame|].
    intros q. by eapply written_frame.
  - apply (does_step L ev); [|done].
    pose proof (step_written ev p b r w w1 Hwf Hw Hfile Hl Hp Hun (fun _ => Hr) Hen (Hev _) (Hbr Hfile)) as Hstep.
    rewrite Heff in Hstep. by destruct w1.
Qed.

(** ** Gaps *)

Definition gap_events (reason : GapReasonV2) (ev : Event) : Prop :=
  match ev with Quiet => True | RecordGap g => gn_reason (ge_notice g) = reason | _ => False end.

Definition gap_recorded (s : State) (seq : Z) (reason : GapReasonV2) : Prop :=
  exists n g, gaps s !! n = Some g /\ gn_spool_seq (ge_notice g) = seq /\ gn_reason (ge_notice g) = reason.

Lemma notice_recorded c s entry at_ms reason g :
  wf_state c s -> in_u64 (en_spool_seq entry) ->
  gaps s !! gn_notice_id (gap_notice entry at_ms reason) = Some g ->
  gn_spool_seq (ge_notice g) = en_spool_seq entry /\ gn_reason (ge_notice g) = reason.
Proof.
  intros Hs Hu Hg. destruct (ws_gaps _ _ Hs _ _ Hg) as [Hk Hv _ _ _].
  rewrite (valid_gap_notice_id _ Hv) in Hk. apply notice_id_binds in Hk; [done|by eapply gap_u64|done].
Qed.

Lemma persist_gap_locked_ok entry at_ms reason w :
  wf w -> entries (in_state w) !! en_record_id entry = Some entry ->
  wp (persist_gap_locked entry at_ms reason)
     (fun r w' => does (gap_events reason) w w' /\
        forall p, r = Ok p -> gap_recorded (in_state w') (en_spool_seq entry) reason) w.
Proof.
  intros Hwf He. pose proof Hwf as [Hcfg Hs]. pose proof (ws_next _ _ Hs) as Hnext.
  destruct (ws_entries _ _ Hs _ _ He) as [_ Hseq _ _ _ _ _].
  assert (Hu : in_u64 (en_spool_seq entry)) by (unfold in_u64; lia).
  unfold persist_gap_locked. set (notice := gap_notice entry at_ms reason).
  sp_step. sp_step. case_bool_decide as Hex.
  { sp_step. split; [apply does_refl|]. intros _ _. destruct Hex as [g Hg].
    exists (gn_notice_id notice), g. split; [done|]. by eapply notice_recorded. }
  sp_step. sp_step; [split; [apply does_refl|done]|]. rename H into Hgap. rewrite btree_any_false in Hgap.
  sp_step. sp_step; [split; [apply does_refl|done]|].
  do 2 sp_step. sp_step. sp_step; [split; [apply does_refl|done]|]. rename H0 into Hsize.
  sp_step. sp_step; [|split; [apply does_refl|done]].
  apply wp_encrypt. intros [c|e] w1 Hst1 Ht1 Hd1 Hl1; [|split; [by apply does_ticks|done]].
  intros (nonce & Hn & Hc). sp_step. sp_step; [split; [by apply does_ticks|done]|].
  rename H1 into Hcap. apply orb_false_iff in Hcap as [Hmax Hcap].
  set (dest := SPath DGaps _). sp_step.
  assert (Hfresh : forall n g, gaps (in_state w) !! n = Some g ->
            gn_spool_seq (ge_notice g) <> en_spool_seq entry)
    by (intros n g Hg; specialize (Hgap n g Hg); unfold gap_at in Hgap; lia).
  assert (Hun : ~ tracked (in_state w) dest) by (by eapply untracked_gap).
  apply wp_write_new; [done|]. intros r w2 Hw%(written_after _ _ _ w); try done.
  assert (Htame : tame w w2) by (eapply written_tame; [done..|]; by intros []).
  pose proof (wn_same _ _ _ _ _ Hw) as Hst. pose proof (fun q => written_frame _ _ _ _ _ q Hw) as Hd.
  destruct r as [[]|e]; [|split; [by eapply does_quiet|done]].
  do 3 sp_step.
  set (g := {| ge_notice := notice; ge_encrypted_bytes := len c; ge_path := dest |}).
  split.
  - eapply (does_step _ (RecordGap g)); [|done].
    apply (step_update (RecordGap g) dest); try done.
    + split_and!; try done; cbn; try lia; [by apply eq_None_not_Some|
        by apply gap_notice_for_identity_valid; lia|by exists entry|apply len_nonneg].
    + destruct Hst as (_ & Hk & _). cbn. rewrite Hk. eapply sealed_holds; try done; [lia|by eapply written_stored].
  - intros _ _. exists (gn_notice_id notice), g. cbn. by rewrite lookup_insert_eq.
Qed.

(** ** Dropping records and gaps *)

Definition drops (e : Entry) (ev : Event) : Prop := ev = DropGapped e \/ exists r, ev = DropAcked r e.

Lemma does_drop_entry (L : Event -> Prop) ev e w w1 :
  wf w -> same_state w w1 -> tame w w1 -> (forall p, ~ only (en_path e) p -> in_disk w1 !! p = in_disk w !! p) ->
  ~ readable (in_key w1) (in_disk w1) e -> drops e ev -> enabled (in_config w) (in_state w) ev -> L ev ->
  does L w (set_state (drop_entry e (in_state w1)) w1).
Proof.
  intros Hwf Hst Htame Hd Hread Hev Hen HL.
  assert (Heff : forall s, drop_entry e s = effect ev s) by (intros s; by destruct Hev as [->|[r ->]]).
  assert (He : entries (in_state w) !! en_record_id e = Some e)
    by (destruct Hev as [->|[r ->]]; apply Hen).
  eapply does_step; [|exact HL]. rewrite Heff.
  apply (step_update ev (en_path e)); try done; [by destruct Hev as [->|[r ->]]..|].
  rewrite <-Heff. intros _ Ht. destruct Hwf as [_ Hs]. by apply (untracked_dropped_entry _ _ Hs e He).
Qed.

Lemma ok_uncount (L : Event -> Prop) seq : L (Uncount seq) -> ok L (update (uncount seq)).
Proof. intros HL. by apply (ok_update L (uncount seq) (Uncount seq)). Qed.

Lemma entry_matches_true a e : entry_matches a e = true <-> admission_of e = a.
Proof.
  unfold entry_matches, admission_of. rewrite !andb_true_iff, Z.eqb_eq, !bool_decide_eq_true.
  destruct a; cbn. split; [intros [[-> ->] ->]; done|intros [= <- <- <-]; done].
Qed.

Lemma remove_admitted_record_ok (L : Event -> Prop) admission w :
  L Quiet -> (forall seq, L (Uncount seq)) -> wf w ->
  (forall e, entries (in_state w) !! en_record_id e = Some e -> admission_of e = admission ->
     exists ev, drops e ev /\ enabled (in_config w) (in_state w) ev /\ L ev) ->
  does L w (remove_admitted_record admission w).2.
Proof.
  intros HQ HU Hwf Hdrop. pose proof Hwf as [_ Hs].
  assert (Hfin : forall b r, ok L (when b (update (uncount (ra_spool_seq admission))) ;; ret (r : bool)))
    by (intros; apply ok_bind; [by apply ok_when, ok_uncount|intros; apply ok_ret]).
  enough (wp (remove_admitted_record admission) (fun _ w' => does L w w') w) as H by exact H.
  unfold remove_admitted_record. sp_step. sp_step.
  destruct (entries (in_state w) !! ra_legacy_record_id admission) as [e|] eqn:He; [|by apply Hfin].
  destruct (entry_matches admission e) eqn:Em; [|by apply Hfin].
  apply entry_matches_true in Em. sp_step.
  assert (He' : entries (in_state w) !! en_record_id e = Some e) by (rewrite <-Em in He; exact He).
  destruct (Hdrop e He' Em) as (ev & Hev & Hen & HL).
  apply wp_remove_if_present; [by eapply entry_not_sequence| |intros; by apply does_ticks].
  intros w1 Hst Htame Hd Hgone. sp_step. sp_step.
  assert (Hd1 : does L w (set_state (drop_entry e (in_state w1)) w1)).
  { eapply does_drop_entry; try done. intros (st & (b & pl & Hb & _) & _). congruence. }
  eapply wp_mono; [apply wp_ok; [apply Hfin|by eapply wf_does]|].
  intros r w' Hd2. by eapply does_trans.
Qed.

Lemma quarantined_untracked c s e :
  wf_state c s -> entries s !! en_record_id e = Some e -> quarantined s (en_spool_seq e) ->
  ~ tracked s (en_path e).
Proof.
  intros Hs He Hq Ht. rewrite (we_path _ _ _ (ws_entries _ _ Hs _ _ He)) in Ht.
  inversion Ht as [r e' He' Hn Ep|n g Hg Ep|b re Hre Ep].
  - rewrite (we_path _ _ _ (ws_entries _ _ Hs _ _ He')) in Ep. apply SPath_inj in Ep as [_ Ep].
    apply pending_name_seq in Ep; [|by eapply entry_u64..]. by rewrite Ep in Hn.
  - by rewrite (wg_path _ _ _ (ws_gaps _ _ Hs _ _ Hg)) in Ep.
  - by rewrite (wr_path _ _ _ (ws_receipts _ _ Hs _ _ Hre)) in Ep.
Qed.

(** ** Quarantine at run time *)

Definition quarantine_events (ev : Event) : Prop :=
  match ev with
  | Quiet | DropGapped _ | CountCorrupt => True
  | RecordGap g => gn_reason (ge_notice g) = IntegrityQuarantine
  | _ => False
  end.

Lemma gap_events_quarantine ev : gap_events IntegrityQuarantine ev -> quarantine_events ev.
Proof. by destruct ev. Qed.

Lemma move_to_quarantine_ok entry w :
  wf w -> entries (in_state w) !! en_record_id entry = Some entry ->
  quarantined (in_state w) (en_spool_seq entry) ->
  step Quiet w (move_to_quarantine (en_path entry) w).2.
Proof.
  intros Hwf He Hq. pose proof Hwf as [_ Hs].
  destruct (touches_move_to_quarantine (en_path entry) ltac:(by eapply entry_not_sequence) w) as (Hst & Ht & Hd).
  apply (step_quiet (en_path entry)); try done. by eapply quarantined_untracked.
Qed.

(** A record that reads as corrupt is not readable, and stays so while no
    record is written. *)
Lemma readable_agree key d d' e :
  d' !! en_path e = d !! en_path e \/ d' !! en_path e = None -> readable key d' e -> readable key d e.
Proof.
  intros Hd (st & (b & pl & Hb & Hrest) & Hm). exists st. split; [|done]. exists b, pl. split; [|done].
  destruct Hd as [Hd|Hd]; congruence.
Qed.

Lemma io_not_corrupt {A} code : Err (A:=A) (map_io_error (OsError code)) <> Err CorruptRecord.
Proof. unfold map_io_error. by destruct (_ || _). Qed.

Lemma check_not_corrupt e w :
  readable (in_key w) (in_disk w) e -> wp (check_record_size e) (fun r _ => r <> Err CorruptRecord) w.
Proof.
  intros (st & (b & pl & Hb & Hlen & _) & _). unfold in_disk in Hb. unfold check_record_size. sp_step.
  apply wp_lift, wp_sys_catch, wp_query. intros r [->|[code ->]]; [|by sp_step; apply io_not_corrupt].
  cbn. rewrite Hb. cbn [node_len]. sp_step; [lia|done].
Qed.

Lemma read_not_corrupt e w :
  readable (in_key w) (in_disk w) e -> wp (read_record e) (fun r _ => r <> Err CorruptRecord) w.
Proof.
  intros (st & (b & pl & Hb & Hlen & Hdec & Hparse) & Hv & Hid & Hsid & Hseq). unfold in_disk in Hb.
  unfold read_record. sp_step. apply wp_lift, wp_sys_catch, wp_query.
  intros r [->|[code ->]]; [|by sp_step; apply io_not_corrupt]. cbn. rewrite Hb.
  sp_step. unfold wp at 1, decrypt_bytes. cbn. rewrite Hdec. cbn. do 2 sp_step; [|congruence].
  assert (a = st) as -> by congruence. do 2 sp_step; [|by sp_step].
  rewrite Hv, Hid, Hsid, Hseq in H0. by rewrite !bool_decide_false in H0 by (intros HH; by apply HH).
Qed.

Lemma readable_not_corrupt e w :
  readable (in_key w) (in_disk w) e -> wp (read_entry e) (fun r _ => r <> Err CorruptRecord) w.
Proof.
  intros Hr. unfold read_entry. sp_step. pose proof (check_not_corrupt e w Hr) as Hc.
  destruct (touches_check_record_size (fun _ => False) e w) as ((_ & Hk & _) & _ & Hd).
  unfold wp in Hc |- * at 1. destruct (check_record_size e w) as [[[]|err] w1]; cbn [fst snd] in *; [|congruence].
  apply read_not_corrupt. rewrite Hk. eapply readable_agree; [|exact Hr]. left. symmetry. apply Hd. by intros [].
Qed.

Lemma read_entry_corrupt e w w1 :
  read_entry e w = (Err CorruptRecord, w1) -> ~ readable (in_key w1) (in_disk w1) e.
Proof.
  intros E Hr. destruct (touches_read_entry (fun _ => False) e w) as ((_ & Hk & _) & _ & Hd).
  assert (Hr' : readable (in_key w) (in_disk w) e).
  { rewrite E in Hk, Hd. cbn in Hk, Hd. rewrite Hk in Hr. eapply readable_agree; [|exact Hr]. left. apply Hd; by intros []. }
  apply readable_not_corrupt in Hr'. unfold wp in Hr'. by rewrite E in Hr'.
Qed.

Lemma unreadable_does (L : Event -> Prop) w w' e :
  (forall ev, L ev -> writes ev = false) -> does L w w' -> kept_dir (en_path e) ->
  ~ readable (in_key w) (in_disk w) e -> ~ readable (in_key w') (in_disk w') e.
Proof.
  intros HL Hd Hp. apply (does_ind L (fun w1 => ~ readable (in_key w1) (in_disk w1) e) w w'); [|done].
  intros ev w1 w2 Hev Hst Hn Hr. apply Hn. pose proof (st_key _ _ _ Hst) as Hk. rewrite Hk in Hr.
  eapply readable_agree; [|exact Hr].
  destruct (st_files _ _ _ Hst _ Hp) as [|[|Hbr]]; [by left|by right|]. apply HL in Hev. by destruct ev.
Qed.

Lemma quarantine_runtime_entry_ok entry w :
  wf w -> ~ readable (in_key w) (in_disk w) entry ->
  (forall e, entries (in_state w) !! en_record_id entry = Some e -> e = entry) ->
  wp (quarantine_runtime_entry entry)
     (fun r w' => does quarantine_events w w' /\
        (r = Ok tt -> entries (in_state w') = delete (en_record_id entry) (entries (in_state w)))) w.
Proof.
  intros Hwf Hun Hsame. pose proof Hwf as [_ Hs]. unfold quarantine_runtime_entry. do 2 sp_step.
  destruct (entries (in_state w) !! en_record_id entry) as [e|] eqn:He.
  2:{ rewrite bool_decide_false by (by intros [? ?]). cbn [negb]. sp_step.
      split; [apply does_refl|]. intros _. by rewrite delete_id. }
  rewrite bool_decide_true by done. cbn [negb]. assert (e = entry) as -> by auto.
  destruct (ws_entries _ _ Hs _ _ He) as [_ Hseq _ _ _ _ _].
  sp_step. eapply wp_mono; [by apply persist_gap_locked_ok|].
  intros r w1 [Hd1 Hrec].
  assert (Hes : entries (in_state w1) = entries (in_state w))
    by (eapply does_same; [|exact Hd1]; by intros []).
  assert (He1 : entries (in_state w1) !! en_record_id entry = Some entry).
  { by rewrite Hes. }
  apply (does_mono _ _ _ _ gap_events_quarantine) in Hd1.
  destruct r as [p|err]; [|done]. destruct (Hrec p eq_refl) as (n & g & Hg & Hq & Hr). clear Hrec.
  assert (Hwf1 : wf w1) by (by eapply wf_does).
  sp_step. pose proof (move_to_quarantine_ok entry w1 Hwf1 He1 ltac:(by exists n, g)) as Hd2.
  assert (Hkd : kept_dir (en_path entry)) by (left; by rewrite (we_path _ _ _ (ws_entries _ _ Hs _ _ He))).
  apply (unreadable_does quarantine_events w w1) in Hun; [|by intros []|exact Hd1|done].
  destruct (touches_move_to_quarantine (en_path entry) ltac:(by eapply entry_not_sequence) w1) as (Hst2 & _ & _).
  unfold wp at 1. destruct (move_to_quarantine (en_path entry) w1) as [[[]|err] w2]; cbn in *.
  2:{ split; [|done]. eapply does_trans; [done|]. by eapply does_step. }
  apply (does_step quarantine_events) in Hd2; [|done].
  apply (unreadable_does quarantine_events w1 w2) in Hun; [|by intros []|exact Hd2|done].
  do 3 sp_step. destruct Hst2 as (_ & _ & Hst2). rewrite Hst2.
  assert (Hwf2 : wf w2) by (by eapply wf_does).
  assert (Hd3 : does quarantine_events w2 (set_state (drop_entry entry (in_state w2)) w2)).
  { eapply (does_drop_entry _ (DropGapped entry)); try done; [apply tame_refl|by left|]. rewrite Hst2.
    split; [done|]. by exists n, g. }
  rewrite Hst2 in Hd3. split; [|intros _; cbn; by rewrite Hes].
  eapply does_trans; [exact Hd1|]. eapply does_trans; [exact Hd2|]. eapply does_trans; [exact Hd3|].
  eapply (does_step _ CountCorrupt); [|done].
  apply (step_pure CountCorrupt (set_state (drop_entry entry (in_state w1)) w2)); try done.
  by eapply wf_does.
Qed.

End Refine.
