(* ===== verification/SpoolRefineOps.v ===== *)
(** * The public operations refine the event system

    For every method: the events it may perform ([*_events]) and, where a
    caller relies on it, what its result says about the state it leaves. *)

From S2P Require Import Prelude Protocol Crypto Fs SpoolTypes SpoolFacts SpoolBase SpoolOps.
From S2P Require Import SpoolErrors SpoolFrame SpoolInv SpoolSpec SpoolRefine.

Section RefineOps.
Context {X : SpoolEnv} {SL : SpoolLaws}.

(** ** Admission *)

Definition admit_events (ev : Event) : Prop :=
  match ev with Quiet | Admit _ | LostAdmit _ => True | _ => False end.

(** The entry [enqueue] makes of an envelope. *)
Definition is_entry_of (s : State) (c : SpoolConfig) (envelope : ReceiverEnvelope) (now : Z)
    (e : Entry) : Prop :=
  en_record_id e = record_id envelope /\
  en_stable_record_id e = stable_record_id envelope /\
  en_spool_seq e = next_spool_sequence s /\
  en_admitted_at_ms e = now /\
  en_expires_at_ms e = i64_saturating_add now (retention_ms c).

(** The event passes validation and is not pending yet. *)
Definition wanted (w : Inner) (envelope : ReceiverEnvelope) : Prop :=
  validate envelope = Ok tt /\ stable_index (in_state w) !! stable_record_id envelope = None.

(** What [enqueue] stores of the event and what both protocols will deliver. *)
Definition new_record (w : Inner) (envelope : ReceiverEnvelope) (now : Z) : StoredRecord := {|
  sr_version := 2;
  sr_record_id := record_id envelope;
  sr_stable_record_id := Some (stable_record_id envelope);
  sr_spool_seq := Some (next_spool_sequence (in_state w));
  sr_admitted_at_ms := now;
  sr_expires_at_ms := i64_saturating_add now (retention_ms (in_config w));
  sr_envelope := envelope |}.
Definition new_delivery_v1 (envelope : ReceiverEnvelope) (now : Z) : HubBatchRecordV1 :=
  {| br1_record_id := record_id envelope; br1_received_at_ms := now; br1_envelope := envelope |}.
Definition new_delivery_v2 (w : Inner) (envelope : ReceiverEnvelope) (now : Z) : HubBatchRecordV2 := {|
  br2_record_id := stable_record_id envelope;
  br2_legacy_record_id := record_id envelope;
  br2_spool_seq := next_spool_sequence (in_state w);
  br2_received_at_ms := now;
  br2_envelope := envelope |}.

(** Either delivery of the event fits a batch of its own. *)
Definition deliverable (w : Inner) (envelope : ReceiverEnvelope) (now : Z) : Prop :=
  exists v1 v2, to_vec (new_delivery_v1 envelope now) = Some v1 /\ to_vec (new_delivery_v2 w envelope now) = Some v2 /\
    len v1 <= batch_max_bytes (in_config w) /\ len v2 <= batch_max_bytes (in_config w).

(** There is room for one more record whose plain text is [plain]. *)
Definition fits (w : Inner) (plain : bytes) : Prop :=
  Z.of_nat (size (entries (in_state w))) + Z.of_nat (size (gaps (in_state w))) < max_records (in_config w) /\
  pending_bytes (in_state w) + (len plain + 64) <= max_bytes (in_config w).

Definition storable (w : Inner) (envelope : ReceiverEnvelope) (now : Z) : Prop :=
  wanted w envelope /\ next_spool_sequence (in_state w) < U64_MAX /\ deliverable w envelope now /\
  exists plain, to_vec (new_record w envelope now) = Some plain /\ fits w plain.

(** Why [enqueue] refuses an event, with which error, and what is left: every
    refusal keeps the state, and all but the last two keep the whole spool. *)
Inductive refused (w : Inner) (envelope : ReceiverEnvelope) (now : Z) : SpoolError -> Inner -> Prop :=
| refused_invalid : validate envelope <> Ok tt -> refused w envelope now CorruptRecord w
| refused_latched :
    validate envelope = Ok tt -> in_storage_write_failed w = true -> refused w envelope now SpoolIo w
| refused_exhausted :
    wanted w envelope -> next_spool_sequence (in_state w) = U64_MAX -> refused w envelope now InvalidConfig w
| refused_encoding :
    wanted w envelope ->
    to_vec (new_delivery_v1 envelope now) = None \/ to_vec (new_delivery_v2 w envelope now) = None \/
      to_vec (new_record w envelope now) = None ->
    refused w envelope now Serialization w
| refused_item v1 v2 :
    wanted w envelope ->
    to_vec (new_delivery_v1 envelope now) = Some v1 -> to_vec (new_delivery_v2 w envelope now) = Some v2 ->
    batch_max_bytes (in_config w) < Z.max (len v1) (len v2) ->
    refused w envelope now BatchItemTooLarge w
| refused_capacity plain :
    wanted w envelope -> deliverable w envelope now ->
    to_vec (new_record w envelope now) = Some plain -> ~ fits w plain ->
    refused w envelope now CapacityExceeded w
| refused_sealing plain e w' :
    storable w envelope now -> to_vec (new_record w envelope now) = Some plain ->
    e = CorruptRecord \/ (e = BatchItemTooLarge /\ MAX_ENCRYPTED_RECORD_BYTES < len plain + 56) ->
    same_state w w' -> in_disk w' = in_disk w -> in_storage_write_failed w' = in_storage_write_failed w ->
    refused w envelope now e w'
| refused_write e w' :
    storable w envelope now -> io_error e -> same_state w w' -> in_storage_write_failed w' = true ->
    refused w envelope now e w'.

Lemma refused_state w envelope now e w' : refused w envelope now e w' -> in_state w' = in_state w.
Proof. by intros [| | | | | |? ? ? _ _ _ (_ & _ & ?) _ _|? ? _ _ (_ & _ & ?) _]. Qed.

(** The admission checks on capacity are the mathematical ones: no sum that
    matters saturates. *)
Lemma fits_check w plain :
  wf w ->
  (max_records (in_config w) <=?
     u64_saturating_add (Z.of_nat (size (entries (in_state w)))) (Z.of_nat (size (gaps (in_state w)))))
  || (max_bytes (in_config w) <? u64_saturating_add (pending_bytes (in_state w)) (u64_saturating_add (len plain) 64))
    = false <-> fits w plain.
Proof.
  intros [Hc Hs]. pose proof (wc_records _ Hc). pose proof (wc_bytes _ Hc). pose proof (pending_bytes_nonneg _ _ Hs).
  rewrite orb_false_iff, Z.leb_gt, Z.ltb_ge. unfold fits, u64_saturating_add. pose proof (len_nonneg plain). lia.
Qed.

(** The envelope was admitted as [e]: visible in the state, durable on disk,
    and with the envelope itself as the stored content. *)
Definition admitted_as (w w' : Inner) (envelope : ReceiverEnvelope) (now : Z) : Prop :=
  exists e, is_entry_of (in_state w) (in_config w) envelope now e /\
    in_state w' = insert_entry e (next_spool_sequence (in_state w) + 1) (in_state w) /\
    exists st, holds (in_key w') (in_disk w') (en_path e) MAX_ENCRYPTED_RECORD_BYTES st /\
      stored_matches e st /\ sr_envelope st = envelope.

Lemma fresh_record_id c s envelope :
  wf_state c s -> stable_index s !! stable_record_id envelope = None ->
  entries s !! record_id envelope = None.
Proof.
  intros Hs Hi. destruct (entries s !! record_id envelope) as [e|] eqn:He; [|done].
  destruct (ws_entries _ _ Hs _ _ He) as [Hk _ Hidx _ _ (env' & _ & Hr & Hsid) _].
  rewrite Hk in Hr. apply record_id_refines in Hr. rewrite <-Hsid, Hr in Hidx. congruence.
Qed.

Lemma expiry_not_before now retention :
  in_i64 now -> 0 < retention -> now <= i64_saturating_add now retention.
Proof. unfold in_i64, i64_saturating_add. lia. Qed.

Lemma u64_checked_add_full z : 0 < z <= U64_MAX -> u64_checked_add z 1 = None -> z = U64_MAX.
Proof. unfold u64_checked_add. destruct (Z.leb_spec (z + 1) U64_MAX); [done|lia]. Qed.

(** A sealed record is smaller than the admission check assumed. *)
Lemma sealed_fits w plain :
  fits w plain -> (max_bytes (in_config w) <? u64_saturating_add (pending_bytes (in_state w)) (len plain + 56)) <> true.
Proof. intros [_ Hb] H%Z.ltb_lt. unfold u64_saturating_add in H. lia. Qed.

Lemma new_record_valid envelope seq now expires :
  validate envelope = Ok tt -> 0 < seq -> now <= expires ->
  valid_stored_record {| sr_version := 2; sr_record_id := record_id envelope;
    sr_stable_record_id := Some (stable_record_id envelope); sr_spool_seq := Some seq;
    sr_admitted_at_ms := now; sr_expires_at_ms := expires; sr_envelope := envelope |} = true.
Proof.
  intros Hv Hseq Hexp. unfold valid_stored_record. cbn. rewrite Hv, bool_decide_false by tauto.
  rewrite (proj2 (Z.ltb_ge _ _)) by done. cbn. rewrite bool_decide_true by done.
  by apply Z.ltb_lt.
Qed.

Definition enqueue_outcome (w : Inner) (envelope : ReceiverEnvelope) (now : Z)
    (r : Result SpoolError EnqueueOutcome) (w' : Inner) : Prop :=
  match r with
  | Ok (AlreadyPresent id) =>
      w' = w /\ validate envelope = Ok tt /\ stable_index (in_state w) !! stable_record_id envelope = Some id
  | Ok (Stored id) => id = record_id envelope /\ storable w envelope now /\ admitted_as w w' envelope now
  | Err e =>
      refused w envelope now e w' \/
      (storable w envelope now /\ admitted_as w w' envelope now /\ storage_error e /\
       (io_error e -> in_storage_write_failed w' = true))
  end.

(** A sequence file that could not be written latches. *)
Lemma persist_latches (Q : Result SpoolError unit -> Inner -> Prop) w :
  wp persist_current_sequence (fun r w' =>
    (forall e, r = Err e -> io_error e -> in_storage_write_failed w' = true) -> Q r w') w ->
  wp persist_current_sequence Q w.
Proof.
  intros HQ. apply HQ. intros e He Hio. revert e He Hio.
  enough (wp persist_current_sequence (fun r w' => forall e, r = Err e -> io_error e ->
    in_storage_write_failed w' = true) w) as H by exact H.
  unfold persist_current_sequence, persist_sequence_state. do 4 sp_step; [|by intros e [= <-] [?|?]].
  apply wp_seal. intros [c|e] w1 _ _ _ _; [|by intros -> e1 [= <-] [?|?]].
  intros _. apply wp_write_new; [done|]. intros r w2 Hw e -> _. by apply (wn_err _ _ _ _ _ Hw).
Qed.

(** The end of [enqueue]: write the sealed record, make it visible, persist
    the sequence state. *)
Lemma enqueue_write envelope e st sealed w w1 :
  let now := en_admitted_at_ms e in
  wf w -> same_state w w1 -> in_disk w1 = in_disk w ->
  in_storage_write_failed w1 = in_storage_write_failed w ->
  enabled (in_config w) (in_state w) (Admit e) ->
  storable w envelope now -> is_entry_of (in_state w) (in_config w) envelope now e ->
  stored_matches e st -> sr_envelope st = envelope ->
  (forall disk, disk !! en_path e = Some (File sealed) ->
     holds (in_key w) disk (en_path e) MAX_ENCRYPTED_RECORD_BYTES st) ->
  wp (write_new (en_path e) sealed ;;
      update (insert_entry e (next_spool_sequence (in_state w) + 1)) ;;
      persist_current_sequence ;;
      ret (Stored (en_record_id e)))
     (fun r w' => does admit_events w w' /\ enqueue_outcome w envelope now r w') w1.
Proof.
  intros now Hwf Hst1 Hd1 Hl1 Hen Hroom Hof Hm Henv Hholds. pose proof Hwf as [_ Hs].
  pose proof Hen as (Hfr & Hfi & Hseq & _ & _ & Hpath & _).
  assert (Hun : ~ tracked (in_state w) (en_path e))
    by (rewrite Hpath, Hseq; by eapply untracked_pending).
  sp_step. apply (wp_raises io_error); [eauto with raises|].
  apply wp_write_new; [by rewrite Hpath|]. intros r w2 Hw%(written_after _ _ _ w) Hio; try done.
  pose proof (wn_same _ _ _ _ _ Hw) as (_ & Hk & Hs2).
  assert (Hseqp : en_path e <> sequence_path) by (by rewrite Hpath).
  assert (Hdur : in_disk w2 !! en_path e = Some (File sealed) -> entry_durable (in_key w2) (in_disk w2) e)
    by (intros Hf; exists st; split; [rewrite Hk; by apply Hholds|done]).
  destruct r as [[]|err].
  2:{ split; [|left; apply refused_write; [done|by apply Hio|apply Hw|by apply (wn_err _ _ _ _ _ Hw)]].
      apply (does_lost _ (LostAdmit e) (en_path e) sealed (Err err)); try done.
      intros Hf. split; [done|by apply Hdur]. }
  destruct (wn_ok _ _ _ _ _ Hw eq_refl) as (Hfile & Hlw & _).
  do 2 sp_step. set (w3 := set_state _ w2).
  assert (Hh : holds (in_key w3) (in_disk w3) (en_path e) MAX_ENCRYPTED_RECORD_BYTES st)
    by (cbn; rewrite Hk; by apply Hholds).
  assert (Hd3 : does admit_events w w3).
  { apply (does_step _ (Admit e)); [|done].
    pose proof (step_written (Admit e) (en_path e) sealed (Ok tt) w w2 Hwf Hw Hfile Hlw Hseqp Hun ltac:(done) Hen) as Hu.
    unfold w3. rewrite Hs2 in Hu |- *. apply Hu; [by apply Hdur|]. split; [done|by apply Hdur]. }
  assert (Hin : in_state w3 = insert_entry e (next_spool_sequence (in_state w) + 1) (in_state w))
    by (cbn; by rewrite Hs2).
  clearbody w3. sp_step. apply (wp_raises storage_error); [eauto with raises|]. apply persist_latches.
  apply (wp_frames scratch); [apply touches_persist_current_sequence|].
  intros r w4 Hst4 Ht4 Hd4 Hlatch Herr.
  assert (Hadm : admitted_as w w4 envelope now).
  { exists e. destruct Hst4 as (_ & Hk4 & Hs4). rewrite Hs4, Hk4. split_and!; [done..|].
    exists st. split_and!; [|done..]. eapply holds_agree; [|exact Hh]. apply Hd4.
    rewrite Hpath. by intros [?|[?|?]]. }
  assert (does admit_events w w4).
  { eapply does_trans; [exact Hd3|]. apply does_scratch; try done. by eapply wf_does. }
  destruct r; [sp_step|]; (split; [done|]); [|right; split_and!; [done..|by apply Herr|by apply Hlatch]].
  by destruct Hof as (-> & _).
Qed.

Lemma enqueue_locked_ok envelope now w :
  wf w -> in_i64 now -> validate envelope = Ok tt ->
  wp (enqueue_locked envelope now)
     (fun r w' => does admit_events w w' /\ enqueue_outcome w envelope now r w') w.
Proof.
  intros Hwf Hnow Hv. pose proof Hwf as [Hc Hs]. pose proof (ws_next _ _ Hs) as Hnext.
  assert (Herr : forall e, refused w envelope now e w ->
    does admit_events w w /\ enqueue_outcome w envelope now (Err e) w)
    by (intros e; split; [apply does_refl|by left]).
  unfold enqueue_locked. do 2 sp_step.
  destruct (stable_index (in_state w) !! stable_record_id envelope) as [id|] eqn:Hidx.
  { sp_step. split; [apply does_refl|done]. }
  assert (Hw : wanted w envelope) by done.
  do 2 sp_step. do 2 sp_step; [|apply Herr, refused_exhausted; [done|by apply u64_checked_add_full]].
  rename a into next, H into Hadd. apply u64_checked_add_Some in Hadd as [-> Hlt].
  do 2 sp_step; [|apply Herr, refused_encoding; auto]. rename a into v1, H into Hv1.
  do 2 sp_step; [|apply Herr, refused_encoding; auto]. rename a into v2, H into Hv2.
  do 2 sp_step; [apply Herr; eapply refused_item; [done|exact Hv1|exact Hv2|lia]|]. rename H into Hitem.
  apply orb_false_iff in Hitem as [Hi1%Z.ltb_ge Hi2%Z.ltb_ge].
  assert (Hdel : deliverable w envelope now) by (by exists v1, v2).
  do 2 sp_step; [|apply Herr, refused_encoding; auto]. rename a into plain, H into Hplain.
  do 2 sp_step; [apply Herr; eapply refused_capacity; [done..|by rewrite <-fits_check, H by done]|].
  rename H into Hcap. apply (fits_check w) in Hcap; [|done].
  assert (Hroom : storable w envelope now) by (split_and!; [done|lia|done|by exists plain]).
  apply wp_seal. intros [sealed|e] w1 Hst1 Ht1 Hd1 Hl1.
  2:{ intros ->. split; [by apply does_ticks|left]. eapply refused_sealing; try done; by left. }
  intros (nonce & Hn & Hsealed). pose proof (encrypt_len _ _ _ _ Hn Hsealed) as Hcost.
  do 2 sp_step.
  { split; [by apply does_ticks|left]. eapply refused_sealing; try done; right; split; [done|lia]. }
  rename H into Hlen. do 2 sp_step; [exfalso; eapply sealed_fits; [done..|by rewrite <-Hcost]|]. rename H into Hbytes.
  match goal with |- context [insert_entry ?x _] => set (e := x) end.
  apply (enqueue_write envelope e (new_record w envelope now) sealed w w1); try done.
  - split_and!; cbn; try done; try lia; [by eapply fresh_record_id|apply len_nonneg|by exists envelope|].
    apply Z.le_lt_trans with (2 := proj1 Hcap). lia.
  - split_and!; try done. apply new_record_valid; [done|lia|].
    apply expiry_not_before; [done|apply (wc_retention _ Hc)].
  - intros disk Hdisk. eapply sealed_holds; try done. lia.
Qed.

Lemma enqueue_ok envelope now w :
  wf w -> in_i64 now ->
  wp (enqueue envelope now)
     (fun r w' => does admit_events w w' /\ enqueue_outcome w envelope now r w') w.
Proof.
  intros Hwf Hnow. unfold enqueue. sp_step. sp_step.
  { split; [apply does_refl|left]. apply refused_invalid. by destruct (validate envelope). }
  destruct (validate envelope) as [[]|] eqn:Hv; [|done].
  do 4 sp_step; [split; [apply does_refl|left; by apply refused_latched]|]. by apply enqueue_locked_ok.
Qed.

(** ** Retention *)

Definition expire_events (ev : Event) : Prop :=
  match ev with
  | Quiet | DropGapped _ | CountExpired _ _ | Uncount _ => True
  | RecordGap g => gn_reason (ge_notice g) = RetentionExpired
  | _ => False
  end.

(** The counting loop only adds entries of the list, once each. *)
Lemma count_expired_spec s expired counted n :
  count_expired s expired = (counted, n) ->
  (forall q sid, counted !! q = Some sid ->
     counted_pending_expirations s !! q = Some sid \/
     exists e, e ∈ expired /\ en_spool_seq e = q /\ en_stable_record_id e = sid) /\
  counted_pending_expirations s ⊆ counted /\ 0 <= n /\
  Z.of_nat (size counted) = Z.of_nat (size (counted_pending_expirations s)) + n.
Proof.
  unfold count_expired. revert counted n.
  induction expired as [|e expired IH] using rev_ind; intros counted n.
  { cbn. intros [= <- <-]. split_and!; [by left|done|lia..]. }
  rewrite foldl_app. cbn [foldl].
  destruct (foldl _ _ expired) as [counted1 n1]. destruct (IH _ _ eq_refl) as (Hin & Hsub & Hn & Hsz).
  assert (Hin' : forall q sid, counted1 !! q = Some sid ->
     counted_pending_expirations s !! q = Some sid \/
     exists e', e' ∈ expired ++ [e] /\ en_spool_seq e' = q /\ en_stable_record_id e' = sid).
  { intros q sid Hq. destruct (Hin q sid Hq) as [|(e' & ? & ?)]; [by left|right; exists e'; set_solver]. }
  destruct (_ && _) eqn:Eb; intros [= <- <-]; [|done].
  apply andb_true_iff in Eb as [_ Eb]. apply negb_true_iff, bool_decide_eq_false, eq_None_not_Some in Eb.
  split_and!.
  - intros q sid [[<- <-]|[_ Hq]]%lookup_insert_Some; [right; exists e; set_solver|auto].
  - transitivity counted1; [done|by apply insert_subseteq].
  - lia.
  - rewrite map_size_insert_None by done. lia.
Qed.

Lemma elem_of_expired now s e : e ∈ expired_entries now s -> exists r, entries s !! r = Some e.
Proof.
  unfold expired_entries. rewrite sort_by_key_perm. intros [He _]%list_elem_of_In%List.filter_In.
  by apply elem_of_btree_values, list_elem_of_In.
Qed.

Lemma count_enabled c s now counted n :
  wf_state c s -> count_expired s (expired_entries now s) = (counted, n) ->
  0 < n -> expired_records s + n <= U64_MAX -> enabled c s (CountExpired (expired_records s + n) counted).
Proof.
  intros Hs (Hin & _)%count_expired_spec Hn Hmax. cbn. split_and!; [| |lia|lia].
  - intros q sid [Hq|(e & He & <- & _)]%Hin; [by eapply (ws_counted _ _ Hs)|].
    apply elem_of_expired in He as [r He]. by destruct (ws_entries _ _ Hs _ _ He).
  - intros r e sid He [Hq|(e' & He' & Eq & <-)]%Hin; [by eapply we_counted, Hq; apply (ws_entries _ _ Hs)|].
    apply elem_of_expired in He' as [r' He'].
    assert (r' = r) as -> by (by eapply (ws_entries_seq _ _ Hs)). congruence.
Qed.

(** Visiting an entry does not change the total and drops no other entry. *)
Definition visit_events (entry : Entry) (ev : Event) : Prop :=
  match ev with
  | Quiet | Uncount _ => True
  | DropGapped e => en_record_id e = en_record_id entry
  | RecordGap g => gn_reason (ge_notice g) = RetentionExpired
  | _ => False
  end.

Lemma gap_events_visit entry ev : gap_events RetentionExpired ev -> visit_events entry ev.
Proof. by destruct ev. Qed.
Lemma visit_expire entry ev : visit_events entry ev -> expire_events ev.
Proof. by destruct ev. Qed.

Lemma visit_others entry w w' r e :
  does (visit_events entry) w w' -> r <> en_record_id entry ->
  entries (in_state w) !! r = Some e -> entries (in_state w') !! r = Some e.
Proof.
  intros Hd Hne. apply (does_ind (visit_events entry) (fun w => entries (in_state w) !! r = Some e) w w'); [|done].
  intros ev w1 w2 Hev Hst He. rewrite (st_effect _ _ _ Hst). destruct ev; try done. cbn in *.
  rewrite lookup_delete_ne; [done|congruence].
Qed.

Lemma expire_entry_visits entry w :
  wf w -> entries (in_state w) !! en_record_id entry = Some entry ->
  does (visit_events entry) w (expire_entry entry w).2.
Proof.
  intros Hwf Hin. enough (wp (expire_entry entry) (fun _ w' => does (visit_events entry) w w') w) as H by exact H.
  unfold expire_entry. sp_step. sp_step. eapply wp_mono; [by apply persist_gap_locked_ok|].
  intros r w1 [Hd1%(does_mono _ _ _ _ (gap_events_visit entry)) Hrec].
  destruct r as [p|err]; [|by destruct err]. cbn beta iota.
  destruct (Hrec p eq_refl) as (n & g & Hg & Hq & _).
  assert (Hwf1 : wf w1) by (by eapply wf_does).
  eapply wp_mono; [apply (wp_ok_from (visit_events entry) w1)|intros r w2 Hd2; by eapply does_trans].
  apply does_bind; [done| |intros _].
  - apply remove_admitted_record_ok; try done. intros e He Ha. exists (DropGapped e).
    injection Ha as Ha _ Hid. split_and!; [by left|split; [done|]|done]. exists n, g. split; [done|]. congruence.
  - repeat (apply ok_bind; [|intros _]); [by apply ok_scratch; [|apply touches_sync]|by apply ok_uncount|apply ok_ret].
Qed.

Lemma expire_entry_ok entry w :
  wf w -> entries (in_state w) !! en_record_id entry = Some entry ->
  does expire_events w (expire_entry entry w).2.
Proof. intros. eapply does_mono; [apply (visit_expire entry)|by apply expire_entry_visits]. Qed.

Lemma values_nodup c s : wf_state c s -> NoDup (en_spool_seq <$> btree_values (entries s)).
Proof.
  intros Hs. apply NoDup_fmap_2_strong.
  - intros x y [r Hx]%elem_of_btree_values [r' Hy]%elem_of_btree_values E.
    assert (r = r') as -> by (by eapply (ws_entries_seq _ _ Hs)). congruence.
  - apply (NoDup_fmap_1 en_record_id).
    assert (E : en_record_id <$> btree_values (entries s) = btree_keys (entries s)).
    { unfold btree_values, btree_keys. rewrite <-list_fmap_compose. apply list_fmap_ext.
      intros k [r e] Hk. cbn. apply list_elem_of_lookup_2, elem_of_btree_iter in Hk.
      by destruct (ws_entries _ _ Hs _ _ Hk). }
    rewrite E. apply btree_keys_nodup.
Qed.

Lemma expired_nodup c s now : wf_state c s -> NoDup (en_spool_seq <$> expired_entries now s).
Proof.
  intros Hs. unfold expired_entries. rewrite sort_by_key_perm. apply values_nodup in Hs.
  revert Hs. generalize (btree_values (entries s)). induction l as [|e l IH]; cbn; [done|].
  intros [He Hnd]%NoDup_cons. destruct (is_due now s e); [|auto]. cbn. constructor; [|auto].
  rewrite list_elem_of_fmap in He |- *. intros (e' & E & Hin). apply He. exists e'. split; [done|].
  by apply list_elem_of_In, List.filter_In in Hin as [Hin%list_elem_of_In _].
Qed.

Lemma expire_loop_ok expired b w :
  wf w -> NoDup (en_spool_seq <$> expired) ->
  Forall (fun e => entries (in_state w) !! en_record_id e = Some e) expired ->
  does expire_events w
    (fold_m expired b (fun removed_backing entry =>
       let! removed := expire_entry entry in ret (removed_backing || removed)) w).2.
Proof.
  intros Hwf Hnd Hall.
  apply (wp_fold_m expired b _ (fun l _ w' => does expire_events w w' /\ NoDup (en_spool_seq <$> l) /\
    Forall (fun e => entries (in_state w') !! en_record_id e = Some e) l)
    (fun _ w' => does expire_events w w')); [split; [apply does_refl|done]|by intros ? ? [? _]|].
  intros e l b' w1 (Hd1 & [Hne Hl]%NoDup_cons & [He Hr]%Forall_cons).
  assert (Hwf1 : wf w1) by (by eapply wf_does). pose proof (expire_entry_visits e w1 Hwf1 He) as Hv.
  sp_step. unfold wp at 1. destruct (expire_entry e w1) as [[removed|err] w2]; cbn [fst snd] in Hv |- *.
  all: pose proof (does_mono _ _ _ _ (visit_expire e) Hv) as Hd2.
  - apply wp_ret. split_and!; [by eapply does_trans|done|]. apply Forall_forall. intros e' Hin.
    assert (He' : entries (in_state w1) !! en_record_id e' = Some e') by (rewrite Forall_forall in Hr; by apply Hr).
    eapply visit_others; [exact Hv| |done]. intros E. rewrite E in He'. assert (e' = e) as -> by congruence.
    apply Hne. apply list_elem_of_fmap. by exists e.
  - by eapply does_trans.
Qed.

Definition count_events (ev : Event) : Prop :=
  match ev with Quiet | CountExpired _ _ => True | _ => False end.
Lemma count_expire ev : count_events ev -> expire_events ev.
Proof. by destruct ev. Qed.

(** The first phase: count, and persist the count, before anything is dropped. *)
Lemma expire_count_ok now counted n w :
  wf w -> count_expired (in_state w) (expired_entries now (in_state w)) = (counted, n) ->
  wp (when (0 <? n) (
        let! total := ok_or (u64_checked_add (expired_records (in_state w)) n) InvalidConfig in
        persist_sequence_state (next_spool_sequence (in_state w)) total
          (v1_ack_history_pruned (in_state w)) counted ;;
        update (fun s => set_counted_pending_expirations counted (set_expired_records total s))))
     (fun _ w' => does count_events w w') w.
Proof.
  intros Hwf Hcount. sp_step; [|sp_step; apply does_refl].
  do 2 sp_step; [|apply does_refl]. rename a into total, H into Htot.
  apply u64_checked_add_Some in Htot as [-> Hmax].
  sp_step. apply (wp_frames_at scratch); [by apply touches_persist_sequence_state|].
  intros [[]|e] w1 Hst Ht Hd; [|by apply does_scratch]. sp_step.
  set (ev := CountExpired (expired_records (in_state w) + n) counted).
  apply (does_step _ ev); [|done]. apply (step_update ev (SPath DTmp [])); try done.
  - intros p Hp. apply Hd. intros ?. apply Hp. by left.
  - destruct Hwf as [_ Hs]. eapply count_enabled; try done. lia.
  - intros Htr _. destruct Hwf as [_ Hs]. by apply (tracked_not_scratch _ _ Hs _ Htr), scratch_tmp.
Qed.

Lemma expire_due_ok now : ok expire_events (expire_due now).
Proof.
  intros w Hwf. enough (wp (expire_due now) (fun _ w' => does expire_events w w') w) as H by exact H.
  unfold expire_due. do 2 sp_step.
  destruct (count_expired _ _) as [counted n] eqn:Ec. sp_step.
  eapply wp_mono; [by eapply expire_count_ok|]. intros r1 w1 Hc1.
  assert (Hes : entries (in_state w1) = entries (in_state w)) by (eapply does_same; [|exact Hc1]; by intros []).
  pose proof (does_mono _ _ _ _ count_expire Hc1) as Hd1. destruct r1 as [[]|e]; [|done].
  assert (Hwf1 : wf w1) by (by eapply wf_does).
  eapply wp_mono; [apply (wp_ok_from expire_events w1)|intros r w2 Hd2; by eapply does_trans].
  apply does_bind; [done| |intros b].
  - destruct Hwf as [_ Hs]. apply expire_loop_ok; [done|by eapply expired_nodup|]. apply Forall_forall.
    intros e [r He]%elem_of_expired. rewrite Hes. by destruct (ws_entries _ _ Hs _ _ He) as [-> _ _ _ _ _ _].
  - apply ok_bind; [|intros; apply ok_ret]. apply ok_when, ok_scratch; [done|apply touches_persist_current_sequence].
Qed.

(** ** Delivery *)

(** No event of delivery creates an entry. *)
Lemma quarantine_entries_sub w w' :
  does quarantine_events w w' -> entries (in_state w') ⊆ entries (in_state w).
Proof.
  intros Hd. apply (does_ind quarantine_events (fun w1 => entries (in_state w1) ⊆ entries (in_state w)) w w');
    try done.
  intros ev w1 w2 HL Hst IH. etransitivity; [|exact IH]. destruct Hst as [_ Heff _ _ _ _]. rewrite Heff.
  destruct ev; try done. apply delete_subseteq.
Qed.

(** The entries still to be visited are those of the state, or gone. *)
Definition current (s : State) (l : list Entry) : Prop :=
  Forall (fun entry => forall e, entries s !! en_record_id entry = Some e -> e = entry) l.

Lemma current_weaken s s' l : entries s' ⊆ entries s -> current s l -> current s' l.
Proof.
  intros Hsub Hcur. eapply Forall_impl; [exact Hcur|]. intros entry He e Hl. apply He. by eapply lookup_weaken.
Qed.

Lemma current_values c s l :
  wf_state c s -> (forall e, e ∈ l -> exists r, entries s !! r = Some e) -> current s l.
Proof.
  intros Hs Hl. apply Forall_forall. intros entry Hin e He. destruct (Hl entry Hin) as [r Hr].
  rewrite (we_key _ _ _ (ws_entries _ _ Hs _ _ Hr)) in He. congruence.
Qed.

Lemma read_entry_ok e : ok quarantine_events (read_entry e).
Proof. apply ok_scratch; [done|apply touches_read_entry]. Qed.

Lemma build_v1_loop_ok config ordered records body w :
  wf w -> current (in_state w) ordered ->
  does quarantine_events w (build_v1_loop config ordered records body w).2.
Proof.
  revert records body w. induction ordered as [|entry ordered IH]; intros records body w Hwf Hcur;
    cbn [build_v1_loop]; [apply does_refl|].
  destruct (_ <=? _); [apply does_refl|]. apply Forall_cons in Hcur as [Hc Hcur].
  pose proof (read_entry_ok entry w Hwf) as Hd1. destruct (touches_read_entry scratch entry w) as ((_ & _ & Hs1) & _ & _).
  unfold bind at 1, catch. destruct (read_entry entry w) as [[stored|err] w1] eqn:Er; cbn in Hd1, Hs1.
  - assert (Hwf1 : wf w1) by (by eapply wf_does). rewrite <-Hs1 in Hcur.
    eapply does_trans; [exact Hd1|]. apply does_bind'; [done|].
    intros encoded _. destruct (_ && _); [apply does_refl|].
    apply does_bind'; [done|]. intros _ _. by apply IH.
  - assert (Hwf1 : wf w1) by (by eapply wf_does). rewrite <-Hs1 in Hcur, Hc.
    destruct err; try exact Hd1. eapply does_trans; [exact Hd1|].
    pose proof (quarantine_runtime_entry_ok entry w1 Hwf1 (read_entry_corrupt _ _ _ Er) Hc) as [Hd2 _].
    unfold bind. destruct (quarantine_runtime_entry entry w1) as [[[]|e] w2]; cbn in *; [|done].
    eapply does_trans; [exact Hd2|]. apply IH; [by eapply wf_does|].
    eapply current_weaken; [by apply quarantine_entries_sub|done].
Qed.

Lemma build_batch_ok : ok quarantine_events build_batch.
Proof.
  intros w Hwf. unfold build_batch. apply does_bind'; [done|]. intros s [= <-].
  apply does_bind'; [done|]. intros _ _. apply does_bind'; [done|]. intros config _.
  apply does_bind; [done| |].
  - apply build_v1_loop_ok; [done|]. destruct Hwf as [_ Hs]. eapply current_values; [done|].
    intros e. rewrite sort_by_perm. apply elem_of_btree_values.
  - intros records. repeat (apply ok_bind; [|intros ?]); by apply ok_scratch; eauto with touches.
Qed.

End RefineOps.
