(* ===== verification/SpoolDelivery.v ===== *)
(** * Version 2 delivery

    What a pass of [build_batch_v2] selects, that the restart after a
    quarantine terminates, and what the batch contains. *)

From S2P Require Import Prelude Protocol Crypto Fs SpoolTypes SpoolFacts SpoolBase SpoolOps.
From S2P Require Import SpoolFrame SpoolInv SpoolSpec SpoolRefine SpoolRefineOps.

Section Delivery.
Context {X : SpoolEnv} {SL : SpoolLaws}.

(** ** Version 2 batches: what a pass selects *)

(** What [read_entry] checks of a stored record. *)
Definition stored_checked (e : Entry) (st : StoredRecord) : Prop :=
  valid_stored_record st = true /\ sr_record_id st = en_record_id e /\
  sr_stable_record_id st = Some (en_stable_record_id e) /\ sr_spool_seq st = Some (en_spool_seq e).

Lemma read_entry_checked e w st : (read_entry e w).1 = Ok st -> stored_checked e st.
Proof.
  enough (wp (read_entry e) (fun r _ => r = Ok st -> stored_checked e st) w) as H by exact H.
  unfold read_entry. sp_step. apply (wp_frames scratch); [apply touches_check_record_size|].
  intros [[]|err] w1 _ _ _; [|done]. unfold read_record. sp_step. apply (wp_frames scratch); [touches_tac|].
  intros [[sealed|[]]|err] w2 _ _ _; try done; try by sp_step.
  sp_step. unfold decrypt_bytes, wp at 1. cbn [fst snd].
  destruct (map_err map_crypto_error (decrypt (in_key w2) sealed)); [|done].
  do 2 sp_step; [|done]. do 2 sp_step; [done|]. sp_step. intros [= ->].
  match goal with H : _ || _ = false |- _ => rewrite !orb_false_iff, negb_false_iff, !bool_decide_eq_false in H;
    destruct H as [[[Hv H1] H2] H3] end.
  split_and!; [done|by apply dec_stable..].
Qed.

(** The item a candidate stands for in a batch. *)
Definition resolves (counted : gmap Z RecordId) (candidate : BatchCandidateV2) (item : BatchItemV2) : Prop :=
  match candidate, item with
  | CandRecord e, ItemRecord r =>
      counted !! en_spool_seq e = None /\
      br2_record_id r = en_stable_record_id e /\ br2_legacy_record_id r = en_record_id e /\
      br2_spool_seq r = en_spool_seq e /\
      exists st, stored_checked e st /\ br2_received_at_ms r = sr_admitted_at_ms st /\
        br2_envelope r = sr_envelope st
  | CandRecord e, ItemGap g =>
      is_Some (counted !! en_spool_seq e) /\ g = gap_notice e (en_expires_at_ms e) RetentionExpired
  | CandGap g', ItemGap g => g = g'
  | CandGap _, ItemRecord _ => False
  end.

Definition present (s : State) (candidate : BatchCandidateV2) : Prop :=
  match candidate with
  | CandRecord e => entries s !! en_record_id e = Some e
  | CandGap _ => True
  end.

Definition quarantines (candidate : BatchCandidateV2) (s s' : State) : Prop :=
  exists e, candidate = CandRecord e /\ entries s' = delete (en_record_id e) (entries s).

Lemma resolve_candidate_ok counted candidate w :
  wf w -> present (in_state w) candidate ->
  wp (resolve_candidate counted candidate)
     (fun r w' => does quarantine_events w w' /\
        match r with
        | Ok (Some item) => same_state w w' /\ resolves counted candidate item
        | Ok None => quarantines candidate (in_state w) (in_state w')
        | Err _ => True
        end) w.
Proof.
  intros Hwf Hp. destruct candidate as [e|g]; cbn [resolve_candidate present] in *;
    [|by sp_step; split; [apply does_refl|]].
  pose proof (read_entry_ok e w Hwf) as Hd1. destruct (touches_read_entry scratch e w) as (Hst & _ & _).
  pose proof (read_entry_checked e w) as Hck. pose proof (read_entry_corrupt e w) as Hbad.
  case_bool_decide as Hcnt; sp_step; [unfold wp at 1|sp_step; unfold wp at 1];
    destruct (read_entry e w) as [[st|err] w1]; cbn in *; try done.
  - sp_step. split_and!; try done.
    + by apply eq_None_not_Some.
    + exists st. auto.
  - destruct err; try (by sp_step; split). sp_step. destruct Hst as (_ & _ & Hst).
    eapply wp_mono; [apply quarantine_runtime_entry_ok; [by eapply wf_does|by apply Hbad|]|].
    { intros e'. rewrite Hst, Hp. congruence. }
    intros [[]|err] w2 [Hd2 Hent].
    + sp_step. split; [by eapply does_trans|]. exists e. split; [done|]. by rewrite Hent, Hst.
    + split; [by eapply does_trans|done].
Qed.

Definition item_records (items : list BatchItemV2) : list HubBatchRecordV2 :=
  omap (fun item => match item with ItemRecord r => Some r | ItemGap _ => None end) items.
Definition item_gaps (items : list BatchItemV2) : list GapNoticeV2 :=
  omap (fun item => match item with ItemRecord _ => None | ItemGap g => Some g end) items.
Definition item_size (item : BatchItemV2) : Z :=
  match item_to_vec item with Some b => len b | None => 0 end.
Definition items_size (items : list BatchItemV2) : Z := foldr Z.add 0 (item_size <$> items).

(** The limits of a batch under construction. *)
Definition within (c : SpoolConfig) (records : list HubBatchRecordV2) (gaps : list GapNoticeV2) (body : Z)
    : Prop :=
  Z.of_nat (length records) <= 256 /\ Z.of_nat (length gaps) <= 256 /\
  Z.of_nat (length records) + Z.of_nat (length gaps) <= batch_max_records c /\
  0 <= body <= batch_max_bytes c.

(** [records'] and [gaps'] extend [records] and [gaps] by the items of a prefix
    of the candidates, within the limits; something is selected if anything can be. *)
Definition selected (c : SpoolConfig) (counted : gmap Z RecordId) (candidates : list BatchCandidateV2)
    (records : list HubBatchRecordV2) (gaps : list GapNoticeV2) (body : Z)
    (records' : list HubBatchRecordV2) (gaps' : list GapNoticeV2) : Prop :=
  exists taken rest items, candidates = taken ++ rest /\ Forall2 (resolves counted) taken items /\
    records' = records ++ item_records items /\ gaps' = gaps ++ item_gaps items /\
    within c records' gaps' (body + items_size items) /\
    (records = [] -> gaps = [] -> candidates <> [] -> items <> []).

Lemma selected_stop c counted candidates records gaps body :
  within c records gaps body -> records <> [] \/ gaps <> [] \/ candidates = [] ->
  selected c counted candidates records gaps body records gaps.
Proof.
  intros Hw Hstop. exists [], candidates, []. cbn. rewrite !app_nil_r, Z.add_0_r.
  split_and!; try done. naive_solver.
Qed.

Lemma selected_step c counted candidate candidates item records gaps body records' gaps' :
  resolves counted candidate item ->
  selected c counted candidates (records ++ item_records [item]) (gaps ++ item_gaps [item])
    (body + item_size item) records' gaps' ->
  selected c counted (candidate :: candidates) records gaps body records' gaps'.
Proof.
  intros Hr (taken & rest & items & -> & Hf & -> & -> & Hw & _).
  exists (candidate :: taken), rest, (item :: items).
  assert (E1 : item_records (item :: items) = item_records [item] ++ item_records items) by (by destruct item).
  assert (E2 : item_gaps (item :: items) = item_gaps [item] ++ item_gaps items) by (by destruct item).
  rewrite E1, E2, !app_assoc. split_and!; try done; [by constructor|].
  unfold items_size in *. cbn. by rewrite Z.add_assoc.
Qed.

Lemma room_left {A B} c (records : list A) (gaps : list B) :
  wf_config c ->
  (batch_max_records c <=? u64_saturating_add (Z.of_nat (length records)) (Z.of_nat (length gaps))) = false ->
  Z.of_nat (length records) + Z.of_nat (length gaps) < batch_max_records c.
Proof.
  intros Hc. pose proof (wc_batch_records _ Hc). pose proof (wc_records _ Hc). unfold u64_saturating_add. lia.
Qed.

Lemma full_nonempty {A B} c (records : list A) (gaps : list B) :
  wf_config c ->
  (batch_max_records c <=? u64_saturating_add (Z.of_nat (length records)) (Z.of_nat (length gaps))) = true ->
  records <> [] \/ gaps <> [].
Proof.
  intros Hc. pose proof (wc_batch_records _ Hc). unfold u64_saturating_add.
  destruct records, gaps; auto. intros E%Z.leb_le. cbn in E. lia.
Qed.

Lemma body_exact c (body enc : Z) :
  wf_config c -> 0 <= enc ->
  u64_saturating_add body enc <= batch_max_bytes c -> u64_saturating_add body enc = body + enc.
Proof. intros Hc. pose proof (wc_batch_bytes _ Hc). unfold u64_saturating_add. lia. Qed.

(** Whether the item fits after what was selected. *)
Lemma within_item c records gaps body item encoded :
  wf_config c -> within c records gaps body ->
  Z.of_nat (length records) + Z.of_nat (length gaps) < batch_max_records c ->
  match item with
  | ItemRecord _ => 256 <=? Z.of_nat (length records)
  | ItemGap _ => 256 <=? Z.of_nat (length gaps)
  end = false ->
  item_to_vec item = Some encoded ->
  (negb (is_empty records) || negb (is_empty gaps))
    && (batch_max_bytes c <? u64_saturating_add body (len encoded)) = false ->
  (batch_max_bytes c <? len encoded) = false -> (records = [] -> gaps = [] -> body = 0) ->
  u64_saturating_add body (len encoded) = body + item_size item /\
  within c (records ++ item_records [item]) (gaps ++ item_gaps [item]) (body + item_size item).
Proof.
  intros Hc (H1 & H2 & H3 & H4) Hroom H256 Henc Hfit Hone Hbody.
  assert (Hsz : item_size item = len encoded) by (unfold item_size; by rewrite Henc).
  pose proof (len_nonneg encoded) as Hn.
  assert (Hle : u64_saturating_add body (len encoded) <= batch_max_bytes c).
  { destruct records, gaps; cbn in Hfit; try lia. rewrite Hbody by done. unfold u64_saturating_add. lia. }
  rewrite Hsz. rewrite (body_exact c) in Hle |- * by done. split; [done|].
  unfold within. rewrite !length_app. destruct item; cbn; lia.
Qed.

Definition strictly_by_seq (l : list BatchCandidateV2) : Prop :=
  StronglySorted (fun a b => candidate_seq a < candidate_seq b) l.

(** The outcome of the selection loop from [w]. *)
Definition pass_outcome (c : SpoolConfig) (counted : gmap Z RecordId) (candidates : list BatchCandidateV2)
    (records : list HubBatchRecordV2) (gaps : list GapNoticeV2) (body : Z) (q : bool) (w : Inner)
    (r : Result SpoolError (list HubBatchRecordV2 * list GapNoticeV2 * bool)) (w' : Inner) : Prop :=
  match r with
  | Err _ => True
  | Ok (records', gaps', true) =>
      q = true \/ (size (entries (in_state w')) < size (entries (in_state w)))%nat
  | Ok (records', gaps', false) =>
      q = false /\ same_state w w' /\ selected c counted candidates records gaps body records' gaps'
  end.

Lemma outcome_stop c counted candidates records gaps body q w w1 :
  same_state w w1 -> within c records gaps body -> records <> [] \/ gaps <> [] \/ candidates = [] ->
  pass_outcome c counted candidates records gaps body q w (Ok (records, gaps, q)) w1.
Proof. intros Hst Hw Hstop. destruct q; [by left|]. split_and!; try done. by apply selected_stop. Qed.

Lemma outcome_step c counted candidate candidates item records gaps body q w w1 r w' :
  same_state w w1 -> resolves counted candidate item ->
  pass_outcome c counted candidates (records ++ item_records [item]) (gaps ++ item_gaps [item])
    (body + item_size item) q w1 r w' ->
  pass_outcome c counted (candidate :: candidates) records gaps body q w r w'.
Proof.
  intros Hst Hr. destruct r as [[[records' gaps'] []]|]; cbn; [| |done].
  - destruct Hst as (_ & _ & ->). done.
  - intros (Hq & Hst' & Hsel). split_and!; [done|by eapply same_state_trans|by eapply selected_step].
Qed.

(** After a quarantine the other candidates are still there. *)
Lemma present_after s s' candidate candidates :
  quarantines candidate s s' -> present s candidate ->
  strictly_by_seq (candidate :: candidates) -> Forall (present s) candidates ->
  Forall (present s') candidates.
Proof.
  intros (e & -> & Hent) He Hsort Hall. apply StronglySorted_inv in Hsort as [_ Hlt].
  rewrite Forall_forall in Hall, Hlt |- *. intros [e'|g] Hin; [|done].
  specialize (Hall _ Hin). specialize (Hlt _ Hin). cbn in *.
  rewrite Hent, lookup_delete_ne; [done|]. intros E. rewrite E in He. simplify_eq. lia.
Qed.

Lemma quarantine_shrinks candidate s s' :
  quarantines candidate s s' -> present s candidate -> (size (entries s') < size (entries s))%nat.
Proof.
  intros (e & -> & ->) He. cbn in He. rewrite map_size_delete_Some by done.
  assert (size (entries s) <> 0%nat); [|lia]. rewrite map_size_non_empty_iff. intros E.
  by rewrite E in He.
Qed.

Lemma build_v2_loop_ok c counted candidates records gaps body q w :
  wf_config c -> wf w -> Forall (present (in_state w)) candidates -> strictly_by_seq candidates ->
  within c records gaps body -> (records = [] -> gaps = [] -> body = 0) ->
  wp (build_v2_loop c counted candidates records gaps body q)
     (fun r w' => does quarantine_events w w' /\
        pass_outcome c counted candidates records gaps body q w r w') w.
Proof.
  intros Hc. revert records gaps body q w.
  induction candidates as [|candidate candidates IH]; intros records gaps body q w Hwf Hpres Hsort Hw Hb;
    cbn [build_v2_loop].
  { sp_step. split; [apply does_refl|]. apply outcome_stop; auto. apply same_state_refl. }
  destruct (_ <=? _) eqn:Eroom.
  { sp_step. split; [apply does_refl|]. apply outcome_stop; [apply same_state_refl|done|].
    apply full_nonempty in Eroom; naive_solver. }
  apply room_left in Eroom; [|done]. apply Forall_cons in Hpres as [Hp Hpres].
  sp_step. eapply wp_mono; [by apply resolve_candidate_ok|].
  intros r w1 [Hd1 Hr]. assert (Hwf1 : wf w1) by (by eapply wf_does).
  destruct r as [[item|]|err]; [| |done].
  - destruct Hr as [Hst Hres].
    assert (Hpres1 : Forall (present (in_state w1)) candidates) by (destruct Hst as (_ & _ & ->); done).
    assert (Hstop : records <> [] \/ gaps <> [] ->
      does quarantine_events w w1 /\
      pass_outcome c counted (candidate :: candidates) records gaps body q w (Ok (records, gaps, q)) w1)
      by (intros; split; [done|]; apply outcome_stop; naive_solver).
    destruct (match item with ItemRecord _ => _ | ItemGap _ => _ end) eqn:E256.
    { sp_step. apply Hstop. destruct item, records, gaps; cbn in E256; auto. }
    do 2 sp_step; [|done]. destruct (_ && _) eqn:Efit.
    { sp_step. apply Hstop. apply andb_true_iff in Efit as [Efit _]. destruct records, gaps; auto. }
    do 2 sp_step; [done|]. rename a into encoded, H into Henc, H0 into Hone.
    destruct (within_item c records gaps body item encoded) as [-> Hw']; try done.
    assert (Hb' : records ++ item_records [item] = [] -> gaps ++ item_gaps [item] = [] ->
                  body + item_size item = 0)
      by (destruct item; cbn; intros ? ?; by destruct records, gaps).
    apply StronglySorted_inv in Hsort as [Hsort _].
    assert (Hnext : wp (build_v2_loop c counted candidates (records ++ item_records [item])
                          (gaps ++ item_gaps [item]) (body + item_size item) q)
      (fun r w' => does quarantine_events w w' /\
         pass_outcome c counted (candidate :: candidates) records gaps body q w r w') w1).
    { eapply wp_mono; [by apply IH|]. intros r w' [Hd2 Hout].
      split; [by eapply does_trans|by eapply outcome_step]. }
    destruct item; cbn [item_records item_gaps omap list_omap] in Hnext; by rewrite ?app_nil_r in Hnext.
  - assert (Hpres1 : Forall (present (in_state w1)) candidates) by (by eapply present_after).
    pose proof (quarantine_shrinks _ _ _ Hr Hp) as Hlt. apply StronglySorted_inv in Hsort as [Hsort _].
    eapply wp_mono; [by apply IH|]. intros r w' [Hd2 Hout]. split; [by eapply does_trans|].
    apply quarantine_entries_sub, map_subseteq_size in Hd2.
    destruct r as [[[records' gaps'] []]|]; cbn in *; [right; lia|by destruct Hout as [? _]|done].
Qed.

(** ** The candidates of a state *)

Lemma elem_of_candidates s candidate :
  candidate ∈ batch_candidates s <->
  match candidate with
  | CandRecord e => exists r, entries s !! r = Some e
  | CandGap notice => exists n g, gaps s !! n = Some g /\ ge_notice g = notice
  end.
Proof.
  unfold batch_candidates. rewrite sort_by_key_perm, elem_of_app, !list_elem_of_In, !in_map_iff.
  split.
  - intros [(e & <- & He)|(notice & <- & Hg)].
    + apply list_elem_of_In in He. rewrite sort_by_key_perm in He. by apply elem_of_btree_values.
    + apply in_map_iff in Hg as (g & <- & Hg). apply list_elem_of_In, elem_of_btree_values in Hg as [n Hg].
      eauto.
  - destruct candidate as [e|notice].
    + intros He. left. exists e. split; [done|]. apply list_elem_of_In. rewrite sort_by_key_perm.
      by apply elem_of_btree_values.
    + intros (n & g & Hg & <-). right. exists (ge_notice g). split; [done|]. apply in_map_iff.
      exists g. split; [done|]. apply list_elem_of_In, elem_of_btree_values. eauto.
Qed.

Lemma candidates_present c s : wf_state c s -> Forall (present s) (batch_candidates s).
Proof.
  intros Hs. apply Forall_forall. intros [e|g] Hin; [|done]. apply elem_of_candidates in Hin as [r He].
  cbn. by rewrite (we_key _ _ _ (ws_entries _ _ Hs _ _ He)).
Qed.

Lemma no_adjacent_duplicate l :
  StronglySorted (fun a b => candidate_seq a <= candidate_seq b) l ->
  adjacent_duplicate l = false -> strictly_by_seq l.
Proof.
  induction l as [|a [|b l] IH]; intros Hs Hd; [constructor|by repeat constructor|].
  apply StronglySorted_inv in Hs as [Hs Hall]. cbn in Hd. apply orb_false_iff in Hd as [Hne Hd].
  specialize (IH Hs Hd). constructor; [done|]. apply Forall_cons in Hall as [Hab _].
  apply StronglySorted_inv in IH as [_ Hb]. constructor; [lia|].
  eapply Forall_impl; [exact Hb|]. cbn. lia.
Qed.

Lemma candidates_strict s : adjacent_duplicate (batch_candidates s) = false -> strictly_by_seq (batch_candidates s).
Proof. apply no_adjacent_duplicate, sort_by_key_sorted. Qed.

Lemma build_v2_pass_ok w :
  wf w ->
  wp build_v2_pass (fun r w' => does quarantine_events w w' /\
    pass_outcome (in_config w) (counted_pending_expirations (in_state w)) (batch_candidates (in_state w))
      [] [] 0 false w r w' /\
    (forall x, r = Ok x -> unresolved_integrity (in_state w) = false /\
       strictly_by_seq (batch_candidates (in_state w)))) w.
Proof.
  intros Hwf. pose proof Hwf as [Hc Hs]. unfold build_v2_pass. do 2 sp_step.
  do 2 sp_step; [split; [apply does_refl|done]|]. do 2 sp_step; [split; [apply does_refl|done]|].
  do 2 sp_step. rename H into Hui, H0 into Hdup. apply candidates_strict in Hdup.
  eapply wp_mono; [apply build_v2_loop_ok; try done|intros r w' [? ?]; naive_solver].
  - by eapply candidates_present.
  - pose proof (wc_batch_bytes _ Hc). pose proof (wc_batch_records _ Hc). unfold within. cbn. lia.
Qed.

(** ** Restarts terminate *)

Lemma pass_shrinks w records gaps w' :
  wf w -> build_v2_pass w = (Ok (records, gaps, true), w') ->
  wf w' /\ (size (entries (in_state w')) < size (entries (in_state w)))%nat.
Proof.
  intros Hwf E. pose proof (build_v2_pass_ok w Hwf) as Hp. unfold wp in Hp. rewrite E in Hp.
  destruct Hp as (Hd & Hout & _). split; [by eapply wf_does|]. by destruct Hout.
Qed.

Lemma build_batch_v2_fuel_stable n m w :
  wf w -> (size (entries (in_state w)) < n)%nat -> (size (entries (in_state w)) < m)%nat ->
  build_batch_v2_fuel n w = build_batch_v2_fuel m w.
Proof.
  revert m w. induction n as [|n IH]; intros [|m] w Hwf Hn Hm; try lia.
  cbn [build_batch_v2_fuel]. unfold bind.
  destruct (build_v2_pass w) as [[[[records gaps] []]|e] w'] eqn:E; [|done..].
  apply pass_shrinks in E as [Hwf' Hlt]; [|done]. apply IH; [done|lia..].
Qed.

(** ** The batch *)

(** [batch] is what the state has to deliver: the items of the oldest live
    sequence numbers, in order, within the limits. *)
Definition delivers (c : SpoolConfig) (s : State) (batch : HubBatchV2) : Prop :=
  b2_version batch = 2 /\
  b2_batch_id batch = batch_id_v2 (b2_records batch) (b2_gaps batch) /\
  unresolved_integrity s = false /\
  strictly_by_seq (batch_candidates s) /\
  selected c (counted_pending_expirations s) (batch_candidates s) [] [] 0 (b2_records batch) (b2_gaps batch).

Lemma build_batch_v2_fuel_ok n w :
  wf w -> (size (entries (in_state w)) < n)%nat ->
  wp (build_batch_v2_fuel n) (fun r w' => does quarantine_events w w' /\
    forall batch, r = Ok batch -> delivers (in_config w') (in_state w') batch) w.
Proof.
  revert w. induction n as [|n IH]; intros w Hwf Hn; [lia|]. cbn [build_batch_v2_fuel].
  sp_step. eapply wp_mono; [by apply build_v2_pass_ok|]. intros r w1 (Hd1 & Hout & Hok).
  destruct r as [[[records gaps] []]|e]; [| |done].
  - destruct Hout as [|Hlt]; [done|]. apply wp_does_trans; [done|].
    apply IH; [by eapply wf_does|lia].
  - sp_step. split; [done|]. intros batch [= <-]. destruct Hout as (_ & (Hc & _ & Hst) & Hsel).
    destruct (Hok _ eq_refl). unfold delivers. by rewrite Hc, Hst.
Qed.

Lemma build_batch_v2_ok w :
  wf w ->
  wp build_batch_v2 (fun r w' => does quarantine_events w w' /\
    forall batch, r = Ok batch -> delivers (in_config w') (in_state w') batch) w.
Proof. intros Hwf. unfold build_batch_v2. do 2 sp_step. apply build_batch_v2_fuel_ok; [done|lia]. Qed.

(** ** What is in a batch *)

Lemma strict_inj l a b :
  strictly_by_seq l -> a ∈ l -> b ∈ l -> candidate_seq a = candidate_seq b -> a = b.
Proof.
  induction 1 as [|x l Hs IH Hall]; [set_solver|]. rewrite Forall_forall in Hall.
  intros [->|Ha]%elem_of_cons [->|Hb]%elem_of_cons E; try done; [..|by apply IH].
  - specialize (Hall _ Hb). lia.
  - specialize (Hall _ Ha). lia.
Qed.

Lemma elem_of_item_gaps g items : g ∈ item_gaps items <-> ItemGap g ∈ items.
Proof.
  unfold item_gaps. rewrite list_elem_of_omap. split.
  - by intros ([] & Hin & [= <-]).
  - intros Hin. by exists (ItemGap g).
Qed.
Lemma elem_of_item_records r items : r ∈ item_records items <-> ItemRecord r ∈ items.
Proof.
  unfold item_records. rewrite list_elem_of_omap. split.
  - by intros ([] & Hin & [= <-]).
  - intros Hin. by exists (ItemRecord r).
Qed.

Lemma selected_item c counted candidates records gaps item :
  selected c counted candidates [] [] 0 records gaps ->
  match item with ItemRecord r => r ∈ records | ItemGap g => g ∈ gaps end ->
  exists candidate, candidate ∈ candidates /\ resolves counted candidate item.
Proof.
  intros (taken & rest & items & -> & Hf & -> & -> & _) Hin.
  assert (Hi : item ∈ items) by (destruct item; [by apply elem_of_item_records|by apply elem_of_item_gaps]).
  apply list_elem_of_lookup in Hi as [k Hk].
  destruct (Forall2_lookup_r _ _ _ _ _ Hf Hk) as (candidate & Hc & Hr). exists candidate. split; [|done].
  apply elem_of_app; left. by eapply list_elem_of_lookup_2.
Qed.

(** A pending notice may be accepted: an integrity notice has no record left
    behind it. *)
Lemma candidate_acceptable c s g :
  wf_state c s -> strictly_by_seq (batch_candidates s) -> CandGap g ∈ batch_candidates s ->
  accepted_notice s (gn_notice_id g).
Proof.
  intros Hs Hstrict Hin. pose proof Hin as (n & ge & Hge & Hn)%elem_of_candidates.
  destruct (ws_gaps _ _ Hs _ _ Hge) as [_ Hv Hseq _ _]. rewrite Hn in Hv, Hseq.
  exists (gn_spool_seq g), (gn_reason g), (gn_evidence_sha256 g). split_and!; [|lia..|].
  - by apply valid_gap_notice_id.
  - intros _ r e He E. assert (CandRecord e = CandGap g); [|done].
    apply (strict_inj (batch_candidates s)); try done. apply elem_of_candidates. eauto.
Qed.

(** A delivered gap notice is one of the state's, or stands for a counted
    expired record. *)
Lemma delivered_gap c s batch g :
  wf_state c s -> delivers c s batch -> g ∈ b2_gaps batch -> accepted_notice s (gn_notice_id g).
Proof.
  intros Hs (_ & _ & _ & Hstrict & Hsel) Hg.
  destruct (selected_item _ _ _ _ _ (ItemGap g) Hsel Hg) as ([e|g'] & Hin & Hr); cbn in Hr.
  - destruct Hr as [_ ->]. apply elem_of_candidates in Hin as [r He].
    destruct (ws_entries _ _ Hs _ _ He) as [_ Hseq _ _ _ _ _]. by do 3 eexists.
  - subst g'. by eapply candidate_acceptable.
Qed.

(** The identifier of a delivered notice is the digest of its own sequence. *)
Lemma delivered_gap_id c s batch g :
  wf_state c s -> delivers c s batch -> g ∈ b2_gaps batch ->
  exists reason ev, gn_notice_id g = gap_notice_id (gn_spool_seq g) reason ev /\ in_u64 (gn_spool_seq g).
Proof.
  intros Hs (_ & _ & _ & _ & Hsel) Hg.
  destruct (selected_item _ _ _ _ _ (ItemGap g) Hsel Hg) as ([e|g'] & Hin & Hr); cbn in Hr.
  - destruct Hr as [_ ->]. apply elem_of_candidates in Hin as [r He].
    do 2 eexists. split; [reflexivity|by eapply entry_u64].
  - subst g'. apply elem_of_candidates in Hin as (n & ge & Hge & <-).
    destruct (ws_gaps _ _ Hs _ _ Hge) as [_ Hv _ _ _]. do 2 eexists.
    split; [by apply valid_gap_notice_id|by eapply gap_u64].
Qed.

Lemma live_u64 c s q : wf_state c s -> live s q -> in_u64 q.
Proof. intros Hs [(r & e & He & <-)|(n & g & Hg & <-)]; [by eapply entry_u64|by eapply gap_u64]. Qed.

(** The sequence numbers of a batch are those of the selected candidates. *)
Definition batch_seqs (batch : HubBatchV2) : list Z :=
  (br2_spool_seq <$> b2_records batch) ++ (gn_spool_seq <$> b2_gaps batch).

Lemma resolved_seqs counted taken items :
  Forall2 (resolves counted) taken items ->
  (br2_spool_seq <$> item_records items) ++ (gn_spool_seq <$> item_gaps items) ≡ₚ candidate_seq <$> taken.
Proof.
  induction 1 as [|candidate item taken items Hr _ IH]; [done|].
  destruct candidate as [e|g], item as [r|g']; cbn in *; [| |done|].
  - destruct Hr as (_ & _ & _ & -> & _). by constructor.
  - destruct Hr as [_ ->]. rewrite <-Permutation_middle. by constructor.
  - subst g'. rewrite <-Permutation_middle. by constructor.
Qed.

Lemma live_candidate s seq : live s seq <-> seq ∈ candidate_seq <$> batch_candidates s.
Proof.
  rewrite list_elem_of_fmap. split.
  - intros [(r & e & He & <-)|(n & g & Hg & <-)].
    + exists (CandRecord e). split; [done|]. apply elem_of_candidates. eauto.
    + exists (CandGap (ge_notice g)). split; [done|]. apply elem_of_candidates. eauto.
  - intros ([e|g] & -> & Hin); apply elem_of_candidates in Hin; [left|right]; naive_solver.
Qed.

Lemma strict_nodup l : strictly_by_seq l -> NoDup (candidate_seq <$> l).
Proof.
  induction 1 as [|a l _ IH Hall]; cbn; constructor; [|done].
  rewrite list_elem_of_fmap. intros (b & E & Hb). rewrite Forall_forall in Hall.
  specialize (Hall b Hb). lia.
Qed.

Lemma strict_app taken rest a b :
  strictly_by_seq (taken ++ rest) -> a ∈ taken -> b ∈ rest -> candidate_seq a < candidate_seq b.
Proof.
  induction taken as [|x taken IH]; cbn; [set_solver|]. intros [Hs Hall]%StronglySorted_inv.
  rewrite Forall_app, !Forall_forall in Hall. destruct Hall as [_ Hall].
  intros [->|Ha]%elem_of_cons Hb; [by apply Hall|by apply IH].
Qed.

Lemma delivers_seqs c s batch :
  delivers c s batch ->
  NoDup (batch_seqs batch) /\ (forall q, q ∈ batch_seqs batch -> live s q) /\
  (forall q q', q ∈ batch_seqs batch -> live s q' -> q' < q -> q' ∈ batch_seqs batch) /\
  ((exists q, live s q) -> batch_seqs batch <> []).
Proof.
  intros (_ & _ & _ & Hstrict & taken & rest & items & Hsplit & Hf & Hr & Hg & _ & Hprog).
  assert (Hp : batch_seqs batch ≡ₚ candidate_seq <$> taken)
    by (unfold batch_seqs; rewrite Hr, Hg; by eapply resolved_seqs).
  rewrite Hsplit in Hstrict. split_and!.
  - rewrite Hp. apply strict_nodup in Hstrict. rewrite fmap_app in Hstrict. by apply NoDup_app in Hstrict as [? _].
  - intros q Hq. rewrite Hp in Hq. apply live_candidate. rewrite Hsplit, fmap_app. set_solver.
  - intros q q' Hq Hl Hlt. rewrite Hp in Hq |- *. apply live_candidate in Hl.
    rewrite Hsplit, fmap_app in Hl. apply elem_of_app in Hl as [|Hl]; [done|].
    apply list_elem_of_fmap in Hq as (a & -> & Ha), Hl as (b & -> & Hb).
    pose proof (strict_app _ _ _ _ Hstrict Ha Hb). lia.
  - intros [q Hl%live_candidate] E. rewrite E in Hp. symmetry in Hp. apply Permutation_nil_r in Hp.
    destruct taken; [|done]. apply Forall2_nil_inv_l in Hf as ->. apply Hprog; try done.
    intros E'. rewrite E' in Hl. set_solver.
Qed.

(** A record of the batch carries an admissible envelope whose two
    identifiers are the ones the batch names. *)
Definition genuine (r : HubBatchRecordV2) : Prop :=
  validate (br2_envelope r) = Ok tt /\
  record_id (br2_envelope r) = br2_legacy_record_id r /\
  stable_record_id (br2_envelope r) = br2_record_id r.

Lemma valid_stored_v2 st sid :
  valid_stored_record st = true -> sr_stable_record_id st = Some sid ->
  validate (sr_envelope st) = Ok tt /\ record_id (sr_envelope st) = sr_record_id st /\
  stable_record_id (sr_envelope st) = sid.
Proof.
  unfold valid_stored_record. destruct (validate (sr_envelope st)) as [[]|]; [|done].
  destruct (bool_decide (sr_record_id st <> _)) eqn:Eid; [done|]. apply bool_decide_eq_false in Eid.
  destruct (_ <? _); [done|]. cbn [orb]. intros Hv Hsid. split_and!; [done|symmetry; by apply dec_stable|].
  destruct (sr_version st =? 1); [by rewrite Hsid in Hv|].
  destruct (sr_version st =? 2); [|done]. apply andb_true_iff in Hv as [Hv _].
  apply bool_decide_eq_true_1 in Hv. congruence.
Qed.

Lemma delivers_genuine c s batch : delivers c s batch -> Forall genuine (b2_records batch).
Proof.
  intros (_ & _ & _ & _ & Hsel). apply Forall_forall. intros r Hr.
  destruct (selected_item _ _ _ _ _ (ItemRecord r) Hsel Hr) as ([e|g] & _ & Hres); [|done].
  destruct Hres as (_ & Hid & Hleg & _ & st & (Hv & Hrid & Hsid & _) & _ & Henv).
  destruct (valid_stored_v2 _ _ Hv Hsid) as (? & ? & ?). unfold genuine. rewrite Henv. split_and!; congruence.
Qed.

(** ** Theorems *)

(** C33: the restart of [build_batch_v2] after a quarantine terminates: the method
    is total and satisfies the recursive equation of the source, because every
    restart has removed a pending entry. *)
Theorem build_batch_v2_unfold w :
  wf w ->
  build_batch_v2 w =
  (let! pass := build_v2_pass in
   let '(records, gaps, quarantined) := pass in
   if quarantined : bool then build_batch_v2
   else ret {| b2_version := 2; b2_batch_id := batch_id_v2 records gaps;
               b2_records := records; b2_gaps := gaps |}) w.
Proof.
  intros Hwf. unfold build_batch_v2 at 1, bind at 1, get_state at 1. cbn [build_batch_v2_fuel].
  unfold bind. destruct (build_v2_pass w) as [[[[records gaps] []]|e] w'] eqn:E; [|done..].
  apply pass_shrinks in E as [Hwf' Hlt]; [|done].
  unfold build_batch_v2, bind, get_state. apply build_batch_v2_fuel_stable; [done|lia..].
Qed.

(** C10: a version-2 batch lists the oldest live sequence numbers without skipping
    or repeating one, is not empty while anything is live, carries only
    envelopes that pass validation and hash to the identifiers they are listed
    under, and respects the record, gap, item and byte limits. *)
Theorem batch_v2_correct w batch :
  wf w -> (build_batch_v2 w).1 = Ok batch ->
  let s := in_state (build_batch_v2 w).2 in
  NoDup (batch_seqs batch) /\ (forall q, q ∈ batch_seqs batch -> live s q) /\
  (forall q q', q ∈ batch_seqs batch -> live s q' -> q' < q -> q' ∈ batch_seqs batch) /\
  ((exists q, live s q) -> batch_seqs batch <> []) /\
  Forall genuine (b2_records batch) /\
  b2_batch_id batch = batch_id_v2 (b2_records batch) (b2_gaps batch) /\
  exists items, b2_records batch = item_records items /\ b2_gaps batch = item_gaps items /\
    within (in_config w) (b2_records batch) (b2_gaps batch) (items_size items).
Proof.
  intros Hwf Hr s. destruct (build_batch_v2_ok w Hwf) as [Hd Hdel].
  specialize (Hdel batch Hr). destruct (does_config _ _ _ Hd) as [Hc _]. rewrite Hc in Hdel.
  destruct (delivers_seqs _ _ _ Hdel) as (? & ? & ? & ?). split_and!; try done.
  - by eapply delivers_genuine.
  - by destruct Hdel as (_ & ? & _).
  - destruct Hdel as (_ & _ & _ & _ & taken & rest & items & _ & _ & Hrs & Hgs & Hw & _).
    exists items. by rewrite Hrs, Hgs in Hw |- *.
Qed.

End Delivery.
