(* ===== verification/SpoolRetention.v ===== *)
(** * Retention

    After [expire_due] succeeds, an expired record that is still pending is
    counted, so that delivery replaces it by its gap notice; every expiry is
    counted exactly once. *)

From S2P Require Import Prelude Protocol Crypto Fs SpoolTypes SpoolFacts SpoolBase SpoolOps.
From S2P Require Import SpoolFrame SpoolInv SpoolSpec SpoolRefine SpoolRefineOps SpoolDelivery.

Section Retention.
Context {X : SpoolEnv} {SL : SpoolLaws}.

(** ** One entry *)

(** No gap is recorded for the entry's sequence. *)
Definition no_gap (s : State) (seq : Z) : Prop := btree_any (gap_at seq) (gaps s) = false.

(** A gap that does not fit is refused after the check for an existing one. *)
Lemma persist_gap_capacity entry at_ms reason w :
  wp (persist_gap_locked entry at_ms reason)
     (fun r w' => r = Err CapacityExceeded ->
        in_state w' = in_state w /\ no_gap (in_state w) (en_spool_seq entry)) w.
Proof.
  unfold persist_gap_locked. do 2 sp_step. case_bool_decide; [by sp_step|].
  do 2 sp_step; [done|]. rename H0 into Hno. do 2 sp_step; [done|]. do 4 sp_step; [done|].
  do 2 sp_step; [|done]. apply wp_encrypt. intros [c|e] w1 (_ & _ & Hst1) _ _ _; [|done]. intros _.
  do 2 sp_step; [done|]. sp_step. eapply wp_frames; [apply touches_write_new; eauto with touches|].
  intros [[]|e] w2 (_ & _ & Hst2) _ _; [by do 3 sp_step|]. intros _. by rewrite Hst2, Hst1.
Qed.

Lemma gap_events_same w w' reason :
  does (gap_events reason) w w' ->
  entries (in_state w') = entries (in_state w) /\
  counted_pending_expirations (in_state w') = counted_pending_expirations (in_state w).
Proof. intros Hd. split; (eapply does_same; [|exact Hd]; by intros []). Qed.

(** What dropping the record at [seq] leaves of the rest. *)
Definition forgets (seq : Z) (r : RecordId) (s s' : State) : Prop :=
  entries s' = delete r (entries s) /\
  (forall q, q <> seq -> counted_pending_expirations s' !! q = counted_pending_expirations s !! q).

Lemma uncount_off seq q s :
  q <> seq -> counted_pending_expirations (uncount seq s) !! q = counted_pending_expirations s !! q.
Proof. intros Hne. cbn. by rewrite lookup_delete_ne. Qed.

Lemma remove_admitted_forgets e w b :
  entries (in_state w) !! en_record_id e = Some e ->
  (remove_admitted_record (admission_of e) w).1 = Ok b ->
  forgets (en_spool_seq e) (en_record_id e) (in_state w) (in_state (remove_admitted_record (admission_of e) w).2).
Proof.
  intros He. set (Q := fun (r : Result SpoolError bool) w' => r = Ok b ->
    forgets (en_spool_seq e) (en_record_id e) (in_state w) (in_state w')).
  enough (wp (remove_admitted_record (admission_of e)) Q w) as H by exact H. subst Q.
  unfold remove_admitted_record. do 2 sp_step. cbn [admission_of ra_legacy_record_id ra_spool_seq]. rewrite He.
  rewrite (proj2 (entry_matches_true _ e) eq_refl). sp_step.
  apply wp_lift_state. intros [[]|?] w1 Hst; [|done]. do 2 sp_step. sp_step.
  destruct (bool_decide _); cbn [when]; [sp_step; sp_step|sp_step; sp_step]; intros _;
    cbn; rewrite Hst; (split; [done|]); intros q Hq; cbn; rewrite ?lookup_delete_ne by done; done.
Qed.

(** The gap for an entry whose expiry could not be materialized does not exist. *)
Lemma expire_entry_post e w b :
  wf w -> entries (in_state w) !! en_record_id e = Some e ->
  (expire_entry e w).1 = Ok b ->
  let s' := in_state (expire_entry e w).2 in
  if b then forgets (en_spool_seq e) (en_record_id e) (in_state w) s'
  else s' = in_state w /\ no_gap s' (en_spool_seq e).
Proof.
  intros Hwf He. pose proof Hwf as [_ Hs]. destruct (ws_entries _ _ Hs _ _ He) as [_ Hseq _ _ _ _ _].
  enough (wp (expire_entry e) (fun r w' => r = Ok b ->
    if b then forgets (en_spool_seq e) (en_record_id e) (in_state w) (in_state w')
    else in_state w' = in_state w /\ no_gap (in_state w') (en_spool_seq e)) w) as H by exact H.
  unfold expire_entry. do 2 sp_step.
  pose proof (persist_gap_locked_ok e (en_expires_at_ms e) RetentionExpired w Hwf He) as [Hd _].
  pose proof (persist_gap_capacity e (en_expires_at_ms e) RetentionExpired w) as Hcap.
  unfold wp in Hcap.
  unfold wp at 1. destruct (persist_gap_locked e _ _ w) as [[p|err] w1]; cbn [fst snd] in *.
  - destruct (gap_events_same _ _ _ Hd) as [Hen Hcn]. sp_step.
    unfold wp at 1. pose proof (remove_admitted_forgets e w1) as Hf. rewrite Hen in Hf.
    destruct (remove_admitted_record (admission_of e) w1) as [[b1|err] w2]; cbn [fst snd] in *; [|done].
    destruct (Hf b1 He eq_refl) as [He2 Hc2].
    sp_step. apply (wp_frames scratch); [apply touches_sync|]. intros [[]|err] w3 (_ & _ & Hst3) _ _; [|done].
    do 3 sp_step. intros [= <-]. split; [cbn; by rewrite Hst3, He2, Hen|].
    intros q Hq. cbn [in_state set_state]. rewrite uncount_off, Hst3, Hc2, Hcn by done. done.
  - destruct err; try (by sp_step). sp_step. intros [= <-]. destruct (Hcap eq_refl) as [-> ?]. done.
Qed.

(** ** The loop over the expired entries *)

Lemma expire_gaps_grow w w' : does expire_events w w' -> gaps (in_state w) ⊆ gaps (in_state w').
Proof.
  intros Hd. apply (does_ind expire_events (fun w1 => gaps (in_state w) ⊆ gaps (in_state w1)) w w'); try done.
  intros ev w1 w2 HL [Hen Heff _ _ _ _] IH. rewrite Heff. destruct ev; try done.
  destruct Hen as [Hfresh _]. cbn. transitivity (gaps (in_state w1)); [done|by apply insert_subseteq].
Qed.

Lemma no_gap_back s s' seq : gaps s ⊆ gaps s' -> no_gap s' seq -> no_gap s seq.
Proof.
  unfold no_gap. rewrite !btree_any_false. intros Hsub Hno n g Hg. apply (Hno n g). by eapply lookup_weaken.
Qed.

Definition is_counted (s : State) (e : Entry) : Prop :=
  is_Some (counted_pending_expirations s !! en_spool_seq e).

(** The loop's invariant, for the entries [l] still to visit. *)
Record expire_inv (now : Z) (l : list Entry) (s : State) : Prop := {
  ei_present : Forall (fun x => entries s !! en_record_id x = Some x) l;
  ei_nodup : NoDup (en_spool_seq <$> l);
  ei_covered : Forall (fun x => no_gap s (en_spool_seq x) -> is_counted s x) l;
  ei_due : forall r e, entries s !! r = Some e -> en_expires_at_ms e < now -> e ∈ l \/ is_counted s e;
}.

(** Removing the visited entry. *)
Lemma expire_inv_forget now x l c s s' :
  wf_state c s -> gaps s ⊆ gaps s' -> forgets (en_spool_seq x) (en_record_id x) s s' ->
  expire_inv now (x :: l) s -> expire_inv now l s'.
Proof.
  intros Hs Hsub [Hent Hcnt] [[Hx Hpres]%Forall_cons [Hnx Hnd]%NoDup_cons [_ Hcov]%Forall_cons Hdue].
  assert (Hne : forall y, y ∈ l -> en_spool_seq y <> en_spool_seq x).
  { intros y Hy E. apply Hnx. rewrite <-E. by apply list_elem_of_fmap_2. }
  split; [| done| |].
  - rewrite Forall_forall in Hpres |- *. intros y Hy. rewrite Hent, lookup_delete_ne; [by apply Hpres|].
    intros E. apply (Hne y Hy). specialize (Hpres y Hy). rewrite <-E in Hpres. congruence.
  - rewrite Forall_forall in Hcov |- *. intros y Hy Hno. unfold is_counted. rewrite Hcnt by auto.
    apply Hcov; [done|]. by eapply no_gap_back.
  - intros r e He Hexp. rewrite Hent in He. apply lookup_delete_Some in He as [Hr He].
    assert (Hneq : en_spool_seq e <> en_spool_seq x).
    { intros E. apply Hr. by eapply (ws_entries_seq _ _ Hs). }
    unfold is_counted. rewrite Hcnt by done.
    destruct (Hdue r e He Hexp) as [[->|]%elem_of_cons|]; auto. done.
Qed.

(** Leaving it, because its gap does not fit: it is counted. *)
Lemma expire_inv_skip now x l s :
  no_gap s (en_spool_seq x) -> expire_inv now (x :: l) s -> expire_inv now l s.
Proof.
  intros Hno [[_ Hpres]%Forall_cons [_ Hnd]%NoDup_cons [Hx Hcov]%Forall_cons Hdue].
  split; try done. intros r e He Hexp.
  destruct (Hdue r e He Hexp) as [[->|]%elem_of_cons|]; auto.
Qed.

Lemma expire_loop_post now expired b w :
  wf w -> expire_inv now expired (in_state w) ->
  wp (fold_m expired b (fun removed_backing entry =>
        let! removed := expire_entry entry in ret (removed_backing || removed)))
     (fun r w' => forall b', r = Ok b' -> expire_inv now [] (in_state w') /\
        expired_records (in_state w') = expired_records (in_state w)) w.
Proof.
  intros Hwf Hinv.
  apply wp_fold_m with (I := fun l _ w' => wf w' /\ expire_inv now l (in_state w') /\
    expired_records (in_state w') = expired_records (in_state w)); [done|naive_solver|].
  clear Hinv. intros x l b1 w1 (Hwf1 & Hinv & Htot). pose proof Hwf1 as [_ Hs].
  pose proof (ei_present _ _ _ Hinv) as [Hx _]%Forall_cons.
  pose proof (expire_entry_ok x w1 Hwf1 Hx) as Hd. pose proof (expire_entry_post x w1) as Hpost.
  pose proof (expire_entry_visits x w1 Hwf1 Hx) as Hsame.
  apply (does_same expired_records) in Hsame; [|by intros []].
  sp_step. unfold wp at 1. destruct (expire_entry x w1) as [[removed|e] w2]; cbn [fst snd] in *; [|done].
  sp_step. specialize (Hpost removed Hwf1 Hx eq_refl). split_and!; [by eapply wf_does| |congruence].
  destruct removed; [|destruct Hpost as [E ?]; rewrite E in *; by eapply expire_inv_skip].
  eapply expire_inv_forget; [done| |done|done]. by apply expire_gaps_grow.
Qed.

(** ** Counting *)

Definition newly_due (s : State) (e : Entry) : bool :=
  negb (btree_any (gap_at (en_spool_seq e)) (gaps s))
  && negb (bool_decide (is_Some (counted_pending_expirations s !! en_spool_seq e))).

(** With distinct sequences, the loop counts each newly due entry once. *)
Lemma count_expired_number s expired :
  NoDup (en_spool_seq <$> expired) ->
  (count_expired s expired).2 = Z.of_nat (length (List.filter (newly_due s) expired)) /\
  (forall e, e ∈ expired -> no_gap s (en_spool_seq e) ->
     is_Some ((count_expired s expired).1 !! en_spool_seq e)).
Proof.
  unfold count_expired. induction expired as [|e expired IH] using rev_ind; intros Hnd; [set_solver|].
  rewrite fmap_app, NoDup_app in Hnd. destruct Hnd as (Hnd & Hdis & _). specialize (IH Hnd) as [IHn IHc].
  pose proof (count_expired_spec s expired) as Hspec. unfold count_expired in Hspec.
  rewrite foldl_app, List.filter_app, length_app. cbn [foldl].
  destruct (foldl _ _ expired) as [counted n] eqn:Ef. cbn [fst snd] in IHn, IHc.
  destruct (Hspec counted n eq_refl) as (Hin & Hsub & _).
  assert (Hsame : is_Some (counted !! en_spool_seq e) <->
                  is_Some (counted_pending_expirations s !! en_spool_seq e)).
  { split; [|intros [sid Hsid]; exists sid; by eapply lookup_weaken].
    intros [sid [Hsid|(e' & He' & Eq & _)]%Hin]; [by exists sid|]. exfalso.
    apply (Hdis (en_spool_seq e)); [|cbn; set_solver]. rewrite <-Eq. by apply list_elem_of_fmap_2. }
  assert (Eb : negb (btree_any (gap_at (en_spool_seq e)) (gaps s))
               && negb (bool_decide (is_Some (counted !! en_spool_seq e))) = newly_due s e)
    by (unfold newly_due; by rewrite (bool_decide_ext _ _ Hsame)).
  rewrite Eb. cbn [List.filter]. destruct (newly_due s e) eqn:Ed; cbn [fst snd length].
  - split; [lia|]. intros e' [He'|He']%elem_of_app Hno.
    + rewrite lookup_insert_ne; [by apply IHc|]. intros E. apply (Hdis (en_spool_seq e)); [|cbn; set_solver].
      rewrite E. by apply list_elem_of_fmap_2.
    + assert (e' = e) as -> by set_solver. by rewrite lookup_insert_eq.
  - split; [lia|]. intros e' [He'|He']%elem_of_app Hno; [by apply IHc|].
    assert (e' = e) as -> by set_solver. apply Hsame. unfold newly_due in Ed. unfold no_gap in Hno.
    rewrite Hno in Ed. cbn in Ed. by apply negb_false_iff, bool_decide_eq_true_1 in Ed.
Qed.

(** The state after the first phase. *)
Lemma expire_inv_start now c s counted n total :
  wf_state c s -> count_expired s (expired_entries now s) = (counted, n) ->
  expire_inv now (expired_entries now s)
    (set_counted_pending_expirations counted (set_expired_records total s)).
Proof.
  intros Hs Hcount. pose proof (expired_nodup c s now Hs) as Hnd.
  destruct (count_expired_number s _ Hnd) as [_ Hall]. rewrite Hcount in Hall. split; [|done| |].
  - apply Forall_forall. intros e [r He]%elem_of_expired. cbn.
    by rewrite (we_key _ _ _ (ws_entries _ _ Hs _ _ He)).
  - apply Forall_forall. intros e He Hno. by apply Hall.
  - intros r e He Hexp. left. cbn in He. unfold expired_entries. rewrite sort_by_key_perm.
    apply list_elem_of_In, List.filter_In. split; [apply list_elem_of_In, elem_of_btree_values; eauto|].
    unfold is_due. by rewrite (proj2 (Z.ltb_lt _ _) Hexp).
Qed.

Lemma set_same_counted s :
  set_counted_pending_expirations (counted_pending_expirations s) (set_expired_records (expired_records s) s) = s.
Proof. by destruct s. Qed.

Lemma expire_due_post now w :
  wf w ->
  wp (expire_due now) (fun r w' => forall n, r = Ok n ->
    expire_inv now [] (in_state w') /\
    n = Z.of_nat (length (List.filter (newly_due (in_state w)) (expired_entries now (in_state w)))) /\
    expired_records (in_state w') = expired_records (in_state w) + n) w.
Proof.
  intros Hwf. pose proof Hwf as [_ Hs]. unfold expire_due. do 2 sp_step.
  destruct (count_expired _ _) as [counted n] eqn:Ec.
  destruct (count_expired_number (in_state w) _ (expired_nodup _ _ now Hs)) as [Hn _]. rewrite Ec in Hn. cbn in Hn.
  pose proof (count_expired_spec _ _ _ _ Ec) as (_ & Hsub & Hn0 & Hsz).
  set (s1 := set_counted_pending_expirations counted (set_expired_records (expired_records (in_state w) + n) (in_state w))).
  sp_step. apply wp_mono with (Q := fun r w1 => does expire_events w w1 /\ (r = Ok tt -> in_state w1 = s1)).
  { split; [eapply does_mono; [apply count_expire|by eapply expire_count_ok]|]. destruct (Z.ltb_spec 0 n) as [Hpos|Hneg]; cbn [when].
    - match goal with |- _ -> in_state (?m w).2 = _ => 
        enough (wp m (fun r w1 => r = Ok tt -> in_state w1 = s1) w) as H by exact H end.
      do 2 sp_step; [|done]. apply u64_checked_add_Some in H as [-> _].
      sp_step. apply (wp_frames_at scratch); [by apply touches_persist_sequence_state|].
      intros [[]|e] w1 (_ & _ & Hst) _ _; [|done]. sp_step. intros _. cbn. by rewrite Hst.
    - intros _. cbn. assert (n = 0) as -> by lia. unfold s1. rewrite Z.add_0_r.
      rewrite <-(map_subseteq_size_eq _ _ Hsub) by lia. by rewrite set_same_counted. }
  intros [[]|e] w1 [Hd1 Hs1]; [|done]. specialize (Hs1 eq_refl).
  assert (Hwf1 : wf w1) by (by eapply wf_does).
  sp_step. eapply wp_mono; [apply (expire_loop_post now); [done|rewrite Hs1; by eapply expire_inv_start]|].
  intros [b|e] w2 Hpost; [|done]. destruct (Hpost b eq_refl) as [Hinv Htot]. rewrite Hs1 in Htot.
  sp_step. apply (wp_frames scratch); [destruct b; cbn [when]; eauto with touches|].
  intros [[]|e] w3 (_ & _ & Hst3) _ _; [|done]. sp_step. intros n' [= <-]. by rewrite Hst3.
Qed.

(** ** Theorems *)

Lemma all_counted_none_due now s :
  (forall r e, entries s !! r = Some e -> en_expires_at_ms e < now -> is_counted s e) ->
  List.filter (newly_due s) (expired_entries now s) = [].
Proof.
  intros Hall. apply list_filter_none. intros e He. unfold expired_entries in He. rewrite sort_by_key_perm in He.
  apply list_elem_of_In, List.filter_In in He as [Hin Hdue].
  apply list_elem_of_In, elem_of_btree_values in Hin as [r Hr].
  unfold newly_due. rewrite bool_decide_true; [by rewrite andb_false_r|].
  unfold is_due in Hdue. apply orb_true_iff in Hdue as [Hlt%Z.ltb_lt|Hc]; [by eapply Hall|].
  by apply bool_decide_eq_true_1 in Hc.
Qed.

(** C22: a successful [expire_due] counts every newly expired record exactly once:
    it returns their number, adds it to the persistent total, leaves every
    expired record that is still pending marked as counted, and a second pass
    at the same time counts nothing. *)
Theorem expire_due_counts_once now w n :
  wf w -> (expire_due now w).1 = Ok n ->
  let w' := (expire_due now w).2 in
  n = Z.of_nat (length (List.filter (newly_due (in_state w)) (expired_entries now (in_state w)))) /\
  expired_records (in_state w') = expired_records (in_state w) + n /\
  (forall r e, entries (in_state w') !! r = Some e -> en_expires_at_ms e < now -> is_counted (in_state w') e) /\
  (forall n', (expire_due now w').1 = Ok n' -> n' = 0).
Proof.
  intros Hwf Hr w'. destruct (expire_due_post now w Hwf n Hr) as ([_ _ _ Hdue] & Hn & Htot).
  assert (Hall : forall r e, entries (in_state w') !! r = Some e -> en_expires_at_ms e < now ->
            is_counted (in_state w') e)
    by (intros r e He Hexp; destruct (Hdue r e He Hexp); [set_solver|done]).
  split_and!; try done. intros n' Hr'.
  assert (Hwf' : wf w') by exact (wf_does _ _ _ (expire_due_ok now w Hwf) Hwf).
  destruct (expire_due_post now w' Hwf' n' Hr') as (_ & -> & _). by rewrite all_counted_none_due.
Qed.

(** C23: no version-2 batch delivers a record past its retention: every record
    comes from a pending entry that has not expired at the time of the call
    (an expired one is replaced by its gap notice). *)
Theorem next_batch_v2_unexpired now w batch :
  wf w -> (next_batch_v2 now w).1 = Ok batch ->
  Forall (fun r => exists e, entries (in_state (next_batch_v2 now w).2) !! br2_legacy_record_id r = Some e /\
    br2_spool_seq r = en_spool_seq e /\ br2_record_id r = en_stable_record_id e /\
    now <= en_expires_at_ms e) (b2_records batch).
Proof.
  intros Hwf. unfold next_batch_v2. pose proof (expire_due_ok now w Hwf) as Hd.
  pose proof (expire_due_post now w Hwf) as Hpost. unfold wp in Hpost.
  unfold bind. destruct (expire_due now w) as [[n|e] w1]; [|done]. cbn [fst snd] in *.
  destruct (Hpost n eq_refl) as ([_ _ _ Hdue] & _).
  assert (Hwf1 : wf w1) by (by eapply wf_does). intros Hr.
  destruct (build_batch_v2_ok w1 Hwf1) as [Hd2 Hdel]. destruct (Hdel batch Hr) as (_ & _ & _ & _ & Hsel).
  assert (Hcn : counted_pending_expirations (in_state (build_batch_v2 w1).2) = counted_pending_expirations (in_state w1))
    by (eapply does_same; [|exact Hd2]; by intros []).
  pose proof (quarantine_entries_sub _ _ Hd2) as Hsub. pose proof (wf_does _ _ _ Hd2 Hwf1) as [_ Hs2].
  apply Forall_forall. intros r Hin.
  destruct (selected_item _ _ _ _ _ (ItemRecord r) Hsel Hin) as ([e|g] & Hc & Hres); [|done].
  destruct Hres as (Hnc & Hid & Hleg & Hseq & _). apply elem_of_candidates in Hc as [k He].
  exists e. rewrite Hleg, (we_key _ _ _ (ws_entries _ _ Hs2 _ _ He)). split_and!; try done.
  destruct (Z.le_gt_cases now (en_expires_at_ms e)) as [|Hlt]; [done|]. exfalso.
  destruct (Hdue k e) as [Hf|[sid Hsid]]; [by eapply lookup_weaken|done|set_solver|].
  rewrite Hcn in Hnc. congruence.
Qed.

End Retention.
