(* ===== verification/SpoolReceipts.v ===== *)
(** * Receipts

    Completing a receipt deletes exactly what it accepts; pruning keeps the
    newest receipts; the two acknowledgement methods commit a receipt before
    they delete anything. *)

From S2P Require Import Prelude Protocol Crypto Fs SpoolTypes SpoolFacts SpoolBase SpoolOps.
From S2P Require Import SpoolFrame SpoolInv SpoolSpec SpoolRefine SpoolRefineOps SpoolDelivery.

Section Receipts.
Context {X : SpoolEnv} {SL : SpoolLaws}.

(** ** Completing a receipt *)

Definition complete_events (r : AckReceipt) (ev : Event) : Prop :=
  match ev with
  | Quiet | Uncount _ => True
  | DropAcked r' _ | DropGap r' _ => r' = r
  | _ => False
  end.

Lemma complete_committed r r' w w' :
  does (complete_events r) w w' -> committed (in_state w) r' -> committed (in_state w') r'.
Proof.
  intros Hd. unfold committed.
  rewrite (does_same receipts (complete_events r) w w'); [done| |done]. by intros [].
Qed.

(** A loop of [complete_receipt], one step of which is a sequence of events. *)
Lemma complete_loop_ok {A T} r (l : list A) (b : T) (body : T -> A -> SpoolM T) w :
  wf w -> committed (in_state w) r ->
  (forall x b w1, x ∈ l -> wf w1 -> committed (in_state w1) r -> does (complete_events r) w1 (body b x w1).2) ->
  does (complete_events r) w (fold_m l b body w).2.
Proof.
  intros Hwf Hr Hbody.
  apply (wp_fold_m l b body (fun l' _ w' => does (complete_events r) w w' /\ (forall x, x ∈ l' -> x ∈ l))
    (fun _ w' => does (complete_events r) w w')); [split; [apply does_refl|done]|by intros ? ? [? _]|].
  intros x l' b' w1 [Hd1 Hsub].
  assert (Hd2 : does (complete_events r) w1 (body b' x w1).2).
  { apply Hbody; [apply Hsub; by left|by eapply wf_does|by eapply complete_committed]. }
  unfold wp. destruct (body b' x w1) as [[b''|e] w2]; cbn in *.
  - split; [by eapply does_trans|]. intros y Hy. apply Hsub. by right.
  - by eapply does_trans.
Qed.

Lemma remove_accepted_ok r admission w :
  wf w -> committed (in_state w) r ->
  (forall e, admission_of e = admission -> acks_entry r e) ->
  does (complete_events r) w (remove_admitted_record admission w).2.
Proof.
  intros Hwf Hr Hacks. apply remove_admitted_record_ok; try done.
  intros e He Ha. exists (DropAcked r e). split_and!; [right; by exists r|split_and!; auto|done].
Qed.

Lemma expired_backing_Some s n e :
  expired_backing s n = Some e ->
  (exists k, entries s !! k = Some e) /\ is_Some (counted_pending_expirations s !! en_spool_seq e) /\
  gn_notice_id (gap_notice e (en_expires_at_ms e) RetentionExpired) = n.
Proof.
  unfold expired_backing. intros [Hin Hb]%List.find_some.
  apply andb_true_iff in Hb as [Hc Hn]. apply bool_decide_eq_true_1 in Hc, Hn.
  by apply list_elem_of_In, elem_of_btree_values in Hin.
Qed.

Lemma remove_expired_gap_backing_ok r n w :
  wf w -> committed (in_state w) r -> n ∈ ar_accepted_gap_notice_ids r ->
  does (complete_events r) w (remove_expired_gap_backing n w).2.
Proof.
  intros Hwf Hr Hn. unfold remove_expired_gap_backing. apply does_bind'; [done|]. intros s [= <-].
  destruct (expired_backing (in_state w) n) as [e|] eqn:Hb; [|apply does_refl].
  apply expired_backing_Some in Hb as (_ & _ & <-). apply does_bind; [done| |intros b].
  - apply remove_accepted_ok; [done..|]. intros e' [= Hq Hsid _]. right.
    unfold gap_notice. by rewrite Hq, Hsid.
  - apply ok_bind; [by apply ok_uncount|intros; apply ok_ret].
Qed.

Lemma complete_gap_ok r b n w :
  wf w -> committed (in_state w) r -> n ∈ ar_accepted_gap_notice_ids r ->
  does (complete_events r) w (complete_gap b n w).2.
Proof.
  intros Hwf Hr Hn. pose proof Hwf as [_ Hs].
  enough (wp (complete_gap b n) (fun _ w' => does (complete_events r) w w') w) as H by exact H.
  unfold complete_gap. do 2 sp_step. destruct (gaps (in_state w) !! n) as [g|] eqn:Hg.
  2:{ apply wp_ok_from. apply does_bind; [done|by apply remove_expired_gap_backing_ok|intros; apply ok_ret]. }
  pose proof (wg_key _ _ _ (ws_gaps _ _ Hs _ _ Hg)) as <-.
  sp_step. apply wp_remove_if_present; [by eapply gap_not_sequence| |intros; by apply does_ticks].
  intros w1 Hst Htame Hd _. do 2 sp_step. sp_step.
  eapply (does_step _ (DropGap r g)); [|done]. apply (step_update (DropGap r g) (ge_path g)); try done.
  intros _. by apply (untracked_dropped_gap _ _ Hs).
Qed.

Lemma complete_admissions_ok r w :
  wf w -> committed (in_state w) r ->
  does (complete_events r) w
    (fold_m (ar_accepted_admissions r) false (fun removed_pending admission =>
       let! removed := remove_admitted_record admission in ret (removed_pending || removed)) w).2.
Proof.
  intros Hwf Hr. apply complete_loop_ok; [done..|]. intros a b w1 Ha Hwf1 Hr1.
  apply does_bind; [done|apply remove_accepted_ok; try done|intros; apply ok_ret].
  intros e <-. by left.
Qed.

Lemma complete_notices_ok r b w :
  wf w -> committed (in_state w) r ->
  does (complete_events r) w (fold_m (ar_accepted_gap_notice_ids r) b complete_gap w).2.
Proof.
  intros Hwf Hr. apply complete_loop_ok; [done..|]. intros n b1 w2 Hn Hwf2 Hr2. by apply complete_gap_ok.
Qed.

Lemma complete_receipt_ok r w :
  wf w -> committed (in_state w) r -> does (complete_events r) w (complete_receipt r w).2.
Proof.
  intros Hwf Hr. unfold complete_receipt. pose proof (complete_admissions_ok r w Hwf Hr) as Hd1.
  unfold bind at 1. destruct (fold_m (ar_accepted_admissions r) false _ w) as [[b|e] w1]; cbn in Hd1; [|done].
  eapply does_trans; [exact Hd1|]. assert (Hwf1 : wf w1) by (by eapply wf_does).
  apply does_bind; [done|apply complete_notices_ok; [done|by eapply complete_committed]|intros b'].
  repeat (apply ok_bind; [|intros _]); [apply ok_when|..]; by apply ok_scratch; eauto with touches.
Qed.

(** ** Pruning *)

Definition prune_events (ev : Event) : Prop :=
  match ev with Quiet | ForgetV1History | Prune _ => True | _ => False end.

Definition needs_v1_flag (s : State) (re : ReceiptEntry) : bool :=
  (ar_version (re_receipt re) =? 1) && negb (v1_ack_history_pruned s).

(** Before a version-1 receipt goes, the flag that remembers it is set. *)
Lemma prune_flag_ok re w :
  wf w ->
  wp (when (needs_v1_flag (in_state w) re) (update (set_v1_ack_history_pruned true) ;; persist_current_sequence))
     (fun r w' => does prune_events w w' /\ receipts (in_state w') = receipts (in_state w) /\
        (r = Ok tt -> ar_version (re_receipt re) = 1 -> v1_ack_history_pruned (in_state w') = true)) w.
Proof.
  intros Hwf. sp_step.
  - do 2 sp_step.
    set (w1 := set_state (set_v1_ack_history_pruned true (in_state w)) w).
    assert (Hd1 : does prune_events w w1)
      by (eapply (does_step _ ForgetV1History); [by apply step_pure|done]).
    apply (wp_frames scratch); [apply touches_persist_current_sequence|]. intros r w2 Hst Htame Hd.
    pose proof Hst as (_ & _ & Hs2). rewrite Hs2. split_and!; try done.
    eapply does_trans; [exact Hd1|]. apply does_scratch; try done. by eapply wf_does.
  - sp_step. split_and!; [apply does_refl|done|]. intros _ Hv. unfold needs_v1_flag in Heqb.
    rewrite Hv in Heqb. cbn in Heqb. by apply negb_false_iff.
Qed.

Lemma oldest_receipt c s re :
  wf_state c s ->
  min_by_key (fun entry => ar_sequence (re_receipt entry)) (btree_values (receipts s)) = Some re ->
  receipts s !! ar_batch_id (re_receipt re) = Some re /\
  forall b re', receipts s !! b = Some re' -> ar_sequence (re_receipt re) <= ar_sequence (re_receipt re').
Proof.
  intros Hs [Hin Hall]%min_by_key_Some. apply elem_of_btree_values in Hin as [b Hb].
  rewrite (wr_key _ _ _ (ws_receipts _ _ Hs _ _ Hb)). split; [done|].
  intros b' re' Hb'. rewrite Forall_forall in Hall. apply Hall. apply elem_of_btree_values. eauto.
Qed.

Lemma prune_loop_ok n w :
  wf w ->
  wp (prune_loop n) (fun r w' => does prune_events w w' /\
    ((size (receipts (in_state w)) <= n + MAX_ACK_RECEIPTS)%nat -> r = Ok tt ->
     (size (receipts (in_state w')) <= MAX_ACK_RECEIPTS)%nat)) w.
Proof.
  revert w. induction n as [|n IH]; intros w Hwf; cbn [prune_loop].
  { sp_step. split; [apply does_refl|]. cbn [Nat.add]. auto. }
  do 2 sp_step. destruct (Nat.leb_spec (size (receipts (in_state w))) MAX_ACK_RECEIPTS) as [Hle|Hgt].
  { sp_step. split; [apply does_refl|done]. }
  do 2 sp_step; [|split; [apply does_refl|done]]. rename a into re, H into Hmin.
  pose proof Hwf as [_ Hs]. destruct (oldest_receipt _ _ _ Hs Hmin) as [Hre Hold].
  sp_step. fold (needs_v1_flag (in_state w) re). eapply wp_mono; [by apply prune_flag_ok|].
  intros r w1 (Hd1 & Hrs1 & Hflag). destruct r as [[]|e]; [|done]. specialize (Hflag eq_refl).
  assert (Hwf1 : wf w1) by (by eapply wf_does). rewrite <-Hrs1 in Hre, Hold, Hgt. pose proof Hwf1 as [_ Hs1].
  sp_step. apply wp_remove_if_present; [by eapply receipt_not_sequence| |].
  2:{ intros e w2 Hst2 Ht2 Hd2. split; [|done]. eapply does_trans; [exact Hd1|]. by apply does_ticks. }
  intros w2 Hst2 Ht2 Hdisk2 _. do 2 sp_step. set (w3 := set_state _ w2).
  assert (Hst3 : step (Prune re) w1 w3).
  { apply (step_update (Prune re) (re_path re)); try done. intros _. by apply (untracked_dropped_receipt _ _ Hs1). }
  assert (Hwf3 : wf w3) by (by eapply wf_step).
  assert (Hsz3 : (S (size (receipts (in_state w3))) = size (receipts (in_state w)))%nat).
  { cbn. destruct Hst2 as (_ & _ & ->). rewrite Hrs1, map_size_delete_Some by (rewrite <-Hrs1; by eexists).
    rewrite <-Hrs1. lia. }
  assert (Hd3 : does prune_events w w3)
    by (eapply does_trans; [exact Hd1|]; by eapply does_step).
  clearbody w3. sp_step. apply (wp_frames scratch); [apply touches_sync|]. intros r w4 Hst4 Ht4 Hdisk4.
  assert (Hd4 : does prune_events w3 w4) by (by apply does_scratch).
  destruct r as [[]|e]; [|split; [by eapply does_trans|done]].
  eapply wp_mono; [apply IH; by eapply wf_does|]. intros r w5 [Hd5 Hsz5].
  split; [do 2 (eapply does_trans; [eassumption|]); done|].
  destruct Hst4 as (_ & _ & Hst4). rewrite Hst4 in Hsz5. intros Hn. apply Hsz5. lia.
Qed.

Lemma prune_receipts_ok w :
  wf w ->
  wp prune_receipts (fun r w' => does prune_events w w' /\
    (r = Ok tt -> (size (receipts (in_state w')) <= MAX_ACK_RECEIPTS)%nat)) w.
Proof.
  intros Hwf. unfold prune_receipts. do 2 sp_step. eapply wp_mono; [by apply prune_loop_ok|].
  intros r w' [Hd Hsz]. split; [done|]. apply Hsz. lia.
Qed.

(** ** Committing a receipt *)

(** The events of an acknowledgement: what it deletes, it deletes under
    receipts that satisfy [P]; the receipts it writes satisfy [Q]. *)
Definition ack_events (P Q : AckReceipt -> Prop) (ev : Event) : Prop :=
  match ev with
  | Quiet | DropGapped _ | CountCorrupt | TakeReceiptSequence | Uncount _ | ForgetV1History | Prune _ => True
  | RecordGap g => gn_reason (ge_notice g) = IntegrityQuarantine
  | DropAcked r _ | DropGap r _ => P r
  | Commit re | LostCommit re => Q (re_receipt re)
  | Admit _ | LostAdmit _ | CountExpired _ _ => False
  end.

Lemma quarantine_ack P Q ev : quarantine_events ev -> ack_events P Q ev.
Proof. by destruct ev. Qed.
Lemma prune_ack P Q ev : prune_events ev -> ack_events P Q ev.
Proof. by destruct ev. Qed.
Lemma complete_ack (P Q : AckReceipt -> Prop) r ev : P r -> complete_events r ev -> ack_events P Q ev.
Proof. destruct ev; cbn; intros ? ?; by subst. Qed.
Lemma ack_events_mono (P P' Q Q' : AckReceipt -> Prop) ev :
  (forall r, P r -> P' r) -> (forall r, Q r -> Q' r) -> ack_events P Q ev -> ack_events P' Q' ev.
Proof. destruct ev; cbn; auto. Qed.

(** [r] is on record and was written after every other receipt. *)
Definition newest (s : State) (r : AckReceipt) : Prop :=
  committed s r /\
  forall b re, receipts s !! b = Some re -> re_receipt re <> r -> ar_sequence (re_receipt re) < ar_sequence r.

(** Pruning takes the oldest of more than one receipt, never the newest. *)
Lemma newest_prune r w w' : does prune_events w w' -> wf w -> newest (in_state w) r -> newest (in_state w') r.
Proof.
  intros Hd Hwf Hn. enough (wf w' /\ newest (in_state w') r) by tauto.
  apply (does_ind prune_events (fun w1 => wf w1 /\ newest (in_state w1) r) w w'); [|done|done].
  intros ev w1 w2 Hev Hst [Hwf1 [(re & Hre & Er) Hmax]]. split; [by eapply wf_step|].
  rewrite (st_effect _ _ _ Hst). pose proof (st_enabled _ _ _ Hst) as Hen.
  destruct ev; try done; [by split; [exists re|]| |by split; [exists re|]].
  destruct Hen as (Hin & Hsize & Hmin & _). cbn.
  assert (Hdiff : ar_batch_id (re_receipt re0) <> ar_batch_id r).
  { intros E. rewrite E in Hin. assert (re0 = re) as -> by congruence.
    assert (Hone : receipts (in_state w1) = {[ ar_batch_id r := re ]}).
    { apply map_eq. intros b. destruct (decide (b = ar_batch_id r)) as [->|Hb]; [by rewrite lookup_singleton_eq|].
      rewrite lookup_singleton_ne by done. destruct (receipts (in_state w1) !! b) as [re'|] eqn:Hb'; [|done].
      exfalso. specialize (Hmin b re' Hb'). enough (ar_sequence (re_receipt re') < ar_sequence r) by (rewrite Er in Hmin; lia).
      apply (Hmax b re' Hb'). intros E'. apply Hb. rewrite <-E'. symmetry.
      by eapply (wr_key _ _ _ (ws_receipts _ _ (proj2 Hwf1) _ _ Hb')). }
    rewrite Hone, map_size_singleton in Hsize. unfold MAX_ACK_RECEIPTS in Hsize. lia. }
  split; [exists re; cbn; by rewrite lookup_delete_ne|].
  intros b re'. cbn. intros [_ Hb]%lookup_delete_Some. by apply (Hmax b).
Qed.

Definition receipt_entry (r : AckReceipt) : ReceiptEntry :=
  {| re_receipt := r; re_path := SPath DReceipts (receipt_file_name (ar_sequence r) (ar_batch_id r)) |}.

(** From [w], the receipt was recorded, completed and the history pruned. *)
Definition completed (r : AckReceipt) (w w' : Inner) : Prop :=
  (size (receipts (in_state w')) <= MAX_ACK_RECEIPTS)%nat /\
  exists w3 w4,
    entries (in_state w3) = entries (in_state w) /\ gaps (in_state w3) = gaps (in_state w) /\
    counted_pending_expirations (in_state w3) = counted_pending_expirations (in_state w) /\
    wf w3 /\ in_state w3 = effect (Commit (receipt_entry r)) (set_next_receipt_sequence
      (next_receipt_sequence (in_state w3)) (in_state w)) /\
    complete_receipt r w3 = (Ok tt, w4) /\ does prune_events w4 w'.

(** Recording a receipt is the event [Commit], or nothing but a lost file. *)
Lemma record_receipt_ok (P Q : AckReceipt -> Prop) r w :
  wf w -> Q r -> enabled (in_config w) (in_state w) (Commit (receipt_entry r)) ->
  wp (record_receipt r) (fun res w' => does (ack_events P Q) w w' /\
    (res = Ok tt -> in_state w' = effect (Commit (receipt_entry r)) (in_state w))) w.
Proof.
  intros Hwf HP Hen. pose proof Hwf as [_ Hs]. pose proof (ws_next_receipt _ _ Hs) as Hnext.
  pose proof Hen as (Hfresh & Hseq & _ & Hnot & Hnm & Hnew). cbn in Hfresh, Hseq, Hnot, Hnew.
  unfold record_receipt. do 2 sp_step; [|split; [apply does_refl|done]]. rename a into plain, H into Hplain.
  apply wp_encrypt. intros [sealed|e] w1 Hst1 Ht1 Hd1 Hl1; [|split; [by apply does_ticks|done]].
  intros (nonce & Hn & Hc). do 2 sp_step; [split; [by apply does_ticks|done]|]. rename H into Hlen.
  set (dest := SPath DReceipts _).
  assert (Hun : ~ tracked (in_state w) dest)
    by (eapply untracked_receipt; [done|unfold in_u64; lia|done]).
  sp_step. apply wp_write_new; [done|]. intros res w2 Hw%(written_after _ _ _ w); try done.
  assert (Hdur : in_disk w2 !! dest = Some (File sealed) ->
    receipt_durable (in_key w2) (in_disk w2) (receipt_entry r)).
  { intros Hf. destruct (wn_same _ _ _ _ _ Hw) as (_ & Hk & _). unfold receipt_durable. rewrite Hk.
    eapply sealed_holds; try done. lia. }
  destruct res as [[]|e].
  2:{ split; [|done]. apply (does_lost _ (LostCommit (receipt_entry r)) dest sealed (Err e)); try done.
      intros Hf. split; [done|by apply Hdur]. }
  destruct (wn_ok _ _ _ _ _ Hw eq_refl) as (Hfile & Hlw & _).
  sp_step. set (w3 := set_state _ w2).
  assert (Hstep : step (Commit (receipt_entry r)) w w3).
  { apply (step_written (Commit (receipt_entry r)) dest sealed (Ok tt)); try done; [by apply Hdur|].
    split; [done|by apply Hdur]. }
  split; [by eapply does_step|intros _; apply Hstep].
Qed.

(** The receipt is on record after everything that is deleted under it. *)
Lemma commit_receipt_ok (P Q : AckReceipt -> Prop) r w :
  wf w -> P r -> Q r -> enabled (in_config w) (in_state w) (Commit (receipt_entry r)) ->
  wp (commit_receipt r) (fun res w' =>
    does (ack_events (fun r' => P r' /\ committed (in_state w') r') Q) w w' /\ (res = Ok tt -> completed r w w')) w.
Proof.
  intros Hwf HP HQ Hen. unfold commit_receipt. sp_step.
  pose proof (record_receipt_ok (fun _ => False) Q r w Hwf HQ Hen) as Hrec.
  unfold wp in Hrec |- * at 1. destruct (record_receipt r w) as [[[]|e] w3]; cbn [fst snd] in *; destruct Hrec as [Hd3 Hw3].
  2:{ split; [|done]. eapply does_mono; [|exact Hd3]. intros ev. by apply ack_events_mono. }
  specialize (Hw3 eq_refl).
  assert (Hnew : newest (in_state w3) r).
  { rewrite Hw3. split; [exists (receipt_entry r); cbn; by rewrite lookup_insert_eq|].
    destruct Hen as (_ & _ & _ & _ & _ & Hmax). cbn. intros b re [[_ <-]|[_ Hb]]%lookup_insert_Some Hne; [done|]. by eapply Hmax. }
  assert (Hcom : committed (in_state w3) r) by apply Hnew.
  assert (Hwf3 : wf w3) by (by eapply wf_does).
  sp_step. pose proof (complete_receipt_ok r w3 Hwf3 Hcom) as Hd4. unfold wp at 1.
  destruct (complete_receipt r w3) as [res w4] eqn:Ecomp. cbn [fst snd] in *.
  assert (Hwf4 : wf w4) by exact (wf_does _ _ _ Hd4 Hwf3).
  assert (Hnew4 : newest (in_state w4) r).
  { unfold newest, committed. rewrite (does_same receipts (complete_events r) w3 w4); [done|by intros []|done]. }
  assert (Hd04 : forall w', committed (in_state w') r ->
    does (ack_events (fun r' => P r' /\ committed (in_state w') r') Q) w w4).
  { intros w' Hw'. eapply does_trans; (eapply does_mono; [|eassumption]); intros ev; [by apply ack_events_mono|by apply complete_ack]. }
  destruct res as [[]|e]; [|split; [by apply Hd04, Hnew4|done]]. eapply wp_mono; [by apply prune_receipts_ok|].
  intros res w5 [Hd5 Hsz]. split.
  - eapply does_trans; [apply Hd04, (newest_prune r w4 w5 Hd5 Hwf4 Hnew4)|]. eapply does_mono; [|exact Hd5]. apply prune_ack.
  - intros ->. split; [by apply Hsz|]. exists w3, w4. rewrite Hw3. by split_and!.
Qed.

(** ** What an acknowledgement turns into *)

Lemma collect_results_Ok {E A} (l : list (Result E A)) k : collect_results l = Ok k -> l = Ok <$> k.
Proof.
  revert k; induction l as [|[a|e] l IH]; intros k; cbn; [intros [= <-]; done| |done].
  destruct (collect_results l) as [k'|]; [|done]. intros [= <-]. cbn. by rewrite (IH k').
Qed.

Lemma collect_map {E A B} (f : A -> Result E B) l k b :
  collect_results (map f l) = Ok k -> b ∈ k -> exists a, a ∈ l /\ f a = Ok b.
Proof.
  intros Hk%collect_results_Ok Hb. assert (Hin : Ok b ∈ map f l) by (rewrite Hk; by apply list_elem_of_fmap_2).
  apply list_elem_of_In, in_map_iff in Hin as (a & Ha & Hin). exists a. split; [by apply list_elem_of_In|done].
Qed.

Lemma collect_map_complete {E A B} (f : A -> Result E B) l k a :
  collect_results (map f l) = Ok k -> a ∈ l -> exists b, f a = Ok b /\ b ∈ k.
Proof.
  intros Hk%collect_results_Ok Ha. assert (Hin : f a ∈ map f l) by (by apply list_elem_of_fmap_2).
  rewrite Hk in Hin. apply list_elem_of_fmap in Hin as (b & Hb & Hin). eauto.
Qed.

(** The admissions of a version-2 receipt are the pending entries of the
    accepted records. *)
Lemma admissions_v2 s batch ack l a :
  receipt_admissions_v2 s batch ack = Ok l -> a ∈ l ->
  ra_stable_record_id a ∈ a2_accepted_record_ids ack /\
  exists e, entries s !! ra_legacy_record_id a = Some e /\
    en_spool_seq e = ra_spool_seq a /\ en_stable_record_id e = ra_stable_record_id a.
Proof.
  unfold receipt_admissions_v2. intros Hl Ha. destruct (collect_map _ _ _ _ Hl Ha) as (r & Hr & Hf).
  apply list_elem_of_In, List.filter_In in Hr as [_ Hr]. apply bool_decide_eq_true_1, elem_of_list_to_set in Hr.
  destruct (entries s !! br2_legacy_record_id r) as [e|] eqn:He; [|done].
  destruct (_ || _) eqn:Eb; [done|]. injection Hf as <-. cbn. split; [done|]. exists e.
  apply orb_false_iff in Eb as [Hq Hs]. apply negb_false_iff, Z.eqb_eq in Hq.
  apply bool_decide_eq_false in Hs. split_and!; [done..|by apply dec_stable].
Qed.

Lemma admissions_v1 c s batch ack l a :
  wf_state c s -> receipt_admissions_v1 s batch ack = Ok l -> a ∈ l ->
  ra_legacy_record_id a ∈ a1_accepted_record_ids ack /\
  exists e, entries s !! ra_legacy_record_id a = Some e /\ admission_of e = a.
Proof.
  intros Hs. unfold receipt_admissions_v1. intros Hl Ha. destruct (collect_map _ _ _ _ Hl Ha) as (r & Hr & Hf).
  apply list_elem_of_In, List.filter_In in Hr as [_ Hr]. apply bool_decide_eq_true_1, elem_of_list_to_set in Hr.
  destruct (entries s !! br1_record_id r) as [e|] eqn:He; [|done]. injection Hf as <-. cbn.
  rewrite (we_key _ _ _ (ws_entries _ _ Hs _ _ He)). split; [done|]. by exists e.
Qed.

Lemma not_existsb_elem {A} `{Countable A} (l k : list A) :
  existsb (fun x => negb (bool_decide (x ∈ hash_set l))) k = false -> forall x, x ∈ k -> x ∈ l.
Proof.
  intros Hb x Hx. destruct (decide (x ∈ l)) as [|Hn]; [done|]. exfalso.
  assert (existsb (fun x => negb (bool_decide (x ∈ hash_set l))) k = true); [|congruence].
  apply existsb_exists. exists x. split; [by apply list_elem_of_In|].
  unfold hash_set. by rewrite bool_decide_false by (by rewrite elem_of_list_to_set).
Qed.

Lemma ack_matches_v2_true delivered ack :
  ack_matches_v2 delivered ack = true ->
  b2_batch_id delivered = a2_batch_id ack /\
  (forall id, id ∈ a2_accepted_record_ids ack -> id ∈ br2_record_id <$> b2_records delivered) /\
  (forall id, id ∈ a2_accepted_gap_notice_ids ack -> id ∈ gn_notice_id <$> b2_gaps delivered) /\
  v2_ack_is_merged_prefix delivered ack = true.
Proof.
  unfold ack_matches_v2. rewrite !andb_true_iff, !negb_true_iff. intros [[[Hid Hr] Hg] Hp].
  apply bool_decide_eq_true_1 in Hid.
  split_and!; try done; by apply not_existsb_elem.
Qed.

(** The receipt of an acknowledgement. *)
Definition receipt_for (ack : HubAckV2) (r : AckReceipt) : Prop :=
  ar_version r = 2 /\ ar_batch_id r = a2_batch_id ack /\
  same_record_ids (ar_accepted_stable_record_ids r) (a2_accepted_record_ids ack) = true /\
  same_record_ids (ar_accepted_gap_notice_ids r) (a2_accepted_gap_notice_ids ack) = true.

Definition receipt_for_v1 (ack : HubAckV1) (r : AckReceipt) : Prop :=
  ar_batch_id r = a1_batch_id ack /\
  same_record_ids (ar_accepted_record_ids r) (a1_accepted_record_ids ack) = true.

(** The receipt an acknowledgement draws up: it repeats the acknowledgement,
    and every record it accepts is one the acknowledgement names. *)
Definition issued_v2 (ack : HubAckV2) (r : AckReceipt) : Prop :=
  ar_version r = 2 /\ ar_batch_id r = a2_batch_id ack /\ ar_accepted_record_ids r = [] /\
  ar_accepted_stable_record_ids r = a2_accepted_record_ids ack /\
  ar_accepted_gap_notice_ids r = a2_accepted_gap_notice_ids ack /\
  forall a, a ∈ ar_accepted_admissions r -> ra_stable_record_id a ∈ a2_accepted_record_ids ack.

Definition issued_v1 (ack : HubAckV1) (r : AckReceipt) : Prop :=
  ar_version r = 1 /\ ar_batch_id r = a1_batch_id ack /\ ar_accepted_record_ids r = a1_accepted_record_ids ack /\
  ar_accepted_stable_record_ids r = [] /\ ar_accepted_gap_notice_ids r = [] /\
  forall a, a ∈ ar_accepted_admissions r -> ra_legacy_record_id a ∈ a1_accepted_record_ids ack.

(** Every record the receipt accepts is pending in [s] as it is described. *)
Definition accepts_pending (s : State) (r : AckReceipt) : Prop :=
  forall a, a ∈ ar_accepted_admissions r ->
    exists e, entries s !! ra_legacy_record_id a = Some e /\ admission_of e = a.

Lemma same_record_ids_refl l : same_record_ids l l = true.
Proof. unfold same_record_ids. by rewrite Nat.eqb_refl, bool_decide_true. Qed.

Lemma issued_for ack r : issued_v2 ack r -> receipt_for ack r.
Proof. intros (Hv & Hb & _ & Hr & Hg & _). unfold receipt_for. rewrite Hr, Hg. by rewrite !same_record_ids_refl. Qed.
Lemma issued_for_v1 ack r : issued_v1 ack r -> receipt_for_v1 ack r.
Proof. intros (Hv & Hb & Hr & _). unfold receipt_for_v1. rewrite Hr. by rewrite same_record_ids_refl. Qed.

Lemma issued_named_v2 ack r : issued_v2 ack r -> named r.
Proof. intros (_ & _ & _ & Hr & _ & Ha) a Hin. left. rewrite Hr. by apply Ha. Qed.
Lemma issued_named_v1 ack r : issued_v1 ack r -> named r.
Proof. intros (_ & _ & Hr & _ & _ & Ha) a Hin. right. rewrite Hr. by apply Ha. Qed.

Lemma take_receipt_sequence_ok (L : Event -> Prop) w :
  wf w -> L TakeReceiptSequence ->
  wp take_receipt_sequence (fun r w' => does L w w' /\
    forall seq, r = Ok seq -> seq = next_receipt_sequence (in_state w) /\
      w' = set_state (set_next_receipt_sequence (seq + 1) (in_state w)) w) w.
Proof.
  intros Hwf HL. unfold take_receipt_sequence. do 2 sp_step. do 2 sp_step; [|split; [apply does_refl|done]].
  apply u64_checked_add_Some in H as [-> Hmax]. do 2 sp_step. sp_step.
  split; [|intros seq [= <-]; done].
  eapply (does_step _ TakeReceiptSequence); [|done]. apply (step_pure TakeReceiptSequence); [done|done| |done].
  cbn. lia.
Qed.

(** Drawing a sequence and committing. *)
Lemma take_and_commit_ok (P Q : AckReceipt -> Prop) (mk : Z -> AckReceipt) batch_id {A} (res : Z -> A) w :
  wf w -> (forall seq, P (mk seq)) -> (forall seq, Q (mk seq)) -> (forall seq, ar_batch_id (mk seq) = batch_id) ->
  (forall seq, ar_sequence (mk seq) = seq) -> (forall seq, named (mk seq)) ->
  (forall seq n, n ∈ ar_accepted_gap_notice_ids (mk seq) -> accepted_notice (in_state w) n) ->
  receipts (in_state w) !! batch_id = None ->
  wp (let! seq := take_receipt_sequence in commit_receipt (mk seq) ;; ret (res seq))
     (fun r w' => does (ack_events (fun r' => P r' /\ committed (in_state w') r') Q) w w' /\
        forall a, r = Ok a -> exists seq, seq = next_receipt_sequence (in_state w) /\ a = res seq /\
          completed (mk seq) w w') w.
Proof.
  intros Hwf HP HQ Hb Hseq Hnm Hnot Hnone. sp_step.
  eapply wp_mono; [by apply (take_receipt_sequence_ok (ack_events (fun _ => False) Q))|].
  intros [seq|e] w1 [Hd1 Hw1]; [|split; [|done]; eapply does_mono; [|exact Hd1]; intros ev; by apply ack_events_mono].
  assert (Hd1' : forall P', does (ack_events P' Q) w w1)
    by (intros P'; eapply does_mono; [|exact Hd1]; intros ev; by apply ack_events_mono).
  clear Hd1. destruct (Hw1 seq eq_refl) as [-> ->]. clear Hw1.
  set (seq := next_receipt_sequence (in_state w)) in *. pose proof Hwf as [_ Hs].
  pose proof (ws_next_receipt _ _ Hs) as Hnext.
  sp_step. eapply wp_mono; [apply (commit_receipt_ok P Q (mk seq)); [exact (wf_does _ _ _ (Hd1' P) Hwf)|done|done|]|].
  - cbn. rewrite Hb, Hseq. split_and!; try done; [lia|lia|by apply Hnot|].
    intros b re Hre. destruct (ws_receipts _ _ Hs _ _ Hre) as [_ ? _ _ _]. lia.
  - intros [[]|e] w2 [Hd2 Hsz]; [sp_step|]; (split; [by eapply does_trans|]); [|done].
    intros a [= <-]. exists seq. split_and!; try done. by apply Hsz.
Qed.

(** ** The two acknowledgement methods *)

(** A repeated acknowledgement deletes under the receipt that was on record. *)
Lemma replay_ok (P Q : AckReceipt -> Prop) b prior w {A} (a : A) :
  wf w -> receipts (in_state w) !! b = Some prior ->
  (committed (in_state w) (re_receipt prior) -> P (re_receipt prior)) ->
  wp (complete_receipt (re_receipt prior) ;; ret a) (fun _ w' => does (ack_events P Q) w w') w.
Proof.
  intros Hwf Hre HP. pose proof Hwf as [_ Hs].
  assert (Hcom : committed (in_state w) (re_receipt prior))
    by (exists prior; by rewrite (wr_key _ _ _ (ws_receipts _ _ Hs _ _ Hre))).
  apply wp_ok_from. apply does_bind; [done| |intros; apply ok_ret].
  eapply does_mono; [intros ev; by apply complete_ack, HP|]. by apply complete_receipt_ok.
Qed.

(** The receipts an acknowledgement may delete under: one that was on record
    before, or the one it draws up, which then is on record afterwards. *)
Definition on_record (issued : AckReceipt -> Prop) (w w' : Inner) (r : AckReceipt) : Prop :=
  committed (in_state w) r \/ (issued r /\ accepts_pending (in_state w) r /\ committed (in_state w') r).
Definition drawn_from (issued : AckReceipt -> Prop) (w : Inner) (r : AckReceipt) : Prop :=
  issued r /\ accepts_pending (in_state w) r.

Lemma acknowledge_v2_ok ack w :
  wf w ->
  wp (acknowledge_v2 ack) (fun _ w' =>
    does (ack_events (fun r => receipt_for ack r /\ on_record (issued_v2 ack) w w' r)
                     (drawn_from (issued_v2 ack) w)) w w') w.
Proof.
  intros Hwf. unfold acknowledge_v2. do 2 sp_step; [apply does_refl|]. do 2 sp_step.
  pose proof Hwf as [_ Hs]. destruct (receipts (in_state w) !! a2_batch_id ack) as [prior|] eqn:Hre.
  - do 2 sp_step; [apply does_refl|]. rewrite !orb_false_iff, !negb_false_iff, Z.eqb_eq in H0.
    destruct H0 as [[Hv Hr] Hg]. pose proof (wr_key _ _ _ (ws_receipts _ _ Hs _ _ Hre)) as Hb.
    set (P w' r := receipt_for ack r /\ on_record (issued_v2 ack) w w' r).
    assert (HP : forall w', committed (in_state w) (re_receipt prior) -> P w' (re_receipt prior))
      by (intros w' Hc; split; [by split_and!|by left]).
    pose proof (replay_ok (P (complete_receipt (re_receipt prior) w).2) (drawn_from (issued_v2 ack) w) _ prior w
      (ack_result_v2 (re_receipt prior)) Hwf Hre (HP _)) as Hd.
    unfold wp, bind, ret in Hd |- *. by destruct (complete_receipt (re_receipt prior) w) as [[[]|e] w'].
  - sp_step. eapply wp_mono; [by apply build_batch_v2_ok|]. intros r w1 [Hd1 Hdel].
    assert (Hrs : receipts (in_state w1) = receipts (in_state w))
      by (eapply does_same; [|exact Hd1]; by intros []).
    assert (Hwf1 : wf w1) by (by eapply wf_does). pose proof (quarantine_entries_sub _ _ Hd1) as Hsub.
    assert (Hd1' : forall P Q, does (ack_events P Q) w w1) by (intros P Q; eapply does_mono; [apply quarantine_ack|done]).
    clear Hd1. destruct r as [delivered|e]; [|done]. specialize (Hdel delivered eq_refl).
    do 2 sp_step; [done|]. apply negb_false_iff, ack_matches_v2_true in H0 as (_ & _ & Hgaps & _).
    do 2 sp_step. do 2 sp_step. destruct (receipt_admissions_v2 _ _ _) as [admissions|e] eqn:Hadm; [|done].
    set (mk sequence := {|
        ar_version := 2;
        ar_sequence := sequence;
        ar_batch_id := a2_batch_id ack;
        ar_accepted_record_ids := [];
        ar_accepted_stable_record_ids := a2_accepted_record_ids ack;
        ar_accepted_gap_notice_ids := a2_accepted_gap_notice_ids ack;
        ar_accepted_admissions := admissions |}).
    assert (Hmk : forall seq, drawn_from (issued_v2 ack) w (mk seq)).
    { intros seq. split; [split_and!; try done; intros a Ha; by eapply admissions_v2|].
      intros a Ha. destruct (admissions_v2 _ _ _ _ _ Hadm Ha) as (_ & e & He & Hq & Hsid). exists e.
      split; [by eapply lookup_weaken|]. unfold admission_of.
      pose proof (we_key _ _ _ (ws_entries _ _ (proj2 Hwf1) _ _ He)) as ->. rewrite Hq, Hsid. by destruct a. }
    eapply wp_mono; [apply (take_and_commit_ok (fun r => drawn_from (issued_v2 ack) w r) (drawn_from (issued_v2 ack) w)
      mk (a2_batch_id ack) (fun sequence => ack_result_v2 (mk sequence))); try done|].
    + intros seq. eapply issued_named_v2, Hmk.
    + intros seq n Hn. apply Hgaps, list_elem_of_fmap in Hn as (g & -> & Hg).
      destruct Hwf1 as [_ Hs1]. by eapply delivered_gap.
    + by rewrite Hrs.
    + intros r w2 [Hd2 _]. eapply does_trans; [by apply Hd1'|]. eapply does_mono; [|exact Hd2].
      intros ev. apply ack_events_mono; [|done]. intros r' [[Hi Hp] Hc]. split; [by apply issued_for|by right].
Qed.

Lemma acknowledge_ok ack w :
  wf w ->
  wp (acknowledge ack) (fun _ w' =>
    does (ack_events (fun r => receipt_for_v1 ack r /\ on_record (issued_v1 ack) w w' r)
                     (drawn_from (issued_v1 ack) w)) w w') w.
Proof.
  intros Hwf. unfold acknowledge. do 2 sp_step; [apply does_refl|]. do 2 sp_step.
  pose proof Hwf as [_ Hs]. destruct (receipts (in_state w) !! a1_batch_id ack) as [prior|] eqn:Hre.
  - do 2 sp_step; [apply does_refl|]. apply negb_false_iff in H0.
    pose proof (wr_key _ _ _ (ws_receipts _ _ Hs _ _ Hre)) as Hb.
    set (P w' r := receipt_for_v1 ack r /\ on_record (issued_v1 ack) w w' r).
    assert (HP : forall w', committed (in_state w) (re_receipt prior) -> P w' (re_receipt prior))
      by (intros w' Hc; split; [by split_and!|by left]).
    pose proof (replay_ok (P (complete_receipt (re_receipt prior) w).2) (drawn_from (issued_v1 ack) w) _ prior w
      (ack_result (re_receipt prior)) Hwf Hre (HP _)) as Hd.
    unfold wp, bind, ret in Hd |- *. by destruct (complete_receipt (re_receipt prior) w) as [[[]|e] w'].
  - do 2 sp_step; [apply does_refl|]. sp_step.
    eapply wp_mono; [apply (wp_ok quarantine_events); [apply build_batch_ok|done]|]. intros r w1 Hd1.
    assert (Hrs : receipts (in_state w1) = receipts (in_state w))
      by (eapply does_same; [|exact Hd1]; by intros []).
    assert (Hwf1 : wf w1) by exact (wf_does _ _ _ Hd1 Hwf). pose proof (quarantine_entries_sub _ _ Hd1) as Hsub.
    assert (Hd1' : forall P Q, does (ack_events P Q) w w1) by (intros P Q; eapply does_mono; [apply quarantine_ack|done]).
    clear Hd1. destruct r as [delivered|e]; [|done]. do 2 sp_step; [done|].
    do 4 sp_step. destruct (receipt_admissions_v1 _ _ _) as [admissions|e] eqn:Hadm; [|done].
    set (mk sequence := {|
        ar_version := 1;
        ar_sequence := sequence;
        ar_batch_id := a1_batch_id ack;
        ar_accepted_record_ids := a1_accepted_record_ids ack;
        ar_accepted_stable_record_ids := [];
        ar_accepted_gap_notice_ids := [];
        ar_accepted_admissions := admissions |}).
    assert (Hmk : forall seq, drawn_from (issued_v1 ack) w (mk seq)).
    { intros seq. destruct Hwf1 as [_ Hs1]. split; [split_and!; try done; intros a Ha; by eapply admissions_v1|].
      intros a Ha. destruct (admissions_v1 _ _ _ _ _ _ Hs1 Hadm Ha) as (_ & e & He & Ea). exists e.
      split; [by eapply lookup_weaken|done]. }
    eapply wp_mono; [apply (take_and_commit_ok (fun r => drawn_from (issued_v1 ack) w r) (drawn_from (issued_v1 ack) w)
      mk (a1_batch_id ack) (fun sequence => ack_result (mk sequence))); try done|].
    + intros seq. eapply issued_named_v1, Hmk.
    + intros seq n Hn. set_solver.
    + by rewrite Hrs.
    + intros r w2 [Hd2 _]. eapply does_trans; [by apply Hd1'|]. eapply does_mono; [|exact Hd2].
      intros ev. apply ack_events_mono; [|done]. intros r' [[Hi Hp] Hc]. split; [by apply issued_for_v1|by right].
Qed.

End Receipts.
