(* ===== verification/SpoolAck.v ===== *)
(** * Acknowledgement theorems

    A rejected acknowledgement deletes nothing; an accepted one deletes
    everything it names and nothing else; repeating it changes nothing. *)

From S2P Require Import Prelude Protocol Crypto Fs SpoolTypes SpoolFacts SpoolBase SpoolOps SpoolErrors.
From S2P Require Import SpoolFrame SpoolInv SpoolSpec SpoolRefine SpoolRefineOps SpoolDelivery SpoolReceipts.

Section Ack.
Context {X : SpoolEnv} {SL : SpoolLaws}.

(** ** Rejection *)

Lemma raises_not_invalid {A} (m : SpoolM A) w :
  raises storage_error m -> (m w).1 <> Err InvalidAcknowledgement.
Proof. intros Hm E. destruct (Hm w _ E) as [[?|?]|[?|[?|[?|?]]]]; done. Qed.

Lemma ret_after_not_invalid {A B} (m : SpoolM A) (b : B) w :
  raises storage_error m -> ((m ;; ret b) w).1 <> Err InvalidAcknowledgement.
Proof. intros Hm. apply raises_not_invalid. by apply raises_bind; [|intros; apply raises_ret]. Qed.

Lemma take_and_commit_not_invalid (mk : Z -> AckReceipt) {A} (res : Z -> A) w :
  ((let! seq := take_receipt_sequence in commit_receipt (mk seq) ;; ret (res seq)) w).1
    <> Err InvalidAcknowledgement.
Proof.
  unfold bind at 1, take_receipt_sequence. unfold bind at 1, get_state. unfold bind at 1, ok_or.
  destruct (u64_checked_add _ _); [|done]. unfold bind at 1, update, modify, ret at 1. cbn [fst snd].
  apply ret_after_not_invalid, raises_commit_receipt.
Qed.

Lemma rejected_v2 ack w :
  wf w ->
  wp (acknowledge_v2 ack) (fun r w' => r = Err InvalidAcknowledgement -> does quarantine_events w w') w.
Proof.
  intros Hwf. unfold acknowledge_v2. do 2 sp_step; [intros _; apply does_refl|]. do 2 sp_step.
  destruct (receipts (in_state w) !! a2_batch_id ack) as [prior|].
  - do 2 sp_step; [intros _; apply does_refl|]. unfold wp. intros E. exfalso. revert E.
    apply ret_after_not_invalid, raises_complete_receipt.
  - sp_step. eapply wp_mono; [by apply build_batch_v2_ok|]. intros r w1 [Hd1 _].
    destruct r as [delivered|e]; [|done]. do 2 sp_step; [done|].
    do 4 sp_step. destruct (receipt_admissions_v2 _ _ _) as [admissions|e]; [|done].
    unfold wp. intros E. exfalso. revert E. apply take_and_commit_not_invalid.
Qed.

(** C25: an acknowledgement rejected as invalid deletes nothing: no receipt is
    recorded, and every live sequence number stays live (at most, records found
    corrupt while the batch was rebuilt were replaced by their gap notices). *)
Theorem invalid_ack_deletes_nothing ack w :
  wf w -> (acknowledge_v2 ack w).1 = Err InvalidAcknowledgement ->
  let w' := (acknowledge_v2 ack w).2 in
  receipts (in_state w') = receipts (in_state w) /\
  (forall seq, live (in_state w) seq -> live (in_state w') seq) /\
  (forall r e, entries (in_state w) !! r = Some e ->
     entries (in_state w') !! r = Some e \/
     exists n g, gaps (in_state w') !! n = Some g /\ gn_spool_seq (ge_notice g) = en_spool_seq e).
Proof.
  intros Hwf Hr w'. pose proof (rejected_v2 ack w Hwf Hr) as Hd. fold w' in Hd.
  assert (Hlive : forall seq, live (in_state w) seq -> live (in_state w') seq).
  { intros seq Hl. destruct (live_does _ _ _ _ Hd Hwf Hl) as [|(r & ev & Hev & Hack & _)]; [done|].
    by destruct ev. }
  split_and!; [eapply does_same; [|exact Hd]; by intros []|done|].
  intros r e He. pose proof (quarantine_entries_sub _ _ Hd) as Hsub.
  destruct (Hlive (en_spool_seq e)) as [(r' & e' & He' & Eq)|]; [left; by exists r, e| |by right].
  left. destruct Hwf as [_ Hs]. pose proof (lookup_weaken _ _ _ _ He' Hsub) as He2.
  assert (r' = r) as -> by (by eapply (ws_entries_seq _ _ Hs)). congruence.
Qed.

(** ** What a completed receipt has removed *)

Lemma complete_sub r w w' :
  does (complete_events r) w w' ->
  entries (in_state w') ⊆ entries (in_state w) /\ gaps (in_state w') ⊆ gaps (in_state w).
Proof.
  intros Hd. apply (does_ind (complete_events r) (fun w1 => entries (in_state w1) ⊆ entries (in_state w) /\
    gaps (in_state w1) ⊆ gaps (in_state w)) w w'); try done.
  intros ev w1 w2 HL [_ Heff _ _ _ _] [He Hg]. rewrite Heff.
  destruct ev; try done; cbn; (split; try done; etransitivity; [apply delete_subseteq|done]).
Qed.

Definition gone (a : ReceiptAdmission) (s : State) : Prop :=
  forall e, entries s !! en_record_id e = Some e -> admission_of e <> a.

Lemma gone_sub a s s' : entries s' ⊆ entries s -> gone a s -> gone a s'.
Proof. intros Hsub Hg e He. apply Hg. by eapply lookup_weaken. Qed.

Lemma remove_admitted_post a w :
  wp (remove_admitted_record a) (fun r w' => forall b, r = Ok b -> gone a (in_state w') /\
    forall q, q <> ra_spool_seq a ->
      counted_pending_expirations (in_state w') !! q = counted_pending_expirations (in_state w) !! q) w.
Proof.
  unfold remove_admitted_record. do 2 sp_step.
  assert (Hfin : forall b w1, gone a (in_state w1) ->
    (forall q, q <> ra_spool_seq a ->
       counted_pending_expirations (in_state w1) !! q = counted_pending_expirations (in_state w) !! q) ->
    forall c, wp (when c (update (uncount (ra_spool_seq a))) ;; ret (b : bool))
      (fun r w' => forall b, r = Ok b -> gone a (in_state w') /\ forall q, q <> ra_spool_seq a ->
        counted_pending_expirations (in_state w') !! q = counted_pending_expirations (in_state w) !! q) w1).
  { intros b w1 Hg Hc []; cbn [when]; do 3 sp_step; intros b' _; (split; [done|]); [|done].
    intros q Hq. cbn. rewrite lookup_delete_ne by done. by apply Hc. }
  assert (Hkeep : forall e, entries (in_state w) !! ra_legacy_record_id a = Some e ->
                    entry_matches a e = false -> gone a (in_state w)).
  { intros e He Hm e' He' E. subst a. cbn in He. assert (e' = e) as -> by congruence.
    by rewrite (proj2 (entry_matches_true _ e) eq_refl) in Hm. }
  destruct (entries (in_state w) !! ra_legacy_record_id a) as [e|] eqn:He.
  - destruct (entry_matches a e) eqn:Em; [|by apply Hfin; [eapply Hkeep|]].
    apply entry_matches_true in Em. sp_step. apply wp_lift_state. intros [[]|?] w1 Hst; [|done].
    do 2 sp_step. apply Hfin; [|intros q _; cbn; by rewrite Hst].
    intros e' He' E. cbn in He'. rewrite Hst in He'. apply lookup_delete_Some in He' as [Hne _].
    apply Hne. rewrite <-Em in E. by injection E.
  - apply Hfin; [|done]. intros e' He' E. subst a. cbn in He. congruence.
Qed.

Lemma complete_admissions_post r w :
  wf w -> committed (in_state w) r ->
  wp (fold_m (ar_accepted_admissions r) false (fun removed_pending admission =>
        let! removed := remove_admitted_record admission in ret (removed_pending || removed)))
     (fun res w' => forall b, res = Ok b ->
        (forall a, a ∈ ar_accepted_admissions r -> gone a (in_state w')) /\
        forall q, (forall a, a ∈ ar_accepted_admissions r -> ra_spool_seq a <> q) ->
          counted_pending_expirations (in_state w') !! q = counted_pending_expirations (in_state w) !! q) w.
Proof.
  intros Hwf Hr. set (as_ := ar_accepted_admissions r).
  apply wp_fold_m with (I := fun l _ w' => wf w' /\ committed (in_state w') r /\ (forall a, a ∈ l -> a ∈ as_) /\
    (forall a, a ∈ as_ -> a ∈ l \/ gone a (in_state w')) /\
    forall q, (forall a, a ∈ as_ -> ra_spool_seq a <> q) ->
      counted_pending_expirations (in_state w') !! q = counted_pending_expirations (in_state w) !! q).
  - split_and!; auto.
  - intros b w' (_ & _ & _ & Hall & Hc) b' _. split; [|done]. intros a Ha.
    by destruct (Hall a Ha) as [?%elem_of_nil|].
  - intros a l b w1 (Hwf1 & Hr1 & Hsub & Hall & Hc). sp_step.
    assert (Hd : does (complete_events r) w1 (remove_admitted_record a w1).2).
    { apply remove_accepted_ok; try done. intros e <-. left. apply Hsub. by left. }
    pose proof (remove_admitted_post a w1) as Hpost. unfold wp in Hpost |- * at 1.
    destruct (remove_admitted_record a w1) as [[b1|e] w2]; cbn [fst snd] in *; [|done].
    destruct (Hpost b1 eq_refl) as [Hg Hc2]. destruct (complete_sub _ _ _ Hd) as [He2 _]. sp_step.
    split_and!; [by eapply wf_does|by eapply complete_committed|intros a' ?; apply Hsub; by right| |].
    + intros a' Ha'. destruct (Hall a' Ha') as [[->|]%elem_of_cons|]; [by right|by left|right].
      by eapply gone_sub.
    + intros q Hq. rewrite Hc2, Hc; [done|done|]. intros E. apply (Hq a); [apply Hsub; by left|done].
Qed.

Lemma remove_admitted_shrinks a w :
  entries (in_state (remove_admitted_record a w).2) ⊆ entries (in_state w) /\
  gaps (in_state (remove_admitted_record a w).2) = gaps (in_state w).
Proof.
  enough (wp (remove_admitted_record a) (fun _ w' =>
    entries (in_state w') ⊆ entries (in_state w) /\ gaps (in_state w') = gaps (in_state w)) w) as H by exact H.
  unfold remove_admitted_record. do 2 sp_step.
  destruct (entries (in_state w) !! ra_legacy_record_id a) as [e|]; [destruct (entry_matches a e)|].
  - sp_step. apply wp_lift_state. intros [[]|?] w1 Hst; [|by rewrite Hst].
    do 3 sp_step. destruct (bool_decide _); cbn [when]; do 2 sp_step; cbn; rewrite Hst;
      (split; [apply delete_subseteq|done]).
  - destruct (bool_decide _); cbn [when]; by do 3 sp_step.
  - destruct (bool_decide _); cbn [when]; by do 3 sp_step.
Qed.

(** The notice that stands for a counted, not yet materialized expiry. *)
Definition notice_of (e : Entry) : RecordId :=
  gn_notice_id (gap_notice e (en_expires_at_ms e) RetentionExpired).
Definition counted_in (s : State) (e : Entry) : Prop :=
  is_Some (counted_pending_expirations s !! en_spool_seq e).

Lemma notice_of_inj c s e e' :
  wf_state c s -> entries s !! en_record_id e = Some e -> entries s !! en_record_id e' = Some e' ->
  notice_of e = notice_of e' -> e = e'.
Proof.
  intros Hs He He' E. unfold notice_of, gap_notice, gap_notice_for_identity in E. cbn [gn_notice_id] in E.
  apply notice_id_binds in E as [E _]; [|by eapply entry_u64..].
  assert (en_record_id e = en_record_id e') as Er by (by eapply (ws_entries_seq _ _ Hs)). congruence.
Qed.

(** What completing one notice leaves of the entries and their counts. *)
Definition notice_done (n : RecordId) (s s' : State) : Prop :=
  gaps s' !! n = None /\
  forall e, entries s' !! en_record_id e = Some e ->
    (notice_of e = n -> gaps s !! n = None -> ~ counted_in s e) /\
    (notice_of e <> n -> counted_in s e -> counted_in s' e).

Lemma complete_gap_post b n w :
  wf w ->
  wp (complete_gap b n) (fun res w' => forall b', res = Ok b' -> notice_done n (in_state w) (in_state w')) w.
Proof.
  intros Hwf. pose proof Hwf as [_ Hs]. unfold complete_gap. do 2 sp_step.
  destruct (gaps (in_state w) !! n) as [g|] eqn:Hg.
  - sp_step. apply wp_lift_state. intros [[]|?] w1 Hst; [|done]. do 3 sp_step. intros b' _.
    split; [cbn; by rewrite lookup_delete_eq|]. intros e He. split; [congruence|].
    intros _. unfold counted_in. cbn. by rewrite Hst.
  - unfold remove_expired_gap_backing. sp_step. do 2 sp_step.
    destruct (expired_backing (in_state w) n) as [e0|] eqn:Hb.
    + apply expired_backing_Some in Hb as ([k He0] & _ & Hn).
      rewrite <-(we_key _ _ _ (ws_entries _ _ Hs _ _ He0)) in He0. sp_step.
      assert (Hsub : entries (in_state (remove_admitted_record (admission_of e0) w).2) ⊆ entries (in_state w) /\
                     gaps (in_state (remove_admitted_record (admission_of e0) w).2) = gaps (in_state w))
        by (by apply remove_admitted_shrinks).
      pose proof (remove_admitted_post (admission_of e0) w) as Hpost. unfold wp in Hpost |- * at 1.
      destruct (remove_admitted_record (admission_of e0) w) as [[b1|err] w1]; cbn [fst snd] in *; [|done].
      destruct (Hpost b1 eq_refl) as [Hgone Hc], Hsub as [Hsub Hgs]. do 4 sp_step. intros b' _.
      split; [cbn; by rewrite Hgs|]. intros e He. cbn in He.
      assert (Hne : e <> e0) by (intros ->; by apply (Hgone e0)).
      assert (He' : entries (in_state w) !! en_record_id e = Some e) by (by eapply lookup_weaken).
      split.
      * intros E _ _. apply Hne. eapply notice_of_inj; try done. by rewrite E.
      * intros _ Hcnt. unfold counted_in. cbn.
        assert (en_spool_seq e <> en_spool_seq e0).
        { intros E. apply Hne. assert (en_record_id e = en_record_id e0) as Er
            by (by eapply (ws_entries_seq _ _ Hs)). congruence. }
        rewrite lookup_delete_ne by done. by rewrite Hc.
    + do 2 sp_step. intros b' _. split; [done|]. intros e He. split; [|done]. intros E _ Hcnt.
      unfold expired_backing in Hb. pose proof (List.find_none _ _ Hb e) as Hnone. cbn beta in Hnone.
      rewrite bool_decide_true in Hnone by done. rewrite bool_decide_true in Hnone by done.
      discriminate Hnone. apply list_elem_of_In, elem_of_btree_values. eauto.
Qed.

(** A counted entry whose notice is accepted and not materialized. *)
Definition awaits (ids : list RecordId) (s : State) (e : Entry) : Prop :=
  counted_in s e /\ notice_of e ∈ ids /\ gaps s !! notice_of e = None.

Lemma complete_notices_post r b w :
  wf w -> committed (in_state w) r ->
  let ids := ar_accepted_gap_notice_ids r in
  wp (fold_m ids b complete_gap) (fun res w' => forall b', res = Ok b' ->
    (forall n, n ∈ ids -> gaps (in_state w') !! n = None) /\
    (forall e, awaits ids (in_state w) e -> entries (in_state w') !! en_record_id e <> Some e)) w.
Proof.
  intros Hwf Hr ids.
  apply wp_fold_m with (I := fun l _ w' => does (complete_events r) w w' /\ (forall n, n ∈ l -> n ∈ ids) /\
    (forall n, n ∈ ids -> n ∈ l \/ gaps (in_state w') !! n = None) /\
    (forall e, awaits ids (in_state w) e -> entries (in_state w') !! en_record_id e = Some e ->
       counted_in (in_state w') e /\ notice_of e ∈ l)).
  - split_and!; try done; [apply does_refl|by left|]. by intros e (? & ? & _).
  - intros b1 w' (_ & _ & Hgaps & Hwait) b' _. split.
    + intros n Hn. by destruct (Hgaps n Hn) as [?%elem_of_nil|].
    + intros e He Hin. by destruct (Hwait e He Hin) as [_ ?%elem_of_nil].
  - intros n l b1 w1 (Hd1 & Hsub & Hgaps & Hwait).
    assert (Hwf1 : wf w1) by (by eapply wf_does).
    assert (Hd2 : does (complete_events r) w1 (complete_gap b1 n w1).2)
      by (apply complete_gap_ok; [done|by eapply complete_committed|apply Hsub; by left]).
    pose proof (complete_gap_post b1 n w1 Hwf1) as Hpost. unfold wp in Hpost |- *.
    destruct (complete_gap b1 n w1) as [[b2|e] w2]; cbn [fst snd] in *; [|done].
    destruct (Hpost b2 eq_refl) as [Hn He2]. destruct (complete_sub _ _ _ Hd2) as [Hes Hgs].
    destruct (complete_sub _ _ _ Hd1) as [_ Hgs1].
    split_and!; [by eapply does_trans|intros n' ?; apply Hsub; by right| |].
    + intros n' Hn'. destruct (Hgaps n' Hn') as [[->|]%elem_of_cons|Hg]; [by right|by left|right].
      by eapply lookup_weaken_None.
    + intros e He Hin. destruct (Hwait e He) as [Hc Hl]; [by eapply lookup_weaken|].
      destruct (He2 e Hin) as [Heq Hneq]. destruct (decide (notice_of e = n)) as [E|E].
      * exfalso. apply Heq; [done| |done]. rewrite <-E. destruct He as (_ & _ & He). by eapply lookup_weaken_None.
      * split; [auto|]. by apply elem_of_cons in Hl as [|].
Qed.

(** After a receipt is completed: no accepted admission is pending, no
    accepted notice is recorded, no accepted expiry has its record left. *)
Lemma complete_receipt_post r w :
  wf w -> committed (in_state w) r ->
  wp (complete_receipt r) (fun res w' => res = Ok tt ->
    (forall a, a ∈ ar_accepted_admissions r -> gone a (in_state w')) /\
    (forall n, n ∈ ar_accepted_gap_notice_ids r -> gaps (in_state w') !! n = None) /\
    (forall e, awaits (ar_accepted_gap_notice_ids r) (in_state w) e ->
       (forall a, a ∈ ar_accepted_admissions r -> ra_spool_seq a <> en_spool_seq e) ->
       entries (in_state w') !! en_record_id e <> Some e)) w.
Proof.
  intros Hwf Hr. unfold complete_receipt. sp_step.
  pose proof (complete_admissions_post r w Hwf Hr) as Hp1. pose proof (complete_admissions_ok r w Hwf Hr) as Hd1.
  unfold wp in Hp1 |- * at 1. destruct (fold_m (ar_accepted_admissions r) false _ w) as [[b1|e] w1];
    cbn [fst snd] in *; [|done].
  destruct (Hp1 b1 eq_refl) as [Hgone Hcnt]. assert (Hwf1 : wf w1) by (by eapply wf_does).
  assert (Hr1 : committed (in_state w1) r) by (by eapply complete_committed).
  destruct (complete_sub _ _ _ Hd1) as [_ Hgs1]. sp_step.
  pose proof (complete_notices_post r b1 w1 Hwf1 Hr1) as Hp2.
  pose proof (complete_notices_ok r b1 w1 Hwf1 Hr1) as Hd2.
  unfold wp in Hp2 |- * at 1. destruct (fold_m (ar_accepted_gap_notice_ids r) b1 _ w1) as [[b2|e] w2];
    cbn [fst snd] in *; [|done].
  destruct (Hp2 b2 eq_refl) as [Hgaps Hwait]. destruct (complete_sub _ _ _ Hd2) as [Hes2 _].
  match goal with |- wp ?m _ w2 => assert (Htm : touches scratch m) by (destruct b2; cbn [when]; touches_tac) end.
  apply (wp_frames scratch); [exact Htm|]. intros res w3 (_ & _ & Hst) _ _ _. rewrite Hst. split_and!; [|done|].
  - intros a Ha. eapply gone_sub; [exact Hes2|by apply Hgone].
  - intros e (Hc & Hin & Hg) Hne. apply Hwait. split_and!; [|done|by eapply lookup_weaken_None].
    unfold counted_in. by rewrite Hcnt.
Qed.

(** ** Acceptance *)

(** The sequence numbers of the accepted items. *)
Definition accepted_seqs (batch : HubBatchV2) (ack : HubAckV2) : list Z :=
  (br2_spool_seq <$> List.filter (fun r => bool_decide (br2_record_id r ∈ a2_accepted_record_ids ack))
                       (b2_records batch)) ++
  (gn_spool_seq <$> List.filter (fun g => bool_decide (gn_notice_id g ∈ a2_accepted_gap_notice_ids ack))
                      (b2_gaps batch)).

Lemma elem_of_accepted_seqs batch ack q :
  q ∈ accepted_seqs batch ack <->
  (exists r, r ∈ b2_records batch /\ br2_record_id r ∈ a2_accepted_record_ids ack /\ br2_spool_seq r = q) \/
  (exists g, g ∈ b2_gaps batch /\ gn_notice_id g ∈ a2_accepted_gap_notice_ids ack /\ gn_spool_seq g = q).
Proof.
  unfold accepted_seqs. rewrite elem_of_app, !list_elem_of_fmap.
  setoid_rewrite list_elem_of_In. setoid_rewrite List.filter_In. setoid_rewrite bool_decide_eq_true.
  setoid_rewrite <-list_elem_of_In. naive_solver.
Qed.

Definition receipt_of (ack : HubAckV2) (admissions : list ReceiptAdmission) (sequence : Z) : AckReceipt := {|
  ar_version := 2;
  ar_sequence := sequence;
  ar_batch_id := a2_batch_id ack;
  ar_accepted_record_ids := [];
  ar_accepted_stable_record_ids := a2_accepted_record_ids ack;
  ar_accepted_gap_notice_ids := a2_accepted_gap_notice_ids ack;
  ar_accepted_admissions := admissions |}.

(** The acknowledgement got as far as drawing up its receipt: the batch it
    names was rebuilt and matched. *)
Definition drawn_up (ack : HubAckV2) (batch : HubBatchV2) (admissions : list ReceiptAdmission)
    (w w1 : Inner) : Prop :=
  build_batch_v2 w = (Ok batch, w1) /\ wf w1 /\ delivers (in_config w1) (in_state w1) batch /\
  ack_matches_v2 batch ack = true /\ receipt_admissions_v2 (in_state w1) batch ack = Ok admissions.
Definition receipts_of (ack : HubAckV2) (admissions : list ReceiptAdmission) (r : AckReceipt) : Prop :=
  exists seq, r = receipt_of ack admissions seq.

(** What a fresh acknowledgement goes through, whether it succeeds or not. *)
Lemma fresh_ack_run ack w :
  wf w -> receipts (in_state w) !! a2_batch_id ack = None ->
  wp (acknowledge_v2 ack) (fun r w' =>
    does quarantine_events w w' /\ (forall res, r <> Ok res) \/
    exists batch w1 admissions, drawn_up ack batch admissions w w1 /\
      does (ack_events (receipts_of ack admissions) (receipts_of ack admissions)) w1 w' /\
      forall res, r = Ok res -> exists seq,
        res = ack_result_v2 (receipt_of ack admissions seq) /\ completed (receipt_of ack admissions seq) w1 w') w.
Proof.
  intros Hwf Hnone. unfold acknowledge_v2.
  do 2 sp_step; [left; split; [apply does_refl|done]|]. do 2 sp_step. rewrite Hnone. sp_step.
  destruct (build_batch_v2_ok w Hwf) as [Hd1 Hdel]. unfold wp at 1.
  destruct (build_batch_v2 w) as [[batch|e] w1] eqn:Eb; cbn [fst snd] in *; [|by left].
  specialize (Hdel batch eq_refl). assert (Hwf1 : wf w1) by (by eapply wf_does).
  assert (Hrs : receipts (in_state w1) = receipts (in_state w))
    by (eapply does_same; [|exact Hd1]; by intros []).
  do 2 sp_step; [by left|]. rename H0 into Hm. apply negb_false_iff in Hm.
  do 4 sp_step. destruct (receipt_admissions_v2 _ _ _) as [admissions|e] eqn:Hadm; [|by left].
  eapply wp_mono; [apply (take_and_commit_ok (receipts_of ack admissions) (receipts_of ack admissions)
    (receipt_of ack admissions) (a2_batch_id ack) (fun seq => ack_result_v2 (receipt_of ack admissions seq)))|];
    try done; try (by intros seq; exists seq).
  - intros seq a Ha. left. by eapply admissions_v2.
  - intros seq n Hn. apply ack_matches_v2_true in Hm as (_ & _ & Hg & _).
    apply Hg, list_elem_of_fmap in Hn as (g & -> & Hin). destruct Hwf1 as [_ Hs1]. by eapply delivered_gap.
  - by rewrite Hrs.
  - intros r w2 [Hd2 Hc]. right. exists batch, w1, admissions. split_and!; try done.
    { eapply does_mono; [|exact Hd2]. intros ev. apply ack_events_mono; [by intros x []|done]. }
    intros res ->. destruct (Hc res eq_refl) as (seq & _ & -> & Hcomp). by exists seq.
Qed.

(** What a fresh acknowledgement that succeeds has gone through. *)
Lemma fresh_ack_v2 ack w res :
  wf w -> receipts (in_state w) !! a2_batch_id ack = None -> (acknowledge_v2 ack w).1 = Ok res ->
  exists batch w1 admissions seq, drawn_up ack batch admissions w w1 /\
    res = ack_result_v2 (receipt_of ack admissions seq) /\
    does (ack_events (receipts_of ack admissions) (receipts_of ack admissions)) w1 (acknowledge_v2 ack w).2 /\
    completed (receipt_of ack admissions seq) w1 (acknowledge_v2 ack w).2.
Proof.
  intros Hwf Hnone Hr. destruct (fresh_ack_run ack w Hwf Hnone) as [[_ Hno]|(batch & w1 & admissions & Hd & Hdoes & Hc)].
  - by destruct (Hno res).
  - destruct (Hc res Hr) as (seq & ? & ?). by exists batch, w1, admissions, seq.
Qed.

Lemma admission_origin s batch ack l a :
  receipt_admissions_v2 s batch ack = Ok l -> a ∈ l ->
  exists r, r ∈ b2_records batch /\ br2_record_id r ∈ a2_accepted_record_ids ack /\
    ra_spool_seq a = br2_spool_seq r.
Proof.
  unfold receipt_admissions_v2. intros Hl Ha. destruct (collect_map _ _ _ _ Hl Ha) as (r & Hr & Hf).
  apply list_elem_of_In, List.filter_In in Hr as [Hin Hr].
  apply bool_decide_eq_true_1, elem_of_list_to_set in Hr. exists r.
  destruct (entries s !! br2_legacy_record_id r) as [e|]; [|done]. destruct (_ || _); [done|].
  injection Hf as <-. split_and!; [by apply list_elem_of_In|done..].
Qed.

Lemma admission_complete s batch ack l r :
  receipt_admissions_v2 s batch ack = Ok l -> r ∈ b2_records batch ->
  br2_record_id r ∈ a2_accepted_record_ids ack ->
  {| ra_spool_seq := br2_spool_seq r; ra_stable_record_id := br2_record_id r;
     ra_legacy_record_id := br2_legacy_record_id r |} ∈ l.
Proof.
  unfold receipt_admissions_v2. intros Hl Hr Hacc.
  destruct (collect_map_complete _ _ _ r Hl) as (a & Ha & Hin).
  { apply list_elem_of_In, List.filter_In. split; [by apply list_elem_of_In|].
    apply bool_decide_eq_true. by apply elem_of_list_to_set. }
  destruct (entries s !! br2_legacy_record_id r) as [e|]; [|done]. destruct (_ || _); [done|].
  by injection Ha as ->.
Qed.

Section Accepted.
Context (c : SpoolConfig) (s s4 : State) (batch : HubBatchV2) (ack : HubAckV2) (l : list ReceiptAdmission).
Context (Hs : wf_state c s) (Hdel : delivers c s batch) (Hadm : receipt_admissions_v2 s batch ack = Ok l).
Context (Hes : entries s4 ⊆ entries s) (Hgs : gaps s4 ⊆ gaps s).

(** A sequence has one candidate. *)
Lemma one_candidate a b :
  a ∈ batch_candidates s -> b ∈ batch_candidates s -> candidate_seq a = candidate_seq b -> a = b.
Proof using SL Hdel. destruct Hdel as (_ & _ & _ & Hstrict & _). by apply strict_inj. Qed.

Lemma dead_record e :
  CandRecord e ∈ batch_candidates s -> entries s4 !! en_record_id e <> Some e -> ~ live s4 (en_spool_seq e).
Proof using SL Hs Hdel Hes Hgs.
  intros Hc Hne [(r & e' & He' & E)|(n & g & Hg & E)].
  - assert (CandRecord e' = CandRecord e) as [= ->].
    { apply one_candidate; [|done|done]. apply elem_of_candidates. exists r. by eapply lookup_weaken. }
    apply Hne. rewrite (we_key _ _ _ (ws_entries _ _ Hs r e (lookup_weaken _ _ _ _ He' Hes))). done.
  - assert (CandGap (ge_notice g) = CandRecord e); [|done].
    apply one_candidate; [|done|done]. apply elem_of_candidates. exists n, g. split; [by eapply lookup_weaken|done].
Qed.

Lemma dead_gap g :
  CandGap g ∈ batch_candidates s -> gaps s4 !! gn_notice_id g = None -> ~ live s4 (gn_spool_seq g).
Proof using SL Hs Hdel Hes Hgs.
  intros Hc Hne [(r & e' & He' & E)|(n & g' & Hg & E)].
  - assert (CandRecord e' = CandGap g); [|done].
    apply one_candidate; [|done|done]. apply elem_of_candidates. exists r. by eapply lookup_weaken.
  - assert (CandGap (ge_notice g') = CandGap g) as [= <-].
    { apply one_candidate; [|done|done]. apply elem_of_candidates. exists n, g'.
      split; [by eapply lookup_weaken|done]. }
    assert (Hg' : gaps s !! n = Some g') by (by eapply lookup_weaken).
    rewrite (wg_key _ _ _ (ws_gaps _ _ Hs _ _ Hg')) in Hne. congruence.
Qed.

Lemma accepted_dead q :
  (forall a, a ∈ l -> gone a s4) ->
  (forall n, n ∈ a2_accepted_gap_notice_ids ack -> gaps s4 !! n = None) ->
  (forall e, awaits (a2_accepted_gap_notice_ids ack) s e ->
     (forall a, a ∈ l -> ra_spool_seq a <> en_spool_seq e) -> entries s4 !! en_record_id e <> Some e) ->
  q ∈ accepted_seqs batch ack -> ~ live s4 q.
Proof using SL Hs Hdel Hadm Hes Hgs.
  intros Hgone Hgaps Hwait. pose proof Hdel as (_ & _ & _ & _ & Hsel).
  intros [(r & Hr & Hacc & <-)|(g & Hg & Hacc & <-)]%elem_of_accepted_seqs.
  - destruct (selected_item _ _ _ _ _ (ItemRecord r) Hsel Hr) as ([e|] & Hc & Hres); [|done].
    destruct Hres as (_ & Hid & Hleg & Hseq & _). rewrite Hseq. apply dead_record; [done|]. intros He.
    apply (Hgone (admission_of e)) in He; [done|].
    pose proof (admission_complete _ _ _ _ _ Hadm Hr Hacc) as Hin. by rewrite Hid, Hleg, Hseq in Hin.
  - destruct (selected_item _ _ _ _ _ (ItemGap g) Hsel Hg) as ([e|g'] & Hc & Hres); cbn in Hres.
    + destruct Hres as [Hcnt ->]. apply dead_record; [done|].
      pose proof Hc as [k He]%elem_of_candidates.
      apply Hwait; [split_and!; [done..|]|].
      * destruct (gaps s !! notice_of e) as [g'|] eqn:Hg'; [|done]. exfalso.
        destruct (notice_recorded c s e (en_expires_at_ms e) RetentionExpired g' Hs) as [E _];
          [by eapply entry_u64|exact Hg'|].
        assert (CandGap (ge_notice g') = CandRecord e); [|done].
        apply one_candidate; [|done|done]. apply elem_of_candidates. eauto.
      * intros a Ha E. destruct (admission_origin _ _ _ _ _ Hadm Ha) as (r & Hr & _ & Hq).
        destruct (selected_item _ _ _ _ _ (ItemRecord r) Hsel Hr) as ([e'|] & _ & Hres); [|done].
        destruct Hres as (Hnc & _ & _ & Hq' & _). destruct Hcnt as [sid Hcnt]. congruence.
    + subst g'. apply dead_gap; [done|]. by apply Hgaps.
Qed.

End Accepted.

Lemma prune_same w w' :
  does prune_events w w' ->
  entries (in_state w') = entries (in_state w) /\ gaps (in_state w') = gaps (in_state w).
Proof. intros Hd. split; (eapply does_same; [|exact Hd]; by intros []). Qed.

Lemma live_sub s s' q : entries s' ⊆ entries s -> gaps s' ⊆ gaps s -> live s' q -> live s q.
Proof.
  intros He Hg [(r & e & Hr & E)|(n & g & Hn & E)]; [left; exists r, e|right; exists n, g];
    (split; [by eapply lookup_weaken|done]).
Qed.

(** What the completed receipt of a fresh acknowledgement leaves. *)
Lemma fresh_ack_effect c batch ack admissions seq w1 w' :
  wf_state c (in_state w1) -> delivers c (in_state w1) batch ->
  receipt_admissions_v2 (in_state w1) batch ack = Ok admissions ->
  completed (receipt_of ack admissions seq) w1 w' ->
  entries (in_state w') ⊆ entries (in_state w1) /\ gaps (in_state w') ⊆ gaps (in_state w1) /\
  forall q, q ∈ accepted_seqs batch ack -> ~ live (in_state w') q.
Proof.
  intros Hs Hdel Hadm (_ & w3 & w4 & He3 & Hg3 & Hc3 & Hwf3 & Hw3 & Hcomp & Hprune).
  set (r := receipt_of ack admissions seq) in *.
  assert (Hcom : committed (in_state w3) r).
  { exists (receipt_entry r). rewrite Hw3. cbn. by rewrite lookup_insert_eq. }
  pose proof (complete_receipt_ok r w3 Hwf3 Hcom) as Hd4.
  pose proof (complete_receipt_post r w3 Hwf3 Hcom) as Hpost. unfold wp in Hpost.
  rewrite Hcomp in Hd4, Hpost. destruct (Hpost eq_refl) as (Hgone & Hgaps & Hwait).
  destruct (complete_sub _ _ _ Hd4) as [Hes Hgs]. cbn [snd] in *. rewrite He3 in Hes. rewrite Hg3 in Hgs.
  destruct (prune_same _ _ Hprune) as [Hep Hgp]. rewrite Hep, Hgp. split_and!; [done..|].
  intros q Hq Hl. eapply (accepted_dead c (in_state w1) (in_state w4) batch ack admissions); try done.
  - intros e (Hcnt & Hin & Hnone) Hne. apply Hwait; [|done]. unfold awaits, counted_in in *.
    by rewrite Hc3, Hg3.
  - eapply live_sub; [..|exact Hl]; [by rewrite Hep|by rewrite Hgp].
Qed.

(** C9: a fresh acknowledgement that succeeds names the batch the spool has to
    deliver now, accepts a prefix of it in sequence order, and removes exactly
    the accepted sequence numbers: afterwards a sequence is live if and only if
    it was live when the batch was rebuilt and is not accepted.  At most 1024
    receipts are remembered. *)
Theorem ack_v2_removes_exactly ack w res :
  wf w -> receipts (in_state w) !! a2_batch_id ack = None -> (acknowledge_v2 ack w).1 = Ok res ->
  exists batch w1, build_batch_v2 w = (Ok batch, w1) /\
    b2_batch_id batch = a2_batch_id ack /\ v2_ack_is_merged_prefix batch ack = true /\
    r2_acknowledged_record_ids res = a2_accepted_record_ids ack /\
    r2_acknowledged_gap_notice_ids res = a2_accepted_gap_notice_ids ack /\
    (forall q, live (in_state (acknowledge_v2 ack w).2) q <->
       live (in_state w1) q /\ q ∉ accepted_seqs batch ack) /\
    (size (receipts (in_state (acknowledge_v2 ack w).2)) <= MAX_ACK_RECEIPTS)%nat.
Proof.
  intros Hwf Hnone Hr.
  destruct (fresh_ack_v2 ack w res Hwf Hnone Hr)
    as (batch & w1 & admissions & seq & (Hb & Hwf1 & Hdel & Hm & Hadm) & -> & Hd & Hcomp).
  pose proof Hwf1 as [_ Hs1]. exists batch, w1.
  destruct (ack_matches_v2_true _ _ Hm) as (Hid & _ & Hgids & Hpre).
  destruct (fresh_ack_effect _ _ _ _ _ _ _ Hs1 Hdel Hadm Hcomp) as (Hes & Hgs & Hdead).
  split_and!; try done; [|by destruct Hcomp].
  intros q. split; [intros Hl; split; [by eapply live_sub|]; intros Hq; by eapply Hdead|].
  intros [Hl Hq]. destruct (live_does _ _ _ _ Hd Hwf1 Hl) as [|(r & ev & Hev & Hack & _ & Ha)]; [done|]. exfalso.
  apply Hq, elem_of_accepted_seqs.
  assert (exists seq', r = receipt_of ack admissions seq') as [seq' ->] 
    by (destruct ev; cbn in Hev, Hack; try done; subst; exact Hev).
  apply accepts_acknowledges in Ha. destruct Ha as [(a & Ha & <-)|(reason & ev' & Hn)].
  - left. destruct (admission_origin _ _ _ _ _ Hadm Ha) as (r & ? & ? & ?). by exists r.
  - right. apply Hgids in Hn as Hn'. apply list_elem_of_fmap in Hn' as (g & E & Hg).
    exists g. rewrite <-E. split_and!; [done..|].
    destruct (delivered_gap_id _ _ _ _ Hs1 Hdel Hg) as (reason' & ev'' & E' & Hu). rewrite E' in E.
    apply notice_id_binds in E as [-> _]; [done| |done]. by eapply live_u64.
Qed.

(** ** Repetition *)

(** The shape checks at the head of [acknowledge_v2]. *)
Definition well_shaped (ack : HubAckV2) : Prop :=
  a2_version ack = 2 /\ valid_digest (a2_batch_id ack) = true /\
  NoDup (a2_accepted_record_ids ack) /\ NoDup (a2_accepted_gap_notice_ids ack).

(** With a remembered receipt the method compares, completes and answers. *)
Lemma replay_unfold ack w prior :
  well_shaped ack -> receipts (in_state w) !! a2_batch_id ack = Some prior ->
  acknowledge_v2 ack w =
  (throw_if (negb (ar_version (re_receipt prior) =? 2)
             || negb (same_record_ids (ar_accepted_stable_record_ids (re_receipt prior)) (a2_accepted_record_ids ack))
             || negb (same_record_ids (ar_accepted_gap_notice_ids (re_receipt prior))
                        (a2_accepted_gap_notice_ids ack))) InvalidAcknowledgement ;;
   complete_receipt (re_receipt prior) ;; ret (ack_result_v2 (re_receipt prior))) w.
Proof.
  intros (Hv & Hdig & Hn1 & Hn2) Hre. unfold acknowledge_v2. unfold bind at 1, throw_if at 1.
  rewrite Hv, Hdig, (proj2 (all_distinct_true _) Hn1), (proj2 (all_distinct_true _) Hn2).
  cbn [negb orb Z.eqb Pos.eqb]. unfold bind at 1, get_state. by rewrite Hre.
Qed.

(** C24: an acknowledgement for a batch whose receipt is remembered is decided by
    the receipt alone.  The same accepted identifiers, in any order, are
    answered with the receipt's result (or a storage error), record no new
    receipt and remove nothing the receipt had not accepted; any other
    acknowledgement of that batch is rejected and changes nothing. *)
Theorem ack_v2_replay ack w prior :
  wf w -> well_shaped ack -> receipts (in_state w) !! a2_batch_id ack = Some prior ->
  let r := (acknowledge_v2 ack w).1 in
  let w' := (acknowledge_v2 ack w).2 in
  (receipt_for ack (re_receipt prior) ->
     (r = Ok (ack_result_v2 (re_receipt prior)) \/ exists e, r = Err e /\ storage_error e) /\
     receipts (in_state w') = receipts (in_state w) /\
     (forall q, live (in_state w) q -> live (in_state w') q \/ acknowledges (re_receipt prior) q)) /\
  (~ receipt_for ack (re_receipt prior) -> r = Err InvalidAcknowledgement /\ w' = w).
Proof.
  intros Hwf Hsh Hre. pose proof Hwf as [_ Hs].
  pose proof (wr_key _ _ _ (ws_receipts _ _ Hs _ _ Hre)) as Hkey.
  cbv zeta. rewrite (replay_unfold ack w prior Hsh Hre). split.
  - intros (-> & _ & -> & ->). cbn [negb orb Z.eqb Pos.eqb]. unfold bind, throw_if, ret.
    assert (Hcom : committed (in_state w) (re_receipt prior)) by (exists prior; by rewrite Hkey).
    pose proof (complete_receipt_ok _ _ Hwf Hcom) as Hd.
    pose proof (raises_complete_receipt (re_receipt prior) w) as Hraise.
    destruct (complete_receipt (re_receipt prior) w) as [res w']. cbn [fst snd] in *.
    assert (Hw' : receipts (in_state w') = receipts (in_state w) /\
      forall q, live (in_state w) q -> live (in_state w') q \/ acknowledges (re_receipt prior) q).
    { split; [eapply does_same; [|exact Hd]; by intros []|]. intros q Hl.
      destruct (live_does _ _ _ _ Hd Hwf Hl) as [|(r & ev & Hev & Hack & _ & Ha)]; [by left|right].
      apply accepts_acknowledges in Ha. destruct ev; cbn in Hev, Hack; try done; by subst. }
    destruct res as [[]|e]; cbn [fst snd]; (split; [|done]); [by left|right]. exists e. split; [done|]. by apply Hraise.
  - intros Hne. unfold bind at 1 2, throw_if at 1 2.
    destruct (_ || _) eqn:Eb; [done|]. exfalso. apply Hne.
    rewrite !orb_false_iff, !negb_false_iff, Z.eqb_eq in Eb. by destruct Eb as [[? ?] ?].
Qed.

End Ack.
