(* ===== verification/SpoolV1.v ===== *)
(** * Version 1 delivery

    Version 1 has no gap notices, so a version-1 client is only served while
    the spool has nothing to report as lost. *)

From S2P Require Import Prelude Protocol Crypto Fs SpoolTypes SpoolFacts SpoolBase SpoolOps SpoolErrors.
From S2P Require Import SpoolFrame SpoolInv SpoolSpec SpoolRefine SpoolRefineOps SpoolDelivery SpoolReceipts SpoolAck.

Section V1.
Context {X : SpoolEnv} {SL : SpoolLaws}.

(** The record a pending entry becomes in a version-1 batch. *)
Definition resolves_v1 (e : Entry) (r : HubBatchRecordV1) : Prop :=
  exists st, stored_checked e st /\ br1_record_id r = en_record_id e /\
    br1_received_at_ms r = sr_admitted_at_ms st /\ br1_envelope r = sr_envelope st.

Definition record_size_v1 (r : HubBatchRecordV1) : Z :=
  match to_vec r with Some b => len b | None => 0 end.
Definition batch_size_v1 (l : list HubBatchRecordV1) : Z := foldr Z.add 0 (record_size_v1 <$> l).

Definition within_v1 (c : SpoolConfig) (records : list HubBatchRecordV1) (body : Z) : Prop :=
  Z.of_nat (length records) <= Z.min (batch_max_records c) 256 /\ 0 <= body <= batch_max_bytes c.

(** The records taken from [ordered]; without a quarantine they are those of a
    prefix, and a batch is empty only if nothing is pending. *)
Definition selected_v1 (c : SpoolConfig) (ordered : list Entry) (records : list HubBatchRecordV1) (body : Z)
    (records' : list HubBatchRecordV1) : Prop :=
  exists taken rest items, ordered = taken ++ rest /\ Forall2 resolves_v1 taken items /\
    records' = records ++ items /\ within_v1 c records' (body + batch_size_v1 items) /\
    (records = [] -> ordered <> [] -> items <> []).

(** The loop either met a corrupt record (a gap is recorded) or selected a prefix. *)
Definition loop_outcome (c : SpoolConfig) (ordered : list Entry) (records : list HubBatchRecordV1) (body : Z)
    (w : Inner) (r : Result SpoolError (list HubBatchRecordV1)) (w' : Inner) : Prop :=
  match r with
  | Err _ => True
  | Ok records' => gaps (in_state w') <> ∅ \/ (same_state w w' /\ selected_v1 c ordered records body records')
  end.

Lemma selected_v1_stop c ordered records body :
  within_v1 c records body -> records <> [] \/ ordered = [] ->
  selected_v1 c ordered records body records.
Proof.
  intros Hw Hs. exists [], ordered, []. cbn. rewrite app_nil_r, Z.add_0_r. split_and!; try done. naive_solver.
Qed.

Lemma selected_v1_step c e ordered r records body records' :
  resolves_v1 e r -> selected_v1 c ordered (records ++ [r]) (body + record_size_v1 r) records' ->
  selected_v1 c (e :: ordered) records body records'.
Proof.
  intros Hr (taken & rest & items & -> & Hf & -> & Hw & _). exists (e :: taken), rest, (r :: items).
  rewrite <-app_assoc in *. cbn in *. split_and!; try done; [by constructor|].
  unfold batch_size_v1 in *. cbn. by rewrite Z.add_assoc.
Qed.

Lemma quarantine_gaps_grow w w' : does quarantine_events w w' -> gaps (in_state w) ⊆ gaps (in_state w').
Proof.
  intros Hd. apply (does_ind quarantine_events (fun w1 => gaps (in_state w) ⊆ gaps (in_state w1)) w w'); try done.
  intros ev w1 w2 HL [Hen Heff _ _ _ _] IH. rewrite Heff. destruct ev; try done.
  destruct Hen as [Hfresh _]. cbn. transitivity (gaps (in_state w1)); [done|by apply insert_subseteq].
Qed.

Lemma nonempty_grow (m m' : gmap RecordId GapEntry) : m ⊆ m' -> m <> ∅ -> m' <> ∅.
Proof. 
  intros Hs Hne ->. apply Hne, map_empty. intros k. destruct (m !! k) eqn:E; [|done].
  by apply (lookup_weaken _ _ _ _ E) in Hs.
 Qed.

(** A quarantined entry was pending, so a gap is now recorded. *)
Lemma quarantine_records_gap e w w' :
  wf w -> entries (in_state w) !! en_record_id e = Some e ->
  does quarantine_events w w' -> entries (in_state w') !! en_record_id e = None ->
  gaps (in_state w') <> ∅.
Proof.
  intros Hwf He Hd Hnone.
  assert (Hl : live (in_state w) (en_spool_seq e)) by (left; by exists (en_record_id e), e).
  destruct (live_does _ _ _ _ Hd Hwf Hl) as [[(r & e' & He' & E)|(n & g & Hg & _)]|(r & ev & Hev & Hack & _)].
  - exfalso. pose proof (lookup_weaken _ _ _ _ He' (quarantine_entries_sub _ _ Hd)) as He2.
    destruct Hwf as [_ Hs]. assert (r = en_record_id e) as -> by (by eapply (ws_entries_seq _ _ Hs)). congruence.
  - intros Hempty. by rewrite Hempty in Hg.
  - by destruct ev.
Qed.

Lemma build_v1_loop_post c ordered records body w :
  wf_config c -> wf w -> Forall (fun e => entries (in_state w) !! en_record_id e = Some e) ordered ->
  within_v1 c records body -> (records = [] -> body = 0) ->
  wp (build_v1_loop c ordered records body)
     (fun r w' => loop_outcome c ordered records body w r w') w.
Proof.
  intros Hc. revert records body w.
  induction ordered as [|e ordered IH]; intros records body w Hwf Hpres Hw Hb; cbn [build_v1_loop].
  { sp_step. right. split; [apply same_state_refl|]. apply selected_v1_stop; auto. }
  destruct (Z.leb_spec (Z.min (batch_max_records c) 256) (Z.of_nat (length records))) as [Hfull|Hroom].
  { sp_step. right. split; [apply same_state_refl|]. apply selected_v1_stop; [done|]. left. intros ->.
    pose proof (wc_batch_records _ Hc). cbn in Hfull. lia. }
  apply Forall_cons in Hpres as [He Hpres].
  pose proof (read_entry_ok e w Hwf) as Hd1. pose proof (read_entry_checked e w) as Hck.
  destruct (touches_read_entry scratch e w) as (Hst1 & _ & _). pose proof (read_entry_corrupt e w) as Hbad.
  sp_step. sp_step. unfold wp at 1. destruct (read_entry e w) as [[st|err] w1]; cbn [fst snd] in *.
  - assert (Hwf1 : wf w1) by (by eapply wf_does). specialize (Hck st eq_refl).
    do 2 sp_step; [|done]. rename a into encoded, H into Henc. destruct (_ && _) eqn:Efit.
    { sp_step. right. split; [done|]. apply selected_v1_stop; [done|]. left. by destruct records. }
    do 2 sp_step; [done|]. rename H into Hone.
    match goal with |- context [build_v1_loop c ordered (records ++ [?x]) _] => set (r := x) in * end.
    assert (Hsz : record_size_v1 r = len encoded) by (unfold record_size_v1; by rewrite Henc).
    pose proof (len_nonneg encoded) as Hn. destruct Hw as [Hw1 Hw2].
    assert (Hle : u64_saturating_add body (len encoded) <= batch_max_bytes c).
    { destruct records; cbn in Efit; [rewrite Hb by done; unfold u64_saturating_add|]; lia. }
    rewrite (body_exact c) in Hle |- * by done. rewrite <-Hsz in Hle |- *.
    eapply wp_mono; [apply IH; try done|].
    + by destruct Hst1 as (_ & _ & ->).
    + unfold within_v1. rewrite length_app. cbn. lia.
    + by destruct records.
    + intros [records'|err] w' Hout; [|done].
      destruct Hout as [|[Hst2 Hsel]]; [by left|right]. split; [by eapply same_state_trans|].
      eapply selected_v1_step; [|exact Hsel]. exists st. pose proof Hck as (_ & Hid & _). by split_and!.
  - assert (Hwf1 : wf w1) by (by eapply wf_does). destruct err; try (by sp_step).
    assert (Hcur : current (in_state w1) ordered).
    { destruct Hst1 as (_ & _ & ->). eapply Forall_impl; [exact Hpres|]. cbn. intros; congruence. }
    destruct Hst1 as (_ & _ & Hst1). rewrite <-Hst1 in He.
    sp_step. eapply wp_mono; [apply quarantine_runtime_entry_ok; [done|by apply Hbad|congruence]|].
    intros [[]|err] w2 [Hd2 Hent]; [|done]. specialize (Hent eq_refl).
    assert (Hgap : gaps (in_state w2) <> ∅)
      by (eapply quarantine_records_gap; [exact Hwf1|exact He|done|by rewrite Hent, lookup_delete_eq]).
    assert (Hd3 : does quarantine_events w2 (build_v1_loop c ordered records body w2).2).
    { apply build_v1_loop_ok; [by eapply wf_does|]. eapply current_weaken; [by apply quarantine_entries_sub|done]. }
    unfold wp, loop_outcome. destruct (build_v1_loop c ordered records body w2) as [[records'|err] w3]; [|done].
    left. eapply nonempty_grow; [by apply quarantine_gaps_grow|done].
Qed.

Lemma build_batch_post w :
  wf w ->
  wp build_batch (fun r w' => forall batch, r = Ok batch ->
    gaps (in_state w') = ∅ /\ counted_pending_expirations (in_state w') = ∅ /\
    b1_batch_id batch = batch_id (b1_records batch) /\
    selected_v1 (in_config w) (sort_by entry_v1_leb (btree_values (entries (in_state w')))) [] 0
      (b1_records batch)) w.
Proof.
  intros Hwf. pose proof Hwf as [Hc Hs]. unfold build_batch. do 2 sp_step. do 2 sp_step; [done|]. do 2 sp_step.
  set (ordered := sort_by entry_v1_leb (btree_values (entries (in_state w)))).
  sp_step. eapply wp_mono; [apply build_v1_loop_post; try done|].
  - apply Forall_forall. intros e He. unfold ordered in He. rewrite sort_by_perm in He.
    apply elem_of_btree_values in He as [k He]. by rewrite (we_key _ _ _ (ws_entries _ _ Hs _ _ He)).
  - pose proof (wc_batch_bytes _ Hc). pose proof (wc_batch_records _ Hc). unfold within_v1. cbn. lia.
  - intros [records|e] w' Hout; [|done]. do 2 sp_step. do 2 sp_step; [done|]. sp_step. intros batch [= <-].
    match goal with H : _ || _ = false |- _ => rewrite orb_false_iff, !negb_false_iff, !map_is_empty_true in H;
      destruct H as [Hg Hcn] end.
    cbn [b1_batch_id b1_records]. destruct Hout as [|[(_ & _ & Hst) Hsel]]; [done|]. rewrite Hst. by rewrite Hst in *.
Qed.

Lemma selected_v1_genuine c ordered records :
  selected_v1 c ordered [] 0 records ->
  Forall (fun r => validate (br1_envelope r) = Ok tt /\ record_id (br1_envelope r) = br1_record_id r) records.
Proof.
  intros (taken & rest & items & _ & Hf & -> & _). cbn. apply Forall_forall. intros r Hr.
  apply list_elem_of_lookup in Hr as [k Hk]. destruct (Forall2_lookup_r _ _ _ _ _ Hf Hk) as (e & _ & st & Hck & Hid & _ & Henv).
  destruct Hck as (Hv & Hrid & Hsid & _). destruct (valid_stored_v2 _ _ Hv Hsid) as (? & ? & _).
  rewrite Henv. split; congruence.
Qed.

(** C32: a version-1 batch is only returned while no gap notice and no counted
    expiry is pending.  It then lists the pending records from the oldest
    admission on, within the record and byte limits, each with an envelope
    that validates and hashes to its identifier; it is empty only when nothing
    is pending. *)
Theorem batch_v1_correct now w batch :
  wf w -> (next_batch now w).1 = Ok batch ->
  let s := in_state (next_batch now w).2 in
  gaps s = ∅ /\ counted_pending_expirations s = ∅ /\
  b1_batch_id batch = batch_id (b1_records batch) /\
  Forall (fun r => validate (br1_envelope r) = Ok tt /\ record_id (br1_envelope r) = br1_record_id r)
    (b1_records batch) /\
  selected_v1 (in_config w) (sort_by entry_v1_leb (btree_values (entries s))) [] 0 (b1_records batch).
Proof.
  intros Hwf. enough (wp (next_batch now) (fun r w' => r = Ok batch ->
    gaps (in_state w') = ∅ /\ counted_pending_expirations (in_state w') = ∅ /\
    b1_batch_id batch = batch_id (b1_records batch) /\
    selected_v1 (in_config w) (sort_by entry_v1_leb (btree_values (entries (in_state w')))) [] 0
      (b1_records batch)) w) as H.
  { intros Hr s. destruct (H Hr) as (? & ? & ? & ?). split_and!; try done. by eapply selected_v1_genuine. }
  unfold next_batch. sp_step. eapply wp_mono; [apply (wp_ok _ _ w (expire_due_ok now) Hwf)|].
  intros [n|e] w1 Hd; [|done]. do 2 sp_step. do 2 sp_step; [done|]. do 2 sp_step; [done|].
  destruct (does_config _ _ _ Hd) as [Hcfg _]. pose proof (wf_does _ _ _ Hd Hwf) as Hwf1.
  eapply wp_mono; [by apply build_batch_post|]. intros r w2 Hpost ->. rewrite <-Hcfg. by apply Hpost.
Qed.

End V1.
