(* ===== verification/SpoolPick.v ===== *)
(** * The batch as a function of state and files

    On a durable spool nothing can be found damaged, so [build_batch_v2] only
    reads.  [pure_batch] is what it computes, without storage, retries or
    quarantine: the method returns it and leaves the spool as it was, or fails
    to read.  Two calls in a row, as the hub's fetch and the rebuild inside its
    acknowledgement, therefore see the same batch. *)

From S2P Require Import Prelude Protocol Crypto Fs SpoolTypes SpoolFacts SpoolBase SpoolOps SpoolErrors.
From S2P Require Import SpoolFrame SpoolInv SpoolSpec SpoolRefine SpoolRefineOps SpoolDelivery.

Section Pick.
Context {X : SpoolEnv}.

(** ** The reference *)

(** What the file of an entry says. *)
Definition stored_of (key : bytes) (d : gmap SpoolPath Node) (e : Entry) : option StoredRecord :=
  match d !! en_path e with
  | Some (File sealed) => match decrypt key sealed with Ok plaintext => from_slice plaintext | Err _ => None end
  | _ => None
  end.

Definition item_of (counted : gmap Z RecordId) (stored : Entry -> option StoredRecord)
    (candidate : BatchCandidateV2) : option BatchItemV2 :=
  match candidate with
  | CandGap g => Some (ItemGap g)
  | CandRecord e =>
      if bool_decide (is_Some (counted !! en_spool_seq e))
      then Some (ItemGap (gap_notice e (en_expires_at_ms e) RetentionExpired))
      else match stored e with
           | None => None
           | Some st => Some (ItemRecord {|
               br2_record_id := en_stable_record_id e; br2_legacy_record_id := en_record_id e;
               br2_spool_seq := en_spool_seq e; br2_received_at_ms := sr_admitted_at_ms st;
               br2_envelope := sr_envelope st |})
           end
  end.

(** The candidates in order, until a limit is reached. *)
Fixpoint pick (c : SpoolConfig) (counted : gmap Z RecordId) (stored : Entry -> option StoredRecord)
    (candidates : list BatchCandidateV2) (records : list HubBatchRecordV2) (gaps : list GapNoticeV2) (body : Z)
    : option (list HubBatchRecordV2 * list GapNoticeV2) :=
  match candidates with
  | [] => Some (records, gaps)
  | candidate :: candidates' =>
      if batch_max_records c <=? u64_saturating_add (Z.of_nat (length records)) (Z.of_nat (length gaps))
      then Some (records, gaps)
      else
        match item_of counted stored candidate with
        | None => None
        | Some item =>
            if match item with
               | ItemRecord _ => 256 <=? Z.of_nat (length records)
               | ItemGap _ => 256 <=? Z.of_nat (length gaps)
               end
            then Some (records, gaps)
            else
              match item_to_vec item with
              | None => None
              | Some encoded =>
                  if (negb (is_empty records) || negb (is_empty gaps))
                     && (batch_max_bytes c <? u64_saturating_add body (len encoded))
                  then Some (records, gaps)
                  else if batch_max_bytes c <? len encoded then None
                  else pick c counted stored candidates' (records ++ item_records [item]) (gaps ++ item_gaps [item])
                         (u64_saturating_add body (len encoded))
              end
        end
  end.

Definition pure_batch (c : SpoolConfig) (key : bytes) (d : gmap SpoolPath Node) (s : State) : option HubBatchV2 :=
  if unresolved_integrity s || adjacent_duplicate (batch_candidates s) then None
  else match pick c (counted_pending_expirations s) (stored_of key d) (batch_candidates s) [] [] 0 with
       | None => None
       | Some (records, gaps) => Some {|
           b2_version := 2; b2_batch_id := batch_id_v2 records gaps; b2_records := records; b2_gaps := gaps |}
       end.

(** ** Reading changes nothing *)

Definition unread (w w' : Inner) : Prop := same_state w w' /\ in_disk w' = in_disk w.

Lemma unread_refl w : unread w w.
Proof. done. Qed.
Lemma unread_trans w w' w'' : unread w w' -> unread w' w'' -> unread w w''.
Proof. intros [H1 D1] [H2 D2]. split; [by eapply same_state_trans|congruence]. Qed.

Lemma touches_unread {A} (m : SpoolM A) w : touches (fun _ => False) m -> unread w (m w).2.
Proof. intros Hm. destruct (Hm w) as (Hst & _ & Hd). split; [done|]. apply map_eq. intros p. apply Hd. by intros []. Qed.

(** A readable record is read as what its file says, or the storage fails. *)
Lemma readable_reads e w :
  readable (in_key w) (in_disk w) e ->
  wp (read_entry e) (fun r w' => unread w w' /\
    match r with Ok st => stored_of (in_key w) (in_disk w) e = Some st | Err err => io_error err end) w.
Proof.
  intros Hr. split; [apply touches_unread, touches_read_entry|].
  destruct Hr as (st & (b & pl & Hb & Hlen & Hdec & Hparse) & Hv & Hid & Hsid & Hseq). unfold in_disk in Hb.
  enough (wp (read_entry e) (fun r _ =>
    match r with Ok st => stored_of (in_key w) (in_disk w) e = Some st | Err err => io_error err end) w) as H by exact H.
  assert (Hst : stored_of (in_key w) (in_disk w) e = Some st)
    by (unfold stored_of, in_disk; by rewrite Hb, Hdec).
  unfold read_entry, check_record_size. do 2 sp_step. apply wp_lift, wp_sys_catch, wp_query. intros r [->|[code ->]].
  2:{ sp_step. apply map_io_error_io. }
  cbn. rewrite Hb. cbn [node_len]. sp_step; [lia|]. unfold read_record. sp_step.
  apply wp_lift, wp_sys_catch, wp_query. intros r [->|[code ->]]; [|sp_step; apply map_io_error_io].
  cbn. rewrite Hb. sp_step. unfold wp at 1, decrypt_bytes. cbn. rewrite Hdec. cbn. do 2 sp_step; [|congruence].
  assert (a = st) as -> by congruence. do 2 sp_step; [|by sp_step].
  rewrite Hv, Hid, Hsid, Hseq in H1. by rewrite !bool_decide_false in H1 by (intros HH; by apply HH).
Qed.

Definition readable_candidate (w : Inner) (candidate : BatchCandidateV2) : Prop :=
  match candidate with CandRecord e => readable (in_key w) (in_disk w) e | CandGap _ => True end.

Lemma unread_candidate w w' candidate : unread w w' -> readable_candidate w candidate -> readable_candidate w' candidate.
Proof. destruct candidate; [|done]. intros [(_ & Hk & _) Hd]. cbn. by rewrite Hk, Hd. Qed.

Lemma io_not_invalid e : io_error e -> e <> InvalidAcknowledgement /\ e <> CorruptRecord.
Proof. by intros [->| ->]. Qed.

Lemma resolve_reads counted candidate w :
  readable_candidate w candidate ->
  wp (resolve_candidate counted candidate) (fun r w' => unread w w' /\
    match r with
    | Ok o => exists item, o = Some item /\
        item_of counted (stored_of (in_key w) (in_disk w)) candidate = Some item
    | Err e => e <> InvalidAcknowledgement
    end) w.
Proof.
  intros Hr. destruct candidate as [e|g]; cbn [resolve_candidate item_of readable_candidate] in *;
    [|sp_step; split; [apply unread_refl|by eexists]].
  case_bool_decide as Hcnt; sp_step; [|sp_step]; (eapply wp_mono; [by apply readable_reads|]);
    intros [st|err] w1 [Hu Hst]; cbn beta iota.
  - sp_step. split; [done|by eexists].
  - split; [done|by apply io_not_invalid].
  - sp_step. split; [done|]. rewrite Hst. by eexists.
  - apply io_not_invalid in Hst as [Hi Hc]. destruct err; try done; sp_step; (split; [exact Hu|done]).
Qed.

Lemma loop_reads c counted candidates records gaps body q w :
  Forall (readable_candidate w) candidates ->
  wp (build_v2_loop c counted candidates records gaps body q) (fun r w' => unread w w' /\
    match r with
    | Ok (records', gaps', q') => q' = q /\
        pick c counted (stored_of (in_key w) (in_disk w)) candidates records gaps body = Some (records', gaps')
    | Err e => e <> InvalidAcknowledgement
    end) w.
Proof.
  revert records gaps body w. induction candidates as [|candidate candidates IH]; intros records gaps body w Hall;
    cbn [build_v2_loop pick]; [by sp_step|].
  apply Forall_cons in Hall as [Hc Hall]. destruct (_ <=? _); [by sp_step|].
  sp_step. eapply wp_mono; [by apply resolve_reads|]. intros [o|e] w1 [Hu Ho]; [|done].
  destruct Ho as (item & -> & ->). destruct (match item with ItemRecord _ => _ | ItemGap _ => _ end); [by sp_step|].
  do 2 sp_step; [|by split]. rewrite H. destruct (_ && _); [by sp_step|]. do 2 sp_step; [by split|]. rewrite H0.
  assert (Hall1 : Forall (readable_candidate w1) candidates)
    by (eapply Forall_impl; [exact Hall|]; intros x; by apply unread_candidate).
  destruct Hu as [(Hcf & Hk & Hs) Hd].
  assert (Hnext : wp (build_v2_loop c counted candidates (records ++ item_records [item]) (gaps ++ item_gaps [item])
                        (u64_saturating_add body (len a)) q) (fun r w' => unread w w' /\
    match r with
    | Ok (records', gaps', q') => q' = q /\
        pick c counted (stored_of (in_key w) (in_disk w)) candidates (records ++ item_records [item])
          (gaps ++ item_gaps [item]) (u64_saturating_add body (len a)) = Some (records', gaps')
    | Err e => e <> InvalidAcknowledgement
    end) w1).
  { eapply wp_mono; [by apply IH|]. intros r w2 [Hu2 Hr]. rewrite Hk, Hd in Hr.
    split; [by eapply (unread_trans w w1)|exact Hr]. }
  destruct item; cbn [item_records item_gaps omap list_omap] in Hnext |- *; by rewrite ?app_nil_r in Hnext |- *.
Qed.

(** ** On a durable spool *)

Context {SL : SpoolLaws}.

Lemma candidates_readable w :
  durable w -> wf w -> adjacent_duplicate (batch_candidates (in_state w)) = false ->
  Forall (readable_candidate w) (batch_candidates (in_state w)).
Proof.
  intros Hdu Hwf Hdup%candidates_strict. apply Forall_forall. intros [e|g] Hin; [|done]. cbn.
  pose proof Hin as [r He]%elem_of_candidates.
  assert (Hnq : ~ quarantined (in_state w) (en_spool_seq e)).
  { intros (n & g & Hg & Hq & _). assert (CandGap (ge_notice g) = CandRecord e); [|done].
    eapply strict_inj; [exact Hdup| |exact Hin|exact Hq]. apply elem_of_candidates. eauto. }
  destruct (du_entries _ Hdu _ _ He Hnq) as (st & Hh & Hm). exists st. split; [done|].
  unfold stored_matches in Hm. tauto.
Qed.

(** Building on a durable spool only reads. *)
Lemma build_reads w :
  wf w -> durable w ->
  wp build_batch_v2 (fun r w' => unread w w' /\
    match r with
    | Ok batch => pure_batch (in_config w) (in_key w) (in_disk w) (in_state w) = Some batch
    | Err e => e <> InvalidAcknowledgement
    end) w.
Proof.
  intros Hwf Hdu. unfold build_batch_v2, pure_batch. do 2 sp_step. cbn [build_batch_v2_fuel]. sp_step.
  unfold build_v2_pass. do 2 sp_step. do 2 sp_step; [by split|]. do 2 sp_step; [by split|]. do 2 sp_step.
  rewrite H, H0. cbn [orb].
  eapply wp_mono; [by apply loop_reads, candidates_readable|].
  intros [[[records gaps] q]|e] w1 [Hu Hr]; [|done]. destruct Hr as [-> ->]. by sp_step.
Qed.

(** C11: on a durable spool building a batch is reading: the method returns the
    batch [pure_batch] computes from the state and the files, or an error, and
    in both cases state and files are as before. *)
Theorem build_batch_v2_pure w :
  wf w -> durable w ->
  let r := (build_batch_v2 w).1 in
  let w' := (build_batch_v2 w).2 in
  in_state w' = in_state w /\ in_disk w' = in_disk w /\
  match r with
  | Ok batch => pure_batch (in_config w) (in_key w) (in_disk w) (in_state w) = Some batch
  | Err e => e <> InvalidAcknowledgement
  end.
Proof. intros Hwf Hdu. by destruct (build_reads w Hwf Hdu) as (((_ & _ & Hs) & Hd) & Hr). Qed.

End Pick.
