(* ===== verification/SpoolSystem.v ===== *)
(** * The spool as a system

    The public methods as commands, run one after another from any
    well-formed spool under any storage faults: the invariant holds, whatever
    is tracked stays readable, and an admitted sequence number is answered for
    until an acknowledgement that names it has put its receipt on record. *)

From S2P Require Import Prelude Protocol Crypto Fs SpoolTypes SpoolFacts SpoolBase SpoolOps.
From S2P Require Import SpoolFrame SpoolInv SpoolSpec SpoolRefine SpoolRefineOps SpoolDelivery SpoolReceipts.

Inductive Cmd :=
| CEnqueue (envelope : ReceiverEnvelope) (admitted_at_ms : Z)
| CExpireDue (now_ms : Z)
| CNextBatch (now_ms : Z)
| CNextBatchV2 (now_ms : Z)
| CAcknowledge (ack : HubAckV1)
| CAcknowledgeV2 (ack : HubAckV2)
| CSync.

(** Timestamps are [i64]. *)
Definition cmd_ok (cmd : Cmd) : Prop :=
  match cmd with CEnqueue _ now => in_i64 now | _ => True end.

Section System.
Context {X : SpoolEnv}.

Definition exec (cmd : Cmd) (w : Inner) : Inner :=
  match cmd with
  | CEnqueue envelope now => (enqueue envelope now w).2
  | CExpireDue now => (expire_due now w).2
  | CNextBatch now => (next_batch now w).2
  | CNextBatchV2 now => (next_batch_v2 now w).2
  | CAcknowledge ack => (acknowledge ack w).2
  | CAcknowledgeV2 ack => (acknowledge_v2 ack w).2
  | CSync => (sync w).2
  end.

Definition run (cmds : list Cmd) (w : Inner) : Inner := foldl (fun w cmd => exec cmd w) w cmds.

(** Acknowledgements name what they accept: a record that is pending under
    [seq] by its identifier, or a gap notice of [seq] by the notice's.  Version
    1 knows no gap notices. *)
Definition names (cmd : Cmd) (s : State) (seq : Z) : Prop :=
  match cmd with
  | CAcknowledge ack =>
      exists k e, entries s !! k = Some e /\ en_spool_seq e = seq /\ en_record_id e ∈ a1_accepted_record_ids ack
  | CAcknowledgeV2 ack =>
      (exists k e, entries s !! k = Some e /\ en_spool_seq e = seq /\
         en_stable_record_id e ∈ a2_accepted_record_ids ack) \/
      (exists reason ev, gap_notice_id seq reason ev ∈ a2_accepted_gap_notice_ids ack)
  | _ => False
  end.

(** [r] is the receipt the acknowledgement draws up when it is first accepted. *)
Definition issued (cmd : Cmd) (r : AckReceipt) : Prop :=
  match cmd with
  | CAcknowledge ack => issued_v1 ack r
  | CAcknowledgeV2 ack => issued_v2 ack r
  | _ => False
  end.

(** The acknowledgement repeats [r]: the same batch, the same identifiers. *)
Definition repeats (cmd : Cmd) (r : AckReceipt) : Prop :=
  match cmd with
  | CAcknowledge ack => receipt_for_v1 ack r
  | CAcknowledgeV2 ack => receipt_for ack r
  | _ => False
  end.

(** Executed from [w], the command records the receipt [r] it draws up: [r]
    repeats the acknowledgement, every record it accepts is pending in [w] and
    named by the acknowledgement, and [r] is on record afterwards. *)
Definition records (cmd : Cmd) (w : Inner) (r : AckReceipt) : Prop :=
  issued cmd r /\ accepts_pending (in_state w) r /\ committed (in_state (exec cmd w)) r.

(** The receipts under which the command may delete. *)
Definition entitled (cmd : Cmd) (w : Inner) (r : AckReceipt) : Prop :=
  repeats cmd r /\ (committed (in_state w) r \/ records cmd w r).

(** The events a command may perform. *)
Definition cmd_events (cmd : Cmd) (ev : Event) : Prop :=
  match cmd with
  | CEnqueue _ _ => admit_events ev
  | CExpireDue _ => expire_events ev
  | CNextBatch _ | CNextBatchV2 _ => expire_events ev \/ quarantine_events ev
  | CAcknowledge ack => ack_events (receipt_for_v1 ack) (issued_v1 ack) ev
  | CAcknowledgeV2 ack => ack_events (receipt_for ack) (issued_v2 ack) ev
  | CSync => ev = Quiet
  end.

(** The receipts an event puts on disk satisfy [P]. *)
Definition authorised (P : AckReceipt -> Prop) (ev : Event) : Prop :=
  match ev with Commit re | LostCommit re => P (re_receipt re) | _ => True end.

(** What the events of one execution, from [w], are entitled to. *)
Definition exec_events (cmd : Cmd) (w : Inner) (ev : Event) : Prop :=
  cmd_events cmd ev /\ (forall r, ack_event r ev -> entitled cmd w r) /\
  authorised (fun r => issued cmd r /\ accepts_pending (in_state w) r) ev.

Lemma no_ack_exec cmd w ev :
  cmd_events cmd ev -> (forall r, ~ ack_event r ev) -> (forall P, authorised P ev) -> exec_events cmd w ev.
Proof. intros Hev Hr Ha. split_and!; [done| |apply Ha]. by intros r ?%Hr. Qed.

Lemma accepts_names cmd s r seq : issued cmd r -> accepts s r seq -> names cmd s seq.
Proof.
  intros Hi [(k & e & He & Hq & Ha)|(reason & ev & Hn)]; destruct cmd; cbn in *; try done.
  - destruct Hi as (_ & _ & _ & _ & _ & Hi). exists k, e. split_and!; [done..|]. by apply (Hi _ Ha).
  - destruct Hi as (_ & _ & _ & _ & _ & Hi). left. exists k, e. split_and!; [done..|]. by apply (Hi _ Ha).
  - destruct Hi as (_ & _ & _ & _ & Hg & _). rewrite Hg in Hn. by apply not_elem_of_nil in Hn.
  - destruct Hi as (_ & _ & _ & _ & Hg & _). right. exists reason, ev. by rewrite <-Hg.
Qed.

Context {SL : SpoolLaws}.

Lemma next_batch_ok now : ok (fun ev => expire_events ev \/ quarantine_events ev) (next_batch now).
Proof.
  unfold next_batch. apply ok_bind; [eapply ok_mono; [|apply expire_due_ok]; by left|intros _].
  apply ok_bind; [apply ok_scratch; [by left|eauto with touches]|intros s].
  do 2 (apply ok_bind; [apply ok_scratch; [by left|eauto with touches]|intros _]).
  eapply ok_mono; [|apply build_batch_ok]. by right.
Qed.

Lemma next_batch_v2_ok now : ok (fun ev => expire_events ev \/ quarantine_events ev) (next_batch_v2 now).
Proof.
  unfold next_batch_v2. apply ok_bind; [eapply ok_mono; [|apply expire_due_ok]; by left|intros _].
  intros w Hwf. eapply does_mono; [|apply (build_batch_v2_ok w Hwf)]. by right.
Qed.

Lemma sync_ok : ok (fun ev => ev = Quiet) sync.
Proof. apply ok_scratch; [done|]. unfold sync. touches_tac. Qed.

Lemma exec_does cmd w : wf w -> cmd_ok cmd -> does (exec_events cmd w) w (exec cmd w).
Proof.
  intros Hwf Hcmd. destruct cmd; cbn [exec].
  - eapply does_mono; [|by apply (proj1 (enqueue_ok envelope admitted_at_ms w Hwf Hcmd))].
    intros ev Hev. apply no_ack_exec; [done|by destruct ev; intros ? []|by destruct ev].
  - eapply does_mono; [|by apply expire_due_ok]. intros ev Hev. apply no_ack_exec; [done|by destruct ev; intros ? []|by destruct ev].
  - eapply does_mono; [|by apply next_batch_ok].
    intros ev Hev. apply no_ack_exec; [done|by destruct Hev, ev; intros ? []|by destruct Hev, ev].
  - eapply does_mono; [|by apply next_batch_v2_ok].
    intros ev Hev. apply no_ack_exec; [done|by destruct Hev, ev; intros ? []|by destruct Hev, ev].
  - eapply does_mono; [|by apply (acknowledge_ok ack w Hwf)]. intros ev Hev. split_and!.
    + revert Hev. apply ack_events_mono; [by intros r []|by intros r []].
    + intros r Hr. destruct ev; try done; cbn in Hr, Hev; subst; destruct Hev as [? [?|(? & ? & ?)]];
        (split; [done|]); [by left|by right|by left|by right].
    + by destruct ev.
  - eapply does_mono; [|by apply (acknowledge_v2_ok ack w Hwf)]. intros ev Hev. split_and!.
    + revert Hev. apply ack_events_mono; [by intros r []|by intros r []].
    + intros r Hr. destruct ev; try done; cbn in Hr, Hev; subst; destruct Hev as [? [?|(? & ? & ?)]];
        (split; [done|]); [by left|by right|by left|by right].
    + by destruct ev.
  - eapply does_mono; [|by apply sync_ok]. intros ev ->. apply no_ack_exec; [done|by intros ? []|done].
Qed.

Lemma exec_ok cmd w : wf w -> cmd_ok cmd -> does (cmd_events cmd) w (exec cmd w).
Proof. intros Hwf Hok. eapply does_mono; [|by apply exec_does]. by intros ev []. Qed.

(** What one execution loses it loses under a receipt it is entitled to. *)
Lemma exec_keeps cmd w seq :
  wf w -> cmd_ok cmd -> live (in_state w) seq ->
  live (in_state (exec cmd w)) seq \/
  exists r, entitled cmd w r /\ named r /\ accepts (in_state w) r seq.
Proof.
  intros Hwf Hok Hl. destruct (live_does _ _ _ _ (exec_does cmd w Hwf Hok) Hwf Hl)
    as [?|(r & ev & (_ & Hent & _) & Hack & Hn & Ha)]; [by left|right]. exists r. split_and!; [by apply Hent|done..].
Qed.

(** A receipt on record was there before, or the command recorded it. *)
Lemma exec_committed cmd w r :
  wf w -> cmd_ok cmd -> committed (in_state (exec cmd w)) r -> committed (in_state w) r \/ records cmd w r.
Proof.
  intros Hwf Hok Hc. destruct (committed_does _ _ _ _ (exec_does cmd w Hwf Hok) Hc)
    as [?|(re & (_ & _ & [Hi Hp]) & <-)]; [by left|by right].
Qed.

(** One induction for every invariant of the event system. *)
Lemma run_ind (P : Inner -> Prop) cmds w :
  (forall L w w', does L w w' -> wf w -> P w -> P w') ->
  Forall cmd_ok cmds -> wf w -> P w -> wf (run cmds w) /\ P (run cmds w).
Proof.
  intros HP. revert w. induction cmds as [|cmd cmds IH]; intros w Hcmds Hwf Hw; [done|].
  apply Forall_cons in Hcmds as [Hcmd Hcmds]. pose proof (exec_ok cmd w Hwf Hcmd) as Hd.
  apply IH; [done|by eapply wf_does|by eapply HP].
Qed.

(** C17: whatever commands run and whatever storage faults occur, the spool stays
    well formed: indices and counters agree, byte and record budgets hold,
    sequence numbers are unique and never reused. *)
Theorem run_wf cmds w : Forall cmd_ok cmds -> wf w -> wf (run cmds w).
Proof. intros Hc Hwf. by apply (run_ind (fun _ => True)). Qed.

(** C6: whatever commands run and whatever storage faults occur, every pending
    record, gap notice and receipt the spool tracks can be read back from its
    file: it decrypts under the spool's key and parses to what was stored. *)
Theorem run_durable cmds w : Forall cmd_ok cmds -> wf w -> durable w -> durable (run cmds w).
Proof. intros Hc Hwf Hd. apply (run_ind durable); try done. intros L w1 w2. apply durable_does. Qed.

(** C3: an admitted sequence number is never lost silently: after any commands,
    under any storage faults, it is still pending as a record or as a gap
    notice, or a receipt that was on record before the commands accepts it, or
    one of the commands was an acknowledgement that names it -- the pending
    record by its identifier, or its gap notice -- and that put on record the
    receipt accepting it, which repeats the acknowledgement.  A refused
    acknowledgement, or one that names other records, excuses nothing. *)
Theorem no_silent_loss cmds w seq :
  Forall cmd_ok cmds -> wf w -> live (in_state w) seq ->
  live (in_state (run cmds w)) seq \/
  (exists r, committed (in_state w) r /\ accepts (in_state w) r seq) \/
  exists before cmd after r, cmds = before ++ cmd :: after /\
    names cmd (in_state w) seq /\ accepts (in_state w) r seq /\ records cmd (run before w) r.
Proof.
  intros Hcmds Hwf Hl. set (origin cmds r := committed (in_state w) r \/
    exists before cmd after, cmds = before ++ cmd :: after /\ records cmd (run before w) r).
  enough (wf (run cmds w) /\ (forall r, committed (in_state (run cmds w)) r -> origin cmds r) /\
    ((live (in_state (run cmds w)) seq /\ forall r, accepts (in_state (run cmds w)) r seq -> accepts (in_state w) r seq) \/
     exists r, origin cmds r /\ accepts (in_state w) r seq)) as (_ & _ & [[? _]|(r & [?|Ho] & Ha)]).
  { by left. } { right; left; by exists r. }
  { right; right. destruct Ho as (before & cmd & after & Ec & Hrec). exists before, cmd, after, r. split_and!; try done.
    destruct Hrec as (Hi & _). by eapply accepts_names. }
  induction cmds as [|cmd cmds IH] using rev_ind; [split_and!; [done|by left|by left]|].
  apply Forall_app in Hcmds as [Hcmds [Hcmd _]%Forall_cons]. destruct (IH Hcmds) as (Hwf' & Hor & Hst).
  assert (Hmono : forall r, origin cmds r -> origin (cmds ++ [cmd]) r).
  { intros r [?|(b & c & a & -> & ?)]; [by left|right]. exists b, c, (a ++ [cmd]). by rewrite <-app_assoc. }
  assert (Hnew : forall r, records cmd (run cmds w) r -> origin (cmds ++ [cmd]) r) by (intros r ?; right; by exists cmds, cmd, []).
  assert (Erun : run (cmds ++ [cmd]) w = exec cmd (run cmds w)) by (unfold run; by rewrite foldl_app). rewrite Erun.
  split_and!; [eapply wf_does; [by apply exec_ok|done]| |].
  - intros r [?|?]%exec_committed; auto.
  - destruct Hst as [[Hlive Hacc]|(r & ? & ?)]; [|right; exists r; auto].
    destruct (exec_keeps cmd _ seq Hwf' Hcmd Hlive) as [Hl'|(r & (_ & Hent) & _ & Ha)]; [left|right].
    + split; [done|]. intros r Hr. apply Hacc. eapply accepts_does; [by apply exec_ok|done..].
    + exists r. split; [|auto]. destruct Hent; auto.
Qed.

End System.
