(* ===== verification/Ledger.v ===== *)
(** * The life cycle of a sequence number

    What a client of the spool sees, forgetting files, indices and counters:
    every sequence number is unborn, then pending as a record, possibly then
    missing (a gap notice stands for it), and finally settled by an
    acknowledgement.  The spool refines this machine: whatever a command does,
    under any storage faults, it moves each sequence number along the edges of
    [turn], and only along those the command is entitled to. *)

From S2P Require Import Prelude Protocol Crypto Fs SpoolTypes SpoolFacts SpoolBase SpoolOps.
From S2P Require Import SpoolFrame SpoolInv SpoolSpec SpoolRefine SpoolRefineOps SpoolDelivery SpoolReceipts SpoolSystem.

Inductive Standing :=
| Unborn
| Pending
| Missing (reason : GapReasonV2)
| Settled.

(** Where the state has the sequence number. *)
Definition standing (s : State) (seq : Z) : Standing :=
  match List.find (gap_at seq) (btree_values (gaps s)) with
  | Some g => Missing (gn_reason (ge_notice g))
  | None =>
      if btree_any (fun e => en_spool_seq e =? seq) (entries s) then Pending
      else if seq <? next_spool_sequence s then Settled else Unborn
  end.

Section Machine.
Context {X : SpoolEnv}.

Definition may_expire (cmd : Cmd) : Prop :=
  match cmd with CExpireDue _ | CNextBatch _ | CNextBatchV2 _ => True | _ => False end.
Definition may_quarantine (cmd : Cmd) : Prop :=
  match cmd with CNextBatch _ | CNextBatchV2 _ | CAcknowledge _ | CAcknowledgeV2 _ => True | _ => False end.
(** Executed from [w], the command is an acknowledgement repeated by a receipt
    that accepts the sequence number, and the receipt was on record already, or
    the acknowledgement names the sequence number and puts it on record. *)
Definition settles (cmd : Cmd) (w : Inner) (seq : Z) : Prop :=
  exists r, repeats cmd r /\ accepts (in_state w) r seq /\
    (committed (in_state w) r \/ (names cmd (in_state w) seq /\ records cmd w r)).

(** One edge, of a command executed from [w].  An expired record whose file could not be removed may be
    pending again after its gap notice was accepted ([turn_return]): it will
    expire, and be delivered as a gap, once more. *)
Inductive turn (cmd : Cmd) (w : Inner) (seq : Z) : Standing -> Standing -> Prop :=
| turn_admit envelope now : cmd = CEnqueue envelope now -> turn cmd w seq Unborn Pending
| turn_expire : may_expire cmd -> turn cmd w seq Pending (Missing RetentionExpired)
| turn_quarantine : may_quarantine cmd -> turn cmd w seq Pending (Missing IntegrityQuarantine)
| turn_settle_record : settles cmd w seq -> turn cmd w seq Pending Settled
| turn_settle_gap reason : settles cmd w seq -> turn cmd w seq (Missing reason) Settled
| turn_return : settles cmd w seq -> turn cmd w seq (Missing RetentionExpired) Pending.

(** ** Reading a standing off the state *)

Definition gap_free (s : State) (seq : Z) : Prop :=
  forall n g, gaps s !! n = Some g -> gn_spool_seq (ge_notice g) <> seq.
Definition record_free (s : State) (seq : Z) : Prop :=
  forall r e, entries s !! r = Some e -> en_spool_seq e <> seq.

Lemma find_gap_None s seq : List.find (gap_at seq) (btree_values (gaps s)) = None <-> gap_free s seq.
Proof.
  split.
  - intros Hf n g Hg. pose proof (List.find_none _ _ Hf g) as Hx. unfold gap_at in Hx. intros E.
    rewrite E, Z.eqb_refl in Hx. discriminate Hx. apply list_elem_of_In, elem_of_btree_values. by exists n.
  - intros Hf. destruct (List.find _ _) as [g|] eqn:E; [|done]. apply List.find_some in E as [Hin Hg].
    apply list_elem_of_In, elem_of_btree_values in Hin as [n Hn]. unfold gap_at in Hg. destruct (Hf n g Hn). lia.
Qed.

Lemma standing_missing c s seq n g :
  wf_state c s -> gaps s !! n = Some g -> gn_spool_seq (ge_notice g) = seq ->
  standing s seq = Missing (gn_reason (ge_notice g)).
Proof.
  intros Hs Hg Hq. unfold standing. destruct (List.find _ _) as [g'|] eqn:E.
  - apply List.find_some in E as [Hin Hg']. apply list_elem_of_In, elem_of_btree_values in Hin as [n' Hn'].
    unfold gap_at in Hg'. assert (n' = n) as -> by (eapply (ws_gaps_seq _ _ Hs); [done..|lia]). congruence.
  - apply find_gap_None in E. by destruct (E n g Hg).
Qed.
Lemma standing_free s seq : gap_free s seq ->
  standing s seq = if btree_any (fun e => en_spool_seq e =? seq) (entries s) then Pending
                   else if seq <? next_spool_sequence s then Settled else Unborn.
Proof. intros Hf%find_gap_None. unfold standing. by rewrite Hf. Qed.
Lemma standing_pending s seq r e :
  gap_free s seq -> entries s !! r = Some e -> en_spool_seq e = seq -> standing s seq = Pending.
Proof.
  intros Hf He <-. rewrite standing_free by done. by rewrite (proj2 (btree_any_true _ _)) by (exists r, e; split; [done|lia]).
Qed.
Lemma standing_none s seq :
  gap_free s seq -> record_free s seq ->
  standing s seq = if seq <? next_spool_sequence s then Settled else Unborn.
Proof.
  intros Hf Hr. rewrite standing_free by done. rewrite (proj2 (btree_any_false _ _)); [done|].
  intros r e He. specialize (Hr r e He). lia.
Qed.

(** A state that differs elsewhere, or not in what a standing depends on. *)
Lemma standing_same s s' seq :
  gaps s' = gaps s -> entries s' = entries s -> next_spool_sequence s' = next_spool_sequence s ->
  standing s' seq = standing s seq.
Proof. unfold standing. by intros -> -> ->. Qed.

Lemma gap_free_dec s seq : gap_free s seq \/ exists n g, gaps s !! n = Some g /\ gn_spool_seq (ge_notice g) = seq.
Proof.
  destruct (List.find (gap_at seq) (btree_values (gaps s))) as [g|] eqn:E; [right|left; by apply find_gap_None].
  apply List.find_some in E as [Hin Hg]. apply list_elem_of_In, elem_of_btree_values in Hin as [n Hn].
  exists n, g. unfold gap_at in Hg. split; [done|lia].
Qed.
Lemma record_free_dec s seq : record_free s seq \/ exists r e, entries s !! r = Some e /\ en_spool_seq e = seq.
Proof.
  destruct (btree_any (fun e => en_spool_seq e =? seq) (entries s)) eqn:E; [right|left].
  - apply btree_any_true in E as (r & e & He & Hq). exists r, e. split; [done|lia].
  - rewrite btree_any_false in E. intros r e He. specialize (E r e He). lia.
Qed.

(** ** Every event is an edge, or none *)

(** While an acknowledgement runs, nothing is admitted. *)
Definition shrinks (cmd : Cmd) (w0 w : Inner) : Prop :=
  forall r, repeats cmd r -> entries (in_state w) ⊆ entries (in_state w0).

Lemma shrinks_step cmd w0 ev w w' : cmd_events cmd ev -> step ev w w' -> shrinks cmd w0 w -> shrinks cmd w0 w'.
Proof.
  intros Hev Hst Hsh r Hr. specialize (Hsh r Hr). apply map_subseteq_spec. intros k e He.
  destruct (entries_step _ _ _ _ _ Hst He) as [?| ->]; [by eapply lookup_weaken|]. by destruct cmd.
Qed.

Lemma event_settles cmd ev w0 w r seq :
  exec_events cmd w0 ev -> ack_event r ev -> shrinks cmd w0 w -> accepts (in_state w) r seq -> settles cmd w0 seq.
Proof.
  intros (_ & Hent & _) Hack Hsh Ha. destruct (Hent r Hack) as [Hr Hor]. exists r.
  assert (Ha0 : accepts (in_state w0) r seq).
  { destruct Ha as [(k & e & He & ?)|?]; [left|by right]. exists k, e. split; [|done]. eapply lookup_weaken; [done|by eapply Hsh]. }
  split_and!; [done|done|]. destruct Hor as [?|Hrec]; [by left|right]. split; [|done].
  destruct Hrec as (Hi & _). by eapply accepts_names.
Qed.

Lemma record_gap_turn cmd w0 g s seq c :
  wf_state c s -> cmd_events cmd (RecordGap g) -> enabled c s (RecordGap g) ->
  wf_state c (effect (RecordGap g) s) ->
  standing (effect (RecordGap g) s) seq = standing s seq \/
  turn cmd w0 seq (standing s seq) (standing (effect (RecordGap g) s) seq).
Proof.
  intros Hs Hcmd (Hfresh & Hfree & _ & (e & He & Hq) & _) Hs'.
  set (s' := effect _ s) in *. assert (Hg : gaps s' !! gn_notice_id (ge_notice g) = Some
    {| ge_notice := ge_notice g; ge_encrypted_bytes := ge_encrypted_bytes g; ge_path := ge_path g |})
    by (unfold s'; cbn; by rewrite lookup_insert_eq).
  destruct (decide (gn_spool_seq (ge_notice g) = seq)) as [<-|Hne].
  - right. rewrite (standing_missing _ _ (gn_spool_seq (ge_notice g)) _ _ Hs' Hg eq_refl), (standing_pending s _ _ e Hfree He Hq).
    cbn [ge_notice].
    destruct cmd; cbn in Hcmd; try done; try (destruct Hcmd as [->| ->]); try rewrite Hcmd; by constructor.
  - left. destruct (gap_free_dec s seq) as [Hf|(n & g' & Hg' & Hq')].
    + assert (Hf' : gap_free s' seq).
      { intros n g' Hg'. unfold s' in Hg'. cbn in Hg'. apply lookup_insert_Some in Hg' as [[_ <-]|[_ Hg']]; [done|by apply (Hf n)]. }
      by rewrite (standing_free s), (standing_free s') by done.
    + rewrite (standing_missing _ _ _ _ _ Hs Hg' Hq'). eapply standing_missing; [done| |done].
      unfold s'. cbn. rewrite lookup_insert_ne; [done|]. intros E. rewrite E in Hfresh. congruence.
Qed.

Lemma drop_entry_turn cmd w0 e s seq c :
  wf_state c s -> entries s !! en_record_id e = Some e -> wf_state c (drop_entry e s) ->
  (gap_free s (en_spool_seq e) -> settles cmd w0 (en_spool_seq e)) ->
  standing (drop_entry e s) seq = standing s seq \/
  turn cmd w0 seq (standing s seq) (standing (drop_entry e s) seq).
Proof.
  intros Hs He Hs' Hset.
  destruct (gap_free_dec s seq) as [Hf|(n & g & Hg & Hq)].
  2:{ left. by rewrite (standing_missing _ _ _ _ _ Hs Hg Hq), (standing_missing _ (drop_entry e s) _ _ _ Hs' Hg Hq). }
  assert (Hf' : gap_free (drop_entry e s) seq) by exact Hf.
  destruct (decide (en_spool_seq e = seq)) as [<-|Hne].
  - right. rewrite (standing_pending _ _ _ _ Hf He eq_refl), standing_none; [|done|].
    + destruct (ws_entries _ _ Hs _ _ He) as [_ Hseq _ _ _ _ _]. cbn [drop_entry next_spool_sequence set_pending_bytes set_stable_index set_entries].
      rewrite (proj2 (Z.ltb_lt _ _)) by lia. by apply turn_settle_record, Hset.
    + intros r e' He' E. cbn in He'. apply lookup_delete_Some in He' as [Hr He']. apply Hr. symmetry.
      by eapply (ws_entries_seq _ _ Hs).
  - left. destruct (record_free_dec s seq) as [Hr|(r & e' & He' & Hq)].
    + rewrite !standing_none; try done. intros r e' He'. cbn in He'. apply lookup_delete_Some in He' as [_ He']. by eapply Hr.
    + rewrite (standing_pending _ _ _ _ Hf He' Hq). eapply standing_pending; [done| |exact Hq]. cbn.
      rewrite lookup_delete_ne; [exact He'|]. intros <-. congruence.
Qed.

Lemma drop_gap_turn `{!IdLaws} cmd w0 r g s seq c :
  wf_state c s -> enabled c s (DropGap r g) -> wf_state c (effect (DropGap r g) s) ->
  settles cmd w0 (gn_spool_seq (ge_notice g)) ->
  standing (effect (DropGap r g) s) seq = standing s seq \/
  turn cmd w0 seq (standing s seq) (standing (effect (DropGap r g) s) seq).
Proof.
  intros Hs (Hg & (re & Hre & <-) & Hin) Hs' Hset. set (s' := effect _ s) in *.
  assert (Hgaps : gaps s' = delete (gn_notice_id (ge_notice g)) (gaps s)) by done.
  destruct (decide (gn_spool_seq (ge_notice g) = seq)) as [<-|Hne].
  - right. rewrite (standing_missing _ _ _ _ _ Hs Hg eq_refl). set (seq := gn_spool_seq (ge_notice g)) in *.
    assert (Hf : gap_free s' seq).
    { intros n g' Hg' E. rewrite Hgaps in Hg'. apply lookup_delete_Some in Hg' as [Hn Hg']. apply Hn. symmetry.
      by eapply (ws_gaps_seq _ _ Hs). }
    destruct (ws_gaps _ _ Hs _ _ Hg) as [_ Hv Hb _ _]. pose proof (ws_next _ _ Hs) as Hnext.
    destruct (record_free_dec s seq) as [Hr|(r & e & He & Hq)].
    + rewrite (standing_none s') by done. change (next_spool_sequence s') with (next_spool_sequence s).
      rewrite (proj2 (Z.ltb_lt _ _)) by (unfold seq; lia). by apply turn_settle_gap.
    + rewrite (standing_pending s' _ r e) by done.
      destruct (gn_reason (ge_notice g)) eqn:Hrs; [by apply turn_return|exfalso].
      destruct (wr_notices _ _ _ (ws_receipts _ _ Hs _ _ Hre) _ Hin) as (q & reason & ev' & En & Hlt & Hgone).
      rewrite (valid_gap_notice_id _ Hv), Hrs in En. apply notice_id_binds in En as [<- <-]; [|unfold in_u64; lia..].
      by destruct (Hgone eq_refl r e He).
  - left. destruct (gap_free_dec s seq) as [Hf|(n & g' & Hg' & Hq)].
    + assert (Hf' : gap_free s' seq).
      { intros n g' Hg'. rewrite Hgaps in Hg'. apply lookup_delete_Some in Hg' as [_ Hg']. by apply (Hf n). }
      by rewrite (standing_free s), (standing_free s') by done.
    + rewrite (standing_missing _ _ _ _ _ Hs Hg' Hq). eapply standing_missing; [done| |done]. rewrite Hgaps.
      rewrite lookup_delete_ne; [done|]. intros <-. congruence.
Qed.

Lemma admit_turn cmd w0 e s seq c :
  wf_state c s -> cmd_events cmd (Admit e) -> enabled c s (Admit e) ->
  standing (effect (Admit e) s) seq = standing s seq \/
  turn cmd w0 seq (standing s seq) (standing (effect (Admit e) s) seq).
Proof.
  intros Hs Hcmd (Hfresh & _ & Hq & _). set (s' := effect _ s).
  assert (Hent : entries s' = <[en_record_id e := e]> (entries s)) by done.
  assert (Hnext : next_spool_sequence s' = next_spool_sequence s + 1) by done.
  destruct (gap_free_dec s seq) as [Hf|(n & g & Hg & Hgq)].
  2:{ left. unfold standing. change (gaps s') with (gaps s). destruct (List.find _ _) eqn:E; [done|].
      apply find_gap_None in E. by destruct (E n g Hg). }
  assert (Hf' : gap_free s' seq) by exact Hf.
  destruct (decide (seq = next_spool_sequence s)) as [->|Hne].
  - right. rewrite (standing_pending s' _ (en_record_id e) e) by (done || by rewrite Hent, lookup_insert_eq).
    rewrite (standing_none s), (proj2 (Z.ltb_ge _ _)); [|lia|done|].
    + destruct cmd; cbn in Hcmd; try done; try (by destruct Hcmd). by eapply turn_admit.
    + intros r e' He' E. destruct (ws_entries _ _ Hs _ _ He') as [_ Hlt _ _ _ _ _]. lia.
  - left. destruct (record_free_dec s seq) as [Hr|(r & e' & He' & Hq')].
    + rewrite (standing_none s), (standing_none s'); try done.
      * rewrite Hnext. destruct (Z.ltb_spec seq (next_spool_sequence s)), (Z.ltb_spec seq (next_spool_sequence s + 1)); (done || lia).
      * intros r e' He'. rewrite Hent in He'. apply lookup_insert_Some in He' as [[_ <-]|[_ He']]; [congruence|by eapply Hr].
    + rewrite (standing_pending s _ _ _ Hf He' Hq'). eapply standing_pending; [done| |exact Hq']. rewrite Hent.
      rewrite lookup_insert_ne; [exact He'|]. intros <-. congruence.
Qed.

Context {SL : SpoolLaws}.

Lemma step_turn cmd w0 ev w w' seq :
  step ev w w' -> wf w -> exec_events cmd w0 ev -> shrinks cmd w0 w ->
  standing (in_state w') seq = standing (in_state w) seq \/
  turn cmd w0 seq (standing (in_state w) seq) (standing (in_state w') seq).
Proof.
  intros Hst Hwf Hex Hsh. pose proof (wf_step _ _ _ Hst Hwf) as [_ Hs']. pose proof Hwf as [_ Hs].
  rewrite (st_config _ _ _ Hst) in Hs'. rewrite (st_effect _ _ _ Hst) in Hs' |- *.
  pose proof (st_enabled _ _ _ Hst) as Hen. pose proof (fun r seq Hr => event_settles cmd ev w0 w r seq Hex Hr Hsh) as Hset.
  destruct Hex as [Hcmd _]. destruct ev; try (left; by apply standing_same).
  - by eapply admit_turn.
  - by eapply record_gap_turn.
  - destruct Hen as (He & n & g & Hg & Hq). eapply drop_entry_turn; try done. intros Hf. by destruct (Hf n g Hg).
  - destruct Hen as (He & Hr & Ha). eapply drop_entry_turn; try done. intros _. eapply (Hset r); try done.
    by eapply acks_entry_accepts.
  - eapply drop_gap_turn; try done. destruct Hen as (Hg & Hr & Ha). eapply (Hset r); try done. right.
    destruct (ws_gaps _ _ Hs _ _ Hg) as [_ Hv _ _ _]. rewrite (valid_gap_notice_id _ Hv) in Ha. eauto.
Qed.

Lemma exec_refines cmd w0 seq :
  wf w0 -> cmd_ok cmd -> rtc (turn cmd w0 seq) (standing (in_state w0) seq) (standing (in_state (exec cmd w0)) seq).
Proof.
  intros Hwf Hok. enough (wf (exec cmd w0) /\ shrinks cmd w0 (exec cmd w0) /\
    rtc (turn cmd w0 seq) (standing (in_state w0) seq) (standing (in_state (exec cmd w0)) seq)) by tauto.
  apply (does_ind (exec_events cmd w0) (fun w => wf w /\ shrinks cmd w0 w /\
    rtc (turn cmd w0 seq) (standing (in_state w0) seq) (standing (in_state w) seq)) w0);
    [|by apply exec_does|split_and!; [done|by intros r _|done]].
  intros ev w w' Hev Hst (Hwf1 & Hsh & Hrtc). split_and!; [by eapply wf_step|eapply shrinks_step; [apply Hev|done..]|].
  destruct (step_turn cmd w0 ev w w' seq Hst Hwf1 Hev Hsh) as [->|?]; [done|by eapply rtc_r].
Qed.

(** C5: the spool refines the life cycle of a sequence number: through any
    commands and storage faults, each number moves only along the edges of
    [turn] -- born by an admission, missing by expiry or quarantine, settled
    only by an acknowledgement that accepts it, and never again once settled --
    and each edge is taken by one of the commands, entitled to it where it ran. *)
Theorem run_refines_life_cycle cmds w seq :
  Forall cmd_ok cmds -> wf w ->
  rtc (fun a b => exists before cmd after, cmds = before ++ cmd :: after /\ turn cmd (run before w) seq a b)
    (standing (in_state w) seq) (standing (in_state (run cmds w)) seq).
Proof.
  revert w. induction cmds as [|cmd cmds IH]; intros w Hcmds Hwf; [done|].
  apply Forall_cons in Hcmds as [Hcmd Hcmds].
  assert (Hwf' : wf (exec cmd w)) by (eapply wf_does; [by apply exec_ok|done]). etrans.
  - eapply (rtc_congruence id), (exec_refines cmd w seq Hwf Hcmd). intros a b Ht. by exists [], cmd, cmds.
  - eapply (rtc_congruence id), (IH (exec cmd w) Hcmds Hwf'). intros a b (before & cmd' & after & -> & Ht).
    by exists (cmd :: before), cmd', after.
Qed.

End Machine.
