(* ===== verification/SpoolDrain.v ===== *)
(** * A hub that accepts everything drains the spool

    The hub fetches a batch and accepts all of it, again and again.  Storage may
    fail in any exchange, at any call.  No acknowledgement is ever refused, and
    after as many completed exchanges as there are pending sequence numbers
    nothing is pending any more. *)

From S2P Require Import Prelude Protocol Crypto Fs SpoolTypes SpoolFacts SpoolBase SpoolOps.
From S2P Require Import SpoolErrors SpoolFrame SpoolInv SpoolSpec SpoolRefine SpoolRefineOps SpoolDelivery SpoolReceipts SpoolAck.
From S2P Require Import SpoolPick SpoolSystem Ledger.

Definition accept_all (batch : HubBatchV2) : HubAckV2 := {|
  a2_version := 2;
  a2_batch_id := b2_batch_id batch;
  a2_accepted_record_ids := br2_record_id <$> b2_records batch;
  a2_accepted_gap_notice_ids := gn_notice_id <$> b2_gaps batch |}.

Definition empty_batch (batch : HubBatchV2) : bool := is_empty (b2_records batch) && is_empty (b2_gaps batch).

(** What came of one exchange: no batch was handed out, an empty one was, or a
    batch was accepted and the acknowledgement answered. *)
Inductive Exchange :=
| NoBatch (e : SpoolError)
| Idle
| Served (batch : HubBatchV2) (answer : Result SpoolError HubAckResultV2).

Definition completes (x : Exchange) : bool :=
  match x with Idle | Served _ (Ok _) => true | _ => false end.
Definition served (x : Exchange) : option HubBatchV2 :=
  match x with Served batch _ => Some batch | _ => None end.

Section Drain.
Context {X : SpoolEnv}.

Definition exchange (now_ms : Z) (w : Inner) : Exchange * Inner :=
  match next_batch_v2 now_ms w with
  | (Err e, w1) => (NoBatch e, w1)
  | (Ok batch, w1) =>
      if empty_batch batch then (Idle, w1)
      else let (answer, w2) := acknowledge_v2 (accept_all batch) w1 in (Served batch answer, w2)
  end.

(** One exchange at each of the given times. *)
Fixpoint exchanges (times : list Z) (w : Inner) : list Exchange * Inner :=
  match times with
  | [] => ([], w)
  | now_ms :: times' =>
      let (x, w1) := exchange now_ms w in
      let (log, w2) := exchanges times' w1 in (x :: log, w2)
  end.

(** The sequence numbers the spool still answers for. *)
Definition live_seqs (s : State) : gset Z := list_to_set (candidate_seq <$> batch_candidates s).

Context {SL : SpoolLaws}.

Lemma elem_of_live_seqs s q : q ∈ live_seqs s <-> live s q.
Proof. unfold live_seqs. by rewrite elem_of_list_to_set, live_candidate. Qed.

(** ** Accepting a whole batch is well formed *)

Lemma NoDup_fmap_by {A B C} (f : A -> B) (g : A -> C) l :
  NoDup (g <$> l) -> (forall x y, x ∈ l -> y ∈ l -> f x = f y -> g x = g y) -> NoDup (f <$> l).
Proof.
  induction l as [|a l IH]; cbn; intros Hn Hf; [constructor|]. apply NoDup_cons in Hn as [Ha Hn].
  constructor; [|apply IH; [done|]; intros; apply Hf; [by right..|done]].
  rewrite list_elem_of_fmap. intros (y & E & Hy). apply Ha. apply list_elem_of_fmap. exists y.
  split; [|done]. apply Hf; [by left|by right|done].
Qed.

Section Delivered.
Context (c : SpoolConfig) (s : State) (batch : HubBatchV2).
Context (Hs : wf_state c s) (Hdel : delivers c s batch).

(** A delivered record is a pending entry. *)
Lemma delivered_record r :
  r ∈ b2_records batch -> exists e, entries s !! br2_legacy_record_id r = Some e /\
    en_record_id e = br2_legacy_record_id r /\ en_stable_record_id e = br2_record_id r /\
    en_spool_seq e = br2_spool_seq r.
Proof using SL Hs Hdel.
  intros Hr. destruct Hdel as (_ & _ & _ & _ & Hsel).
  destruct (selected_item _ _ _ _ _ (ItemRecord r) Hsel Hr) as ([e|g] & Hc & Hres); [|done].
  destruct Hres as (_ & Hid & Hleg & Hseq & _). apply elem_of_candidates in Hc as [k He].
  pose proof (we_key _ _ _ (ws_entries _ _ Hs _ _ He)) as Hk. exists e. rewrite Hleg, Hk. by split_and!.
Qed.

Lemma delivered_nodup :
  NoDup (br2_spool_seq <$> b2_records batch) /\ NoDup (gn_spool_seq <$> b2_gaps batch).
Proof using SL Hdel. destruct (delivers_seqs _ _ _ Hdel) as [Hnd _]. by apply NoDup_app in Hnd as (? & _ & ?). Qed.

Lemma delivered_record_ids : NoDup (br2_record_id <$> b2_records batch).
Proof using SL Hs Hdel.
  apply (NoDup_fmap_by _ br2_spool_seq); [apply delivered_nodup|]. intros x y Hx Hy E.
  destruct (delivered_record x Hx) as (e & He & Hr & Hid & <-), (delivered_record y Hy) as (e' & He' & Hr' & Hid' & <-).
  pose proof (we_index _ _ _ (ws_entries _ _ Hs _ _ He)) as Hi.
  pose proof (we_index _ _ _ (ws_entries _ _ Hs _ _ He')) as Hi'. congruence.
Qed.

Lemma delivered_notice_ids : NoDup (gn_notice_id <$> b2_gaps batch).
Proof using SL Hs Hdel.
  apply (NoDup_fmap_by _ gn_spool_seq); [apply delivered_nodup|]. intros x y Hx Hy E.
  destruct (delivered_gap_id _ _ _ _ Hs Hdel Hx) as (r1 & v1 & E1 & Hu1).
  destruct (delivered_gap_id _ _ _ _ Hs Hdel Hy) as (r2 & v2 & E2 & Hu2). rewrite E1, E2 in E.
  by apply notice_id_binds in E as [? _].
Qed.

Lemma accept_all_shaped : well_shaped (accept_all batch).
Proof using SL Hs Hdel.
  split_and!; [done| |apply delivered_record_ids|apply delivered_notice_ids].
  cbn. destruct Hdel as (_ & -> & _). exact (from_sha256_valid _ (sha256_length _)).
Qed.

Lemma merged_all : prefix_loop (ack_accepts (accept_all batch)) (merged_items batch) 0 false
  = Some (Z.of_nat (length (b2_records batch) + length (b2_gaps batch))).
Proof using SL Hs Hdel.
  assert (Hp : merged_items batch ≡ₚ map (fun record => (br2_spool_seq record, true, br2_record_id record)) (b2_records batch)
     ++ map (fun gap => (gn_spool_seq gap, false, gn_notice_id gap)) (b2_gaps batch))
    by apply sort_by_key_perm.
  assert (Hlen : length (merged_items batch) = (length (b2_records batch) + length (b2_gaps batch))%nat)
    by (by rewrite Hp, length_app, !length_map).
  assert (Hmax : Z.of_nat (length (b2_records batch)) <= 256 /\ Z.of_nat (length (b2_gaps batch)) <= 256).
  { destruct Hdel as (_ & _ & _ & _ & _ & _ & items & _ & _ & Hr & Hg & (H1 & H2 & _) & _). done. }
  apply prefix_loop_spec; [lia|unfold U64_MAX; lia|]. exists (length (merged_items batch)).
  rewrite take_ge, drop_ge by (rewrite length_fmap; lia). split_and!; [lia|lia| |constructor].
  apply Forall_fmap, Forall_forall. intros [[q k] id] Hin.
  change (ack_accepts (accept_all batch) (k, id) = true). rewrite ack_accepts_list.
  apply bool_decide_eq_true, elem_of_accepted_list. rewrite Hp in Hin.
  apply elem_of_app in Hin as [(r & [= -> -> ->] & Hr)%list_elem_of_fmap|(g & [= -> -> ->] & Hg)%list_elem_of_fmap];
    cbn; apply list_elem_of_fmap; eauto.
Qed.

Lemma accept_all_matches : ack_matches_v2 batch (accept_all batch) = true.
Proof using SL Hs Hdel.
  unfold ack_matches_v2, v2_ack_is_merged_prefix. rewrite merged_all, bool_decide_true by done. cbn [accept_all a2_accepted_record_ids a2_accepted_gap_notice_ids].
  assert (Hall : forall (l : list RecordId), existsb (fun id => negb (bool_decide (id ∈ hash_set l))) l = false).
  { intros l. apply not_true_is_false. intros (id & Hin & Hb)%existsb_exists. apply list_elem_of_In in Hin.
    unfold hash_set in Hb. by rewrite bool_decide_true in Hb by (by rewrite elem_of_list_to_set). }
  rewrite !Hall. cbn [negb andb]. unfold hash_set.
  rewrite !size_list_to_set by (apply delivered_record_ids || apply delivered_notice_ids). rewrite !length_fmap.
  destruct Hdel as (_ & _ & _ & _ & _ & _ & items & _ & _ & _ & _ & (H1 & H2 & _) & _).
  rewrite u64_saturating_add_exact by (unfold U64_MAX; lia). apply Z.eqb_eq. lia.
Qed.

(** ** The admissions of its receipt *)

Definition admission_record (r : HubBatchRecordV2) : ReceiptAdmission := {|
  ra_spool_seq := br2_spool_seq r; ra_stable_record_id := br2_record_id r;
  ra_legacy_record_id := br2_legacy_record_id r |}.

Lemma filter_all {A} (f : A -> bool) l : (forall x, x ∈ l -> f x = true) -> List.filter f l = l.
Proof.
  induction l as [|x l IH]; intros Hf; [done|]. cbn. rewrite Hf by by left. f_equal. apply IH.
  intros y ?. apply Hf. by right.
Qed.

Lemma collect_results_map {A B} (f : A -> Result SpoolError B) (g : A -> B) l :
  (forall x, x ∈ l -> f x = Ok (g x)) -> collect_results (map f l) = Ok (map g l).
Proof.
  induction l as [|x l IH]; intros Hf; [done|]. cbn. rewrite Hf by by left. rewrite IH; [done|].
  intros y ?. apply Hf. by right.
Qed.

Lemma accept_all_admissions :
  receipt_admissions_v2 s batch (accept_all batch) = Ok (map admission_record (b2_records batch)).
Proof using SL Hs Hdel.
  unfold receipt_admissions_v2. rewrite filter_all.
  - apply collect_results_map. intros r Hr. destruct (delivered_record r Hr) as (e & -> & Hid & Hsid & Hq).
    rewrite Hq, Hsid, Z.eqb_refl. by rewrite bool_decide_false by (intros HH; by apply HH).
  - intros r Hr. apply bool_decide_eq_true, elem_of_list_to_set. by apply list_elem_of_fmap_2.
Qed.

Lemma accept_all_seqs : forall q, q ∈ batch_seqs batch -> q ∈ accepted_seqs batch (accept_all batch).
Proof using.
  clear. intros q. unfold batch_seqs. rewrite elem_of_app, elem_of_accepted_seqs, !list_elem_of_fmap. cbn.
  intros [(r & -> & Hr)|(g & -> & Hg)]; [left; exists r|right; exists g];
    (split_and!; [done|by apply list_elem_of_fmap_2|done]).
Qed.

Lemma batch_live : empty_batch batch = false -> exists q, q ∈ batch_seqs batch /\ live s q.
Proof using SL Hdel.
  intros He. destruct (delivers_seqs _ _ _ Hdel) as (_ & Hl & _).
  assert (batch_seqs batch <> []) as Hne.
  { unfold empty_batch, batch_seqs in *. by destruct (b2_records batch), (b2_gaps batch). }
  destruct (batch_seqs batch) as [|q l] eqn:E; [done|]. exists q.
  assert (q ∈ q :: l) as Hq by by left. split; [done|]. by apply Hl.
Qed.
End Delivered.

(** ** What a batch identifier stands for *)

Definition same_items (b b' : HubBatchV2) : Prop :=
  batch_items (b2_records b) (b2_gaps b) = batch_items (b2_records b') (b2_gaps b').

Definition item_of_record (item : Z * byte * str) : option (Z * RecordId) :=
  if bool_decide (item.1.2 = x72) then Some (item.1.1, RecordIdOf item.2) else None.
Definition item_of_gap (item : Z * byte * str) : option RecordId :=
  if bool_decide (item.1.2 = x67) then Some (RecordIdOf item.2) else None.

Lemma omap_app {A B} (f : A -> option B) l k : omap f (l ++ k) = omap f l ++ omap f k.
Proof. induction l as [|x l IH]; [done|]. cbn. destruct (f x); cbn; by rewrite IH. Qed.
Lemma omap_map_Some {A B C} (f : B -> option C) (g : A -> B) (h : A -> C) l :
  (forall x, f (g x) = Some (h x)) -> omap f (map g l) = h <$> l.
Proof. intros Hf. induction l as [|x l IH]; [done|]. cbn. rewrite Hf. by rewrite IH. Qed.
Lemma omap_map_None {A B C} (f : B -> option C) (g : A -> B) l :
  (forall x, f (g x) = None) -> omap f (map g l) = [].
Proof. intros Hf. induction l as [|x l IH]; [done|]. cbn. by rewrite Hf. Qed.

Lemma record_id_eta (r : RecordId) : RecordIdOf (as_str r) = r.
Proof. by destruct r. Qed.

Lemma items_records records gaps :
  omap item_of_record (batch_items records gaps) ≡ₚ (fun r => (br2_spool_seq r, br2_record_id r)) <$> records.
Proof.
  unfold batch_items. rewrite sort_by_key_perm, omap_app.
  rewrite (omap_map_Some _ _ (fun r => (br2_spool_seq r, br2_record_id r)))
    by (intros r; unfold item_of_record; cbn; by rewrite record_id_eta).
  by rewrite omap_map_None, app_nil_r by done.
Qed.
Lemma items_gaps records gaps : omap item_of_gap (batch_items records gaps) ≡ₚ gn_notice_id <$> gaps.
Proof.
  unfold batch_items. rewrite sort_by_key_perm, omap_app.
  rewrite (omap_map_Some _ _ gn_notice_id)
    by (intros r; unfold item_of_gap; cbn; by rewrite record_id_eta).
  by rewrite omap_map_None by done.
Qed.

Lemma same_items_ids b b' :
  same_items b b' ->
  (fun r => (br2_spool_seq r, br2_record_id r)) <$> b2_records b ≡ₚ
    (fun r => (br2_spool_seq r, br2_record_id r)) <$> b2_records b' /\
  br2_record_id <$> b2_records b ≡ₚ br2_record_id <$> b2_records b' /\
  gn_notice_id <$> b2_gaps b ≡ₚ gn_notice_id <$> b2_gaps b'.
Proof.
  unfold same_items. intros E.
  assert (Hr : (fun r => (br2_spool_seq r, br2_record_id r)) <$> b2_records b ≡ₚ
    (fun r => (br2_spool_seq r, br2_record_id r)) <$> b2_records b')
    by (rewrite <-!items_records; by rewrite E).
  split_and!; [done| |rewrite <-!items_gaps; by rewrite E].
  apply (fmap_Permutation snd) in Hr. by rewrite <-!list_fmap_compose in Hr.
Qed.

(** ** Nothing is born *)

Lemma live_standing c s q :
  wf_state c s -> live s q <-> standing s q = Pending \/ exists reason, standing s q = Missing reason.
Proof.
  intros Hs. destruct (gap_free_dec s q) as [Hf|(n & g & Hg & Hq)].
  - destruct (record_free_dec s q) as [Hr|(r & e & He & Hq)].
    + rewrite (standing_none _ _ Hf Hr). split.
      * intros [(r & e & He & Hq)|(n & g & Hg & Hq)]; [by destruct (Hr r e)|by destruct (Hf n g)].
      * by destruct (_ <? _); intros [|[? ?]].
    + rewrite (standing_pending _ _ _ _ Hf He Hq). split; [by left|]. left. by exists r, e.
  - rewrite (standing_missing _ _ _ _ _ Hs Hg Hq). split; [right; by eexists|]. right. by exists n, g.
Qed.

Lemma exec_live cmd w q :
  wf w -> cmd_ok cmd -> (forall envelope now, cmd <> CEnqueue envelope now) ->
  live (in_state (exec cmd w)) q -> live (in_state w) q.
Proof.
  intros Hwf Hok Hcmd. pose proof (exec_refines cmd w q Hwf Hok) as Ht.
  assert (Hwf' : wf (exec cmd w)) by (eapply wf_does; [by apply exec_ok|done]).
  rewrite (live_standing _ _ _ (proj2 Hwf)), (live_standing _ _ _ (proj2 Hwf')). revert Ht.
  generalize (standing (in_state w) q), (standing (in_state (exec cmd w)) q).
  induction 1 as [|a b c Hab _ IH]; [done|]. intros Hc. apply IH in Hc. destruct Hab; try done; eauto; naive_solver.
Qed.

Lemma does_entries (L : Event -> Prop) w w' :
  (forall ev, L ev -> match ev with Admit _ => False | _ => True end) -> does L w w' ->
  entries (in_state w') ⊆ entries (in_state w).
Proof.
  intros HL Hd. apply (does_ind L (fun w1 => entries (in_state w1) ⊆ entries (in_state w)) w w'); try done.
  intros ev w1 w2 Hev Hst IH. rewrite (st_effect _ _ _ Hst). apply HL in Hev.
  destruct ev; try done; cbn; (etransitivity; [apply delete_subseteq|done]).
Qed.

Lemma does_receipts (P Q : AckReceipt -> Prop) w w' k re :
  does (ack_events P Q) w w' -> receipts (in_state w') !! k = Some re ->
  receipts (in_state w) !! k = Some re \/ Q (re_receipt re).
Proof.
  intros Hd. apply (does_ind (ack_events P Q) (fun w1 => receipts (in_state w1) !! k = Some re ->
    receipts (in_state w) !! k = Some re \/ Q (re_receipt re)) w w'); [|exact Hd|by left].
  intros ev w1 w2 Hev Hst IH. rewrite (st_effect _ _ _ Hst).
  destruct ev; try exact IH; cbn in *.
  - intros [[_ <-]|[_ ?]]%lookup_insert_Some; [by right|auto].
  - intros [_ ?]%lookup_delete_Some. auto.
Qed.

(** ** The receipt of a batch that was accepted as a whole *)

Record remembers (s : State) (batch : HubBatchV2) (r : AckReceipt) : Prop := {
  rm_version : ar_version r = 2;
  rm_batch : ar_batch_id r = b2_batch_id batch;
  rm_records : ar_accepted_stable_record_ids r = br2_record_id <$> b2_records batch;
  rm_gaps : ar_accepted_gap_notice_ids r = gn_notice_id <$> b2_gaps batch;
  rm_admissions : ar_accepted_admissions r = map admission_record (b2_records batch);
  rm_entries : forall b k e, b ∈ b2_records batch -> entries s !! k = Some e ->
    en_spool_seq e = br2_spool_seq b -> en_record_id e = br2_legacy_record_id b;
}.

Lemma remembers_sub s s' batch r : entries s' ⊆ entries s -> remembers s batch r -> remembers s' batch r.
Proof. intros Hsub [? ? ? ? ? He]. split; try done. intros b k e Hb Hk. eapply He; [done|by eapply lookup_weaken]. Qed.

Lemma remembers_receipt c s batch seq :
  wf_state c s -> delivers c s batch ->
  remembers s batch (receipt_of (accept_all batch) (map admission_record (b2_records batch)) seq).
Proof.
  intros Hs Hdel. split; try done. intros b k e Hb He Hq.
  destruct (delivered_record _ _ _ Hs Hdel b Hb) as (e' & He' & Hid & _ & Hq').
  assert (k = br2_legacy_record_id b) as -> by (eapply (ws_entries_seq _ _ Hs); [done..|congruence]). congruence.
Qed.

(** When the batch is delivered again, its receipt is the one of its
    acknowledgement, down to the admissions. *)
Lemma remembers_again c s batch batch0 r :
  wf_state c s -> delivers c s batch -> remembers s batch0 r -> same_items batch0 batch ->
  ar_batch_id r = b2_batch_id batch ->
  receipt_for (accept_all batch) r /\
  forall a, a ∈ ar_accepted_admissions r <-> a ∈ map admission_record (b2_records batch).
Proof.
  intros Hs Hdel [Hv _ Hr Hg Ha He] Hsame Hb. destruct (same_items_ids _ _ Hsame) as (Hpr & Hpi & Hpg). split.
  - split_and!; [done..| |].
    + rewrite Hr. apply same_record_ids_permutation; [rewrite Hpi|..|done]; by eapply delivered_record_ids.
    + rewrite Hg. apply same_record_ids_permutation; [rewrite Hpg|..|done]; by eapply delivered_notice_ids.
  - rewrite Ha.
    assert (Hleg : forall r0 r1, r0 ∈ b2_records batch0 -> r1 ∈ b2_records batch ->
      (br2_spool_seq r0, br2_record_id r0) = (br2_spool_seq r1, br2_record_id r1) -> admission_record r0 = admission_record r1).
    { intros r0 r1 Hr0 Hr1 [= Eq Ei]. destruct (delivered_record _ _ _ Hs Hdel r1 Hr1) as (e & Hk & Hid & _ & Hq).
      pose proof (He _ _ _ Hr0 Hk ltac:(congruence)) as Hl. unfold admission_record. congruence. }
    intros a. rewrite !list_elem_of_In, !in_map_iff. setoid_rewrite <-list_elem_of_In. split; intros (x & <- & Hx).
    + apply (list_elem_of_fmap_2 (fun r => (br2_spool_seq r, br2_record_id r))) in Hx as Hy. rewrite Hpr in Hy.
      apply list_elem_of_fmap in Hy as (y & E & Hy). exists y. split; [symmetry; by apply Hleg|done].
    + apply (list_elem_of_fmap_2 (fun r => (br2_spool_seq r, br2_record_id r))) in Hx as Hy. rewrite <-Hpr in Hy.
      apply list_elem_of_fmap in Hy as (y & E & Hy). exists y. split; [by apply Hleg|done].
Qed.

(** ** One acknowledgement *)

(** The spool is about to answer for [batch], which it has just built. *)
Record offers (batch : HubBatchV2) (w : Inner) : Prop := {
  of_wf : wf w;
  of_durable : durable w;
  of_delivers : delivers (in_config w) (in_state w) batch;
  of_pure : pure_batch (in_config w) (in_key w) (in_disk w) (in_state w) = Some batch;
}.

(** The answer is no refusal, and after a positive one nothing of the batch is live. *)
Definition taken (batch : HubBatchV2) (r : Result SpoolError HubAckResultV2) (w : Inner) : Prop :=
  r <> Err InvalidAcknowledgement /\
  forall res, r = Ok res -> forall q, q ∈ batch_seqs batch -> ~ live (in_state w) q.

Lemma replay_taken batch batch0 prior w :
  offers batch w -> receipts (in_state w) !! b2_batch_id batch = Some prior ->
  remembers (in_state w) batch0 (re_receipt prior) -> same_items batch0 batch ->
  wp (acknowledge_v2 (accept_all batch)) (taken batch) w.
Proof.
  intros [Hwf _ Hdel _] Hre Hrem Hsame. pose proof Hwf as [_ Hs].
  pose proof (wr_key _ _ _ (ws_receipts _ _ Hs _ _ Hre)) as Hkey.
  destruct (remembers_again _ _ _ _ _ Hs Hdel Hrem Hsame Hkey) as [(Hv & _ & Hr & Hg) Hadm].
  pose proof (accept_all_admissions _ _ _ Hs Hdel) as Hok. unfold wp.
  rewrite (replay_unfold (accept_all batch) w prior (accept_all_shaped _ _ _ Hs Hdel) Hre), Hv, Hr, Hg.
  cbn [negb orb Z.eqb Pos.eqb]. unfold bind, throw_if, ret. set (r := re_receipt prior) in *.
  assert (Hcom : committed (in_state w) r) by (exists prior; by rewrite Hkey).
  pose proof (complete_receipt_ok r w Hwf Hcom) as Hd. pose proof (complete_receipt_post r w Hwf Hcom) as Hpost.
  pose proof (raises_complete_receipt r) as Hraise. unfold wp in Hpost.
  destruct (complete_receipt r w) as [[[]|e] w4] eqn:Ec; cbn [fst snd] in *.
  - split; [done|]. intros _ _ q Hq. destruct (Hpost eq_refl) as (Hgone & Hgaps & Hwait).
    destruct (complete_sub _ _ _ Hd) as [Hes Hgs].
    assert (Hids : forall n, n ∈ a2_accepted_gap_notice_ids (accept_all batch) <-> n ∈ ar_accepted_gap_notice_ids r).
    { intros n. cbn. rewrite (rm_gaps _ _ _ Hrem). destruct (same_items_ids _ _ Hsame) as (_ & _ & ->). done. }
    eapply (accepted_dead _ (in_state w) (in_state w4) batch (accept_all batch)); try done.
    + intros a Ha. by apply Hgone, Hadm.
    + intros n Hn. by apply Hgaps, Hids.
    + intros e (Hc & Hin & Hnone) Hne. apply Hwait; [split_and!; [done|by apply Hids|done]|].
      intros a Ha. by apply Hne, Hadm.
    + by apply accept_all_seqs.
  - split; [|done]. intros [= ->]. by destruct (raises_not_invalid _ w Hraise); rewrite Ec.
Qed.

Lemma fresh_not_invalid batch w :
  offers batch w -> receipts (in_state w) !! b2_batch_id batch = None ->
  (acknowledge_v2 (accept_all batch) w).1 <> Err InvalidAcknowledgement.
Proof.
  intros [Hwf Hdu Hdel Hp] Hnone. pose proof Hwf as [_ Hs].
  enough (wp (acknowledge_v2 (accept_all batch)) (fun r _ => r <> Err InvalidAcknowledgement) w) as H by exact H.
  destruct (accept_all_shaped _ _ _ Hs Hdel) as (Hv & Hdig & Hn1 & Hn2).
  unfold acknowledge_v2. sp_step. rewrite Hv, Hdig, (proj2 (all_distinct_true _) Hn1), (proj2 (all_distinct_true _) Hn2).
  cbn [negb orb Z.eqb Pos.eqb]. sp_step; [done|]. do 2 sp_step. cbn [accept_all a2_batch_id]. rewrite Hnone.
  sp_step. eapply wp_mono; [by apply build_reads|]. intros [b|e] w1 [Hu Hb]; [|congruence].
  assert (b = batch) as -> by congruence. rewrite (accept_all_matches _ _ _ Hs Hdel). cbn [negb].
  do 2 sp_step; [done|]. do 2 sp_step. destruct Hu as [(_ & _ & ->) _].
  do 2 sp_step. rewrite (accept_all_admissions _ _ _ Hs Hdel). unfold wp. apply take_and_commit_not_invalid.
Qed.

Lemma fresh_taken batch w :
  offers batch w -> receipts (in_state w) !! b2_batch_id batch = None ->
  wp (acknowledge_v2 (accept_all batch)) (taken batch) w.
Proof.
  intros Ho Hnone. split; [by apply fresh_not_invalid|]. intros res Hr q Hq.
  pose proof Ho as [Hwf Hdu Hdel Hp].
  destruct (fresh_ack_v2 (accept_all batch) w res Hwf Hnone Hr)
    as (b & w1 & adm & seq & (Hb & Hwf1 & Hdel1 & _ & Hadm) & _ & _ & Hcomp).
  pose proof (build_reads w Hwf Hdu) as Hread. unfold wp in Hread. rewrite Hb in Hread. destruct Hread as [Hu Hpb].
  cbn [fst snd] in *. assert (b = batch) as -> by congruence. pose proof Hwf1 as [_ Hs1].
  destruct (fresh_ack_effect _ _ _ _ _ _ _ Hs1 Hdel1 Hadm Hcomp) as (_ & _ & Hdead).
  by apply Hdead, accept_all_seqs.
Qed.

(** The receipts an acknowledgement leaves: those there were, and its own. *)
Lemma ack_receipts batch w k re :
  offers batch w -> let w' := (acknowledge_v2 (accept_all batch) w).2 in
  receipts (in_state w') !! k = Some re ->
  receipts (in_state w) !! k = Some re \/ (k = b2_batch_id batch /\ remembers (in_state w') batch (re_receipt re)).
Proof.
  intros [Hwf Hdu Hdel Hp] w' Hk. pose proof Hwf as [_ Hs].
  pose proof (acknowledge_v2_ok (accept_all batch) w Hwf) as Hd. fold w' in Hd.
  assert (Hwf' : wf w') by (by eapply wf_does).
  pose proof (wr_key _ _ _ (ws_receipts _ _ (proj2 Hwf') _ _ Hk)) as Hkey.
  destruct (receipts (in_state w) !! b2_batch_id batch) as [prior|] eqn:Hnone.
  - destruct (does_receipts _ _ _ _ _ _ Hd Hk) as [|[(_ & Hb & _) _]]; [by left|]. cbn in Hb.
    left. rewrite Hb in Hkey. subst k. rewrite Hnone. f_equal.
    assert (Hsame : does (complete_events (re_receipt prior)) w w' \/ w' = w).
    { unfold w'. rewrite (replay_unfold (accept_all batch) w prior (accept_all_shaped _ _ _ Hs Hdel) Hnone).
      unfold bind, throw_if, ret. destruct (_ || _); [by right|left].
      pose proof (complete_receipt_ok (re_receipt prior) w Hwf) as Hc.
      destruct (complete_receipt (re_receipt prior) w) as [[]]; cbn in *; apply Hc; exists prior;
        by rewrite (wr_key _ _ _ (ws_receipts _ _ Hs _ _ Hnone)). }
    assert (receipts (in_state w') = receipts (in_state w)) as E
      by (destruct Hsame as [Hc| ->]; [eapply does_same; [|exact Hc]; by intros []|done]). congruence.
  - destruct (fresh_ack_run (accept_all batch) w Hwf Hnone) as [[Hq _]|(b & w1 & adm & (Hb & Hwf1 & Hdel1 & _ & Hadm) & Hd1 & _)];
      fold w' in Hq || fold w' in Hd1.
    + left. assert (receipts (in_state w') = receipts (in_state w)) as <- by (eapply does_same; [|exact Hq]; by intros []). done.
    + pose proof (build_reads w Hwf Hdu) as Hread. unfold wp in Hread. rewrite Hb in Hread. destruct Hread as [[(_ & _ & Hst) _] Hpb].
      cbn [fst snd] in *. assert (b = batch) as -> by congruence.
      pose proof Hwf1 as [_ Hs1]. rewrite (accept_all_admissions _ _ _ Hs1 Hdel1) in Hadm. injection Hadm as <-.
      destruct (does_receipts _ _ _ _ _ _ Hd1 Hk) as [H|[seq Hre]]; [left; by rewrite <-Hst|right].
      split; [rewrite <-Hkey; by rewrite Hre|]. rewrite Hre.
      eapply remembers_sub; [eapply does_entries; [|exact Hd1]; by intros []|]. by eapply remembers_receipt.
Qed.

(** ** One exchange *)

(** Every remembered receipt of one of the batches is the receipt of a full
    acceptance of it. *)
Definition tracks (batches : list HubBatchV2) (w : Inner) : Prop :=
  forall batch re, batch ∈ batches -> receipts (in_state w) !! b2_batch_id batch = Some re ->
    exists batch0, batch0 ∈ batches /\ b2_batch_id batch0 = b2_batch_id batch /\
      remembers (in_state w) batch0 (re_receipt re).
Definition told_apart (batches : list HubBatchV2) : Prop :=
  forall b b', b ∈ batches -> b' ∈ batches -> b2_batch_id b = b2_batch_id b' -> same_items b b'.

Lemma next_offers now w batch w1 :
  wf w -> durable w -> next_batch_v2 now w = (Ok batch, w1) -> offers batch w1.
Proof.
  intros Hwf Hdu. unfold next_batch_v2, bind. pose proof (expire_due_ok now w Hwf) as Hd.
  destruct (expire_due now w) as [[n|e] we]; [|done]. cbn [snd] in Hd. intros Eb.
  assert (Hwfe : wf we) by (by eapply wf_does). assert (Hdue : durable we) by (by eapply durable_does).
  pose proof (build_batch_v2_ok we Hwfe) as Hb. pose proof (build_reads we Hwfe Hdue) as Hr. unfold wp in Hb, Hr.
  rewrite Eb in Hb, Hr. destruct Hb as [Hdb Hdel], Hr as [[(Hc & Hk & Hs) Hdk] Hp]. cbn [fst snd] in *.
  split; [by eapply wf_does|by eapply durable_does|by apply Hdel|congruence].
Qed.

Lemma next_tracks now batches w :
  wf w -> durable w -> tracks batches w ->
  let w1 := (next_batch_v2 now w).2 in wf w1 /\ durable w1 /\ tracks batches w1.
Proof.
  intros Hwf Hdu Ht w1. pose proof (next_batch_v2_ok now w Hwf) as Hd. fold w1 in Hd.
  split_and!; [by eapply wf_does|by eapply durable_does|]. intros batch re Hb Hre.
  assert (Hrs : receipts (in_state w1) = receipts (in_state w))
    by (eapply does_same; [|exact Hd]; intros [] ? [Hx|Hx]; done).
  rewrite Hrs in Hre. destruct (Ht batch re Hb Hre) as (batch0 & ? & ? & Hrem). exists batch0. split_and!; try done.
  eapply remembers_sub; [|exact Hrem]. eapply does_entries; [|exact Hd]. intros [] [Hx|Hx]; done.
Qed.

Lemma ack_tracks batches batch w :
  offers batch w -> batch ∈ batches -> told_apart batches -> tracks batches w ->
  let w' := (acknowledge_v2 (accept_all batch) w).2 in
  taken batch (acknowledge_v2 (accept_all batch) w).1 w' /\ wf w' /\ durable w' /\ tracks batches w'.
Proof.
  intros Ho Hin Hapart Ht w'. pose proof Ho as [Hwf Hdu _ _].
  pose proof (acknowledge_v2_ok (accept_all batch) w Hwf) as Hd. fold w' in Hd.
  split_and!; [|by eapply wf_does|by eapply durable_does|].
  - destruct (receipts (in_state w) !! b2_batch_id batch) as [prior|] eqn:Hre; [|by apply fresh_taken].
    destruct (Ht batch prior Hin Hre) as (batch0 & Hin0 & Hid & Hrem).
    eapply (replay_taken batch batch0); [done..|]. by apply Hapart.
  - intros b re Hb Hre. destruct (ack_receipts batch w _ re Ho Hre) as [H|[Hid Hrem]]; [|by exists batch].
    destruct (Ht b re Hb H) as (b0 & ? & ? & Hrem). exists b0. split_and!; try done.
    eapply remembers_sub; [|exact Hrem]. eapply does_entries; [|exact Hd]. by intros [].
Qed.

Lemma exchange_ok now batches w x w' :
  exchange now w = (x, w') -> (forall batch, served x = Some batch -> batch ∈ batches) -> told_apart batches ->
  wf w -> durable w -> tracks batches w ->
  wf w' /\ durable w' /\ tracks batches w' /\
  (forall q, live (in_state w') q -> live (in_state w) q) /\
  (forall batch, x <> Served batch (Err InvalidAcknowledgement)) /\
  (completes x = true -> (forall q, ~ live (in_state w') q) \/ exists q, live (in_state w) q /\ ~ live (in_state w') q).
Proof.
  intros Ex Hin Hapart Hwf Hdu Ht. destruct (next_tracks now batches w Hwf Hdu Ht) as (Hwf1 & Hdu1 & Ht1).
  pose proof (fun q => exec_live (CNextBatchV2 now) w q Hwf I ltac:(done)) as Hl1. cbn [exec] in Hl1.
  unfold exchange in Ex. destruct (next_batch_v2 now w) as [[batch|e] w1] eqn:Eb; cbn [snd] in *.
  2:{ injection Ex as <- <-. by split_and!. }
  pose proof (next_offers now w batch w1 Hwf Hdu Eb) as Ho. pose proof Ho as [_ _ Hdel _].
  destruct (empty_batch batch) eqn:He.
  { injection Ex as <- <-. split_and!; try done. intros _. left. intros q Hq.
    destruct (delivers_seqs _ _ _ Hdel) as (_ & _ & _ & Hne). apply Hne; [by exists q|].
    unfold empty_batch, batch_seqs in *. destruct (b2_records batch), (b2_gaps batch); cbn in *; done. }
  pose proof (ack_tracks batches batch w1 Ho) as Hack.
  pose proof (fun q => exec_live (CAcknowledgeV2 (accept_all batch)) w1 q Hwf1 I ltac:(done)) as Hl2. cbn [exec] in Hl2.
  destruct (acknowledge_v2 (accept_all batch) w1) as [answer w2] eqn:Ea. injection Ex as <- <-. cbn [fst snd served] in *.
  destruct Hack as ((Hno & Htaken) & ? & ? & ?); [by apply Hin|done..|]. split_and!; try done.
  - auto.
  - intros b [= _ E]. done.
  - destruct answer as [res|e]; [|done]. intros _. right.
    destruct (batch_live _ _ _ Hdel He) as (q & Hq & Hlive). exists q. split; [by apply Hl1|by eapply Htaken].
Qed.

(** ** All exchanges *)

Lemma live_seqs_sub s s' :
  (forall q, live s' q -> live s q) -> (size (live_seqs s') <= size (live_seqs s))%nat.
Proof. intros Hl. apply subseteq_size. intros q. rewrite !elem_of_live_seqs. auto. Qed.
Lemma live_seqs_lost s s' q :
  (forall q, live s' q -> live s q) -> live s q -> ~ live s' q -> (size (live_seqs s') < size (live_seqs s))%nat.
Proof.
  intros Hl Hq Hq'. apply subset_size. split; [intros q'; rewrite !elem_of_live_seqs; auto|].
  intros Hsub. apply Hq', elem_of_live_seqs, Hsub. by apply elem_of_live_seqs.
Qed.

Lemma exchanges_ok times batches w :
  let log := (exchanges times w).1 in
  let w' := (exchanges times w).2 in
  (forall batch, batch ∈ omap served log -> batch ∈ batches) -> told_apart batches ->
  wf w -> durable w -> tracks batches w ->
  (forall batch, Served batch (Err InvalidAcknowledgement) ∉ log) /\
  (forall q, live (in_state w') q -> live (in_state w) q) /\
  ((size (live_seqs (in_state w)) <= length (List.filter completes log))%nat -> forall q, ~ live (in_state w') q).
Proof.
  revert w. induction times as [|now times IH]; intros w; cbn [exchanges].
  { cbn [fst snd]. intros _ _ _ _ _. split_and!; [intros b Hb; by apply elem_of_nil in Hb|done|].
    cbn. intros Hz q Hq%elem_of_live_seqs. assert (size (live_seqs (in_state w)) <> 0%nat); [|lia].
    apply size_non_empty_iff. set_solver. }
  destruct (exchange now w) as [x w1] eqn:Ex. specialize (IH w1).
  destruct (exchanges times w1) as [log w2] eqn:El. cbn [fst snd] in *. intros Hin Hapart Hwf Hdu Ht.
  destruct (exchange_ok now batches w x w1 Ex) as (Hwf1 & Hdu1 & Ht1 & Hl1 & Hno & Hdone); try done.
  { intros batch Hx. apply Hin. cbn. rewrite Hx. by left. }
  destruct IH as (Hno2 & Hl2 & Hdrain); try done.
  { intros batch Hb. apply Hin. cbn. destruct (served x); [by right|done]. }
  split_and!.
  - intros batch [E|Hb]%elem_of_cons; [by destruct (Hno batch)|by destruct (Hno2 batch)].
  - auto.
  - cbn [List.filter]. destruct (completes x).
    + destruct (Hdone eq_refl) as [Hnone|(q & Hq & Hq')]; [intros _ q Hq; by apply (Hnone q), Hl2|].
      pose proof (live_seqs_lost _ _ q Hl1 Hq Hq'). cbn [length]. intros. apply Hdrain. lia.
    + pose proof (live_seqs_sub _ _ Hl1). intros. apply Hdrain. lia.
Qed.

(** C8: a hub that accepts every batch it is handed drains the spool, whatever
    storage faults occur in between: none of its acknowledgements is refused as
    invalid, and once as many exchanges have completed as sequence numbers were
    pending, none is pending any more.  It is assumed that the spool does not
    remember acknowledgements of these batches from before, and that batch
    identifiers tell the batches of the run apart. *)
Theorem full_acceptance_drains times w :
  let log := (exchanges times w).1 in
  let w' := (exchanges times w).2 in
  wf w -> durable w ->
  (forall batch, batch ∈ omap served log -> receipts (in_state w) !! b2_batch_id batch = None) ->
  told_apart (omap served log) ->
  (forall batch, Served batch (Err InvalidAcknowledgement) ∉ log) /\
  ((size (live_seqs (in_state w)) <= length (List.filter completes log))%nat -> forall q, ~ live (in_state w') q).
Proof.
  intros log w' Hwf Hdu Hnew Hapart.
  destruct (exchanges_ok times (omap served log) w) as (? & _ & ?); try done.
  intros batch re Hb Hre. rewrite Hnew in Hre by done. done.
Qed.
End Drain.
