(* ===== verification/SpoolThreads.v ===== *)
(** * Concurrent calls ([src/spool.rs], the locks)

    The listeners run their handlers on several threads over one [Spool].  A
    method holds the state mutex in some stretches and none in others; an
    acknowledgement holds the acknowledgement mutex from its first statement to
    its last.  Here a method is a [Proc]: a sequence of sections, each of which
    runs without another thread in between.  A section is what runs under the
    state mutex, or one system call that runs without it.

    Some sections join statements that the code separates, where no other
    thread can tell: the receipts, the receipt sequence and the flag of the
    pruned version-1 history are only touched under the acknowledgement mutex,
    so [record_receipt] and [prune_receipts] are one section each, and the two
    looks with which [acknowledge] begins are one.  While a section runs
    another thread may be in a system call of its own; that call concerns one
    file, which the section changes at most once, so it may be thought to
    happen before or after the section. *)

From S2P Require Import Prelude Protocol Crypto Fs SpoolTypes SpoolFacts SpoolBase SpoolOps.
From S2P Require Import SpoolFrame SpoolInv SpoolSpec SpoolRefine SpoolRefineOps SpoolDelivery SpoolReceipts SpoolSystem.

(** ** Programs *)

Section Programs.

Inductive Proc (A : Type) :=
| Done (r : Result SpoolError A)
| Atomic {B : Type} (m : SpoolM B) (k : Result SpoolError B -> Proc A).
Arguments Done {A} r.
Arguments Atomic {A B} m k.

Definition section {A} (m : SpoolM A) : Proc A := Atomic m Done.

Fixpoint then_ {A B} (p : Proc A) (k : Result SpoolError A -> Proc B) : Proc B :=
  match p with
  | Done r => k r
  | Atomic m k' => Atomic m (fun r => then_ (k' r) k)
  end.
(** [?] *)
Definition try_ {A B} (p : Proc A) (k : A -> Proc B) : Proc B :=
  then_ p (fun r => match r with Ok a => k a | Err e => Done (Err e) end).

(** Without other threads. *)
Fixpoint run_alone {A} (p : Proc A) (w : Inner) : Result SpoolError A * Inner :=
  match p with
  | Done r => (r, w)
  | Atomic m k => let (r, w') := m w in run_alone (k r) w'
  end.
End Programs.
Arguments Done {A} r.
Arguments Atomic {A B} m k.

Notation "'do!' x ':=' p 'in' k" := (try_ p (fun x => k))
  (at level 10, x pattern, p at level 100, k at level 200,
   format "'[v' 'do!'  x  ':='  p  'in' '/' k ']'") : edge_scope.

(** ** The methods *)

Section Methods.
Context {X : SpoolEnv}.

Definition p_enqueue (envelope : ReceiverEnvelope) (admitted_at_ms : Z) : Proc EnqueueOutcome :=
  do! _ := section (
    throw_if (is_err (validate envelope)) CorruptRecord ;;
    let! failed := storage_write_failed in
    throw_if failed SpoolIo) in
  section (enqueue_locked envelope admitted_at_ms).

Definition p_read_entry (entry : Entry) : Proc StoredRecord :=
  do! _ := section (check_record_size entry) in
  section (read_record entry).

Fixpoint p_build_v1_loop (config : SpoolConfig) (ordered : list Entry)
    (records : list HubBatchRecordV1) (body_bytes : Z) : Proc (list HubBatchRecordV1) :=
  match ordered with
  | [] => Done (Ok records)
  | entry :: ordered' =>
      if Z.min (batch_max_records config) 256 <=? Z.of_nat (length records) then Done (Ok records)
      else
        then_ (p_read_entry entry) (fun stored =>
        match stored with
        | Err CorruptRecord =>
            do! _ := section (quarantine_runtime_entry entry) in
            p_build_v1_loop config ordered' records body_bytes
        | Err error => Done (Err error)
        | Ok stored =>
            let record := {|
              br1_record_id := sr_record_id stored;
              br1_received_at_ms := sr_admitted_at_ms stored;
              br1_envelope := sr_envelope stored |} in
            match to_vec record with
            | None => Done (Err Serialization)
            | Some encoded =>
                let encoded_bytes := len encoded in
                if negb (is_empty records)
                   && (batch_max_bytes config <? u64_saturating_add body_bytes encoded_bytes)
                then Done (Ok records)
                else if batch_max_bytes config <? encoded_bytes then Done (Err BatchItemTooLarge)
                else p_build_v1_loop config ordered' (records ++ [record])
                       (u64_saturating_add body_bytes encoded_bytes)
            end
        end)
  end.

Definition p_build_batch : Proc HubBatchV1 :=
  do! snapshot := section (
    let! state := get_state in
    throw_if (unresolved_integrity state) CorruptRecord ;;
    let! config := get_config in
    ret (config, sort_by entry_v1_leb (btree_values (entries state)))) in
  do! records := p_build_v1_loop snapshot.1 snapshot.2 [] 0 in
  section (
    let! state := get_state in
    throw_if (negb (map_is_empty (gaps state))
              || negb (map_is_empty (counted_pending_expirations state))) ProtocolUpgradeRequired ;;
    ret {| b1_version := 1; b1_batch_id := batch_id records; b1_records := records |}).

Definition p_next_batch (now_ms : Z) : Proc HubBatchV1 :=
  do! _ := section (expire_due now_ms) in
  do! _ := section (
    let! state := get_state in
    throw_if (unresolved_integrity state) CorruptRecord ;;
    throw_if (negb (map_is_empty (gaps state))
              || negb (map_is_empty (counted_pending_expirations state))) ProtocolUpgradeRequired) in
  p_build_batch.

Definition p_resolve_candidate (counted : gmap Z RecordId) (candidate : BatchCandidateV2)
    : Proc (option BatchItemV2) :=
  match candidate with
  | CandRecord entry =>
      if bool_decide (is_Some (counted !! en_spool_seq entry)) then
        do! _ := p_read_entry entry in
        Done (Ok (Some (ItemGap (gap_notice entry (en_expires_at_ms entry) RetentionExpired))))
      else
        then_ (p_read_entry entry) (fun stored =>
        match stored with
        | Err CorruptRecord =>
            do! _ := section (quarantine_runtime_entry entry) in Done (Ok None)
        | Err error => Done (Err error)
        | Ok stored => Done (Ok (Some (ItemRecord {|
            br2_record_id := en_stable_record_id entry;
            br2_legacy_record_id := en_record_id entry;
            br2_spool_seq := en_spool_seq entry;
            br2_received_at_ms := sr_admitted_at_ms stored;
            br2_envelope := sr_envelope stored |})))
        end)
  | CandGap gap => Done (Ok (Some (ItemGap gap)))
  end.

Fixpoint p_build_v2_loop (config : SpoolConfig) (counted : gmap Z RecordId)
    (candidates : list BatchCandidateV2) (records : list HubBatchRecordV2) (gaps : list GapNoticeV2)
    (body_bytes : Z) (quarantined : bool)
    : Proc (list HubBatchRecordV2 * list GapNoticeV2 * bool) :=
  match candidates with
  | [] => Done (Ok (records, gaps, quarantined))
  | candidate :: candidates' =>
      if batch_max_records config
           <=? u64_saturating_add (Z.of_nat (length records)) (Z.of_nat (length gaps))
      then Done (Ok (records, gaps, quarantined))
      else
        do! resolved := p_resolve_candidate counted candidate in
        match resolved with
        | None => p_build_v2_loop config counted candidates' records gaps body_bytes true
        | Some item =>
            if match item with
               | ItemRecord _ => 256 <=? Z.of_nat (length records)
               | ItemGap _ => 256 <=? Z.of_nat (length gaps)
               end
            then Done (Ok (records, gaps, quarantined))
            else
              match item_to_vec item with
              | None => Done (Err Serialization)
              | Some encoded =>
                  let encoded_bytes := len encoded in
                  if (negb (is_empty records) || negb (is_empty gaps))
                     && (batch_max_bytes config <? u64_saturating_add body_bytes encoded_bytes)
                  then Done (Ok (records, gaps, quarantined))
                  else if batch_max_bytes config <? encoded_bytes then Done (Err BatchItemTooLarge)
                  else
                    let body_bytes := u64_saturating_add body_bytes encoded_bytes in
                    match item with
                    | ItemRecord record =>
                        p_build_v2_loop config counted candidates' (records ++ [record]) gaps body_bytes quarantined
                    | ItemGap gap =>
                        p_build_v2_loop config counted candidates' records (gaps ++ [gap]) body_bytes quarantined
                    end
              end
        end
  end.

(** The two looks at the state with which a pass begins. *)
Definition look_records : SpoolM (SpoolConfig * gmap Z RecordId * list Entry) :=
  let! state := get_state in
  throw_if (unresolved_integrity state) CorruptRecord ;;
  let! config := get_config in
  ret (config, counted_pending_expirations state, sort_by_key en_spool_seq (btree_values (entries state))).
Definition look_gaps (ordered : list Entry) : SpoolM (list BatchCandidateV2) :=
  let! state := get_state in
  let candidates := sort_by_key candidate_seq
    (map CandRecord ordered ++ map CandGap (map ge_notice (btree_values (gaps state)))) in
  throw_if (adjacent_duplicate candidates) CorruptRecord ;;
  ret candidates.

(** Among other threads no number of passes is known to be enough; a call that
    has not ended after [fuel] passes is still running. *)
Fixpoint p_build_batch_v2 (fuel : nat) : Proc HubBatchV2 :=
  match fuel with
  | O => Done (Err SpoolIo)
  | S fuel' =>
      do! looked := section look_records in
      let '(config, counted, ordered) := looked in
      do! candidates := section (look_gaps ordered) in
      do! pass := p_build_v2_loop config counted candidates [] [] 0 false in
      let '(records, gaps, quarantined) := pass in
      if quarantined : bool then p_build_batch_v2 fuel'
      else Done (Ok {| b2_version := 2; b2_batch_id := batch_id_v2 records gaps;
                       b2_records := records; b2_gaps := gaps |})
  end.

Definition p_next_batch_v2 (fuel : nat) (now_ms : Z) : Proc HubBatchV2 :=
  do! _ := section (expire_due now_ms) in
  p_build_batch_v2 fuel.

(** The end of an acknowledgement: draw a sequence, record the receipt,
    complete it, prune. *)
Definition p_commit {A} (receipt : Z -> AckReceipt) (result : AckReceipt -> A) : Proc A :=
  do! sequence := section take_receipt_sequence in
  do! _ := section (record_receipt (receipt sequence)) in
  do! _ := section (complete_receipt (receipt sequence)) in
  do! _ := section prune_receipts in
  Done (Ok (result (receipt sequence))).

Definition p_acknowledge (ack : HubAckV1) : Proc HubAckResultV1 :=
  if negb (a1_version ack =? 1)
     || negb (valid_digest (a1_batch_id ack))
     || negb (all_distinct (a1_accepted_record_ids ack)) then Done (Err InvalidAcknowledgement)
  else
    do! state := section get_state in
    match receipts state !! a1_batch_id ack with
    | Some prior =>
        if negb (same_record_ids (ar_accepted_record_ids (re_receipt prior)) (a1_accepted_record_ids ack))
        then Done (Err InvalidAcknowledgement)
        else
          do! _ := section (complete_receipt (re_receipt prior)) in
          Done (Ok (ack_result (re_receipt prior)))
    | None =>
        if v1_ack_history_pruned state then Done (Err V1AcknowledgementHistoryPruned)
        else
          do! delivered := p_build_batch in
          let delivered_record_ids := hash_set (br1_record_id <$> b1_records delivered) in
          if bool_decide (b1_batch_id delivered <> a1_batch_id ack)
             || existsb (fun id => negb (bool_decide (id ∈ delivered_record_ids))) (a1_accepted_record_ids ack)
          then Done (Err InvalidAcknowledgement)
          else
            do! admissions := section (
              let! state := get_state in of_result (receipt_admissions_v1 state delivered ack)) in
            p_commit (fun sequence => {|
              ar_version := 1;
              ar_sequence := sequence;
              ar_batch_id := a1_batch_id ack;
              ar_accepted_record_ids := a1_accepted_record_ids ack;
              ar_accepted_stable_record_ids := [];
              ar_accepted_gap_notice_ids := [];
              ar_accepted_admissions := admissions |}) ack_result
    end.

Definition p_acknowledge_v2 (fuel : nat) (ack : HubAckV2) : Proc HubAckResultV2 :=
  if negb (a2_version ack =? 2)
     || negb (valid_digest (a2_batch_id ack))
     || negb (all_distinct (a2_accepted_record_ids ack))
     || negb (all_distinct (a2_accepted_gap_notice_ids ack)) then Done (Err InvalidAcknowledgement)
  else
    do! state := section get_state in
    match receipts state !! a2_batch_id ack with
    | Some prior =>
        if negb (ar_version (re_receipt prior) =? 2)
           || negb (same_record_ids (ar_accepted_stable_record_ids (re_receipt prior)) (a2_accepted_record_ids ack))
           || negb (same_record_ids (ar_accepted_gap_notice_ids (re_receipt prior)) (a2_accepted_gap_notice_ids ack))
        then Done (Err InvalidAcknowledgement)
        else
          do! _ := section (complete_receipt (re_receipt prior)) in
          Done (Ok (ack_result_v2 (re_receipt prior)))
    | None =>
        do! delivered := p_build_batch_v2 fuel in
        if negb (ack_matches_v2 delivered ack) then Done (Err InvalidAcknowledgement)
        else
          do! admissions := section (
            let! state := get_state in of_result (receipt_admissions_v2 state delivered ack)) in
          p_commit (fun sequence => {|
            ar_version := 2;
            ar_sequence := sequence;
            ar_batch_id := a2_batch_id ack;
            ar_accepted_record_ids := [];
            ar_accepted_stable_record_ids := a2_accepted_record_ids ack;
            ar_accepted_gap_notice_ids := a2_accepted_gap_notice_ids ack;
            ar_accepted_admissions := admissions |}) ack_result_v2
    end.

Fixpoint p_sync (dirs : list Dir) : Proc unit :=
  match dirs with
  | [] => Done (Ok tt)
  | d :: dirs' => do! _ := section (lift (sync_directory d)) in p_sync dirs'
  end.

(** What a call answered, forgetting the value. *)
Definition ended {A} (p : Proc A) : Proc unit :=
  then_ p (fun r => Done (match r with Ok _ => Ok tt | Err e => Err e end)).

Definition program (fuel : nat) (cmd : Cmd) : Proc unit :=
  match cmd with
  | CEnqueue envelope now => ended (p_enqueue envelope now)
  | CExpireDue now => ended (section (expire_due now))
  | CNextBatch now => ended (p_next_batch now)
  | CNextBatchV2 now => ended (p_next_batch_v2 fuel now)
  | CAcknowledge ack => ended (p_acknowledge ack)
  | CAcknowledgeV2 ack => ended (p_acknowledge_v2 fuel ack)
  | CSync => p_sync [DPending; DTmp; DQuarantine; DReceipts; DGaps; DRoot]
  end.

(** ** Threads *)

Inductive Thread :=
| Waiting (cmd : Cmd)
| Running (cmd : Cmd) (p : Proc unit)
| Finished (cmd : Cmd) (r : Result SpoolError unit).

Definition takes_lock (cmd : Cmd) : bool :=
  match cmd with CAcknowledge _ | CAcknowledgeV2 _ => true | _ => false end.
Definition holds_lock (t : Thread) : bool :=
  match t with Running cmd _ => takes_lock cmd | _ => false end.

(** [next k] starts or continues thread [k]: it takes the acknowledgement
    mutex if it is free, runs its next section, or ends. *)
Definition next (fuel : nat) (k : nat) (sys : list Thread * Inner) : list Thread * Inner :=
  let (threads, w) := sys in
  match threads !! k with
  | Some (Waiting cmd) =>
      if takes_lock cmd && existsb holds_lock threads then sys
      else (<[k := Running cmd (program fuel cmd)]> threads, w)
  | Some (Running cmd (Atomic m p)) =>
      let (r, w') := m w in (<[k := Running cmd (p r)]> threads, w')
  | Some (Running cmd (Done r)) => (<[k := Finished cmd r]> threads, w)
  | _ => sys
  end.

(** The scheduler names the threads in the order in which they proceed. *)
Definition interleave (fuel : nat) (schedule : list nat) (sys : list Thread * Inner) : list Thread * Inner :=
  foldl (fun sys k => next fuel k sys) sys schedule.

End Methods.
