(* ===== verification/SpoolAlone.v ===== *)
(** * Without other threads a program is its method

    The sequential definitions of [SpoolOps] are what the programs of
    [SpoolThreads] do when nothing runs in between. *)

From S2P Require Import Prelude Protocol Crypto Fs SpoolTypes SpoolFacts SpoolBase SpoolOps.
From S2P Require Import SpoolFrame SpoolInv SpoolSpec SpoolRefine SpoolRefineOps SpoolDelivery SpoolReceipts SpoolSystem.
From S2P Require Import SpoolThreads.

Create HintDb agrees discriminated.

Section Alone.
Context {X : SpoolEnv}.

Record agrees {A} (p : Proc A) (m : SpoolM A) : Prop := { agree : forall w, run_alone p w = m w }.

Lemma run_then {A B} (p : Proc A) (k : Result SpoolError A -> Proc B) w :
  run_alone (then_ p k) w = let (r, w') := run_alone p w in run_alone (k r) w'.
Proof. revert w. induction p as [r|C m k' IH]; intros w; cbn; [done|]. destruct (m w). apply IH. Qed.

Lemma bind_assoc {A B C} (m : SpoolM A) (k : A -> SpoolM B) (h : B -> SpoolM C) w :
  bind (bind m k) h w = bind m (fun a => bind (k a) h) w.
Proof. unfold bind. by destruct (m w) as [[]]. Qed.

Lemma bind_get {A} (k : State -> SpoolM A) w : bind get_state k w = k (in_state w) w.
Proof. done. Qed.

Lemma bind_throw {A} (b : bool) (e : SpoolError) (m : SpoolM A) w :
  (throw_if b e ;; m) w = if b then (Err e, w) else m w.
Proof. unfold bind, throw_if. by destruct b. Qed.

Lemma agrees_section {A} (m : SpoolM A) : agrees (section m) m.
Proof. split. intros w. cbn. by destruct (m w). Qed.
Lemma agrees_ret {A} (a : A) : agrees (Done (Ok a)) (ret a).
Proof. done. Qed.
Lemma agrees_fail {A} (e : SpoolError) : agrees (A:=A) (Done (Err e)) (fail e).
Proof. done. Qed.
Lemma agrees_try {A B} (p : Proc A) m (k : A -> Proc B) f :
  agrees p m -> (forall a, agrees (k a) (f a)) -> agrees (try_ p k) (bind m f).
Proof.
  intros [Hp] Hk. split. intros w. unfold try_. rewrite run_then, Hp. unfold bind.
  destruct (m w) as [[a|e] w']; [apply Hk|done].
Qed.
Lemma agrees_catch {A B} (p : Proc A) m (k : Result SpoolError A -> Proc B) f :
  agrees p m -> (forall r, agrees (k r) (f r)) -> agrees (then_ p k) (bind (catch m) f).
Proof.
  intros [Hp] Hk. split. intros w. rewrite run_then, Hp. unfold bind, catch. destruct (m w) as [r w']. apply Hk.
Qed.
Lemma agrees_throw_if {A} (b : bool) (e : SpoolError) (p : Proc A) m :
  agrees p m -> agrees (if b then Done (Err e) else p) (throw_if b e ;; m).
Proof. intros [Hp]. split. intros w. unfold bind, throw_if. destruct b; [done|apply Hp]. Qed.
Lemma agrees_ok_or {A B} (o : option A) (e : SpoolError) (k : A -> Proc B) f :
  (forall a, agrees (k a) (f a)) ->
  agrees (match o with None => Done (Err e) | Some a => k a end) (let! a := ok_or o e in f a).
Proof. intros Hk. split. intros w. unfold bind, ok_or. destruct o; [apply Hk|done]. Qed.
Lemma agrees_ext {A} (p : Proc A) m m' : agrees p m -> (forall w, m w = m' w) -> agrees p m'.
Proof. intros [Hp] Hm. split. intros w. by rewrite Hp, Hm. Qed.

End Alone.

#[export] Hint Resolve agrees_section agrees_ret agrees_fail : agrees.

Ltac agrees_tac :=
  repeat first
    [ progress intros
    | solve [eauto with agrees]
    | match goal with
      | |- agrees (try_ _ _) (bind _ _) => apply agrees_try
      | |- agrees (then_ _ _) (bind (catch _) _) => apply agrees_catch
      | |- agrees (if ?b then Done (Err _) else _) (bind (throw_if ?b _) _) => apply agrees_throw_if
      | |- agrees (match ?o with None => _ | Some _ => _ end) (bind (ok_or ?o _) _) => apply agrees_ok_or
      end
    | case_match ].

(** For a program whose sections are cut differently: find some computation it
    agrees with. *)
Ltac agrees_find :=
  repeat first [ progress intros | apply agrees_section | apply agrees_ret | solve [eauto with agrees]
               | match goal with |- agrees (try_ _ _) _ => eapply agrees_try end ].

Section Methods.
Context {X : SpoolEnv}.

Lemma agrees_read_entry e : agrees (p_read_entry e) (read_entry e).
Proof. unfold p_read_entry, read_entry. agrees_tac. Qed.
#[local] Hint Resolve agrees_read_entry : agrees.

Lemma agrees_enqueue envelope now : agrees (p_enqueue envelope now) (enqueue envelope now).
Proof.
  unfold p_enqueue, enqueue. eapply agrees_ext; [agrees_find|]. intros w. unfold bind, throw_if, storage_write_failed.
  destruct (is_err (validate envelope)); [done|]. by destruct (in_storage_write_failed w).
Qed.

Lemma agrees_build_v1_loop c ordered records body :
  agrees (p_build_v1_loop c ordered records body) (build_v1_loop c ordered records body).
Proof.
  revert records body. induction ordered as [|e ordered IH]; intros; cbn [p_build_v1_loop build_v1_loop]; agrees_tac.
Qed.
#[local] Hint Resolve agrees_build_v1_loop : agrees.

Lemma agrees_build_batch : agrees p_build_batch build_batch.
Proof.
  unfold p_build_batch, build_batch. eapply agrees_ext; [agrees_find|]. intros w. unfold bind, throw_if, get_state, get_config, ret.
  by destruct (unresolved_integrity (in_state w)).
Qed.
#[local] Hint Resolve agrees_build_batch : agrees.

Lemma agrees_next_batch now : agrees (p_next_batch now) (next_batch now).
Proof.
  unfold p_next_batch, next_batch. apply agrees_try; [agrees_tac|intros _].
  eapply agrees_ext; [eapply agrees_try; [apply agrees_section|intros ?; apply agrees_build_batch]|]. intros w. unfold bind, throw_if, get_state.
  destruct (unresolved_integrity (in_state w)); [done|]. by destruct (_ || _).
Qed.

Lemma agrees_resolve_candidate counted candidate :
  agrees (p_resolve_candidate counted candidate) (resolve_candidate counted candidate).
Proof. destruct candidate; cbn [p_resolve_candidate resolve_candidate]; agrees_tac. Qed.
#[local] Hint Resolve agrees_resolve_candidate : agrees.

Lemma agrees_build_v2_loop c counted candidates records gaps body q :
  agrees (p_build_v2_loop c counted candidates records gaps body q)
    (build_v2_loop c counted candidates records gaps body q).
Proof.
  revert records gaps body q. induction candidates as [|x candidates IH]; intros;
    cbn [p_build_v2_loop build_v2_loop]; agrees_tac.
Qed.
#[local] Hint Resolve agrees_build_v2_loop : agrees.

Lemma agrees_build_batch_v2 fuel : agrees (p_build_batch_v2 fuel) (build_batch_v2_fuel fuel).
Proof.
  induction fuel as [|fuel IH]; cbn [p_build_batch_v2 build_batch_v2_fuel]; [agrees_tac|].
  split. intros w. unfold try_ at 1. rewrite run_then, (agree _ _ (agrees_section _)).
  unfold look_records, build_v2_pass, bind, get_state, throw_if, get_config, ret.
  destruct (unresolved_integrity (in_state w)); [done|]. cbn [fst snd].
  unfold try_ at 1. rewrite run_then, (agree _ _ (agrees_section _)). unfold look_gaps, bind, get_state, throw_if, ret.
  change (sort_by_key candidate_seq _) with (batch_candidates (in_state w)).
  destruct (adjacent_duplicate _); [done|].
  unfold try_. rewrite run_then, (agree _ _ (agrees_build_v2_loop _ _ _ _ _ _ _)).
  destruct (build_v2_loop _ _ _ _ _ _ _ w) as [[[[records gaps] []]|e] w1]; [apply IH|done..].
Qed.

Lemma agrees_commit {A} mk (result : AckReceipt -> A) :
  agrees (p_commit mk result)
    (let! seq := take_receipt_sequence in commit_receipt (mk seq) ;; ret (result (mk seq))).
Proof.
  unfold p_commit. apply agrees_try; [agrees_tac|intros seq]. eapply agrees_ext; [agrees_find|].
  intros w. unfold commit_receipt, bind. destruct (record_receipt (mk seq) w) as [[[]|e] w1]; [|done].
  destruct (complete_receipt (mk seq) w1) as [[[]|e] w2]; [|done]. by destruct (prune_receipts w2) as [[[]|e] w3].
Qed.
#[local] Hint Resolve agrees_commit : agrees.

Lemma agrees_acknowledge ack : agrees (p_acknowledge ack) (acknowledge ack).
Proof.
  unfold p_acknowledge, acknowledge. apply agrees_throw_if, agrees_try; [agrees_tac|intros state].
  destruct (receipts state !! a1_batch_id ack) as [prior|]; [agrees_tac|].
  apply agrees_throw_if, agrees_try; [agrees_tac|intros delivered]. apply agrees_throw_if.
  eapply agrees_ext; [eapply agrees_try; [apply agrees_section|intros ?; apply agrees_commit]|].
  intros w. apply bind_assoc.
Qed.

Context {SL : SpoolLaws}.

(** The rebuild inside an acknowledgement gets fuel enough for the state it
    starts from. *)
Lemma run_build_batch_v2 fuel w :
  wf w -> (size (entries (in_state w)) < fuel)%nat -> run_alone (p_build_batch_v2 fuel) w = build_batch_v2 w.
Proof.
  intros Hwf Hf. rewrite (agree _ _ (agrees_build_batch_v2 fuel)). unfold build_batch_v2, bind, get_state.
  apply build_batch_v2_fuel_stable; [done|done|lia].
Qed.

Lemma run_next_batch_v2 fuel now w :
  wf w -> (size (entries (in_state w)) < fuel)%nat ->
  run_alone (p_next_batch_v2 fuel now) w = next_batch_v2 now w.
Proof.
  intros Hwf Hf. unfold p_next_batch_v2, next_batch_v2, try_, bind. rewrite run_then, (agree _ _ (agrees_section _)).
  pose proof (expire_due_ok now w Hwf) as Hd. destruct (expire_due now w) as [[n|e] w1]; cbn [snd] in Hd; [|done].
  apply run_build_batch_v2; [by eapply wf_does|].
  enough (entries (in_state w1) ⊆ entries (in_state w)) as Hsub by (apply map_subseteq_size in Hsub; lia).
  apply (does_ind expire_events (fun w2 => entries (in_state w2) ⊆ entries (in_state w)) w w1); try done.
  intros ev w2 w3 Hev Hst IH. rewrite (st_effect _ _ _ Hst). destruct ev; try done; cbn;
    (etransitivity; [apply delete_subseteq|done]).
Qed.

Lemma run_acknowledge_v2 fuel ack w :
  wf w -> (size (entries (in_state w)) < fuel)%nat ->
  run_alone (p_acknowledge_v2 fuel ack) w = acknowledge_v2 ack w.
Proof.
  intros Hwf Hf. unfold p_acknowledge_v2, acknowledge_v2. rewrite bind_throw.
  destruct (_ || _); [done|]. unfold try_ at 1. rewrite run_then, (agree _ _ (agrees_section _)).
  rewrite bind_get. unfold get_state at 1. destruct (receipts (in_state w) !! a2_batch_id ack) as [prior|].
  - apply agree. agrees_tac.
  - unfold try_ at 1. rewrite run_then, run_build_batch_v2 by done.
    change (bind build_batch_v2 ?k w) with (match build_batch_v2 w with (Ok a, w') => k a w' | (Err e, w') => (Err e, w') end).
    destruct (build_batch_v2 w) as [[delivered|e] w1]; [|done]. apply agree. apply agrees_throw_if.
    eapply agrees_ext; [eapply agrees_try; [apply agrees_section|intros ?; apply agrees_commit]|].
    intros w2. apply bind_assoc.
Qed.

Lemma agrees_sync dirs : agrees (p_sync dirs) (for_each dirs (fun d => lift (sync_directory d))).
Proof. induction dirs as [|d dirs IH]; cbn [p_sync for_each]; agrees_tac. Qed.

Lemma run_ended {A} (p : Proc A) w : (run_alone (ended p) w).2 = (run_alone p w).2.
Proof. unfold ended. rewrite run_then. by destruct (run_alone p w). Qed.

(** The program of a method, run without other threads, does what the
    method does: the sequential definitions, about which the other theorems
    speak, are the uninterrupted runs of the concurrent ones. *)
Theorem program_alone fuel cmd w :
  wf w -> (size (entries (in_state w)) < fuel)%nat ->
  (run_alone (program fuel cmd) w).2 = exec cmd w.
Proof.
  intros Hwf Hf. destruct cmd; cbn [program exec]; rewrite ?run_ended.
  - by rewrite (agree _ _ (agrees_enqueue _ _)).
  - by rewrite (agree _ _ (agrees_section _)).
  - by rewrite (agree _ _ (agrees_next_batch _)).
  - by rewrite run_next_batch_v2.
  - by rewrite (agree _ _ (agrees_acknowledge _)).
  - by rewrite run_acknowledge_v2.
  - unfold sync. by rewrite (agree _ _ (agrees_sync _)).
Qed.
End Methods.
