(* ===== verification/SpoolInterleave.v ===== *)
(** * Interleaved calls keep the promises

    Any number of calls run at once; a scheduler decides after every section
    which thread proceeds.  The proof is a rely-guarantee argument over the
    event system.  A thread performs events of its own method only ([does]),
    and between two of its sections it relies on some knowledge ([Know]) about
    the spool that no event of the others destroys ([stable]).

    Two assumptions are needed, which the code does not enforce ([orderly]): a
    record that was removed is not admitted again under the same identifier
    while the calls last, for [Divergences.Readmission] shows what happens
    otherwise; and a record admitted while they last is not at once found
    corrupt and left in place because its file cannot be moved ([tidy]). *)

From S2P Require Import Prelude Protocol Crypto Fs SpoolTypes SpoolFacts SpoolBase SpoolOps.
From S2P Require Import SpoolFrame SpoolInv SpoolSpec SpoolRefine SpoolRefineOps SpoolDelivery SpoolReceipts SpoolAck.
From S2P Require Import SpoolSystem SpoolThreads.

(** ** Knowledge *)

(** Without the acknowledgement mutex no thread touches a receipt. *)
Definition lock_free (ev : Event) : Prop :=
  match ev with
  | Commit _ | LostCommit _ | Prune _ | DropAcked _ _ | DropGap _ _ | TakeReceiptSequence => False
  | _ => True
  end.
(** What other threads may do, to a thread that holds the mutex or not. *)
Definition others (holds : bool) (ev : Event) : Prop := holds = true -> lock_free ev.
(** Admissions are of identifiers outside [used]. *)
Definition admits_new (used : gset RecordId) (ev : Event) : Prop :=
  match ev with Admit e => en_record_id e ∉ used | _ => True end.

(** No record admitted with sequence [n] or later has an integrity gap and is
    still pending. *)
Definition tidy {X : SpoolEnv} (n : Z) (s : State) : Prop :=
  map_Forall (fun _ e => quarantined s (en_spool_seq e) -> en_spool_seq e < n) (entries s).

(** The next sequence number when the calls began. *)
Class Start := { start : Z }.

Section Interleave.
Context {X : SpoolEnv} {SL : SpoolLaws} {ST : Start}.

(** [used]: the record identifiers that were pending at some time. *)
Definition Know : Type := gset RecordId -> Inner -> Prop.

Definition covered (used : gset RecordId) (w : Inner) : Prop :=
  dom (entries (in_state w)) ⊆ used /\ start <= next_spool_sequence (in_state w) /\ tidy start (in_state w).
Definition rely (holds : bool) (used : gset RecordId) (ev : Event) : Prop := others holds ev /\ admits_new used ev.
Definition stable (holds : bool) (K : Know) : Prop :=
  forall used used' w w', wf w -> used ⊆ used' -> does (rely holds used) w w' -> K used w -> K used' w'.

Lemma stable_by_step holds (K : Know) :
  (forall used ev w w', wf w -> rely holds used ev -> step ev w w' -> K used w -> K used w') ->
  (forall used used' w, used ⊆ used' -> K used w -> K used' w) -> stable holds K.
Proof.
  intros Hstep Hmono used used' w w' Hwf Hsub Hd HK. apply (Hmono used); [done|].
  enough (wf w' /\ K used w') by tauto.
  apply (does_ind (rely holds used) (fun w => wf w /\ K used w) w w'); [|done|done].
  intros ev w1 w2 Hev Hst [Hwf1 HK1]. split; [by eapply wf_step|by eapply Hstep].
Qed.

Lemma stable_true holds : stable holds (fun _ _ => True).
Proof. done. Qed.
Lemma stable_and holds (K K' : Know) : stable holds K -> stable holds K' -> stable holds (fun u w => K u w /\ K' u w).
Proof. intros H1 H2 u u' w w' Hwf Hs Hd [? ?]. split; [by eapply H1|by eapply H2]. Qed.
Lemma stable_forall holds {A} (P : A -> Prop) (K : A -> Know) :
  (forall a, stable holds (K a)) -> stable holds (fun u w => forall a, P a -> K a u w).
Proof. intros HK u u' w w' Hwf Hs Hd H a Ha. eapply HK; [done..|by apply H]. Qed.
Lemma stable_imp holds (P : Prop) (K : Know) : stable holds K -> stable holds (fun u w => P -> K u w).
Proof. intros HK u u' w w' Hwf Hs Hd H Hp. eapply HK; [done..|by apply H]. Qed.
Lemma stable_weaken holds (K : Know) : stable false K -> stable holds K.
Proof.
  intros HK u u' w w' Hwf Hs Hd. eapply HK; [done..|]. eapply does_mono; [|exact Hd].
  intros ev [_ Ha]. by split.
Qed.

(** A pending record a thread has seen: its identifier still means this record, if anything. *)
Definition known (e : Entry) : Know := fun used w =>
  en_record_id e ∈ used /\ in_u64 (en_spool_seq e) /\ en_spool_seq e < next_spool_sequence (in_state w) /\
  en_path e = SPath DPending (pending_file_name (en_spool_seq e) (en_record_id e)) /\
  forall e', entries (in_state w) !! en_record_id e = Some e' -> e' = e.

(** ... and its file does not open as the record. *)
Definition bad (e : Entry) : Know := fun used w =>
  known e used w /\ (entries (in_state w) !! en_record_id e = Some e -> ~ readable (in_key w) (in_disk w) e).

Lemma entries_new used ev w w' r e :
  step ev w w' -> admits_new used ev -> r ∈ used -> entries (in_state w') !! r = Some e -> wf w' ->
  entries (in_state w) !! r = Some e.
Proof.
  intros Hst Hnew Hr He [_ Hs']. destruct (entries_step _ _ _ _ _ Hst He) as [| ->]; [done|].
  exfalso. apply Hnew. by rewrite (we_key _ _ _ (ws_entries _ _ Hs' _ _ He)).
Qed.

Lemma known_step used ev w w' e :
  wf w -> admits_new used ev -> step ev w w' -> known e used w -> known e used w'.
Proof.
  intros Hwf Hnew Hst (Hu & H64 & Hn & Hp & He). pose proof (next_mono _ _ _ Hst). split_and!; try done; [lia|].
  intros e' He'. apply He. eapply entries_new; [done..|]. by eapply wf_step.
Qed.

Lemma bad_step used ev w w' e :
  wf w -> admits_new used ev -> step ev w w' -> bad e used w -> bad e used w'.
Proof.
  intros Hwf Hnew Hst [Hk Hbad]. split; [by eapply known_step|]. intros He Hr.
  destruct Hk as (Hu & H64 & Hn & Hp & _).
  assert (He0 : entries (in_state w) !! en_record_id e = Some e)
    by (eapply entries_new; [done..|]; by eapply wf_step).
  apply Hbad; [done|]. rewrite (st_key _ _ _ Hst) in Hr.
  assert (Hkd : kept_dir (en_path e)) by (left; by rewrite Hp).
  pose proof (st_enabled _ _ _ Hst) as Hen. pose proof Hwf as [_ Hs]. pose proof (ws_next _ _ Hs) as Hnext.
  destruct (st_files _ _ _ Hst _ Hkd) as [E|[E|Hbr]];
    [eapply readable_agree; [by left|done]|eapply readable_agree; [by right|done]|].
  exfalso. destruct ev; cbn in Hbr; try done; destruct Hbr as [Hpath _], Hen as (_ & _ & Hrest); cbn in Hrest.
  - destruct Hrest as (Hq & Hlt & _ & Hpe & _). rewrite Hp, Hpe in Hpath. apply SPath_inj in Hpath as [_ Hname].
    apply pending_name_seq in Hname; [lia|done|unfold in_u64; lia].
  - destruct Hrest as [Hpe _]. by rewrite Hp, Hpe in Hpath.
  - destruct Hrest as (Hq & Hlt & _ & Hpe & _). rewrite Hp, Hpe in Hpath. apply SPath_inj in Hpath as [_ Hname].
    apply pending_name_seq in Hname; [lia|done|unfold in_u64; lia].
  - destruct Hrest as [Hpe _]. by rewrite Hp, Hpe in Hpath.
Qed.

Lemma stable_known holds e : stable holds (known e).
Proof.
  apply stable_by_step; [intros ? ? ? ? ? [_ ?]; by apply known_step|].
  intros u u' w Hsub (? & ?). split; [set_solver|done].
Qed.
Lemma stable_bad holds e : stable holds (bad e).
Proof.
  apply stable_by_step; [intros ? ? ? ? ? [_ ?]; by apply bad_step|].
  intros u u' w Hsub [(? & ?) ?]. split; [|done]. split; [set_solver|done].
Qed.

(** A notice that was acceptable stays acceptable. *)
Definition acceptable (n : RecordId) : Know := fun _ w => accepted_notice (in_state w) n.
Lemma acceptable_step ev w w' n :
  step ev w w' -> accepted_notice (in_state w) n -> accepted_notice (in_state w') n.
Proof.
  intros Hst (seq & reason & evd & -> & Hseq & Hgone). pose proof (next_mono _ _ _ Hst).
  exists seq, reason, evd. split_and!; [done|lia|lia|]. intros Hr r e He.
  destruct (entries_step _ _ _ _ _ Hst He) as [| ->]; [by eapply Hgone|].
  pose proof (st_enabled _ _ _ Hst) as (_ & _ & Hq & _). lia.
Qed.
Lemma stable_acceptable holds n : stable holds (acceptable n).
Proof. apply stable_by_step; [|done]. intros ? ? ? ? _ _. by apply acceptable_step. Qed.

(** Every pending record is one of the list, or was admitted after [n]. *)
Definition listed (n : Z) (l : list Entry) : Know := fun _ w =>
  start <= n <= next_spool_sequence (in_state w) /\
  forall r e, entries (in_state w) !! r = Some e -> e ∈ l \/ n <= en_spool_seq e.
Lemma stable_listed holds n l : stable holds (listed n l).
Proof.
  apply stable_by_step; [|done]. intros used ev w w' _ _ Hst [Hn Hl]. pose proof (next_mono _ _ _ Hst).
  split; [lia|]. intros r e He. destruct (entries_step _ _ _ _ _ Hst He) as [| ->]; [by eapply Hl|right].
  pose proof (st_enabled _ _ _ Hst) as (_ & _ & Hq & _). lia.
Qed.

(** Knowledge about the receipts, which only the holder of the mutex changes. *)
Lemma receipts_still ev w w' :
  lock_free ev -> step ev w w' ->
  receipts (in_state w') = receipts (in_state w) /\ next_receipt_sequence (in_state w') = next_receipt_sequence (in_state w).
Proof. intros Hq Hst. rewrite (st_effect _ _ _ Hst). by destruct ev. Qed.
Lemma stable_receipts (K : gmap str ReceiptEntry -> Z -> Prop) :
  stable true (fun _ w => K (receipts (in_state w)) (next_receipt_sequence (in_state w))).
Proof.
  apply stable_by_step; [|done]. intros used ev w w' _ [Ho _] Hst.
  destruct (receipts_still ev w w') as [-> ->]; [by apply Ho|done|done].
Qed.

(** ** Safe programs *)

(** The events of [L] in a section that begins at [w]: what is deleted for an
    acknowledgement is deleted under a receipt that was on record by then. *)
Definition own (L : Event -> Prop) (w : Inner) (ev : Event) : Prop :=
  L ev /\ forall r, ack_event r ev -> committed (in_state w) r.
Definition drops (ev : Event) : bool := match ev with DropAcked _ _ | DropGap _ _ => true | _ => false end.

Lemma own_does (L L' : Event -> Prop) w0 w w' :
  (forall ev, L' ev -> L ev /\ drops ev = false) -> does L' w w' -> does (own L w0) w w'.
Proof.
  intros HL. apply does_mono. intros ev [? Hd]%HL. split; [done|]. intros r Hr. by destruct ev.
Qed.
Lemma own_quiet (L : Event -> Prop) w : L Quiet -> own L w Quiet.
Proof. intros ?. split; [done|]. by intros r []. Qed.

(** From a spool of which [K] is known, every section of [p] performs events of
    [L] only; what is known when it ends is [Q] of its result. *)
Fixpoint safe {A} (L : Event -> Prop) (holds : bool) (p : Proc A) (K : Know)
    (Q : Result SpoolError A -> Know) : Prop :=
  match p with
  | Done r => forall used w, wf w -> covered used w -> K used w -> Q r used w
  | Atomic m k => forall used w, wf w -> covered used w -> K used w ->
      does (own L w) w (m w).2 /\
      exists K', stable holds K' /\
        (forall used', used ⊆ used' -> covered used' (m w).2 -> K' used' (m w).2) /\
        safe L holds (k (m w).1) K' Q
  end.

Context (L : Event -> Prop) (holds : bool).

Lemma safe_pre {A} (p : Proc A) (K K' : Know) Q :
  (forall used w, wf w -> covered used w -> K used w -> K' used w) -> safe L holds p K' Q -> safe L holds p K Q.
Proof. destruct p; cbn; intros HK Hp used w Hwf Hc Hk; apply Hp; auto. Qed.

Lemma safe_done {A} (r : Result SpoolError A) (K : Know) (Q : Result SpoolError A -> Know) :
  (forall used w, K used w -> Q r used w) -> safe L holds (Done r) K Q.
Proof. cbn. auto. Qed.

Lemma safe_then {A B} (p : Proc A) (k : Result SpoolError A -> Proc B) K Q R :
  safe L holds p K Q -> (forall r, safe L holds (k r) (Q r) R) -> safe L holds (then_ p k) K R.
Proof.
  intros Hp Hk. revert K Hp. induction p as [r|C m k' IH]; intros K Hp; cbn [then_].
  - by eapply safe_pre; [|apply Hk].
  - intros used w Hwf Hc HK. destruct (Hp used w Hwf Hc HK) as (Hd & K' & Hst & Hat & Hs).
    split; [done|]. exists K'. split_and!; [done..|]. by apply IH.
Qed.

(** Knowledge about a value: nothing after an error. *)
Definition if_ok {A} (Q : A -> Know) (r : Result SpoolError A) : Know :=
  fun used w => match r with Ok a => Q a used w | Err _ => True end.
Lemma stable_if_ok {A} (Q : A -> Know) r : (forall a, stable holds (Q a)) -> stable holds (if_ok Q r).
Proof. intros HQ. destruct r; [apply HQ|apply stable_true]. Qed.

Lemma safe_try {A B} (p : Proc A) (k : A -> Proc B) K Q R :
  safe L holds p K (if_ok Q) -> (forall a, safe L holds (k a) (Q a) (if_ok R)) -> safe L holds (try_ p k) K (if_ok R).
Proof. intros Hp Hk. eapply safe_then; [exact Hp|]. intros [a|e]; [apply Hk|by apply safe_done]. Qed.

Lemma safe_section {A} (m : SpoolM A) (K : Know) (Q : Result SpoolError A -> Know) :
  (forall r, stable holds (Q r)) ->
  (forall used w, wf w -> covered used w -> K used w ->
     does (own L w) w (m w).2 /\ forall used', used ⊆ used' -> covered used' (m w).2 -> Q (m w).1 used' (m w).2) ->
  safe L holds (section m) K Q.
Proof.
  intros HQ Hm used w Hwf Hc HK. destruct (Hm used w Hwf Hc HK) as [Hd Hq]. split; [done|].
  exists (Q (m w).1). split_and!; [apply HQ|done|]. by apply safe_done.
Qed.

(** A section nothing is learnt from. *)
Lemma safe_plain {A} (m : SpoolM A) (K : Know) :
  (forall used w, wf w -> K used w -> does (own L w) w (m w).2) -> safe L holds (section m) K (fun _ _ _ => True).
Proof. intros Hm. apply safe_section; [intros; apply stable_true|]. intros used w Hwf _ HK. split; [by eapply Hm|done]. Qed.

(** Knowledge that the thread's own events keep too can be carried along. *)
Lemma safe_frame {A} (p : Proc A) (K F : Know) Q :
  stable holds F ->
  (forall used used' w w', wf w -> covered used w -> used ⊆ used' -> does L w w' -> F used w -> F used' w') ->
  safe L holds p K Q -> safe L holds p (fun u w => K u w /\ F u w) (fun r u w => Q r u w /\ F u w).
Proof.
  intros Hst Hown. revert K. induction p as [r|C m k IH]; intros K Hp.
  - intros used w Hwf Hc [HK HF]. split; [by apply Hp|done].
  - intros used w Hwf Hc [HK HF]. destruct (Hp used w Hwf Hc HK) as (Hd & K' & HK' & Hat & Hs). split; [done|].
    exists (fun u w => K' u w /\ F u w). split_and!; [by apply stable_and| |by apply IH].
    intros used' Hsub Hc'. split; [by apply Hat|]. eapply Hown; [done..| |done].
    eapply does_mono; [|exact Hd]. by intros ev [].
Qed.

Lemma safe_post {A} (p : Proc A) (K : Know) Q Q' :
  (forall r used w, Q r used w -> Q' r used w) -> safe L holds p K Q -> safe L holds p K Q'.
Proof.
  intros HQ. revert K. induction p as [r|C m k IH]; intros K Hp.
  - intros used w Hwf Hc HK. by apply HQ, Hp.
  - intros used w Hwf Hc HK. destruct (Hp used w Hwf Hc HK) as (Hd & K' & ? & ? & Hs). split; [done|].
    exists K'. split_and!; [done..|]. by apply IH.
Qed.

(** A section that only reads. *)
Lemma safe_reads {A} (m : SpoolM A) (K : Know) (Q : Result SpoolError A -> Know) :
  L Quiet -> touches (fun _ => False) m -> (forall r, stable holds (Q r)) ->
  (forall used w, wf w -> covered used w -> K used w -> forall used' w', used ⊆ used' ->
     same_state w w' -> in_disk w' = in_disk w -> Q (m w).1 used' w') ->
  safe L holds (section m) K Q.
Proof.
  intros HL Hm HQ Hpost. apply safe_section; [done|]. intros used w Hwf Hc HK.
  destruct (Hm w) as (Hst & Ht & Hd).
  assert (Hdisk : in_disk (m w).2 = in_disk w) by (apply map_eq; intros p; apply Hd; by intros []).
  split; [apply does_ticks; try done; by apply own_quiet|]. intros used' Hsub _. by eapply Hpost.
Qed.
End Interleave.

(** ** Every method is safe *)

Section Methods.
Context {X : SpoolEnv} {SL : SpoolLaws} {ST : Start}.


Lemma known_same e used used' w w' :
  used ⊆ used' -> same_state w w' -> known e used w -> known e used' w'.
Proof. intros Hsub (_ & _ & Hs) (Hu & H64 & Hrest). rewrite <-Hs in Hrest. split_and!; [set_solver|done|apply Hrest..]. Qed.

(** What a reader knows after each half of [read_entry]. *)
Definition seen_or_bad {A} (e : Entry) (r : Result SpoolError A) : Know := fun used w =>
  known e used w /\ (r = Err CorruptRecord -> bad e used w).
Lemma stable_seen {A} holds e (r : Result SpoolError A) : stable holds (seen_or_bad e r).
Proof. apply stable_and; [apply stable_known|apply stable_imp, stable_bad]. Qed.

Lemma safe_half {A} L holds e (m : SpoolM A) :
  L Quiet -> touches (fun _ => False) m ->
  (forall w, readable (in_key w) (in_disk w) e -> wp m (fun r _ => r <> Err CorruptRecord) w) ->
  safe L holds (section m) (known e) (seen_or_bad e).
Proof.
  intros HL Hm Hnc. apply safe_reads; [done|done|intros; apply stable_seen|].
  intros used w Hwf Hc Hk used' w' Hsub Hst Hd. split; [by eapply known_same|]. intros Hr.
  split; [by eapply known_same|]. intros _ Hread. destruct Hst as (_ & Hkey & _). rewrite Hkey, Hd in Hread.
  by apply (Hnc w Hread).
Qed.

Lemma safe_read_entry L holds e :
  L Quiet -> safe L holds (p_read_entry e) (known e) (seen_or_bad e).
Proof.
  intros HL. unfold p_read_entry, try_. eapply safe_then.
  - apply safe_half; [done|apply touches_check_record_size|apply check_not_corrupt].
  - intros [[]|err].
    + eapply safe_pre; [|apply safe_half; [done|apply touches_read_record|apply read_not_corrupt]].
      by intros used w _ _ [? _].
    + apply safe_done. intros used w [? Hb]. split; [done|]. intros [= ->]. by apply Hb.
Qed.

Lemma safe_quarantine L holds e :
  (forall ev, quarantine_events ev -> L ev) ->
  safe L holds (section (quarantine_runtime_entry e)) (bad e) (fun _ _ _ => True).
Proof.
  intros HL. apply safe_plain. intros used w Hwf [(_ & _ & _ & _ & Hsame) Hbad].
  destruct (entries (in_state w) !! en_record_id e) as [e'|] eqn:He.
  - assert (e' = e) as -> by (by apply Hsame). apply (own_does L quarantine_events); [intros ev Hev; split; [by apply HL|by destruct ev]|].
    apply (quarantine_runtime_entry_ok e w Hwf); [by apply Hbad|]. intros e'. by rewrite He; intros [= ->].
  - unfold quarantine_runtime_entry, bind, get_state. rewrite He. rewrite bool_decide_false by (by intros [? ?]).
    apply does_refl.
Qed.

Lemma entry_known e used w r :
  wf w -> covered used w -> entries (in_state w) !! r = Some e -> known e used w.
Proof.
  intros [_ Hs] Hc He. destruct (ws_entries _ _ Hs _ _ He) as [Hk Hq _ _ Hp _ _].
  pose proof (ws_next _ _ Hs). unfold known. rewrite Hk. split_and!; [|unfold in_u64; lia|lia|done|congruence].
  destruct Hc as [Hc _]. apply Hc, elem_of_dom. by exists e.
Qed.

Lemma safe_events {A} (L L' : Event -> Prop) holds (p : Proc A) K Q :
  (forall ev, L ev -> L' ev) -> safe L holds p K Q -> safe L' holds p K Q.
Proof.
  intros HL. revert K. induction p as [r|C m k IH]; intros K Hp; [done|].
  intros used w Hwf Hc HK. destruct (Hp used w Hwf Hc HK) as (Hd & K' & ? & ? & Hs).
  split; [|exists K'; split_and!; [done..|by apply IH]].
  eapply does_mono; [|exact Hd]. intros ev [? ?]. split; [by apply HL|done].
Qed.

(** Building a batch does nothing its own thread, or another, must fear. *)
Lemma quarantine_rely holds used ev : quarantine_events ev -> rely holds used ev.
Proof. by destruct ev. Qed.
Lemma safe_carry {A} holds (p : Proc A) (K F : Know) Q :
  stable holds F -> safe quarantine_events holds p K Q ->
  safe quarantine_events holds p (fun u w => K u w /\ F u w) (fun r u w => Q r u w /\ F u w).
Proof.
  intros HF. apply safe_frame; [done|]. intros used used' w w' Hwf Hc Hsub Hd. apply HF; [done..|].
  eapply does_mono; [|exact Hd]. apply quarantine_rely.
Qed.

(** *** Version 1 *)

Lemma safe_build_v1_loop holds c ordered records body :
  safe quarantine_events holds (p_build_v1_loop c ordered records body)
    (fun used w => forall e, e ∈ ordered -> known e used w) (fun _ _ _ => True).
Proof.
  revert records body. induction ordered as [|e ordered IH]; intros records body;
    cbn [p_build_v1_loop]; [by apply safe_done|]. destruct (_ <=? _); [by apply safe_done|].
  set (F := fun used w => forall e', e' ∈ ordered -> known e' used w : Prop).
  assert (HF : stable holds F) by (apply stable_forall; intros; apply stable_known).
  eapply safe_then with (Q := fun r used w => seen_or_bad e r used w /\ F used w).
  { eapply safe_pre; [|apply (safe_carry holds (p_read_entry e) (known e) F (seen_or_bad e) HF); by apply safe_read_entry].
    intros used w _ _ HK. split; [apply HK; by left|]. intros e' ?. apply HK. by right. }
  assert (Hnext : forall records body, safe quarantine_events holds (p_build_v1_loop c ordered records body)
    (fun used w => F used w) (fun _ _ _ => True)) by done.
  intros [stored|err].
  - destruct (to_vec _) as [encoded|]; [|by apply safe_done]. destruct (_ && _); [by apply safe_done|].
    destruct (_ <? _); [by apply safe_done|]. eapply safe_pre; [|apply Hnext]. by intros used w _ _ [_ ?].
  - destruct err; try by apply safe_done.
    eapply safe_then with (Q := fun r used w => True /\ F used w).
    + eapply safe_pre; [|apply (safe_carry holds (section (quarantine_runtime_entry e)) (bad e) F (fun _ _ _ => True) HF);
        by apply safe_quarantine].
      intros used w _ _ [[_ Hb] ?]. split; [by apply Hb|done].
    + intros [[]|err]; [|by apply safe_done]. eapply safe_pre; [|apply Hnext]. by intros used w _ _ [_ ?].
Qed.

(** A section whose result is a function of the state. *)
Lemma safe_query {A} L holds (m : SpoolM A) K (Q : A -> Know) :
  L Quiet -> touches (fun _ => False) m -> (forall a, stable holds (Q a)) ->
  (forall used w a, wf w -> covered used w -> K used w -> (m w).1 = Ok a -> forall used' w', used ⊆ used' ->
     same_state w w' -> in_disk w' = in_disk w -> Q a used' w') ->
  safe L holds (section m) K (if_ok Q).
Proof.
  intros HL Hm HQ Hpost. apply safe_reads; [done|done|intros; by apply stable_if_ok|].
  intros used w Hwf Hc HK used' w' Hsub Hst Hd. destruct (m w).1 as [a|] eqn:E; [|done]. by eapply Hpost.
Qed.

Lemma safe_build_batch holds : safe quarantine_events holds p_build_batch (fun _ _ => True) (if_ok (fun _ _ _ => True)).
Proof.
  unfold p_build_batch.
  apply safe_try with (Q := fun snapshot used w => forall e, e ∈ snapshot.2 -> known e used w).
  - apply safe_query; [done|touches_tac|intros; apply stable_forall; intros; apply stable_known|].
    intros used w a Hwf Hc _ Ha used' w' Hsub Hst _ e He. unfold bind, get_state, throw_if, get_config, ret in Ha.
    destruct (unresolved_integrity (in_state w)); [done|]. injection Ha as <-. cbn in He.
    rewrite sort_by_perm in He. apply elem_of_btree_values in He as [r He].
    eapply known_same; [done..|]. by eapply entry_known.
  - intros snapshot. apply safe_try with (Q := fun _ _ _ => True).
    + eapply safe_post; [|apply safe_build_v1_loop]. by intros [].
    + intros records. eapply safe_post; [|apply safe_plain]; [by intros []|].
      intros used w Hwf _. apply ok_scratch; [by apply own_quiet|touches_tac|done].
Qed.

Lemma safe_next_batch holds now :
  safe (fun ev => expire_events ev \/ quarantine_events ev) holds (p_next_batch now) (fun _ _ => True) (if_ok (fun _ _ _ => True)).
Proof.
  unfold p_next_batch. apply safe_try with (Q := fun _ _ _ => True).
  { eapply safe_post; [|apply safe_plain]; [by intros []|]. intros used w Hwf _.
    eapply own_does; [|by apply expire_due_ok]. intros ev Hev. split; [by left|by destruct ev]. }
  intros _. apply safe_try with (Q := fun _ _ _ => True).
  { eapply safe_post; [|apply safe_plain]; [by intros []|]. intros used w Hwf _.
    apply ok_scratch; [apply own_quiet; by left|touches_tac|done]. }
  intros _. eapply safe_events; [|apply safe_build_batch]. by right.
Qed.

(** *** Version 2 *)

(** Every notice of a list may be accepted. *)
Definition all_acceptable (l : list GapNoticeV2) : Know :=
  fun used w => forall g, g ∈ l -> acceptable (gn_notice_id g) used w.
Definition cand_known (candidate : BatchCandidateV2) : Know := fun used w =>
  match candidate with
  | CandRecord e => known e used w /\ acceptable (notice_of e) used w
  | CandGap g => acceptable (gn_notice_id g) used w
  end.
Definition all_known (l : list BatchCandidateV2) : Know := fun used w => forall x, x ∈ l -> cand_known x used w.

Lemma stable_cand_known holds x : stable holds (cand_known x).
Proof. destruct x; [apply stable_and; [apply stable_known|]|]; apply stable_acceptable. Qed.
Lemma stable_all_known holds l : stable holds (all_known l).
Proof. apply stable_forall. intros. apply stable_cand_known. Qed.
Lemma stable_all_acceptable holds l : stable holds (all_acceptable l).
Proof. apply stable_forall. intros. apply stable_acceptable. Qed.

Definition item_acceptable (item : option BatchItemV2) : Know := fun used w =>
  match item with Some (ItemGap g) => acceptable (gn_notice_id g) used w | _ => True end.
Lemma stable_item_acceptable holds item : stable holds (item_acceptable item).
Proof. destruct item as [[r|g]|]; [apply stable_true|apply stable_acceptable|apply stable_true]. Qed.

Lemma safe_resolve holds counted x :
  safe quarantine_events holds (p_resolve_candidate counted x) (cand_known x) (if_ok item_acceptable).
Proof.
  destruct x as [e|g]; cbn [p_resolve_candidate]; [|by apply safe_done].
  assert (Hread : safe quarantine_events holds (p_read_entry e) (cand_known (CandRecord e))
    (fun r used w => seen_or_bad e r used w /\ acceptable (notice_of e) used w)).
  { apply (safe_carry holds (p_read_entry e) (known e) _ (seen_or_bad e)); [apply stable_acceptable|by apply safe_read_entry]. }
  destruct (bool_decide _); (eapply safe_then; [exact Hread|]).
  - intros [stored|err]; apply safe_done; [by intros used w [_ ?]|done].
  - intros [stored|err]; [by apply safe_done|]. destruct err; try by apply safe_done.
    eapply safe_then; [|intros [[]|?]; by apply safe_done].
    eapply safe_pre; [|by apply safe_quarantine]. intros used w _ _ [[_ Hb] _]. by apply Hb.
Qed.

Definition found_acceptable (found : list HubBatchRecordV2 * list GapNoticeV2 * bool) : Know :=
  all_acceptable found.1.2.

Lemma safe_build_v2_loop holds c counted candidates records gaps body q :
  safe quarantine_events holds (p_build_v2_loop c counted candidates records gaps body q)
    (fun used w => all_known candidates used w /\ all_acceptable gaps used w)
    (if_ok found_acceptable).
Proof.
  revert records gaps body q. induction candidates as [|x candidates IH]; intros records gaps body q;
    cbn [p_build_v2_loop]; [apply safe_done; by intros used w [_ ?]|].
  assert (Hstop : forall q (item : option BatchItemV2), safe quarantine_events holds (Done (Ok (records, gaps, q)))
    (fun used w => item_acceptable item used w /\ all_known candidates used w /\ all_acceptable gaps used w)
    (if_ok found_acceptable)) by (intros; apply safe_done; by intros used w (_ & _ & ?)).
  destruct (_ <=? _); [apply safe_done; by intros used w [_ ?]|].
  apply safe_try with (Q := fun item used w =>
    item_acceptable item used w /\ all_known candidates used w /\ all_acceptable gaps used w).
  { eapply safe_pre; [|eapply safe_post; [|apply (safe_carry holds (p_resolve_candidate counted x) (cand_known x)
      (fun used w => all_known candidates used w /\ all_acceptable gaps used w) (if_ok item_acceptable));
      [apply stable_and; [apply stable_all_known|apply stable_all_acceptable]|apply safe_resolve]]].
    - intros used w _ _ [HK Hg]. split_and!; [apply HK; by left|intros y ?; apply HK; by right|done].
    - by intros [item|err] used w [? ?]. }
  intros [item|]; [|eapply safe_pre; [|apply IH]; by intros used w _ _ [_ ?]].
  destruct (match item with ItemRecord _ => _ | ItemGap _ => _ end); [apply Hstop|].
  destruct (item_to_vec item) as [encoded|]; [|by apply safe_done].
  destruct (_ && _); [apply Hstop|]. destruct (_ <? _); [by apply safe_done|].
  destruct item as [r|g]; (eapply safe_pre; [|apply IH]); intros used w _ _ (Hi & Hx & Hg); (split; [done|]); [done|].
  intros g' [?| ->%list_elem_of_singleton]%elem_of_app; [by apply Hg|exact Hi].
Qed.

Lemma all_known_same l used used' w w' : used ⊆ used' -> same_state w w' -> all_known l used w -> all_known l used' w'.
Proof.
  intros Hsub Hst HK x Hx. specialize (HK x Hx). pose proof Hst as (_ & _ & Hs).
  destruct x as [e|g]; cbn in *; unfold acceptable in *; rewrite Hs; [|done].
  destruct HK as [Hk ?]. split; [|done]. by eapply known_same.
Qed.

(** What the first look tells, and the second. *)
Definition records_known (looked : SpoolConfig * gmap Z RecordId * list Entry) : Know := fun used w =>
  (forall e, e ∈ looked.2 -> known e used w /\ acceptable (notice_of e) used w) /\
  exists n, listed n looked.2 used w.
Lemma stable_records_known holds looked : stable holds (records_known looked).
Proof.
  apply stable_and.
  - apply stable_forall. intros. apply stable_and; [apply stable_known|apply stable_acceptable].
  - intros u u' w w' Hwf Hs Hd [n Hn]. exists n. by eapply stable_listed.
Qed.

Lemma safe_look_records holds :
  safe quarantine_events holds (section look_records) (fun _ _ => True) (if_ok records_known).
Proof.
  apply safe_query; [done|unfold look_records; touches_tac|intros; apply stable_records_known|].
  intros used w a Hwf Hc _ Ha used' w' Hsub Hst _.
  unfold look_records, bind, get_state, throw_if, get_config, ret in Ha.
  destruct (unresolved_integrity (in_state w)); [done|]. injection Ha as <-.
  pose proof Hst as (_ & _ & Hs'). pose proof Hwf as [_ Hs]. split; cbn [snd].
  - intros e He. rewrite sort_by_key_perm in He. apply elem_of_btree_values in He as [r He].
    split; [by eapply known_same, entry_known|]. unfold acceptable. rewrite Hs'.
    destruct (ws_entries _ _ Hs _ _ He) as [_ Hseq _ _ _ _ _]. by do 3 eexists.
  - exists (next_spool_sequence (in_state w)). destruct Hc as (_ & Hstart & _). unfold listed. rewrite Hs'.
    split; [lia|]. intros r e He. left. rewrite sort_by_key_perm. apply elem_of_btree_values. eauto.
Qed.

(** A notice found beside records that were listed before may be accepted. *)
Lemma gap_acceptable c s used n ordered g ge (w : Inner) :
  in_state w = s -> wf_state c s -> covered used w -> listed n ordered used w -> gaps s !! g = Some ge ->
  (forall e, e ∈ ordered -> en_spool_seq e <> gn_spool_seq (ge_notice ge)) ->
  accepted_notice s (gn_notice_id (ge_notice ge)).
Proof.
  intros <- Hs (_ & _ & Htidy) [Hn Hl] Hg Hne. destruct (ws_gaps _ _ Hs _ _ Hg) as [_ Hv Hseq _ _].
  exists (gn_spool_seq (ge_notice ge)), (gn_reason (ge_notice ge)), (gn_evidence_sha256 (ge_notice ge)).
  split_and!; [by apply valid_gap_notice_id|lia..|]. intros Hr r e He E.
  destruct (Hl r e He) as [Hin|Hlate]; [by apply (Hne e)|].
  specialize (Htidy r e He). assert (en_spool_seq e < start); [|lia]. apply Htidy. by exists g, ge.
Qed.

Lemma safe_look_gaps holds looked :
  safe quarantine_events holds (section (look_gaps looked.2)) (records_known looked) (if_ok all_known).
Proof.
  apply safe_query; [done|unfold look_gaps; touches_tac|intros; apply stable_all_known|].
  intros used w a Hwf Hc [Hk [n Hl]] Ha used' w' Hsub Hst _.
  unfold look_gaps, bind, get_state, throw_if, ret in Ha.
  destruct (adjacent_duplicate _) eqn:Hdup; [done|]. injection Ha as <-.
  apply no_adjacent_duplicate in Hdup; [|apply sort_by_key_sorted].
  eapply all_known_same; [done..|]. pose proof Hwf as [_ Hs].
  intros x Hin. pose proof Hin as Hin'. rewrite sort_by_key_perm, elem_of_app, !list_elem_of_fmap in Hin'.
  destruct Hin' as [(e & -> & He)|(g & -> & Hg)]; [by apply Hk|].
  apply list_elem_of_fmap in Hg as (ge & -> & Hge). apply elem_of_btree_values in Hge as [k Hge].
  eapply gap_acceptable; [done..|]. intros e He E.
  assert (CandRecord e = CandGap (ge_notice ge)); [|done]. eapply strict_inj; [exact Hdup| |done..].
  rewrite sort_by_key_perm, elem_of_app. left. by apply list_elem_of_fmap_2.
Qed.

Lemma safe_build_batch_v2 holds fuel :
  safe quarantine_events holds (p_build_batch_v2 fuel) (fun _ _ => True) (if_ok (fun batch => all_acceptable (b2_gaps batch))).
Proof.
  induction fuel as [|fuel IH]; cbn [p_build_batch_v2]; [by apply safe_done|].
  apply safe_try with (Q := records_known); [apply safe_look_records|]. intros looked.
  pose proof (safe_look_gaps holds looked) as Hgaps. destruct looked as [[c counted] ordered].
  apply safe_try with (Q := all_known); [exact Hgaps|]. intros candidates.
  apply safe_try with (Q := found_acceptable).
  { eapply safe_pre; [|apply safe_build_v2_loop]. intros used w _ _ HK. split; [done|]. by intros g ?%elem_of_nil. }
  intros [[records gaps] []]; [|by apply safe_done]. eapply safe_pre; [|apply IH]. done.
Qed.

Lemma safe_next_batch_v2 holds fuel now :
  safe (fun ev => expire_events ev \/ quarantine_events ev) holds (p_next_batch_v2 fuel now) (fun _ _ => True) (if_ok (fun _ _ _ => True)).
Proof.
  unfold p_next_batch_v2. apply safe_try with (Q := fun _ _ _ => True).
  { eapply safe_post; [|apply safe_plain]; [by intros []|]. intros used w Hwf _.
    eapply own_does; [|by apply expire_due_ok]. intros ev Hev. split; [by left|by destruct ev]. }
  intros _. eapply safe_post; [|eapply safe_events; [|apply safe_build_batch_v2]]; [by intros []|by right].
Qed.

(** *** Acknowledgements *)

Lemma safe_pure {A} L holds (p : Proc A) (P : Prop) (K : Know) Q :
  (P -> safe L holds p K Q) -> safe L holds p (fun u w => P /\ K u w) Q.
Proof. destruct p; cbn; intros Hp used w Hwf Hc [HP HK]; by apply Hp. Qed.

(** Room for a receipt of batch [b] at [seq], which only the holder of the
    mutex can take. *)
Definition no_receipt (b : str) : Know := fun _ w => receipts (in_state w) !! b = None.
Definition drawn (b : str) (seq : Z) : Know := fun _ w =>
  receipts (in_state w) !! b = None /\ 0 <= seq < next_receipt_sequence (in_state w) /\
  forall b' re, receipts (in_state w) !! b' = Some re -> ar_sequence (re_receipt re) < seq.
Definition recorded (r : AckReceipt) : Know := fun _ w => committed (in_state w) r.

Lemma stable_no_receipt b : stable true (no_receipt b).
Proof. apply (stable_receipts (fun rs _ => rs !! b = None)). Qed.
Lemma stable_drawn b seq : stable true (drawn b seq).
Proof.
  apply (stable_receipts (fun rs next => rs !! b = None /\ 0 <= seq < next /\
    forall b' re, rs !! b' = Some re -> ar_sequence (re_receipt re) < seq)).
Qed.
Lemma stable_recorded r : stable true (recorded r).
Proof. apply (stable_receipts (fun rs _ => exists re, rs !! ar_batch_id r = Some re /\ re_receipt re = r)). Qed.

Definition ids_acceptable (ids : list RecordId) : Know := fun used w => forall n, n ∈ ids -> acceptable n used w.
Lemma stable_ids holds ids : stable holds (ids_acceptable ids).
Proof. apply stable_forall. intros. apply stable_acceptable. Qed.

(** Completing a receipt deletes under that receipt only, which is on record. *)
Lemma safe_complete (P Q : AckReceipt -> Prop) r :
  P r -> safe (ack_events P Q) true (section (complete_receipt r)) (recorded r) (fun _ _ _ => True).
Proof.
  intros HP. apply safe_plain. intros used w Hwf Hr. eapply does_mono; [|by apply complete_receipt_ok].
  intros ev Hev. split; [by eapply complete_ack|]. intros r' Hr'. destruct ev; try done; cbn in *; by subst.
Qed.

Lemma safe_commit {A} P Q (mk : Z -> AckReceipt) b ids (result : AckReceipt -> A) :
  (forall seq, P (mk seq) /\ Q (mk seq) /\ ar_batch_id (mk seq) = b /\ ar_sequence (mk seq) = seq /\
     ar_accepted_gap_notice_ids (mk seq) = ids /\ named (mk seq)) ->
  safe (ack_events P Q) true (p_commit mk result)
    (fun used w => no_receipt b used w /\ ids_acceptable ids used w) (if_ok (fun _ _ _ => True)).
Proof.
  intros Hmk. unfold p_commit.
  apply safe_try with (Q := fun seq used w => drawn b seq used w /\ ids_acceptable ids used w).
  { apply safe_section; [intros; apply stable_if_ok; intros; apply stable_and; [apply stable_drawn|apply stable_ids]|].
    intros used w Hwf Hc [Hno Hids]. destruct (take_receipt_sequence_ok (own (ack_events P Q) w) w Hwf) as [Hd Hw]; [split; [done|by intros r []]|].
    split; [done|]. intros used' Hsub _. destruct (take_receipt_sequence w).1 as [seq|] eqn:E; [|done].
    destruct (Hw seq eq_refl) as [-> Hw']. pose proof Hwf as [_ Hs]. pose proof (ws_next_receipt _ _ Hs).
    split; [|rewrite Hw'; exact Hids]. rewrite Hw'. unfold drawn. cbn. split_and!; [done|lia|lia|].
    intros b' re Hre. apply (wr_seq _ _ _ (ws_receipts _ _ Hs _ _ Hre)). }
  intros seq. destruct (Hmk seq) as (HP & HQ & Hb & Hseq & Hgs & Hnm).
  apply safe_try with (Q := fun _ => recorded (mk seq)).
  { apply safe_section; [intros; apply stable_if_ok; intros; apply stable_recorded|].
    intros used w Hwf Hc [(Hno & Hlt & Hnew) Hids]. destruct (record_receipt_ok (fun _ => False) Q (mk seq) w Hwf HQ) as [Hd Hw].
    - cbn. rewrite Hb, Hseq, Hgs. split_and!; try done; lia.
    - split; [eapply own_does; [|exact Hd]; by intros []|]. intros used' _ _. destruct (record_receipt (mk seq) w).1 as [[]|] eqn:E; [|done].
      unfold if_ok, recorded. rewrite (Hw eq_refl). exists (receipt_entry (mk seq)). cbn. by rewrite lookup_insert_eq. }
  intros _. apply safe_try with (Q := fun _ _ _ => True).
  { eapply safe_post; [|by apply safe_complete]. by intros []. }
  intros _. apply safe_try with (Q := fun _ _ _ => True); [|intros; by apply safe_done].
  eapply safe_post; [|apply safe_plain]; [by intros []|]. intros used w Hwf _.
  eapply own_does; [|by apply prune_receipts_ok]. by intros [].
Qed.

Lemma safe_replay {A} (P Q : AckReceipt -> Prop) r (a : A) :
  P r -> safe (ack_events P Q) true (do! _ := section (complete_receipt r) in Done (Ok a)) (recorded r) (if_ok (fun _ _ _ => True)).
Proof.
  intros HP. apply safe_try with (Q := fun _ _ _ => True); [|intros; by apply safe_done].
  eapply safe_post; [|by apply safe_complete]. by intros [].
Qed.

(** A look at the receipts, under the acknowledgement mutex. *)
Definition looked_up (b : str) (state : State) : Know := fun used w =>
  match receipts state !! b with
  | Some prior => ar_batch_id (re_receipt prior) = b /\ recorded (re_receipt prior) used w
  | None => no_receipt b used w
  end.
Lemma safe_look_up P Q b : safe (ack_events P Q) true (section get_state) (fun _ _ => True) (if_ok (looked_up b)).
Proof.
  apply safe_query; [done|touches_tac| |].
  - intros state. unfold looked_up. destruct (receipts state !! b); [|apply stable_no_receipt].
    apply stable_and; [by intros ? ? ? ? _ _ _|apply stable_recorded].
  - intros used w state [_ Hs] _ _ [= <-] used' w' _ (_ & _ & Hst) _. unfold looked_up.
    destruct (receipts (in_state w) !! b) as [prior|] eqn:Hre; [|unfold no_receipt; by rewrite Hst].
    pose proof (wr_key _ _ _ (ws_receipts _ _ Hs _ _ Hre)) as Hb. split; [done|].
    exists prior. rewrite Hst, Hb. done.
Qed.

(** Collecting the admissions: what the receipt will delete was accepted by name. *)
Lemma safe_admissions P Q (f : State -> Result SpoolError (list ReceiptAdmission)) (ok_ : ReceiptAdmission -> Prop) (F : Know) :
  (forall c s l a, wf_state c s -> f s = Ok l -> a ∈ l -> ok_ a) -> stable true F ->
  (forall used used' w w', same_state w w' -> used ⊆ used' -> F used w -> F used' w') ->
  safe (ack_events P Q) true (section (let! state := get_state in of_result (f state))) F
    (if_ok (fun l used w => (forall a, a ∈ l -> ok_ a) /\ F used w)).
Proof.
  intros Hf HF Hsame. apply safe_query; [done|touches_tac|intros; apply stable_and; [by intros ? ? ? ? _ _ _|done]|].
  intros used w l [_ Hs] _ HK Hl used' w' Hsub Hst _. split; [|by eapply Hsame].
  intros a. by eapply Hf; [exact Hs|exact Hl].
Qed.

(** The rest of an acknowledgement that finds no receipt: collect, draw, commit. *)
Lemma safe_fresh {A} P Q (f : State -> Result SpoolError (list ReceiptAdmission)) (ok_ : ReceiptAdmission -> Prop)
    (mk : list ReceiptAdmission -> Z -> AckReceipt) b ids (result : AckReceipt -> A) :
  (forall c s l a, wf_state c s -> f s = Ok l -> a ∈ l -> ok_ a) ->
  (forall l, (forall a, a ∈ l -> ok_ a) -> forall seq, P (mk l seq) /\ Q (mk l seq) /\ ar_batch_id (mk l seq) = b /\
     ar_sequence (mk l seq) = seq /\ ar_accepted_gap_notice_ids (mk l seq) = ids /\ named (mk l seq)) ->
  safe (ack_events P Q) true
    (do! admissions := section (let! state := get_state in of_result (f state)) in p_commit (mk admissions) result)
    (fun used w => no_receipt b used w /\ ids_acceptable ids used w) (if_ok (fun _ _ _ => True)).
Proof.
  intros Hf Hmk. eapply safe_try.
  - apply (safe_admissions P Q f ok_); [done|apply stable_and; [apply stable_no_receipt|apply stable_ids]|].
    intros used used' w w' (_ & _ & Hs) _ [Hno Hids]. unfold no_receipt, ids_acceptable, acceptable. rewrite Hs. by split.
  - intros l. apply safe_pure. intros Hl. by apply safe_commit, Hmk.
Qed.

Lemma safe_acknowledge_v2 fuel ack :
  safe (ack_events (receipt_for ack) (issued_v2 ack)) true (p_acknowledge_v2 fuel ack) (fun _ _ => True) (if_ok (fun _ _ _ => True)).
Proof.
  unfold p_acknowledge_v2. destruct (_ || _); [by apply safe_done|].
  apply safe_try with (Q := looked_up (a2_batch_id ack)); [apply safe_look_up|]. intros state.
  unfold looked_up. destruct (receipts state !! a2_batch_id ack) as [prior|].
  - apply safe_pure. intros Hb. destruct (_ || _) eqn:Eb; [by apply safe_done|].
    rewrite !orb_false_iff, !negb_false_iff, Z.eqb_eq in Eb. destruct Eb as [[Hv Hr] Hg]. by apply safe_replay.
  - apply safe_try with (Q := fun delivered used w =>
      all_acceptable (b2_gaps delivered) used w /\ no_receipt (a2_batch_id ack) used w).
    + eapply safe_events; [apply quarantine_ack|]. eapply safe_pre; [|eapply safe_post;
        [|apply (safe_carry true _ _ _ _ (stable_no_receipt (a2_batch_id ack)) (safe_build_batch_v2 true fuel))]]; [done|].
      by intros [delivered|e] used w [? ?].
    + intros delivered. destruct (negb _) eqn:Em; [by apply safe_done|].
      apply negb_false_iff, ack_matches_v2_true in Em as (_ & _ & Hgaps & _).
      eapply safe_pre; [|apply (safe_fresh _ _ (fun state => receipt_admissions_v2 state delivered ack)
        (fun a => ra_stable_record_id a ∈ a2_accepted_record_ids ack) (receipt_of ack) (a2_batch_id ack)
        (a2_accepted_gap_notice_ids ack))].
      * intros used w _ _ [Hg Hno]. split; [done|]. intros n Hn.
        apply Hgaps, list_elem_of_fmap in Hn as (g & -> & Hin). by apply Hg.
      * intros c s l a _ Hl Ha. by destruct (admissions_v2 _ _ _ _ _ Hl Ha).
      * intros l Hl seq. assert (Hi : issued_v2 ack (receipt_of ack l seq)) by (by split_and!).
        split_and!; try done; [by apply issued_for|by eapply issued_named_v2].
Qed.

Lemma safe_acknowledge ack :
  safe (ack_events (receipt_for_v1 ack) (issued_v1 ack)) true (p_acknowledge ack) (fun _ _ => True) (if_ok (fun _ _ _ => True)).
Proof.
  unfold p_acknowledge. destruct (_ || _); [by apply safe_done|].
  apply safe_try with (Q := looked_up (a1_batch_id ack)); [apply safe_look_up|]. intros state.
  unfold looked_up. destruct (receipts state !! a1_batch_id ack) as [prior|].
  - apply safe_pure. intros Hb. destruct (negb _) eqn:Eb; [by apply safe_done|].
    apply negb_false_iff in Eb. by apply safe_replay.
  - destruct (v1_ack_history_pruned state); [by apply safe_done|].
    apply safe_try with (Q := fun delivered => no_receipt (a1_batch_id ack)).
    + eapply safe_events; [apply quarantine_ack|]. eapply safe_pre; [|eapply safe_post;
        [|apply (safe_carry true _ _ _ _ (stable_no_receipt (a1_batch_id ack)) (safe_build_batch true))]]; [done|].
      by intros [delivered|e] used w [_ ?].
    + intros delivered. destruct (_ || _); [by apply safe_done|].
      eapply safe_pre; [|apply (safe_fresh _ _ (fun state => receipt_admissions_v1 state delivered ack)
        (fun a => ra_legacy_record_id a ∈ a1_accepted_record_ids ack) (fun admissions sequence => {|
              ar_version := 1;
              ar_sequence := sequence;
              ar_batch_id := a1_batch_id ack;
              ar_accepted_record_ids := a1_accepted_record_ids ack;
              ar_accepted_stable_record_ids := [];
              ar_accepted_gap_notice_ids := [];
              ar_accepted_admissions := admissions |}) (a1_batch_id ack) [])].
      * intros used w _ _ Hno. split; [done|]. by intros n ?%elem_of_nil.
      * intros c s l a Hs Hl Ha. by destruct (admissions_v1 _ _ _ _ _ _ Hs Hl Ha).
      * intros l Hl seq. match goal with |- receipt_for_v1 _ ?r /\ _ => assert (Hi : issued_v1 ack r) by (by split_and!) end.
        split_and!; try done; [by apply issued_for_v1|by eapply issued_named_v1].
Qed.

(** *** The others *)

Lemma safe_enqueue holds envelope now :
  in_i64 now -> safe admit_events holds (p_enqueue envelope now) (fun _ _ => True) (if_ok (fun _ _ _ => True)).
Proof.
  intros Hnow. unfold p_enqueue. apply safe_try with (Q := fun _ used w => validate envelope = Ok tt /\ True).
  - apply safe_query; [done|touches_tac|by intros ? ? ? ? ? _ _ _|].
    intros used w a _ _ _ Ha used' w' _ _ _. split; [|done]. revert Ha. unfold bind, throw_if.
    by destruct (validate envelope) as [[]|].
  - intros _. apply safe_pure. intros Hv. eapply safe_post; [|apply safe_plain]; [by intros []|].
    intros used w Hwf _. eapply own_does; [|by apply enqueue_locked_ok]. by intros [].
Qed.

Lemma safe_sync holds dirs : safe (fun ev => ev = Quiet) holds (p_sync dirs) (fun _ _ => True) (if_ok (fun _ _ _ => True)).
Proof.
  induction dirs as [|d dirs IH]; cbn [p_sync]; [by apply safe_done|].
  apply safe_try with (Q := fun _ _ _ => True); [|intros _; apply IH].
  eapply safe_post; [|apply safe_plain]; [by intros []|]. intros used w Hwf _. apply ok_scratch; [by apply own_quiet|touches_tac|done].
Qed.

Definition anything {A} (r : Result SpoolError A) : Know := fun _ _ => True.

Lemma safe_ended {A} L holds (p : Proc A) Q :
  safe L holds p (fun _ _ => True) Q -> safe L holds (ended p) (fun _ _ => True) anything.
Proof. intros Hp. eapply safe_then; [exact Hp|]. intros r. by apply safe_done. Qed.

(** Every method, among other threads that keep to theirs. *)
Lemma safe_program fuel cmd :
  cmd_ok cmd -> safe (cmd_events cmd) (takes_lock cmd) (program fuel cmd) (fun _ _ => True) anything.
Proof.
  intros Hok. destruct cmd; cbn [program cmd_events takes_lock]; try eapply safe_ended.
  - by apply safe_enqueue.
  - eapply safe_post; [|apply safe_plain]; [intros; exact I|]. intros used w Hwf _. eapply own_does; [|by apply expire_due_ok]. by intros [].
  - apply safe_next_batch.
  - apply safe_next_batch_v2.
  - apply safe_acknowledge.
  - apply safe_acknowledge_v2.
  - eapply safe_post; [|apply safe_sync]; done.
Qed.

End Methods.
