(* ===== verification/SpoolConcurrent.v ===== *)
(** * Any number of concurrent calls

    The threads of [SpoolThreads], each safe by [SpoolInterleave], together:
    whatever the scheduler does, the spool performs events of the calls that
    run, in some order, so the promises of the event system hold. *)

From S2P Require Import Prelude Protocol Crypto Fs SpoolTypes SpoolFacts SpoolBase SpoolOps.
From S2P Require Import SpoolFrame SpoolInv SpoolSpec SpoolRefine SpoolRefineOps SpoolDelivery SpoolReceipts SpoolAck.
From S2P Require Import SpoolSystem SpoolThreads SpoolInterleave.

Definition cmd_of (t : Thread) : Cmd :=
  match t with Waiting cmd | Running cmd _ | Finished cmd _ => cmd end.

Section Concurrent.
Context {X : SpoolEnv}.

(** ** Every call can be brought to its end *)

Definition unfinished (t : Thread) : bool := match t with Finished _ _ => false | _ => true end.
Definition work (threads : list Thread) : nat := length (List.filter unfinished threads).

Lemma interleave_app fuel s1 s2 sys : interleave fuel (s1 ++ s2) sys = interleave fuel s2 (interleave fuel s1 sys).
Proof. apply foldl_app. Qed.

Lemma run_to_end fuel k cmd p threads w :
  threads !! k = Some (Running cmd p) ->
  exists n r w', interleave fuel (replicate n k) (threads, w) = (<[k := Finished cmd r]> threads, w').
Proof.
  revert threads w. induction p as [r|B m p IH]; intros threads w Hk.
  - exists 1%nat, r, w. cbn. by rewrite Hk.
  - destruct (m w) as [r w1] eqn:Em.
    destruct (IH r (<[k := Running cmd (p r)]> threads) w1) as (n & r' & w' & E).
    { apply list_lookup_insert_eq. by eapply lookup_lt_Some. }
    exists (S n), r', w'. cbn [replicate]. change (interleave fuel (k :: ?l) ?s) with (interleave fuel l (next fuel k s)).
    unfold next. rewrite Hk, Em, E. by rewrite list_insert_insert_eq.
Qed.

Lemma work_insert threads k t t' :
  threads !! k = Some t -> unfinished t = true -> unfinished t' = false ->
  work threads = S (work (<[k := t']> threads)).
Proof.
  unfold work. intros Hk Ht Ht'. revert k Hk.
  induction threads as [|t0 threads IH]; intros [|k] Hk; cbn in *; [done..| |].
  - injection Hk as ->. by rewrite Ht, Ht'.
  - destruct (unfinished t0); cbn; by rewrite (IH k Hk).
Qed.

(** A thread that can be brought to its end: a running one, or, when none
    holds the mutex, a waiting one. *)
Lemma one_ends fuel threads w :
  existsb unfinished threads = true ->
  exists schedule k t cmd r w', threads !! k = Some t /\ unfinished t = true /\
    interleave fuel schedule (threads, w) = (<[k := Finished cmd r]> threads, w').
Proof.
  intros Hex. destruct (existsb holds_lock threads) eqn:El.
  - apply existsb_exists in El as (t & Hin & Hh). apply list_elem_of_In, list_elem_of_lookup in Hin as [k Hk].
    destruct t as [cmd|cmd p|cmd r]; try done. destruct (run_to_end fuel k cmd p threads w Hk) as (n & r & w' & E).
    by exists (replicate n k), k, (Running cmd p), cmd, r, w'.
  - apply existsb_exists in Hex as (t & Hin & Hu). apply list_elem_of_In, list_elem_of_lookup in Hin as [k Hk].
    destruct t as [cmd|cmd p|cmd r]; [| |done].
    + destruct (run_to_end fuel k cmd (program fuel cmd) (<[k := Running cmd (program fuel cmd)]> threads) w) as (n & r & w' & E).
      { apply list_lookup_insert_eq. by eapply lookup_lt_Some. }
      exists (k :: replicate n k), k, (Waiting cmd), cmd, r, w'. split_and!; [done|done|].
      change (interleave fuel (k :: ?l) ?s) with (interleave fuel l (next fuel k s)).
      unfold next. rewrite Hk, El, andb_false_r, E. by rewrite list_insert_insert_eq.
    + destruct (run_to_end fuel k cmd p threads w Hk) as (n & r & w' & E).
      by exists (replicate n k), k, (Running cmd p), cmd, r, w'.
Qed.

(** The locks never block for good: from any moment of any run there is a
    schedule under which every call that has not ended, ends. *)
Theorem no_deadlock fuel threads w :
  exists schedule, existsb unfinished (interleave fuel schedule (threads, w)).1 = false.
Proof.
  remember (work threads) as n eqn:Hn. revert threads w Hn. induction n as [|n IH]; intros threads w Hn.
  all: destruct (existsb unfinished threads) eqn:Eu; [|by exists []].
  all: destruct (one_ends fuel threads w Eu) as (s1 & k & t & cmd & r & w1 & Hk & Ht & E).
  all: rewrite (work_insert threads k t (Finished cmd r) Hk Ht eq_refl) in Hn.
  { done. }
  destruct (IH (<[k := Finished cmd r]> threads) w1) as [s2 Hs2]; [lia|].
  exists (s1 ++ s2). by rewrite interleave_app, E.
Qed.

(** ** What is assumed of a schedule *)

Definition pending (sys : list Thread * Inner) : gset RecordId := dom (entries (in_state sys.2)).

(** Every identifier that becomes pending was never pending before ([used]),
    and no record admitted with sequence [from] or later is left behind an
    integrity gap. *)
Fixpoint orderly (from : Z) (fuel : nat) (used : gset RecordId) (schedule : list nat)
    (sys : list Thread * Inner) : bool :=
  match schedule with
  | [] => true
  | k :: schedule' =>
      let sys' := next fuel k sys in
      bool_decide (pending sys' ∖ pending sys ## used)
      && bool_decide (tidy from (in_state sys'.2))
      && orderly from fuel (used ∪ pending sys') schedule' sys'
  end.

Lemma orderly_app from fuel used s1 s2 sys :
  orderly from fuel used (s1 ++ s2) sys = true ->
  orderly from fuel used s1 sys = true /\
  exists used', orderly from fuel used' s2 (interleave fuel s1 sys) = true.
Proof.
  revert used sys. induction s1 as [|k s1 IH]; intros used sys Ho; [split; [done|by exists used]|].
  cbn [app orderly] in Ho |- *. apply andb_true_iff in Ho as [-> Ho]. by apply IH.
Qed.

(** ** The invariant *)

Context {SL : SpoolLaws} {ST : Start}.

Definition thread_sound (used : gset RecordId) (w : Inner) (t : Thread) : Prop :=
  match t with
  | Waiting cmd => cmd_ok cmd
  | Running cmd p => exists K, stable (takes_lock cmd) K /\ K used w /\
      safe (cmd_events cmd) (takes_lock cmd) p K anything
  | Finished _ _ => True
  end.

(** One thread holds the acknowledgement mutex. *)
Definition exclusive (threads : list Thread) : Prop :=
  forall i j ti tj, threads !! i = Some ti -> threads !! j = Some tj ->
    holds_lock ti = true -> holds_lock tj = true -> i = j.

Record sound (used : gset RecordId) (sys : list Thread * Inner) : Prop := {
  so_wf : wf sys.2;
  so_covered : covered used sys.2;
  so_threads : forall k t, sys.1 !! k = Some t -> thread_sound used sys.2 t;
  so_mutex : exclusive sys.1;
}.

(** The events of the calls. *)
Definition events_of (threads : list Thread) (ev : Event) : Prop :=
  exists cmd, cmd ∈ cmd_of <$> threads /\ cmd_events cmd ev.

(** ** What one thread does, as the others see it *)

Lemma admitted_new used w tr w' :
  steps w tr w' -> Forall admit_events tr ->
  entries (in_state w) ⊆ entries (in_state w') /\
  ((forall r, r ∈ dom (entries (in_state w')) -> r ∈ dom (entries (in_state w)) \/ r ∉ used) ->
   Forall (admits_new used) tr).
Proof.
  induction 1 as [w|w ev w1 tr w' Hst Hs IH]; [done|]. intros [Hev Htr]%Forall_cons.
  destruct (IH Htr) as [Hsub Hnew]. clear IH.
  assert (Hsub1 : entries (in_state w) ⊆ entries (in_state w1)).
  { rewrite (st_effect _ _ _ Hst). destruct ev; try done. cbn. apply insert_subseteq.
    by destruct (st_enabled _ _ _ Hst). }
  split; [by etransitivity|]. intros Hfresh. constructor.
  - destruct ev; try done. cbn. destruct (st_enabled _ _ _ Hst) as [Hnone _]. cbn in Hnone.
    destruct (Hfresh (en_record_id e)) as [Hin|]; [|apply elem_of_dom in Hin as [? Hin]; congruence|done].
    apply elem_of_dom. exists e. eapply lookup_weaken; [|exact Hsub].
    rewrite (st_effect _ _ _ Hst). cbn. by rewrite lookup_insert_eq.
  - apply Hnew. intros r Hr. destruct (Hfresh r Hr) as [Hin|]; [left|by right].
    by apply (subseteq_dom _ _ Hsub1).
Qed.

Lemma does_rely holds used cmd w w' :
  does (cmd_events cmd) w w' -> (holds = true -> takes_lock cmd = false) ->
  (forall r, r ∈ dom (entries (in_state w')) -> r ∈ dom (entries (in_state w)) \/ r ∉ used) ->
  does (rely holds used) w w'.
Proof.
  intros (tr & Hs & Hev) Hlock Hfresh. exists tr. split; [done|].
  assert (Hnew : Forall (admits_new used) tr).
  { destruct cmd; try (eapply Forall_impl; [exact Hev|]; intros []; cbn; done || tauto).
    by eapply admitted_new. }
  apply Forall_forall. intros ev Hin. rewrite Forall_forall in Hev, Hnew. split; [|by apply Hnew].
  intros Hh. specialize (Hlock Hh). specialize (Hev ev Hin). destruct cmd, ev; cbn in *; done || tauto.
Qed.

(** ** A step of the scheduler *)

Lemma thread_sound_mono used used' w t : used ⊆ used' -> wf w -> thread_sound used w t -> thread_sound used' w t.
Proof.
  intros Hsub Hwf. destruct t as [cmd|cmd p|cmd r]; cbn; [done| |done].
  intros (K & HK & Hk & Hp). exists K. split_and!; [done| |done]. by eapply HK; [| |apply does_refl|].
Qed.

(** The thread that moves has not changed its call. *)
Lemma cmds_insert (threads : list Thread) k t t' :
  threads !! k = Some t -> cmd_of t' = cmd_of t -> cmd_of <$> <[k := t']> threads = cmd_of <$> threads.
Proof.
  intros Hk Hc. rewrite list_fmap_insert, Hc. apply list_insert_id. by rewrite list_lookup_fmap, Hk.
Qed.

Lemma next_cmds fuel k sys : cmd_of <$> (next fuel k sys).1 = cmd_of <$> sys.1.
Proof.
  destruct sys as [threads w]. unfold next. destruct (threads !! k) as [[cmd|cmd [r|B m p]|cmd r]|] eqn:Hk; try done.
  - destruct (_ && _); [done|]. by eapply cmds_insert.
  - by eapply cmds_insert.
  - destruct (m w). by eapply cmds_insert.
Qed.

(** Replacing a thread by one that holds the mutex only if the old one did. *)
Lemma mutex_insert (threads : list Thread) k t t' :
  threads !! k = Some t -> (holds_lock t' = true -> holds_lock t = true) ->
  exclusive threads -> exclusive (<[k := t']> threads).
Proof.
  intros Hk Hle Hm i j ti tj [(<- & <- & _)|[? Hi]]%list_lookup_insert_Some
    [(Ej & <- & _)|[? Hj]]%list_lookup_insert_Some Hhi Hhj; [done|..|by eapply Hm];
    [eapply Hm; [exact Hk|exact Hj|auto|done]|subst; eapply Hm; [exact Hi|exact Hk|done|auto]].
Qed.

(** One thread acts; what the others know stays known. *)
Lemma others_sound used used' (threads : list Thread) w w' k cmd p t :
  wf w -> used ⊆ used' -> threads !! k = Some (Running cmd p) ->
  (forall (j : nat) t, threads !! j = Some t -> thread_sound used w t) -> exclusive threads ->
  does (cmd_events cmd) w w' ->
  (forall r, r ∈ dom (entries (in_state w')) -> r ∈ dom (entries (in_state w)) \/ r ∉ used) ->
  thread_sound used' w' t ->
  forall (j : nat) tj, <[k := t]> threads !! j = Some tj -> thread_sound used' w' tj.
Proof.
  intros Hwf Hsub Hk Hth Hm Hd Hfresh Ht j tj [(_ & <- & _)|[Hne Hj]]%list_lookup_insert_Some; [done|].
  specialize (Hth j tj Hj). destruct tj as [c|c p'|c r]; cbn in *; [done| |done].
  destruct Hth as (K & HK & HKw & Hp). exists K. split_and!; [done| |done].
  eapply HK; [exact Hwf|exact Hsub| |exact HKw]. eapply does_rely; [exact Hd| |exact Hfresh].
  intros Hc. destruct (takes_lock cmd) eqn:E; [|done]. exfalso. apply Hne.
  by apply (Hm k j _ _ Hk Hj); cbn.
Qed.

Lemma next_sound fuel k used sys :
  sound used sys ->
  pending (next fuel k sys) ∖ pending sys ## used -> tidy start (in_state (next fuel k sys).2) ->
  sound (used ∪ pending (next fuel k sys)) (next fuel k sys) /\
  does (own (events_of sys.1) sys.2) sys.2 (next fuel k sys).2.
Proof.
  intros [Hwf Hcov Hth Hmx] Hfresh Htidy.
  assert (Hfresh' : forall r, r ∈ pending (next fuel k sys) -> r ∈ pending sys \/ r ∉ used).
  { intros r Hr. destruct (decide (r ∈ pending sys)); [by left|right]. set_solver. }
  clear Hfresh. destruct sys as [threads w]; cbn [fst snd] in *. unfold pending in *.
  assert (Hsame : forall threads',
    (forall (j : nat) t, threads' !! j = Some t -> thread_sound used w t) ->
    exclusive threads' ->
    sound (used ∪ dom (entries (in_state w))) (threads', w) /\ does (own (events_of threads) w) w w).
  { intros threads' Hth' Hmx'. split; [|apply does_refl]. split; cbn [fst snd]; [done| | |done].
    - destruct Hcov as (? & ? & ?). split_and!; [apply union_subseteq_r|done..].
    - intros j t Hj. eapply thread_sound_mono; [apply union_subseteq_l|done|by eapply Hth']. }
  unfold next in *. destruct (threads !! k) as [t|] eqn:Hk; [|by apply Hsame].
  pose proof (Hth k t Hk) as Ht. destruct t as [cmd|cmd [r|B m p]|cmd r]; [| | |by apply Hsame].
  - destruct (takes_lock cmd && existsb holds_lock threads) eqn:Elock; [by apply Hsame|]. apply Hsame.
    + intros j t [(_ & <- & _)|[_ Hj]]%list_lookup_insert_Some; [|by eapply Hth].
      cbn in Ht |- *. exists (fun _ _ => True). split_and!; [apply stable_true|done|by apply safe_program].
    + assert (Hfree : takes_lock cmd = true -> forall j tj, threads !! j = Some tj -> holds_lock tj = true -> False).
      { intros Hc j tj Hj Hh. rewrite Hc in Elock. cbn in Elock. rewrite <-not_true_iff_false in Elock.
        apply Elock, existsb_exists. exists tj. split; [|done]. by eapply list_elem_of_In, list_elem_of_lookup_2. }
      intros i j ti tj [(Ei & Hti & _)|[_ Hi]]%list_lookup_insert_Some [(Ej & Htj & _)|[_ Hj]]%list_lookup_insert_Some Hhi Hhj;
        subst; cbn in *; [done|exfalso; by eapply Hfree..|by eapply Hmx].
  - apply Hsame; [|by eapply mutex_insert].
    intros j t [(_ & <- & _)|[_ Hj]]%list_lookup_insert_Some; [done|by eapply Hth].
  - destruct Ht as (K & HK & HKw & Hp). destruct (Hp used w Hwf Hcov HKw) as (Hown & K' & HK' & Hat & Hs).
    assert (Hd : does (cmd_events cmd) w (m w).2) by (eapply does_mono; [|exact Hown]; by intros ev []).
    destruct (m w) as [r w'] eqn:Em. cbn [fst snd] in *.
    assert (Hcov' : covered (used ∪ dom (entries (in_state w'))) w').
    { destruct Hcov as (_ & Hstart & _). pose proof (does_next_mono _ _ _ Hd). split_and!; [apply union_subseteq_r|lia|exact Htidy]. }
    split; [split; cbn [fst snd]; [by eapply wf_does|done| |]|].
    + apply (others_sound used _ threads w w' k cmd _ _ Hwf (union_subseteq_l _ _) Hk Hth Hmx Hd Hfresh').
      exists K'. split_and!; [exact HK'|apply Hat; [apply union_subseteq_l|exact Hcov']|exact Hs].
    + by eapply mutex_insert.
    + eapply does_mono; [|exact Hown]. intros ev [Hev Hr]. split; [|exact Hr]. exists cmd. split; [|done].
      apply (list_elem_of_fmap_2 cmd_of _ (Running cmd (Atomic m p))). by eapply list_elem_of_lookup_2.
Qed.

(** Over a whole schedule, which may go on. *)
Lemma interleave_sound fuel schedule later used sys :
  sound used sys -> orderly start fuel used (schedule ++ later) sys = true ->
  let sys' := interleave fuel schedule sys in
  cmd_of <$> sys'.1 = cmd_of <$> sys.1 /\ does (events_of sys.1) sys.2 sys'.2 /\
  exists used', sound used' sys' /\ orderly start fuel used' later sys' = true.
Proof.
  revert used sys. induction schedule as [|k schedule IH]; intros used sys Hs Ho.
  { split_and!; [done|apply does_refl|by exists used]. }
  change (interleave fuel (k :: schedule) sys) with (interleave fuel schedule (next fuel k sys)).
  cbn [app orderly] in Ho. apply andb_true_iff in Ho as [[Hnew Htidy]%andb_true_iff Ho].
  apply bool_decide_eq_true_1 in Hnew, Htidy.
  destruct (next_sound fuel k used sys Hs Hnew Htidy) as [Hs' Hd].
  destruct (IH _ _ Hs' Ho) as (Hc & Hd' & Hend). rewrite next_cmds in Hc.
  split_and!; [done| |done]. eapply does_trans; [eapply does_mono; [|exact Hd]; by intros ev []|].
  eapply does_mono; [|exact Hd']. unfold events_of. by rewrite next_cmds.
Qed.

End Concurrent.

(** ** From the start *)

Section Theorems.
Context {X : SpoolEnv} {SL : SpoolLaws}.

Definition begin (cmds : list Cmd) (w : Inner) : list Thread * Inner := (Waiting <$> cmds, w).
Definition orderly_run (fuel : nat) (cmds : list Cmd) (w : Inner) (schedule : list nat) : bool :=
  orderly (next_spool_sequence (in_state w)) fuel (pending (begin cmds w)) schedule (begin cmds w).

Lemma begin_cmds cmds w : cmd_of <$> (begin cmds w).1 = cmds.
Proof. cbn. rewrite <-list_fmap_compose. apply list_fmap_id. Qed.

Lemma begin_sound cmds w :
  Forall cmd_ok cmds -> wf w ->
  sound (ST := {| start := next_spool_sequence (in_state w) |}) (pending (begin cmds w)) (begin cmds w).
Proof.
  intros Hok Hwf. pose proof Hwf as [_ Hs].
  assert (Hwait : forall k t, (Waiting <$> cmds) !! k = Some t -> exists cmd, cmd_ok cmd /\ t = Waiting cmd).
  { intros k t. rewrite list_lookup_fmap. intros (cmd & Hk & ->)%fmap_Some. exists cmd. split; [|done].
    by eapply Forall_lookup_1. }
  split; cbn [fst snd begin].
  - done.
  - split_and!; [done|cbn; lia|]. intros r e He _. by destruct (ws_entries _ _ Hs _ _ He) as [_ [_ ?] _ _ _ _ _].
  - intros k t Hk. by destruct (Hwait k t Hk) as (cmd & ? & ->).
  - intros i j ti tj Hi _ Hh _. by destruct (Hwait i ti Hi) as (cmd & _ & ->).
Qed.

(** What the spool does under any schedule is events of the calls, and the
    invariant. *)
Lemma interleave_does fuel cmds schedule later w :
  Forall cmd_ok cmds -> wf w -> orderly_run fuel cmds w (schedule ++ later) = true ->
  let calls ev := exists cmd, cmd ∈ cmds /\ cmd_events cmd ev in
  let mid := interleave fuel schedule (begin cmds w) in
  does calls w mid.2 /\ does calls mid.2 (interleave fuel later mid).2.
Proof.
  intros Hok Hwf Ho. set (ST := {| start := next_spool_sequence (in_state w) |}).
  pose proof (begin_sound cmds w Hok Hwf) as Hs. fold ST in Hs.
  destruct (interleave_sound fuel schedule later _ _ Hs Ho) as (Hc & Hd & used & Hs' & Ho').
  rewrite begin_cmds in Hc. unfold events_of in Hd. rewrite begin_cmds in Hd. split; [exact Hd|].
  rewrite <-(app_nil_r later) in Ho'. destruct (interleave_sound fuel later [] _ _ Hs' Ho') as (_ & Hd' & _).
  unfold events_of in Hd'. by rewrite Hc in Hd'.
Qed.

(** C7: the calls may be interleaved in any orderly way: the spool stays well
    formed, and every record, gap notice and receipt it tracks can be read back
    from its file, whatever storage faults occur. *)
Theorem interleave_durable fuel cmds schedule w :
  Forall cmd_ok cmds -> wf w -> durable w -> orderly_run fuel cmds w schedule = true ->
  let w' := (interleave fuel schedule (begin cmds w)).2 in wf w' /\ durable w'.
Proof.
  intros Hok Hwf Hdur Ho. rewrite <-(app_nil_r schedule) in Ho.
  destruct (interleave_does fuel cmds schedule [] w Hok Hwf Ho) as [Hd _].
  split; [by eapply wf_does|by eapply durable_does].
Qed.

(** One more section, with what is known before it. *)
Lemma interleave_next fuel cmds schedule k w :
  Forall cmd_ok cmds -> wf w -> orderly_run fuel cmds w (schedule ++ [k]) = true ->
  let sys := interleave fuel schedule (begin cmds w) in
  wf sys.2 /\ does (own (fun ev => exists cmd, cmd ∈ cmds /\ cmd_events cmd ev) sys.2) sys.2 (next fuel k sys).2.
Proof.
  intros Hok Hwf Ho sys. set (ST := {| start := next_spool_sequence (in_state w) |}).
  pose proof (begin_sound cmds w Hok Hwf) as Hs. fold ST in Hs.
  destruct (interleave_sound fuel schedule [k] _ _ Hs Ho) as (Hc & _ & used & Hs' & Ho'). fold sys in Hc, Hs', Ho'.
  rewrite begin_cmds in Hc. cbn [orderly] in Ho'. apply andb_true_iff in Ho' as [[Hnew Htidy]%andb_true_iff _].
  apply bool_decide_eq_true_1 in Hnew, Htidy. split; [apply Hs'|].
  destruct (next_sound fuel k used sys Hs' Hnew Htidy) as [_ Hd]. unfold events_of in Hd. by rewrite Hc in Hd.
Qed.

(** C4: under any orderly schedule, whatever storage faults occur, a sequence
    number that is live at some moment is live at every later moment, unless a
    receipt on record at that moment accepts it, or one of the calls is an
    acknowledgement that names it -- the pending record by its identifier, or
    its gap notice -- and whose receipt, which repeats the acknowledgement and
    accepts the sequence number, is on record at some moment in between. *)
Theorem interleave_no_loss fuel cmds schedule later w seq :
  Forall cmd_ok cmds -> wf w -> orderly_run fuel cmds w (schedule ++ later) = true ->
  let mid := interleave fuel schedule (begin cmds w) in
  live (in_state mid.2) seq ->
  live (in_state (interleave fuel later mid).2) seq \/
  (exists r, committed (in_state mid.2) r /\ accepts (in_state mid.2) r seq) \/
  exists cmd r before after, cmd ∈ cmds /\ names cmd (in_state mid.2) seq /\
    issued cmd r /\ accepts (in_state mid.2) r seq /\
    later = before ++ after /\ committed (in_state (interleave fuel before mid).2) r.
Proof.
  intros Hok Hwf Ho mid Hl. set (origin later r := committed (in_state mid.2) r \/
    exists cmd before after, cmd ∈ cmds /\ issued cmd r /\ later = before ++ after /\
      committed (in_state (interleave fuel before mid).2) r).
  enough ((forall r, committed (in_state (interleave fuel later mid).2) r -> origin later r) /\
    ((live (in_state (interleave fuel later mid).2) seq /\
        forall r, accepts (in_state (interleave fuel later mid).2) r seq -> accepts (in_state mid.2) r seq) \/
     exists r, origin later r /\ accepts (in_state mid.2) r seq)) as (_ & [[? _]|(r & [?|Hor] & Ha)]).
  { by left. } { right; left; by exists r. }
  { right; right. destruct Hor as (cmd & before & after & Hin & Hi & El & Hc).
    exists cmd, r, before, after. split_and!; try done. by eapply accepts_names. }
  induction later as [|k later IH] using rev_ind; [split; [by left|by left]|].
  rewrite app_assoc in Ho. destruct (interleave_next fuel cmds (schedule ++ later) k w Hok Hwf Ho) as [Hwf1 Hd].
  rewrite interleave_app in Hwf1, Hd. fold mid in Hwf1, Hd.
  unfold orderly_run in Ho. apply orderly_app in Ho as [Ho _]. destruct (IH Ho) as [Hor Hst]. clear IH.
  set (sys := interleave fuel later mid) in *.
  assert (Enext : interleave fuel (later ++ [k]) mid = next fuel k sys) by (by rewrite interleave_app). rewrite Enext.
  assert (Hmono : forall r, origin later r -> origin (later ++ [k]) r).
  { intros r [?|(c & b & a & ? & ? & -> & ?)]; [by left|right]. exists c, b, (a ++ [k]). by rewrite <-app_assoc. }
  split.
  - intros r Hc. destruct (committed_does _ _ _ _ Hd Hc) as [?|(re & [(cmd & Hin & Hev) _] & <-)]; [auto|right].
    exists cmd, (later ++ [k]), []. rewrite app_nil_r, Enext. split_and!; try done. destruct cmd; (done || by destruct Hev).
  - destruct Hst as [[Hlive Hacc]|(r & ? & ?)]; [|right; exists r; auto].
    destruct (live_does _ _ _ _ Hd Hwf1 Hlive) as [Hl'|(r & ev & [_ Hon] & Hack & _ & Ha)]; [left|right].
    + split; [done|]. intros r Hr. apply Hacc. by eapply accepts_does.
    + exists r. auto.
Qed.

End Theorems.
