(* ===== verification/SpoolDisk.v ===== *)
(** * What a running spool leaves on disk

    When the process ends, by a stop or by a crash, the files are all that is
    left.  [disk_ok] is what they satisfy at every moment: a pending file that
    opens as a record carries the name of that record, a receipt file that
    opens was made for an acknowledgement ([P]), and the gap notices a receipt
    accepts belong to sequences that were taken.  [linked] ties the files to
    the running state.  Every event of [SpoolSpec] keeps both, so every
    command does, under any storage faults. *)

From S2P Require Import Prelude Protocol Crypto Fs SpoolTypes SpoolFacts SpoolBase SpoolOps.
From S2P Require Import SpoolFrame SpoolInv SpoolSpec SpoolRefine SpoolRefineOps SpoolReceipts SpoolSystem.

(** [serde_json::to_vec] of a [SequenceState] and the encryption of the result
    do not fail: its fields are numbers, a flag and a map with numeric keys. *)
Class SealLaws {X : SpoolEnv} := {
  seal_sequence : forall key nonce q, in_u64 (sq_next_spool_sequence q) ->
    (forall k id, sq_counted_pending_expirations q !! k = Some id -> in_u64 k) ->
    exists plaintext sealed, to_vec q = Some plaintext /\ encrypt key nonce plaintext = Ok sealed;
}.

Section Disk.
Context {X : SpoolEnv}.

(** The file at [p] decrypts and parses to [a]. *)
Definition opens {A} `{Serde A} (key : bytes) (d : gmap SpoolPath Node) (p : SpoolPath) (a : A) : Prop :=
  exists b plaintext, d !! p = Some (File b) /\ decrypt key b = Ok plaintext /\ from_slice plaintext = Some a.

Lemma opens_inj {A} `{Serde A} key d p (a a' : A) : opens key d p a -> opens key d p a' -> a = a'.
Proof. intros (b & pl & Hb & Hd & Hp) (b' & pl' & Hb' & Hd' & Hp'). congruence. Qed.
Lemma opens_agree {A} `{Serde A} key d d' p (a : A) : d' !! p = d !! p -> opens key d p a -> opens key d' p a.
Proof. intros E (b & pl & Hb & Hrest). exists b, pl. by rewrite E. Qed.
Lemma holds_opens {A} `{Serde A} key d p limit (a : A) : holds key d p limit a -> opens key d p a.
Proof. intros (b & pl & Hb & _ & Hrest). by exists b, pl. Qed.

(** A pending file that holds a valid record. *)
Definition record_at (key : bytes) (d : gmap SpoolPath Node) (p : SpoolPath) (st : StoredRecord) : Prop :=
  sp_dir p = DPending /\ holds key d p MAX_ENCRYPTED_RECORD_BYTES st /\ valid_stored_record st = true.
Definition receipt_at (key : bytes) (d : gmap SpoolPath Node) (p : SpoolPath) (r : AckReceipt) : Prop :=
  sp_dir p = DReceipts /\ opens key d p r.

(** The next sequence according to the sequence file; 1 when there is none. *)
Definition sequence_next (key : bytes) (d : gmap SpoolPath Node) (next : Z) : Prop :=
  (d !! sequence_path = None /\ next = 1) \/
  exists q : SequenceState, opens key d sequence_path q /\ sq_next_spool_sequence q = next.

Lemma sequence_next_inj key d n n' : sequence_next key d n -> sequence_next key d n' -> n = n'.
Proof.
  intros [[Hn ->]|(q & Hq & <-)] [[Hn' ->]|(q' & Hq' & <-)]; [done|..].
  - destruct Hq' as (b & pl & Hb & _). congruence.
  - destruct Hq as (b & pl & Hb & _). congruence.
  - by rewrite (opens_inj _ _ _ _ _ Hq Hq').
Qed.
Lemma sequence_next_agree key d d' n :
  d' !! sequence_path = d !! sequence_path -> sequence_next key d n -> sequence_next key d' n.
Proof.
  intros E [[Hn ->]|(q & Hq & <-)]; [left; by rewrite E|right]. exists q. split; [by eapply opens_agree|done].
Qed.

(** The notice was given out for a sequence below [next], and an integrity
    notice stands for a record that is gone. *)
Definition notice_settled (key : bytes) (d : gmap SpoolPath Node) (next : Z) (n : RecordId) : Prop :=
  exists seq reason ev, n = gap_notice_id seq reason ev /\ 0 < seq < next /\
    (reason = IntegrityQuarantine -> forall p st, record_at key d p st -> sr_spool_seq st <> Some seq).

Record disk_ok (P : AckReceipt -> Prop) (key : bytes) (d : gmap SpoolPath Node) : Prop := {
  dk_records : forall p st, record_at key d p st ->
    exists seq, sr_spool_seq st = Some seq /\ p = SPath DPending (pending_file_name seq (sr_record_id st));
  dk_receipts : forall p r, receipt_at key d p r -> P r;
  dk_notices : forall next p r n, sequence_next key d next -> receipt_at key d p r ->
    n ∈ ar_accepted_gap_notice_ids r -> notice_settled key d next n;
}.

Lemma disk_ok_mono (P P' : AckReceipt -> Prop) key d :
  (forall r, P r -> P' r) -> disk_ok P key d -> disk_ok P' key d.
Proof. intros HP [H1 H2 H3]. split; eauto. Qed.

Lemma disk_ok_empty P key : disk_ok P key ∅.
Proof.
  split; [intros p st (_ & (b & pl & Hb & _) & _)|intros p r (_ & b & pl & Hb & _)
    |intros next p r n _ (_ & b & pl & Hb & _)]; by rewrite lookup_empty in Hb.
Qed.

(** A disk on which files only went away. *)
Definition fewer (d d' : gmap SpoolPath Node) : Prop :=
  forall p, kept_dir p -> d' !! p = d !! p \/ d' !! p = None.

Lemma record_at_fewer key d d' p st : fewer d d' -> record_at key d' p st -> record_at key d p st.
Proof.
  intros Hf (Hp & (b & pl & Hb & Hrest) & Hv). split_and!; [done| |done]. exists b, pl. split; [|done].
  destruct (Hf p) as [E|E]; [by left|congruence..].
Qed.
Lemma receipt_at_fewer key d d' p r : fewer d d' -> receipt_at key d' p r -> receipt_at key d p r.
Proof.
  intros Hf (Hp & b & pl & Hb & Hrest). split; [done|]. exists b, pl. split; [|done].
  destruct (Hf p) as [E|E]; [by right|congruence..].
Qed.
Lemma notice_settled_fewer key d d' next next' n :
  fewer d d' -> next <= next' -> notice_settled key d next n -> notice_settled key d' next' n.
Proof.
  intros Hf Hle (seq & reason & ev & -> & Hseq & Hgone). exists seq, reason, ev. split_and!; [done|lia..|].
  intros HR p st Hst. eapply Hgone; [done|]. by eapply record_at_fewer.
Qed.

Lemma disk_ok_fewer P key d d' next next' :
  fewer d d' -> sequence_next key d next -> sequence_next key d' next' -> next <= next' ->
  disk_ok P key d -> disk_ok P key d'.
Proof.
  intros Hf Hn Hn' Hle [H1 H2 H3]. split.
  - intros p st Hst. apply H1. by eapply record_at_fewer.
  - intros p r Hr. eapply H2. by eapply receipt_at_fewer.
  - intros next'' p r n Hnext Hr Hin. rewrite (sequence_next_inj _ _ _ _ Hnext Hn').
    eapply notice_settled_fewer; [done..|]. eapply H3; [done| |done]. by eapply receipt_at_fewer.
Qed.

(** ** The files of a running spool *)

Record linked (P : AckReceipt -> Prop) (w : Inner) : Prop := {
  ln_disk : disk_ok P (in_key w) (in_disk w);
  ln_records : forall p st seq, record_at (in_key w) (in_disk w) p st -> sr_spool_seq st = Some seq ->
    (exists e, entries (in_state w) !! sr_record_id st = Some e /\ en_spool_seq e = seq) \/
    (next_spool_sequence (in_state w) <= seq /\ in_storage_write_failed w = true);
  ln_sequence : exists next, sequence_next (in_key w) (in_disk w) next /\
    next <= next_spool_sequence (in_state w);
}.

(** While writes work, the sequence file is up to date. *)
Definition synced (w : Inner) : Prop :=
  in_storage_write_failed w = false ->
  sequence_next (in_key w) (in_disk w) (next_spool_sequence (in_state w)).

Definition commits (ev : Event) : Prop :=
  match ev with Commit _ | LostCommit _ => True | _ => False end.

(** [r] is what the command, executed from [w], draws up, and a receipt file
    holds it afterwards -- even when the write of that file reported a failure. *)
Definition leaves (cmd : Cmd) (w : Inner) (r : AckReceipt) : Prop :=
  issued cmd r /\ accepts_pending (in_state w) r /\
  exists p, receipt_at (in_key w) (in_disk (exec cmd w)) p r.

Context {SL : SpoolLaws}.

Lemma linked_mono (P P' : AckReceipt -> Prop) w :
  (forall p r, receipt_at (in_key w) (in_disk w) p r -> P r -> P' r) -> linked P w -> linked P' w.
Proof. intros HP [[H1 H2 H3] Hr Hq]. split; [split|..]; eauto. Qed.

Lemma sealed_next key d next : sequence_sealed key d next -> sequence_next key d next.
Proof.
  intros (q & pl & nonce & c & <- & Hq & Hn & Hc & Hd). right. exists q. split; [|done].
  exists c, pl. split_and!; [done|by eapply decrypt_sealed|by apply from_to_vec].
Qed.

Lemma next_grows ev w w' : step ev w w' ->
  next_spool_sequence (in_state w) <= next_spool_sequence (in_state w') /\
  (match ev with Admit _ => True | _ => next_spool_sequence (in_state w') = next_spool_sequence (in_state w) end).
Proof. intros [_ Heff _ _ _ _ _ _ _ _ _]. rewrite Heff. destruct ev; cbn; lia. Qed.

Lemma sequence_step ev w w' next :
  step ev w w' -> sequence_next (in_key w) (in_disk w) next ->
  next <= next_spool_sequence (in_state w) ->
  exists next', sequence_next (in_key w') (in_disk w') next' /\ next <= next' /\
    next' <= next_spool_sequence (in_state w').
Proof.
  intros Hst Hn Hle. destruct (next_grows _ _ _ Hst) as [Hmono _]. rewrite (st_key _ _ _ Hst).
  destruct (st_sequence _ _ _ Hst) as [E|Hs].
  - exists next. split_and!; [by eapply sequence_next_agree|lia..].
  - eexists. split_and!; [by apply sealed_next|lia..].
Qed.

(** Where a record file of [w'] comes from. *)
Lemma record_step ev w w' p st :
  step ev w w' -> record_at (in_key w') (in_disk w') p st ->
  record_at (in_key w) (in_disk w) p st \/
  exists e, (ev = Admit e \/ ev = LostAdmit e) /\ p = en_path e /\ stored_matches e st.
Proof.
  intros Hst Hr. pose proof (st_key _ _ _ Hst) as Hk. pose proof Hr as (Hd & Hh & Hv).
  destruct (st_files _ _ _ Hst p ltac:(by left)) as [E|[E|Hbr]].
  - left. rewrite Hk in Hr. split_and!; [done| |done]. rewrite Hk in Hh. by eapply holds_agree.
  - destruct Hh as (b & pl & Hb & _). congruence.
  - right. pose proof (st_enabled _ _ _ Hst) as Hen.
    assert (Hent : forall e, p = en_path e /\ entry_durable (in_key w') (in_disk w') e -> stored_matches e st).
    { intros e (-> & st' & Hh' & Hm). apply holds_opens in Hh, Hh'. by rewrite (opens_inj _ _ _ _ _ Hh Hh'). }
    destruct ev; try done; cbn in Hbr.
    + exists e. split_and!; [by left|apply Hbr|by apply Hent].
    + destruct Hbr as [-> _], Hen as (_ & _ & Hp & _). by rewrite Hp in Hd.
    + exists e. split_and!; [by right|apply Hbr|by apply Hent].
    + destruct Hbr as [-> _], Hen as (_ & _ & Hp & _). by rewrite Hp in Hd.
Qed.

Lemma receipt_step ev w w' p r :
  step ev w w' -> receipt_at (in_key w') (in_disk w') p r ->
  receipt_at (in_key w) (in_disk w) p r \/
  exists re, (ev = Commit re \/ ev = LostCommit re) /\ re_receipt re = r.
Proof.
  intros Hst Hr. pose proof (st_key _ _ _ Hst) as Hk. pose proof Hr as (Hd & Hh).
  destruct (st_files _ _ _ Hst p ltac:(by right)) as [E|[E|Hbr]].
  - left. split; [done|]. rewrite Hk in Hh. by eapply opens_agree.
  - destruct Hh as (b & pl & Hb & _). congruence.
  - right. pose proof (st_enabled _ _ _ Hst) as Hen.
    destruct ev; try done; cbn in Hbr.
    + destruct Hbr as [-> _], Hen as (_ & _ & _ & _ & _ & Hp & _). by rewrite Hp in Hd.
    + exists re. split; [by left|]. destruct Hbr as [-> Hd']. by eapply opens_inj; [eapply holds_opens|].
    + destruct Hbr as [-> _], Hen as (_ & _ & _ & _ & _ & Hp & _). by rewrite Hp in Hd.
    + exists re. split; [by right|]. destruct Hbr as [-> Hd']. by eapply opens_inj; [eapply holds_opens|].
Qed.

Lemma valid_stable st sid :
  valid_stored_record st = true -> sr_stable_record_id st = Some sid ->
  sr_record_id st = record_id (sr_envelope st) /\ sid = stable_record_id (sr_envelope st).
Proof.
  unfold valid_stored_record. intros Hv Hsid. destruct (_ || _ || _) eqn:E; [done|].
  apply orb_false_iff in E as [[_ E]%orb_false_iff _]. apply bool_decide_eq_false in E. apply dec_stable in E.
  split; [done|]. destruct (sr_version st =? 1).
  - apply andb_true_iff in Hv as [Hv _]. apply bool_decide_eq_true in Hv. congruence.
  - destruct (sr_version st =? 2); [|done]. apply andb_true_iff in Hv as [Hv _].
    apply bool_decide_eq_true in Hv. congruence.
Qed.

Lemma valid_stable_some st seq :
  valid_stored_record st = true -> sr_spool_seq st = Some seq ->
  sr_stable_record_id st = Some (stable_record_id (sr_envelope st)) /\ 0 < seq.
Proof.
  unfold valid_stored_record. intros Hv Hseq. destruct (_ || _ || _); [done|].
  destruct (sr_version st =? 1).
  - apply andb_true_iff in Hv as [_ Hv]. apply bool_decide_eq_true in Hv. congruence.
  - destruct (sr_version st =? 2); [|done]. apply andb_true_iff in Hv as [Hv Hp].
    apply bool_decide_eq_true in Hv. rewrite Hseq in Hp. split; [done|lia].
Qed.

(** The record file of a pending entry is readable as that entry. *)
Lemma record_entry_readable c s key d p st seq e :
  wf_state c s -> entries s !! sr_record_id st = Some e -> en_spool_seq e = seq ->
  record_at key d p st -> sr_spool_seq st = Some seq ->
  p = SPath DPending (pending_file_name seq (sr_record_id st)) -> readable key d e.
Proof.
  intros Hs He <- (_ & Hh & Hv) Hseq ->.
  destruct (ws_entries _ _ Hs _ _ He) as [Hk _ _ _ Hp (env & _ & Hid & Hsid) _].
  exists st. rewrite Hp. split_and!; try done.
  destruct (valid_stable_some _ _ Hv Hseq) as [Hst _]. destruct (valid_stable _ _ Hv Hst) as [Hr _].
  rewrite Hst. f_equal. rewrite <-Hsid. apply record_id_refines. by rewrite <-Hr, Hid.
Qed.

Lemma linked_step P ev w w' :
  step ev w w' -> wf w -> authorised P ev -> (commits ev -> synced w) -> linked P w -> linked P w'.
Proof.
  intros Hst Hwf HP Hsync [[Hrec Hrcp Hnot] Hpf (next & Hnext & Hle)]. pose proof Hwf as [_ Hs].
  pose proof (st_enabled _ _ _ Hst) as Hen. pose proof (st_key _ _ _ Hst) as Hk.
  destruct (sequence_step _ _ _ _ Hst Hnext Hle) as (next' & Hnext' & Hgrow & Hle').
  destruct (next_grows _ _ _ Hst) as [Hmono Hsame].
  assert (Hnew : forall p st, record_at (in_key w') (in_disk w') p st ->
    record_at (in_key w) (in_disk w) p st \/
    (sr_spool_seq st = Some (next_spool_sequence (in_state w)) /\
     p = SPath DPending (pending_file_name (next_spool_sequence (in_state w)) (sr_record_id st)) /\
     exists e, (ev = Admit e \/ ev = LostAdmit e) /\ sr_record_id st = en_record_id e)).
  { intros p st Hr. destruct (record_step _ _ _ _ _ Hst Hr) as [?|(e & Hev & -> & _ & Hid & _ & Hseq & _)]; [by left|right].
    assert (enabled (in_config w) (in_state w) (Admit e)) as (_ & _ & Hq & _ & _ & Hp & _)
      by (by destruct Hev as [->| ->]).
    rewrite Hp, Hseq, Hq, Hid. split_and!; eauto. }
  split.
  - split.
    + intros p st Hr. destruct (Hnew p st Hr) as [?|(? & ? & _)]; eauto.
    + intros p r Hr. destruct (receipt_step _ _ _ _ _ Hst Hr) as [?|(re & Hev & <-)]; [by eapply Hrcp|].
      by destruct Hev as [->| ->].
    + intros n' p r n Hn' Hr Hin. rewrite (sequence_next_inj _ _ _ _ Hn' Hnext').
      destruct (receipt_step _ _ _ _ _ Hst Hr) as [Hold|(re & Hev & <-)].
      * destruct (Hnot _ _ _ _ Hnext Hold Hin) as (seq & reason & ev' & -> & Hseq & Hgone).
        exists seq, reason, ev'. split_and!; [done|lia..|]. intros HR q st Hq Hsq.
        destruct (Hnew q st Hq) as [?|(Hsq' & _)]; [by eapply Hgone|].
        assert (seq = next_spool_sequence (in_state w)) by congruence. lia.
      * assert (Hen' : enabled (in_config w) (in_state w) (Commit re)) by (by destruct Hev as [->| ->]).
        destruct Hen' as (_ & _ & _ & Hacc & _).
        destruct (Hacc n Hin) as (seq & reason & ev' & -> & Hseq & Hgone).
        assert (Hsy : sequence_next (in_key w) (in_disk w) (next_spool_sequence (in_state w))).
        { apply Hsync; [by destruct Hev as [->| ->]|]. apply (st_unlatched _ _ _ Hst). by destruct Hev as [->| ->]. }
        rewrite (sequence_next_inj _ _ _ _ Hnext Hsy) in Hgrow.
        exists seq, reason, ev'. split_and!; [done|lia..|]. intros HR q st Hq Hsq.
        destruct (Hnew q st Hq) as [Hq'|(_ & _ & e & He & _)]; [|by destruct Hev as [->| ->], He].
        destruct (Hpf q st seq Hq' Hsq) as [(e & He & Hes)|[? _]]; [|lia]. by apply (Hgone HR _ e He).
  - intros p st seq Hr Hseq. destruct (Hnew p st Hr) as [Hr'|(Hseq' & _ & e & Hev & Hid)].
    + destruct (Hpf p st seq Hr' Hseq) as [(e & He & Hes)|[Hge Hl]].
      2:{ right. split; [|by apply (st_latch _ _ _ Hst)].
          pose proof (st_unlatched _ _ _ Hst) as Hu. rewrite Hl in Hu.
          destruct ev; try (by rewrite Hsame); by specialize (Hu eq_refl). }
      left. exists e. split; [|done]. rewrite (st_effect _ _ _ Hst).
      pose proof (st_evidence _ _ _ Hst) as Hevi.
      assert (Hdrop : forall e0, entries (in_state w) !! en_record_id e0 = Some e0 ->
        ~ readable (in_key w') (in_disk w') e0 ->
        delete (en_record_id e0) (entries (in_state w)) !! sr_record_id st = Some e).
      { intros e0 He0 Hun. rewrite lookup_delete_ne; [done|]. intros E. apply Hun.
        rewrite E in He0. assert (e0 = e) as -> by congruence.
        destruct (Hrec p st Hr') as (seq' & Hs' & ->). assert (seq' = seq) as -> by congruence.
        by eapply record_entry_readable. }
      destruct ev; try done; cbn.
      * destruct Hen as (Hfresh & _). rewrite lookup_insert_ne; [done|]. congruence.
      * destruct Hen as [He0 _]. by apply Hdrop.
      * destruct Hen as [He0 _]. by apply Hdrop.
    + assert (seq = next_spool_sequence (in_state w)) as -> by congruence.
      destruct Hev as [->| ->].
      * left. exists e. rewrite (st_effect _ _ _ Hst), Hid. cbn. rewrite lookup_insert_eq. split; [done|]. apply Hen.
      * right. rewrite Hsame. split; [done|]. by apply (st_lost _ _ _ Hst).
  - by exists next'.
Qed.

Lemma synced_step ev w w' :
  step ev w w' -> (forall e, ev <> Admit e) -> synced w -> synced w'.
Proof.
  intros Hst Hna Hsy Hl. pose proof (st_latch _ _ _ Hst) as Hlatch.
  assert (in_storage_write_failed w = false) as Hl0 by (destruct (in_storage_write_failed w); [rewrite Hlatch in Hl|]; done).
  destruct (next_grows _ _ _ Hst) as [_ Hsame]. rewrite (st_key _ _ _ Hst).
  assert (next_spool_sequence (in_state w') = next_spool_sequence (in_state w)) as ->
    by (destruct ev; try done; by destruct (Hna e)).
  destruct (st_sequence _ _ _ Hst) as [E|Hs]; [|by apply sealed_next].
  eapply sequence_next_agree; [done|]. by apply Hsy.
Qed.

(** A run without admissions. *)
Lemma linked_does P (L : Event -> Prop) w w' :
  (forall ev, L ev -> authorised P ev /\ forall e, ev <> Admit e) ->
  does L w w' -> wf w -> linked P w -> synced w -> linked P w' /\ synced w'.
Proof.
  intros HL Hd Hwf Hl Hs.
  enough (wf w' /\ linked P w' /\ synced w') by tauto.
  apply (does_ind L (fun w => wf w /\ linked P w /\ synced w) w w'); [|done|done].
  intros ev w1 w2 HLev Hst (Hwf1 & Hl1 & Hs1). destruct (HL ev HLev) as [HP Hna].
  split_and!; [by eapply wf_step|by eapply linked_step|by eapply synced_step].
Qed.

(** A run that writes no record and no receipt. *)
Lemma linked_reads P (L : Event -> Prop) w w' :
  (forall ev, L ev -> writes ev = false) -> does L w w' -> wf w -> linked P w -> linked P w'.
Proof.
  intros HL Hd Hwf Hl. enough (wf w' /\ linked P w') by tauto.
  apply (does_ind L (fun w => wf w /\ linked P w) w w'); [|done|done].
  intros ev w1 w2 HLev Hst [Hwf1 Hl1]. pose proof (HL _ HLev) as Hw.
  split; [by eapply wf_step|eapply linked_step; [done|done| |intros ?|done]; by destruct ev].
Qed.

(** A run of an admission: it commits no receipt. *)
Lemma linked_admit P w w' : does admit_events w w' -> wf w -> linked P w -> linked P w'.
Proof.
  intros Hd Hwf Hl. enough (wf w' /\ linked P w') by tauto.
  apply (does_ind admit_events (fun w => wf w /\ linked P w) w w'); [|done|done].
  intros ev w1 w2 HLev Hst [Hwf1 Hl1].
  split; [by eapply wf_step|eapply linked_step; [done|done| |intros ?|done]; by destruct ev].
Qed.

(** ** Commands *)

Context {ZL : SealLaws}.

Lemma persist_synced w :
  in_u64 (next_spool_sequence (in_state w)) ->
  (forall k id, counted_pending_expirations (in_state w) !! k = Some id -> in_u64 k) ->
  wp persist_current_sequence (fun _ w' => synced w') w.
Proof.
  intros Hn Hk. unfold persist_current_sequence, persist_sequence_state. do 2 sp_step.
  set (q := {| sq_version := 1 |}). destruct (seal_sequence (in_key w) (random_bytes (os_tick (in_os w)) NONCE_BYTES) q Hn Hk)
    as (pl & c & Hpl & Hc). rewrite Hpl. sp_step. unfold wp at 1. cbn. sp_step.
  unfold encrypt_bytes at 1, bind at 1, lift at 1, sys at 1, draw_bytes at 1. unfold wp at 1. cbn. rewrite Hc. cbn.
  set (w1 := set_os _ w). apply wp_write_new; [done|]. intros r w2 Hw.
  destruct (wn_same _ _ _ _ _ Hw) as (_ & Hkey & Hst). intros Hl.
  destruct r as [[]|e]; [|by rewrite (wn_err _ _ _ _ _ Hw) in Hl].
  rewrite Hkey, Hst. apply sealed_next. exists q, pl, (random_bytes (os_tick (in_os w)) NONCE_BYTES), c.
  split_and!; [done..|apply random_bytes_length|done|by eapply written_stored].
Qed.

Lemma synced_same w w1 :
  same_state w w1 -> in_disk w1 = in_disk w -> in_storage_write_failed w1 = in_storage_write_failed w ->
  synced w -> synced w1.
Proof. intros (_ & Hk & Hst) Hd Hl. unfold synced. by rewrite Hk, Hst, Hd, Hl. Qed.

Lemma enqueue_synced envelope now w :
  wf w -> synced w -> wp (enqueue envelope now) (fun _ w' => synced w') w.
Proof.
  intros [_ Hs] Hsy. pose proof (ws_next _ _ Hs) as Hnext. unfold enqueue, enqueue_locked. do 2 sp_step; [done|].
  do 4 sp_step; [done|]. do 2 sp_step. case_match; [by sp_step|].
  do 2 sp_step. do 2 sp_step; [|done]. rename a into next, H2 into Hadd.
  apply u64_checked_add_Some in Hadd as [-> Hlt].
  do 2 sp_step; [|done]. do 2 sp_step; [|done]. do 2 sp_step; [done|]. do 2 sp_step; [|done].
  do 2 sp_step; [done|]. apply wp_encrypt. intros r w1 Hst1 _ Hd1 Hl1.
  assert (Hsy1 : synced w1) by (by eapply synced_same). destruct r as [c|e]; [intros _|done].
  do 2 sp_step; [done|]. do 2 sp_step; [done|]. sp_step.
  apply wp_write_new; [done|]. intros r w2 Hw. destruct (wn_same _ _ _ _ _ Hw) as (_ & Hk2 & Hs2).
  destruct r as [[]|e]; [|intros Hl; by rewrite (wn_err _ _ _ _ _ Hw) in Hl].
  do 3 sp_step. eapply wp_mono.
  - apply persist_synced; cbn; [unfold in_u64; lia|]. destruct Hst1 as (_ & _ & Hst1). rewrite Hs2, Hst1.
    intros k id Hc. apply (ws_counted _ _ Hs) in Hc. unfold in_u64. lia.
  - intros [[]|e] w3 Hsy3; [by sp_step|done].
Qed.

(** Every command keeps the files in order; the receipts it leaves are its own. *)
Lemma exec_linked (P : AckReceipt -> Prop) cmd w :
  wf w -> cmd_ok cmd -> linked P w -> synced w -> (forall r, leaves cmd w r -> P r) ->
  linked P (exec cmd w) /\ synced (exec cmd w).
Proof.
  intros Hwf Hok Hl Hs HP. pose proof (exec_does cmd w Hwf Hok) as Hd.
  destruct (does_config _ _ _ Hd) as [_ Hk].
  set (P1 r := P r \/ (issued cmd r /\ accepts_pending (in_state w) r)).
  enough (linked P1 (exec cmd w) /\ synced (exec cmd w)) as [Hl1 ?].
  { split; [|done]. eapply linked_mono; [|exact Hl1]. intros p r Hr [?|[? ?]]; [done|].
    apply HP. rewrite Hk in Hr. split_and!; [done..|by exists p]. }
  assert (Hl1 : linked P1 w) by (eapply linked_mono; [|exact Hl]; by left).
  destruct cmd;
    try (eapply linked_does; [|exact Hd|done..]; intros ev (Hev & _ & Ha); split;
         [destruct ev; try done; by right|intros e ->; first [done|by destruct Hev]]).
  split; [eapply linked_admit; [|done..]; eapply does_mono; [|exact Hd]; by intros ev []|]. by apply enqueue_synced.
Qed.

End Disk.
