(* ===== verification/SpoolScan.v ===== *)
(** * Rules for the statements of recovery

    Recovery mostly reads: a system call that only looks at the disk leaves
    the world as it was, one tick later.  [at_tick] says so exactly, so that
    nothing about the state or the files has to be carried through a scan. *)

From S2P Require Import Prelude Protocol Crypto Fs SpoolTypes SpoolFacts SpoolBase SpoolOps.
From S2P Require Import SpoolRecover SpoolFrame SpoolInv SpoolSpec SpoolRefine SpoolDisk.

Definition at_tick (n : nat) (w : Inner) : Inner :=
  set_os {| os_disk := in_disk w; os_tick := n |} w.

(** Numbers read back fit their Rust type: a [u64] field cannot hold anything
    else. *)
Class WidthLaws {X : SpoolEnv} := {
  gap_width : forall b (g : GapNoticeV2), from_slice b = Some g -> in_u64 (gn_spool_seq g);
  stored_width : forall b (st : StoredRecord) seq, from_slice b = Some st -> sr_spool_seq st = Some seq -> in_u64 seq;
  receipt_width : forall b (r : AckReceipt), from_slice b = Some r -> in_u64 (ar_sequence r);
  sequence_width : forall b (q : SequenceState), from_slice b = Some q -> in_u64 (sq_next_spool_sequence q) /\
    forall k id, sq_counted_pending_expirations q !! k = Some id -> in_u64 k;
}.

Section Rules.
Context {X : SpoolEnv}.

Lemma wp_query_sys {A} (f : gmap SpoolPath Node -> Result IoError A) (Q : Result SpoolError A -> Inner -> Prop) w :
  (forall n a, f (in_disk w) = Ok a -> Q (Ok a) (at_tick n w)) -> (forall n e, Q (Err e) (at_tick n w)) ->
  wp (lift (sys (query f))) Q w.
Proof.
  intros Hok Herr. apply wp_lift, wp_sys, wp_query. intros r [->|[code ->]]; [|by apply Herr].
  fold (in_disk w). destruct (f (in_disk w)) as [a|e] eqn:E; [by apply Hok|by apply Herr].
Qed.

Lemma wp_query_catch {A} (f : gmap SpoolPath Node -> Result IoError A) Q w :
  (forall n r, r = f (in_disk w) \/ (exists code, r = Err (OsError code)) -> Q (Ok r) (at_tick n w)) ->
  wp (lift (sys_catch (query f))) Q w.
Proof. intros HQ. apply wp_lift, wp_sys_catch, wp_query. intros r Hr. by apply HQ. Qed.

Lemma wp_dir_entry (Q : Result SpoolError unit -> Inner -> Prop) w :
  (forall n, Q (Ok tt) (at_tick n w)) -> (forall n e, Q (Err e) (at_tick n w)) -> wp (lift dir_entry) Q w.
Proof. intros Hok Herr. apply wp_query_sys; [intros n [] _; apply Hok|done]. Qed.

Lemma wp_metadata p (Q : Result SpoolError Node -> Inner -> Prop) w :
  (forall n node, in_disk w !! p = Some node -> Q (Ok node) (at_tick n w)) ->
  (forall n e, Q (Err e) (at_tick n w)) -> wp (lift (sys (metadata p))) Q w.
Proof. intros Hok Herr. apply wp_query_sys; [|done]. intros n a. case_match; [|done]. intros [= ->]. by apply Hok. Qed.

Lemma wp_read p (Q : Result SpoolError bytes -> Inner -> Prop) w :
  (forall n b, in_disk w !! p = Some (File b) -> Q (Ok b) (at_tick n w)) ->
  (forall n e, Q (Err e) (at_tick n w)) -> wp (lift (sys (read p))) Q w.
Proof. intros Hok Herr. apply wp_query_sys; [|done]. intros n a. repeat case_match; try done. intros [= ->]. by apply Hok. Qed.

Lemma elem_of_dir_names (d : gmap SpoolPath Node) dir name :
  name ∈ dir_names d dir <-> is_Some (d !! SPath dir name).
Proof.
  unfold dir_names. rewrite list_elem_of_fmap. split.
  - intros ([dir' name'] & -> & Hin). rewrite list_elem_of_In, List.filter_In, <-list_elem_of_In in Hin.
    destruct Hin as [Hin Hd]. apply bool_decide_eq_true in Hd. cbn in *. subst dir'.
    apply list_elem_of_fmap in Hin as ([p n] & -> & Hin). apply elem_of_map_to_list in Hin. by exists n.
  - intros [n Hn]. exists (SPath dir name). split; [done|].
    rewrite list_elem_of_In, List.filter_In, <-list_elem_of_In. split; [|by apply bool_decide_eq_true].
    apply list_elem_of_fmap. exists (SPath dir name, n). split; [done|]. by apply elem_of_map_to_list.
Qed.

Lemma NoDup_dir_names (d : gmap SpoolPath Node) dir : NoDup (SPath dir <$> dir_names d dir).
Proof.
  unfold dir_names. rewrite <-list_fmap_compose.
  assert (Hl : forall l : list SpoolPath, NoDup l ->
    NoDup ((SPath dir ∘ sp_name) <$> List.filter (fun p => bool_decide (sp_dir p = dir)) l)).
  { intros l. induction l as [|[d' n'] l IH]; intros Hnd; [constructor|].
    apply NoDup_cons in Hnd as [Hni Hnd]. cbn. case_bool_decide as Hd; [|by apply IH]. cbn in *. subst d'.
    constructor; [|by apply IH]. intros ([d2 n2] & E & Hin)%list_elem_of_fmap. cbn in E. injection E as ->.
    rewrite list_elem_of_In, List.filter_In, <-list_elem_of_In in Hin. destruct Hin as [Hin Hd2].
    apply bool_decide_eq_true in Hd2. cbn in Hd2. by subst d2. }
  apply Hl. apply NoDup_fst_map_to_list.
Qed.

(** A listing names every file of the directory once. *)
Definition lists (d : gmap SpoolPath Node) (dir : Dir) (names : list SpoolPath) : Prop :=
  NoDup names /\ forall p, p ∈ names <-> sp_dir p = dir /\ is_Some (d !! p).

Lemma wp_read_dir dir (Q : Result SpoolError (list SpoolPath) -> Inner -> Prop) w :
  (forall n names, lists (in_disk w) dir names -> Q (Ok names) (at_tick n w)) ->
  (forall n e, Q (Err e) (at_tick n w)) -> wp (lift (read_dir dir)) Q w.
Proof.
  intros Hok Herr. unfold read_dir. apply wp_lift. unfold wp.
  apply (wp_sys (query _) (fun r o' => Q r (set_os o' w))), wp_query.
  intros r [->|[code ->]]; [|by apply Herr]. cbn [map_err]. apply Hok. fold (in_disk w).
  set (names := dir_order _ _). assert (Hperm : names ≡ₚ dir_names (in_disk w) dir) by apply dir_order_perm.
  split; [rewrite Hperm; apply NoDup_dir_names|]. intros p. rewrite list_elem_of_fmap. split.
  - intros (name & -> & Hin). rewrite Hperm, elem_of_dir_names in Hin. done.
  - intros [<- Hp]. exists (sp_name p). destruct p as [d n]. split; [done|]. cbn. rewrite Hperm. by apply elem_of_dir_names.
Qed.

Lemma wp_lift_bind {A B} (m : OsM A) (k : A -> OsM B) Q w :
  wp (bind (lift m) (fun a => lift (k a))) Q w -> wp (lift (bind m k)) Q w.
Proof.
  unfold wp, lift, bind. destruct (m (in_os w)) as [[a|e] o]; cbn; [|done]. by destruct (k a o).
Qed.

Lemma wp_has_entry dir (Q : Result SpoolError bool -> Inner -> Prop) w :
  (forall n b, Q (Ok b) (at_tick n w)) -> (forall n e, Q (Err e) (at_tick n w)) -> wp (lift (has_entry dir)) Q w.
Proof.
  intros Hok Herr. unfold has_entry. apply wp_lift_bind. wp_step. apply wp_read_dir; [|apply Herr].
  intros n names _. destruct names as [|p names]; [apply Hok|]. apply wp_lift_bind. wp_step.
  apply wp_dir_entry; [intros n'; apply Hok|intros n'; apply Herr].
Qed.

(** *** Reading only *)

(** [w'] is [w], some ticks later. *)
Definition ticks (w w' : Inner) : Prop := exists n, w' = at_tick n w.

Lemma ticks_refl w : ticks w w.
Proof. exists (os_tick (in_os w)). by destruct w as [c k s f [d t]]. Qed.
Lemma ticks_trans w w' w'' : ticks w w' -> ticks w' w'' -> ticks w w''.
Proof. intros [n ->] [m ->]. by exists m. Qed.
Lemma ticks_at n w : ticks w (at_tick n w).
Proof. by exists n. Qed.

Lemma ensure_quarantine_capacity_reads additional adding w :
  wp (ensure_quarantine_capacity additional adding) (fun _ w' => ticks w w') w.
Proof.
  unfold ensure_quarantine_capacity. wp_step. apply wp_read_dir; [|intros; apply ticks_at]. intros n names _. wp_step.
  apply (wp_fold_m names (0, 0) _ (fun _ _ w' => ticks w w')); [apply ticks_at| |].
  - intros [files size] w' Hw'. do 2 sp_step. sp_step; done.
  - intros p l [files size] w' Hw'. wp_step. apply wp_dir_entry; [|intros; eapply ticks_trans; [done|apply ticks_at]].
    intros n1. wp_step. apply wp_metadata; [|intros; eapply ticks_trans; [done|by eexists]].
    intros n2 node _. apply wp_ret. eapply ticks_trans; [done|]. by exists n2.
Qed.

(** A file that was moved to quarantine is gone from its place. *)
Lemma quarantine_gone path w :
  sp_dir path <> DQuarantine -> path <> sequence_path ->
  wp (quarantine_file_bounded path) (fun r w' => same_state w w' /\ tame_disk (in_disk w) (in_disk w') /\
    (forall p, p <> path -> sp_dir p <> DQuarantine -> in_disk w' !! p = in_disk w !! p) /\
    (r = Ok tt -> in_disk w' !! path = None)) w.
Proof.
  intros Hdir Hseq. unfold quarantine_file_bounded. wp_step. apply wp_query_catch. intros n meta _.
  wp_step. eapply wp_mono; [apply ensure_quarantine_capacity_reads|].
  intros [[]|e] w1 [n1 ->]; [|split_and!; (done || apply tame_disk_refl)].
  unfold quarantine_file. apply wp_lift. wp_step. apply wp_sys. unfold draw_uuid, wp at 1. cbn [fst snd map_err].
  set (dest := SPath DQuarantine _). assert (Hne : path <> dest) by (intros E; by rewrite E in Hdir).
  wp_step. apply wp_sys, wp_syscall; [intros; split_and!; (done || apply tame_disk_refl)|]. intros _.
  cbn [os_disk os_tick]. change (os_disk (in_os (at_tick n1 (at_tick n w)))) with (in_disk w).
  destruct (in_disk w !! path) as [node|] eqn:Hp; [|split_and!; (done || apply tame_disk_refl)].
  assert (Hput : forall r : Result SpoolError unit, tame_disk (in_disk w) (<[dest := node]> (delete path (in_disk w))) /\
    (forall p, p <> path -> sp_dir p <> DQuarantine -> <[dest := node]> (delete path (in_disk w)) !! p = in_disk w !! p) /\
    (r = Ok tt -> <[dest := node]> (delete path (in_disk w)) !! path = None)).
  { intros r. split_and!.
    - eapply tame_disk_trans; [by apply tame_delete|]. apply tame_insert, free_quarantine.
    - intros p Hp1 Hp2. rewrite lookup_insert_ne by (intros <-; done). by rewrite lookup_delete_ne.
    - intros _. rewrite lookup_insert_ne by done. by rewrite lookup_delete_eq. }
  unfold sync_directory.
  destruct (in_disk w !! dest) as [[]|]; cbn [fst snd map_err];
    [|split_and!; (done || apply tame_disk_refl)|];
    (wp_step; apply wp_sys, wp_query; intros [[]|] _; cbn [map_err os_disk]; [|split; [done|apply Hput]];
     apply wp_sys, wp_query; intros [[]|] _; cbn [map_err os_disk]; (split; [done|apply Hput])).
Qed.

End Rules.
