(* ===== verification/SpoolReopen.v ===== *)
(** * Recovery

    Opening the spool rebuilds its state from the files, whatever a crash, a
    failed write or a failed earlier recovery left.  This file proves the
    stages of [SpoolRecover] one by one.  Two things are carried along:

    - [sound]: no stage loses the answer for a sequence number.  A pending
      file goes only when a gap notice for its sequence is on disk.
    - what the state built so far satisfies: [gaps_fine], [entries_fine] and
      finally the invariant [wf], durability and [linked] of the running spool,
      from where the event system of [SpoolSpec] takes over. *)

From S2P Require Import Prelude Protocol Crypto Fs SpoolTypes SpoolFacts SpoolBase SpoolOps.
From S2P Require Import SpoolRecover SpoolFrame SpoolInv SpoolSpec SpoolRefine SpoolRefineOps SpoolReceipts.
From S2P Require Import SpoolSystem SpoolDisk SpoolScan.

(** A record found by the scan of the pending directory. *)
Abbreviation item := (StoredRecord * SpoolPath * Z)%type.
Abbreviation paths found := ((fun x : item => x.1.2) <$> found).

Section Reopen.
Context {X : SpoolEnv}.

(** ** Answers on disk *)

(** The files answer for [seq]: a pending file or a gap file is named after it. *)
Definition answers (d : gmap SpoolPath Node) (seq : Z) : Prop :=
  (exists rid, is_Some (d !! SPath DPending (pending_file_name seq rid))) \/
  (exists n, is_Some (d !! SPath DGaps (gap_file_name seq n))).

(** The sequence file stays, files of the kept directories stay or go, and
    every answer is kept. *)
Definition sound (d d' : gmap SpoolPath Node) : Prop :=
  tame_disk d d' /\ forall seq, in_u64 seq -> answers d seq -> answers d' seq.

Lemma sound_refl d : sound d d.
Proof. split; [apply tame_disk_refl|done]. Qed.
Lemma sound_trans d d' d'' : sound d d' -> sound d' d'' -> sound d d''.
Proof. intros [Ht Ha] [Ht' Ha']. split; [by eapply tame_disk_trans|auto]. Qed.

Lemma disk_ok_tame P key d d' : tame_disk d d' -> disk_ok P key d -> disk_ok P key d'.
Proof.
  intros [Hs Hf] [H1 H2 H3]. assert (Hfew : fewer d d') by exact Hf. split.
  - intros p st Hst. apply H1. by eapply record_at_fewer.
  - intros p r Hr. eapply H2. by eapply receipt_at_fewer.
  - intros next p r n Hnext Hr Hin. eapply notice_settled_fewer; [done|reflexivity|].
    eapply H3; [|by eapply receipt_at_fewer|done]. by eapply sequence_next_agree.
Qed.

(** Only gap files and scratch files changed, and no gap file went. *)
Lemma sound_gaps d d' :
  tame_disk d d' -> (forall p, sp_dir p = DPending -> d' !! p = d !! p) ->
  (forall p, sp_dir p = DGaps -> is_Some (d !! p) -> is_Some (d' !! p)) -> sound d d'.
Proof.
  intros Ht Hp Hg. split; [done|]. intros seq _ [[rid Hr]|[n Hn]]; [left; exists rid; by rewrite Hp|right].
  exists n. by apply Hg.
Qed.

(** One pending file went, and a gap file answers for its sequence. *)
Lemma sound_drop d d' p :
  tame_disk d d' -> (forall q, sp_dir q = DPending -> q <> p -> d' !! q = d !! q) ->
  (forall q, sp_dir q = DGaps -> is_Some (d !! q) -> is_Some (d' !! q)) ->
  (forall seq rid, in_u64 seq -> p = SPath DPending (pending_file_name seq rid) -> answers d' seq) -> sound d d'.
Proof.
  intros Ht Hp Hg Ha. split; [done|]. intros seq Hu [[rid Hr]|[n Hn]]; [|right; exists n; by apply Hg].
  destruct (decide (SPath DPending (pending_file_name seq rid) = p)) as [E|Hne]; [by eapply Ha|left].
  exists rid. by rewrite Hp.
Qed.

(** ** Gap notices *)

Record gaps_fine (c : SpoolConfig) (s : State) : Prop := {
  gf_key : forall n g, gaps s !! n = Some g -> gn_notice_id (ge_notice g) = n;
  gf_valid : forall n g, gaps s !! n = Some g -> valid_gap_notice (ge_notice g) = true;
  gf_u64 : forall n g, gaps s !! n = Some g -> in_u64 (gn_spool_seq (ge_notice g));
  gf_bytes : forall n g, gaps s !! n = Some g -> 0 <= ge_encrypted_bytes g;
  gf_path : forall n g, gaps s !! n = Some g -> ge_path g = SPath DGaps (gap_file_name (gn_spool_seq (ge_notice g)) n);
  gf_seq : forall n1 g1 n2 g2, gaps s !! n1 = Some g1 -> gaps s !! n2 = Some g2 ->
    gn_spool_seq (ge_notice g1) = gn_spool_seq (ge_notice g2) -> n1 = n2;
  gf_sum : pending_gap_bytes s = map_sum ge_encrypted_bytes (gaps s);
  gf_max : pending_gap_bytes s <= max_bytes c;
  gf_size : Z.of_nat (size (gaps s)) <= max_records c;
}.

Lemma gaps_fine_same c s s' :
  gaps s' = gaps s -> pending_gap_bytes s' = pending_gap_bytes s -> gaps_fine c s -> gaps_fine c s'.
Proof. intros Eg Eb [? ? ? ? ? ? ? ? ?]. split; rewrite ?Eg, ?Eb; done. Qed.

Lemma gaps_fine_insert c s notice bytes path :
  wf_config c -> gaps_fine c s ->
  gaps s !! gn_notice_id notice = None ->
  (forall n g, gaps s !! n = Some g -> gn_spool_seq (ge_notice g) <> gn_spool_seq notice) ->
  valid_gap_notice notice = true -> in_u64 (gn_spool_seq notice) -> 0 <= bytes ->
  path = SPath DGaps (gap_file_name (gn_spool_seq notice) (gn_notice_id notice)) ->
  u64_saturating_add (pending_gap_bytes s) bytes <= max_bytes c -> Z.of_nat (size (gaps s)) < max_records c ->
  gaps_fine c (insert_gap notice bytes path s).
Proof.
  intros Hc Hs Hn Hfresh Hv Hu Hb Hp Hmax Hsize. pose proof (wc_bytes _ Hc).
  assert (0 <= map_sum ge_encrypted_bytes (gaps s)) by (apply map_sum_nonneg; intros n g Hg; by apply (gf_bytes _ _ Hs n)).
  split; unfold insert_gap; cbn;
    try (intros n g [[<- <-]|[Hne Hg]]%lookup_insert_Some; [done|]; by eapply gf_key || by eapply gf_valid ||
         by eapply gf_u64 || by eapply gf_bytes || by eapply gf_path).
  - intros n1 g1 n2 g2 [[<- <-]|[? Hl1]]%lookup_insert_Some [[<- <-]|[? Hl2]]%lookup_insert_Some E;
      cbn in *; try done; [by apply Hfresh in Hl2|by apply Hfresh in Hl1|].
    by eapply (gf_seq _ _ Hs).
  - rewrite map_sum_insert by done. cbn. unfold u64_saturating_add in *. rewrite (gf_sum _ _ Hs) in *. lia.
  - done.
  - rewrite map_size_insert_None by done. lia.
Qed.

Lemma valid_gap_positive n : valid_gap_notice n = true -> in_u64 (gn_spool_seq n) -> 0 < gn_spool_seq n.
Proof.
  unfold valid_gap_notice, in_u64. destruct (gn_spool_seq n =? 0) eqn:E; [done|]. intros _ ?. lia.
Qed.

(** Nothing but the state and the clock changed. *)
Definition calm (w w' : Inner) : Prop :=
  in_config w' = in_config w /\ in_key w' = in_key w /\ in_disk w' = in_disk w.

Definition gaps_durable (key : bytes) (d : gmap SpoolPath Node) (s : State) : Prop :=
  forall n g, gaps s !! n = Some g -> gap_durable key d g.
(** Everything but the gap notices and two counters is as in a fresh state. *)
Definition blank (s : State) : Prop :=
  entries s = ∅ /\ stable_index s = ∅ /\ receipts s = ∅ /\ pending_bytes s = 0 /\ next_receipt_sequence s = 0 /\
  counted_pending_expirations s = ∅.

(** The gap files outside [todo] are in the state. *)
Record gaps_known (todo : list SpoolPath) (w : Inner) : Prop := {
  gs_fine : gaps_fine (in_config w) (in_state w);
  gs_durable : gaps_durable (in_key w) (in_disk w) (in_state w);
  gs_files : forall p, sp_dir p = DGaps -> is_Some (in_disk w !! p) ->
    p ∈ todo \/ exists n g, gaps (in_state w) !! n = Some g /\ ge_path g = p;
}.
Definition gap_scan (todo : list SpoolPath) (w : Inner) : Prop := gaps_known todo w /\ blank (in_state w).

(** Only gap files and the gap notices of the state matter. *)
Lemma gaps_known_same todo w w' :
  in_config w' = in_config w -> in_key w' = in_key w -> gaps (in_state w') = gaps (in_state w) ->
  pending_gap_bytes (in_state w') = pending_gap_bytes (in_state w) ->
  (forall p, sp_dir p = DGaps -> in_disk w' !! p = in_disk w !! p) -> gaps_known todo w -> gaps_known todo w'.
Proof.
  intros Hc Hk Hs Hb Hd [F1 F2 F3]. split; [rewrite Hc; by eapply gaps_fine_same|unfold gaps_durable|]; rewrite ?Hs, ?Hk.
  - intros n g Hg. eapply holds_agree; [|by eapply F2]. apply Hd. by rewrite (gf_path _ _ F1 _ _ Hg).
  - intros p Hp. rewrite Hd by done. by apply F3.
Qed.
Lemma gap_scan_same todo w w' :
  in_config w' = in_config w -> in_key w' = in_key w -> in_state w' = in_state w ->
  (forall p, sp_dir p = DGaps -> in_disk w' !! p = in_disk w !! p) -> gap_scan todo w -> gap_scan todo w'.
Proof. intros Hc Hk Hs Hd [Hg Hb]. split; [|by rewrite Hs]. by apply (gaps_known_same todo w); rewrite ?Hs. Qed.
Lemma gap_scan_tick todo n w : gap_scan todo w -> gap_scan todo (at_tick n w).
Proof. by apply gap_scan_same. Qed.

Context {SL : SpoolLaws} {ZL : SealLaws} {WL : WidthLaws}.

Lemma recover_gap_ok path todo w :
  wf_config (in_config w) -> sp_dir path = DGaps -> gap_scan (path :: todo) w ->
  wp (recover_gap path) (fun r w' => calm w w' /\
    match r with Ok _ => gap_scan todo w' | Err _ => True end) w.
Proof.
  intros Hc Hdir [[Hfine Hdur Hfiles] Hblank]. unfold recover_gap.
  wp_step. apply wp_dir_entry; [|done]. intros n1. wp_step. apply wp_metadata; [|done]. intros n2 node Hnode.
  wp_step. destruct (is_file node && bool_decide (extension (sp_name path) = Some (lit "tleg"))); [|do 3 sp_step; done].
  wp_step. apply wp_metadata; [|done]. intros n3 node' Hnode'. sp_step. do 2 sp_step; [done|].
  wp_step. apply wp_read; [|done]. intros n4 b Hb. change (in_disk w !! path = Some (File b)) in Hb.
  change (in_disk w !! path = Some node') in Hnode'. rewrite Hb in Hnode'. injection Hnode' as <-.
  wp_step. unfold decrypt_bytes, wp at 1. cbn [fst snd]. change (in_key (at_tick n4 _)) with (in_key w).
  destruct (decrypt (in_key w) b) as [plain|e] eqn:Hd; cbn [map_err]; [|done].
  do 2 sp_step; [|done]. rename a into notice, H0 into Hparse. do 2 sp_step.
  change (in_state (at_tick n4 _)) with (in_state w). do 2 sp_step; [done|]. rename H0 into Hchk.
  rewrite !orb_false_iff in Hchk. destruct Hchk as [[[Hv Hname] Hfresh] Hseq].
  apply negb_false_iff in Hv. apply bool_decide_eq_false, dec_stable in Hname.
  apply bool_decide_eq_false, eq_None_not_Some in Hfresh. rewrite btree_any_false in Hseq.
  do 2 sp_step. change (in_config (at_tick n4 _)) with (in_config w). do 2 sp_step; [done|]. rename H0 into Hcap.
  apply orb_false_iff in Hcap as [Hsize Hbytes]. sp_step. split; [done|].
  assert (Hpath : path = SPath DGaps (gap_file_name (gn_spool_seq notice) (gn_notice_id notice)))
    by (destruct path as [dd nn]; cbn in *; by subst).
  split; [|done]. split.
  - apply gaps_fine_insert; try done.
    + intros n g Hg E. specialize (Hseq n g Hg). unfold gap_at in Hseq. lia.
    + by eapply gap_width.
    + apply len_nonneg.
    + by apply Z.ltb_ge in Hbytes.
    + by apply Z.leb_gt in Hsize.
  - intros n g Hg. cbn in Hg. apply lookup_insert_Some in Hg as [[_ <-]|[_ Hg]]; [|by eapply Hdur].
    exists b, plain. cbn. split_and!; try done. cbn in H. lia.
  - intros p Hp Hs. destruct (Hfiles p Hp Hs) as [[->|?]%elem_of_cons|(n & g & Hg & Hq)]; [|by left|].
    + right. eexists _, _. cbn. rewrite lookup_insert_eq. by split.
    + right. exists n, g. cbn. rewrite lookup_insert_ne; [done|congruence].
Qed.

Lemma calm_trans w w' w'' : calm w w' -> calm w' w'' -> calm w w''.
Proof. unfold calm. intuition congruence. Qed.

Lemma gap_scan_start c key d s todo w :
  in_config w = c -> in_key w = key -> in_disk w = d -> in_state w = s -> wf_config c ->
  gaps s = ∅ -> pending_gap_bytes s = 0 -> blank s ->
  (forall p, sp_dir p = DGaps -> is_Some (d !! p) -> p ∈ todo) -> gap_scan todo w.
Proof.
  intros <- <- <- <- [Hb Hr _ _ _] Hg Hz Hbl Hall. split; [|done]. split; [|intros n g; by rewrite Hg, lookup_empty|by left; auto].
  split; try (intros *; by rewrite Hg, lookup_empty); rewrite ?Hg, ?Hz, ?map_sum_empty, ?map_size_empty; try done; lia.
Qed.

Lemma recover_gaps_ok w :
  wf_config (in_config w) -> gaps (in_state w) = ∅ -> pending_gap_bytes (in_state w) = 0 -> blank (in_state w) ->
  wp recover_gaps (fun r w' => calm w w' /\
    match r with Ok _ => gap_scan [] w' | Err _ => True end) w.
Proof.
  intros Hc Hg Hz Hbl. unfold recover_gaps. wp_step. apply wp_read_dir; [|done]. intros n names [_ Hnames].
  apply (wp_for_each names recover_gap (fun l w' => calm w w' /\ gap_scan l w' /\ Forall (fun p => sp_dir p = DGaps) l)).
  - split_and!; [done| |apply Forall_forall; intros p Hp; by apply Hnames].
    eapply gap_scan_start; try done. intros p Hp Hs. by apply Hnames.
  - by intros w' (Hcalm & Hscan & _).
  - intros p l w' (Hcalm & Hscan & [Hp Hl]%Forall_cons). destruct (Hcalm) as (Hcfg & _ & _).
    eapply wp_mono; [eapply recover_gap_ok; [by rewrite Hcfg|done|done]|].
    intros [[]|e] w'' [Hcalm' Hscan']; [|split; [by eapply calm_trans|done]]. split_and!; [by eapply calm_trans|done..].
Qed.

(** ** Recording a gap during recovery *)

(** What recording a gap does to the disk, however it ends. *)
Record gap_frame (w w' : Inner) : Prop := {
  gr_config : in_config w' = in_config w;
  gr_key : in_key w' = in_key w;
  gr_other : forall p, sp_dir p <> DTmp -> sp_dir p <> DGaps -> in_disk w' !! p = in_disk w !! p;
  gr_gaps : forall p, sp_dir p = DGaps -> is_Some (in_disk w !! p) -> is_Some (in_disk w' !! p);
}.

Lemma gap_frame_calm w w' : calm w w' -> gap_frame w w'.
Proof. intros (Hc & Hk & Hd). split; rewrite ?Hd; done. Qed.
Lemma gap_frame_tame w w' : gap_frame w w' -> tame_disk (in_disk w) (in_disk w').
Proof.
  intros [_ _ Ho _]. split; [by apply Ho|]. intros p [Hp|Hp]; left; apply Ho; congruence.
Qed.
Lemma gap_frame_sound w w' : gap_frame w w' -> sound (in_disk w) (in_disk w').
Proof.
  intros Hf. apply sound_gaps; [by apply gap_frame_tame|intros p Hp; apply (gr_other _ _ Hf); congruence|apply (gr_gaps _ _ Hf)].
Qed.

Lemma persist_gap_scan entry at_ms reason w :
  wf_config (in_config w) -> gap_scan [] w -> in_u64 (en_spool_seq entry) -> en_spool_seq entry <> 0 ->
  wp (persist_gap_locked entry at_ms reason) (fun r w' => gap_frame w w' /\
    match r with
    | Ok _ => gap_scan [] w' /\ exists n g, gaps (in_state w') !! n = Some g /\
        gn_spool_seq (ge_notice g) = en_spool_seq entry
    | Err _ => True
    end) w.
Proof.
  intros Hc [[Hfine Hdur Hfiles] Hblank] Hu Hpos. assert (Hrefl : gap_frame w w) by (by apply gap_frame_calm).
  unfold persist_gap_locked. set (notice := gap_notice entry at_ms reason). do 2 sp_step. case_bool_decide as Hex.
  { sp_step. split; [done|]. split; [done|]. destruct Hex as [g Hg]. exists (gn_notice_id notice), g. split; [done|].
    pose proof (gf_key _ _ Hfine _ _ Hg) as Hk. rewrite (valid_gap_notice_id _ (gf_valid _ _ Hfine _ _ Hg)) in Hk.
    apply notice_id_binds in Hk as [Hk _]; [done|by eapply gf_u64|done]. }
  do 2 sp_step; [done|]. rename H into Hgap. rewrite btree_any_false in Hgap. do 2 sp_step; [done|].
  do 2 sp_step. do 2 sp_step; [done|]. rename H0 into Hsize. do 2 sp_step; [|done].
  apply wp_encrypt. intros [c|e] w1 Hst1 _ Hd1 Hl1.
  2:{ split; [|done]. destruct Hst1 as (? & ? & ?). by apply gap_frame_calm. }
  intros (nonce & Hn & Hseal). assert (Hf1 : gap_frame w w1) by (destruct Hst1 as (? & ? & ?); by apply gap_frame_calm).
  do 2 sp_step; [done|]. rename H1 into Hcap. apply orb_false_iff in Hcap as [Hmax Hcap].
  set (dest := SPath DGaps _). sp_step. apply wp_write_new; [done|]. intros r w2 Hw%(written_after _ _ _ w); try done.
  destruct (wn_same _ _ _ _ _ Hw) as (Hc2 & Hk2 & Hs2).
  assert (Hf2 : gap_frame w w2).
  { split; try done.
    - intros p Hp Hp'. apply (wn_frame _ _ _ _ _ Hw); [|done]. by intros ->.
    - intros p Hp Hs. destruct (decide (p = dest)) as [->|Hne].
      + destruct (wn_file _ _ _ _ _ Hw) as [->|[-> _]]; done.
      + by rewrite (wn_frame _ _ _ _ _ Hw p Hne ltac:(congruence)). }
  destruct r as [[]|e]; [|done]. destruct (wn_ok _ _ _ _ _ Hw eq_refl) as (Hfile & _).
  do 3 sp_step. split; [by destruct Hf2|].
  assert (Hfresh : gaps (in_state w2) !! gn_notice_id notice = None) by (rewrite Hs2; by apply eq_None_not_Some).
  split; [split; [split|]|].
  - cbn [in_config in_state set_state]. rewrite Hc2. apply gaps_fine_insert; try done.
    + eapply gaps_fine_same; [by rewrite Hs2|by rewrite Hs2|done].
    + rewrite Hs2. intros n g Hg E. specialize (Hgap n g Hg). unfold gap_at in Hgap. cbn in E. lia.
    + by apply gap_notice_for_identity_valid.
    + apply len_nonneg.
    + rewrite Hs2. destruct Hst1 as (_ & _ & Hs1). lia.
    + rewrite Hs2. lia.
  - intros n g Hg. cbn in Hg. apply lookup_insert_Some in Hg as [[_ <-]|[_ Hg]].
    + cbn. rewrite Hk2. eapply sealed_holds; try done. lia.
    + rewrite Hs2 in Hg. cbn. rewrite Hk2. eapply holds_agree; [|by eapply Hdur].
      rewrite (gf_path _ _ Hfine _ _ Hg). apply (wn_frame _ _ _ _ _ Hw); [|done]. intros [_ E]%SPath_inj.
      apply fmt_020_app_inj in E; [|by eapply gf_u64|done]. specialize (Hgap n g Hg). unfold gap_at in Hgap. lia.
  - intros p Hp Hs. right. cbn. destruct (decide (p = dest)) as [->|Hne].
    + eexists _, _. rewrite lookup_insert_eq. by split.
    + change (is_Some (in_disk w2 !! p)) in Hs. rewrite (wn_frame _ _ _ _ _ Hw p Hne ltac:(congruence)) in Hs.
      destruct (Hfiles p Hp Hs) as [?%elem_of_nil|(n & g & Hg & Hq)]; [done|]. exists n, g. rewrite Hs2 in Hfresh |- *.
      rewrite lookup_insert_ne; [done|].
      intros <-. apply Hex. by exists g.
  - cbn. rewrite Hs2. exact Hblank.
  - exists (gn_notice_id notice). eexists. cbn. by rewrite lookup_insert_eq.
Qed.

(** ** Pending files *)

Lemma parse_pending_seq seq rid seq' rid' :
  in_u64 seq -> parse_v2_pending_file_name (pending_file_name seq rid) = Some (seq', rid') -> seq' = seq.
Proof.
  intros Hu. unfold parse_v2_pending_file_name, pending_file_name. rewrite strip_prefix_app.
  rewrite !(app_assoc _ _ PENDING_SUFFIX), strip_suffix_app. cbn [app]. rewrite split_once_app by apply fmt_020_no_dash.
  rewrite parse_u64_fmt_020 by done.
  destruct (negb _), (seq =? 0), (record_id_parse (as_str rid)) as [id|e]; try done. by intros [= ->].
Qed.

Lemma parse_pending_range name seq rid :
  parse_v2_pending_file_name name = Some (seq, rid) -> in_u64 seq /\ seq <> 0.
Proof.
  unfold parse_v2_pending_file_name. repeat case_match; try done. intros [= <- <-].
  split; [by eapply parse_u64_range|lia].
Qed.

(** A file whose name carries no valid record: recovery stops, or its sequence
    is answered by a gap notice and the file is gone. *)
Lemma quarantine_pending_ok path now_ms w :
  wf_config (in_config w) -> sp_dir path = DPending -> gap_scan [] w ->
  wp (quarantine_recovered_pending path now_ms) (fun r w' =>
    in_config w' = in_config w /\ in_key w' = in_key w /\ sound (in_disk w) (in_disk w') /\
    (forall p, sp_dir p = DPending -> p <> path -> in_disk w' !! p = in_disk w !! p) /\
    match r with Ok _ => gap_scan [] w' /\ in_disk w' !! path = None | Err _ => True end) w.
Proof.
  intros Hc Hdir Hscan. unfold quarantine_recovered_pending.
  destruct (parse_v2_pending_file_name (sp_name path)) as [[seq rid]|] eqn:Hparse;
    [|sp_step; split_and!; try done; apply sound_refl].
  destruct (parse_pending_range _ _ _ Hparse) as [Hu Hpos].
  sp_step. apply wp_query_catch. intros n meta _. sp_step. set (entry := {| en_spool_seq := seq |}).
  eapply wp_mono; [apply (persist_gap_scan entry); try done; by apply gap_scan_tick|]. intros r w1 [Hf Hr].
  pose proof (gap_frame_sound _ _ Hf) as Hs. destruct Hf as [Hcfg Hk Ho Hg].
  assert (Hpend : forall p, sp_dir p = DPending -> in_disk w1 !! p = in_disk w !! p) by (intros; apply Ho; congruence).
  destruct r as [n1|e]; [|by split_and!; auto]. destruct Hr as [Hscan1 (m & g & Hm & Hq)].
  sp_step. eapply wp_mono; [apply quarantine_gone; [by rewrite Hdir|by intros ->]|].
  intros r w2 ((Hcfg2 & Hk2 & Hs2) & Ht & Hq2 & Hgone).
  assert (Hscan2 : gap_scan [] w2).
  { eapply gap_scan_same; [done..| |done]. intros p Hp. apply Hq2; congruence. }
  assert (Hs12 : sound (in_disk w1) (in_disk w2)).
  { apply (sound_drop _ _ path); try done.
    - intros q Hqd Hne. apply Hq2; congruence.
    - intros q Hqd Hsome. rewrite Hq2; [done|congruence..].
    - intros seq' rid' Hu' E. right. exists m. rewrite E in Hparse. cbn in Hparse.
      apply parse_pending_seq in Hparse as <-; [|done]. cbn in Hq.
      destruct (gs_durable _ _ (proj1 Hscan1) _ _ Hm) as (b & _ & Hb & _).
      rewrite (gf_path _ _ (gs_fine _ _ (proj1 Hscan1)) _ _ Hm), Hq in Hb. rewrite Hq2; [by exists (File b)|by rewrite E|done]. }
  assert (Hfin : forall p, sp_dir p = DPending -> p <> path -> in_disk w2 !! p = in_disk w !! p)
    by (intros p Hp Hne; rewrite <-Hpend by done; apply Hq2; congruence).
  assert (Hs02 : sound (in_disk w) (in_disk w2)) by (by eapply sound_trans).
  assert (Hc02 : in_config w2 = in_config w) by exact (eq_trans Hcfg2 Hcfg).
  assert (Hk02 : in_key w2 = in_key w) by exact (eq_trans Hk2 Hk).
  destruct r as [[]|e]; [sp_step|by split_and!]. split_and!; try done; [|by apply Hgone].
  destruct Hscan2 as [Hg2 Hb2]. split; [|done]. by apply (gaps_known_same [] w2).
Qed.

(** What was read is still there. *)
Definition found_at (key : bytes) (d : gmap SpoolPath Node) (x : item) : Prop :=
  record_at key d x.1.2 x.1.1 /\ exists b, d !! x.1.2 = Some (File b) /\ x.2 = len b.

Lemma found_at_agree key d d' x : d' !! x.1.2 = d !! x.1.2 -> found_at key d x -> found_at key d' x.
Proof.
  intros E [(Hd & Hh & Hv) (b & Hb & Hn)]. split; [split_and!; [done|by eapply holds_agree|done]|].
  exists b. by rewrite E.
Qed.

(** While the pending directory is scanned: [todo] is not looked at yet,
    [found] are the valid records. *)
Record scanning (c : SpoolConfig) (key : bytes) (d0 : gmap SpoolPath Node) (todo : list SpoolPath) (found : list item)
    (w : Inner) : Prop := {
  sn_config : in_config w = c;
  sn_key : in_key w = key;
  sn_sound : sound d0 (in_disk w);
  sn_gaps : gap_scan [] w;
  sn_found : forall x, x ∈ found -> found_at key (in_disk w) x;
  sn_nodup : NoDup (todo ++ paths found);
  sn_todo : forall p, p ∈ todo -> sp_dir p = DPending;
  sn_files : forall p, sp_dir p = DPending -> is_Some (in_disk w !! p) -> p ∈ todo ++ paths found;
}.

Lemma scanning_tick c key d0 todo found n w : scanning c key d0 todo found w -> scanning c key d0 todo found (at_tick n w).
Proof. intros [? ? ? ? ? ? ? ?]. split; try done. by apply gap_scan_tick. Qed.

Definition scanned c key d0 todo found (r : Result SpoolError (option item)) (w : Inner) : Prop :=
  sound d0 (in_disk w) /\
  match r with
  | Ok None => scanning c key d0 todo found w
  | Ok (Some x) => scanning c key d0 todo (found ++ [x]) w
  | Err _ => True
  end.

Lemma skip_pending_ok c key d0 path todo found now_ms w :
  wf_config c -> scanning c key d0 (path :: todo) found w ->
  wp (quarantine_recovered_pending path now_ms ;; ret None) (scanned c key d0 todo found) w.
Proof.
  intros Hc [<- <- Hs Hg Hf [Hni Hnd]%NoDup_cons Ht Hall].
  sp_step. eapply wp_mono; [apply quarantine_pending_ok; [done|apply Ht; by left|done]|].
  intros r w1 (Hc1 & Hk1 & Hs1 & Hd1 & Hr). assert (Hs01 : sound d0 (in_disk w1)) by (by eapply sound_trans).
  destruct r as [[]|e]; [sp_step|]; (split; [done|]); [|done]. destruct Hr as [Hg1 Hgone]. split; try done.
  - intros x Hx. eapply found_at_agree; [|by apply Hf]. apply Hd1; [by destruct (Hf x Hx) as [[? _] _]|].
    intros E. apply Hni, elem_of_app. right. rewrite <-E. apply list_elem_of_fmap. by exists x.
  - intros p Hp. apply Ht. by right.
  - intros p Hp Hsome. destruct (decide (p = path)) as [->|Hne]; [rewrite Hgone in Hsome; by destruct Hsome|].
    rewrite Hd1 in Hsome by done. by destruct (proj1 (elem_of_cons _ _ _) (Hall p Hp Hsome)).
Qed.

Lemma scan_pending_ok c key d0 path todo found now_ms w :
  wf_config c -> scanning c key d0 (path :: todo) found w ->
  wp (scan_pending now_ms path) (scanned c key d0 todo found) w.
Proof.
  intros Hc Hscan. pose proof (sn_sound _ _ _ _ _ _ Hscan) as Hsound.
  assert (Hskip : forall n, wp (quarantine_recovered_pending path now_ms ;; ret None) (scanned c key d0 todo found) (at_tick n w))
    by (intros n; apply skip_pending_ok; [done|by apply scanning_tick]).
  unfold scan_pending. wp_step. apply wp_dir_entry; [|done]. intros n1. wp_step. apply wp_metadata; [|done]. intros n2 node Hnode.
  destruct (_ || _); [by apply Hskip|]. wp_step. apply wp_metadata; [|done]. intros n3 node' Hnode'.
  destruct (MAX_ENCRYPTED_RECORD_BYTES <? node_len node') eqn:Hlen; [by apply Hskip|].
  wp_step. apply wp_read; [|done]. intros n4 b Hb. change (in_disk w !! path = Some (File b)) in Hb.
  change (in_disk w !! path = Some node') in Hnode'. rewrite Hb in Hnode'. injection Hnode' as <-.
  wp_step. unfold wp at 1. cbn [fst snd]. change (in_key (at_tick n4 _)) with (in_key w).
  destruct (decrypt (in_key w) b) as [plain|[]] eqn:Hd; [|done|by apply Hskip].
  destruct (from_slice plain) as [st|] eqn:Hparse; [|by apply Hskip].
  destruct (_ || _) eqn:Hv; [by apply Hskip|]. apply orb_false_iff in Hv as [Hv _]. apply negb_false_iff in Hv.
  wp_step. split; [done|]. pose proof (scanning_tick _ _ _ _ _ n4 _ Hscan) as [Hcfg <- Hs Hg Hf Hnd Ht Hall].
  split; try done.
  - intros x [Hx|Hx]%elem_of_app; [by apply Hf|]. apply list_elem_of_singleton in Hx as ->.
    split; [|by exists b]. split_and!; [apply Ht; by left| |done]. exists b, plain. cbn in Hlen. split_and!; try done. lia.
  - rewrite fmap_app. cbn [fmap list_fmap]. rewrite app_assoc. rewrite <-Permutation_cons_append. exact Hnd.
  - intros p Hp. apply Ht. by right.
  - intros p Hp Hsome. rewrite fmap_app. cbn [fmap list_fmap]. rewrite app_assoc, <-Permutation_cons_append. by apply Hall.
Qed.

End Reopen.
