(* ===== verification/SpoolRestore.v ===== *)
(** * Recovery: records, counters and receipts

    The second half of [recover]: the valid records of the pending directory
    become entries, the counters and the receipts are read back, and the state
    rebuilt in this way is well formed, durable and [linked] to the files. *)

From S2P Require Import Prelude Protocol Crypto Fs SpoolTypes SpoolFacts SpoolBase SpoolOps.
From S2P Require Import SpoolRecover SpoolFrame SpoolInv SpoolSpec SpoolRefine SpoolRefineOps SpoolReceipts.
From S2P Require Import SpoolSystem SpoolDisk SpoolScan SpoolReopen.

Section Restore.
Context {X : SpoolEnv}.

(** ** Entries *)

Record entries_fine (c : SpoolConfig) (s : State) : Prop := {
  ef_key : forall r e, entries s !! r = Some e -> en_record_id e = r;
  ef_seq : forall r e, entries s !! r = Some e -> 0 < en_spool_seq e <= U64_MAX;
  ef_index : forall r e, entries s !! r = Some e -> stable_index s !! en_stable_record_id e = Some r;
  ef_bytes : forall r e, entries s !! r = Some e -> 0 <= en_encrypted_bytes e;
  ef_path : forall r e, entries s !! r = Some e -> en_path e = SPath DPending (pending_file_name (en_spool_seq e) r);
  ef_identity : forall r e, entries s !! r = Some e -> entry_identity e;
  ef_distinct : forall r1 e1 r2 e2, entries s !! r1 = Some e1 -> entries s !! r2 = Some e2 ->
    en_spool_seq e1 = en_spool_seq e2 -> r1 = r2;
  ef_back : forall sid r, stable_index s !! sid = Some r ->
    exists e, entries s !! r = Some e /\ en_stable_record_id e = sid;
  ef_sum : pending_bytes s = map_sum en_encrypted_bytes (entries s);
  ef_max : pending_bytes s <= max_bytes c;
  ef_size : Z.of_nat (size (entries s)) <= max_records c;
}.

Lemma entries_fine_empty c s : wf_config c -> blank s -> entries_fine c s.
Proof.
  intros [Hb Hr _ _ _] (He & Hi & _ & Hp & _).
  split; try (intros *; by rewrite ?He, ?Hi, lookup_empty); rewrite ?He, ?Hp, ?map_sum_empty, ?map_size_empty; try done; lia.
Qed.

Lemma entries_fine_restore c s e :
  wf_config c -> entries_fine c s ->
  entries s !! en_record_id e = None -> stable_index s !! en_stable_record_id e = None ->
  (forall r e', entries s !! r = Some e' -> en_spool_seq e' <> en_spool_seq e) ->
  0 < en_spool_seq e <= U64_MAX -> 0 <= en_encrypted_bytes e ->
  en_path e = SPath DPending (pending_file_name (en_spool_seq e) (en_record_id e)) -> entry_identity e ->
  u64_saturating_add (pending_bytes s) (en_encrypted_bytes e) <= max_bytes c -> Z.of_nat (size (entries s)) < max_records c ->
  entries_fine c (restore_entry e s).
Proof.
  intros Hc Hs Hr Hi Hfresh Hseq Hb Hp Hid Hmax Hsize. pose proof (wc_bytes _ Hc).
  assert (0 <= map_sum en_encrypted_bytes (entries s)) by (apply map_sum_nonneg; intros n g Hg; by apply (ef_bytes _ _ Hs n)).
  split; unfold restore_entry; cbn;
    try (intros r e' [[<- <-]|[Hne He]]%lookup_insert_Some; [done|];
         by eapply ef_key || by eapply ef_seq || by eapply ef_bytes || by eapply ef_path || by eapply ef_identity).
  - intros r e' [[<- <-]|[Hne He]]%lookup_insert_Some; [by rewrite lookup_insert_eq|].
    pose proof (ef_index _ _ Hs _ _ He). rewrite lookup_insert_ne; [done|congruence].
  - intros r1 e1 r2 e2 [[<- <-]|[? Hl1]]%lookup_insert_Some [[<- <-]|[? Hl2]]%lookup_insert_Some E; try done.
    + by destruct (Hfresh _ _ Hl2).
    + by destruct (Hfresh _ _ Hl1).
    + by eapply (ef_distinct _ _ Hs).
  - intros sid r [[<- <-]|[? Hl]]%lookup_insert_Some; [exists e; by rewrite lookup_insert_eq|].
    destruct (ef_back _ _ Hs _ _ Hl) as (e' & He' & Hsid). exists e'. rewrite lookup_insert_ne; [done|congruence].
  - rewrite map_sum_insert by done. unfold u64_saturating_add in *. rewrite (ef_sum _ _ Hs) in *. lia.
  - done.
  - rewrite map_size_insert_None by done. lia.
Qed.

Lemma entries_fine_same c s s' :
  entries s' = entries s -> stable_index s' = stable_index s -> pending_bytes s' = pending_bytes s ->
  entries_fine c s -> entries_fine c s'.
Proof. intros Ee Ei Eb [? ? ? ? ? ? ? ? ? ? ?]. split; rewrite ?Ee, ?Ei, ?Eb; done. Qed.

(** No sequence is both a record and a gap. *)
Definition gapless (s : State) : Prop :=
  forall r e n g, entries s !! r = Some e -> gaps s !! n = Some g -> gn_spool_seq (ge_notice g) <> en_spool_seq e.

(** While records become entries: [todo] are the records still to come. *)
Record rebuilt (c : SpoolConfig) (key : bytes) (d0 : gmap SpoolPath Node) (todo : list item) (w : Inner) : Prop := {
  rb_config : in_config w = c;
  rb_key : in_key w = key;
  rb_sound : sound d0 (in_disk w);
  rb_gaps : gaps_known [] w;
  rb_found : forall x, x ∈ todo -> found_at key (in_disk w) x;
  rb_nodup : NoDup (paths todo);
  rb_fine : entries_fine c (in_state w);
  rb_durable : forall r e, entries (in_state w) !! r = Some e -> entry_durable key (in_disk w) e;
  rb_apart : forall r e, entries (in_state w) !! r = Some e -> en_path e ∉ paths todo;
  rb_gapless : gapless (in_state w);
  rb_files : forall p, sp_dir p = DPending -> is_Some (in_disk w !! p) ->
    p ∈ paths todo \/ exists r e, entries (in_state w) !! r = Some e /\ en_path e = p;
  rb_rest : receipts (in_state w) = ∅ /\ next_receipt_sequence (in_state w) = 0 /\
    counted_pending_expirations (in_state w) = ∅;
}.

Lemma rebuilt_start c key d0 found w : wf_config c -> scanning c key d0 [] found w -> rebuilt c key d0 found w.
Proof.
  intros Hc [Hcfg Hk Hs [Hg Hb] Hf Hnd _ Hall]. pose proof Hb as (He & _ & Hr & _ & Hn & Hct). split; try done.
  - by apply entries_fine_empty.
  - intros r e. by rewrite He, lookup_empty.
  - intros r e. by rewrite He, lookup_empty.
  - intros r e n g. by rewrite He, lookup_empty.
  - intros p Hp Hsome. left. by apply Hall.
Qed.

Lemma rebuilt_perm c key d0 l l' w : l ≡ₚ l' -> rebuilt c key d0 l w -> rebuilt c key d0 l' w.
Proof.
  intros Hp [? ? ? ? Hf Hnd ? ? Ha ? Hall ?]. split; try done.
  - intros x. rewrite <-Hp. apply Hf.
  - by rewrite <-Hp.
  - intros r e He. rewrite <-Hp. by eapply Ha.
  - intros p. rewrite <-Hp. apply Hall.
Qed.

Context {SL : SpoolLaws} {ZL : SealLaws} {WL : WidthLaws}.

(** A record that is there is of version 2, under its own name. *)
Lemma found_record P key d st path n :
  disk_ok P key d -> found_at key d (st, path, n) ->
  exists seq, sr_version st <> 1 /\ sr_spool_seq st = Some seq /\ 0 < seq <= U64_MAX /\
    sr_stable_record_id st = Some (stable_record_id (sr_envelope st)) /\
    path = SPath DPending (pending_file_name seq (sr_record_id st)).
Proof.
  intros Hok [Hrec _]. destruct (dk_records _ _ _ Hok _ _ Hrec) as (seq & Hseq & Hpath).
  destruct Hrec as (_ & (b & pl & _ & _ & _ & Hpl) & Hv). exists seq. cbn in *.
  destruct (valid_stable_some _ _ Hv Hseq) as [Hsid Hpos]. split_and!; try done.
  - intros E. unfold valid_stored_record in Hv. rewrite E in Hv. destruct (_ || _); [done|]. cbn in Hv.
    apply andb_true_iff in Hv as [_ Hv]. apply bool_decide_eq_true in Hv. congruence.
  - by apply (stored_width _ _ _ Hpl Hseq).
Qed.

Lemma recover_record_ok P c key d0 next x todo w :
  wf_config c -> disk_ok P key d0 -> rebuilt c key d0 (x :: todo) w ->
  wp (recover_record next x) (fun r w' => sound d0 (in_disk w') /\
    match r with Ok _ => rebuilt c key d0 todo w' | Err _ => True end) w.
Proof.
  intros Hc Hok0 [<- <- Hs Hg Hf Hnd Hfine Hdur Hap Hgl Hall Hrest].
  assert (Hok : disk_ok P (in_key w) (in_disk w)) by (eapply disk_ok_tame; [apply Hs|done]).
  destruct x as [[st path] n]. pose proof (Hf _ (list_elem_of_here _ _)) as Hx.
  destruct (found_record _ _ _ _ _ _ Hok Hx) as (seq & Hv1 & Hseq & Hrange & Hsid & Hpath).
  rewrite fmap_cons in Hnd. apply NoDup_cons in Hnd as [Hni Hnd].
  unfold recover_record. wp_step. unfold migrate_record. rewrite (proj2 (Z.eqb_neq _ _) Hv1).
  do 2 sp_step. rewrite Hsid, Hseq. sp_step; [|done]. injection H as <-. do 2 sp_step; [|done]. injection H as <-.
  do 2 sp_step. case_match eqn:Hgap.
  - apply btree_any_true in Hgap as (m & g & Hm & Hgseq). unfold gap_at in Hgseq. apply Z.eqb_eq in Hgseq.
    sp_step. eapply wp_mono; [apply quarantine_gone; by rewrite Hpath|].
    intros r w1 ((Hcfg1 & Hk1 & Hs1) & Ht1 & Hd1 & Hgone).
    assert (Hs01 : sound d0 (in_disk w1)).
    { eapply sound_trans; [exact Hs|]. apply (sound_drop _ _ path); try done.
      - intros q Hq Hne. apply Hd1; congruence.
      - intros q Hq Hsome. rewrite Hd1; [done|intros ->; by rewrite Hpath in Hq|congruence].
      - intros seq' rid' Hu E. right. exists m. rewrite Hpath in E. apply SPath_inj in E as [_ E].
        apply pending_name_seq in E as <-; [|unfold in_u64; lia|done].
        destruct (gs_durable _ _ Hg _ _ Hm) as (b & _ & Hb & _).
        rewrite (gf_path _ _ (gs_fine _ _ Hg) _ _ Hm), Hgseq in Hb.
        rewrite Hd1; [by exists (File b)|by rewrite Hpath|done]. }
    destruct r as [[]|e]; [|done]. specialize (Hgone eq_refl). do 3 sp_step. split; [done|].
    assert (Hkeep : forall p, sp_dir p = DPending -> p <> path -> in_disk w1 !! p = in_disk w !! p)
      by (intros; apply Hd1; congruence).
    split; cbn; rewrite ?Hs1; try done.
    + apply (gaps_known_same [] w); cbn; rewrite ?Hs1; try done. intros p Hp. apply Hd1; [intros ->; by rewrite Hpath in Hp|congruence].
    + intros y Hy. change (found_at (in_key w) (in_disk w1) y). pose proof (Hf y (list_elem_of_further _ _ _ Hy)) as Hfy.
      eapply found_at_agree; [|exact Hfy]. apply Hkeep; [apply Hfy|].
      intros E. apply Hni. rewrite <-E. apply list_elem_of_fmap. by exists y.
    + by apply (entries_fine_same _ (in_state w)).
    + intros r e He. destruct (Hdur r e He) as (st' & Hh & Hm'). exists st'. split; [|done].
      eapply holds_agree; [|exact Hh]. apply Hkeep; [by rewrite (ef_path _ _ Hfine _ _ He)|].
      intros E. apply (Hap r e He). rewrite E. by left.
    + intros r e He Hin. apply (Hap r e He). by right.
    + intros p Hp Hsome. change (is_Some (in_disk w1 !! p)) in Hsome.
      destruct (decide (p = path)) as [->|Hne]; [rewrite Hgone in Hsome; by destruct Hsome|].
      rewrite Hkeep in Hsome by done. destruct (Hall p Hp Hsome) as [[->|?]%elem_of_cons|?]; [done|by left|by right].
  - unfold move_to_canonical. rewrite bool_decide_true by done. do 2 sp_step. do 4 sp_step. do 2 sp_step; [done|].
    rename H into Hchk. rewrite !orb_false_iff in Hchk. destruct Hchk as [[[[Hr Hi] Hdist] Hsz] Hbytes].
    apply bool_decide_eq_false, eq_None_not_Some in Hr, Hi. rewrite btree_any_false in Hdist.
    rewrite btree_any_false in Hgap. sp_step. sp_step. sp_step. split; [done|].
    destruct Hx as [(_ & Hh & Hvalid) (b & Hb & Hn)]. cbn in Hh, Hvalid, Hb, Hn.
    set (e := {| en_spool_seq := seq |}).
    pose proof (proj1 (valid_stable _ _ Hvalid Hsid)) as Hrid.
    split; try done.
    + by apply (gaps_known_same [] w).
    + intros y Hy. apply Hf. by right.
    + apply entries_fine_restore; try done; cbn; [|rewrite Hn; apply len_nonneg| |lia|lia].
      * intros r e' He' E. specialize (Hdist r e' He'). cbn in Hdist. lia.
      * exists (sr_envelope st). split_and!; try done. unfold valid_stored_record in Hvalid.
        destruct (validate (sr_envelope st)) as [[]|]; [done|]. by cbn in Hvalid.
    + cbn. intros r e' [[<- <-]|[_ He]]%lookup_insert_Some; [|by eapply Hdur]. exists st. rewrite Hpath in Hh.
      split; [exact Hh|]. by split_and!.
    + cbn. intros r e' [[<- <-]|[_ He]]%lookup_insert_Some; [by rewrite Hpath in Hni|].
      intros Hin. apply (Hap r e' He). by right.
    + unfold gapless. cbn. intros r e' m g [[<- <-]|[_ He]]%lookup_insert_Some Hm; [|by eapply Hgl].
      specialize (Hgap m g Hm). unfold gap_at in Hgap. cbn. lia.
    + intros p Hp Hsome. cbn. destruct (Hall p Hp Hsome) as [[->|?]%elem_of_cons|(r & e' & He & Hpe)]; [|by left|]; right.
      * exists (sr_record_id st), e. by rewrite lookup_insert_eq.
      * exists r, e'. split; [|done]. rewrite lookup_insert_ne; [done|congruence].
Qed.

Lemma scanning_start c key d0 names w :
  in_config w = c -> in_key w = key -> sound d0 (in_disk w) -> gap_scan [] w -> lists (in_disk w) DPending names ->
  scanning c key d0 names [] w.
Proof.
  intros Hc Hk Hs Hg [Hnd Hnames]. split; try done.
  - by intros x ?%elem_of_nil.
  - by rewrite app_nil_r.
  - intros p Hp. by apply Hnames.
  - intros p Hp Hsome. rewrite app_nil_r. by apply Hnames.
Qed.

Lemma recover_pending_ok P c key d0 now_ms w :
  wf_config c -> disk_ok P key d0 ->
  in_config w = c -> in_key w = key -> sound d0 (in_disk w) -> gap_scan [] w ->
  wp (recover_pending now_ms) (fun r w' => sound d0 (in_disk w') /\
    match r with Ok _ => rebuilt c key d0 [] w' | Err _ => True end) w.
Proof.
  intros Hc Hok Hcfg Hk Hs Hg. unfold recover_pending. wp_step. apply wp_read_dir; [|done]. intros n names Hnames.
  wp_step. apply (wp_fold_m names [] _ (fun l found w' => scanning c key d0 l found w')).
  - apply scanning_tick. by apply scanning_start.
  - intros found w1 Hscan. do 4 sp_step; [|split; [apply Hscan|done]]. wp_step.
    apply (wp_fold_m _ a _ (fun l _ w' => rebuilt c key d0 l w')).
    + eapply rebuilt_perm; [symmetry; apply sort_by_perm|]. by apply rebuilt_start.
    + intros next w2 Hr. sp_step. split; [apply Hr|done].
    + intros x l next w2 Hr. eapply wp_mono; [by eapply recover_record_ok|]. by intros [] w3 [? ?].
  - intros path l found w1 Hscan. wp_step. eapply wp_mono; [by eapply scan_pending_ok|].
    intros [[x|]|e] w2 [Hs2 Hr]; [by sp_step..|done].
Qed.

(** ** Counters *)

Lemma recover_sequence_ok w :
  wp recover_sequence_state (fun r w' => ticks w w' /\
    match r with
    | Ok None => in_disk w !! sequence_path = None
    | Ok (Some q) => opens (in_key w) (in_disk w) sequence_path q /\ 0 < sq_next_spool_sequence q <= U64_MAX /\
        forall k id, sq_counted_pending_expirations q !! k = Some id -> 0 < k < sq_next_spool_sequence q
    | Err _ => True
    end) w.
Proof.
  unfold recover_sequence_state. wp_step. apply wp_query_catch. intros n meta Hmeta.
  fold sequence_path in *. destruct meta as [node|[| |code]]; try by (sp_step; split; [apply ticks_at|]).
  2:{ destruct Hmeta as [Hm|[code Hm]]; [|done]. case_match eqn:E; [done|].
      sp_step. by split; [apply ticks_at|]. }
  do 2 sp_step; [by split; [apply ticks_at|]|].
  sp_step. apply wp_read; [|intros; split; [by exists n0|done]]. intros n1 b Hb. change (in_disk w !! sequence_path = Some (File b)) in Hb.
  assert (Ht : ticks w (at_tick n1 (at_tick n w))) by (by exists n1).
  sp_step. unfold decrypt_bytes, wp at 1. cbn [fst snd]. change (in_key (at_tick n1 _)) with (in_key w).
  destruct (decrypt (in_key w) b) as [plain|e] eqn:Hd; cbn [map_err]; [|done].
  do 2 sp_step; [|done]. rename a into q, H0 into Hq. do 2 sp_step; [done|]. rename H0 into Hchk.
  rewrite !orb_false_iff in Hchk. destruct Hchk as [[[_ Hz] _] Hall].
  destruct (sequence_width _ _ Hq) as [Hn Hk]. sp_step. split; [done|]. unfold in_u64 in *.
  split; [by exists b, plain|]. split; [lia|]. intros k id Hid. specialize (Hk _ _ Hid).
  enough ((k =? 0) || (sq_next_spool_sequence q <=? k) = false) as Hlt by lia.
  apply not_true_is_false. intros Hb'. enough (true = false) by done. rewrite <-Hall. symmetry. apply existsb_exists. exists k. split; [|done].
  apply list_elem_of_In, list_elem_of_fmap. exists (k, id). by rewrite elem_of_map_to_list.
Qed.

Lemma le_max_or_zero x l : x ∈ l -> x <= max_or_zero l.
Proof.
  unfold max_or_zero. induction l as [|y l IH]; [by intros ?%elem_of_nil|]. intros [->|Hx]%elem_of_cons; cbn; [lia|].
  specialize (IH Hx). lia.
Qed.

Lemma wf_assembled c s :
  wf_config c -> entries_fine c s -> gaps_fine c s -> receipts s = ∅ -> next_receipt_sequence s = 0 ->
  (forall r e, entries s !! r = Some e -> en_spool_seq e < next_spool_sequence s) ->
  (forall n g, gaps s !! n = Some g -> gn_spool_seq (ge_notice g) < next_spool_sequence s) ->
  0 < next_spool_sequence s <= U64_MAX ->
  (forall k id, counted_pending_expirations s !! k = Some id -> 0 < k < next_spool_sequence s) ->
  (forall r e id, entries s !! r = Some e -> counted_pending_expirations s !! en_spool_seq e = Some id -> id = en_stable_record_id e) ->
  wf_state c s.
Proof.
  intros Hc Ef Gf Hr Hn He Hg Hnext Hk Hm. split; rewrite ?Hr, ?Hn; try apply Ef; try apply Gf; try done; try lia.
  - intros r e Hl. split; try (by eapply Ef); [|by intros sid; eapply Hm].
    split; [by eapply Ef|by eapply He].
  - intros n g Hl. split; try (by eapply Gf). split; [|by eapply Hg].
    apply valid_gap_positive; by eapply Gf.
Qed.

(** Sequence [seq] is answered for, or was accepted in a receipt. *)
Definition answered (P : AckReceipt -> Prop) (s : State) (seq : Z) : Prop :=
  live s seq \/ exists r, P r /\ named r /\ acknowledges r seq.

(** The spool is rebuilt: from here on it runs like any other. *)
Record restored (P : AckReceipt -> Prop) (c : SpoolConfig) (key : bytes) (d0 : gmap SpoolPath Node) (w : Inner) : Prop := {
  rs_config : in_config w = c;
  rs_key : in_key w = key;
  rs_wf : wf w;
  rs_durable : durable w;
  rs_linked : linked P w;
  rs_answered : forall seq, in_u64 seq -> answers d0 seq -> answered P (in_state w) seq;
}.

Lemma rebuilt_live c key d0 w seq :
  rebuilt c key d0 [] w -> in_u64 seq -> answers d0 seq -> live (in_state w) seq.
Proof.
  intros Hr Hu Ha. destruct Hr as [_ _ [_ Hs] Hg _ _ Hf _ _ _ Hall _].
  destruct (Hs seq Hu Ha) as [[rid Hp]|[n Hn]].
  - left. destruct (Hall (SPath DPending _) eq_refl Hp) as [?%elem_of_nil|(r & e & He & E)]; [done|]. exists r, e. split; [done|].
    rewrite (ef_path _ _ Hf _ _ He) in E. apply SPath_inj in E as [_ E].
    pose proof (ef_seq _ _ Hf _ _ He). apply pending_name_seq in E; [done|unfold in_u64; lia|done].
  - right. destruct (gs_files _ _ Hg (SPath DGaps _) eq_refl Hn) as [?%elem_of_nil|(m & g & Hm & E)]; [done|]. exists m, g. split; [done|].
    rewrite (gf_path _ _ (gs_fine _ _ Hg) _ _ Hm) in E. apply SPath_inj in E as [_ E].
    apply fmt_020_app_inj in E; [done|by eapply (gf_u64 _ _ (gs_fine _ _ Hg))|done].
Qed.

Lemma pending_name_id s1 i1 s2 i2 : pending_file_name s1 i1 = pending_file_name s2 i2 -> i1 = i2.
Proof.
  unfold pending_file_name. intros E%app_inv_head. apply app_inj_1 in E as [_ E]; [|unfold fmt_020; by rewrite !length_dec_digits].
  apply app_inv_head, app_inv_tail in E. destruct i1, i2. cbn in E. congruence.
Qed.

Lemma rebuilt_record c key d0 w P p st seq :
  rebuilt c key d0 [] w -> disk_ok P key (in_disk w) -> record_at key (in_disk w) p st -> sr_spool_seq st = Some seq ->
  exists e, entries (in_state w) !! sr_record_id st = Some e /\ en_spool_seq e = seq.
Proof.
  intros Hr Hok Hst Hseq. destruct (dk_records _ _ _ Hok _ _ Hst) as (seq' & Hseq' & ->).
  assert (seq' = seq) as -> by congruence. destruct Hst as (_ & (b & pl & Hb & _ & _ & Hpl) & _).
  destruct (rb_files _ _ _ _ _ Hr (SPath DPending _) eq_refl ltac:(by exists (File b))) as [?%elem_of_nil|(r & e & He & E)]; [done|].
  pose proof (rb_fine _ _ _ _ _ Hr) as Hf. rewrite (ef_path _ _ Hf _ _ He) in E. apply SPath_inj in E as [_ E].
  pose proof (pending_name_id _ _ _ _ E) as ->. exists e. split; [done|]. pose proof (ef_seq _ _ Hf _ _ He).
  apply pending_name_seq in E; [done|unfold in_u64; lia|by eapply stored_width].
Qed.

Lemma recover_counters_ok P c key d0 w :
  wf_config c -> disk_ok P key d0 -> rebuilt c key d0 [] w ->
  wp recover_counters (fun r w' => in_disk w' = in_disk w /\
    match r with
    | Ok _ => restored P c key d0 w' /\ gapless (in_state w') /\ receipts (in_state w') = ∅
    | Err _ => True
    end) w.
Proof.
  intros Hc Hok0 Hr. pose proof Hr as [Hcfg Hk Hs Hg _ _ Hf Hdur _ Hgl Hall (Hrec & Hnr & _)].
  assert (Hok : disk_ok P key (in_disk w)) by (eapply disk_ok_tame; [apply Hs|done]).
  unfold recover_counters. wp_step. eapply wp_mono; [apply recover_sequence_ok|].
  intros [sq|e] w1 [[n ->] Hsq]; [|done]. cbv zeta. do 8 sp_step. do 2 sp_step; [|done]. do 2 sp_step; [|done].
  do 5 sp_step; [done|]. rename a into rn, H into Hrn, a0 into gn, H0 into Hgn, H1 into Hmis.
  apply u64_checked_add_Some in Hrn as [-> Hrn]. apply u64_checked_add_Some in Hgn as [-> Hgn].
  rewrite btree_any_false in Hmis. split; [done|]. cbn in Hmis.
  change (max_or_zero (entry_seqs (in_state w)) + 1 <= U64_MAX) in Hrn.
  change (max_or_zero (gap_seqs (in_state w)) + 1 <= U64_MAX) in Hgn.
  set (w2 := set_state _ _).
  set (N := Z.max (Z.max (from_option sq_next_spool_sequence 1 sq) (max_or_zero (entry_seqs (in_state w)) + 1))
    (max_or_zero (gap_seqs (in_state w)) + 1)).
  assert (HN : from_option sq_next_spool_sequence 1 sq <= N /\ max_or_zero (entry_seqs (in_state w)) + 1 <= N /\
    max_or_zero (gap_seqs (in_state w)) + 1 <= N /\ N <= Z.max (Z.max (from_option sq_next_spool_sequence 1 sq) U64_MAX) U64_MAX)
    by (unfold N; lia).
  assert (Hsq1 : 0 < from_option sq_next_spool_sequence 1 sq <= U64_MAX)
    by (destruct sq as [q|]; [apply Hsq|by unfold U64_MAX]).
  assert (Hcnt : forall k id, counted_pending_expirations (in_state w2) !! k = Some id -> 0 < k < N).
  { intros k id. cbn. destruct sq as [q|]; cbn; [|by rewrite lookup_empty]. destruct Hsq as (_ & _ & Hcnt). cbn in HN.
    intros Hid. specialize (Hcnt k id Hid). lia. }
  assert (HNe : forall r e, entries (in_state w) !! r = Some e -> en_spool_seq e < N).
  { intros r e He. enough (en_spool_seq e <= max_or_zero (entry_seqs (in_state w))) by lia. apply le_max_or_zero.
    apply list_elem_of_fmap. exists e. split; [done|]. apply elem_of_btree_values. eauto. }
  assert (HNg : forall m g, gaps (in_state w) !! m = Some g -> gn_spool_seq (ge_notice g) < N).
  { intros m g Hm. enough (gn_spool_seq (ge_notice g) <= max_or_zero (gap_seqs (in_state w))) by lia. apply le_max_or_zero.
    apply list_elem_of_fmap. exists g. split; [done|]. apply elem_of_btree_values. eauto. }
  split; [|by split; [exact Hgl|]]. split; try done.
  - split; cbn; rewrite Hcfg; [done|]. apply wf_assembled; try done; [| |change (0 < N <= U64_MAX); lia|].
    + by apply (entries_fine_same _ (in_state w)).
    + apply (gaps_fine_same _ (in_state w)); [done..|]. rewrite <-Hcfg. apply Hg.
    + intros r e id He Hid. specialize (Hmis r e He). cbn in Hid. rewrite Hid in Hmis.
      by apply bool_decide_eq_false, dec_stable in Hmis.
  - split; cbn; rewrite ?Hk.
    + intros r e He _. by eapply Hdur.
    + rewrite <-Hk. apply Hg.
    + intros b re. by rewrite Hrec, lookup_empty.
  - split; cbn; rewrite ?Hk; [done| |].
    + intros p st seq Hst Hseq. left. by eapply rebuilt_record.
    + exists (from_option sq_next_spool_sequence 1 sq). split; [|apply HN].
      destruct sq as [q|]; [right; exists q; rewrite Hk in Hsq; by split; [apply Hsq|]|by left].
  - intros seq Hu Ha. left. by apply (rebuilt_live c key d0 w).
Qed.

End Restore.
