(* ===== verification/SpoolOpen.v ===== *)
(** * Opening the spool

    The receipts are read and what they still owe is deleted, the counted
    expirations are settled, and the spool is handed out.  [open_recovers]
    states what opening promises for any files a running spool can have left
    behind and under any storage faults. *)

From S2P Require Import Prelude Protocol Crypto Fs SpoolTypes SpoolFacts SpoolBase SpoolOps.
From S2P Require Import SpoolRecover SpoolFrame SpoolInv SpoolSpec SpoolRefine SpoolRefineOps SpoolDelivery SpoolReceipts.
From S2P Require Import SpoolSystem SpoolDisk SpoolScan SpoolReopen SpoolRestore.

Section Open.
Context {X : SpoolEnv} {SL : SpoolLaws} {ZL : SealLaws} {WL : WidthLaws}.

(** ** Running on *)

(** Events that write no record and no receipt, and acknowledge only receipts
    that satisfy [P]. *)
Definition open_events (P : AckReceipt -> Prop) (ev : Event) : Prop :=
  writes ev = false /\ forall r, ack_event r ev -> P r.

Lemma restored_does P c key d0 w w' :
  does (open_events P) w w' -> restored P c key d0 w -> restored P c key d0 w'.
Proof.
  intros Hd [Hc Hk Hwf Hdu Hl Ha]. destruct (does_config _ _ _ Hd) as [Hc' Hk']. split; try congruence.
  - by eapply wf_does.
  - by eapply durable_does.
  - eapply linked_reads; [|done..]. by intros ev [? _].
  - intros seq Hu Hans. destruct (Ha seq Hu Hans) as [Hlive|?]; [|by right].
    destruct (live_does _ _ _ _ Hd Hwf Hlive) as [?|(r & ev & [_ HP] & Hev & Hn & Hr)]; [by left|right].
    exists r. split_and!; [by apply HP|done|by eapply accepts_acknowledges].
Qed.

Lemma restored_tick P c key d0 n w : restored P c key d0 w -> restored P c key d0 (at_tick n w).
Proof.
  intros Hr. eapply restored_does; [|exact Hr]. apply does_ticks; try done; [apply Hr|by apply tame_disk_of].
Qed.

Lemma restored_ok P c key d0 {A} (m : SpoolM A) w :
  ok (open_events P) m -> restored P c key d0 w -> wp m (fun _ w' => restored P c key d0 w') w.
Proof. intros Hm Hr. eapply restored_does; [|exact Hr]. apply Hm, Hr. Qed.

(** Only receipts and counters changed in memory. *)
Lemma restored_state P c key d0 w s :
  entries s = entries (in_state w) -> gaps s = gaps (in_state w) ->
  next_spool_sequence s = next_spool_sequence (in_state w) -> wf_state c s ->
  (forall b re, receipts s !! b = Some re -> receipt_durable key (in_disk w) re) ->
  restored P c key d0 w -> restored P c key d0 (set_state s w).
Proof.
  intros He Hg Hn Hwf Hdur [Hc Hk [Hcfg _] [De Dg _] [L1 L2 L3] Ha]. split; try done.
  - split; [done|]. cbn. by rewrite Hc.
  - split; cbn; [|unfold gaps_durable in *; by rewrite Hg|by rewrite Hk].
    intros r e. rewrite He. unfold quarantined. rewrite Hg. by apply De.
  - split; cbn; [done| |by rewrite Hn]. rewrite He, Hn. exact L2.
  - intros seq Hu Hans. unfold answered, live. cbn. rewrite He, Hg. by apply Ha.
Qed.

(** ** Reading the receipts *)

Record reading (P : AckReceipt -> Prop) (c : SpoolConfig) (key : bytes) (d0 : gmap SpoolPath Node)
    (todo : list SpoolPath) (w : Inner) : Prop := {
  rd_restored : restored P c key d0 w;
  rd_gapless : gapless (in_state w);
  rd_nodup : NoDup todo;
  rd_todo : forall p, p ∈ todo -> sp_dir p = DReceipts;
  rd_apart : forall b re, receipts (in_state w) !! b = Some re -> re_path re ∉ todo;
}.

Lemma reading_tick P c key d0 todo n w : reading P c key d0 todo w -> reading P c key d0 todo (at_tick n w).
Proof. intros [? ? ? ? ?]. split; try done. by apply restored_tick. Qed.

Lemma reading_untracked P c key d0 path todo w :
  reading P c key d0 (path :: todo) w -> ~ tracked (in_state w) path.
Proof.
  intros [Hr _ _ Ht Ha] Htr. destruct (rs_wf _ _ _ _ _ Hr) as [_ Hs]. specialize (Ht path (list_elem_of_here _ _)).
  inversion Htr as [r e He _ E|n g Hg E|b re Hre E]; subst path.
  - by rewrite (we_path _ _ _ (ws_entries _ _ Hs _ _ He)) in Ht.
  - by rewrite (wg_path _ _ _ (ws_gaps _ _ Hs _ _ Hg)) in Ht.
  - apply (Ha _ _ Hre). by left.
Qed.

Definition read_on P c key d0 todo (r : Result SpoolError unit) (w : Inner) : Prop :=
  restored P c key d0 w /\ match r with Ok _ => reading P c key d0 todo w | Err _ => True end.

Lemma skip_receipt_ok P c key d0 path todo w :
  reading P c key d0 (path :: todo) w ->
  wp (quarantine_file_bounded path ;; update count_corrupt) (read_on P c key d0 todo) w.
Proof.
  intros Hrd. pose proof (reading_untracked _ _ _ _ _ _ _ Hrd) as Hun.
  destruct Hrd as [Hr Hgl [Hni Hnd]%NoDup_cons Ht Ha]. pose proof (rs_wf _ _ _ _ _ Hr) as Hwf.
  assert (Hseq : path <> sequence_path) by (intros ->; by specialize (Ht _ (list_elem_of_here _ _))).
  sp_step. apply (wp_frames (only path)); [by apply touches_quarantine_file_bounded|]. intros r w1 Hst Htame Hd.
  assert (Hr1 : restored P c key d0 w1).
  { eapply restored_does; [|exact Hr]. by apply (does_quiet _ path). }
  destruct Hst as (_ & _ & Hs1). destruct r as [[]|e]; [|done]. sp_step.
  assert (Hr2 : restored P c key d0 (set_state (count_corrupt (in_state w1)) w1)).
  { eapply restored_does; [|exact Hr1]. eapply (does_step _ CountCorrupt); [|done].
    apply (step_pure CountCorrupt); try done. apply Hr1. }
  split; [done|]. split; [exact Hr2|..]; cbn; rewrite ?Hs1; try done.
  - intros p Hp. apply Ht. by right.
  - intros b re Hre Hin. apply (Ha b re Hre). by right.
Qed.

(** What [valid_receipt] establishes. *)
Lemma valid_receipt_facts r name s :
  valid_receipt r name s = true ->
  named r /\ ar_sequence r <> U64_MAX /\ name = receipt_file_name (ar_sequence r) (ar_batch_id r) /\
  receipts s !! ar_batch_id r = None.
Proof.
  unfold valid_receipt. rewrite !andb_true_iff, !negb_true_iff. intros H.
  destruct H as [[[[[[[[[[[[_ Hadm] _] _] _] _] Hseq] _] _] _] _] Hname] Hb].
  apply bool_decide_eq_true in Hname. apply bool_decide_eq_false, eq_None_not_Some in Hb. split_and!; try done; [|lia].
  unfold valid_admission_shape in Hadm. apply andb_true_iff in Hadm as [_ Hadm]. intros a Ha.
  assert (Hin : forall (f : ReceiptAdmission -> RecordId) l, bool_decide (hash_set (map f (ar_accepted_admissions r)) = hash_set l) = true ->
    f a ∈ l).
  { intros f l Hl%bool_decide_eq_true. apply (elem_of_list_to_set (C:=gset RecordId)). fold (hash_set l). rewrite <-Hl.
    apply elem_of_list_to_set, list_elem_of_fmap. by exists a. }
  destruct (ar_version r =? 1); [|destruct (ar_version r =? 2); [|done]];
    apply andb_true_iff in Hadm as [_ Hadm]; [right|left]; by apply Hin in Hadm.
Qed.

(** An entry without a gap is a record on disk. *)
Lemma entry_record P c key d0 w r e :
  restored P c key d0 w -> gapless (in_state w) -> entries (in_state w) !! r = Some e ->
  exists st, record_at (in_key w) (in_disk w) (en_path e) st /\ sr_spool_seq st = Some (en_spool_seq e).
Proof.
  intros [_ _ [_ Hs] Hdu _ _] Hgl He.
  destruct (du_entries _ Hdu _ _ He) as (st & Hh & Hv & _ & _ & Hq & _).
  - intros (n & g & Hg & E & _). by apply (Hgl _ _ _ _ He Hg).
  - exists st. split; [|done]. split_and!; [|done..]. by rewrite (we_path _ _ _ (ws_entries _ _ Hs _ _ He)).
Qed.

Lemma recover_receipt_ok P c key d0 path todo w :
  reading P c key d0 (path :: todo) w ->
  wp (recover_receipt path) (read_on P c key d0 todo) w.
Proof.
  intros Hrd. pose proof (rd_restored _ _ _ _ _ _ Hrd) as Hr.
  assert (Herr : forall n e, read_on P c key d0 todo (Err e) (at_tick n w)) by (intros; split; [by apply restored_tick|done]).
  assert (Hskip : forall n, wp (quarantine_file_bounded path ;; update count_corrupt) (read_on P c key d0 todo) (at_tick n w))
    by (intros n; by apply skip_receipt_ok, reading_tick).
  unfold recover_receipt. wp_step. apply wp_dir_entry; [|done]. intros n1. wp_step. apply wp_metadata; [|intros; apply Herr].
  intros n2 node Hnode. destruct (_ || _); [by apply Hskip|]. wp_step. apply wp_metadata; [|intros; apply Herr].
  intros n3 node' Hnode'. destruct (MAX_ENCRYPTED_RECEIPT_BYTES <? node_len node') eqn:Hlen; [by apply Hskip|].
  wp_step. apply wp_read; [|intros; apply Herr]. intros n4 b Hb. change (in_disk w !! path = Some (File b)) in Hb.
  change (in_disk w !! path = Some node') in Hnode'. rewrite Hb in Hnode'. injection Hnode' as <-.
  wp_step. unfold wp at 1. cbn [fst snd]. change (in_key (at_tick n4 _)) with (in_key w).
  destruct (decrypt (in_key w) b) as [plain|[]] eqn:Hd; [|apply Herr|by apply Hskip].
  destruct (from_slice plain) as [r|] eqn:Hparse; [|by apply Hskip]. do 2 sp_step.
  change (in_state (at_tick n4 _)) with (in_state w).
  destruct (valid_receipt r (sp_name path) (in_state w)) eqn:Hv; cbn [negb]; [|by apply Hskip].
  apply valid_receipt_facts in Hv as (Hnm & Hmax & Hname & Hnew). do 3 sp_step.
  pose proof (receipt_width _ _ Hparse) as Hu. unfold in_u64 in Hu.
  pose proof (reading_tick _ _ _ _ _ n4 _ Hrd) as [Hr4 Hgl [Hni Hnd]%NoDup_cons Ht Ha]. pose proof Hr4 as [_ Hk [_ Hs] Hdu Hl _].
  set (w4 := at_tick n4 w) in *. change (at_tick n4 _) with w4. set (re := {| re_receipt := r; re_path := path |}).
  set (nr := Z.max (next_receipt_sequence (in_state w4)) (u64_saturating_add (ar_sequence r) 1)).
  assert (Hnr : next_receipt_sequence (in_state w4) <= nr <= U64_MAX /\ ar_sequence r < nr).
  { pose proof (ws_next_receipt _ _ Hs). unfold nr, u64_saturating_add. lia. }
  assert (Hat : receipt_at (in_key w4) (in_disk w4) path r) by (split; [apply Ht; by left|by exists b, plain]).
  assert (Hfin : restored P c key d0 (set_state (set_receipts (<[ar_batch_id r := re]> (receipts (in_state w4)))
    (set_next_receipt_sequence nr (in_state w4))) w4)).
  { apply restored_state; try done.
    - apply (wf_insert_receipt c (set_next_receipt_sequence nr (in_state w4)) re); try done; [|cbn; lia| |].
      + apply wf_raise_next_receipt; [|apply Hnr]. by rewrite (rs_config _ _ _ _ _ Hr4) in Hs.
      + cbn. destruct path as [dd nn]. cbn in Hname. rewrite Hname. f_equal. by apply (Ht (SPath dd nn)); left.
      + intros n Hn. destruct Hl as [[_ _ Hnot] _ (next & Hnext & Hle)].
        destruct (Hnot _ _ _ _ Hnext Hat Hn) as (seq & reason & ev & -> & Hseq & Hgone). exists seq, reason, ev.
        split; [done|]. split; [change (0 < seq < next_spool_sequence (in_state w4)); lia|]. intros HR k e He Eq.
        destruct (entry_record _ _ _ _ _ _ _ Hr4 Hgl He) as (st & Hst & Hsq). apply (Hgone HR _ _ Hst). by rewrite Hsq, Eq.
    - cbn. intros b' re' [[_ <-]|[_ Hre]]%lookup_insert_Some; [|rewrite <-Hk; by eapply (du_receipts _ Hdu)].
      exists b, plain. rewrite <-Hk. cbn in Hlen. split_and!; try done. cbn. lia. }
  split; [exact Hfin|]. split; [exact Hfin|exact Hgl|done|intros p Hp; apply Ht; by right|].
  cbn. intros b' re' [[_ <-]|[_ Hre]]%lookup_insert_Some; [done|]. intros Hin. apply (Ha _ _ Hre). by right.
Qed.

(** ** What the receipts still owe *)

Lemma complete_open (P : AckReceipt -> Prop) r ev : P r -> complete_events r ev -> open_events P ev.
Proof. intros HP Hev. split; [by destruct ev|]. intros r' Ha. destruct ev; cbn in *; try done; by subst. Qed.

Lemma replay_gap_ok r removed n w :
  wf w -> committed (in_state w) r -> n ∈ ar_accepted_gap_notice_ids r ->
  does (complete_events r) w ((fun '(removed_pending, removed_gaps) notice_id =>
      let! state := get_state in
      match gaps state !! notice_id with
      | None =>
          let! removed := remove_expired_gap_backing notice_id in
          ret ((removed_pending || removed)%bool, removed_gaps : bool)
      | Some entry =>
          lift (remove_if_present (ge_path entry)) ;;
          update (fun s => set_pending_gap_bytes
                    (u64_saturating_sub (pending_gap_bytes s) (ge_encrypted_bytes entry))
                    (set_gaps (delete notice_id (gaps s)) s)) ;;
          ret (removed_pending, true)
      end) removed n w).2.
Proof.
  intros Hwf Hr Hn. pose proof Hwf as [_ Hs]. destruct removed as [rp rg].
  match goal with |- does _ _ (?m w).2 => enough (wp m (fun _ w' => does (complete_events r) w w') w) as H by exact H end.
  do 2 sp_step. destruct (gaps (in_state w) !! n) as [g|] eqn:Hg.
  2:{ apply wp_ok_from. apply does_bind; [done|by apply remove_expired_gap_backing_ok|intros; apply ok_ret]. }
  pose proof (wg_key _ _ _ (ws_gaps _ _ Hs _ _ Hg)) as <-.
  sp_step. apply wp_remove_if_present; [by eapply gap_not_sequence| |intros; by apply does_ticks].
  intros w1 Hst Htame Hd _. do 2 sp_step. sp_step.
  eapply (does_step _ (DropGap r g)); [|done]. apply (step_update (DropGap r g) (ge_path g)); try done.
  intros _. by apply (untracked_dropped_gap _ _ Hs).
Qed.

Lemma replay_receipt_ok r removed w :
  wf w -> committed (in_state w) r -> does (complete_events r) w (replay_receipt removed r w).2.
Proof.
  intros Hwf Hr. destruct removed as [rp rg]. unfold replay_receipt.
  assert (Hd1 : does (complete_events r) w (fold_m (ar_accepted_admissions r) rp (fun removed_pending admission =>
      let! removed := remove_admitted_record admission in ret (removed_pending || removed)) w).2).
  { apply complete_loop_ok; [done..|]. intros a b w1 Ha Hwf1 Hr1.
    apply does_bind; [done|apply remove_accepted_ok; try done|intros; apply ok_ret]. intros e <-. by left. }
  unfold bind at 1. destruct (fold_m (ar_accepted_admissions r) rp _ w) as [[b|e] w1]; cbn [fst snd] in Hd1; [|done].
  eapply does_trans; [exact Hd1|]. assert (Hwf1 : wf w1) by (by eapply wf_does).
  apply complete_loop_ok; [done|exact (complete_committed _ _ _ _ Hd1 Hr)|]. intros n b' w2 Hn Hwf2 Hr2. by apply replay_gap_ok.
Qed.

Lemma recover_receipts_ok P c key d0 w :
  restored P c key d0 w -> gapless (in_state w) -> receipts (in_state w) = ∅ ->
  wp recover_receipts (fun _ w' => restored P c key d0 w') w.
Proof.
  intros Hr Hgl Hnone. unfold recover_receipts. wp_step. apply wp_read_dir; [|intros; by apply restored_tick].
  intros n names [Hnd Hnames]. wp_step.
  apply (wp_for_each names recover_receipt (reading P c key d0)).
  - apply reading_tick. split; try done; [intros p Hp; by apply Hnames|]. intros b re. by rewrite Hnone, lookup_empty.
  - intros w1 [Hr1 _ _ _ _]. do 3 sp_step.
    apply (wp_fold_m _ _ replay_receipt (fun l _ w' => restored P c key d0 w' /\
      forall r, r ∈ l -> committed (in_state w') r /\ P r)).
    + split; [done|]. intros r (re & -> & (b & Hre)%elem_of_btree_values)%list_elem_of_fmap.
      destruct (rs_wf _ _ _ _ _ Hr1) as [_ Hs]. pose proof (ws_receipts _ _ Hs _ _ Hre) as Hwr.
      split; [exists re; by rewrite (wr_key _ _ _ Hwr)|].
      apply (dk_receipts _ _ _ (ln_disk _ _ (rs_linked _ _ _ _ _ Hr1)) (re_path re)). split; [by rewrite (wr_path _ _ _ Hwr)|].
      eapply holds_opens. by apply (du_receipts _ (rs_durable _ _ _ _ _ Hr1) _ _ Hre).
    + intros [rp rg] w2 [Hr2 _]. apply restored_ok; [|done].
      apply ok_bind; [|intros _]; by apply ok_when, ok_scratch; eauto with touches.
    + intros r l b w2 [Hr2 Hl]. destruct (Hl r (list_elem_of_here _ _)) as [Hcom HP].
      pose proof (replay_receipt_ok r b w2 (rs_wf _ _ _ _ _ Hr2) Hcom) as Hd.
      assert (Hr3 : restored P c key d0 (replay_receipt b r w2).2).
      { eapply restored_does; [|exact Hr2]. eapply does_mono; [intros ev; by apply complete_open|exact Hd]. }
      unfold wp. destruct (replay_receipt b r w2) as [[b'|e] w3]; cbn [fst snd] in *; [|done]. split; [done|].
      intros r' Hin. destruct (Hl r' (list_elem_of_further _ _ _ Hin)) as [Hcom' HP']. split; [exact (complete_committed _ _ _ _ Hd Hcom')|done].
  - intros path todo w1 Hrd. eapply wp_mono; [by apply recover_receipt_ok|]. by intros [] w2 [Hr2 Hrd2].
Qed.

(** ** The whole recovery *)

Lemma settle_counted_ok P c key d0 w :
  restored P c key d0 w -> wp settle_counted (fun _ w' => restored P c key d0 w') w.
Proof.
  intros Hr. pose proof Hr as [Hc Hk [Hcfg Hs] Hdu _ _]. unfold settle_counted. do 4 sp_step; [done|]. sp_step.
  set (counted := filter _ _).
  assert (Hsub : forall k id, counted !! k = Some id -> counted_pending_expirations (in_state w) !! k = Some id)
    by (intros k id Hid; by apply map_lookup_filter_Some_1_1 in Hid).
  apply restored_state; try done.
  - rewrite <-Hc. pose proof (wf_set_counted _ _ (expired_records (in_state w)) counted Hs) as Hw.
    replace (set_expired_records (expired_records (in_state w)) (in_state w)) with (in_state w) in Hw by (by destruct (in_state w)).
    apply Hw.
    + intros k id Hid. by eapply (ws_counted _ _ Hs), Hsub.
    + intros k e id He Hid. eapply (we_counted _ _ _ (ws_entries _ _ Hs _ _ He)). by apply Hsub.
  - rewrite <-Hk. apply Hdu.
Qed.

(** What a failed opening leaves: no answer is lost. *)
Definition safe (P : AckReceipt -> Prop) (key : bytes) (d0 d : gmap SpoolPath Node) : Prop :=
  disk_ok P key d /\ forall seq, in_u64 seq -> answers d0 seq ->
    answers d seq \/ exists r, P r /\ named r /\ acknowledges r seq.

Lemma sound_safe P key d0 d : disk_ok P key d0 -> sound d0 d -> safe P key d0 d.
Proof. intros Hok [Ht Ha]. split; [by eapply disk_ok_tame|]. auto. Qed.

Lemma live_answers w seq : wf w -> durable w -> live (in_state w) seq -> answers (in_disk w) seq.
Proof.
  intros [_ Hs] [De Dg _] Hl.
  assert (Hgap : (exists n g, gaps (in_state w) !! n = Some g /\ gn_spool_seq (ge_notice g) = seq) -> answers (in_disk w) seq).
  { intros (n & g & Hg & <-). right. exists n. destruct (Dg _ _ Hg) as (b & _ & Hb & _).
    rewrite (wg_path _ _ _ (ws_gaps _ _ Hs _ _ Hg)) in Hb. by exists (File b). }
  destruct Hl as [(r & e & He & <-)|?]; [|by apply Hgap].
  destruct (decide (quarantined (in_state w) (en_spool_seq e))) as [(n & g & Hg & Hq & _)|Hnq]; [apply Hgap; by exists n, g|].
  left. exists r. destruct (De _ _ He Hnq) as (st & (b & _ & Hb & _) & _).
  rewrite (we_path _ _ _ (ws_entries _ _ Hs _ _ He)) in Hb. by exists (File b).
Qed.

Lemma restored_safe P c key d0 w : restored P c key d0 w -> safe P key d0 (in_disk w).
Proof.
  intros [_ Hk Hwf Hdu Hl Ha]. split; [rewrite <-Hk; apply Hl|]. intros seq Hu Hans.
  destruct (Ha seq Hu Hans); [left; by apply live_answers|by right].
Qed.

Definition ready P c key d0 (w : Inner) : Prop := restored P c key d0 w /\ synced w.

Lemma ready_does P c key d0 w w' : does (open_events P) w w' -> ready P c key d0 w -> ready P c key d0 w'.
Proof.
  intros Hd [Hr Hs]. split; [by eapply restored_does|]. eapply (linked_does P); [|exact Hd|apply Hr..|done].
  intros ev [Hw _]. by destruct ev.
Qed.

Lemma ready_ok P c key d0 {A} (m : SpoolM A) w :
  ok (open_events P) m -> ready P c key d0 w -> wp m (fun _ w' => ready P c key d0 w') w.
Proof. intros Hm Hr. eapply ready_does; [|exact Hr]. apply Hm, Hr. Qed.

Definition recovered P c key d0 (r : Result SpoolError unit) (w : Inner) : Prop :=
  safe P key d0 (in_disk w) /\ match r with Ok _ => ready P c key d0 w | Err _ => True end.

(** The last four stages. *)
Lemma recover_end_ok P c key d0 now_ms w :
  restored P c key d0 w ->
  wp (settle_counted ;; persist_current_sequence ;; expire_due now_ms ;; prune_receipts) (recovered P c key d0) w.
Proof.
  intros Hr. assert (Herr : forall e w', restored P c key d0 w' -> recovered P c key d0 (Err e) w')
    by (intros e w' Hr'; split; [by eapply restored_safe|done]).
  wp_step. eapply wp_mono; [by apply settle_counted_ok|]. intros [[]|e] w1 Hr1; [|auto].
  pose proof (rs_wf _ _ _ _ _ Hr1) as [_ Hs]. pose proof (ws_next _ _ Hs) as Hnext.
  wp_step. apply wp_mono with (Q := fun _ w2 => ready P c key d0 w2).
  { split; [|apply persist_synced; [unfold in_u64; lia|]].
    - apply (restored_ok P c key d0 persist_current_sequence); [|done]. by apply ok_scratch; eauto with touches.
    - intros k id Hid. apply (ws_counted _ _ Hs) in Hid. unfold in_u64. lia. }
  intros [[]|e] w2 Hr2; [|by apply Herr, Hr2]. wp_step. eapply wp_mono.
  { apply ready_ok; [|exact Hr2]. eapply ok_mono; [|apply expire_due_ok]. intros ev Hev. split; by destruct ev. }
  intros [n|e] w3 Hr3; [|by apply Herr, Hr3]. eapply wp_mono.
  { apply (ready_ok P c key d0); [|exact Hr3]. intros w' Hwf. eapply does_mono; [|apply (prune_receipts_ok w' Hwf)].
    intros ev Hev. split; by destruct ev. }
  intros r w4 Hr4. split; [eapply restored_safe, Hr4|]. by destruct r.
Qed.

Definition fresh_state (s : State) : Prop := gaps s = ∅ /\ pending_gap_bytes s = 0 /\ blank s.

Lemma recover_ok P c key d0 now_ms w :
  wf_config c -> disk_ok P key d0 -> in_config w = c -> in_key w = key -> sound d0 (in_disk w) ->
  fresh_state (in_state w) -> wp (recover now_ms) (recovered P c key d0) w.
Proof.
  intros Hc Hok Hcfg Hk Hs Hfresh.
  assert (Herr : forall e w', sound d0 (in_disk w') -> recovered P c key d0 (Err e) w')
    by (intros e w' Hs'; split; [by apply sound_safe|done]).
  unfold recover. wp_step. eapply wp_mono; [apply ensure_quarantine_capacity_reads|]. intros [[]|e] w1 [n1 ->]; [|by apply Herr].
  wp_step. apply wp_read_dir; [|intros; by apply Herr]. intros n2 names _. wp_step.
  apply (wp_for_each names _ (fun _ w' => calm w w' /\ fresh_state (in_state w'))); [done| |].
  2:{ intros p l w2 [Hcalm Hf]. wp_step. apply wp_dir_entry; [|intros; apply Herr; cbn; by rewrite (proj2 (proj2 Hcalm))].
      intros n. cbn beta iota. sp_step. by split. }
  intros w2 [(Hc2 & Hk2 & Hd2) (Hg2 & Hb2 & Hbl2)]. change (in_disk (at_tick n2 _)) with (in_disk w) in Hd2.
  assert (Hs2 : sound d0 (in_disk w2)) by (by rewrite Hd2).
  wp_step. apply wp_has_entry; [|intros; by apply Herr]. intros n b. cbn beta iota.
  wp_step. wp_step; [by apply Herr|].
  wp_step. eapply wp_mono; [apply recover_gaps_ok; try done; cbn; by rewrite Hc2; cbn; rewrite Hcfg|].
  intros r w3 [(Hc3 & Hk3 & Hd3) Hr]. assert (Hs3 : sound d0 (in_disk w3)) by (by rewrite Hd3).
  destruct r as [[]|e]; [|by apply Herr]. wp_step. eapply wp_mono.
  { apply (recover_pending_ok P c key d0); try done; [rewrite Hc3|rewrite Hk3]; cbn; congruence. }
  intros r w4 [Hs4 Hr4]. destruct r as [[]|e]; [|by apply Herr]. wp_step. eapply wp_mono; [by apply (recover_counters_ok P)|].
  intros r w5 [Hd5 Hr5]. destruct r as [[]|e]; [|apply Herr; by rewrite Hd5]. destruct Hr5 as (Hr5 & Hgl & Hno).
  wp_step. eapply wp_mono; [by apply recover_receipts_ok|].
  intros r w6 Hr6. destruct r as [[]|e]; [by apply recover_end_ok|]. split; [by eapply restored_safe|done].
Qed.

(** ** Before and after *)

Lemma calls_open_or_create S p : S p -> free p -> calls S (open_or_create p).
Proof.
  intros HS Hf. apply calls_syscall; try done; try (intros; apply tame_disk_refl).
  - intros d q Hq. destruct (d !! p) as [[]|]; cbn; try done. rewrite lookup_insert_ne; [done|]. by intros <-.
  - intros d. destruct (d !! p) as [[]|]; cbn; try apply tame_disk_refl. by apply tame_insert.
Qed.
Lemma free_marker : free (SPath DRoot FORMAT_MARKER_FILE).
Proof. split; [by intros [_ E]%SPath_inj|by intros [|]]. Qed.
Lemma free_lock : free (SPath DRoot SPOOL_LOCK_FILE).
Proof. split; [by intros [_ E]%SPath_inj|by intros [|]]. Qed.
#[local] Hint Resolve calls_open_or_create free_marker free_lock : touches.
#[local] Hint Extern 1 (calls _ create_dir_all) => apply calls_query : touches.
#[local] Hint Extern 1 (calls _ set_permissions) => apply calls_query : touches.

Lemma calls_try_lock S : calls S try_lock.
Proof. split; intros o; unfold try_lock; [apply (calls_query S)|apply (calls_query (fun _ => True))]. Qed.
Lemma touches_acquire_spool_lock : os_touches scratch acquire_spool_lock.
Proof. unfold acquire_spool_lock. pose proof (calls_try_lock scratch). touches_tac. Qed.
Lemma touches_read_format_marker : os_touches scratch read_spool_format_marker.
Proof. unfold read_spool_format_marker. touches_tac. Qed.
Lemma os_touches_temporary S {A} (k : SpoolPath -> OsM A) :
  (forall n, os_touches S (k (SPath DTmp n))) -> os_touches S (bind temporary_path k).
Proof. intros Hk o. exact (Hk _ {| os_disk := os_disk o; os_tick := _ |}). Qed.
Lemma touches_write_format_marker f : os_touches scratch (write_current_spool_format_marker f).
Proof.
  unfold write_current_spool_format_marker, write_atomic_replace, write_atomic_file.
  apply os_touches_temporary. intros n. touches_tac.
Qed.

Lemma os_touches_sound {A} (m : OsM A) o : os_touches scratch m -> sound (os_disk o) (os_disk (m o).2).
Proof.
  intros Hm. destruct (Hm o) as [Hd Ht]. apply sound_gaps; [done|..]; intros p Hp; [|intros Hs]; rewrite Hd; try done;
    by intros [|[|]]; congruence.
Qed.
Lemma wp_os {A} (m : OsM A) d0 (Q : Result SpoolError A -> Os SpoolPath -> Prop) o :
  os_touches scratch m -> sound d0 (os_disk o) ->
  (forall r o', sound d0 (os_disk o') -> Q r o') -> wp m Q o.
Proof. intros Hm Hs HQ. apply HQ. eapply sound_trans; [exact Hs|]. by apply os_touches_sound. Qed.
Lemma wp_with_inner {A} (m : SpoolM A) (Q : Result SpoolError Inner -> Os SpoolPath -> Prop) w o :
  wp m (fun r w' => match r with Ok _ => Q (Ok w') (in_os w') | Err e => Q (Err e) (in_os w') end) (set_os o w) ->
  wp (with_inner m w) Q o.
Proof. unfold wp, with_inner. by destruct (m (set_os o w)) as [[a|e] w']. Qed.

Lemma open_ok P c key now_ms o :
  wf_config c -> disk_ok P key (os_disk o) ->
  wp (open c key now_ms) (fun r o' => safe P key (os_disk o) (os_disk o') /\
    forall w, r = Ok w -> in_os w = o' /\ ready P c key (os_disk o) w) o.
Proof.
  intros Hc Hok. set (d0 := os_disk o) in *.
  assert (Herr : forall (e : SpoolError) o', sound d0 (os_disk o') -> safe P key d0 (os_disk o') /\
    forall w, Err e = Ok w -> in_os w = o' /\ ready P c key d0 w) by (intros; split; [by apply sound_safe|done]).
  assert (Hs : sound d0 (os_disk o)) by apply sound_refl. unfold open.
  wp_step. unfold wp at 1, of_result. cbn [fst snd]. destruct (validate_config c) as [[]|e]; [|by apply Herr].
  wp_step. apply (wp_os _ d0); [apply touches_acquire_spool_lock|done|]. intros [[]|e] o1 Hs1; [|by apply Herr].
  wp_step. apply (wp_os _ d0); [touches_tac|done|]. intros [[]|e] o2 Hs2; [|by apply Herr].
  wp_step. apply (wp_os _ d0); [apply touches_read_format_marker|done|]. intros [f|e] o3 Hs3; [|by apply Herr].
  wp_step. apply (wp_os _ d0); [unfold reject_ambiguous_previous_receipts, has_entry, dir_entry, when; touches_tac|done|].
  intros [[]|e] o4 Hs4; [|by apply Herr]. do 2 wp_step. cbv zeta. wp_step. apply wp_with_inner.
  set (w0 := set_os _ _). assert (Hf0 : fresh_state (in_state w0)) by done.
  wp_step. apply wp_mono with (Q := fun _ w1 => calm w0 w1 /\ fresh_state (in_state w1)).
  { destruct (bool_decide _); cbn [when]; by sp_step. }
  intros [[]|e] w1 [(Hc1 & Hk1 & Hd1) Hf1]; [|apply Herr; fold (in_disk w1); by rewrite Hd1].
  wp_step. apply wp_mono with (Q := fun _ w2 => ticks w1 w2).
  { destruct (_ || _); cbn [when]; [|apply ticks_refl]. wp_step. eapply wp_mono; [apply recover_sequence_ok|].
    intros [sq|e] w2 [Ht _]; [|done]. wp_step. wp_step; [by wp_step|done]. }
  intros [[]|e] w2 [n2 ->]; [|apply Herr; change (sound d0 (in_disk w1)); by rewrite Hd1].
  eapply wp_mono; [apply (recover_ok P c key d0); try done; change (sound d0 (in_disk w1)); by rewrite Hd1|].
  intros [[]|e] w3 [Hsafe Hr3]; [|done].
  assert (Hfin : forall w4, ready P c key d0 w4 -> safe P key d0 (os_disk (in_os w4)) /\
    forall w, Ok (E:=SpoolError) w4 = Ok w -> in_os w = in_os w4 /\ ready P c key d0 w).
  { intros w4 Hr4. split; [eapply restored_safe, Hr4|]. by intros w [= <-]. }
  wp_step. apply wp_mono with (Q := fun _ o' => ready P c key d0 (set_os o' w3)).
  - set (m := when _ _). assert (Hm : os_touches scratch m)
      by (unfold m; destruct (negb _); cbn [when]; [apply touches_write_format_marker|apply os_touches_ret]).
    pose proof (ready_ok P c key d0 (lift m) w3 ltac:(apply ok_scratch; [done|by apply touches_lift]) Hr3) as Hl.
    unfold wp, lift in *. by destruct (m (in_os w3)).
  - intros [[]|e] o' Hr4; [|split; [exact (restored_safe _ _ _ _ _ (proj1 Hr4))|done]].
    do 2 wp_step. wp_step. by apply (Hfin (set_os o' w3)).
Qed.

(** C2: opening the spool on any files a running spool can have left behind,
    under any storage faults, loses no sequence number: whether opening
    succeeds or fails, every sequence number that a pending file or a gap file
    answered for before is still answered for by a file, or a receipt accepts
    it.  When it succeeds, the spool it hands out is well formed, everything it
    tracks can be read back, every such number is live in it, and its files are
    in order for the next opening. *)
Theorem open_recovers P c key now_ms o :
  wf_config c -> disk_ok P key (os_disk o) ->
  let (r, o') := open c key now_ms o in
  disk_ok P key (os_disk o') /\
  (forall seq, in_u64 seq -> answers (os_disk o) seq ->
     answers (os_disk o') seq \/ exists r, P r /\ named r /\ acknowledges r seq) /\
  forall w, r = Ok w ->
    in_os w = o' /\ in_config w = c /\ in_key w = key /\ wf w /\ durable w /\ linked P w /\ synced w /\
    forall seq, in_u64 seq -> answers (os_disk o) seq ->
      live (in_state w) seq \/ exists r, P r /\ named r /\ acknowledges r seq.
Proof.
  intros Hc Hok. pose proof (open_ok P c key now_ms o Hc Hok) as H. unfold wp in H.
  destruct (open c key now_ms o) as [r o']. cbn [fst snd] in H. destruct H as [[Hd Ha] Hr]. split_and!; try done.
  intros w Hw. destruct (Hr w Hw) as (Ho & [[H1 H2 H3 H4 H5 H6] H7]). by split_and!.
Qed.


End Open.
