(* ===== verification/Lifecycle.v ===== *)
(** * The life of a spool directory

    Processes come and go: a spool is opened, runs commands, stops, and is
    opened again.  A crash in the middle of a command is a command whose
    remaining system calls all fail, followed by a stop: what it leaves is the
    disk, and the memory is forgotten.  The theorem of this file follows one
    sequence number through all of it. *)

From S2P Require Import Prelude Protocol Crypto Fs SpoolTypes SpoolFacts SpoolBase SpoolOps SpoolRecover.
From S2P Require Import SpoolFrame SpoolInv SpoolSpec SpoolRefine SpoolReceipts SpoolSystem SpoolDisk SpoolScan.
From S2P Require Import SpoolReopen SpoolRestore SpoolOpen.

Inductive Action :=
| Do (cmd : Cmd)
| Stop
| Reopen (config : SpoolConfig) (now_ms : Z).

(** The process that holds the lock, or only the files. *)
Inductive World :=
| Running (w : Inner)
| Stopped (o : Os SpoolPath).

Section Lifecycle.
Context {X : SpoolEnv}.

Definition action_ok (a : Action) : Prop :=
  match a with Do cmd => cmd_ok cmd | Stop => True | Reopen config _ => wf_config config end.

(** One action; the others do not apply and change nothing. *)
Definition act (key : bytes) (a : Action) (x : World) : World :=
  match a, x with
  | Do cmd, Running w => Running (exec cmd w)
  | Stop, Running w => Stopped (in_os w)
  | Reopen config now_ms, Stopped o =>
      match open config key now_ms o with
      | (Ok w, _) => Running w
      | (Err _, o') => Stopped o'
      end
  | _, _ => x
  end.

Definition live_through (key : bytes) (l : list Action) (x : World) : World := foldl (fun x a => act key a x) x l.

(** The world answers for [seq]: as a record or a gap in memory, or by a file. *)
Definition accounted (x : World) (seq : Z) : Prop :=
  match x with
  | Running w => live (in_state w) seq
  | Stopped o => answers (os_disk o) seq
  end.

(** Files in order, and memory in agreement with them; every receipt satisfies [P]. *)
Definition sane (P : AckReceipt -> Prop) (key : bytes) (x : World) : Prop :=
  match x with
  | Running w => in_key w = key /\ wf w /\ durable w /\ linked P w /\ synced w
  | Stopped o => disk_ok P key (os_disk o)
  end.

(** A receipt that accepts [seq] and satisfies [P]. *)
Definition accepted (P : AckReceipt -> Prop) (seq : Z) : Prop :=
  exists r, P r /\ named r /\ acknowledges r seq.

(** One of the commands in [l] was executed, from [w], and left the receipt [r]. *)
Definition left_by (key : bytes) (l : list Action) (x : World) (cmd : Cmd) (w : Inner) (r : AckReceipt) : Prop :=
  exists before after, l = before ++ Do cmd :: after /\
    live_through key before x = Running w /\ leaves cmd w r.
Definition or_left (P : AckReceipt -> Prop) (key : bytes) (l : list Action) (x : World) (r : AckReceipt) : Prop :=
  P r \/ exists cmd w, left_by key l x cmd w r.

Context {SL : SpoolLaws} {ZL : SealLaws} {WL : WidthLaws}.

Lemma sane_empty P key n : sane P key (Stopped {| os_disk := ∅; os_tick := n |}).
Proof. apply disk_ok_empty. Qed.

Lemma committed_on_disk w r :
  wf w -> durable w -> committed (in_state w) r -> exists p, receipt_at (in_key w) (in_disk w) p r.
Proof.
  intros [_ Hs] [_ _ Dr] (re & Hre & <-). exists (re_path re). split; [|by eapply holds_opens, Dr].
  by rewrite (wr_path _ _ _ (ws_receipts _ _ Hs _ _ Hre)).
Qed.

Lemma act_sane (P : AckReceipt -> Prop) key a x :
  action_ok a -> (forall cmd w r, a = Do cmd -> x = Running w -> leaves cmd w r -> P r) ->
  sane P key x -> sane P key (act key a x).
Proof.
  intros Ha HP Hx. destruct a as [cmd| |config now], x as [w|o]; try done; cbn [act].
  - destruct Hx as (Hk & Hwf & Hdu & Hl & Hsy). pose proof (exec_ok cmd w Hwf Ha) as Hd.
    destruct (exec_linked P cmd w Hwf Ha Hl Hsy) as [Hl' Hsy']; [intros r; by apply HP|].
    destruct (does_config _ _ _ Hd) as [_ Hk']. split_and!; try done; [congruence|by eapply wf_does|by eapply durable_does].
  - destruct Hx as (<- & _ & _ & Hl & _). apply Hl.
  - pose proof (open_ok P config key now o Ha Hx) as H. unfold wp in H.
    destruct (open config key now o) as [[w|e] o']; cbn [fst snd] in H; destruct H as [[Hd _] Hr]; [|done].
    destruct (Hr w eq_refl) as (_ & [[? ? ? ? ? ?] ?]). by split_and!.
Qed.

(** A running spool deletes under receipts its files hold before, or after. *)
Lemma exec_accounted (P : AckReceipt -> Prop) cmd w seq :
  cmd_ok cmd -> (forall r, leaves cmd w r -> P r) -> wf w -> durable w -> linked P w ->
  live (in_state w) seq -> live (in_state (exec cmd w)) seq \/ accepted P seq.
Proof.
  intros Hok HP Hwf Hdu Hl Hs. pose proof (exec_ok cmd w Hwf Hok) as Hd. destruct (does_config _ _ _ Hd) as [_ Hk].
  destruct (exec_keeps cmd w seq Hwf Hok Hs) as [?|(r & [_ Hor] & Hn & Ha)]; [by left|right].
  exists r. split_and!; [|done|by eapply accepts_acknowledges]. destruct Hor as [Hc|(Hi & Hp & Hc)].
  - destruct (committed_on_disk w r Hwf Hdu Hc) as [p Hr]. by eapply (dk_receipts _ _ _ (ln_disk _ _ Hl)).
  - apply HP. split_and!; [done..|]. rewrite <-Hk.
    apply committed_on_disk; [by eapply wf_does|by eapply durable_does|done].
Qed.

Lemma act_accounted (P : AckReceipt -> Prop) key a x seq :
  action_ok a -> (forall cmd w r, a = Do cmd -> x = Running w -> leaves cmd w r -> P r) ->
  sane P key x -> in_u64 seq -> accounted x seq -> accounted (act key a x) seq \/ accepted P seq.
Proof.
  intros Ha HP Hx Hu Hs. destruct a as [cmd| |config now], x as [w|o]; try (by left); cbn [act].
  - destruct Hx as (Hk & Hwf & Hdu & Hl & _). apply exec_accounted; try done. intros r. by apply HP.
  - left. destruct Hx as (_ & Hwf & Hdu & _). by apply live_answers.
  - pose proof (open_ok P config key now o Ha Hx) as H. unfold wp in H.
    destruct (open config key now o) as [[w|e] o']; cbn [fst snd] in H; destruct H as [[_ Hans] Hr].
    + destruct (Hr w eq_refl) as (_ & [[_ _ _ _ _ Hl] _]). by apply Hl.
    + by apply Hans.
Qed.

Lemma sane_mono (P P' : AckReceipt -> Prop) key x : (forall r, P r -> P' r) -> sane P key x -> sane P' key x.
Proof.
  intros HP. destruct x as [w|o]; cbn; [|by apply disk_ok_mono].
  intros (? & ? & ? & Hl & ?). split_and!; try done. eapply linked_mono; [|exact Hl]. auto.
Qed.

(** What a command left accepts pending records the acknowledgement names. *)
Lemma leaves_names cmd w r seq : leaves cmd w r -> acknowledges r seq -> names cmd (in_state w) seq.
Proof.
  intros (Hi & Hp & _) Ha. eapply accepts_names; [exact Hi|]. destruct Ha as [(a & Ha & <-)|?]; [left|by right].
  destruct (Hp a Ha) as (e & He & <-). by exists (ra_legacy_record_id (admission_of e)), e.
Qed.

(** C1: an admitted sequence number survives any life of the spool: commands,
    stops, crashes at any system call, and any number of openings, successful
    or failed, under any storage faults.  It stays pending as a record or as a
    gap notice (in memory while a process runs, in the files in between) unless
    a receipt accepts it that was there before ([P]), or one of the commands was
    an acknowledgement that names it -- the record then pending under it by its
    identifier, or its gap notice -- and that left in the receipt files the
    receipt it draws up, which accepts the sequence number.  The files stay in
    order throughout, and hold no receipts but those. *)
Theorem survives_restarts (P : AckReceipt -> Prop) key l x seq :
  Forall action_ok l -> sane P key x -> in_u64 seq -> accounted x seq ->
  sane (or_left P key l x) key (live_through key l x) /\
  (accounted (live_through key l x) seq \/
   (exists r, P r /\ named r /\ acknowledges r seq) \/
   exists cmd w r, left_by key l x cmd w r /\ names cmd (in_state w) seq /\ acknowledges r seq).
Proof.
  intros Hl Hx Hu Hs.
  enough (sane (or_left P key l x) key (live_through key l x) /\
    (accounted (live_through key l x) seq \/ accepted (or_left P key l x) seq)) as [? [?|(r & [?|(cmd & w & Hlb)] & Hn & Ha)]].
  { by split; [|left]. } { split; [done|right; left]. by exists r. }
  { split; [done|right; right]. exists cmd, w, r. split_and!; try done.
    destruct Hlb as (before & after & _ & _ & Hleave). by eapply leaves_names. }
  induction l as [|a l IH] using rev_ind; [split; [eapply sane_mono; [|done]; by left|by left]|].
  apply Forall_app in Hl as [Hl [Ha _]%Forall_cons]. destruct (IH Hl) as [Hsane Hor]. clear IH.
  assert (Hmono : forall r, or_left P key l x r -> or_left P key (l ++ [a]) x r).
  { intros r [?|(cmd & w & b & c & -> & ?)]; [by left|right]. exists cmd, w, b, (c ++ [a]). by rewrite <-app_assoc. }
  assert (Hnew : forall cmd w r, a = Do cmd -> live_through key l x = Running w -> leaves cmd w r ->
    or_left P key (l ++ [a]) x r) by (intros cmd w r -> ? ?; right; by exists cmd, w, l, []).
  apply (sane_mono _ _ _ _ Hmono) in Hsane.
  assert (Elt : live_through key (l ++ [a]) x = act key a (live_through key l x)) by (unfold live_through; by rewrite foldl_app).
  rewrite Elt. split; [by apply act_sane|].
  destruct Hor as [Hacc|(r & ? & ?)]; [by apply act_accounted|right; exists r; auto].
Qed.

End Lifecycle.
