(* ===== verification/SpoolAdmit.v ===== *)
(** * Admission theorems

    What a caller of [enqueue] may rely on: each outcome, the retry of the
    same event, the content kept until it is dropped, and the refusal of a
    spool whose capacity is exhausted. *)

From S2P Require Import Prelude Protocol Crypto Fs SpoolTypes SpoolFacts SpoolBase SpoolOps.
From S2P Require Import SpoolFrame SpoolInv SpoolSpec SpoolRefine SpoolRefineOps SpoolDelivery SpoolReceipts SpoolSystem.

Section Admit.
Context {X : SpoolEnv}.

(** ** Pure refusals *)

Lemma enqueue_invalid envelope now w :
  is_err (validate envelope) = true -> enqueue envelope now w = (Err CorruptRecord, w).
Proof. intros Hv. unfold enqueue, bind at 1, throw_if at 1. by rewrite Hv. Qed.

Lemma enqueue_latched envelope now w :
  validate envelope = Ok tt -> in_storage_write_failed w = true ->
  enqueue envelope now w = (Err SpoolIo, w).
Proof.
  intros Hv Hl. unfold enqueue, bind at 1, throw_if at 1. rewrite Hv. cbn [is_err].
  unfold bind at 1, storage_write_failed. unfold bind at 1, throw_if at 1. by rewrite Hl.
Qed.

Lemma enqueue_refused_latched envelope now w :
  in_storage_write_failed w = true -> is_err (enqueue envelope now w).1 = true /\ (enqueue envelope now w).2 = w.
Proof.
  intros Hl. destruct (validate envelope) as [[]|e] eqn:Hv; [by rewrite (enqueue_latched _ _ _ Hv Hl)|].
  by rewrite enqueue_invalid by by rewrite Hv.
Qed.

Lemma enqueue_pending envelope now w id :
  validate envelope = Ok tt -> in_storage_write_failed w = false ->
  stable_index (in_state w) !! stable_record_id envelope = Some id ->
  enqueue envelope now w = (Ok (AlreadyPresent id), w).
Proof.
  intros Hv Hl Hi. unfold enqueue, enqueue_locked, bind at 1, throw_if at 1. rewrite Hv. cbn [is_err].
  unfold bind at 1, storage_write_failed. unfold bind at 1, throw_if at 1. rewrite Hl.
  unfold bind at 1, get_state. by rewrite Hi.
Qed.

(** C36: a repeated delivery of an event that is still pending, stamped with
    another arrival time, is answered [AlreadyPresent] with the identifier it
    was stored under, and changes nothing. *)
Theorem enqueue_retry envelope envelope' now' w e :
  wf w -> entries (in_state w) !! en_record_id e = Some e ->
  en_stable_record_id e = stable_record_id envelope ->
  same_event envelope envelope' -> validate envelope' = Ok tt -> in_storage_write_failed w = false ->
  enqueue envelope' now' w = (Ok (AlreadyPresent (en_record_id e)), w).
Proof.
  intros [_ Hs] He Hsid Hsame Hv Hl. apply enqueue_pending; [done..|].
  rewrite <-(stable_record_id_same_event _ _ Hsame), <-Hsid.
  by destruct (ws_entries _ _ Hs _ _ He).
Qed.

Context {SL : SpoolLaws}.

(** C18: [enqueue] on a well-formed spool, under any storage faults.  [Stored]:
    the event passed validation, was not pending, encoded within the limits
    and found room; it now has the next sequence number, is visible in the
    state, and its file holds the envelope under the spool's key.
    [AlreadyPresent]: nothing changed and the event was pending under that
    identifier.  An error: one of the causes of [refused], with the error that
    belongs to it and the state unchanged, or -- the record was stored and then
    the sequence file could not be -- the event was admitted as for [Stored],
    with a storage error, and an I/O failure latched the spool.  A latched
    spool answers [Ok] to nothing and changes nothing. *)
Theorem enqueue_correct envelope now w :
  wf w -> in_i64 now ->
  enqueue_outcome w envelope now (enqueue envelope now w).1 (enqueue envelope now w).2 /\
  (in_storage_write_failed w = true -> is_err (enqueue envelope now w).1 = true /\ (enqueue envelope now w).2 = w).
Proof.
  intros Hwf Hnow. split; [apply (enqueue_ok envelope now w Hwf Hnow)|apply enqueue_refused_latched].
Qed.

(** The stored content of [e] is [st] as long as [e] is pending. *)
Definition content (e : Entry) (st : StoredRecord) (w : Inner) : Prop :=
  en_spool_seq e < next_spool_sequence (in_state w) /\
  (entries (in_state w) !! en_record_id e = Some e -> ~ quarantined (in_state w) (en_spool_seq e) ->
   holds (in_key w) (in_disk w) (en_path e) MAX_ENCRYPTED_RECORD_BYTES st).

Lemma content_does L e st w w' : does L w w' -> wf w -> content e st w -> content e st w'.
Proof.
  intros Hd Hwf Hc. apply (does_ind L (fun w => wf w /\ content e st w) w w'); [|done..].
  clear w w' Hd Hwf Hc. intros ev w w' _ Hst [Hwf [Hlt Hc]]. split; [by eapply wf_step|].
  pose proof (next_mono _ _ _ Hst) as Hnext. split; [lia|]. intros He Hnq.
  destruct (entries_step _ _ _ _ _ Hst He) as [He'| ->].
  2:{ destruct Hst as [(_ & _ & Heq & _) _ _ _ _ _]. lia. }
  assert (Hnq' : ~ quarantined (in_state w) (en_spool_seq e))
    by (intros ?; by eapply Hnq, quarantined_step).
  rewrite (st_key _ _ _ Hst). eapply holds_agree; [|by apply Hc].
  apply (st_kept _ _ _ Hst); by eapply tracked_entry.
Qed.

Lemma run_content cmds e st w :
  Forall cmd_ok cmds -> wf w -> content e st w -> content e st (run cmds w).
Proof. intros Hc Hwf Hco. apply (run_ind (content e st)); try done. intros L w1 w2. apply content_does. Qed.

(** An entry with an old sequence number is an old entry. *)
Definition no_new_below (w0 w : Inner) : Prop :=
  next_spool_sequence (in_state w0) <= next_spool_sequence (in_state w) /\
  forall r e, entries (in_state w) !! r = Some e -> en_spool_seq e < next_spool_sequence (in_state w0) ->
    entries (in_state w0) !! r = Some e.

Lemma no_new_below_does L w0 w w' : does L w w' -> no_new_below w0 w -> no_new_below w0 w'.
Proof.
  apply does_ind. intros ev w1 w2 _ Hst [Hle Hold]. pose proof (next_mono _ _ _ Hst).
  split; [lia|]. intros r e He Hlt. destruct (entries_step _ _ _ _ _ Hst He) as [He'| ->]; [auto|].
  destruct Hst as [(_ & _ & Heq & _) _ _ _ _ _]. lia.
Qed.

(** C16: from the moment [enqueue] answers [Stored] and through any later commands
    and storage faults, as long as the record is pending and not quarantined,
    its file decrypts to the very envelope that was admitted. *)
Theorem admitted_content_kept envelope now id w cmds :
  wf w -> in_i64 now -> Forall cmd_ok cmds ->
  (enqueue envelope now w).1 = Ok (Stored id) ->
  let w' := run cmds (enqueue envelope now w).2 in
  forall e, entries (in_state w') !! id = Some e -> en_spool_seq e = next_spool_sequence (in_state w) ->
  ~ quarantined (in_state w') (en_spool_seq e) ->
  exists st, holds (in_key w') (in_disk w') (en_path e) MAX_ENCRYPTED_RECORD_BYTES st /\
    sr_envelope st = envelope /\ sr_admitted_at_ms st = now.
Proof.
  intros Hwf Hnow Hcmds Hr w' e He Hseq Hnq.
  destruct (enqueue_ok envelope now w Hwf Hnow) as [Hd Hout]. rewrite Hr in Hout.
  destruct Hout as (-> & _ & e0 & (Hid & _ & Hseq0 & Hnow0 & _) & Hst & st & Hh & Hm & Henv).
  set (w1 := (enqueue envelope now w).2) in *.
  assert (Hwf1 : wf w1) by (by eapply wf_does).
  assert (Hco : content e0 st w1) by (split; [rewrite Hst; cbn; lia|done]).
  apply (run_content cmds) in Hco; [|done..].
  assert (Hold : no_new_below w1 w').
  { apply (run_ind (no_new_below w1)); try done. intros L w2 w3 Hd' _. by apply no_new_below_does with L. }
  assert (e = e0) as ->.
  { apply Hold in He; [|rewrite Hst; cbn; lia]. rewrite Hst in He. cbn in He.
    rewrite Hid, lookup_insert_eq in He. congruence. }
  exists st. split_and!; [|done|by destruct Hm as (_ & _ & _ & _ & -> & _)].
  apply Hco; [by rewrite Hid|done].
Qed.

(** ** Capacity *)

Lemma exhausted_bytes (m pending plain : Z) :
  0 <= plain -> m <= pending -> m < U64_MAX ->
  (m <? u64_saturating_add pending (u64_saturating_add plain 64)) = true.
Proof. unfold u64_saturating_add, U64_MAX. lia. Qed.

(** When the health snapshot reports capacity exhausted by pending records or
    bytes, [enqueue] of a new event stores nothing and changes no state. *)
Theorem exhausted_refuses envelope now t w :
  wf w ->
  ss_capacity_exhausted (snapshot t w) = true -> pending_gap_bytes (in_state w) < max_bytes (in_config w) ->
  stable_index (in_state w) !! stable_record_id envelope = None ->
  (exists e, (enqueue envelope now w).1 = Err e) /\ (enqueue envelope now w).2 = w.
Proof.
  intros Hwf Hcap Hgap Hidx. pose proof Hwf as [Hc Hs]. cbn in Hcap.
  rewrite (proj2 (Z.leb_gt _ _) Hgap), orb_false_r in Hcap.
  enough (wp (enqueue envelope now) (fun r w' => (exists e, r = Err e) /\ w' = w) w) as H by exact H.
  unfold enqueue, enqueue_locked. do 2 sp_step; [eauto|]. do 4 sp_step; [eauto|]. do 2 sp_step. rewrite Hidx.
  do 4 sp_step; [|eauto]. do 2 sp_step; [|eauto]. do 2 sp_step; [|eauto]. do 2 sp_step; [eauto|].
  do 2 sp_step; [|eauto]. do 2 sp_step; [eauto|]. exfalso.
  match goal with H : (max_records _ <=? _) || _ = false |- _ => apply orb_false_iff in H as [Hr Hb] end.
  rewrite Hr in Hcap. cbn [orb] in Hcap. apply Z.leb_le in Hcap.
  rewrite (exhausted_bytes _ _ (len _)) in Hb; [done|apply len_nonneg|done|apply (wc_bytes _ Hc)].
Qed.

End Admit.
