(* ===== verification/Admission.v ===== *)
(** * The receiver endpoint ([src/admission.rs])

    The handlers of the loopback listener.  They are written against the
    interface [SpoolPort], which is all the endpoint uses of the spool; what
    they do over the real spool follows at the end.  Requests are handled one at a time; the semaphore is the number
    of permits left when a request arrives. *)

From S2P Require Import Prelude Protocol Crypto Fs SpoolTypes SpoolFacts SpoolBase SpoolOps.
From S2P Require Import SpoolFrame SpoolInv SpoolSpec SpoolRefine SpoolRefineOps SpoolDelivery SpoolReceipts SpoolSystem SpoolAdmit.
From S2P Require Import Metrics.

Definition MAX_CONCURRENT_ADMISSIONS : nat := 32.

(** ** Requests and responses *)

Inductive Body :=
| BodyEmpty
| BodyError (error : str)
| BodyHealth (health : HealthResponse)
| BodyText (text : str)
| BodyRejection
| BodyBatchV1 (batch : HubBatchV1)
| BodyBatchV2 (batch : HubBatchV2)
| BodyAckV1 (result : HubAckResultV1)
| BodyAckV2 (result : HubAckResultV2).
Record Response := { rs_status : Z; rs_body : Body }.

Definition OK : Z := 200.
Definition NO_CONTENT : Z := 204.
Definition BAD_REQUEST : Z := 400.
Definition UNAUTHORIZED : Z := 401.
Definition CONFLICT : Z := 409.
Definition PAYLOAD_TOO_LARGE : Z := 413.
Definition SERVICE_UNAVAILABLE : Z := 503.
Definition INSUFFICIENT_STORAGE : Z := 507.

Definition error_response (status : Z) (error : String.string) : Response :=
  {| rs_status := status; rs_body := BodyError (lit error) |}.

(** [DefaultBodyLimit::max(limit)] on a router: the extractor of a handler that
    takes the body refuses a longer one before the handler runs.  The text of
    the refusal is axum's own. *)
Definition length_rejection : Response := {| rs_status := PAYLOAD_TOO_LARGE; rs_body := BodyRejection |}.
Definition body_limit {A} (limit : Z) (body : bytes) (handler : A -> Response * A) (a : A) : Response * A :=
  if limit <? len body then (length_rejection, a) else handler a.

(** [HeaderValue::to_str]: visible ASCII and tabs only. *)
Definition header_to_str (value : bytes) : option str :=
  if forallb (fun b => byte_between 32 126 b || (byteZ b =? 9)) value then Some value else None.

(** [headers.get(AUTHORIZATION)] is the first value of that name, if any. *)
Definition bearer_from_headers (authorization : option bytes) : option str :=
  match authorization with
  | None => None
  | Some value =>
      match header_to_str value with
      | None => None
      | Some text =>
          match strip_prefix (lit "Bearer ") text with
          | Some [] | None => None
          | Some token => Some token
          end
      end
  end.

(** ** The bearer *)

Inductive ReceiverBearerError := InvalidBearer.
Record ReceiverBearer := BearerOf { bearer_text : str }.
Definition bearer_new (value : str) : Result ReceiverBearerError ReceiverBearer :=
  if negb ((16 <=? len value) && (len value <=? 4096))
     || negb (forallb (byte_between 33 126) value)
  then Err InvalidBearer else Ok (BearerOf value).
(** The comparison takes constant time; its outcome is equality. *)
Definition bearer_matches (bearer : ReceiverBearer) (candidate : str) : bool :=
  (len candidate =? len (bearer_text bearer)) && bool_decide (candidate = bearer_text bearer).

(** ** What the endpoint uses of the spool *)

Class SpoolPort (S : Type) := {
  port_enqueue : ReceiverEnvelope -> Z -> M S SpoolError EnqueueOutcome;
  port_snapshot : Z -> S -> SpoolSnapshot;
}.

Section Handlers.
Context {S : Type} `{SpoolPort S} `{JsonReader} `{FromValue ReceiverEnvelope}.

Record AdmissionState := {
  ad_spool : S;
  ad_bearer : ReceiverBearer;
  ad_metrics : Metrics;
  ad_permits : nat;
}.

(** [state.metrics.counter()] *)
Definition tick (f : Metrics -> Metrics) (a : AdmissionState) : AdmissionState :=
  Build_AdmissionState (ad_spool a) (ad_bearer a) (f (ad_metrics a)) (ad_permits a).
Definition set_spool (s : S) (a : AdmissionState) : AdmissionState :=
  Build_AdmissionState s (ad_bearer a) (ad_metrics a) (ad_permits a).

Definition admit_receiver_envelope (authorization : option bytes) (body : bytes) (now_ms : Z)
    (a : AdmissionState) : Response * AdmissionState :=
  match bearer_from_headers authorization with
  | None => (error_response UNAUTHORIZED "receiver_authentication_failed", tick rejected_auth a)
  | Some candidate =>
      if negb (bearer_matches (ad_bearer a) candidate) then
        (error_response UNAUTHORIZED "receiver_authentication_failed", tick rejected_auth a)
      else if Nat.eqb (ad_permits a) 0 then
        (error_response SERVICE_UNAVAILABLE "receiver_busy", tick rejected_internal a)
      else
        match envelope_parse_at body now_ms with
        | Err InputTooLarge =>
            (error_response PAYLOAD_TOO_LARGE "receiver_body_too_large", tick rejected_invalid a)
        | Err _ => (error_response BAD_REQUEST "invalid_receiver_envelope", tick rejected_invalid a)
        | Ok envelope =>
            let (outcome, s) := port_enqueue envelope now_ms (ad_spool a) in
            let a := set_spool s a in
            match outcome with
            | Ok (Stored _) => ({| rs_status := NO_CONTENT; rs_body := BodyEmpty |}, tick admitted a)
            | Ok (AlreadyPresent _) => ({| rs_status := NO_CONTENT; rs_body := BodyEmpty |}, tick duplicate a)
            | Err CapacityExceeded =>
                (error_response INSUFFICIENT_STORAGE "spool_capacity_exceeded", tick rejected_capacity a)
            | Err StorageFull => (error_response INSUFFICIENT_STORAGE "storage_full", tick rejected_storage a)
            | Err BatchItemTooLarge =>
                (error_response PAYLOAD_TOO_LARGE "record_exceeds_delivery_limit", tick rejected_invalid a)
            | Err _ => (error_response SERVICE_UNAVAILABLE "spool_unavailable", tick rejected_internal a)
            end
        end
  end.

Definition liveness (now_ms : Z) (a : AdmissionState) : Response :=
  {| rs_status := OK; rs_body := BodyHealth (from_snapshot (port_snapshot now_ms (ad_spool a))) |}.
Definition readiness (now_ms : Z) (a : AdmissionState) : Response :=
  let snapshot := port_snapshot now_ms (ad_spool a) in
  {| rs_status := if ss_degraded snapshot then SERVICE_UNAVAILABLE else OK;
     rs_body := BodyHealth (from_snapshot snapshot) |}.
Definition metrics (now_ms : Z) (a : AdmissionState) : Response :=
  {| rs_status := OK; rs_body := BodyText (render (ad_metrics a) (port_snapshot now_ms (ad_spool a))) |}.

(** ** Theorems against the interface *)

Lemma bearer_matches_true b c : bearer_matches b c = true -> c = bearer_text b.
Proof. unfold bearer_matches. intros [_ Hc%bool_decide_eq_true_1]%andb_true_iff. done. Qed.

(** a request without the configured bearer is answered 401, counted as
    such, and changes nothing else; every request increments exactly one of
    the seven counters. *)
Theorem admission_accounting authorization body now a :
  let (response, a') := admit_receiver_envelope authorization body now a in
  (exists f, f ∈ increments /\ ad_metrics a' = f (ad_metrics a)) /\
  (bearer_from_headers authorization <> Some (bearer_text (ad_bearer a)) ->
   rs_status response = UNAUTHORIZED /\ a' = tick rejected_auth a).
Proof.
  unfold admit_receiver_envelope.
  assert (Hf : forall (f : Metrics -> Metrics) s, f ∈ increments ->
    exists g, g ∈ increments /\ ad_metrics (tick f s) = g (ad_metrics s)) by (intros f s Hin; by exists f).
  destruct (bearer_from_headers authorization) as [candidate|] eqn:Eb.
  2:{ split; [apply Hf; unfold increments; repeat constructor|done]. }
  destruct (bearer_matches (ad_bearer a) candidate) eqn:Em; cbn [negb].
  2:{ split; [apply Hf; unfold increments; repeat constructor|done]. }
  apply bearer_matches_true in Em as ->.
  destruct (Nat.eqb _ _); [split; [apply Hf; unfold increments; repeat constructor|done]|].
  destruct (envelope_parse_at body now) as [envelope|[]];
    try (split; [apply Hf; unfold increments; repeat constructor|done]).
  destruct (port_enqueue envelope now (ad_spool a)) as [[[]|[]] s];
    (split; [apply (Hf _ (set_spool s a)); unfold increments; repeat constructor|done]).
Qed.

End Handlers.

(** ** The spool implements the interface *)

Section SpoolPortInstance.
Context {X : SpoolEnv}.

#[export] Instance inner_port : SpoolPort Inner := {|
  port_enqueue := enqueue;
  port_snapshot := snapshot;
|}.

Lemma stored_identity e st : stored_matches e st -> stable_record_id (sr_envelope st) = en_stable_record_id e.
Proof.
  intros (Hv & _ & Hsid & _). unfold valid_stored_record in Hv. destruct (_ || _); [done|].
  destruct (sr_version st =? 1).
  - apply andb_true_iff in Hv as [Hn%bool_decide_eq_true_1 _]. congruence.
  - destruct (sr_version st =? 2); [|done]. apply andb_true_iff in Hv as [Hn%bool_decide_eq_true_1 _]. congruence.
Qed.

(** The event has a pending record, and its file holds that event; or the
    record was found corrupt, and the Hub will be told so by a gap notice. *)
Definition event_pending (w : Inner) (envelope : ReceiverEnvelope) : Prop :=
  exists r e, entries (in_state w) !! r = Some e /\ en_stable_record_id e = stable_record_id envelope /\
    (quarantined (in_state w) (en_spool_seq e) \/
     exists st, holds (in_key w) (in_disk w) (en_path e) MAX_ENCRYPTED_RECORD_BYTES st /\
       stored_matches e st /\ stable_record_id (sr_envelope st) = stable_record_id envelope).

Context {SL : SpoolLaws}.

Lemma index_pending w envelope id :
  wf w -> durable w -> stable_index (in_state w) !! stable_record_id envelope = Some id -> event_pending w envelope.
Proof.
  intros [_ Hs] Hd Hi. destruct (ws_index _ _ Hs _ _ Hi) as (e & He & Hsid). exists id, e. split_and!; [done..|].
  destruct (decide (quarantined (in_state w) (en_spool_seq e))) as [Hq|Hq]; [by left|right].
  destruct (du_entries _ Hd _ _ He Hq) as (st & Hh & Hm). exists st. split_and!; [done..|].
  by rewrite (stored_identity _ _ Hm).
Qed.

Context `{JsonReader} `{FromValue ReceiverEnvelope}.

(** C14: the endpoint answers 204 only to a request that carries the configured
    bearer and a body that parses and passes validation, and then either the
    event was stored by this request -- it has the next sequence number, is
    pending, and its file holds the very envelope that was sent -- or nothing
    changed and the event was pending already: its file holds a record of the
    same event, unless that record was found corrupt and a gap notice stands
    for it.  Whatever is answered, the spool stays well formed and durable. *)
Theorem admission_no_content authorization body now (a : AdmissionState (S := Inner)) :
  wf (ad_spool a) -> durable (ad_spool a) -> in_i64 now ->
  let (response, a') := admit_receiver_envelope authorization body now a in
  wf (ad_spool a') /\ durable (ad_spool a') /\
  (rs_status response = NO_CONTENT ->
   bearer_from_headers authorization = Some (bearer_text (ad_bearer a)) /\
   exists envelope, envelope_parse_at body now = Ok envelope /\
     (admitted_as (ad_spool a) (ad_spool a') envelope now \/
      (ad_spool a' = ad_spool a /\ event_pending (ad_spool a) envelope))).
Proof.
  intros Hwf Hd Hn. unfold admit_receiver_envelope.
  destruct (bearer_from_headers authorization) as [candidate|] eqn:Eb; [|done].
  destruct (bearer_matches (ad_bearer a) candidate) eqn:Em; [|done]. apply bearer_matches_true in Em as ->.
  cbn [negb]. destruct (Nat.eqb _ _); [done|].
  destruct (envelope_parse_at body now) as [envelope|[]] eqn:Ep; try done.
  destruct (enqueue_ok envelope now (ad_spool a) Hwf Hn) as [Hdo Hout].
  change (port_enqueue envelope now (ad_spool a)) with (enqueue envelope now (ad_spool a)).
  destruct (enqueue envelope now (ad_spool a)) as [outcome s]. cbn [fst snd] in *.
  assert (Hgood : wf s /\ durable s) by (split; [by eapply wf_does|by eapply durable_does]).
  destruct outcome as [[id|id]|[]]; (split; [apply Hgood|split; [apply Hgood|]]); try done;
    intros _; (split; [done|]); exists envelope; (split; [done|]).
  - left. apply Hout.
  - right. destruct Hout as (Hs & _ & Hi). split; [exact Hs|by eapply index_pending].
Qed.

End SpoolPortInstance.
