(* ===== verification/Delivery.v ===== *)
(** * The Hub endpoint and the whole service ([src/delivery.rs])

    The four handlers of the mTLS listener: each authorizes the bearer against
    the credential store before it calls the spool.  [handle] is the two
    routers, with the limits they put on request bodies; [serve] runs requests
    to both listeners, one after another, over one spool and one store; the
    clock is read where the code reads it. *)

From S2P Require Import Prelude Protocol Crypto Fs SpoolTypes SpoolFacts SpoolBase SpoolOps.
From S2P Require Import SpoolFrame SpoolInv SpoolSpec SpoolRefine SpoolRefineOps SpoolDelivery SpoolReceipts SpoolSystem.
From S2P Require Import Config Credentials Metrics Admission.

Inductive AuthorizationFailure := Rejected | Unavailable.

Section Service.
Context {X : SpoolEnv} {CE : CredentialEnv}.
Context `{JsonReader} `{FromValue ReceiverEnvelope} `{FromValue HubAckV1} `{FromValue HubAckV2}.
Variable store : Path.

Record DeliveryState := {
  dl_spool : Inner;
  dl_credentials : Os str;
}.

(** ** Authorization *)

Definition authorize (authorization : option bytes) (now_ms : Z) (d : DeliveryState)
    : Result AuthorizationFailure unit * DeliveryState :=
  match bearer_from_headers authorization with
  | None => (Err Rejected, d)
  | Some token =>
      let (verified, credentials) := verify store token now_ms (dl_credentials d) in
      (match verified with
       | Ok true => Ok tt
       | Ok false => Err Rejected
       | Err _ => Err Unavailable
       end, Build_DeliveryState (dl_spool d) credentials)
  end.

Definition authorization_error (failure : AuthorizationFailure) : Response :=
  match failure with
  | Rejected => error_response UNAUTHORIZED "hub_authentication_failed"
  | Unavailable => error_response SERVICE_UNAVAILABLE "credential_store_unavailable"
  end.

Definition acknowledgement_error (error : SpoolError) : Response :=
  match error with
  | InvalidAcknowledgement => error_response BAD_REQUEST "invalid_acknowledgement"
  | V1AcknowledgementHistoryPruned => error_response CONFLICT "protocol_upgrade_required"
  | _ => error_response SERVICE_UNAVAILABLE "spool_unavailable"
  end.

Definition respond (status : Z) (body : Body) : Response := {| rs_status := status; rs_body := body |}.

(** Calls a method of the spool behind the service. *)
Definition with_spool {A} (m : SpoolM A) (d : DeliveryState) : Result SpoolError A * DeliveryState :=
  let (r, w) := m (dl_spool d) in (r, Build_DeliveryState w (dl_credentials d)).

(** ** Handlers *)

Definition handle_next_batch (authorization : option bytes) (auth_ms now_ms : Z) (d : DeliveryState)
    : Response * DeliveryState :=
  match authorize authorization auth_ms d with
  | (Err failure, d) => (authorization_error failure, d)
  | (Ok _, d) =>
      let (r, d) := with_spool (next_batch now_ms) d in
      (match r with
       | Ok batch => respond OK (BodyBatchV1 batch)
       | Err ProtocolUpgradeRequired => error_response CONFLICT "protocol_upgrade_required"
       | Err _ => error_response SERVICE_UNAVAILABLE "spool_unavailable"
       end, d)
  end.

Definition handle_next_batch_v2 (authorization : option bytes) (auth_ms now_ms : Z) (d : DeliveryState)
    : Response * DeliveryState :=
  match authorize authorization auth_ms d with
  | (Err failure, d) => (authorization_error failure, d)
  | (Ok _, d) =>
      let (r, d) := with_spool (next_batch_v2 now_ms) d in
      (match r with
       | Ok batch => respond OK (BodyBatchV2 batch)
       | Err _ => error_response SERVICE_UNAVAILABLE "spool_unavailable"
       end, d)
  end.

Definition handle_acknowledge (authorization : option bytes) (body : bytes) (auth_ms : Z) (d : DeliveryState)
    : Response * DeliveryState :=
  match authorize authorization auth_ms d with
  | (Err failure, d) => (authorization_error failure, d)
  | (Ok _, d) =>
      match ack_v1_parse body with
      | Err _ => (error_response BAD_REQUEST "invalid_acknowledgement", d)
      | Ok ack =>
          let (r, d) := with_spool (acknowledge ack) d in
          (match r with
           | Ok result => respond OK (BodyAckV1 result)
           | Err error => acknowledgement_error error
           end, d)
      end
  end.

Definition handle_acknowledge_v2 (authorization : option bytes) (body : bytes) (auth_ms : Z) (d : DeliveryState)
    : Response * DeliveryState :=
  match authorize authorization auth_ms d with
  | (Err failure, d) => (authorization_error failure, d)
  | (Ok _, d) =>
      match ack_v2_parse body with
      | Err _ => (error_response BAD_REQUEST "invalid_acknowledgement", d)
      | Ok ack =>
          let (r, d) := with_spool (acknowledge_v2 ack) d in
          (match r with
           | Ok result => respond OK (BodyAckV2 result)
           | Err InvalidAcknowledgement => error_response BAD_REQUEST "invalid_acknowledgement"
           | Err _ => error_response SERVICE_UNAVAILABLE "spool_unavailable"
           end, d)
      end
  end.

(** ** Both listeners over one spool *)

Record Edge := {
  eg_spool : Inner;
  eg_credentials : Os str;
  eg_bearer : ReceiverBearer;
  eg_metrics : Metrics;
  eg_permits : nat;
}.

(** The routes of both routers; [auth_ms] is the clock when the bearer is
    checked, [now_ms] when the spool is called. *)
Inductive Request :=
| ReqAdmit (authorization : option bytes) (body : bytes) (now_ms : Z)
| ReqHealth (now_ms : Z)
| ReqReady (now_ms : Z)
| ReqMetrics (now_ms : Z)
| ReqNextBatch (authorization : option bytes) (auth_ms now_ms : Z)
| ReqNextBatchV2 (authorization : option bytes) (auth_ms now_ms : Z)
| ReqAck (authorization : option bytes) (body : bytes) (auth_ms : Z)
| ReqAckV2 (authorization : option bytes) (body : bytes) (auth_ms : Z).

Definition admission_view (e : Edge) : AdmissionState (S := Inner) :=
  Build_AdmissionState (eg_spool e) (eg_bearer e) (eg_metrics e) (eg_permits e).
Definition after_admission (a : AdmissionState (S := Inner)) (e : Edge) : Edge :=
  Build_Edge (ad_spool a) (eg_credentials e) (ad_bearer a) (ad_metrics a) (ad_permits a).
Definition delivery_view (e : Edge) : DeliveryState := Build_DeliveryState (eg_spool e) (eg_credentials e).
Definition after_delivery (d : DeliveryState) (e : Edge) : Edge :=
  Build_Edge (dl_spool d) (dl_credentials d) (eg_bearer e) (eg_metrics e) (eg_permits e).

Definition handle (request : Request) (e : Edge) : Response * Edge :=
  match request with
  | ReqAdmit authorization body now =>
      body_limit MAX_RECEIVER_BODY_BYTES body (fun e =>
        let (r, a) := admit_receiver_envelope authorization body now (admission_view e) in (r, after_admission a e)) e
  | ReqHealth now => (liveness now (admission_view e), e)
  | ReqReady now => (readiness now (admission_view e), e)
  | ReqMetrics now => (metrics now (admission_view e), e)
  | ReqNextBatch authorization auth now =>
      let (r, d) := handle_next_batch authorization auth now (delivery_view e) in (r, after_delivery d e)
  | ReqNextBatchV2 authorization auth now =>
      let (r, d) := handle_next_batch_v2 authorization auth now (delivery_view e) in (r, after_delivery d e)
  | ReqAck authorization body auth =>
      body_limit MAX_HUB_ACK_BODY_BYTES body (fun e =>
        let (r, d) := handle_acknowledge authorization body auth (delivery_view e) in (r, after_delivery d e)) e
  | ReqAckV2 authorization body auth =>
      body_limit MAX_HUB_ACK_BODY_BYTES body (fun e =>
        let (r, d) := handle_acknowledge_v2 authorization body auth (delivery_view e) in (r, after_delivery d e)) e
  end.

Definition serve (requests : list Request) (e : Edge) : Edge :=
  foldl (fun e request => (handle request e).2) e requests.

(** ** What a request makes the spool do *)

(** The bearer of a Hub request verifies against the store as it is now. *)
Definition authorized (authorization : option bytes) (auth_ms : Z) (e : Edge) : Prop :=
  exists token, bearer_from_headers authorization = Some token /\
    (verify store token auth_ms (eg_credentials e)).1 = Ok true.

(** The spool command behind a request, if it gets that far. *)
Inductive leads_to (e : Edge) : Request -> Cmd -> Prop :=
| leads_admit authorization body now envelope :
    bearer_from_headers authorization = Some (bearer_text (eg_bearer e)) ->
    envelope_parse_at body now = Ok envelope ->
    leads_to e (ReqAdmit authorization body now) (CEnqueue envelope now)
| leads_next authorization auth now :
    authorized authorization auth e -> leads_to e (ReqNextBatch authorization auth now) (CNextBatch now)
| leads_next_v2 authorization auth now :
    authorized authorization auth e -> leads_to e (ReqNextBatchV2 authorization auth now) (CNextBatchV2 now)
| leads_ack authorization body auth ack :
    authorized authorization auth e -> ack_v1_parse body = Ok ack ->
    leads_to e (ReqAck authorization body auth) (CAcknowledge ack)
| leads_ack_v2 authorization body auth ack :
    authorized authorization auth e -> ack_v2_parse body = Ok ack ->
    leads_to e (ReqAckV2 authorization body auth) (CAcknowledgeV2 ack).

Lemma authorize_spool authorization auth d :
  dl_spool (authorize authorization auth d).2 = dl_spool d /\
  ((authorize authorization auth d).1 = Ok tt -> exists token,
     bearer_from_headers authorization = Some token /\ (verify store token auth (dl_credentials d)).1 = Ok true).
Proof.
  unfold authorize. destruct (bearer_from_headers authorization) as [token|]; [|done].
  destruct (verify store token auth (dl_credentials d)) as [[[]|] o] eqn:E; cbn; split; try done.
  intros _. exists token. by rewrite E.
Qed.

(** A request either leaves the spool alone or runs the one command it leads to. *)
Lemma handle_spool request e :
  eg_spool (handle request e).2 = eg_spool e \/
  exists cmd, leads_to e request cmd /\ eg_spool (handle request e).2 = exec cmd (eg_spool e).
Proof.
  destruct request as [authorization body now|now|now|now|authorization auth now|authorization auth now
                      |authorization body auth|authorization body auth]; cbn [handle]; unfold body_limit;
    try (destruct (_ <? len body); [by left|]); try by left.
  - unfold admit_receiver_envelope. cbn [admission_view ad_bearer ad_permits ad_spool].
    destruct (bearer_from_headers authorization) as [candidate|] eqn:Eb; [|by left].
    destruct (bearer_matches (eg_bearer e) candidate) eqn:Em; [|by left]. apply bearer_matches_true in Em as ->.
    cbn [negb]. destruct (Nat.eqb _ _); [by left|].
    destruct (envelope_parse_at body now) as [envelope|[]] eqn:Ep; try by left.
    right. exists (CEnqueue envelope now). split; [by constructor|]. cbn [exec].
    change (port_enqueue envelope now (eg_spool e)) with (enqueue envelope now (eg_spool e)).
    by destruct (enqueue envelope now (eg_spool e)) as [[[]|[]] s].
  - unfold handle_next_batch. destruct (authorize_spool authorization auth (delivery_view e)) as [Hs Ha].
    destruct (authorize authorization auth (delivery_view e)) as [[[]|] d]; cbn in Hs, Ha |- *; [|by left].
    right. exists (CNextBatch now). split; [constructor; by apply Ha|]. cbn [exec]. unfold with_spool. rewrite Hs.
    by destruct (next_batch now (eg_spool e)).
  - unfold handle_next_batch_v2. destruct (authorize_spool authorization auth (delivery_view e)) as [Hs Ha].
    destruct (authorize authorization auth (delivery_view e)) as [[[]|] d]; cbn in Hs, Ha |- *; [|by left].
    right. exists (CNextBatchV2 now). split; [constructor; by apply Ha|]. cbn [exec]. unfold with_spool. rewrite Hs.
    by destruct (next_batch_v2 now (eg_spool e)).
  - unfold handle_acknowledge. destruct (authorize_spool authorization auth (delivery_view e)) as [Hs Ha].
    destruct (authorize authorization auth (delivery_view e)) as [[[]|] d]; cbn in Hs, Ha |- *; [|by left].
    destruct (ack_v1_parse body) as [ack|] eqn:Ep; [|by left].
    right. exists (CAcknowledge ack). split; [constructor; [by apply Ha|done]|]. cbn [exec]. unfold with_spool. rewrite Hs.
    by destruct (acknowledge ack (eg_spool e)).
  - unfold handle_acknowledge_v2. destruct (authorize_spool authorization auth (delivery_view e)) as [Hs Ha].
    destruct (authorize authorization auth (delivery_view e)) as [[[]|] d]; cbn in Hs, Ha |- *; [|by left].
    destruct (ack_v2_parse body) as [ack|] eqn:Ep; [|by left].
    right. exists (CAcknowledgeV2 ack). split; [constructor; [by apply Ha|done]|]. cbn [exec]. unfold with_spool. rewrite Hs.
    by destruct (acknowledge_v2 ack (eg_spool e)).
Qed.

(** Clock readings are [i64]. *)
Definition request_ok (request : Request) : Prop :=
  match request with ReqAdmit _ _ now => in_i64 now | _ => True end.

Context {SL : SpoolLaws}.

Lemma handle_wf request e : request_ok request -> wf (eg_spool e) -> wf (eg_spool (handle request e).2).
Proof.
  intros Hr Hwf. destruct (handle_spool request e) as [-> |(cmd & Hl & ->)]; [done|].
  eapply wf_does; [|done]. apply exec_ok; [done|]. by destruct Hl.
Qed.

(** What one request makes the spool lose. *)
Lemma handle_keeps request e seq :
  request_ok request -> wf (eg_spool e) -> live (in_state (eg_spool e)) seq ->
  live (in_state (eg_spool (handle request e).2)) seq \/
  exists cmd r, let w := eg_spool e in
    leads_to e request cmd /\ repeats cmd r /\ named r /\ accepts (in_state w) r seq /\
    (committed (in_state w) r \/ (names cmd (in_state w) seq /\ records cmd w r)).
Proof.
  intros Hr Hwf Hl. destruct (handle_spool request e) as [-> |(cmd & Hlead & ->)]; [by left|].
  assert (Hok : cmd_ok cmd) by by destruct Hlead.
  destruct (exec_keeps cmd _ seq Hwf Hok Hl) as [?|(r & [Hrep Hent] & Hn & Ha)]; [by left|right].
  exists cmd, r. split_and!; [done..|]. destruct Hent as [?|Hrec]; [by left|right]. split; [|done].
  destruct Hrec as (Hi & _). by eapply accepts_names.
Qed.

(** C13: through any requests to the two listeners, an admitted sequence number
    stays pending, as a record or as a gap notice, until an acknowledgement
    request whose bearer verified against the credential store at that moment,
    and whose body parsed, drops it under a receipt the acknowledgement
    repeats and that accepts it: either the acknowledgement itself names the
    sequence number and put that receipt on record, or it repeats one that
    was on record already. *)
Theorem only_authorized_acks_delete requests e seq :
  Forall request_ok requests -> wf (eg_spool e) -> live (in_state (eg_spool e)) seq ->
  live (in_state (eg_spool (serve requests e))) seq \/
  exists before request after cmd r,
    let w := eg_spool (serve before e) in
    requests = before ++ request :: after /\
    leads_to (serve before e) request cmd /\
    repeats cmd r /\ named r /\ accepts (in_state w) r seq /\
    (committed (in_state w) r \/ (names cmd (in_state w) seq /\ records cmd w r)).
Proof.
  revert e. induction requests as [|request requests IH]; intros e Hr Hwf Hl; [by left|].
  apply Forall_cons in Hr as [Hr Hrs].
  destruct (handle_keeps request e seq Hr Hwf Hl) as [Hl'|(cmd & r & ?)]; [|right; by exists [], request, requests, cmd, r].
  destruct (IH (handle request e).2 Hrs (handle_wf _ _ Hr Hwf) Hl') as [|(pre & q & post & cmd & r & -> & ?)];
    [by left|right]. by exists (request :: pre), q, post, cmd, r.
Qed.

(** Why a Hub request is not authorized, and the answer that says so. *)
Definition refused_bearer (authorization : option bytes) (auth : Z) (e : Edge) (response : Response) : Prop :=
  (response = error_response UNAUTHORIZED "hub_authentication_failed" /\
   (bearer_from_headers authorization = None \/
    exists token, bearer_from_headers authorization = Some token /\
      (verify store token auth (eg_credentials e)).1 = Ok false)) \/
  (response = error_response SERVICE_UNAVAILABLE "credential_store_unavailable" /\
   exists token error, bearer_from_headers authorization = Some token /\
     (verify store token auth (eg_credentials e)).1 = Err error).

Lemma unauthorized_answer authorization auth e :
  ~ authorized authorization auth e -> exists failure d,
    authorize authorization auth (delivery_view e) = (Err failure, d) /\ dl_spool d = eg_spool e /\
    refused_bearer authorization auth e (authorization_error failure).
Proof.
  intros Hna. unfold authorize, refused_bearer. destruct (bearer_from_headers authorization) as [token|] eqn:Eb.
  2:{ exists Rejected, (delivery_view e). split_and!; [done..|]. left. split; [done|by left]. }
  cbn [delivery_view dl_credentials]. destruct (verify store token auth (eg_credentials e)) as [[[]|error] o] eqn:Ev.
  - destruct Hna. exists token. by rewrite Ev.
  - eexists _, _. split_and!; [done..|]. left. split; [done|]. right. exists token. by rewrite Ev.
  - eexists _, _. split_and!; [done..|]. right. split; [done|]. exists token, error. by rewrite Ev.
Qed.

(** C26: a Hub request whose bearer does not verify leaves the spool and the
    receiver's counters as they were.  It is answered 401 exactly when there
    is no bearer or the credential store rejects it, and 503 when the store
    could not be consulted; only an acknowledgement whose body is too long is
    answered 413 before the bearer is looked at. *)
Theorem unauthorized_changes_nothing authorization auth now body e :
  ~ authorized authorization auth e ->
  Forall (fun request => let (response, e') := handle request e in
      eg_spool e' = eg_spool e /\ eg_metrics e' = eg_metrics e /\ refused_bearer authorization auth e response)
    [ReqNextBatch authorization auth now; ReqNextBatchV2 authorization auth now] /\
  Forall (fun request => let (response, e') := handle request e in
      eg_spool e' = eg_spool e /\ eg_metrics e' = eg_metrics e /\
      (if 131072 <? len body then response = length_rejection /\ rs_status response = PAYLOAD_TOO_LARGE
       else refused_bearer authorization auth e response))
    [ReqAck authorization body auth; ReqAckV2 authorization body auth].
Proof.
  intros (failure & d & Hf & Hd & Hans)%unauthorized_answer.
  split; repeat constructor; cbn [handle]; unfold body_limit; change MAX_HUB_ACK_BODY_BYTES with 131072;
    try (destruct (131072 <? len body); [done|]);
    unfold handle_next_batch, handle_next_batch_v2, handle_acknowledge, handle_acknowledge_v2; rewrite Hf; by split_and!.
Qed.

End Service.
