(* ===== verification/Accounting.v ===== *)
(** * What the metrics say about the requests

    The counters of [Metrics], read beside the answers the receiver got and the
    sequence numbers the spool gave out, over any requests to both listeners. *)

From S2P Require Import Prelude Protocol Crypto Fs SpoolTypes SpoolFacts SpoolBase SpoolOps.
From S2P Require Import SpoolFrame SpoolInv SpoolSpec SpoolRefine SpoolRefineOps SpoolDelivery SpoolReceipts SpoolSystem.
From S2P Require Import Config Credentials Metrics Admission Delivery.

(** An atomic counter went from [z] to [z'] in [n] increments. *)
Definition counted (n z z' : Z) : Prop := z' mod (U64_MAX + 1) = (z + n) mod (U64_MAX + 1).

Lemma counted_none z : counted 0 z z.
Proof. unfold counted. by rewrite Z.add_0_r. Qed.
Lemma counted_one z : counted 1 z (fetch_add z).
Proof. unfold counted, fetch_add. by rewrite Z.mod_mod. Qed.
Lemma counted_trans n m z z' z'' : counted n z z' -> counted m z' z'' -> counted (n + m) z z''.
Proof.
  unfold counted. intros H H'. rewrite H', Z.add_assoc, <-Z.add_mod_idemp_l, H by done. by rewrite Z.add_mod_idemp_l.
Qed.

(** ** The kinds of outcome *)

(** What the receiver's listener may do with an event, one counter each. *)
Inductive Kind := KAdmitted | KDuplicate | KAuth | KInvalid | KCapacity | KStorage | KInternal.
#[global] Instance kind_eq_dec : EqDecision Kind.
Proof. solve_decision. Defined.

Definition reading (k : Kind) (m : Metrics) : Z :=
  match k with
  | KAdmitted => mt_admitted m
  | KDuplicate => mt_duplicates m
  | KAuth => mt_rejected_auth m
  | KInvalid => mt_rejected_invalid m
  | KCapacity => mt_rejected_capacity m
  | KStorage => mt_rejected_storage m
  | KInternal => mt_rejected_internal m
  end.

(** The kind of outcome, read off the answer; [advanced] tells whether the
    spool gave out a sequence number meanwhile. *)
Definition answer_kind (response : Response) (advanced : bool) : option Kind :=
  match rs_body response with
  | BodyEmpty =>
      if rs_status response =? 204 then Some (if advanced then KAdmitted else KDuplicate) else None
  | BodyError error =>
      if rs_status response =? 401 then Some KAuth
      else if (rs_status response =? 400) || (rs_status response =? 413) then Some KInvalid
      else if rs_status response =? 503 then Some KInternal
      else if rs_status response =? 507 then
        if bool_decide (error = lit "spool_capacity_exceeded") then Some KCapacity
        else if bool_decide (error = lit "storage_full") then Some KStorage
        else None
      else None
  | _ => None
  end.

Lemma kind_capacity b : answer_kind (error_response INSUFFICIENT_STORAGE "spool_capacity_exceeded") b = Some KCapacity.
Proof. unfold answer_kind. cbn. by rewrite bool_decide_true. Qed.
Lemma kind_storage b : answer_kind (error_response INSUFFICIENT_STORAGE "storage_full") b = Some KStorage.
Proof. unfold answer_kind. cbn. by rewrite bool_decide_false, bool_decide_true by done. Qed.

Definition times (k : Kind) (kinds : list Kind) : Z := Z.of_nat (count_occ kind_eq_dec kinds k).
Lemma times_app k l l' : times k (l ++ l') = times k l + times k l'.
Proof. unfold times. rewrite count_occ_app. lia. Qed.

(** The counters went from [m] to [m'] while events of the kinds [l] came. *)
Definition tallied (l : list Kind) (m m' : Metrics) : Prop := forall k, counted (times k l) (reading k m) (reading k m').

Lemma tallied_nothing m : tallied [] m m.
Proof. intros k. apply counted_none. Qed.
Lemma tallied_trans l l' m m' m'' : tallied l m m' -> tallied l' m' m'' -> tallied (l ++ l') m m''.
Proof. intros H H' k. rewrite times_app. exact (counted_trans _ _ _ _ _ (H k) (H' k)). Qed.

(** One event of kind [k]: its counter moves, the other six do not. *)
Lemma tallied_one k m m' :
  reading k m' = fetch_add (reading k m) -> (forall k', k' <> k -> reading k' m' = reading k' m) -> tallied [k] m m'.
Proof.
  intros Hk Hother k'. unfold times. cbn. destruct (kind_eq_dec k k') as [<-|Hne].
  - rewrite Hk. apply counted_one.
  - rewrite Hother by done. apply counted_none.
Qed.

Section Accounting.
Context {X : SpoolEnv} {CE : CredentialEnv}.
Context `{JsonReader} `{FromValue ReceiverEnvelope} `{FromValue HubAckV1} `{FromValue HubAckV2}.
Variable store : Path.
Context {SL : SpoolLaws}.

Definition next_seq (e : Edge) : Z := next_spool_sequence (in_state (eg_spool e)).

(** The kind of the receiver's outcome, for a request that posts an event. *)
Definition receiver_kind (request : Request) (e : Edge) : list Kind :=
  match request with
  | ReqAdmit _ _ _ =>
      let (response, e') := handle store request e in
      option_list (answer_kind response (bool_decide (next_seq e < next_seq e')))
  | _ => []
  end.
Fixpoint receiver_kinds (requests : list Request) (e : Edge) : list Kind :=
  match requests with
  | [] => []
  | request :: requests' => receiver_kind request e ++ receiver_kinds requests' (handle store request e).2
  end.

(** A posted event whose body the router lets through to the handler. *)
Definition posts_event (request : Request) : bool :=
  match request with ReqAdmit _ body _ => len body <=? 262144 | _ => false end.

Lemma handle_next_mono request e :
  request_ok request -> wf (eg_spool e) -> next_seq e <= next_seq (handle store request e).2.
Proof.
  intros Hr Hwf. unfold next_seq. destruct (handle_spool store request e) as [-> |(cmd & Hl & ->)]; [lia|].
  apply (does_next_mono (cmd_events cmd)). apply exec_ok; [done|]. by destruct Hl.
Qed.

(** A positive answer of [enqueue]: the sequence advanced by one, or not. *)
Lemma enqueue_advances envelope now w outcome :
  wf w -> in_i64 now -> (enqueue envelope now w).1 = Ok outcome ->
  next_spool_sequence (in_state (enqueue envelope now w).2) =
    next_spool_sequence (in_state w) + match outcome with Stored _ => 1 | AlreadyPresent _ => 0 end.
Proof.
  intros Hwf Hnow E. destruct (enqueue_ok envelope now w Hwf Hnow) as [_ Hout]. rewrite E in Hout.
  destruct outcome; [destruct Hout as (_ & _ & e & _ & -> & _); done|destruct Hout as (-> & _); lia].
Qed.

(** One counted event. *)
Ltac tally := split; [apply tallied_one; [done|by intros []]|split; [done|]].

Lemma admit_tallied authorization body now e :
  in_i64 now -> wf (eg_spool e) ->
  let request := ReqAdmit authorization body now in
  let e' := (handle store request e).2 in
  tallied (receiver_kind request e) (eg_metrics e) (eg_metrics e') /\
  length (receiver_kind request e) = (if posts_event request then 1%nat else 0%nat) /\
  (next_seq e <= next_seq e' -> times KAdmitted (receiver_kind request e) <= next_seq e' - next_seq e).
Proof.
  intros Hnow Hwf. cbn [handle receiver_kind posts_event]. unfold body_limit, MAX_RECEIVER_BODY_BYTES.
  change (256 * 1024) with 262144. rewrite Z.leb_antisym. destruct (262144 <? len body); cbn [negb].
  { split; [apply tallied_nothing|]. split; [done|]. unfold times; cbn; lia. }
  unfold admit_receiver_envelope, next_seq. cbn [admission_view ad_bearer ad_permits ad_spool].
  destruct (bearer_from_headers authorization) as [candidate|]; [|tally; unfold times; cbn; lia].
  destruct (negb _); [tally; unfold times; cbn; lia|]. destruct (Nat.eqb _ _); [tally; unfold times; cbn; lia|].
  destruct (envelope_parse_at body now) as [envelope|[]]; try (tally; unfold times; cbn; lia).
  change (port_enqueue envelope now (eg_spool e)) with (enqueue envelope now (eg_spool e)).
  pose proof (enqueue_advances envelope now (eg_spool e)) as Hadv.
  destruct (enqueue envelope now (eg_spool e)) as [[[id|id]|[]] s]; cbn [fst snd] in *;
    rewrite ?kind_capacity, ?kind_storage; try (tally; unfold times; cbn; lia).
  all: specialize (Hadv _ Hwf Hnow eq_refl); cbn in Hadv |- *; rewrite Hadv.
  - rewrite bool_decide_true by lia. tally. unfold times; cbn; lia.
  - rewrite bool_decide_false by lia. tally. unfold times; cbn; lia.
Qed.

Lemma handle_tallied request e :
  request_ok request -> wf (eg_spool e) -> let e' := (handle store request e).2 in
  tallied (receiver_kind request e) (eg_metrics e) (eg_metrics e') /\
  length (receiver_kind request e) = (if posts_event request then 1%nat else 0%nat) /\
  times KAdmitted (receiver_kind request e) <= next_seq e' - next_seq e.
Proof.
  intros Hr Hwf e'. pose proof (handle_next_mono request e Hr Hwf) as Hle. fold e' in Hle.
  destruct request; cbn [receiver_kind posts_event].
  { destruct (admit_tallied authorization body now_ms e Hr Hwf) as (? & ? & ?). split_and!; auto. }
  all: split; [|split; [done|unfold times; cbn; lia]].
  all: enough (eg_metrics e' = eg_metrics e) as -> by apply tallied_nothing.
  all: subst e'; clear Hle; cbn [handle]; unfold body_limit; try done.
  - by destruct (handle_next_batch _ _ _ _ _).
  - by destruct (handle_next_batch_v2 _ _ _ _ _).
  - destruct (_ <? len body); [done|]. by destruct (handle_acknowledge _ _ _ _ _).
  - destruct (_ <? len body); [done|]. by destruct (handle_acknowledge_v2 _ _ _ _ _).
Qed.

(** C15: the metrics account for every event posted to the receiver's listener:
    over any requests to both listeners, each of the seven counters moved by
    the number of events of its own kind, the kind being read off the answer
    -- 204 with a new sequence number is an admission, 204 without one a
    duplicate, 401 a refused bearer, 400 or 413 an invalid event, 507 a full
    spool or a full disk by its error text, 503 an internal failure.  Every
    posted event whose body is within the limit of 256 KiB is of exactly one
    kind; one that is longer is refused by the router and not counted. *)
Theorem metrics_account requests e :
  Forall request_ok requests -> wf (eg_spool e) ->
  let e' := serve store requests e in
  let kinds := receiver_kinds requests e in
  (forall k, counted (times k kinds) (reading k (eg_metrics e)) (reading k (eg_metrics e'))) /\
  length kinds = length (List.filter posts_event requests) /\
  times KAdmitted kinds <= next_seq e' - next_seq e.
Proof.
  revert e. induction requests as [|request requests IH]; intros e Hrs Hwf.
  { split; [apply tallied_nothing|]. split; [done|]. unfold times; cbn; lia. }
  apply Forall_cons in Hrs as [Hr Hrs]. cbn [receiver_kinds List.filter].
  change (serve store (request :: requests) e) with (serve store requests (handle store request e).2).
  destruct (handle_tallied request e Hr Hwf) as (Ht & Hlen & Hadm).
  destruct (IH (handle store request e).2 Hrs (handle_wf store request e Hr Hwf)) as (Ht' & Hlen' & Hadm').
  cbn zeta in *. split_and!.
  - exact (tallied_trans _ _ _ _ _ Ht Ht').
  - rewrite length_app, Hlen, Hlen'. by destruct (posts_event request).
  - rewrite times_app. lia.
Qed.

End Accounting.
