(* ===== verification/Startup.v ===== *)
(** * Starting, checking and stopping the service
    ([src/runtime.rs], [src/tls.rs], [src/main.rs])

    [doctor] and the start of [run_until_shutdown] make the same checks on the
    secrets; the command line decides which of the operations runs.  Rustls,
    the listeners and tokio's scheduling are parameters: a [Session] says what
    was served and how the two listener tasks ended. *)

From S2P Require Import Prelude Protocol Crypto Fs SpoolTypes SpoolBase SpoolOps SpoolRecover SpoolSystem.
From S2P Require Import Config Credentials HostFs Setup Metrics Admission.

(** ** TLS *)

Inductive TlsError :=
| InvalidServerCertificate
| InvalidServerPrivateKey
| InvalidClientAuthority
| InvalidConfiguration.
#[global] Instance TlsError_eq_dec : EqDecision TlsError.
Proof. solve_decision. Defined.

(** [rustls] and [rustls_pemfile].  [pem_certs] yields one item per
    certificate block, [None] for one that does not decode. *)
Class Rustls := {
  Certificate : Type;
  PrivateKey : Type;
  RootCertStore : Type;
  ClientVerifier : Type;
  ServerConfig : Type;
  pem_certs : bytes -> list (option Certificate);
  pem_private_key : bytes -> option (option PrivateKey);
  roots_empty : RootCertStore;
  roots_add : RootCertStore -> Certificate -> option RootCertStore;
  build_verifier : RootCertStore -> option ClientVerifier;
  (** [with_safe_default_protocol_versions], [with_client_cert_verifier] and
      [with_single_cert] *)
  with_single_cert : ClientVerifier -> list Certificate -> PrivateKey -> option ServerConfig;
  set_alpn : list bytes -> ServerConfig -> ServerConfig;
}.

Section Tls.
Context `{Rustls}.

(** [iter.collect::<Result<Vec<_>, _>>()] *)
Fixpoint collect {A} (l : list (option A)) : option (list A) :=
  match l with
  | [] => Some []
  | None :: _ => None
  | Some a :: l' => match collect l' with Some r => Some (a :: r) | None => None end
  end.

Fixpoint add_all (roots : RootCertStore) (authorities : list Certificate) : option RootCertStore :=
  match authorities with
  | [] => Some roots
  | authority :: rest => match roots_add roots authority with Some r => add_all r rest | None => None end
  end.

Definition mtls_server_config_from_pem (server_certificate server_private_key hub_client_ca : bytes)
    : Result TlsError ServerConfig :=
  match collect (pem_certs server_certificate) with
  | None | Some [] => Err InvalidServerCertificate
  | Some server_certificates =>
      match pem_private_key server_private_key with
      | None | Some None => Err InvalidServerPrivateKey
      | Some (Some key) =>
          match collect (pem_certs hub_client_ca) with
          | None | Some [] => Err InvalidClientAuthority
          | Some client_authorities =>
              match add_all roots_empty client_authorities with
              | None => Err InvalidClientAuthority
              | Some roots =>
                  match build_verifier roots with
                  | None => Err InvalidConfiguration
                  | Some client_verifier =>
                      match with_single_cert client_verifier server_certificates key with
                      | None => Err InvalidConfiguration
                      | Some config => Ok (set_alpn [lit "h2"; lit "http/1.1"] config)
                      end
                  end
              end
          end
      end
  end.

End Tls.

(** ** The runtime *)

Definition MAX_SECRET_BYTES : Z := 1048576.

Inductive RuntimeError :=
| RuntimeConfig (e : ConfigError)
| RuntimeSpool (e : SpoolError)
| RuntimeCredential (e : CredentialError)
| RuntimeTls (e : TlsError)
| InvalidSecret
| RuntimeIo
| Bind
| Listener
| ListenerStopped
| TaskFailed.

(** What [JoinSet::join_next] yields for a task: its result, or a
    [JoinError] of a cancelled or of a panicked task. *)
Inductive Joined :=
| Finished (result : Result RuntimeError unit)
| Cancelled
| Panicked.

Definition flatten_join (joined : Joined) : Result RuntimeError unit :=
  match joined with
  | Finished result => result
  | Cancelled => Ok tt
  | Panicked => Err TaskFailed
  end.

(** The [drain] future: joins the remaining tasks until one fails. *)
Fixpoint drain (joins : list Joined) : Result RuntimeError unit :=
  match joins with
  | [] => Ok tt
  | joined :: rest =>
      match flatten_join joined with
      | Err e => Err e
      | Ok _ => drain rest
      end
  end.

(** What happens while the service runs: the clock at the start, whether the
    receiver's port could be bound, the spool methods the two services called,
    the task that ended before a shutdown was asked for (if any), and the
    joins after it ([None]: the shutdown deadline passed first). *)
Record Session := {
  sn_now_ms : Z;
  sn_bound : bool;
  sn_served : list Cmd;
  sn_early_exit : option Joined;
  sn_drained : option (list Joined);
}.

(** The host's files and the spool's directory. *)
Record Machine := { mc_host : HostOs; mc_spool : Os SpoolPath }.

Section Runtime.
Context {X : HostEnv} {Y : SpoolEnv} `{Rustls}.

Definition RuntimeM (A : Type) : Type := M HostOs RuntimeError A.
(** [call()?] with [#[from]] *)
Definition from_err {E A} (wrap : E -> RuntimeError) (m : M HostOs E A) : RuntimeM A :=
  fun o => let (r, o') := m o in (map_err wrap r, o').

Definition read_bounded (path : Path) : RuntimeM bytes :=
  let! contents := from_err (fun _ => RuntimeIo) (consult (fun host => host_read path)) in
  throw_if (is_empty contents || (MAX_SECRET_BYTES <? len contents)) InvalidSecret ;;
  ret contents.

(** The first statements of both [doctor] and [run_until_shutdown]. *)
Definition read_secrets (c : EdgeConfig) : RuntimeM (bytes * ReceiverBearer) :=
  from_err RuntimeConfig (consult (fun host => validate_runtime_files c)) ;;
  let! key := read_bounded (cfg_spool_key_path c) in
  throw_if (negb (len key =? 32)) InvalidSecret ;;
  let! bearer_bytes := read_bounded (cfg_receiver_bearer_path c) in
  throw_if (negb (utf8_valid bearer_bytes)) InvalidSecret ;;
  match bearer_new bearer_bytes with
  | Err _ => fail InvalidSecret
  | Ok bearer => ret (key, bearer)
  end.

Definition open_credentials (c : EdgeConfig) : RuntimeM unit :=
  from_err RuntimeCredential (with_store (cfg_credential_store_path c) (open_store (cfg_credential_store_path c))).

Definition load_tls (c : EdgeConfig) : RuntimeM ServerConfig :=
  let! server_certificate := read_bounded (cfg_hub_server_certificate_path c) in
  let! server_private_key := read_bounded (cfg_hub_server_private_key_path c) in
  let! client_ca := read_bounded (cfg_hub_client_ca_path c) in
  from_err RuntimeTls (of_result (mtls_server_config_from_pem server_certificate server_private_key client_ca)).

Definition doctor (c : EdgeConfig) : RuntimeM unit :=
  read_secrets c ;;
  open_credentials c ;;
  load_tls c ;;
  ret tt.

Definition MachineM (A : Type) : Type := M Machine RuntimeError A.
Definition on_host {A} (m : RuntimeM A) : MachineM A :=
  fun mc => let (r, o) := m (mc_host mc) in (r, {| mc_host := o; mc_spool := mc_spool mc |}).
Definition on_spool {A} (m : OsM A) : MachineM A :=
  fun mc => let (r, o) := m (mc_spool mc) in (map_err RuntimeSpool r, {| mc_host := mc_host mc; mc_spool := o |}).

(** The services run, then [spool.sync()?]. *)
Definition serve_and_sync (served : list Cmd) (spool : Inner) : OsM unit :=
  fun o => let (r, w) := sync (run served (set_os o spool)) in (r, in_os w).

Definition run_until_shutdown (c : EdgeConfig) (session : Session) : MachineM unit :=
  let! secrets := on_host (read_secrets c) in
  let '(key, bearer) := secrets in
  let! config := on_host (from_err RuntimeConfig (of_result (spool_config c))) in
  let! spool := on_spool (open config key (sn_now_ms session)) in
  on_host (open_credentials c) ;;
  on_host (load_tls c) ;;
  throw_if (negb (sn_bound session)) Bind ;;
  on_spool (serve_and_sync (sn_served session) spool) ;;
  match sn_early_exit session with
  | Some joined =>
      of_result (flatten_join joined) ;;
      fail ListenerStopped
  | None =>
      match sn_drained session with
      | Some joins => of_result (drain joins)
      | None => ret tt
      end
  end.

(** ** The command line *)

Inductive CredentialCommand :=
| Enrol (label : str) (ttl_seconds : Z)
| Rotate (credential_id : str) (overlap_seconds ttl_seconds : Z)
| Revoke (credential_id : str).
Inductive Command :=
| StorageFormat
| Init
| Doctor
| Serve
| Credential (command : CredentialCommand)
| ReceiverTokenRotate.

Inductive CliError :=
| CliConfig (e : ConfigError)
| CliRuntime (e : RuntimeError)
| CliCredential (e : CredentialError)
| DurationTooLarge.

(** A line on standard output. *)
Inductive Line :=
| LFormat (version : Z)
| LInitialized
| LOk
| LIssued (credential_id token : str)
| LRevoked
| LReceiverToken (token : str).

Definition seconds_to_ms (seconds : Z) : Result CliError Z :=
  match u64_checked_mul seconds 1000 ≫= i64_try_from with
  | None => Err DurationTooLarge
  | Some ms => Ok ms
  end.

Definition CliM (A : Type) : Type := M Machine CliError A.
Definition cli_host {E A} (wrap : E -> CliError) (m : M HostOs E A) : CliM A :=
  fun mc => let (r, o) := m (mc_host mc) in (map_err wrap r, {| mc_host := o; mc_spool := mc_spool mc |}).
Definition cli_run {A} (m : MachineM A) : CliM A :=
  fun mc => let (r, mc') := m mc in (map_err CliRuntime r, mc').

Definition manage_credential (c : EdgeConfig) (command : CredentialCommand) (now_ms : Z) : CliM Line :=
  let path := cfg_credential_store_path c in
  let store {A} (m : CredM A) : CliM A := cli_host CliCredential (with_store path m) in
  store (open_store path) ;;
  match command with
  | Enrol label ttl_seconds =>
      let! ttl_ms := of_result (seconds_to_ms ttl_seconds) in
      let! issued := store (enrol path label now_ms ttl_ms) in
      ret (LIssued (ic_credential_id issued) (ic_token issued))
  | Rotate credential_id overlap_seconds ttl_seconds =>
      let! overlap_ms := of_result (seconds_to_ms overlap_seconds) in
      let! ttl_ms := of_result (seconds_to_ms ttl_seconds) in
      let! issued := store (rotate path credential_id now_ms overlap_ms ttl_ms) in
      ret (LIssued (ic_credential_id issued) (ic_token issued))
  | Revoke credential_id =>
      store (revoke path credential_id now_ms) ;;
      ret LRevoked
  end.

(** [run(Cli)]: what it prints. *)
Definition run_cli `{Toml} (config_path : Path) (command : Command) (now_ms : Z) (session : Session)
    : CliM (option Line) :=
  match command with
  | StorageFormat => ret (Some (LFormat SPOOL_FORMAT_VERSION))
  | _ =>
      let! c := cli_host CliConfig (consult (fun host => Config.load config_path)) in
      match command with
      | StorageFormat => ret None
      | Init => cli_host CliConfig (initialize c) ;; ret (Some LInitialized)
      | Doctor => cli_host CliRuntime (doctor c) ;; ret (Some LOk)
      | Serve => cli_run (run_until_shutdown c session) ;; ret None
      | Credential command =>
          cli_host CliConfig (consult (fun host => validate_runtime_files c)) ;;
          let! line := manage_credential c command now_ms in
          ret (Some line)
      | ReceiverTokenRotate =>
          let! issued := cli_host CliConfig (rotate_receiver_token c) in
          ret (Some (LReceiverToken (it_token issued)))
      end
  end.

(** [main]: the process's exit status. *)
Definition exit_code {A} (r : Result CliError A) : Z := match r with Ok _ => 0 | Err _ => 1 end.

End Runtime.
