(* ===== verification/StartupFacts.v ===== *)
(** * What starting and stopping the service guarantees

    The spool is opened only after the secrets passed every check, a clean
    exit means that the spool was synchronized, a token the command line prints
    is one the store accepts, and durations are converted without overflow. *)

From S2P Require Import Prelude Protocol Crypto Fs SpoolTypes SpoolBase SpoolOps SpoolRecover SpoolSystem.
From S2P Require Import Config Credentials CredentialFacts HostFs HostFacts Setup Metrics Admission Startup.

Section Facts.
Context {X : HostEnv} {Y : SpoolEnv} `{Rustls}.

(** ** Checks before the start *)

Lemma wp_from_err {E A} (wrap : E -> RuntimeError) (m : M HostOs E A) (Q : Result RuntimeError A -> HostOs -> Prop) o :
  wp m (fun r o' => Q (map_err wrap r) o') o -> wp (from_err wrap m) Q o.
Proof. unfold wp, from_err. by destruct (m o). Qed.

(** The regular file the path leads to, links followed, holds [b]. *)
Definition file_holds (t : FileTree) (path : Path) (b : bytes) : Prop :=
  exists mode uid, stat t path = Ok (HFile b mode uid).

Lemma read_holds path b o : host_read (Host:=host_at o) path = Ok b -> file_holds (hs_tree o) path b.
Proof.
  cbn. unfold answer. destruct (lookup_fault _ _ _); [done|].
  destruct (stat (hs_tree o) path) as [[data mode uid| | |]|] eqn:E; try done. intros [= <-]. by exists mode, uid.
Qed.

(** The secrets as the service accepts them: the key is what the file at the
    configured key path holds, the bearer what the file at the configured
    bearer path holds. *)
Definition secrets_ok (c : EdgeConfig) (o : HostOs) (key : bytes) (bearer : ReceiverBearer) : Prop :=
  @validate_runtime_files (host_at o) c = Ok tt /\
  file_holds (hs_tree o) (cfg_spool_key_path c) key /\ len key = 32 /\
  file_holds (hs_tree o) (cfg_receiver_bearer_path c) (bearer_text bearer) /\
  bearer_new (bearer_text bearer) = Ok bearer.

Lemma wp_read_bounded path (Q : Result RuntimeError bytes -> HostOs -> Prop) o :
  (forall e, Q (Err e) (hnext (hs_tree o) o)) ->
  (forall contents, host_read (Host:=host_at o) path = Ok contents -> 0 < len contents <= MAX_SECRET_BYTES ->
     Q (Ok contents) (hnext (hs_tree o) o)) ->
  wp (read_bounded path) Q o.
Proof.
  intros He Hok. unfold read_bounded. wp_step. apply wp_from_err, wp_consult.
  destruct (host_read path) as [contents|] eqn:Er; cbn [map_err]; [|apply He].
  wp_step. wp_step; [apply He|]. apply wp_ret, Hok; [done|].
  apply orb_false_iff in H0 as [He' Hl]. apply Z.ltb_ge in Hl. destruct contents; [done|].
  clear Hok. unfold len in *. cbn [length] in *. lia.
Qed.

Lemma read_secrets_ok c o :
  wp (read_secrets c) (fun r o' => hs_tree o' = hs_tree o /\
    match r with Ok (key, bearer) => secrets_ok c o key bearer | Err _ => True end) o.
Proof.
  unfold read_secrets. wp_step. apply wp_from_err, wp_consult.
  destruct (@validate_runtime_files (host_at o) c) as [[]|] eqn:Hv; cbn [map_err]; [|done].
  wp_step. apply wp_read_bounded; [done|]. intros key Hkey Hlen. do 2 wp_step; [done|].
  wp_step. apply wp_read_bounded; [done|]. intros text Htext Hl. do 2 wp_step; [done|].
  destruct (bearer_new text) as [bearer|] eqn:Hb; [|done]. apply wp_ret. split; [done|].
  apply read_holds in Hkey, Htext. unfold bearer_new in Hb. destruct (_ || _) eqn:E; [done|]. injection Hb as <-.
  split_and!; [exact Hv| |lia| |].
  { match goal with H : file_holds _ (cfg_spool_key_path _) _ |- _ => exact H end. }
  { match goal with H : file_holds _ (cfg_receiver_bearer_path _) _ |- _ => exact H end. }
  unfold bearer_new. cbn [bearer_text]. by rewrite E.
Qed.

Lemma on_host_spool {A} (m : RuntimeM A) mc : mc_spool (on_host m mc).2 = mc_spool mc.
Proof. unfold on_host. by destruct (m (mc_host mc)). Qed.

(** The rest of [run_until_shutdown], from an opened spool on. *)
Definition serve (c : EdgeConfig) (session : Session) (spool : Inner) : MachineM unit :=
  on_host (open_credentials c) ;;
  on_host (load_tls c) ;;
  throw_if (negb (sn_bound session)) Bind ;;
  on_spool (serve_and_sync (sn_served session) spool) ;;
  match sn_early_exit session with
  | Some joined => of_result (flatten_join joined) ;; fail ListenerStopped
  | None => match sn_drained session with Some joins => of_result (drain joins) | None => ret tt end
  end.

(** Everything before the spool is opened leaves the host's files alone. *)
Lemma run_until_shutdown_opens c session mc :
  (exists e mc', run_until_shutdown c session mc = (Err e, mc') /\ mc_spool mc' = mc_spool mc) \/
  exists key bearer sc o, secrets_ok c (mc_host mc) key bearer /\ spool_config c = Ok sc /\
    hs_tree o = hs_tree (mc_host mc) /\
    run_until_shutdown c session mc =
      bind (on_spool (open sc key (sn_now_ms session))) (serve c session) {| mc_host := o; mc_spool := mc_spool mc |}.
Proof.
  pose proof (read_secrets_ok c (mc_host mc)) as Hs. unfold wp in Hs.
  remember (run_until_shutdown c session mc) as res eqn:Hr. unfold run_until_shutdown, bind at 1, on_host at 1 in Hr.
  destruct (read_secrets c (mc_host mc)) as [[[key bearer]|e] o]; cbn in Hs; [|left; by eexists _, _].
  destruct Hs as [Ho Hs]. unfold bind at 1, on_host at 1, from_err at 1, of_result at 1 in Hr.
  destruct (spool_config c) as [sc|e] eqn:Hc; cbn [map_err] in Hr; [|left; by eexists _, _].
  right. exists key, bearer, sc, o. split_and!; [done..|exact Hr].
Qed.

(** C29: the spool's directory is touched only after the secrets passed: the
    runtime files are regular, safely placed and private, the receiver bearer
    is the content of its configured file and acceptable, the limits of the
    configuration could be converted, and the spool is opened with the content
    of the configured key file, which has 32 bytes. *)
Theorem spool_opened_with_checked_secrets c session mc :
  mc_spool (run_until_shutdown c session mc).2 <> mc_spool mc ->
  exists key bearer sc o, secrets_ok c (mc_host mc) key bearer /\ spool_config c = Ok sc /\
    hs_tree o = hs_tree (mc_host mc) /\
    run_until_shutdown c session mc =
      bind (on_spool (open sc key (sn_now_ms session))) (serve c session) {| mc_host := o; mc_spool := mc_spool mc |}.
Proof.
  intros Hne. destruct (run_until_shutdown_opens c session mc) as [(e & mc' & E & Hs)|?]; [|done].
  by rewrite E in Hne.
Qed.

(** ** A clean exit *)

Lemma bind_Ok {W E A B} (m : M W E A) (k : A -> M W E B) w b :
  (bind m k w).1 = Ok b -> exists a w', m w = (Ok a, w') /\ bind m k w = k a w'.
Proof. unfold bind. destruct (m w) as [[a|e] w'] eqn:Hm; cbn; [|done]. intros _. by exists a, w'. Qed.

(** The configuration verifies clients against every authority of [ca]. *)
Definition demands_client_certificates (ca : bytes) (config : ServerConfig) : Prop :=
  exists authorities roots verifier chain private_key server,
    collect (pem_certs ca) = Some authorities /\ authorities <> [] /\
    add_all roots_empty authorities = Some roots /\ build_verifier roots = Some verifier /\
    with_single_cert verifier chain private_key = Some server /\
    config = set_alpn [lit "h2"; lit "http/1.1"] server.

Lemma mtls_demands certificate private_key ca config :
  mtls_server_config_from_pem certificate private_key ca = Ok config -> demands_client_certificates ca config.
Proof.
  unfold mtls_server_config_from_pem. destruct (collect (pem_certs certificate)) as [[|cert chain]|]; try done.
  destruct (pem_private_key private_key) as [[key|]|]; try done.
  destruct (collect (pem_certs ca)) as [[|authority authorities]|] eqn:Hca; try done.
  destruct (add_all roots_empty _) as [roots|] eqn:Hr; [|done]. destruct (build_verifier roots) as [verifier|] eqn:Hv; [|done].
  destruct (with_single_cert _ _ _) as [server|] eqn:Hs; [|done]. intros [= <-].
  by exists (authority :: authorities), roots, verifier, (cert :: chain), key, server.
Qed.

Lemma load_tls_demands c o :
  wp (load_tls c) (fun r _ => match r with
    | Ok config => exists ca o', host_read (Host:=host_at o') (cfg_hub_client_ca_path c) = Ok ca /\
        hs_tree o' = hs_tree o /\ demands_client_certificates ca config
    | Err _ => True end) o.
Proof.
  unfold load_tls. wp_step. apply wp_read_bounded; [done|]. intros certificate _ _.
  wp_step. apply wp_read_bounded; [done|]. intros key _ _.
  wp_step. apply wp_read_bounded; [done|]. intros ca Hca _. apply wp_from_err. unfold wp, of_result. cbn [fst snd].
  destruct (mtls_server_config_from_pem certificate key ca) as [config|] eqn:E; cbn [map_err]; [|done].
  eexists ca, _. split_and!; [exact Hca|done|by eapply mtls_demands].
Qed.

(** The service exits successfully only when it was asked to stop, both
    listeners ended cleanly or were cut off at the deadline, the Hub listener
    demanded client certificates of the configured authorities, and the spool,
    opened with the checked key and left as the served requests made it, was
    synchronized to disk. *)
Theorem clean_exit c session mc :
  (run_until_shutdown c session mc).1 = Ok tt ->
  sn_early_exit session = None /\ from_option (fun joins => drain joins = Ok tt) True (sn_drained session) /\
  sn_bound session = true /\
  exists key bearer sc spool o w, secrets_ok c (mc_host mc) key bearer /\ spool_config c = Ok sc /\
    open sc key (sn_now_ms session) (mc_spool mc) = (Ok spool, o) /\
    sync (SpoolSystem.run (sn_served session) (set_os o spool)) = (Ok tt, w) /\
    mc_spool (run_until_shutdown c session mc).2 = in_os w /\
    exists ca config o', host_read (Host:=host_at o') (cfg_hub_client_ca_path c) = Ok ca /\
      demands_client_certificates ca config.
Proof.
  intros Hok. destruct (run_until_shutdown_opens c session mc) as [(e & mc' & E & _)|
    (key & bearer & sc & o0 & Hs & Hsc & _ & E)]; [by rewrite E in Hok|]. rewrite E in Hok |- *. clear E.
  destruct (bind_Ok _ _ _ _ Hok) as (spool & mc1 & Ho & Hb). rewrite Hb in Hok |- *. clear Hb.
  unfold on_spool in Ho. cbn [mc_spool mc_host] in Ho.
  destruct (open sc key (sn_now_ms session) (mc_spool mc)) as [[inner|e] o] eqn:Hopen; [|done].
  injection Ho as <- <-. unfold serve in Hok |- *.
  destruct (bind_Ok _ _ _ _ Hok) as ([] & mc2 & Hc & Hb). rewrite Hb in Hok |- *. clear Hb.
  pose proof (on_host_spool (open_credentials c) {| mc_host := o0; mc_spool := o |}) as Hm2. rewrite Hc in Hm2.
  destruct (bind_Ok _ _ _ _ Hok) as (server & mc3 & Ht & Hb). rewrite Hb in Hok |- *. clear Hb.
  pose proof (on_host_spool (load_tls c) mc2) as Hm3. rewrite Ht in Hm3. cbn in Hm2, Hm3.
  destruct (bind_Ok _ _ _ _ Hok) as ([] & mc4 & Hbound & Hb). rewrite Hb in Hok |- *. clear Hb.
  unfold throw_if in Hbound. destruct (sn_bound session); [|done]. injection Hbound as <-.
  destruct (bind_Ok _ _ _ _ Hok) as ([] & mc5 & Hsync & Hb). rewrite Hb in Hok |- *. clear Hb.
  unfold on_spool, serve_and_sync in Hsync. rewrite Hm3, Hm2 in Hsync.
  destruct (sync (SpoolSystem.run (sn_served session) (set_os o inner))) as [[[]|e] w] eqn:Hsy; [|done].
  injection Hsync as <-.
  destruct (sn_early_exit session) as [j|].
  { destruct (bind_Ok _ _ _ _ Hok) as (? & ? & _ & Hb). by rewrite Hb in Hok. }
  split_and!; [done|..|done|].
  { destruct (sn_drained session); [exact Hok|done]. }
  exists key, bearer, sc, inner, o, w. split_and!; try done.
  { by destruct (sn_drained session). }
  pose proof (load_tls_demands c (mc_host mc2)) as Hl. unfold wp in Hl. unfold on_host in Ht.
  destruct (load_tls c (mc_host mc2)) as [[config|] o2]; [|done]. destruct Hl as (ca & o' & Hca & _ & Hd). eauto.
Qed.

(** ** The command line *)

(** A duration in seconds is converted exactly, or refused when it does not
    fit an [i64] of milliseconds; nothing wraps around. *)
Theorem seconds_to_ms_exact seconds r :
  in_u64 seconds -> seconds_to_ms seconds = r ->
  match r with
  | Ok ms => ms = 1000 * seconds /\ in_i64 ms
  | Err e => e = DurationTooLarge /\ I64_MAX < 1000 * seconds
  end.
Proof.
  unfold in_u64, in_i64, U64_MAX, I64_MAX, I64_MIN. intros Hs <-. unfold seconds_to_ms, u64_checked_mul, i64_try_from, U64_MAX, I64_MAX, I64_MIN.
  destruct (seconds * 1000 <=? _) eqn:E; cbn; [|split; [done|lia]].
  destruct (_ && _) eqn:E'; cbn; [lia|]. split; [done|]. apply andb_false_iff in E' as [?|?]; lia.
Qed.

Lemma cli_host_Ok {E A} (wrap : E -> CliError) (m : M HostOs E A) mc a mc' :
  cli_host wrap m mc = (Ok a, mc') ->
  m (mc_host mc) = (Ok a, mc_host mc') /\ mc_spool mc' = mc_spool mc.
Proof. unfold cli_host. destruct (m (mc_host mc)) as [[]]; [|done]. by intros [= <- <-]. Qed.

(** What a successful method of the store did, seen from the host. *)
Lemma with_store_Ok {A} path (m : CredM A) o a o' :
  with_store path m o = (Ok a, o') ->
  exists dir s, m {| os_disk := dir_view (hs_tree o) dir; os_tick := hs_tick o |} = (Ok a, s) /\
    hs_tree o' = write_back (hs_tree o) dir (os_disk s) /\
    exists p, locate (hs_tree o) path = Ok p /\ dir = default [] (parent p).
Proof.
  unfold with_store. destruct (locate (hs_tree o) path) as [p|] eqn:El; [|done].
  set (s0 := Build_Os _ _ _ _ _). destruct (m s0) as [r s] eqn:Em. intros [= -> <-].
  exists (default [] (parent p)), s. split_and!; [done|done|]. by exists p.
Qed.


(** C30: when [credential enrol] prints a token, the runtime files had passed
    their checks, and the Hub listener's verification accepts the token from
    that moment until it expires, as long as the store reloads; a failing read
    is the only other outcome. *)
Theorem printed_token_verifies `{Toml} `{!CredentialLaws} config_path label ttl_seconds now session mc line mc' :
  run_cli config_path (Credential (Enrol label ttl_seconds)) now session mc = (Ok (Some line), mc') ->
  exists c ttl id token, @Config.load (host_at (mc_host mc)) _ config_path = Ok c /\
    (exists o, hs_tree o = hs_tree (mc_host mc) /\ @validate_runtime_files (host_at o) c = Ok tt) /\
    seconds_to_ms ttl_seconds = Ok ttl /\ line = LIssued id token /\
    forall p b mode uid file now',
      let path := cfg_credential_store_path c in
      locate (hs_tree (mc_host mc')) path = Ok p -> hs_tree (mc_host mc') !! p = Some (HFile b mode uid) ->
      check_store b = Ok file -> now <= now' < i64_saturating_add now ttl ->
      let r := (with_store path (verify path token now') (mc_host mc')).1 in
      r = Ok true \/ r = Err CredIo.
Proof.
  intros Hrun. unfold run_cli in Hrun.
  destruct (bind_Ok _ _ _ (Some line) ltac:(by rewrite Hrun)) as (c & mc1 & Hc & E). rewrite E in Hrun. clear E.
  apply cli_host_Ok in Hc as [Hc _]. unfold consult in Hc. injection Hc as Hc Hmc1.
  destruct (bind_Ok _ _ _ (Some line) ltac:(by rewrite Hrun)) as ([] & mc2 & Hv & E). rewrite E in Hrun. clear E.
  apply cli_host_Ok in Hv as [Hv _]. unfold consult in Hv. injection Hv as Hv Hmc2.
  destruct (bind_Ok _ _ _ (Some line) ltac:(by rewrite Hrun)) as (line' & mc3 & Hm & E). rewrite E in Hrun. clear E.
  injection Hrun as -> <-. unfold manage_credential in Hm.
  destruct (bind_Ok _ _ _ line ltac:(by rewrite Hm)) as ([] & mc4 & _ & E). rewrite E in Hm. clear E.
  destruct (bind_Ok _ _ _ line ltac:(by rewrite Hm)) as (ttl & mc5 & Ht & E). rewrite E in Hm. clear E.
  unfold of_result in Ht. injection Ht as Ht ->.
  destruct (bind_Ok _ _ _ line ltac:(by rewrite Hm)) as (issued & mc6 & He & E). rewrite E in Hm. clear E.
  injection Hm as <- <-. apply cli_host_Ok in He as [He _].
  exists c, ttl, (ic_credential_id issued), (ic_token issued). split_and!; [done| |done..|].
  { exists (mc_host mc1). split; [by rewrite <-Hmc1|exact Hv]. }
  intros p b mode uid file now'. cbn zeta. remember (cfg_credential_store_path c) as path eqn:Epath.
  intros Hl Hp Hck Hnow.
  assert (Hsh : forall name, file_name path = Some name -> shaped (hs_tree (mc_host mc5)) (hs_tree (mc_host mc6))).
  { intros name Hn. pose proof (with_store_shaped path _ (mc_host mc5) name Hn (spares_enrol path label now ttl)) as Hx.
    by rewrite He in Hx. }
  apply with_store_Ok in He as (dir & s & He & Ht' & p' & Hl' & Hdir).
  destruct (enrol_named path label now ttl _ issued ltac:(by rewrite He)) as (name & Hn).
  destruct (locate_child _ _ _ _ Hn Hl') as (dir' & -> & Hpar). rewrite Hpar in Hdir. cbn in Hdir. subst dir'.
  rewrite (locate_shaped _ _ _ _ (Hsh name Hn) Hl') in Hl. injection Hl as <-.
  assert (Hb : os_disk s !! name = Some (File b)).
  { rewrite Ht', write_back_child in Hp. destruct (os_disk s !! name) as [node|]; [|done].
    injection Hp as Hp. by rewrite (written_file _ _ _ _ _ Hp). }
  assert (Hname : store_name path = name) by (unfold store_name; by rewrite Hn).
  pose proof (fun o' => enrolled_verifies_at path label now ttl _ issued b file now' o'
    ltac:(by rewrite He) ltac:(by rewrite He, Hname) Hck Hnow) as Hver. rewrite Hname in Hver.
  unfold with_store. rewrite (locate_shaped _ _ _ _ (Hsh name Hn) Hl'), Hpar. cbn [default].
  set (s0 := Build_Os _ _ _ _ _). specialize (Hver s0). destruct (verify _ _ _ s0) as [r s1]. cbn in *.
  apply Hver. by rewrite dir_view_lookup, Hp.
Qed.

End Facts.
