(* ===== verification/SpoolLatch.v ===== *)
(** * The write-failure latch

    After an atomic write has failed, the spool refuses every further write:
    until it is reopened it admits nothing, records no gap and commits no
    receipt, whatever is called. *)

From S2P Require Import Prelude Protocol Crypto Fs SpoolTypes SpoolFacts SpoolBase SpoolOps.
From S2P Require Import SpoolFrame SpoolInv SpoolSpec SpoolRefine SpoolRefineOps SpoolDelivery SpoolReceipts SpoolSystem SpoolErrors SpoolAdmit.

Create HintDb frozen discriminated.

(** [s'] tracks nothing that [s] did not track. *)
Definition shrinks (s s' : State) : Prop :=
  entries s' ⊆ entries s /\ gaps s' ⊆ gaps s /\ receipts s' ⊆ receipts s /\
  next_spool_sequence s' = next_spool_sequence s.

Definition latched (w : Inner) : Prop := in_storage_write_failed w = true.

(** From a latched spool, [m] keeps the latch and only shrinks the state. *)
Definition frozen {A} (m : SpoolM A) : Prop :=
  forall w, latched w -> latched (m w).2 /\ shrinks (in_state w) (in_state (m w).2).

#[global] Instance shrinks_preorder : PreOrder shrinks.
Proof.
  split; [intros s; by split_and!|]. intros s1 s2 s3 (?&?&?&?) (?&?&?&?).
  split_and!; [by etransitivity..|congruence].
Qed.

Section Frozen.
Context {X : SpoolEnv}.

Lemma frozen_bind {A B} (m : SpoolM A) (k : A -> SpoolM B) :
  frozen m -> (forall a, frozen (k a)) -> frozen (bind m k).
Proof.
  intros Hm Hk w Hl. destruct (Hm w Hl) as [Hl1 Hs1]. unfold bind.
  destruct (m w) as [[a|e] w1]; cbn in *; [|done]. destruct (Hk a w1 Hl1) as [? ?].
  split; [done|by etransitivity].
Qed.
Lemma frozen_catch {A} (m : SpoolM A) : frozen m -> frozen (catch m).
Proof. intros Hm w Hl. specialize (Hm w Hl). unfold catch. by destruct (m w). Qed.
Lemma frozen_pure {A} (f : Inner -> Result SpoolError A) : frozen (fun w => (f w, w)).
Proof. by intros w Hl. Qed.
Lemma frozen_ret {A} (a : A) : frozen (ret a).
Proof. by intros w Hl. Qed.
Lemma frozen_fail {A} e : frozen (fail (A:=A) e).
Proof. by intros w Hl. Qed.
Lemma frozen_throw_if b e : frozen (throw_if b e).
Proof. by intros w Hl. Qed.
Lemma frozen_ok_or {A} (o : option A) e : frozen (ok_or o e).
Proof. by intros w Hl. Qed.
Lemma frozen_of_result {A} (r : Result SpoolError A) : frozen (of_result r).
Proof. by intros w Hl. Qed.
Lemma frozen_get_state : frozen get_state.
Proof. by intros w Hl. Qed.
Lemma frozen_get_config : frozen get_config.
Proof. by intros w Hl. Qed.
Lemma frozen_storage_write_failed : frozen storage_write_failed.
Proof. by intros w Hl. Qed.
Lemma frozen_latch : frozen (modify (set_write_failed true)).
Proof. by intros w Hl. Qed.
Lemma frozen_lift {A} (m : OsM A) : frozen (lift m).
Proof. intros w Hl. unfold lift. by destruct (m (in_os w)). Qed.
Lemma frozen_update f : (forall s, shrinks s (f s)) -> frozen (update f).
Proof. intros Hf w Hl. split; [done|]. apply Hf. Qed.
Lemma frozen_when b (m : SpoolM unit) : frozen m -> frozen (when b m).
Proof. by destruct b; [|intros _; apply frozen_ret]. Qed.
Lemma frozen_fold_m {A T} (l : list A) (t : T) body :
  (forall t x, frozen (body t x)) -> frozen (fold_m l t body).
Proof.
  intros Hb. revert t; induction l as [|x l IH]; intros t; cbn; [apply frozen_ret|].
  by apply frozen_bind; [apply Hb|].
Qed.
Lemma frozen_for_each {A} (l : list A) body : (forall x, frozen (body x)) -> frozen (for_each l body).
Proof.
  intros Hb. induction l as [|x l IH]; cbn; [apply frozen_ret|]. by apply frozen_bind; [apply Hb|].
Qed.

(** A latched spool does not reach what follows a write. *)
Lemma write_new_latched p b w : latched w -> exists w', write_new p b w = (Err SpoolIo, w') /\
  latched w' /\ in_state w' = in_state w.
Proof.
  intros Hl. unfold write_new, temporary_path, lift, sys, draw_uuid. cbn.
  unfold write_atomic, storage_write_failed, throw_if, bind. cbn. rewrite Hl. by eexists.
Qed.
Lemma frozen_write_new {A} p b (k : unit -> SpoolM A) : frozen (bind (write_new p b) k).
Proof.
  intros w Hl. destruct (write_new_latched p b w Hl) as (w' & E & Hl' & Hs). unfold bind. rewrite E. cbn.
  by rewrite Hs.
Qed.
Lemma frozen_write_new_last p b : frozen (write_new p b).
Proof. intros w Hl. destruct (write_new_latched p b w Hl) as (w' & E & Hl' & Hs). rewrite E. cbn. by rewrite Hs. Qed.

Lemma frozen_assoc {A B C} (m : SpoolM A) (k : A -> SpoolM B) (h : B -> SpoolM C) :
  frozen (bind m (fun a => bind (k a) h)) -> frozen (bind (bind m k) h).
Proof. intros Hf w Hl. specialize (Hf w Hl). unfold bind in *. by destruct (m w) as [[]]. Qed.

End Frozen.

#[export] Hint Resolve frozen_catch frozen_pure frozen_ret frozen_fail frozen_throw_if frozen_ok_or frozen_of_result
  frozen_get_state frozen_get_config frozen_storage_write_failed frozen_latch frozen_lift frozen_write_new
  frozen_write_new_last : frozen.

Ltac frozen_tac :=
  repeat first
    [ progress intros
    | solve [eauto with frozen]
    | match goal with
      | |- frozen (bind (write_new _ _) _) => apply frozen_write_new
      | |- frozen (bind (bind _ _) _) => apply frozen_assoc
      | |- frozen (bind _ _) => apply frozen_bind
      | |- frozen (catch _) => apply frozen_catch
      | |- frozen (when _ _) => apply frozen_when
      | |- frozen (fold_m _ _ _) => apply frozen_fold_m
      | |- frozen (for_each _ _) => apply frozen_for_each
      | |- frozen (update _) => apply frozen_update; intros ?; split_and!; cbn; (done || apply delete_subseteq)
      end
    | case_match ].

Section Methods.
Context {X : SpoolEnv}.

Lemma frozen_encrypt_bytes p : frozen (encrypt_bytes p).
Proof. unfold encrypt_bytes. frozen_tac. Qed.
#[local] Hint Resolve frozen_encrypt_bytes : frozen.
Lemma frozen_persist_sequence_state a b c d : frozen (persist_sequence_state a b c d).
Proof. unfold persist_sequence_state. frozen_tac. Qed.
#[local] Hint Resolve frozen_persist_sequence_state : frozen.
Lemma frozen_persist_current_sequence : frozen persist_current_sequence.
Proof. unfold persist_current_sequence. frozen_tac. Qed.
#[local] Hint Resolve frozen_persist_current_sequence : frozen.
Lemma frozen_quarantine_file_bounded p : frozen (quarantine_file_bounded p).
Proof. unfold quarantine_file_bounded, ensure_quarantine_capacity. frozen_tac. Qed.
#[local] Hint Resolve frozen_quarantine_file_bounded : frozen.
Lemma frozen_read_entry e : frozen (read_entry e).
Proof. unfold read_entry, check_record_size, read_record, decrypt_bytes. frozen_tac. Qed.
#[local] Hint Resolve frozen_read_entry : frozen.
Lemma frozen_persist_gap_locked e t r : frozen (persist_gap_locked e t r).
Proof. unfold persist_gap_locked. frozen_tac. Qed.
#[local] Hint Resolve frozen_persist_gap_locked : frozen.
Lemma frozen_remove_admitted_record a : frozen (remove_admitted_record a).
Proof. unfold remove_admitted_record. frozen_tac. Qed.
#[local] Hint Resolve frozen_remove_admitted_record : frozen.
Lemma frozen_quarantine_runtime_entry e : frozen (quarantine_runtime_entry e).
Proof. unfold quarantine_runtime_entry, move_to_quarantine. frozen_tac. Qed.
#[local] Hint Resolve frozen_quarantine_runtime_entry : frozen.
Lemma frozen_expire_due now : frozen (expire_due now).
Proof. unfold expire_due, expire_entry. frozen_tac. Qed.
#[local] Hint Resolve frozen_expire_due : frozen.
Lemma frozen_enqueue envelope now : frozen (enqueue envelope now).
Proof. unfold enqueue, enqueue_locked. frozen_tac. Qed.
#[local] Hint Resolve frozen_enqueue : frozen.
Lemma frozen_build_v1_loop c l records body : frozen (build_v1_loop c l records body).
Proof. revert records body; induction l as [|e l IH]; intros; cbn [build_v1_loop]; frozen_tac. Qed.
#[local] Hint Resolve frozen_build_v1_loop : frozen.
Lemma frozen_build_batch : frozen build_batch.
Proof. unfold build_batch. frozen_tac. Qed.
#[local] Hint Resolve frozen_build_batch : frozen.
Lemma frozen_build_v2_loop c counted l records gaps body q : frozen (build_v2_loop c counted l records gaps body q).
Proof.
  revert records gaps body q; induction l as [|x l IH]; intros; cbn [build_v2_loop]; unfold resolve_candidate; frozen_tac.
Qed.
#[local] Hint Resolve frozen_build_v2_loop : frozen.
Lemma frozen_build_batch_v2_fuel n : frozen (build_batch_v2_fuel n).
Proof. induction n as [|n IH]; cbn [build_batch_v2_fuel]; unfold build_v2_pass; frozen_tac. Qed.
#[local] Hint Resolve frozen_build_batch_v2_fuel : frozen.
Lemma frozen_build_batch_v2 : frozen build_batch_v2.
Proof. unfold build_batch_v2. frozen_tac. Qed.
#[local] Hint Resolve frozen_build_batch_v2 : frozen.
Lemma frozen_complete_receipt r : frozen (complete_receipt r).
Proof. unfold complete_receipt, complete_gap, remove_expired_gap_backing. frozen_tac. Qed.
#[local] Hint Resolve frozen_complete_receipt : frozen.
Lemma frozen_commit_receipt r : frozen (commit_receipt r).
Proof. unfold commit_receipt, record_receipt. frozen_tac. Qed.
#[local] Hint Resolve frozen_commit_receipt : frozen.
Lemma frozen_acknowledge ack : frozen (acknowledge ack).
Proof. unfold acknowledge, take_receipt_sequence. frozen_tac. Qed.
Lemma frozen_acknowledge_v2 ack : frozen (acknowledge_v2 ack).
Proof. unfold acknowledge_v2, take_receipt_sequence. frozen_tac. Qed.

Lemma frozen_exec cmd w : latched w -> latched (exec cmd w) /\ shrinks (in_state w) (in_state (exec cmd w)).
Proof.
  intros Hl. destruct cmd; cbn [exec].
  - by apply frozen_enqueue.
  - by apply frozen_expire_due.
  - apply (frozen_bind (expire_due now_ms)); [apply frozen_expire_due|frozen_tac|done].
  - apply (frozen_bind (expire_due now_ms)); [apply frozen_expire_due|frozen_tac|done].
  - by apply frozen_acknowledge.
  - by apply frozen_acknowledge_v2.
  - revert w Hl. change (frozen sync). unfold sync. frozen_tac.
Qed.

Lemma frozen_run cmds w : latched w -> latched (run cmds w) /\ shrinks (in_state w) (in_state (run cmds w)).
Proof.
  revert w. induction cmds as [|cmd cmds IH]; intros w Hl; [by split|].
  destruct (frozen_exec cmd w Hl) as [Hl1 Hs1]. destruct (IH (exec cmd w) Hl1) as [? ?].
  split; [done|by etransitivity].
Qed.

(** Whatever stops an atomic write, in any of its steps, latches. *)
Lemma write_atomic_latches temporary destination b w e w1 :
  write_atomic temporary destination b w = (Err e, w1) -> latched w1.
Proof.
  unfold write_atomic, latched, bind, storage_write_failed, throw_if, catch, modify. cbn.
  destruct (in_storage_write_failed w) eqn:El; [by intros [= _ <-]|].
  destruct (lift _ w) as [[[]|e'] w']; [done|]. by intros [= _ <-].
Qed.

Context {SL : SpoolLaws}.

(** An atomic write failed and left the spool as [w']: the write itself, or an
    admission that was answered with an I/O error or a full disk. *)
Definition write_failed (w w' : Inner) : Prop :=
  (exists temporary destination b e, write_atomic temporary destination b w = (Err e, w')) \/
  (exists envelope now e, wf w /\ in_i64 now /\ validate envelope = Ok tt /\
     enqueue envelope now w = (Err e, w') /\ io_error e).

Lemma write_failed_latched w w' : write_failed w w' -> latched w'.
Proof.
  intros [(t & p & b & e & H)|(envelope & now & e & Hwf & Hn & Hv & He & Hio)]; [by eapply write_atomic_latches|].
  destruct (enqueue_ok envelope now w Hwf Hn) as [_ Hout]. rewrite He in Hout. cbn in Hout.
  destruct Hout as [Hr|(_ & _ & _ & Hl)]; [|by apply Hl].
  destruct Hr as [| | | | | |? ? ? _ _ [->|[-> _]]|]; try done; by destruct Hio.
Qed.

(** C19: from the moment an atomic write failed, whichever of its steps it was
    -- creating, writing, syncing or renaming the file -- the spool is closed
    for writing until it is reopened: whatever is called, the latch stays set,
    no record is admitted, no gap notice and no receipt is added, the sequence
    does not advance, and every further event is refused without a trace. *)
Theorem write_failure_latches w w' cmds :
  write_failed w w' ->
  in_storage_write_failed (run cmds w') = true /\ shrinks (in_state w') (in_state (run cmds w')) /\
  forall envelope now, is_err (enqueue envelope now (run cmds w')).1 = true /\
    (enqueue envelope now (run cmds w')).2 = run cmds w'.
Proof.
  intros Hf%write_failed_latched. destruct (frozen_run cmds w' Hf) as [Hl Hs]. split_and!; [done..|].
  intros envelope now. by apply enqueue_refused_latched.
Qed.

End Methods.
