(* ===== verification/Sample.v ===== *)
(** * A concrete instance

    Executable stand-ins for the third-party code, small enough to evaluate,
    that satisfy every law the theorems assume: an encoder through
    trees, a cipher that appends a 16-byte tag, a digest that keeps a
    window of its input, and a storage without faults.  They show that the
    assumptions can hold together, and carry the witnesses. *)

From S2P Require Import Prelude Protocol Crypto Fs SpoolTypes SpoolFacts SpoolBase SpoolOps SpoolInv SpoolSpec.
From S2P Require Import SpoolDisk SpoolScan.

(** ** Trees of the stored structures *)

Abbreviation Tree := (gen_tree (Z + str)).
Definition tz (z : Z) : Tree := GenLeaf (inl z).
Definition ts (s : str) : Tree := GenLeaf (inr s).
Definition tl {A} (f : A -> Tree) (l : list A) : Tree := GenNode 0 (map f l).
Definition topt {A} (f : A -> Tree) (o : option A) : Tree :=
  GenNode 0 (match o with Some a => [f a] | None => [] end).
Definition tid (r : RecordId) : Tree := ts (as_str r).
Definition uz (t : Tree) : Z := match t with GenLeaf (inl z) => z | _ => 0 end.
Definition us (t : Tree) : str := match t with GenLeaf (inr s) => s | _ => [] end.
Definition uid (t : Tree) : RecordId := RecordIdOf (us t).
Definition ul {A} (f : Tree -> A) (t : Tree) : list A := match t with GenNode _ l => map f l | _ => [] end.
Definition uopt {A} (f : Tree -> A) (t : Tree) : option A :=
  match t with GenNode _ [a] => Some (f a) | _ => None end.

Lemma uid_tid r : uid (tid r) = r.
Proof. by destruct r. Qed.
Lemma ul_tl {A} (f : A -> Tree) g (l : list A) : (forall a, g (f a) = a) -> ul g (tl f l) = l.
Proof. intros H. cbn. rewrite map_map. induction l; cbn; congruence. Qed.
Lemma uopt_topt {A} (f : A -> Tree) g (o : option A) : (forall a, g (f a) = a) -> uopt g (topt f o) = o.
Proof. intros H. destruct o; cbn; congruence. Qed.

Definition number_tree (n : Number) : Tree :=
  match n with PosInt z => GenNode 0 [tz z] | NegInt z => GenNode 1 [tz z] | Float z => GenNode 2 [tz z] end.
Definition tree_number (t : Tree) : Number :=
  match t with
  | GenNode 0 [t'] => PosInt (uz t')
  | GenNode 1 [t'] => NegInt (uz t')
  | GenNode _ [t'] => Float (uz t')
  | _ => PosInt 0
  end.

Fixpoint value_tree (v : Value) : Tree :=
  match v with
  | VNull => GenNode 0 []
  | VBool b => GenNode 1 [tz (if b then 1 else 0)]
  | VNumber n => GenNode 2 [number_tree n]
  | VString s => GenNode 3 [ts s]
  | VArray items => GenNode 4 (map value_tree items)
  | VObject members => GenNode 5 (map (fun '(k, v) => GenNode 6 [ts k; value_tree v]) members)
  end.
Fixpoint tree_value (t : Tree) : Value :=
  match t with
  | GenNode 1 [t'] => VBool (uz t' =? 1)
  | GenNode 2 [t'] => VNumber (tree_number t')
  | GenNode 3 [t'] => VString (us t')
  | GenNode 4 l => VArray (map tree_value l)
  | GenNode 5 l => VObject (map (fun t => match t with
                                         | GenNode _ [k; t'] => (us k, tree_value t')
                                         | _ => ([], VNull)
                                         end) l)
  | _ => VNull
  end.

Section ValueInd.
Context (P : Value -> Prop).
Context (Hnull : P VNull) (Hbool : forall b, P (VBool b)) (Hnum : forall n, P (VNumber n))
  (Hstr : forall s, P (VString s)) (Harr : forall items, Forall P items -> P (VArray items))
  (Hobj : forall members, Forall (fun m => P m.2) members -> P (VObject members)).
Fixpoint Value_nested_ind (v : Value) : P v :=
  match v with
  | VNull => Hnull
  | VBool b => Hbool b
  | VNumber n => Hnum n
  | VString s => Hstr s
  | VArray items => Harr items
      ((fix go l : Forall P l :=
          match l with
          | [] => List.Forall_nil _
          | x :: l' => List.Forall_cons _ x l' (Value_nested_ind x) (go l')
          end) items)
  | VObject members => Hobj members
      ((fix go l : Forall (fun m => P m.2) l :=
          match l with
          | [] => List.Forall_nil _
          | m :: l' => List.Forall_cons _ m l' (Value_nested_ind m.2) (go l')
          end) members)
  end.
End ValueInd.

Lemma tree_value_tree v : tree_value (value_tree v) = v.
Proof.
  induction v as [|[]|[]| |items IH|members IH] using Value_nested_ind; cbn; try done; f_equal; rewrite map_map.
  - induction IH as [|v items Hv _ IHl]; cbn; [done|]. by rewrite Hv, IHl.
  - induction IH as [|[k v] members Hv _ IHl]; cbn in *; [done|]. by rewrite Hv, IHl.
Qed.

(** A structure read back from its tree is equal to it. *)
Lemma tree_eq_dec {A} (f : A -> Tree) g : (forall a, g (f a) = a) -> EqDecision A.
Proof.
  intros H a b. destruct (decide (f a = f b)) as [E|E]; [left|right; congruence].
  by rewrite <-(H a), E, H.
Defined.

Definition envelope_tree (e : ReceiverEnvelope) : Tree :=
  GenNode 0 [tz (env_version e); ts (env_vin e); ts (env_txid e); ts (env_tx_type e); tz (env_received_at_ms e);
    tz (env_timestamp_ms e); value_tree (env_payload e); topt ts (env_device_client_version e);
    topt ts (env_firmware_version e)].
Definition tree_envelope (t : Tree) : ReceiverEnvelope :=
  match t with
  | GenNode _ [a; b; c; d; e; f; g; h; i] => {| env_version := uz a; env_vin := us b; env_txid := us c;
      env_tx_type := us d; env_received_at_ms := uz e; env_timestamp_ms := uz f; env_payload := tree_value g;
      env_device_client_version := uopt us h; env_firmware_version := uopt us i |}
  | _ => {| env_version := 0; env_vin := []; env_txid := []; env_tx_type := []; env_received_at_ms := 0;
      env_timestamp_ms := 0; env_payload := VNull; env_device_client_version := None; env_firmware_version := None |}
  end.
Lemma tree_envelope_tree e : tree_envelope (envelope_tree e) = e.
Proof. destruct e. cbn -[uopt topt]. by rewrite tree_value_tree, !uopt_topt. Qed.

Definition stored_tree (s : StoredRecord) : Tree :=
  GenNode 0 [tz (sr_version s); tid (sr_record_id s); topt tid (sr_stable_record_id s); topt tz (sr_spool_seq s);
    tz (sr_admitted_at_ms s); tz (sr_expires_at_ms s); envelope_tree (sr_envelope s)].
Definition tree_stored (t : Tree) : StoredRecord :=
  let l := ul id t in
  let at_ n := nth n l (tz 0) in
  {| sr_version := uz (at_ 0%nat); sr_record_id := uid (at_ 1%nat); sr_stable_record_id := uopt uid (at_ 2%nat);
     sr_spool_seq := uopt uz (at_ 3%nat); sr_admitted_at_ms := uz (at_ 4%nat); sr_expires_at_ms := uz (at_ 5%nat);
     sr_envelope := tree_envelope (at_ 6%nat) |}.
Lemma tree_stored_tree s : tree_stored (stored_tree s) = s.
Proof.
  destruct s. unfold tree_stored, stored_tree. cbn -[uopt topt uid tid tree_envelope envelope_tree].
  by rewrite uid_tid, !uopt_topt, tree_envelope_tree by (done || apply uid_tid).
Qed.

Definition reason_tree (r : GapReasonV2) : Tree :=
  tz (match r with RetentionExpired => 0 | IntegrityQuarantine => 1 end).
Definition tree_reason (t : Tree) : GapReasonV2 := if uz t =? 0 then RetentionExpired else IntegrityQuarantine.
Definition gap_tree (g : GapNoticeV2) : Tree :=
  GenNode 0 [tid (gn_notice_id g); tz (gn_spool_seq g); tz (gn_occurred_at_ms g); reason_tree (gn_reason g);
    ts (gn_evidence_sha256 g)].
Definition tree_gap (t : Tree) : GapNoticeV2 :=
  let l := ul id t in
  let at_ n := nth n l (tz 0) in
  {| gn_notice_id := uid (at_ 0%nat); gn_spool_seq := uz (at_ 1%nat); gn_occurred_at_ms := uz (at_ 2%nat);
     gn_reason := tree_reason (at_ 3%nat); gn_evidence_sha256 := us (at_ 4%nat) |}.
Lemma tree_gap_tree g : tree_gap (gap_tree g) = g.
Proof. by destruct g as [[] ? ? [] ?]. Qed.

Definition admission_tree (a : ReceiptAdmission) : Tree :=
  GenNode 0 [tz (ra_spool_seq a); tid (ra_stable_record_id a); tid (ra_legacy_record_id a)].
Definition tree_admission (t : Tree) : ReceiptAdmission :=
  let l := ul id t in
  let at_ n := nth n l (tz 0) in
  {| ra_spool_seq := uz (at_ 0%nat); ra_stable_record_id := uid (at_ 1%nat); ra_legacy_record_id := uid (at_ 2%nat) |}.
Lemma tree_admission_tree a : tree_admission (admission_tree a) = a.
Proof. by destruct a as [? [] []]. Qed.

Definition receipt_tree (r : AckReceipt) : Tree :=
  GenNode 0 [tz (ar_version r); tz (ar_sequence r); ts (ar_batch_id r); tl tid (ar_accepted_record_ids r);
    tl tid (ar_accepted_stable_record_ids r); tl tid (ar_accepted_gap_notice_ids r);
    tl admission_tree (ar_accepted_admissions r)].
Definition tree_receipt (t : Tree) : AckReceipt :=
  let l := ul id t in
  let at_ n := nth n l (tz 0) in
  {| ar_version := uz (at_ 0%nat); ar_sequence := uz (at_ 1%nat); ar_batch_id := us (at_ 2%nat);
     ar_accepted_record_ids := ul uid (at_ 3%nat); ar_accepted_stable_record_ids := ul uid (at_ 4%nat);
     ar_accepted_gap_notice_ids := ul uid (at_ 5%nat); ar_accepted_admissions := ul tree_admission (at_ 6%nat) |}.
Lemma tree_receipt_tree r : tree_receipt (receipt_tree r) = r.
Proof.
  destruct r. unfold tree_receipt, receipt_tree. cbv zeta. cbn [ul map id nth].
  by rewrite !ul_tl by (apply uid_tid || apply tree_admission_tree).
Qed.

(** Batch records are only written, for their size. *)
Definition batch_record_v1_tree (r : HubBatchRecordV1) : Tree :=
  GenNode 0 [tid (br1_record_id r); tz (br1_received_at_ms r); envelope_tree (br1_envelope r)].
Definition batch_record_v2_tree (r : HubBatchRecordV2) : Tree :=
  GenNode 0 [tid (br2_record_id r); tid (br2_legacy_record_id r); tz (br2_spool_seq r); tz (br2_received_at_ms r);
    envelope_tree (br2_envelope r)].
Definition sequence_tree (s : SequenceState) : Tree :=
  GenNode 0 [tz (sq_version s); tz (sq_next_spool_sequence s); tz (sq_expired_records_total s);
    tl (fun p => GenNode 0 [tz p.1; tid p.2]) (map_to_list (sq_counted_pending_expirations s));
    tz (if sq_v1_ack_history_pruned s then 1 else 0)].
Definition tree_sequence (t : Tree) : SequenceState :=
  let l := ul id t in
  let at_ n := nth n l (tz 0) in
  {| sq_version := uz (at_ 0%nat); sq_next_spool_sequence := uz (at_ 1%nat); sq_expired_records_total := uz (at_ 2%nat);
     sq_counted_pending_expirations := list_to_map (ul (fun p => match p with
       | GenNode _ [a; b] => (uz a, uid b) | _ => (0, RecordIdOf []) end) (at_ 3%nat));
     sq_v1_ack_history_pruned := uz (at_ 4%nat) =? 1 |}.
Lemma tree_sequence_tree s : tree_sequence (sequence_tree s) = s.
Proof.
  destruct s as [a b c counted pruned]. unfold tree_sequence, sequence_tree. cbv zeta. cbn [ul map id nth].
  rewrite ul_tl by (intros [z [r]]; done). cbn. rewrite list_to_map_to_list. by destruct pruned.
Qed.

(** ** Encoding through positives *)

Fixpoint bits_of (p : positive) : bytes :=
  match p with
  | xH => []
  | xO p' => x30 :: bits_of p'
  | xI p' => x31 :: bits_of p'
  end.
Fixpoint of_bits (b : bytes) : positive :=
  match b with
  | [] => xH
  | c :: b' => if byte_eq_dec c x30 then xO (of_bits b') else xI (of_bits b')
  end.
Lemma of_bits_of p : of_bits (bits_of p) = p.
Proof. induction p; cbn; congruence. Qed.

(** Values outside [good] are neither written nor read. *)
Definition tree_serde {A} (f : A -> Tree) (g : Tree -> option A) (good : A -> bool) : Serde A := {|
  to_vec a := if good a then Some (bits_of (encode (f a))) else None;
  from_slice b := (decode (A:=Tree) (of_bits b) ≫= g) ≫= (fun a => if good a then Some a else None);
|}.
Lemma tree_serde_laws {A} (f : A -> Tree) g good : (forall a, g (f a) = Some a) -> @SerdeLaws A (tree_serde f g good).
Proof.
  intros H. split. intros a b. cbn. destruct (good a) eqn:E; [|done]. intros [= <-].
  rewrite of_bits_of, decode_encode. cbn. rewrite H. cbn. by rewrite E.
Qed.
Lemma tree_serde_good {A} (f : A -> Tree) g good b a : @from_slice A (tree_serde f g good) b = Some a -> good a = true.
Proof.
  cbn [from_slice tree_serde]. intros (a' & _ & Hg)%bind_Some. destruct (good a') eqn:Eg; [|done]. by injection Hg as <-.
Qed.

Definition good_u64 (z : Z) : bool := (0 <=? z) && (z <=? U64_MAX).
Lemma good_u64_true z : good_u64 z = true <-> in_u64 z.
Proof. unfold good_u64, in_u64. rewrite andb_true_iff, !Z.leb_le. done. Qed.
Definition good_sequence (q : SequenceState) : bool :=
  good_u64 (sq_next_spool_sequence q) && forallb (fun kv => good_u64 kv.1) (map_to_list (sq_counted_pending_expirations q)).
Lemma good_sequence_true q : good_sequence q = true <->
  in_u64 (sq_next_spool_sequence q) /\ forall k id, sq_counted_pending_expirations q !! k = Some id -> in_u64 k.
Proof.
  unfold good_sequence. rewrite andb_true_iff, good_u64_true, forallb_forall. split; intros [Hn Hk]; (split; [done|]).
  - intros k id Hid. apply good_u64_true, (Hk (k, id)). by apply list_elem_of_In, elem_of_map_to_list.
  - intros [k id] Hin. apply good_u64_true, (Hk k id). by apply elem_of_map_to_list, list_elem_of_In.
Qed.

(** ** Digest, canonical JSON, cipher, storage *)

(** A window of the input and a checksum of all of it. *)
Definition pad31 (b : bytes) : bytes := take 31 (b ++ replicate 31 x00).
Definition byte_sum (b : bytes) : Z := foldr (fun x acc => byteZ x + acc) 0 b.
#[global] Program Instance window_sha256 : Sha256 := {| sha256 b := pad31 (drop 29 b) ++ [Zbyte (byte_sum b)] |}.
Next Obligation. intros b. unfold pad31. rewrite length_app, length_take, length_app, length_replicate. cbn [length]. lia. Qed.

#[global] Instance txid_jcs : Jcs := {|
  jcs_envelope e := replicate 4 x00 ++ env_txid e;
  jcs_identity i := replicate 4 x00 ++ [x73] ++ sid_txid i;
|}.

#[global] Instance tag_aead : Aead := {|
  aead_encrypt key nonce aad msg := Some (msg ++ replicate 16 x00);
  aead_decrypt key nonce aad msg := Some (take (length msg - 16) msg);
|}.
#[global] Instance tag_aead_laws : AeadLaws.
Proof.
  split.
  - intros key nonce aad msg c [= <-]. cbn. f_equal. rewrite length_app. cbn [length]. rewrite Nat.add_sub.
    by rewrite take_app_length.
  - intros key nonce aad msg c [= <-]. by rewrite length_app.
Qed.

Definition storage (faults : nat -> option Z) : Oracle.
Proof.
  refine {| fault := faults; torn := fun _ => 0%nat; random_bytes := fun _ n => replicate n x00;
            new_uuid := fun t => dec_digits 6 (Z.of_nat t); dir_order := fun _ l => l;
            lock_taken := fun _ => false |}.
  - intros t n. apply length_replicate.
  - done.
Defined.

Definition sample_env (faults : nat -> option Z) : SpoolEnv := {|
  spool_sha256 := window_sha256;
  spool_jcs := txid_jcs;
  spool_aead := tag_aead;
  spool_oracle := storage faults;
  spool_serde_batch_v1 := tree_serde batch_record_v1_tree (fun _ => None) (fun _ => true);
  spool_serde_batch_v2 := tree_serde batch_record_v2_tree (fun _ => None) (fun _ => true);
  spool_serde_gap := tree_serde gap_tree (fun t => Some (tree_gap t)) (fun g => good_u64 (gn_spool_seq g));
  spool_serde_stored := tree_serde stored_tree (fun t => Some (tree_stored t))
    (fun st => match sr_spool_seq st with Some seq => good_u64 seq | None => true end);
  spool_serde_sequence := tree_serde sequence_tree (fun t => Some (tree_sequence t)) good_sequence;
  spool_serde_receipt := tree_serde receipt_tree (fun t => Some (tree_receipt t)) (fun r => good_u64 (ar_sequence r));
|}.

Lemma byte_sum_app a b : byte_sum (a ++ b) = byte_sum a + byte_sum b.
Proof. unfold byte_sum. induction a as [|x a IH]; cbn; [done|]. rewrite IH. lia. Qed.

Lemma length_pad31 b : length (pad31 b) = 31%nat.
Proof. unfold pad31. rewrite length_take, length_app, length_replicate. lia. Qed.

Lemma from_sha256_window_inj a b :
  from_sha256 (sha256 a) = from_sha256 (sha256 b) ->
  pad31 (drop 29 a) = pad31 (drop 29 b) /\ byte_sum a mod 256 = byte_sum b mod 256.
Proof.
  intros E. apply (f_equal as_str), hex_encode_inj in E. cbn in E.
  apply app_inj_1 in E as [Ew Es]; [|by rewrite !length_pad31]. split; [done|].
  injection Es as Es. apply (f_equal byteZ) in Es. by rewrite !byteZ_Zbyte in Es.
Qed.

Lemma window_notice seq reason ev :
  in_u64 seq ->
  take 9 (pad31 (drop 29 (lit "teslatlas-edge-gap-notice-v2" ++ NUL ++ to_be_bytes seq ++ reason_label reason ++ ev)))
  = to_be_bytes seq ++ [match reason with RetentionExpired => x72 | IntegrityQuarantine => x69 end].
Proof. intros _. by destruct reason. Qed.

Lemma pad31_cons x a b : pad31 a = pad31 b -> pad31 (x :: a) = pad31 (x :: b).
Proof.
  unfold pad31. intros E. apply (f_equal (take 30)) in E. rewrite !take_take in E. cbn. f_equal. exact E.
Qed.

(** Two equal records have equal stable identities. *)
Lemma window_refines a b :
  from_sha256 (sha256 (lit "teslatlas-edge-record-v1" ++ NUL ++ replicate 4 x00 ++ a))
  = from_sha256 (sha256 (lit "teslatlas-edge-record-v1" ++ NUL ++ replicate 4 x00 ++ b)) ->
  sha256 (lit "teslatlas-edge-record-v2" ++ NUL ++ replicate 4 x00 ++ [x73] ++ a)
  = sha256 (lit "teslatlas-edge-record-v2" ++ NUL ++ replicate 4 x00 ++ [x73] ++ b).
Proof.
  intros [Ew Es]%from_sha256_window_inj. cbn [sha256 window_sha256]. apply f_equal2.
  - exact (pad31_cons x73 _ _ Ew).
  - apply (f_equal (fun x => [x])), byteZ_inj. rewrite !byteZ_Zbyte. repeat rewrite byte_sum_app in Es; repeat rewrite byte_sum_app.
    set (u := byte_sum a) in *. set (v := byte_sum b) in *. clearbody u v. clear Ew.
    vm_compute (byte_sum (lit _)) in Es |- *. vm_compute (byte_sum NUL) in Es |- *.
    vm_compute (byte_sum (replicate _ _)) in Es |- *. vm_compute (byte_sum [x73]).
    Z.to_euclidean_division_equations. lia.
Qed.

#[global] Instance sample_ids : IdLaws.
Proof.
  split.
  - intros e e' E. unfold stable_record_id. f_equal. apply window_refines. exact E.
  - intros seq seq' reason reason' ev ev' Hs Hs' [E _]%from_sha256_window_inj.
    apply (f_equal (take 9)) in E. rewrite !window_notice in E by done.
    apply app_inj_1 in E as [E1 E2]; [|done]. split; [by apply to_be_bytes_inj|].
    destruct reason, reason'; done.
Qed.

#[global] Instance sample_laws faults : @SpoolLaws (sample_env faults).
Proof.
  split; [exact tag_aead_laws|exact sample_ids|apply tree_serde_laws..];
    intros a; f_equal; [apply tree_stored_tree|apply tree_gap_tree|apply tree_receipt_tree|apply tree_sequence_tree].
Qed.

#[global] Instance sample_widths faults : @WidthLaws (sample_env faults).
Proof.
  split.
  - intros b g Hg. apply good_u64_true. exact (tree_serde_good gap_tree _ _ b g Hg).
  - intros b st seq Hst Hseq. pose proof (tree_serde_good stored_tree _ _ b _ Hst) as Hg. cbn beta in Hg.
    rewrite Hseq in Hg. by apply good_u64_true.
  - intros b r Hr. apply good_u64_true. exact (tree_serde_good receipt_tree _ _ b r Hr).
  - intros b q Hq. apply good_sequence_true. exact (tree_serde_good sequence_tree _ _ b q Hq).
Qed.

#[global] Instance sample_seals faults : @SealLaws (sample_env faults).
Proof.
  split. intros key nonce q Hn Hk. pose proof (proj2 (good_sequence_true q) (conj Hn Hk)) as Hg.
  eexists _, _. split; [cbn; by rewrite Hg|done].
Qed.

(** ** A small spool *)

Definition sample_config : SpoolConfig := {|
  max_bytes := 1000000;
  max_records := 10;
  retention_ms := 60000;
  batch_max_bytes := 100000;
  batch_max_records := 5;
|}.
Lemma sample_config_wf : wf_config sample_config.
Proof. split; unfold U64_MAX, I64_MAX; cbn; lia. Qed.

Definition sample_key : bytes := replicate 32 x07.
Definition empty_spool : Inner := {|
  in_config := sample_config;
  in_key := sample_key;
  in_state := default_state;
  in_storage_write_failed := false;
  in_os := {| os_disk := ∅; os_tick := 0 |};
|}.

Definition sample_now : Z := 1700000001000.
Definition sample_envelope (txid : str) : ReceiverEnvelope := {|
  env_version := 1;
  env_vin := lit "5YJ3E1EA7KF000001";
  env_txid := txid;
  env_tx_type := lit "V";
  env_received_at_ms := 1700000000000;
  env_timestamp_ms := 1700000000000;
  env_payload := VObject [];
  env_device_client_version := None;
  env_firmware_version := None;
|}.
Definition event_a : ReceiverEnvelope := sample_envelope (lit "a").
Definition event_b : ReceiverEnvelope := sample_envelope (lit "b").

(** No faults, and a fault at every call from tick [n] on. *)
Definition no_faults : nat -> option Z := fun _ => None.
Definition faults_from (n : nat) : nat -> option Z := fun t => if (n <=? t)%nat then Some 5 else None.

Lemma empty_spool_wf {X : SpoolEnv} : wf empty_spool.
Proof. split; [apply sample_config_wf|]. apply wf_default, sample_config_wf. Qed.
