(* ===== verification/SampleEdge.v ===== *)
(** * A concrete service

    Executable stand-ins for TOML, JSON, base64, UUID text and the host's file
    metadata, and a small credential store, configuration and service built on
    [Sample]. *)

From S2P Require Import Prelude Protocol Crypto Fs SpoolTypes SpoolBase SpoolOps SpoolInv SpoolSpec.
From S2P Require Import Config Credentials CredentialFacts Metrics Admission Delivery Sample.

(** ** Credentials *)

Definition uuid_tree (u : Uuid) : Tree := ts (uuid_bytes u).
Definition tree_uuid (t : Tree) : Uuid := UuidOf (us t).
Lemma tree_uuid_tree u : tree_uuid (uuid_tree u) = u.
Proof. by destruct u. Qed.

Definition credential_tree (c : StoredCredential) : Tree :=
  GenNode 0 [uuid_tree (sc_id c); ts (sc_label c); ts (sc_secret_digest c); tz (sc_created_at_ms c);
    tz (sc_expires_at_ms c); topt tz (sc_valid_until_ms c); topt tz (sc_revoked_at_ms c);
    topt uuid_tree (sc_rotation_of c)].
Definition tree_credential (t : Tree) : StoredCredential :=
  let l := ul id t in
  let at_ n := nth n l (tz 0) in
  {| sc_id := tree_uuid (at_ 0%nat); sc_label := us (at_ 1%nat); sc_secret_digest := us (at_ 2%nat);
     sc_created_at_ms := uz (at_ 3%nat); sc_expires_at_ms := uz (at_ 4%nat);
     sc_valid_until_ms := uopt uz (at_ 5%nat); sc_revoked_at_ms := uopt uz (at_ 6%nat);
     sc_rotation_of := uopt tree_uuid (at_ 7%nat) |}.
Lemma tree_credential_tree c : tree_credential (credential_tree c) = c.
Proof.
  destruct c. unfold tree_credential, credential_tree. cbv zeta. cbn [ul map id nth].
  by rewrite tree_uuid_tree, !uopt_topt by (done || apply tree_uuid_tree).
Qed.

Definition store_tree (f : CredentialFile) : Tree :=
  GenNode 0 [tz (cf_version f); tl credential_tree (cf_credentials f)].
Definition tree_store (t : Tree) : CredentialFile :=
  let l := ul id t in
  {| cf_version := uz (nth 0%nat l (tz 0)); cf_credentials := ul tree_credential (nth 1%nat l (tz 0)) |}.
Lemma tree_store_tree f : tree_store (store_tree f) = f.
Proof.
  destruct f. unfold tree_store, store_tree. cbv zeta. cbn [ul map id nth].
  by rewrite ul_tl by apply tree_credential_tree.
Qed.

Definition sample_credentials_env (faults : nat -> option Z) : CredentialEnv := {|
  cred_sha256 := window_sha256;
  cred_oracle := storage faults;
  cred_serde := tree_serde store_tree (fun t => Some (tree_store t)) (fun _ => true);
  base64_encode := hex_encode;
  base64_decode s := Some (hex_decode s);
  uuid_to_string u := hex_encode (uuid_bytes u);
  uuid_parse_str s := Some (UuidOf (hex_decode s));
  lock_inode_ok _ := true;
|}.

Lemma hex_no_dot b : DOT ∉ hex_encode b.
Proof. apply (not_elem_of_forallb is_lower_hex); [apply hex_encode_lower_hex|done]. Qed.

#[global] Instance sample_credentials_laws faults : @CredentialLaws (sample_credentials_env faults).
Proof.
  split.
  - apply tree_serde_laws. intros f. f_equal. apply tree_store_tree.
  - intros b. cbn. by rewrite hex_decode_encode.
  - apply hex_no_dot.
  - intros [u]. cbn. by rewrite hex_decode_encode.
  - intros u. apply hex_no_dot.
Qed.

Definition store_path : Path := [RootDir; Normal (lit "credentials.json")].

(** One credential, with its identifier, secret and token. *)
Definition hub_id : Uuid := UuidOf (replicate 16 x01).
Definition hub_secret : bytes := replicate 32 x02.
Definition hub_token : str := lit "tte1." ++ hex_encode (uuid_bytes hub_id) ++ [DOT] ++ hex_encode hub_secret.
Definition hub_credential (revoked : option Z) : StoredCredential := {|
  sc_id := hub_id;
  sc_label := lit "hub";
  sc_secret_digest := @digest_secret (sample_credentials_env no_faults) hub_id hub_secret;
  sc_created_at_ms := sample_now - 1000;
  sc_expires_at_ms := sample_now + 1000000;
  sc_valid_until_ms := None;
  sc_revoked_at_ms := revoked;
  sc_rotation_of := None;
|}.
Definition hub_store (revoked : option Z) : CredentialFile :=
  {| cf_version := 1; cf_credentials := [hub_credential revoked] |}.
Definition store_disk (revoked : option Z) : Os str := {|
  os_disk := {[ lit "credentials.json" := File (bits_of (encode (store_tree (hub_store revoked)))) ]};
  os_tick := 0;
|}.

(** ** Configuration *)

Definition at_etc (name : String.string) : Path := [RootDir; Normal (lit "etc"); Normal (lit name)].
Definition sample_edge_config : EdgeConfig := {|
  cfg_version := 1;
  cfg_state_directory := [RootDir; Normal (lit "var")];
  cfg_receiver_bind := {| sa_ip := V4 127 0 0 1; sa_port := 8441 |};
  cfg_hub_bind := {| sa_ip := V4 10 0 0 5; sa_port := 8443 |};
  cfg_allow_local_source_run_hub_loopback := false;
  cfg_receiver_bearer_path := at_etc "bearer";
  cfg_spool_key_path := at_etc "key";
  cfg_credential_store_path := at_etc "credentials";
  cfg_hub_server_certificate_path := at_etc "cert";
  cfg_hub_server_private_key_path := at_etc "private";
  cfg_hub_client_ca_path := at_etc "ca";
  cfg_spool := {| sl_max_bytes := 536870912; sl_max_records := 100000; sl_retention_seconds := 604800;
                  sl_batch_max_bytes := 1048576; sl_batch_max_records := 256 |};
|}.
Definition sample_toml : Toml := {| toml_from_str _ := Some sample_edge_config |}.

(** Every path is a private regular file below directories. *)
Definition sample_host : Host := {|
  symlink_metadata _ := Ok {| md_kind := KDirectory; md_len := 0; md_uid := 0; md_mode := 448 |};
  host_metadata _ := Ok {| md_kind := KRegular; md_len := 32; md_uid := 0; md_mode := 384 |};
  host_read _ := Err NotFound;
|}.

(** ** The service *)

(** A reader that answers every body with one document. *)
Definition read_as (raw : Raw) : JsonReader := {| json_read _ := (raw, true) |}.
Definition deserialize_as {A} (a : A) : FromValue A := {| from_value _ := Some a |}.

Definition sample_bearer : ReceiverBearer := BearerOf (lit "0123456789abcdef").
Definition bearer_header (token : str) : option bytes := Some (lit "Bearer " ++ token).
Definition sample_edge (w : Inner) : Edge := {|
  eg_spool := w;
  eg_credentials := store_disk None;
  eg_bearer := sample_bearer;
  eg_metrics := default_metrics;
  eg_permits := MAX_CONCURRENT_ADMISSIONS;
|}.
