(* ===== verification/Witness.v ===== *)
(** * Witnesses

    Each theorem with hypotheses, applied to the concrete spool of [Sample]:
    the hypotheses hold there, by evaluation. *)

From S2P Require Import Prelude Protocol Crypto Fs SpoolTypes SpoolFacts SpoolBase SpoolOps SpoolErrors.
From S2P Require Import SpoolFrame SpoolInv SpoolSpec SpoolRefine SpoolRefineOps SpoolDelivery SpoolRetention.
From S2P Require Import SpoolReceipts SpoolAck SpoolV1 SpoolSystem Ledger SpoolAdmit SpoolLatch Sample.
From S2P Require Import Config Credentials CredentialFacts Metrics Admission Delivery SampleEdge.

#[local] Instance spool : SpoolEnv := sample_env no_faults.
#[local] Instance spool_laws : SpoolLaws := sample_laws no_faults.

(** ** States *)

Definition later : Z := sample_now + 100000.
(** One record, and two records. *)
Definition stored_a : Inner := (enqueue event_a sample_now empty_spool).2.
Definition stored_ab : Inner := (enqueue event_b (sample_now + 1000) stored_a).2.

Lemma sample_now_i64 : in_i64 sample_now.
Proof. by vm_compute. Qed.
Lemma enqueue_wf envelope now w : wf w -> in_i64 now -> wf (enqueue envelope now w).2.
Proof. intros Hwf Hn. destruct (enqueue_ok envelope now w Hwf Hn) as [Hd _]. by eapply wf_does. Qed.
Lemma stored_a_wf : wf stored_a.
Proof. apply enqueue_wf; [apply empty_spool_wf|by vm_compute]. Qed.
Lemma stored_ab_wf : wf stored_ab.
Proof. apply enqueue_wf; [apply stored_a_wf|by vm_compute]. Qed.

Definition the_entry (w : Inner) (e : ReceiverEnvelope) : Entry :=
  default {| en_record_id := RecordIdOf []; en_stable_record_id := RecordIdOf []; en_spool_seq := 0;
             en_admitted_at_ms := 0; en_expires_at_ms := 0; en_encrypted_bytes := 0; en_path := SPath DTmp [] |}
    (entries (in_state w) !! record_id e).
Definition entry_a : Entry := the_entry stored_a event_a.

Definition the_batch (r : Result SpoolError HubBatchV2) : HubBatchV2 :=
  match r with
  | Ok b => b
  | Err _ => {| b2_version := 0; b2_batch_id := []; b2_records := []; b2_gaps := [] |}
  end.
Definition batch_ab : HubBatchV2 := the_batch (build_batch_v2 stored_ab).1.
(** Accepts the first of the two records. *)
Definition ack_a : HubAckV2 := {|
  a2_version := 2;
  a2_batch_id := b2_batch_id batch_ab;
  a2_accepted_record_ids := [stable_record_id event_a];
  a2_accepted_gap_notice_ids := [];
|}.
Definition acked : Inner := (acknowledge_v2 ack_a stored_ab).2.
Definition ack_wrong : HubAckV2 := {|
  a2_version := 2;
  a2_batch_id := hex_encode (replicate 32 x00);
  a2_accepted_record_ids := [];
  a2_accepted_gap_notice_ids := [];
|}.

Definition sample_cmds : list Cmd :=
  [CEnqueue event_a sample_now; CNextBatchV2 sample_now; CAcknowledgeV2 ack_wrong; CExpireDue later; CSync].
Lemma sample_cmds_ok : Forall cmd_ok sample_cmds.
Proof. repeat constructor; by vm_compute. Qed.

Lemma empty_spool_durable : durable empty_spool.
Proof. split; cbn; intros *; rewrite lookup_empty; done. Qed.

(** ** The spool as a system *)

Lemma run_wf_witness : wf (run sample_cmds empty_spool).
Proof. apply run_wf; [apply sample_cmds_ok|apply empty_spool_wf]. Defined.

Lemma run_durable_witness : durable (run sample_cmds empty_spool).
Proof. apply run_durable; [apply sample_cmds_ok|apply empty_spool_wf|apply empty_spool_durable]. Defined.

Lemma stored_live : live (in_state stored_ab) 1.
Proof. left. exists (record_id event_a), (the_entry stored_ab event_a). by vm_compute. Qed.

Lemma no_receipts_uncommitted s r : size (receipts s) = 0%nat -> ~ committed s r.
Proof. intros E%map_size_empty_inv (re & Hr & _). by rewrite E in Hr. Qed.

Lemma no_silent_loss_witness :
  size (receipts (in_state stored_ab)) = 0%nat /\
  (live (in_state (run (CAcknowledgeV2 ack_a :: sample_cmds) stored_ab)) 1 \/
   exists before cmd after r, CAcknowledgeV2 ack_a :: sample_cmds = before ++ cmd :: after /\
     names cmd (in_state stored_ab) 1 /\ accepts (in_state stored_ab) r 1 /\ records cmd (run before stored_ab) r).
Proof.
  assert (E : size (receipts (in_state stored_ab)) = 0%nat) by by vm_compute. split; [exact E|].
  destruct (no_silent_loss (CAcknowledgeV2 ack_a :: sample_cmds) stored_ab 1) as [Hl|[(r & Hr & _)|H]].
  - constructor; [done|apply sample_cmds_ok].
  - apply stored_ab_wf.
  - apply stored_live.
  - left. exact Hl.
  - destruct (no_receipts_uncommitted _ r E Hr).
  - right. exact H.
Defined.

Lemma run_refines_life_cycle_witness :
  standing (in_state stored_ab) 1 = Pending /\
  standing (in_state (run (CAcknowledgeV2 ack_a :: sample_cmds) stored_ab)) 1 = Settled /\
  rtc (fun a b => exists before cmd after, CAcknowledgeV2 ack_a :: sample_cmds = before ++ cmd :: after /\
         turn cmd (run before stored_ab) 1 a b) Pending Settled.
Proof.
  assert (E : standing (in_state stored_ab) 1 = Pending) by by vm_compute.
  assert (E' : standing (in_state (run (CAcknowledgeV2 ack_a :: sample_cmds) stored_ab)) 1 = Settled) by by vm_compute.
  split_and!; [exact E|exact E'|]. rewrite <-E, <-E'.
  apply run_refines_life_cycle; [constructor; [done|apply sample_cmds_ok]|apply stored_ab_wf].
Defined.

(** ** Admission *)

Lemma enqueue_correct_witness :
  enqueue_outcome empty_spool event_a sample_now (enqueue event_a sample_now empty_spool).1
    (enqueue event_a sample_now empty_spool).2 /\
  is_err (enqueue event_a sample_now empty_spool).1 = false.
Proof.
  split; [|by vm_compute].
  apply (enqueue_correct event_a sample_now empty_spool); [apply empty_spool_wf|apply sample_now_i64].
Defined.

(** The same event, delivered a second later. *)
Definition event_a_again : ReceiverEnvelope := {|
  env_version := 1;
  env_vin := env_vin event_a;
  env_txid := env_txid event_a;
  env_tx_type := env_tx_type event_a;
  env_received_at_ms := env_received_at_ms event_a + 1000;
  env_timestamp_ms := env_timestamp_ms event_a;
  env_payload := env_payload event_a;
  env_device_client_version := None;
  env_firmware_version := None;
|}.

Lemma enqueue_retry_witness :
  enqueue event_a_again later stored_a = (Ok (AlreadyPresent (en_record_id entry_a)), stored_a).
Proof.
  apply (enqueue_retry event_a event_a_again later stored_a entry_a);
    [apply stored_a_wf|by vm_compute|by vm_compute|done|by vm_compute|by vm_compute].
Defined.

Definition later_cmds : list Cmd := [CNextBatchV2 sample_now; CSync].

Lemma no_gaps_not_quarantined w seq : size (gaps (in_state w)) = 0%nat -> ~ quarantined (in_state w) seq.
Proof. intros E%map_size_empty_inv (n & g & Hg & _). by rewrite E in Hg. Qed.

Lemma admitted_content_kept_witness :
  let w' := run later_cmds (enqueue event_a sample_now empty_spool).2 in
  exists st, holds (in_key w') (in_disk w') (en_path entry_a) MAX_ENCRYPTED_RECORD_BYTES st /\
    sr_envelope st = event_a /\ sr_admitted_at_ms st = sample_now.
Proof.
  apply (admitted_content_kept event_a sample_now (record_id event_a) empty_spool later_cmds);
    [apply empty_spool_wf|apply sample_now_i64|by repeat constructor|by vm_compute|by vm_compute|by vm_compute|].
  apply no_gaps_not_quarantined. by vm_compute.
Defined.

(** A spool for a single record. *)
Definition one_record : Inner := {|
  in_config := {| max_bytes := 1000000; max_records := 1; retention_ms := 60000; batch_max_bytes := 100000;
                  batch_max_records := 1 |};
  in_key := sample_key;
  in_state := default_state;
  in_storage_write_failed := false;
  in_os := {| os_disk := ∅; os_tick := 0 |};
|}.
Definition full_spool : Inner := (enqueue event_a sample_now one_record).2.
Lemma full_spool_wf : wf full_spool.
Proof.
  assert (Hc : wf_config (in_config one_record)) by (split; unfold U64_MAX, I64_MAX; cbn; lia).
  apply enqueue_wf; [split; [done|by apply wf_default]|by vm_compute].
Qed.

Lemma exhausted_refuses_witness :
  (exists e, (enqueue event_b sample_now full_spool).1 = Err e) /\ (enqueue event_b sample_now full_spool).2 = full_spool.
Proof.
  apply (exhausted_refuses event_b sample_now sample_now full_spool);
    [apply full_spool_wf|by vm_compute|by vm_compute|by vm_compute].
Defined.

(** ** Delivery *)

Lemma build_batch_v2_unfold_witness :
  build_batch_v2 stored_ab =
  (let! pass := build_v2_pass in
   let '(records, gaps, quarantined) := pass in
   if quarantined : bool then build_batch_v2
   else ret {| b2_version := 2; b2_batch_id := batch_id_v2 records gaps;
               b2_records := records; b2_gaps := gaps |}) stored_ab.
Proof. exact (build_batch_v2_unfold stored_ab stored_ab_wf). Defined.

Lemma batch_v2_correct_witness :
  length (b2_records batch_ab) = 2%nat /\ NoDup (batch_seqs batch_ab) /\ Forall genuine (b2_records batch_ab).
Proof.
  assert (Hb : (build_batch_v2 stored_ab).1 = Ok batch_ab) by by vm_compute.
  destruct (batch_v2_correct stored_ab batch_ab stored_ab_wf Hb) as (Hnd & _ & _ & _ & Hgen & _).
  refine (conj _ (conj Hnd Hgen)). by vm_compute.
Defined.

Lemma expire_due_counts_once_witness :
  2 = Z.of_nat (length (List.filter (newly_due (in_state stored_ab)) (expired_entries later (in_state stored_ab)))) /\
  expired_records (in_state (expire_due later stored_ab).2) = 2.
Proof.
  destruct (expire_due_counts_once later stored_ab 2 stored_ab_wf) as (Hn & Ht & _); [by vm_compute|].
  refine (conj Hn _). rewrite Ht. by vm_compute.
Defined.

Definition first_batch : HubBatchV2 := the_batch (next_batch_v2 (sample_now + 60500) stored_ab).1.
(** The first record has expired, the second has not. *)
Lemma next_batch_v2_unexpired_witness :
  length (b2_records first_batch) = 1%nat /\ length (b2_gaps first_batch) = 1%nat /\
  Forall (fun r => exists e,
    entries (in_state (next_batch_v2 (sample_now + 60500) stored_ab).2) !! br2_legacy_record_id r = Some e /\
    br2_spool_seq r = en_spool_seq e /\ br2_record_id r = en_stable_record_id e /\
    sample_now + 60500 <= en_expires_at_ms e) (b2_records first_batch).
Proof.
  split; [by vm_compute|]. split; [by vm_compute|].
  apply (next_batch_v2_unexpired (sample_now + 60500) stored_ab first_batch); [apply stored_ab_wf|by vm_compute].
Defined.

Definition batch_v1 : HubBatchV1 :=
  match (next_batch sample_now stored_ab).1 with
  | Ok b => b
  | Err _ => {| b1_version := 0; b1_batch_id := []; b1_records := [] |}
  end.
Lemma batch_v1_correct_witness :
  length (b1_records batch_v1) = 2%nat /\ gaps (in_state (next_batch sample_now stored_ab).2) = ∅.
Proof.
  destruct (batch_v1_correct sample_now stored_ab batch_v1 stored_ab_wf) as (Hg & _); [by vm_compute|].
  refine (conj _ Hg). by vm_compute.
Defined.

(** ** Acknowledgement *)

Lemma invalid_ack_deletes_nothing_witness :
  receipts (in_state (acknowledge_v2 ack_wrong stored_ab).2) = receipts (in_state stored_ab) /\
  live (in_state (acknowledge_v2 ack_wrong stored_ab).2) 1.
Proof.
  destruct (invalid_ack_deletes_nothing ack_wrong stored_ab stored_ab_wf) as (Hr & Hl & _); [by vm_compute|].
  exact (conj Hr (Hl 1 stored_live)).
Defined.

Definition the_result (r : Result SpoolError HubAckResultV2) : HubAckResultV2 :=
  match r with
  | Ok r => r
  | Err _ => {| r2_version := 0; r2_acknowledged_record_ids := []; r2_acknowledged_gap_notice_ids := [];
                r2_unknown_record_ids := []; r2_unknown_gap_notice_ids := [] |}
  end.
Lemma ack_v2_removes_exactly_witness :
  exists batch w1, build_batch_v2 stored_ab = (Ok batch, w1) /\
    (forall q, live (in_state acked) q <-> live (in_state w1) q /\ q ∉ accepted_seqs batch ack_a).
Proof.
  destruct (ack_v2_removes_exactly ack_a stored_ab (the_result (acknowledge_v2 ack_a stored_ab).1) stored_ab_wf)
    as (batch & w1 & Hb & _ & _ & _ & _ & Hl & _); [by vm_compute|by vm_compute|].
  exact (ex_intro _ batch (ex_intro _ w1 (conj Hb Hl))).
Defined.

Lemma acked_wf : wf acked.
Proof. exact (wf_does _ _ _ (acknowledge_v2_ok ack_a stored_ab stored_ab_wf) stored_ab_wf). Qed.
Definition receipt_a : ReceiptEntry :=
  default {| re_receipt := receipt_of ack_a [] 0; re_path := SPath DTmp [] |}
    (receipts (in_state acked) !! a2_batch_id ack_a).
Lemma ack_a_shaped : well_shaped ack_a.
Proof. split_and!; [done|by vm_compute|apply NoDup_singleton|apply NoDup_nil_2]. Qed.

Lemma ack_v2_replay_witness :
  (acknowledge_v2 ack_a acked).1 = Ok (ack_result_v2 (re_receipt receipt_a)) \/
  exists e, (acknowledge_v2 ack_a acked).1 = Err e /\ storage_error e.
Proof.
  destruct (ack_v2_replay ack_a acked receipt_a acked_wf ack_a_shaped) as [Hsame _]; [by vm_compute|].
  refine (proj1 (Hsame _)). split_and!; by vm_compute.
Defined.

(** ** Faults *)

(** A medium that fails once, at the third system call. *)
Definition flaky_env : SpoolEnv := sample_env (fun t => if Nat.eqb t 2 then Some 5 else None).
Definition failed : Inner := (@enqueue flaky_env event_a sample_now empty_spool).2.
Lemma write_failure_latches_witness :
  in_storage_write_failed empty_spool = false /\
  in_storage_write_failed (@run flaky_env sample_cmds failed) = true /\
  is_err (@enqueue flaky_env event_a later (@run flaky_env sample_cmds failed)).1 = true.
Proof.
  split; [reflexivity|].
  destruct (@write_failure_latches flaky_env (sample_laws _) empty_spool failed sample_cmds) as (Hl & _ & Hr).
  - right. exists event_a, sample_now, SpoolIo. split; [apply empty_spool_wf|]. split; [apply sample_now_i64|].
    split; [by vm_compute|]. split; [|by left].
    rewrite (surjective_pairing (@enqueue flaky_env event_a sample_now empty_spool)). apply f_equal2; [by vm_compute|reflexivity].
  - split; [exact Hl|exact (proj1 (Hr event_a later))].
Defined.

(** ** Files, names, identifiers *)

Lemma sealed_file_witness :
  decrypt sample_key (MAGIC ++ key_id sample_key ++ replicate 24 x00 ++ lit "text" ++ replicate 16 x00) = Ok (lit "text") /\
  len (MAGIC ++ key_id sample_key ++ replicate 24 x00 ++ lit "text" ++ replicate 16 x00) = len (lit "text") + 56.
Proof.
  destruct (sealed_file sample_key sample_key (replicate 24 x00) (lit "text")
    (MAGIC ++ key_id sample_key ++ replicate 24 x00 ++ lit "text" ++ replicate 16 x00)) as (Hd & _ & Hl);
    [done|by vm_compute|by split].
Defined.

Lemma pending_file_name_roundtrip_witness :
  parse_v2_pending_file_name (pending_file_name 7 (record_id event_a)) = Some (7, record_id event_a).
Proof. apply pending_file_name_roundtrip; [unfold in_u64, U64_MAX; lia|lia|by vm_compute]. Defined.

Lemma same_record_ids_permutation_witness :
  same_record_ids [record_id event_a; record_id event_b] [record_id event_b; record_id event_a] = true <->
  [record_id event_a; record_id event_b] ≡ₚ [record_id event_b; record_id event_a].
Proof. apply same_record_ids_permutation; apply (bool_decide_unpack _); by vm_compute. Defined.

Lemma batch_ab_items_ok : Forall item_ok (batch_items (b2_records batch_ab) (b2_gaps batch_ab)).
Proof.
  replace (batch_items (b2_records batch_ab) (b2_gaps batch_ab))
    with [(1, x72, as_str (stable_record_id event_a)); (2, x72, as_str (stable_record_id event_b))] by by vm_compute.
  repeat constructor; by vm_compute.
Qed.
Lemma batch_id_v2_binds_witness :
  batch_items (b2_records batch_ab) (b2_gaps batch_ab) = batch_items (rev (b2_records batch_ab)) (b2_gaps batch_ab).
Proof.
  assert (Hsame : batch_items (b2_records batch_ab) (b2_gaps batch_ab) =
                  batch_items (rev (b2_records batch_ab)) (b2_gaps batch_ab)) by by vm_compute.
  apply batch_id_v2_binds; [apply batch_ab_items_ok|rewrite <-Hsame; apply batch_ab_items_ok|by rewrite Hsame|by vm_compute].
Defined.

Lemma v2_ack_prefix_spec_witness :
  v2_ack_is_merged_prefix batch_ab ack_a = true <->
  exists n, accepted_list ack_a ≡ₚ take n (merged_ids batch_ab).
Proof.
  apply v2_ack_prefix_spec;
    [apply (bool_decide_unpack _); by vm_compute|apply (bool_decide_unpack _); by vm_compute
    |apply (bool_decide_unpack _); by vm_compute|by vm_compute|by vm_compute].
Defined.

(** ** Parsing *)

Lemma envelope_parse_at_sound_witness :
  valid_envelope event_a /\ env_received_at_ms event_a <= sample_now + 300000.
Proof.
  destruct (@envelope_parse_at_sound (read_as (RMap [(lit "vin", RNull)] true)) (deserialize_as event_a)
    (lit "{}") sample_now event_a) as (_ & _ & Hv & Hr & _); [by vm_compute|by vm_compute|by vm_compute|by split].
Defined.

Lemma envelope_parse_duplicate_witness :
  @envelope_parse (read_as (RMap [(lit "vin", RNull); (lit "vin", RNull)] true)) (deserialize_as event_a) (lit "{}")
  = Err DuplicateJsonKey.
Proof. apply envelope_parse_duplicate; by vm_compute. Defined.
