(* ===== verification/WitnessOpen.v ===== *)
(** * Witnesses for recovery

    A directory filled by one process, opened again by the next. *)

From S2P Require Import Prelude Protocol Crypto Fs SpoolTypes SpoolFacts SpoolBase SpoolOps SpoolRecover.
From S2P Require Import SpoolFrame SpoolInv SpoolSpec SpoolRefine SpoolReceipts SpoolSystem SpoolDisk SpoolScan.
From S2P Require Import SpoolReopen SpoolRestore SpoolOpen Lifecycle Sample Witness.

#[local] Instance spool : SpoolEnv := sample_env no_faults.
#[local] Instance spool_laws : SpoolLaws := sample_laws no_faults.
#[local] Instance spool_widths : WidthLaws := sample_widths no_faults.
#[local] Instance spool_seals : SealLaws := sample_seals no_faults.

Definition no_receipts (r : AckReceipt) : Prop := False.
Definition new_directory : World := Stopped {| os_disk := ∅; os_tick := 0 |}.
(** The first process admits two events and stops. *)
Definition first_life : list Action :=
  [Reopen sample_config sample_now; Do (CEnqueue event_a sample_now); Do (CEnqueue event_b (sample_now + 1000))].
Definition filled : World := live_through sample_key first_life new_directory.
Definition left_behind : Os SpoolPath :=
  match filled with Running w => in_os w | Stopped o => o end.

Lemma filled_sane : sane no_receipts sample_key filled.
Proof.
  unfold filled, first_life, live_through. cbn [foldl].
  apply act_sane; [by vm_compute|intros cmd w r [= <-] _ (Hi & _); exact Hi|].
  apply act_sane; [by vm_compute|intros cmd w r [= <-] _ (Hi & _); exact Hi|].
  apply act_sane; [apply sample_config_wf|by intros cmd w r [=]|apply sane_empty].
Qed.

Lemma left_behind_ok : disk_ok no_receipts sample_key (os_disk left_behind).
Proof.
  pose proof filled_sane as H. unfold left_behind. destruct filled as [w|o]; [|exact H].
  destruct H as (<- & _ & _ & Hl & _). apply Hl.
Qed.

(** The next process finds both, hands over the first, and its files are
    opened once more. *)
Definition second_life : list Action :=
  [Stop; Reopen sample_config later; Do (CNextBatchV2 later); Do (CAcknowledgeV2 ack_a); Stop; Reopen sample_config later].

Definition holds_record (x : World) (id : RecordId) (seq : Z) : bool :=
  match x with
  | Running w => match entries (in_state w) !! id with Some e => en_spool_seq e =? seq | None => false end
  | Stopped _ => false
  end.
Lemma holds_record_accounted x id seq : holds_record x id seq = true -> accounted x seq.
Proof.
  destruct x as [w|o]; [|done]. cbn. destruct (entries (in_state w) !! id) as [e|] eqn:He; [|done].
  intros E%Z.eqb_eq. left. by exists id, e.
Qed.

Lemma survives_restarts_witness :
  holds_record filled (record_id event_b) 2 = true /\
  holds_record (live_through sample_key second_life filled) (record_id event_a) 1 = false /\
  sane (or_left no_receipts sample_key second_life filled) sample_key (live_through sample_key second_life filled) /\
  (accounted (live_through sample_key second_life filled) 2 \/
   exists cmd w r, left_by sample_key second_life filled cmd w r /\ names cmd (in_state w) 2 /\ acknowledges r 2).
Proof.
  assert (Hb : holds_record filled (record_id event_b) 2 = true) by (vm_compute; reflexivity).
  split; [exact Hb|]. split; [vm_compute; reflexivity|].
  destruct (survives_restarts no_receipts sample_key second_life filled 2) as [Hs Ha].
  - repeat (apply Forall_cons; split); try exact I; try apply sample_config_wf. by apply Forall_nil.
  - apply filled_sane.
  - unfold in_u64, U64_MAX. lia.
  - by eapply holds_record_accounted.
  - split; [exact Hs|]. destruct Ha as [Ha|[(r & [] & _)|Ha]]; [left; exact Ha|right; exact Ha].
Defined.

Definition is_open (r : Result SpoolError Inner) : bool := match r with Ok _ => true | Err _ => false end.

Lemma open_recovers_witness :
  is_open (open sample_config sample_key later left_behind).1 = true /\
  disk_ok no_receipts sample_key (os_disk (open sample_config sample_key later left_behind).2).
Proof.
  split; [vm_compute; reflexivity|].
  pose proof (open_recovers no_receipts sample_config sample_key later left_behind sample_config_wf left_behind_ok) as H.
  destruct (open sample_config sample_key later left_behind) as [r o']. apply H.
Defined.
