(* ===== verification/WitnessDrain.v ===== *)
(** * Witnesses: the batch as a function, and draining

    [build_batch_v2_pure] on the two stored records of [Witness], and
    [full_acceptance_drains] on a run in which a system call fails. *)

From S2P Require Import Prelude Protocol Crypto Fs SpoolTypes SpoolFacts SpoolBase SpoolOps.
From S2P Require Import SpoolFrame SpoolInv SpoolSpec SpoolRefine SpoolRefineOps SpoolDelivery SpoolReceipts SpoolAck.
From S2P Require Import SpoolPick SpoolSystem SpoolDrain Sample Witness.

Definition two_cmds : list Cmd := [CEnqueue event_a sample_now; CEnqueue event_b (sample_now + 1000)].
Lemma two_cmds_ok : Forall cmd_ok two_cmds.
Proof. repeat constructor; by vm_compute. Qed.

(** Two records are stored in a fault-free run. *)
Module Pure.
#[local] Instance env : SpoolEnv := sample_env no_faults.
#[local] Instance env_laws : SpoolLaws := sample_laws no_faults.

Definition stored : Inner := run two_cmds empty_spool.

Lemma build_batch_v2_pure_witness :
  in_state (build_batch_v2 stored).2 = in_state stored /\
  exists batch, pure_batch sample_config sample_key (in_disk stored) (in_state stored) = Some batch /\
    length (b2_records batch) = 2%nat.
Proof.
  destruct (build_batch_v2_pure stored) as (Hs & _ & Hb).
  - apply run_ind with (P := fun _ => True); [done|apply two_cmds_ok|apply empty_spool_wf|done].
  - apply (run_ind durable); [|apply two_cmds_ok|apply empty_spool_wf|apply empty_spool_durable].
    intros L w1 w2. apply durable_does.
  - split; [exact Hs|]. exists (the_batch (build_batch_v2 stored).1).
    assert (E : (build_batch_v2 stored).1 = Ok (the_batch (build_batch_v2 stored).1)) by by vm_compute.
    rewrite E in Hb. split; [exact Hb|by vm_compute].
Defined.
End Pure.

(** The call that deletes the first accepted record fails: the receipt is
    recorded, the batch is handed out again, and the same acknowledgement
    completes the receipt. *)
Module Hiccup.
Definition hiccup : nat -> option Z := fun t => if (t =? 43)%nat then Some 5 else None.
#[local] Instance env : SpoolEnv := sample_env hiccup.
#[local] Instance env_laws : SpoolLaws := sample_laws hiccup.

Definition stored : Inner := run two_cmds empty_spool.
Lemma stored_healthy : wf stored /\ durable stored.
Proof.
  apply (run_ind durable); [|apply two_cmds_ok|apply empty_spool_wf|].
  - intros L w1 w2. apply durable_does.
  - split; cbn; intros *; rewrite lookup_empty; done.
Qed.

Definition times : list Z := [sample_now + 1000; sample_now + 2000; sample_now + 3000].
Definition log : list Exchange := (exchanges times stored).1.
Definition handed_out : list HubBatchV2 := omap served log.

Definition outcome (x : Exchange) : Z :=
  match x with NoBatch _ => 0 | Idle => 1 | Served _ (Err _) => 2 | Served _ (Ok _) => 3 end.

Definition none_b {A} (o : option A) : bool := match o with None => true | Some _ => false end.
Lemma none_b_true {A} (o : option A) : none_b o = true -> o = None.
Proof. by destruct o. Qed.
Definition fresh_b (batch : HubBatchV2) : bool := none_b (receipts (in_state stored) !! b2_batch_id batch).
Definition apart_b (b b' : HubBatchV2) : bool :=
  negb (bool_decide (b2_batch_id b = b2_batch_id b'))
  || bool_decide (batch_items (b2_records b) (b2_gaps b) = batch_items (b2_records b') (b2_gaps b')).
Lemma apart_b_true b b' : apart_b b b' = true -> b2_batch_id b = b2_batch_id b' -> same_items b b'.
Proof. unfold apart_b. intros Ha E. rewrite bool_decide_true in Ha by exact E. exact (bool_decide_eq_true_1 _ Ha). Qed.

Lemma all_fresh : forallb fresh_b handed_out = true.
Proof. by vm_compute. Qed.
Lemma all_apart : forallb (fun b => forallb (apart_b b) handed_out) handed_out = true.
Proof. by vm_compute. Qed.

Lemma handed_out_fresh batch : batch ∈ handed_out -> receipts (in_state stored) !! b2_batch_id batch = None.
Proof.
  intros Hb%list_elem_of_In. pose proof (proj1 (forallb_forall _ _) all_fresh _ Hb) as Hf.
  exact (none_b_true _ Hf).
Qed.
Lemma handed_out_apart : told_apart handed_out.
Proof.
  intros b b' Hb%list_elem_of_In Hb'%list_elem_of_In E.
  pose proof (proj1 (forallb_forall _ _) (proj1 (forallb_forall _ _) all_apart _ Hb) _ Hb') as Ha.
  exact (apart_b_true b b' Ha E).
Qed.

Lemma full_acceptance_drains_witness :
  outcome <$> log = [2; 3; 1] /\ size (live_seqs (in_state stored)) = 2%nat /\
  (forall batch, Served batch (Err InvalidAcknowledgement) ∉ log) /\
  forall q, ~ live (in_state (exchanges times stored).2) q.
Proof.
  destruct (full_acceptance_drains times stored) as [Hno Hdrain];
    [exact (proj1 stored_healthy)|exact (proj2 stored_healthy)|exact handed_out_fresh|exact handed_out_apart|].
  split; [by vm_compute|]. split; [by vm_compute|]. split; [exact Hno|].
  apply Hdrain. apply Nat.leb_le. by vm_compute.
Defined.
End Hiccup.
