(* ===== verification/WitnessThreads.v ===== *)
(** * Witnesses: concurrent calls

    A batch, an acknowledgement, an expiry and an admission at once, over the
    two stored records of [Witness].  The record admitted in the middle of the
    acknowledgement waits for the next batch; the other record expires. *)

From S2P Require Import Prelude Protocol Crypto Fs SpoolTypes SpoolFacts SpoolBase SpoolOps.
From S2P Require Import SpoolFrame SpoolInv SpoolSpec SpoolRefine SpoolRefineOps SpoolDelivery SpoolReceipts SpoolAck.
From S2P Require Import SpoolSystem SpoolThreads SpoolAlone SpoolInterleave SpoolConcurrent Sample Witness.

#[local] Existing Instance Witness.spool.
#[local] Existing Instance Witness.spool_laws.

Definition event_c : ReceiverEnvelope := sample_envelope (lit "c").
Definition calls : list Cmd :=
  [CNextBatchV2 sample_now; CAcknowledgeV2 ack_a; CExpireDue later; CEnqueue event_c later].
Lemma calls_ok : Forall cmd_ok calls.
Proof. repeat constructor; by vm_compute. Qed.

(** After the first half [c] is admitted and [a] is not yet acknowledged. *)
Definition first_half : list nat := [0; 0; 1; 1; 1; 1; 3; 0; 3; 3; 0; 1; 3; 1]%nat.
Definition second_half : list nat := [0; 0; 1; 1; 1; 0; 1; 1; 0; 0; 1; 0; 1; 1; 0; 0; 0; 1; 0; 1; 1; 2; 1; 2; 2]%nat.
Definition run_calls (schedule : list nat) : list Thread * Inner := interleave 5 schedule (begin calls stored_ab).

Definition answered (t : Thread) : bool := match t with Finished _ (Ok _) => true | _ => false end.
Definition sequences (s : State) : list Z * list Z :=
  (map en_spool_seq (btree_values (entries s)), map (fun g => gn_spool_seq (ge_notice g)) (btree_values (gaps s))).

Lemma schedule_orderly : orderly_run 5 calls stored_ab (first_half ++ second_half) = true.
Proof. by vm_compute. Qed.

Lemma enqueue_durable envelope now w : wf w -> in_i64 now -> durable w -> durable (enqueue envelope now w).2.
Proof. intros Hwf Hn Hdur. destruct (enqueue_ok envelope now w Hwf Hn) as [Hd _]. by eapply durable_does. Qed.
Lemma stored_ab_durable : durable stored_ab.
Proof.
  apply enqueue_durable; [apply stored_a_wf|by vm_compute|].
  apply enqueue_durable; [apply empty_spool_wf|by vm_compute|apply empty_spool_durable].
Qed.

Lemma interleave_durable_witness :
  forallb answered (run_calls (first_half ++ second_half)).1 = true /\
  sequences (in_state (run_calls (first_half ++ second_half)).2) = ([3], [2]) /\
  wf (run_calls (first_half ++ second_half)).2 /\ durable (run_calls (first_half ++ second_half)).2.
Proof.
  split; [by vm_compute|]. split; [by vm_compute|].
  exact (interleave_durable 5 calls (first_half ++ second_half) stored_ab calls_ok stored_ab_wf stored_ab_durable
    schedule_orderly).
Defined.

#[local] Abbreviation mid := (interleave 5 first_half (begin calls stored_ab)).
Lemma mid_live : live (in_state mid.2) 1.
Proof. left. exists (record_id event_a), (the_entry mid.2 event_a). split; by vm_compute. Qed.

Lemma interleave_no_loss_witness :
  sequences (in_state mid.2) = ([1; 2; 3], []) /\ size (receipts (in_state mid.2)) = 0%nat /\
  (live (in_state (interleave 5 second_half mid).2) 1 \/
   exists cmd r before after, cmd ∈ calls /\ names cmd (in_state mid.2) 1 /\
     issued cmd r /\ accepts (in_state mid.2) r 1 /\
     second_half = before ++ after /\ committed (in_state (interleave 5 before mid).2) r).
Proof.
  assert (E : size (receipts (in_state mid.2)) = 0%nat) by by vm_compute.
  split; [by vm_compute|]. split; [exact E|].
  destruct (interleave_no_loss 5 calls first_half second_half stored_ab 1 calls_ok stored_ab_wf schedule_orderly mid_live)
    as [Hl|[(r & Hr & _)|H]]; [left; exact Hl|destruct (no_receipts_uncommitted _ r E Hr)|right; exact H].
Defined.

Lemma program_alone_witness :
  (run_alone (program 3 (CAcknowledgeV2 ack_a)) stored_ab).2 = acked /\
  sequences (in_state (run_alone (program 3 (CAcknowledgeV2 ack_a)) stored_ab).2) = ([2], []).
Proof.
  split; [|by vm_compute]. apply (program_alone 3 (CAcknowledgeV2 ack_a) stored_ab stored_ab_wf).
  apply Nat.ltb_lt. by vm_compute.
Defined.
