(* ===== verification/WitnessEdge.v ===== *)
(** * Witnesses for the service

    The theorems on configuration, credentials and the two listeners, applied
    to the concrete service of [SampleEdge]. *)

From S2P Require Import Prelude Protocol Crypto Fs SpoolTypes SpoolFacts SpoolBase SpoolOps.
From S2P Require Import SpoolInv SpoolSpec SpoolRefine SpoolRefineOps SpoolDelivery SpoolReceipts SpoolSystem SpoolAdmit.
From S2P Require Import Config Credentials CredentialFacts Metrics Admission Delivery Accounting Sample SampleEdge Witness.

#[local] Instance env : SpoolEnv := sample_env no_faults.
#[local] Instance env_laws : SpoolLaws := sample_laws no_faults.
#[local] Instance cred_env : CredentialEnv := sample_credentials_env no_faults.
#[local] Instance cred_laws : CredentialLaws := sample_credentials_laws no_faults.
#[local] Instance reader : JsonReader := read_as (RMap [(lit "vin", RNull)] true).
#[local] Instance read_envelope : FromValue ReceiverEnvelope := deserialize_as event_a.

(** ** Configuration *)

Lemma secret_files_private_witness :
  exists m, @host_metadata sample_host (at_etc "key") = Ok m /\ Z.land (md_mode m) 63 = 0.
Proof.
  destruct (@secret_files_private sample_host sample_edge_config (at_etc "key")) as [_ H]; [by vm_compute|].
  apply H. repeat constructor.
Defined.

Lemma accepted_config_witness :
  limits_within (cfg_spool sample_edge_config) /\
  exists sc, spool_config sample_edge_config = Ok sc /\ wf_config sc.
Proof.
  destruct (@accepted_config sample_toml (lit "version = 1") sample_edge_config) as (_ & Hl & (sc & H & _ & Hw & _) & _);
    [by vm_compute|]. split; [exact Hl|]. by exists sc.
Defined.

(** ** Credentials *)

Lemma verify_sound_witness : exists c, sc_id c = hub_id /\ active_at c sample_now = true.
Proof.
  destruct (verify_sound store_path hub_token sample_now (store_disk None)) as (b & f & p & c & _ & _ & Hp & _ & Hid & Ha & _);
    [by vm_compute|]. exists c. split; [|exact Ha]. rewrite Hid.
  assert (E : token_parse hub_token = Some {| pt_id := hub_id; pt_secret := hub_secret |}) by by vm_compute.
  rewrite E in Hp. by injection Hp as <-.
Defined.

Definition cred_ops : list CredOp :=
  [OpOpen; OpEnrol (lit "second") sample_now 60000; OpVerify hub_token sample_now; OpList;
   OpRevoke (hex_encode (uuid_bytes hub_id)) (sample_now + 5)].

Lemma hub_id_never_drawn : never_drawn hub_id.
Proof. intros t E. apply (f_equal (fun b => bool_decide (b = replicate 16 x00))) in E. by vm_compute in E. Qed.

Definition revoked : Result CredentialError unit * Os str :=
  revoke store_path (hex_encode (uuid_bytes hub_id)) sample_now (store_disk None).

Lemma revocation_is_final_witness :
  (verify store_path hub_token (sample_now - 1) (store_disk None)).1 = Ok true /\
  (verify store_path hub_token (sample_now + 1) (cred_run store_path cred_ops revoked.2)).1 <> Ok true.
Proof.
  split; [by vm_compute|].
  apply (revocation_is_final store_path (hex_encode (uuid_bytes hub_id)) sample_now (store_disk None) cred_ops hub_token
    {| pt_id := hub_id; pt_secret := hub_secret |});
    [by vm_compute|by vm_compute|by vm_compute|exact hub_id_never_drawn|]. by vm_compute.
Defined.

Definition the_issued (r : Result CredentialError IssuedCredential) : IssuedCredential :=
  match r with
  | Ok issued => issued
  | Err _ => {| ic_credential_id := []; ic_token := []; ic_secret_component := [] |}
  end.
Definition enrolled : Result CredentialError IssuedCredential * Os str :=
  enrol store_path (lit "second") sample_now 60000 (store_disk None).

Definition rotated : Result CredentialError IssuedCredential * Os str :=
  rotate store_path (hex_encode (uuid_bytes hub_id)) sample_now 300 60000 (store_disk None).

Lemma rotation_hands_over_witness :
  ((verify store_path (ic_token (the_issued rotated.1)) (sample_now + 10) rotated.2).1 = Ok true \/
   (verify store_path (ic_token (the_issued rotated.1)) (sample_now + 10) rotated.2).1 = Err CredIo) /\
  (verify store_path hub_token (sample_now + 1) rotated.2).1 = Ok true /\
  sample_now + 1 < sample_now + 300.
Proof.
  edestruct (rotation_hands_over store_path (hex_encode (uuid_bytes hub_id)) sample_now 300 60000 (store_disk None)
    (the_issued rotated.1)) as [Hnew Hold]; [by vm_compute|by vm_compute|by vm_compute|by vm_compute|].
  split; [apply Hnew; by vm_compute|]. split; [by vm_compute|].
  apply (Hold hub_token {| pt_id := hub_id; pt_secret := hub_secret |}); by vm_compute.
Defined.

Lemma enrolment_reloads_witness : exists b file c,
  os_disk enrolled.2 !! store_name store_path = Some (File b) /\
  cf_credentials file = [hub_credential None; c].
Proof.
  destruct (enrolment_reloads store_path (lit "second") sample_now 60000 (store_disk None) (the_issued enrolled.1)
    (bits_of (encode (store_tree (hub_store None)))) (hub_store None)) as (b & file & c & Hb & Hf & _).
  - by vm_compute.
  - by vm_compute.
  - by vm_compute.
  - by vm_compute.
  - by vm_compute.
  - intros c ->%list_elem_of_singleton. by vm_compute.
  - exact (ex_intro _ b (ex_intro _ file (ex_intro _ c (conj Hb Hf)))).
Defined.

(** ** The listeners *)

Definition posted : Response * AdmissionState :=
  admit_receiver_envelope (bearer_header (bearer_text sample_bearer)) (lit "{}") sample_now
    (admission_view (sample_edge empty_spool)).

Lemma admission_no_content_witness :
  rs_status posted.1 = 204 /\ durable (ad_spool posted.2) /\
  exists envelope, envelope_parse_at (lit "{}") sample_now = Ok envelope /\
    (admitted_as empty_spool (ad_spool posted.2) envelope sample_now \/
     (ad_spool posted.2 = empty_spool /\ event_pending empty_spool envelope)).
Proof.
  assert (Hs : rs_status posted.1 = 204) by by vm_compute. split; [exact Hs|].
  pose proof (admission_no_content (bearer_header (bearer_text sample_bearer)) (lit "{}") sample_now
    (admission_view (sample_edge empty_spool)) empty_spool_wf empty_spool_durable sample_now_i64) as H.
  change (admit_receiver_envelope _ _ _ _) with posted in H. destruct posted as [r a].
  destruct H as (_ & Hd & H). split; [exact Hd|]. exact (proj2 (H Hs)).
Defined.

#[local] Instance read_ack_v1 : FromValue HubAckV1 :=
  deserialize_as {| a1_version := 1; a1_batch_id := []; a1_accepted_record_ids := [] |}.
#[local] Instance read_ack_v2 : FromValue HubAckV2 := deserialize_as ack_a.

(** The Hub acknowledges the first of two records. *)
Definition sample_requests : list Request :=
  [ReqHealth sample_now; ReqNextBatchV2 (bearer_header hub_token) sample_now sample_now;
   ReqAckV2 (bearer_header hub_token) (lit "{}") sample_now].

Lemma only_authorized_acks_delete_witness :
  live (in_state (eg_spool (serve store_path sample_requests (sample_edge stored_ab)))) 1 \/
  exists before request after cmd r,
    let w := eg_spool (serve store_path before (sample_edge stored_ab)) in
    sample_requests = before ++ request :: after /\
    leads_to store_path (serve store_path before (sample_edge stored_ab)) request cmd /\
    repeats cmd r /\ named r /\ accepts (in_state w) r 1 /\
    (committed (in_state w) r \/ (names cmd (in_state w) 1 /\ records cmd w r)).
Proof.
  refine (only_authorized_acks_delete store_path sample_requests (sample_edge stored_ab) 1 _ stored_ab_wf stored_live).
  by repeat constructor.
Defined.

(** No bearer at all, and a body that is too long. *)
Definition long_body : bytes := replicate (Z.to_nat 131073) x20.

Lemma unauthorized_changes_nothing_witness :
  eg_spool (handle store_path (ReqAckV2 None (lit "{}") sample_now) (sample_edge stored_ab)).2 = stored_ab /\
  refused_bearer store_path None sample_now (sample_edge stored_ab)
    (handle store_path (ReqAckV2 None (lit "{}") sample_now) (sample_edge stored_ab)).1 /\
  rs_status (handle store_path (ReqAckV2 None (lit "{}") sample_now) (sample_edge stored_ab)).1 = 401 /\
  rs_status (handle store_path (ReqAckV2 None long_body sample_now) (sample_edge stored_ab)).1 = 413.
Proof.
  assert (E : rs_status (handle store_path (ReqAckV2 None (lit "{}") sample_now) (sample_edge stored_ab)).1 = 401)
    by by vm_compute.
  assert (E' : rs_status (handle store_path (ReqAckV2 None long_body sample_now) (sample_edge stored_ab)).1 = 413)
    by by vm_compute.
  pose proof (unauthorized_changes_nothing store_path None sample_now sample_now (lit "{}") (sample_edge stored_ab)) as H.
  rewrite !Forall_cons in H. destruct H as (_ & _ & H & _); [by intros (token & ? & _)|].
  change (131072 <? len (lit "{}")) with false in H. cbv iota in H.
  destruct (handle store_path (ReqAckV2 None (lit "{}") sample_now) (sample_edge stored_ab)) as [response e'].
  destruct H as (Hs & _ & Hr). exact (conj Hs (conj Hr (conj E E'))).
Defined.

(** An event, the same event again, a request without a bearer. *)
Definition receiver_requests : list Request :=
  [ReqAdmit (bearer_header (bearer_text sample_bearer)) (lit "{}") sample_now; ReqMetrics sample_now;
   ReqAdmit (bearer_header (bearer_text sample_bearer)) (lit "{}") (sample_now + 1000);
   ReqAdmit None (lit "{}") sample_now].

Lemma metrics_account_witness :
  receiver_kinds store_path receiver_requests (sample_edge empty_spool) = [KAdmitted; KDuplicate; KAuth] /\
  let m := eg_metrics (serve store_path receiver_requests (sample_edge empty_spool)) in
  counted 1 0 (mt_admitted m) /\ counted 1 0 (mt_duplicates m) /\ counted 1 0 (mt_rejected_auth m) /\
  counted 0 0 (mt_rejected_internal m).
Proof.
  assert (E : receiver_kinds store_path receiver_requests (sample_edge empty_spool) = [KAdmitted; KDuplicate; KAuth])
    by by vm_compute.
  split; [exact E|].
  destruct (metrics_account store_path receiver_requests (sample_edge empty_spool)) as (H & _ & _).
  - repeat constructor; by vm_compute.
  - exact empty_spool_wf.
  - rewrite E in H. exact (conj (H KAdmitted) (conj (H KDuplicate) (conj (H KAuth) (H KInternal)))).
Defined.
