(* ===== verification/WitnessHost.v ===== *)
(** * Witnesses for setup and startup

    A concrete host with a configuration, certificates and secrets, on which
    the theorems of [Setup] and [StartupFacts] are applied. *)

From S2P Require Import Prelude Protocol Crypto Fs SpoolTypes SpoolBase SpoolOps SpoolRecover SpoolSystem.
From S2P Require Import Config Credentials CredentialFacts HostFs HostFacts Setup Metrics Admission Startup StartupFacts.
From S2P Require Import Sample SampleEdge.

#[local] Instance env : SpoolEnv := sample_env no_faults.
#[local] Instance host_env : HostEnv := {|
  host_credentials := sample_credentials_env no_faults;
  lookup_fault _ _ _ := None;
  process_uid := 1000;
  umask := 18;
|}.
#[local] Instance host_cred_laws : CredentialLaws := sample_credentials_laws no_faults.
#[local] Instance toml : Toml := sample_toml.
#[local] Instance rustls : Rustls := {|
  Certificate := bytes;
  PrivateKey := bytes;
  RootCertStore := list bytes;
  ClientVerifier := list bytes;
  ServerConfig := list bytes * list bytes;
  pem_certs b := [Some b];
  pem_private_key b := Some (Some b);
  roots_empty := [];
  roots_add roots c := Some (c :: roots);
  build_verifier roots := if is_empty roots then None else Some roots;
  with_single_cert verifier chain key := Some (verifier, []);
  set_alpn protocols config := (config.1, protocols);
|}.

Definition no_secrets : FileTree := list_to_map [
  ([RootDir], HDir 493 0);
  ([RootDir; Normal (lit "etc")], HDir 448 1000);
  (at_etc "config", HFile (lit "version = 1") 420 0);
  (at_etc "cert", HFile (lit "server") 420 0);
  (at_etc "private", HFile (lit "server key") 384 1000);
  (at_etc "ca", HFile (lit "authority") 420 0)].
Definition fresh_host : HostOs := {| hs_tree := no_secrets; hs_tick := 0 |}.
Definition initialized : HostOs := (initialize sample_edge_config fresh_host).2.
Definition sample_machine : Machine := {| mc_host := initialized; mc_spool := {| os_disk := ∅; os_tick := 0 |} |}.
Definition sample_session : Session := {|
  sn_now_ms := sample_now;
  sn_bound := true;
  sn_served := [CEnqueue event_a sample_now];
  sn_early_exit := None;
  sn_drained := Some [Finished (Ok tt); Cancelled];
|}.

Lemma initialize_overwrites_nothing_witness :
  (initialize sample_edge_config fresh_host).1 = Ok tt /\
  hs_tree initialized !! at_etc "private" = Some (HFile (lit "server key") 384 1000).
Proof.
  split; [by vm_compute|].
  destruct (initialize_overwrites_nothing sample_edge_config fresh_host (at_etc "private")
    (HFile (lit "server key") 384 1000)) as (h' & Hp & _ & Hh); [by vm_compute|by vm_compute|].
  rewrite (Hh eq_refl) in Hp. exact Hp.
Defined.

Lemma receiver_rotation_atomic_witness :
  exists token, (rotate_receiver_token sample_edge_config initialized).1 = Ok {| it_token := token |} /\
    hs_tree (rotate_receiver_token sample_edge_config initialized).2 !! at_etc "bearer" =
      Some (HFile token PRIVATE_FILE 1000).
Proof.
  destruct (receiver_rotation_atomic sample_edge_config initialized (lit "bearer")) as [_ Hout]; [by vm_compute|].
  destruct (rotate_receiver_token sample_edge_config initialized) as [[[token]|e] o] eqn:E.
  - exists token. split; [done|]. destruct (Hout {| it_token := token |} eq_refl) as (_ & p & Hl & Hp).
    assert (Hl' : locate (hs_tree initialized) (cfg_receiver_bearer_path sample_edge_config) = Ok (at_etc "bearer"))
      by by vm_compute.
    rewrite Hl' in Hl. injection Hl as <-. exact Hp.
  - exfalso. apply (f_equal (fun x => match x.1 with Ok _ => true | Err _ => false end)) in E. by vm_compute in E.
Defined.

(** The two secrets of the host differ, so neither is taken for the other. *)
Lemma spool_opened_with_checked_secrets_witness :
  exists key bearer, secrets_ok sample_edge_config initialized key bearer /\
    file_holds (hs_tree initialized) (at_etc "key") key /\ file_holds (hs_tree initialized) (at_etc "bearer") (bearer_text bearer).
Proof.
  destruct (spool_opened_with_checked_secrets sample_edge_config sample_session sample_machine)
    as (key & bearer & sc & o & Hs & _).
  - intros E. apply (f_equal (fun o : Os SpoolPath => os_tick o)) in E. by vm_compute in E.
  - exists key, bearer. split; [exact Hs|]. destruct Hs as (_ & Hk & _ & Hb & _). split; [exact Hk|exact Hb].
Defined.

Lemma clean_exit_witness :
  exists spool o w, sync (run [CEnqueue event_a sample_now] (set_os o spool)) = (Ok tt, w).
Proof.
  destruct (clean_exit sample_edge_config sample_session sample_machine)
    as (_ & _ & _ & key & bearer & sc & spool & o & w & _ & _ & _ & Hs & _); [by vm_compute|].
  by exists spool, o, w.
Defined.

Lemma seconds_to_ms_exact_witness : I64_MAX < 1000 * 10000000000000000.
Proof.
  apply (seconds_to_ms_exact 10000000000000000 (Err DurationTooLarge)); [unfold in_u64, U64_MAX; lia|by vm_compute].
Defined.

Lemma printed_token_verifies_witness :
  exists c ttl id token mc', run_cli (at_etc "config") (Credential (Enrol (lit "hub") 3600)) sample_now sample_session sample_machine
      = (Ok (Some (LIssued id token)), mc') /\ seconds_to_ms 3600 = Ok ttl /\
    @Config.load (host_at (mc_host sample_machine)) _ (at_etc "config") = Ok c.
Proof.
  destruct (run_cli (at_etc "config") (Credential (Enrol (lit "hub") 3600)) sample_now sample_session sample_machine)
    as [[[line|]|e] mc'] eqn:E.
  2:{ exfalso. apply (f_equal (fun x => match x.1 with Ok (Some _) => true | _ => false end)) in E. by vm_compute in E. }
  2:{ exfalso. apply (f_equal (fun x => match x.1 with Ok (Some _) => true | _ => false end)) in E. by vm_compute in E. }
  destruct (printed_token_verifies _ _ _ _ _ _ _ _ E) as (c & ttl & id & token & Hc & _ & Ht & -> & _).
  exists c, ttl, id, token, mc'. split; [exact eq_refl|]. split; [exact Ht|exact Hc].
Defined.
