(* ===== verification/Divergences.v ===== *)
(** * Where the code does not do what it documents

    Six scenarios, evaluated on the concrete service of [Sample] and
    [SampleEdge], in which the code as modelled refuses or discards state that
    it means to keep.  Nothing else depends on this file. *)

From S2P Require Import Prelude Protocol Crypto Fs SpoolTypes SpoolFacts SpoolBase SpoolOps SpoolRecover SpoolInv SpoolSpec.
From S2P Require Import SpoolSystem SpoolThreads SpoolConcurrent.
From S2P Require Import Config Credentials Sample SampleEdge Witness.

Definition opened (r : Result SpoolError Inner * Os SpoolPath) : Inner :=
  match r.1 with Ok w => w | Err _ => empty_spool end.
Definition no_disk : Os SpoolPath := {| os_disk := ∅; os_tick := 0 |}.
(** The bytes of a file are lost, by a bad sector say. *)
Definition damage (p : SpoolPath) (w : Inner) : Inner :=
  set_os {| os_disk := <[p := File []]> (in_disk w); os_tick := os_tick (in_os w) |} w.
Definition failed {A} (r : Result SpoolError A) : option SpoolError :=
  match r with Ok _ => None | Err e => Some e end.

(** ** A quarantine that is interrupted *)

Module Interrupted.
(** The storage fails from call 60 to call 79, then works again. *)
Definition outage : nat -> option Z := fun t => if (60 <=? t)%nat && (t <? 80)%nat then Some 5 else None.
#[local] Instance env : SpoolEnv := sample_env outage.

Definition damaged : Inner :=
  let w := (enqueue event_a sample_now (opened (open sample_config sample_key sample_now no_disk))).2 in
  damage (en_path (the_entry w event_a)) w.
Definition interrupted : Inner := (next_batch_v2 sample_now damaged).2.
Definition reopen (n : nat) : Result SpoolError Inner * Os SpoolPath :=
  open sample_config sample_key (sample_now + 1000) {| os_disk := in_disk interrupted; os_tick := n |}.

(** A batch found a corrupt record, persisted its gap notice and failed to move
    the file away.  The notice is durable, but the spool cannot be opened again:
    recovery derives the notice from the record identifier, the running spool
    from the stable identifier, so the two notices differ and clash. *)
Theorem interrupted_quarantine_blocks_reopen :
  failed (next_batch_v2 sample_now damaged).1 = Some SpoolIo /\
  size (gaps (in_state interrupted)) = 1%nat /\
  failed (reopen 100).1 = Some CorruptRecord /\
  failed (open sample_config sample_key (sample_now + 2000) (reopen 100).2).1 = Some CorruptRecord.
Proof. by vm_compute. Qed.
End Interrupted.

(** ** A counted expiry whose record is quarantined *)

Module StaleExpiry.
#[local] Instance env : SpoolEnv := sample_env no_faults.
(** Room for one gap notice, not for two. *)
Definition tight : SpoolConfig := {|
  max_bytes := 5000; max_records := 10; retention_ms := 60000; batch_max_bytes := 100000; batch_max_records := 5 |}.
Definition much_later : Z := later + 100000.

(** [a] has expired into a gap notice; [b] has expired too, and is counted,
    but its notice does not fit. *)
Definition deferred : Inner :=
  let w := (enqueue event_a sample_now (opened (open tight sample_key sample_now no_disk))).2 in
  let w := (enqueue event_b later (expire_due later w).2).2 in
  (expire_due much_later w).2.
Definition batch : HubBatchV2 := the_batch (build_batch_v2 deferred).1.
Definition ack_first_gap : HubAckV2 := {|
  a2_version := 2; a2_batch_id := b2_batch_id batch; a2_accepted_record_ids := [];
  a2_accepted_gap_notice_ids := map gn_notice_id (take 1 (b2_gaps batch)) |}.
Definition acknowledged : Inner := (acknowledge_v2 ack_first_gap deferred).2.
Definition damaged : Inner := damage (en_path (the_entry acknowledged event_b)) acknowledged.
Definition stale_v1_ack : HubAckV1 := {|
  a1_version := 1; a1_batch_id := hex_encode (replicate 32 x00); a1_accepted_record_ids := [] |}.
Definition quarantined_b : Inner := (acknowledge stale_v1_ack damaged).2.

(** A version-1 acknowledgement rebuilds its batch, finds the file of the
    counted record damaged and quarantines it, but the record stays counted:
    the next start finds an expiry that neither a retention notice nor a
    receipt explains, and refuses to open. *)
Theorem stale_expiry_blocks_reopen :
  failed (open tight sample_key much_later (in_os acknowledged)).1 = None /\
  failed (acknowledge stale_v1_ack damaged).1 = Some ProtocolUpgradeRequired /\
  size (gaps (in_state quarantined_b)) = 1%nat /\
  size (counted_pending_expirations (in_state quarantined_b)) = 1%nat /\
  failed (open tight sample_key much_later (in_os quarantined_b)).1 = Some CorruptRecord.
Proof. by vm_compute. Qed.
End StaleExpiry.

(** ** A credential store that cannot be examined *)

Module ReplacedStore.
(** One failing call: the sixth, by which [open] asks whether the store exists. *)
Definition glitch : nat -> option Z := fun t => if (t =? 5)%nat then Some 5 else None.
#[local] Instance env : CredentialEnv := sample_credentials_env glitch.

Definition reopened : Result CredentialError unit * Os str := open_store store_path (store_disk None).

(** The store holds a credential whose token is valid.  One failed metadata
    call during [CredentialStore::open] is taken for a missing store, which is
    then replaced by an empty one: the token is gone. *)
Theorem open_replaces_unreadable_store :
  (verify store_path hub_token sample_now (store_disk None)).1 = Ok true /\
  reopened.1 = Ok tt /\
  (verify store_path hub_token sample_now reopened.2).1 = Ok false.
Proof. by vm_compute. Qed.
End ReplacedStore.

(** ** An acknowledgement that accepts nothing *)

Module EmptyAcknowledgement.
#[local] Instance env : SpoolEnv := sample_env no_faults.

Definition accept_none : HubAckV2 := {|
  a2_version := 2; a2_batch_id := b2_batch_id batch_ab; a2_accepted_record_ids := []; a2_accepted_gap_notice_ids := [] |}.
Definition accept_all : HubAckV2 := {|
  a2_version := 2; a2_batch_id := b2_batch_id batch_ab;
  a2_accepted_record_ids := map br2_record_id (b2_records batch_ab);
  a2_accepted_gap_notice_ids := map gn_notice_id (b2_gaps batch_ab) |}.
Definition none_accepted : Inner := (acknowledge_v2 accept_none stored_ab).2.

(** The delivery contract lets the hub acknowledge no items.  The receipt of
    such an acknowledgement is stored under the identifier of a batch that is
    still the one to deliver: the same batch is served again, and accepting
    any of it is refused as a conflict with that receipt, for as long as the
    batch stays the same. *)
Theorem empty_acknowledgement_blocks_batch :
  failed (acknowledge_v2 accept_none stored_ab).1 = None /\
  (next_batch_v2 sample_now none_accepted).1 = Ok batch_ab /\
  failed (acknowledge_v2 accept_all none_accepted).1 = Some InvalidAcknowledgement /\
  failed (acknowledge_v2 accept_all stored_ab).1 = None.
Proof. by vm_compute. Qed.
End EmptyAcknowledgement.

(** ** A record admitted again while its batch is built *)

Module Readmission.
#[local] Instance env : SpoolEnv := sample_env no_faults.

Definition batch_a : HubBatchV2 := the_batch (build_batch_v2 stored_a).1.
Definition accept_a : HubAckV2 := {|
  a2_version := 2; a2_batch_id := b2_batch_id batch_a;
  a2_accepted_record_ids := map br2_record_id (b2_records batch_a); a2_accepted_gap_notice_ids := [] |}.
Definition calls : list Cmd := [CNextBatchV2 sample_now; CAcknowledgeV2 accept_a; CEnqueue event_a later].

(** The batch has seen the record; the acknowledgement deletes it; the batch
    finds no file; the receiver delivers the same envelope again. *)
Definition up_to_admission : list nat := replicate 4 0%nat ++ replicate 14 1%nat ++ [0%nat] ++ replicate 4 2%nat.
Definition rest_of_batch : list nat := replicate 12 0%nat.
Definition readmitted : list Thread * Inner := interleave 5 up_to_admission (begin calls stored_a).
Definition batched : list Thread * Inner := interleave 5 rest_of_batch readmitted.

Definition answer (t : Thread) : option (option SpoolError) :=
  match t with Finished _ r => Some (failed r) | _ => None end.
Definition pending_seqs (s : State) : list Z := map en_spool_seq (btree_values (entries s)).
Definition missing_seqs (s : State) : list Z := map (fun g => gn_spool_seq (ge_notice g)) (btree_values (gaps s)).

(** [quarantine_runtime_entry] asks only whether the identifier is pending.  It
    takes the new record, of sequence 2, for the old one, records a gap for
    sequence 1, which the Hub had accepted, and forgets the new record: until
    the next start the spool answers for sequence 2 neither as a record nor as
    a gap, though its file is in place. *)
Theorem readmission_hides_record :
  map answer batched.1 = [Some None; Some None; Some None] /\
  pending_seqs (in_state readmitted.2) = [2] /\ missing_seqs (in_state readmitted.2) = [] /\
  pending_seqs (in_state batched.2) = [] /\ missing_seqs (in_state batched.2) = [1] /\
  match in_disk batched.2 !! en_path (the_entry readmitted.2 event_a) with Some (File _) => True | _ => False end /\
  orderly_run 5 calls stored_a (up_to_admission ++ rest_of_batch) = false.
Proof. by vm_compute. Qed.
End Readmission.

(** ** A record that expires while it is acknowledged *)

Module LateExpiry.
#[local] Instance env : SpoolEnv := sample_env no_faults.

Definition calls : list Cmd := [CAcknowledgeV2 Readmission.accept_a; CNextBatchV2 Witness.later].
(** The acknowledgement has rebuilt its batch, collected what it accepts and
    drawn a sequence; the next batch expires the record; the acknowledgement
    goes on. *)
Definition schedule : list nat := replicate 8 0%nat ++ replicate 9 1%nat ++ replicate 8 0%nat.
Definition final : list Thread * Inner := interleave 5 schedule (begin calls stored_a).

(** Both calls succeed.  The Hub is told that its acceptance of sequence 1 is
    recorded, and a gap notice for sequence 1 is pending: it will be told that
    the record it has stored is missing. *)
Theorem late_expiry_reports_accepted_record :
  map Readmission.answer final.1 = [Some None; Some None] /\
  Readmission.pending_seqs (in_state final.2) = [] /\ Readmission.missing_seqs (in_state final.2) = [1] /\
  map (fun re => map ra_spool_seq (ar_accepted_admissions (re_receipt re)))
    (btree_values (receipts (in_state final.2))) = [[1]] /\
  orderly_run 5 calls stored_a schedule = true.
Proof. by vm_compute. Qed.
End LateExpiry.
